(* ===== verification/_CoqProject ===== *)
-Q . S2P
Prelude.v
Boot.v
Wire.v
Routing.v
Discovery.v
Mailbox.v
MailboxInv.v
ActorSpec.v
ActorTerm.v
Store.v
Wallet.v
WalletSpec.v
WalletTypes.v
WalletSystem.v
Reconciliation.v
Node.v
NodeInv.v
LedgerView.v
NodeLedger.v
NodeOnce.v
NodeExact.v
NodeLife.v
NodeTerm.v
NodeRace.v
NodeMain.v
Cluster.v
ClusterLedger.v
Origin.v
Server.v
Callbacks.v
Client.v
ClientInv.v
ClientRace.v
ClientLife.v
ClientTerm.v
Stress.v
System.v
Once.v
ClientMain.v
Gateway.v
