(* ===== verification/Prelude.v ===== *)
(** * A verification library for actor_cluster

    ** The program

    actor_cluster (Go) keeps wallets.  A client (cmd/client) gives a transaction to
    the node that owns the account; the node (cmd/node, internal/node) runs one actor
    per account, which executes the transactions of the account one at a time and
    writes each as one row to Cassandra before it acknowledges it.  The parts, from
    the bottom up:

    - pkg/discovery: an account hashes to one of 1024 slots; the slots are spread over
      the node list found in etcd, which every process watches.
    - pkg/actor: the actor runtime, a lock-free multi-producer single-consumer
      mailbox with pooled nodes, a wake channel and one event loop per actor.
    - pkg/persistence: batched writes and scans over a gocql session.
    - internal/node/actor.go: the wallet actor, with its balance, version, window of
      1000 recent transaction ids, rehydration from snapshot and events.
    - internal/node/node.go: 256 shards of actors, the guards on incoming batches, the
      reply routes from request ids to gRPC streams, the aggregator of results,
      eviction, passivation, shutdown.  reconciliation.go: the balance audit.
    - pkg/remote: the messages, the error codes and the gRPC stream handler.
    - cmd/client: the router with one streamer per node, the callback map that hands
      results to callers, the load generator and an HTTP gateway.

    ** Files, and what they model

    - [Prelude]: record update, panics as [option], machine integers as [Z] with
      explicit wrap-around ([u64], [i64], ...), wrapped sums, reachability, sums over
      maps.  [Boot]: functions with deferred calls, as a monad.
    - [Wire]: pb messages, errors.go, encoding/binary.
    - [Routing]: table.go.  [Discovery]: etcd_resolver.go, resolver.go (the class
      [TopologyResolver]), mock_resolver.go; etcd is a list of observations.
    - [Mailbox]: actor.go as a step relation, one shared access per step ([state] is
      Actor, its queue nodes and the pool; [producer_step], [loop_step], [stop_step],
      [drain_step] are Send/SendEnvelope, loop/dequeue/Start, Stop, Drain).
      [MailboxInv]: its invariant.  [ActorSpec]: its theorems.  [ActorTerm]: it comes to
      rest; the bound is the weight of a state.
    - [Store]: store.go (the class [Store]) and cassandra_store.go over a gocql session,
      which is a parameter (the class [Session]) with the documented behaviour of the
      two tables as laws ([SessionDB], [WalletDB]); an in-memory session with faults
      shows that the laws can be met.
    - [Wallet]: internal/node/actor.go.  [WalletSpec]: the ledger it refines.
      [WalletTypes]: its type soundness.  [WalletSystem]: one account over time, with crashes, restarts, late snapshots
      and failing writes.  [Reconciliation]: reconciliation.go.
    - [Node]: node.go as a step relation over any number of goroutines ([hb_step] is
      HandleBatch, [actor_step] an actor's goroutine with Emit, [kill_step] the
      background part of forceKillLocalActor, [agg_step] aggregatorLoop, [pass_step]
      passivationLoop, [node_stop_step] Stop).  An actor is used through what
      [ActorSpec] shows.  [NodeInv], [NodeOnce], [NodeExact]: invariants and theorems.
      [NodeLife]: which actors accept messages and who refers to them.  [NodeTerm]: the
      node comes to rest; the bound is the weight of a state.  [NodeRace]: two actors of
      one account.  [LedgerView]: what the ledgers need of a set of wallet actors over a
      store.  [NodeLedger]: node, wallets and store together, when an account has one
      writer at a time.
    - [NodeMain]: cmd/node/main.go (the advertised address, start and shutdown, the
      metrics page).  [Cluster]: several nodes and a client over the same members.
      [ClusterLedger]: several nodes over one store, which boot, crash and see the
      topology change.  [Origin]: every result and every row of a cluster goes back to
      an envelope that was given to it.
    - [Server]: server.go, types.go.
    - [Callbacks], [Client]: router.go and streamer.go as a step relation
      ([call_step] is dispatchEnvelope with getStreamer, ExecuteAndWait and
      callbackTimeout; [flusher_step], [receiver_step], [fail_step] are the goroutines
      of a streamer; [stopall_step] is StopAll).  [ClientInv]: theorems.
      [ClientRace]: a deadlock.  [ClientLife]: who holds which lock and waits for whom.
      [ClientTerm]: calls return; the bound is the weight of a state.
    - [Stress]: stress.go and the request ids of main.go.  [ClientMain]: the client's
      main.go, its two commands, the load generators, the metrics reporter and the
      gateway's shutdown.  [Gateway]: the handlers of serve.go and the server they make.
    - [System]: any number of clients and nodes over one store, joined by a network that
      loses, repeats, reorders and misdelivers messages but does not make them up.
      [Once]: how often a request is carried out.

    ** What the theorems show

    - The mailbox refines an atomic FIFO queue; every accepted envelope is handled once
      and in order, by one goroutine; no wake-up is lost; the pool is safe; a stopping
      actor drains ([ActorSpec]).  The one window in which an accepted envelope is lost
      is exhibited ([actor_stop_race]).  Between calls an actor takes boundedly many
      steps, after which every call has returned and nothing accepted is left
      ([ActorTerm]).
    - The wallet refines a ledger: a success is durable, no balance is ever negative, a
      repeated transaction id within the window has no effect, rehydration restores the
      balance, the version and the ids after the snapshot, gaps are detected
      ([WalletSystem]); what a restart forgets is exhibited.
      A well-typed actor stays well typed and never panics ([WalletTypes]).
    - The node answers a stream only for its own requests, and no request more often
      than it was submitted; a request whose key is used once is never lost, and a node
      at rest has answered it exactly once ([NodeExact]).  Between batches a node takes
      boundedly many working steps and can take one until it is at rest; what is then
      unanswered was accepted by an actor as it exited ([NodeTerm]).  Accounts live in
      their shard;
      only nil envelopes and a panicking resolver crash it ([NodeOnce], [NodeInv]).  That shutdown can drop
      results and that an eviction can lose an acknowledged transaction is exhibited.
      As long as every account has one writer at a time, which is the case while no
      actor loses its reference, the node keeps every history and every success it
      sent is in one ([NodeLedger]).  The same holds of several nodes over one store
      through crashes, restarts and changes of the topology.  While their resolvers
      agree, their addresses differ, none shuts down and none passivates an idle actor,
      no actor loses its reference and the one writer of an account is on its owner
      ([ClusterLedger]).
    - With the same members in view exactly one node accepts an account's envelopes and
      every client sends them there ([Cluster]); while views differ two can
      ([stale_view_overlap]).  A node process registers the address it serves, and
      releases what it acquired when it returns or main panics; when a server goroutine
      panics, or GracefulStop waits for a stream that does not end, it does not
      ([NodeMain]).
    - Resolvers that see the same members agree, whatever the order and the errors of
      etcd; every account has an owner; slots are balanced; the hash is a bijection
      before its mask ([Discovery], [Routing]).
    - End to end: a success that ExecuteAndWait returns is for the request it was given,
      and a transaction with the id and amount of that request is in the history of the
      account, through crashes of nodes and faults of the network ([System]; the
      hypothesis that request and transaction ids are distinct is met by those that
      nextRequestID draws in processes with different machine ids,
      [generated_distinct]).  If the network
      delivers no envelope more often than it was sent, an account gets no more rows with
      a transaction id than calls asked for it, whatever is retried, evicted or crashes
      ([Once]).
    - The client gives every caller a result for its own request and never makes up a
      success; streamers are FIFO and what they give up or abandon when they end is
      stated; the callback map is a flat map, FailAll included; request ids are
      unique; amounts and balances pass unchanged through the gateway, which sends one
      transaction per request at most and writes nothing to the store ([ClientInv],
      [Callbacks], [Stress], [Gateway]).  The client takes boundedly many steps
      on what its callers set going, and where it can take none every call has returned
      unless a goroutine is blocked on a full response channel or StopAll waits for the
      network ([ClientTerm]); a run with such a blocked goroutine, in which
      ExecuteAndWait never returns, is exhibited ([ClientRace]).  The load generator only sends complete envelopes with
      fresh ids, and the commands release what they acquire; that the gateway exits
      without waiting for its requests is exhibited ([ClientMain]).

    ** Conventions, bounds and fuel

    A computation that can panic returns an [option], [None] being the panic; errors
    are values of [result] or [option string].  Loops over data are structural, and
    loops over the outside world are folds over what it answers.  [chunks] takes the
    length of its list as fuel, which is enough because every round drops at least one
    element.  Versions are int64: the history theorems assume fewer than 2^63 - 1
    rows of an account.  Counters are uint64 and wrap; theorems about them are modulo
    2^64.  Fields marked as history in a state are never read by a step.

    ** Parameters and what is not modelled

    etcd, gocql, gRPC, the clock, the random source and the scheduler are parameters:
    arguments, observations, or the choice of the next step.  Not modelled: generated
    protobuf and gRPC code beyond the message types, the flag package and the usage
    text, log output, Close methods and accessors that only call a driver or load a
    counter, the bytes of JSON and HTML, conversions to float64 for display.  A batch
    size of 0, which makes the queue of a streamer unbuffered, and a second call of
    Node.Stop, which would panic and which main never makes, are left out.  A
    goroutine's accesses to memory that only it can reach are merged with its next
    shared access.

    ** Plan

    Still to come: the conditions on the timing of eviction and dispatch under which an
    account that moves to another node keeps one writer, which the theorems on the
    histories of several nodes assume; and how long a copy that the network repeats is
    still recognised by the window of recent transaction ids. *)

From Stdlib Require Export ZArith Lia.
From stdpp Require Export prelude gmap strings sorting list numbers.

Declare Scope go_scope.
Delimit Scope go_scope with go.
#[global] Open Scope Z_scope.

Create HintDb gohints.
Create Rewrite HintDb gonorm.

(** ** Record update

    [s <| field := v |>] and [s <| field ::= f |>].  A record gives its eta
    expansion once; the setter of a field is derived from it. *)

Class Eta (R : Type) := eta_expand : R -> R.
Class Setter {R E : Type} (proj : R -> E) := set_field : (E -> E) -> R -> R.
Arguments set_field {R E} proj {Setter} f r : rename.

Ltac derive_setter R E proj :=
  exact (fun (f : E -> E) (r : R) => ltac:(
    let e := constr:(@eta_expand R _ r) in
    let b := eval hnf in e in
    lazymatch b with
    | context C [proj r] => let b' := context C [f (proj r)] in exact b'
    end)).

#[export] Hint Extern 1 (@Setter ?R ?E ?proj) => derive_setter R E proj : typeclass_instances.

Notation "r <| p := v |>" := (set_field p (fun _ => v) r)
  (at level 1, p at level 9, left associativity, format "r <| p  :=  v |>") : go_scope.
Notation "r <| p ::= f |>" := (set_field p f r)
  (at level 1, p at level 9, left associativity, format "r <| p  ::=  f |>") : go_scope.
#[global] Open Scope go_scope.

(** ** Run-time panics

    A Go computation that can panic (index out of range, nil dereference) is an
    [option]: [None] is the panic.  The bind of the option monad propagates it,
    as Go does when nothing recovers. *)

(** [l[i]] of Go: a negative or too large index panics. *)
Definition go_index {A} (l : list A) (i : Z) : option A :=
  if decide (0 <= i) then l !! Z.to_nat i else None.

(** [l[i] = x] of Go: an index out of range panics, the length never changes. *)
Definition go_update {A} (l : list A) (i : Z) (x : A) : option (list A) :=
  if decide (0 <= i < Z.of_nat (length l)) then Some (<[Z.to_nat i := x]> l) else None.

Lemma go_index_lookup {A} (l : list A) (i : Z) :
  0 <= i -> go_index l i = l !! Z.to_nat i.
Proof. intros. unfold go_index. by rewrite decide_True. Qed.

Lemma go_index_Some {A} (l : list A) (i : Z) :
  0 <= i < Z.of_nat (length l) -> exists x, go_index l i = Some x.
Proof.
  intros [? ?]. rewrite go_index_lookup by done.
  destruct (lookup_lt_is_Some_2 l (Z.to_nat i)) as [x Hx]; [lia | by exists x].
Qed.

Lemma go_update_Some {A} (l : list A) (i : Z) (x : A) :
  0 <= i < Z.of_nat (length l) -> go_update l i x = Some (<[Z.to_nat i := x]> l).
Proof. intros. unfold go_update. by rewrite decide_True. Qed.

(** ** Results of functions that return [(T, error)] *)

Inductive result (E A : Type) : Type :=
  | Ok (a : A)
  | Err (e : E).
Arguments Ok {E A} a.
Arguments Err {E A} e.

Definition is_ok {E A} (r : result E A) : bool :=
  match r with Ok _ => true | Err _ => false end.

#[export] Instance result_eq_decision `{EqDecision E, EqDecision A} :
  EqDecision (result E A).
Proof. solve_decision. Defined.

(** ** Machine integers

    A Go integer is a [Z]; the conversions [uint32(x)], [int64(x)], ... and the
    wrap-around of the arithmetic are explicit. *)

Definition wrapU (w z : Z) : Z := z mod 2 ^ w.
Definition wrapS (w z : Z) : Z := (z + 2 ^ (w - 1)) mod 2 ^ w - 2 ^ (w - 1).

Arguments wrapU w z : simpl never.
Arguments wrapS w z : simpl never.
#[global] Strategy 100 [wrapU wrapS].

Abbreviation u32 := (wrapU 32).
Abbreviation u64 := (wrapU 64).
Abbreviation i32 := (wrapS 32).
Abbreviation i64 := (wrapS 64).

Definition is_u64 (z : Z) : Prop := 0 <= z < 2 ^ 64.
Definition is_i32 (z : Z) : Prop := - 2 ^ 31 <= z < 2 ^ 31.
Definition is_i64 (z : Z) : Prop := - 2 ^ 63 <= z < 2 ^ 63.

#[export] Instance is_u64_dec z : Decision (is_u64 z).
Proof. unfold is_u64. apply _. Defined.
#[export] Instance is_i32_dec z : Decision (is_i32 z).
Proof. unfold is_i32. apply _. Defined.
#[export] Instance is_i64_dec z : Decision (is_i64 z).
Proof. unfold is_i64. apply _. Defined.

(** [go_arith] reduces the ranges to literals and calls [lia]. *)
Ltac go_arith :=
  unfold is_u64, is_i32, is_i64 in *;
  change (2 ^ 64) with 18446744073709551616 in *;
  change (2 ^ 63) with 9223372036854775808 in *;
  change (2 ^ 32) with 4294967296 in *;
  change (2 ^ 31) with 2147483648 in *;
  lia.

(** [go_decide] settles a decidable closed proposition by evaluation. *)
Ltac go_decide := refine (bool_decide_unpack _ _); vm_compute; exact I.

Lemma wrapU_range w z : 0 <= w -> 0 <= wrapU w z < 2 ^ w.
Proof. intros. apply Z.mod_pos_bound. by apply Z.pow_pos_nonneg. Qed.

Lemma u64_range z : is_u64 (u64 z).
Proof. by apply wrapU_range. Qed.

Lemma u64_id z : is_u64 z -> u64 z = z.
Proof. intros H. by apply Z.mod_small. Qed.

Lemma u64_add_l a b : u64 (u64 a + b) = u64 (a + b).
Proof. unfold wrapU. by rewrite Z.add_mod_idemp_l. Qed.

(** Adding [^uint64(0)] subtracts one. *)
Lemma u64_add_ones z : u64 (z + (2 ^ 64 - 1)) = u64 (z - 1).
Proof.
  unfold wrapU. replace (z + (2 ^ 64 - 1)) with (z - 1 + 1 * 2 ^ 64) by ring.
  by rewrite Z.mod_add.
Qed.

Lemma i64_range z : is_i64 (i64 z).
Proof.
  unfold is_i64, wrapS. change (64 - 1) with 63.
  pose proof (Z.mod_pos_bound (z + 2 ^ 63) (2 ^ 64) ltac:(done)). go_arith.
Qed.

Lemma i64_id z : is_i64 z -> i64 z = z.
Proof.
  intros H. unfold wrapS. change (64 - 1) with 63.
  rewrite Z.mod_small; go_arith.
Qed.

(** [i64 z] is the representative of [z] modulo [2^64]: two integers with the
    same residue wrap to the same [int64]. *)
Lemma i64_congr a b k : a = b + k * 2 ^ 64 -> i64 a = i64 b.
Proof.
  intros ->. unfold wrapS.
  replace (b + k * 2 ^ 64 + 2 ^ (64 - 1)) with (b + 2 ^ (64 - 1) + k * 2 ^ 64) by ring.
  by rewrite Z.mod_add.
Qed.

Lemma i64_decompose z : exists k, i64 z = z + k * 2 ^ 64.
Proof.
  exists (- ((z + 2 ^ 63) / 2 ^ 64)). unfold wrapS. change (64 - 1) with 63.
  pose proof (Z.div_mod (z + 2 ^ 63) (2 ^ 64) ltac:(done)). lia.
Qed.

Lemma i64_add_l a b : i64 (i64 a + b) = i64 (a + b).
Proof.
  destruct (i64_decompose a) as [k Hk]. apply (i64_congr _ _ k). lia.
Qed.

Lemma i64_add_r a b : i64 (a + i64 b) = i64 (a + b).
Proof. by rewrite Z.add_comm, i64_add_l, Z.add_comm. Qed.

Lemma i64_i64 a : i64 (i64 a) = i64 a.
Proof. apply i64_id, i64_range. Qed.

Lemma i64_u64 a : i64 (u64 a) = i64 a.
Proof.
  unfold wrapU. pose proof (Z.div_mod a (2 ^ 64) ltac:(done)).
  apply (i64_congr _ _ (- (a / 2 ^ 64))). lia.
Qed.

Lemma u64_i64 a : u64 (i64 a) = u64 a.
Proof.
  destruct (i64_decompose a) as [k ->]. unfold wrapU. by rewrite Z.mod_add.
Qed.

#[export] Hint Resolve u64_range i64_range : gohints.
#[export] Hint Rewrite i64_add_l i64_add_r i64_i64 i64_u64 u64_i64 : gonorm.

(** ** Lists *)

(** The wrapped sum of a list of [int64], in the order in which a loop
    [acc += x] meets them. *)
Definition sum_i64 (acc : Z) (l : list Z) : Z := foldl (fun a x => i64 (a + x)) acc l.

Definition zsum (l : list Z) : Z := foldr Z.add 0 l.

Lemma zsum_app l k : zsum (l ++ k) = zsum l + zsum k.
Proof. induction l; simpl; [done | rewrite IHl; lia]. Qed.

Lemma sum_i64_app acc l k : sum_i64 acc (l ++ k) = sum_i64 (sum_i64 acc l) k.
Proof. apply foldl_app. Qed.

(** Wrapping at every addition or once at the end is the same. *)
Lemma sum_i64_zsum acc l : i64 (sum_i64 acc l) = i64 (acc + zsum l).
Proof.
  revert acc. induction l as [|x l IH]; intros acc; simpl.
  - by rewrite Z.add_0_r.
  - unfold sum_i64 in *. simpl. rewrite IH.
    autorewrite with gonorm. f_equal. lia.
Qed.

Lemma sum_i64_is_i64 acc l : is_i64 acc -> is_i64 (sum_i64 acc l).
Proof.
  revert acc. induction l; intros acc ?; simpl; [done|].
  apply IHl, i64_range.
Qed.

Lemma sum_i64_eq acc l : is_i64 acc -> sum_i64 acc l = i64 (acc + zsum l).
Proof.
  intros. rewrite <- sum_i64_zsum. symmetry. by apply i64_id, sum_i64_is_i64.
Qed.

(** Filters that agree on the elements of the list are equal. *)
Lemma filter_ext_in {A} (P Q : A -> Prop)
    `{!forall x, Decision (P x), !forall x, Decision (Q x)} (l : list A) :
  (forall x, x ∈ l -> P x <-> Q x) -> filter P l = filter Q l.
Proof.
  induction l as [|x l IH]; intros Heq; [done|].
  rewrite !filter_cons, IH by (intros y Hy; apply Heq; by right).
  pose proof (Heq x ltac:(by left)). repeat case_decide; tauto || f_equal.
Qed.

(** ** Reachability

    A state machine is a relation [step]; an invariant that holds initially and
    is preserved by every step holds in every reachable state. *)

Lemma rtc_invariant {A} (step : relation A) (I : A -> Prop) x y :
  (forall a b, I a -> step a b -> I b) -> I x -> rtc step x y -> I y.
Proof. intros Hstep Hx Hr. induction Hr; eauto. Qed.

(** Runs by evaluation: one step, whose result is computed and recorded as a
    normal form so that the next step starts from it. *)
Lemma rtc_step_eq {A} (R : relation A) x y y' z : R x y -> y = y' -> rtc R y' z -> rtc R x z.
Proof. intros Hs -> Hr. by eapply rtc_l. Qed.

Lemma nsteps_step_eq {A} (R : relation A) k x y y' z :
  R x y -> y = y' -> nsteps R k y' z -> nsteps R (S k) x z.
Proof. intros Hs -> Hr. by eapply nsteps_l. Qed.

Ltac evaluate_state :=
  lazymatch goal with |- ?x = _ => let y := eval vm_compute in x in exact (eq_refl y <: x = y) end.

Lemma nsteps_mono {A} (P Q : relation A) k x y : (forall a b, P a b -> Q a b) -> nsteps P k x y -> nsteps Q k x y.
Proof. intros HPQ Hs. induction Hs; [constructor|]. eapply nsteps_l; eauto. Qed.

(** ** Sums over maps *)

Definition msum {A} (f : A -> nat) (m : gmap nat A) : nat :=
  sum_list_with (fun kv => f kv.2) (map_to_list m).

Lemma sum_list_with_perm {A} (f : A -> nat) l l' : l ≡ₚ l' -> sum_list_with f l = sum_list_with f l'.
Proof. induction 1; simpl; lia. Qed.

Lemma msum_new {A} (f : A -> nat) m i x : m !! i = None -> msum f (<[i := x]> m) = (f x + msum f m)%nat.
Proof. intros Hi. unfold msum. by rewrite (sum_list_with_perm _ _ _ (map_to_list_insert m i x Hi)). Qed.

Lemma msum_update {A} (f : A -> nat) m i x y :
  m !! i = Some y -> (msum f (<[i := x]> m) + f y = f x + msum f m)%nat.
Proof.
  intros Hi. rewrite <- (insert_delete_id m i y) at 2 by done. rewrite <- insert_delete_eq.
  rewrite !msum_new by apply lookup_delete_eq. lia.
Qed.

Lemma msum_delete {A} (f : A -> nat) m i x : m !! i = Some x -> (f x + msum f (delete i m) = msum f m)%nat.
Proof. intros Hi. rewrite <- (insert_delete_id m i x Hi) at 2. by rewrite msum_new by apply lookup_delete_eq. Qed.

Lemma msum_imap {A} (f : A -> nat) (g : nat -> A -> A) m :
  (forall i x, f (g i x) = f x) -> msum f (map_imap (fun i x => Some (g i x)) m) = msum f m.
Proof.
  intros Hg. induction m as [|i x m Hi IH] using map_ind; [by rewrite map_imap_empty|].
  rewrite map_imap_insert_Some with (y := g i x) by done.
  rewrite !msum_new by (done || by rewrite map_lookup_imap, Hi). by rewrite Hg, IH.
Qed.

Lemma msum_alter {A} (f : A -> nat) g i m : (forall x, f (g x) = f x) -> msum f (alter g i m) = msum f m.
Proof.
  intros Hg. destruct (m !! i) as [x|] eqn:Hi.
  - assert (alter g i m = <[i := g x]> m) as ->.
    { apply map_eq. intros j. rewrite lookup_alter, lookup_insert. case_decide; [subst; by rewrite Hi|done]. }
    pose proof (msum_update f m i (g x) x Hi) as Hu. rewrite Hg in Hu. lia.
  - f_equal. apply map_eq. intros j. rewrite lookup_alter. case_decide; [subst; by rewrite Hi|done].
Qed.

(** The sum over all the lists of a map, and over a part of a list. *)
Lemma msum_bind {A B} (f : B -> nat) (g : A -> list B) (m : gmap nat A) :
  sum_list_with f (map_to_list m ≫= fun iv => g iv.2) = msum (fun x => sum_list_with f (g x)) m.
Proof.
  unfold msum. induction (map_to_list m) as [|iv l IH]; [done|]. simpl. rewrite sum_list_with_app. by f_equal.
Qed.

Lemma sum_submseteq {A} (f : A -> nat) l l' : l ⊆+ l' -> (sum_list_with f l <= sum_list_with f l')%nat.
Proof. induction 1; simpl; lia. Qed.

Lemma msum_le {A} (f g : A -> nat) m : (forall i x, m !! i = Some x -> (f x <= g x)%nat) -> (msum f m <= msum g m)%nat.
Proof.
  induction m as [|i x m Hi IH] using map_ind; intros Hle; [done|]. rewrite !msum_new by done.
  pose proof (Hle i x (lookup_insert_eq _ _ _)).
  assert (msum f m <= msum g m)%nat; [|lia]. apply IH. intros j y Hj. apply (Hle j).
  rewrite lookup_insert_ne by congruence. done.
Qed.

Lemma msum_lookup {A} (f : A -> nat) m i x : m !! i = Some x -> (f x <= msum f m)%nat.
Proof.
  intros Hi. rewrite <- (insert_delete_id m i x Hi), msum_new by apply lookup_delete_eq. apply Nat.le_add_r.
Qed.

Lemma msum_lt {A} (f g : A -> nat) m i x :
  (forall i x, m !! i = Some x -> (f x <= g x)%nat) -> m !! i = Some x -> (f x < g x)%nat -> (msum f m < msum g m)%nat.
Proof.
  intros Hle Hi Hlt. rewrite <- (insert_delete_id m i x Hi).
  rewrite !msum_new by apply lookup_delete_eq.
  assert (msum f (delete i m) <= msum g (delete i m))%nat; [|lia].
  apply msum_le. intros j y [_ Hj]%lookup_delete_Some. by apply (Hle j).
Qed.

Lemma msum_zero {A} (f : A -> nat) m : (forall i x, m !! i = Some x -> f x = 0%nat) -> msum f m = 0%nat.
Proof.
  intros Hz. induction m as [|i x m Hi IH] using map_ind; [done|]. rewrite msum_new by done.
  rewrite (Hz i x (lookup_insert_eq _ _ _)), IH; [done|]. intros j y Hj. apply (Hz j).
  rewrite lookup_insert_ne by congruence. done.
Qed.

Lemma filter_all {A} (p : A -> bool) (l : list A) : (forall x, p x = true) -> filter (fun x => p x = true) l = l.
Proof. intros Hp. induction l as [|x l IH]; [done|]. by rewrite filter_cons, decide_True, IH. Qed.

Lemma msum_add {A} (f : A -> nat) c m : msum (fun x => f x + c)%nat m = (msum f m + c * size m)%nat.
Proof.
  induction m as [|i x m Hi IH] using map_ind; [by rewrite map_size_empty, Nat.mul_0_r|].
  rewrite !msum_new, map_size_insert_None, IH by done. lia.
Qed.

Lemma msum_pos {A} (f : A -> nat) m : (0 < msum f m)%nat -> exists i x, m !! i = Some x /\ (0 < f x)%nat.
Proof.
  induction m as [|i x m Hi IH] using map_ind; [by intros ?%Nat.lt_irrefl|].
  rewrite msum_new by done. destruct (f x) as [|c] eqn:E.
  - simpl. intros (j & y & Hj & Hy)%IH. exists j, y. rewrite lookup_insert_ne by congruence. done.
  - intros _. exists i, x. rewrite lookup_insert_eq. split; [done|lia].
Qed.

Lemma map_forall_or {A} (P : A -> Prop) (Q : Prop) (m : gmap nat A) :
  (forall i x, m !! i = Some x -> P x \/ Q) -> (forall i x, m !! i = Some x -> P x) \/ Q.
Proof.
  induction m as [|i x m Hi IH] using map_ind; intros Hall; [by left|].
  destruct (Hall i x (lookup_insert_eq _ _ _)) as [Hx|]; [|by right].
  destruct IH as [Hm|]; [|left|by right].
  - intros j y Hj. apply (Hall j). rewrite lookup_insert_ne by congruence. done.
  - intros j y. rewrite lookup_insert. case_decide; [by intros [= <-]|apply Hm].
Qed.

Definition fresh_id {A} (m : gmap nat A) : nat := fresh (dom m).
Lemma fresh_id_None {A} (m : gmap nat A) : m !! fresh_id m = None.
Proof. apply not_elem_of_dom, is_fresh. Qed.

(** A test of every entry of a map. *)
Definition map_forallb {A} (p : A -> bool) (m : gmap nat A) : bool := forallb (fun kv => p kv.2) (map_to_list m).

Lemma map_forallb_lookup {A} (p : A -> bool) m i x : map_forallb p m = true -> m !! i = Some x -> p x = true.
Proof.
  intros Hp Hi. unfold map_forallb in Hp. rewrite forallb_forall in Hp.
  apply (Hp (i, x)), list_elem_of_In. by apply elem_of_map_to_list.
Qed.

