(* ===== verification/Boot.v ===== *)
(** * Programs that acquire and release

    The main functions of cmd/node and cmd/client are straight sequences of calls that
    can fail, with deferred calls that run, last one first, when the function returns
    or panics.  [boot] is the monad of such a function over a type [C] of calls: it
    records the calls made and the calls deferred. *)

From Stdlib Require Import Ascii.
From S2P Require Import Prelude.

(** How the function ends: it returns, it panics (its deferred calls still run), or
    another goroutine panics (they do not), or it is still inside a call. *)
Inductive exit (A : Type) := Returned (a : A) | Panicked (e : string) | Killed (e : string) | Blocked.
Arguments Returned {A} a.
Arguments Panicked {A} e.
Arguments Killed {A} e.
Arguments Blocked {A}.

Record boot_state (C : Type) := mkBoot { b_trace : list C; b_deferred : list C }.
Arguments mkBoot {C}.
Arguments b_trace {C} b : rename.
Arguments b_deferred {C} b : rename.

Definition boot (C A : Type) : Type := boot_state C -> boot_state C * exit A.

Section Boot.
Context {C : Type}.

Definition bret {A} (a : A) : boot C A := fun st => (st, Returned a).
Definition bbind {A B} (m : boot C A) (f : A -> boot C B) : boot C B := fun st =>
  let '(st', r) := m st in
  match r with
  | Returned a => f a st'
  | Panicked e => (st', Panicked e)
  | Killed e => (st', Killed e)
  | Blocked => (st', Blocked)
  end.
Definition bcall (c : C) : boot C unit := fun st => (mkBoot (b_trace st ++ [c]) (b_deferred st), Returned tt).
Definition bdefer (c : C) : boot C unit := fun st => (mkBoot (b_trace st) (c :: b_deferred st), Returned tt).
Definition bpanic {A} (e : string) : boot C A := fun st => (st, Panicked e).
Definition bkilled {A} (e : string) : boot C A := fun st => (st, Killed e).
Definition bblocked {A} : boot C A := fun st => (st, Blocked).

(** The calls a run makes, the deferred ones at its end. *)
Definition run {A} (m : boot C A) : list C * exit A :=
  let '(st, r) := m (mkBoot [] []) in
  (b_trace st ++ match r with Killed _ | Blocked => [] | _ => b_deferred st end, r).
End Boot.

(** [boot_reduce] runs a program up to the next answer of the outside. *)
Ltac boot_reduce :=
  repeat first [progress unfold bbind, bret, bcall, bdefer, bpanic, bblocked, bkilled
               | progress cbn [b_trace b_deferred app fmap option_fmap option_map]].

Declare Scope boot_scope.
Delimit Scope boot_scope with boot.
Notation "x <- m ;; k" := (bbind m (fun x => k)) (at level 60, m at next level, right associativity) : boot_scope.
Notation "m ;;; k" := (bbind m (fun _ => k)) (at level 60, right associativity) : boot_scope.

(** ** Brackets

    [effect c] says which resource a call opens or closes. *)

Inductive bracket (Res : Type) := Opens (r : Res) | Closes (r : Res) | Neutral.
Arguments Opens {Res} r.
Arguments Closes {Res} r.
Arguments Neutral {Res}.

(** Every resource that is opened is closed once, the last one first; what is left
    open is on the stack. *)
Fixpoint brackets {C Res} `{EqDecision Res} (effect : C -> bracket Res) (stack : list Res) (tr : list C) :
    option (list Res) :=
  match tr with
  | [] => Some stack
  | c :: tr' =>
      match effect c with
      | Neutral => brackets effect stack tr'
      | Opens r => brackets effect (r :: stack) tr'
      | Closes r =>
          match stack with
          | r' :: stack' => if decide (r' = r) then brackets effect stack' tr' else None
          | [] => None
          end
      end
  end.

(** [strings.Split(s, ",")]. *)
Fixpoint SplitComma (s : string) : list string :=
  match s with
  | EmptyString => [EmptyString]
  | String c s' =>
      let rest := SplitComma s' in
      if decide (c = ","%char) then EmptyString :: rest
      else match rest with x :: xs => String c x :: xs | [] => [String c EmptyString] end
  end.

Lemma brackets_app {C Res} `{EqDecision Res} (effect : C -> bracket Res) tr1 tr2 stack :
  brackets effect stack (tr1 ++ tr2) = brackets effect stack tr1 ≫= fun s => brackets effect s tr2.
Proof.
  revert stack. induction tr1 as [|c tr1 IH]; intros stack; [done|]. simpl.
  destruct (effect c); [done| |done]. destruct stack as [|x stack]; [done|]. by case_decide.
Qed.

Lemma brackets_neutral {C Res} `{EqDecision Res} (effect : C -> bracket Res) tr stack :
  Forall (fun c => effect c = Neutral) tr -> brackets effect stack tr = Some stack.
Proof. induction 1 as [|c tr Hc _ IH]; [done|]. simpl. by rewrite Hc. Qed.
