(* ===== verification/Wire.v ===== *)
(** * Wire data: pkg/remote/proto, pkg/remote/pb, pkg/remote/errors.go

    The messages of the [ActorService] stream as records with the fields of the
    generated structs, the stable error strings, and the 8-byte big-endian codec
    ([encoding/binary]) that the wallet payloads use. *)

From S2P Require Import Prelude.

(** ** Messages *)

Record RemoteEnvelope := mkEnvelope {
  EnvTenantId : Z;               (* int32 *)
  EnvUid : Z;                    (* int64 *)
  EnvTxId : string;
  EnvRequestId : Z;              (* uint64 *)
  EnvOpCode : Z;                 (* int32 *)
  EnvPayload : list Byte.byte;
  EnvDeadlineUnixMs : Z;         (* int64 *)
}.

Record RemoteResult := mkResult {
  ResTenantId : Z;
  ResUid : Z;
  ResTxId : string;
  ResRequestId : Z;
  ResOpCode : Z;
  ResSuccess : bool;
  ResErrorCode : string;
  ResErrorMsg : string;
  ResPayload : list Byte.byte;
}.

(** Elements of [repeated] fields are Go pointers, so they can be nil. *)
Record BatchRequest := mkBatchRequest { Envelopes : list (option RemoteEnvelope) }.
Record BatchResponse := mkBatchResponse { Results : list RemoteResult }.

#[export] Instance byte_eq_decision : EqDecision Byte.byte.
Proof. intros x y. apply Byte.byte_eq_dec. Defined.
#[export] Instance RemoteEnvelope_eq_decision : EqDecision RemoteEnvelope.
Proof. solve_decision. Defined.
#[export] Instance RemoteResult_eq_decision : EqDecision RemoteResult.
Proof. solve_decision. Defined.

(** The value ranges the Go types give the fields. *)
Definition envelope_typed (e : RemoteEnvelope) : Prop :=
  is_i32 (EnvTenantId e) /\ is_i64 (EnvUid e) /\ is_u64 (EnvRequestId e) /\
  is_i32 (EnvOpCode e) /\ is_i64 (EnvDeadlineUnixMs e).

#[export] Instance envelope_typed_dec e : Decision (envelope_typed e).
Proof. unfold envelope_typed. apply _. Defined.

(** ** Error codes *)

Definition ErrBadRequest : string := "ERR_BAD_REQUEST".
Definition ErrTransportClosed : string := "ERR_TRANSPORT_CLOSED".
Definition ErrBatchTooLarge : string := "ERR_BATCH_TOO_LARGE".
Definition ErrDeadlineExceeded : string := "ERR_DEADLINE_EXCEEDED".
Definition ErrInternal : string := "ERR_INTERNAL".
Definition ErrWrongNode : string := "ERR_WRONG_NODE".
Definition ErrActorUnavailable : string := "ERR_ACTOR_UNAVAILABLE".
Definition ErrPayloadTooLarge : string := "ERR_PAYLOAD_TOO_LARGE".
Definition ErrRehydrationFailed : string := "ERR_REHYDRATION_FAILED".
Definition ErrNodeOverloaded : string := "ERR_NODE_OVERLOADED".
Definition ErrInvalidPayload : string := "ERR_INVALID_PAYLOAD".
Definition ErrInsufficientFunds : string := "ERR_INSUFFICIENT_FUNDS".
Definition ErrPersistenceFailed : string := "ERR_PERSISTENCE_FAILED".
Definition ErrDiscovery : string := "ERR_DISCOVERY".
Definition ErrConnection : string := "ERR_CONNECTION".
Definition ErrStreamInterrupted : string := "ERR_STREAM_INTERRUPTED".

(** ** encoding/binary, big-endian, 8 bytes *)

Definition byte_val (b : Byte.byte) : Z := Z.of_N (Byte.to_N b).

Definition byte_of (z : Z) : Byte.byte :=
  default Byte.x00 (Byte.of_N (Z.to_N (z mod 256))).

(** [binary.BigEndian.Uint64(b)]: reads b[0..7], panics on a shorter slice. *)
Definition BigEndian_Uint64 (b : list Byte.byte) : option Z :=
  if decide (8 <= length b)%nat
  then Some (foldl (fun acc x => Z.lor (Z.shiftl acc 8) (byte_val x)) 0 (take 8 b))
  else None.

(** [binary.BigEndian.PutUint64(buf, v)] on a fresh 8-byte buffer. *)
Definition BigEndian_PutUint64 (v : Z) : list Byte.byte :=
  (fun i => byte_of (Z.shiftr v (8 * i))) <$> [7; 6; 5; 4; 3; 2; 1; 0].

Lemma byte_val_range b : 0 <= byte_val b < 256.
Proof.
  unfold byte_val. pose proof (Byte.to_N_bounded b). lia.
Qed.

Lemma byte_val_of z : byte_val (byte_of z) = z mod 256.
Proof.
  unfold byte_val, byte_of.
  pose proof (Z.mod_pos_bound z 256 ltac:(lia)) as Hb.
  destruct (Byte.of_N (Z.to_N (z mod 256))) as [b|] eqn:E; simpl.
  - apply Byte.to_of_N in E. rewrite E. lia.
  - apply Byte.of_N_None_iff in E. lia.
Qed.

Lemma land_shift8 a b : 0 <= b < 256 -> Z.land (Z.shiftl a 8) b = 0.
Proof.
  intros Hb. rewrite <- (Z.mod_small b (2 ^ 8)), <- Z.land_ones by lia.
  apply Z.bits_inj'. intros n Hn.
  rewrite !Z.land_spec, Z.bits_0. destruct (decide (n < 8)).
  - by rewrite Z.shiftl_spec_low by lia.
  - rewrite Z.ones_spec_high by lia. by rewrite !andb_false_r.
Qed.

Lemma lor_shift8 a b : 0 <= b < 256 -> Z.lor (Z.shiftl a 8) b = a * 256 + b.
Proof.
  intros Hb. rewrite <- Z.lxor_lor by by apply land_shift8.
  rewrite <- Z.add_nocarry_lxor by by apply land_shift8.
  by rewrite Z.shiftl_mul_pow2.
Qed.

Lemma BigEndian_roundtrip v rest :
  BigEndian_Uint64 (BigEndian_PutUint64 v ++ rest) = Some (u64 v).
Proof.
  unfold BigEndian_Uint64, BigEndian_PutUint64. rewrite decide_True by (simpl; lia).
  f_equal. simpl.
  rewrite !lor_shift8, !byte_val_of by apply byte_val_range.
  rewrite !Z.shiftr_div_pow2 by lia.
  change (2 ^ (8 * 0)) with 1. change (2 ^ (8 * 1)) with 256.
  change (2 ^ (8 * 2)) with 65536. change (2 ^ (8 * 3)) with 16777216.
  change (2 ^ (8 * 4)) with 4294967296. change (2 ^ (8 * 5)) with 1099511627776.
  change (2 ^ (8 * 6)) with 281474976710656.
  change (2 ^ (8 * 7)) with 72057594037927936.
  unfold wrapU. change (2 ^ 64) with 18446744073709551616.
  Z.to_euclidean_division_equations. lia.
Qed.

Lemma length_PutUint64 v : length (BigEndian_PutUint64 v) = 8%nat.
Proof. done. Qed.

Lemma BigEndian_Uint64_Some b :
  (8 <= length b)%nat -> exists v, BigEndian_Uint64 b = Some v.
Proof. intros. unfold BigEndian_Uint64. rewrite decide_True by done. eauto. Qed.
