(* ===== verification/Routing.v ===== *)
(** * Slot hashing and the routing table: pkg/discovery/table.go

    [SlotOf] hashes an actor key to one of 1024 slots, [BuildRoutingTable] expands
    a sorted node list to a table with one owner per slot and [GetNodeIP] reads
    it.  The theorems: the hash never merges two 64-bit keys before the final
    mask, slots are in range, no index panics, every slot of a table built from a
    node list has a node of the list as its owner and the slots are spread evenly. *)

From S2P Require Import Prelude.

(** ** SlotOf *)

Definition PartitionSlots : Z := 1024.
Definition slotMask : Z := PartitionSlots - 1.

(** The [uint64] the hash starts from: [uint64(uint32(t))<<32 ^ uint64(uid)]. *)
Definition slot_key (tenantID uid : Z) : Z :=
  Z.lxor (u64 (Z.shiftl (u32 tenantID) 32)) (u64 uid).

(** [x ^= x >> 33] *)
Definition xorshift33 (x : Z) : Z := Z.lxor x (Z.shiftr x 33).

(** The five updates of [x] in [SlotOf]. *)
Definition mix64 (x : Z) : Z :=
  let x := xorshift33 x in
  let x := u64 (x * 0xff51afd7ed558ccd) in
  let x := xorshift33 x in
  let x := u64 (x * 0xc4ceb9fe1a85ec53) in
  xorshift33 x.

Definition SlotOf (tenantID uid : Z) : Z := Z.land (mix64 (slot_key tenantID uid)) slotMask.

Arguments SlotOf tenantID uid : simpl never.

(** ** Tables *)

(** [[PartitionSlots]string]. *)
Record Table := mkTable { entries : list string }.

Definition table_wf (t : Table) : Prop := length (entries t) = Z.to_nat PartitionSlots.

(** A slot assignment; [None] is an index panic inside it. *)
Definition SlotOwnerFunc := list string -> Z -> option string.

Definition ModuloSlotOwner : SlotOwnerFunc := fun sortedNodeAddrs slot =>
  if decide (length sortedNodeAddrs = 0%nat) then Some ""
  else go_index sortedNodeAddrs (Z.rem slot (Z.of_nat (length sortedNodeAddrs))).

Definition BuildRoutingTable (sortedNodeAddrs : list string) (owner : option SlotOwnerFunc) :
    option Table :=
  if decide (length sortedNodeAddrs = 0%nat)
  then Some (mkTable (replicate (Z.to_nat PartitionSlots) ""))
  else
    let ownerFn := default ModuloSlotOwner owner in
    mkTable <$> mapM (ownerFn sortedNodeAddrs) (seqZ 0 PartitionSlots).

Inductive DiscoveryError := ErrTableNotInitialized | ErrNoOwner.

#[export] Instance DiscoveryError_eq_decision : EqDecision DiscoveryError.
Proof. solve_decision. Defined.

(** [GetNodeIP(table, tenantID, uid)]; a nil [*Table] is [None]. *)
Definition GetNodeIP (table : option Table) (tenantID uid : Z) :
    option (result DiscoveryError string) :=
  match table with
  | None => Some (Err ErrTableNotInitialized)
  | Some t =>
      ip ← go_index (entries t) (SlotOf tenantID uid);
      if decide (ip = "") then Some (Err ErrNoOwner) else Some (Ok ip)
  end.

(** ** The hash *)

Lemma shiftr_u64 x n : is_u64 x -> 0 <= n -> is_u64 (Z.shiftr x n).
Proof.
  intros Hx Hn. rewrite Z.shiftr_div_pow2 by done. unfold is_u64 in *.
  assert (0 < 2 ^ n) by (apply Z.pow_pos_nonneg; lia).
  split; [apply Z.div_pos; lia|].
  apply Z.le_lt_trans with x; [|lia]. apply Z.div_le_upper_bound; nia.
Qed.

Lemma lxor_u64 x y : is_u64 x -> is_u64 y -> is_u64 (Z.lxor x y).
Proof.
  unfold is_u64. intros Hx Hy. split; [apply Z.lxor_nonneg; lia|].
  destruct (decide (Z.lxor x y = 0)) as [->|]; [done|].
  apply Z.log2_lt_pow2; [apply Z.le_neq; split; [apply Z.lxor_nonneg; lia | done]|].
  pose proof (Z.log2_lxor x y ltac:(lia) ltac:(lia)).
  assert (forall z, 0 <= z < 2 ^ 64 -> Z.log2 z < 64) as Hlog.
  { intros z Hz. destruct (decide (z = 0)) as [->|]; [done|]. apply Z.log2_lt_pow2; lia. }
  pose proof (Hlog x Hx). pose proof (Hlog y Hy). lia.
Qed.

Lemma slot_key_u64 t u : is_u64 (slot_key t u).
Proof. apply lxor_u64; apply u64_range. Qed.

Lemma xorshift33_u64 x : is_u64 x -> is_u64 (xorshift33 x).
Proof. intros. apply lxor_u64; [done|]. by apply shiftr_u64. Qed.

(** Two rounds of the shift cancel, because [x >> 66] is zero. *)
Lemma xorshift33_involutive x : is_u64 x -> xorshift33 (xorshift33 x) = x.
Proof.
  intros Hx. unfold xorshift33. rewrite Z.shiftr_lxor, Z.shiftr_shiftr by lia.
  assert (Z.shiftr x (33 + 33) = 0) as ->.
  { rewrite Z.shiftr_div_pow2 by lia. apply Z.div_small. unfold is_u64 in *.
    assert (2 ^ 64 < 2 ^ (33 + 33)) by done. lia. }
  by rewrite Z.lxor_0_r, Z.lxor_assoc, Z.lxor_nilpotent, Z.lxor_0_r.
Qed.

(** Multiplication by an odd constant is undone by its inverse modulo [2^64]. *)
Lemma u64_mul_inverse c d x :
  u64 (c * d) = 1 -> is_u64 x -> u64 (u64 (x * c) * d) = x.
Proof.
  intros Hcd Hx. unfold wrapU in *. rewrite Z.mul_mod_idemp_l by done.
  rewrite <- Z.mul_assoc, <- Z.mul_mod_idemp_r, Hcd, Z.mul_1_r by done.
  by apply Z.mod_small.
Qed.

(** The inverse of [mix64]. *)
Definition unmix64 (x : Z) : Z :=
  let x := xorshift33 x in
  let x := u64 (x * 0x9cb4b2f8129337db) in
  let x := xorshift33 x in
  let x := u64 (x * 0x4f74430c22a54005) in
  xorshift33 x.

Lemma GetNodeIP_index t tenantID uid ip :
  go_index (entries t) (SlotOf tenantID uid) = Some ip ->
  GetNodeIP (Some t) tenantID uid =
    Some (if decide (ip = "") then Err ErrNoOwner else Ok ip).
Proof. intros Hip. unfold GetNodeIP. rewrite Hip. simpl. by case_decide. Qed.

(** [SlotOf] hashes by a bijection of the 64-bit integers followed by the
    1024-slot mask: the mixing step can be undone on every [uint64], so two
    different keys are never merged before the mask. *)
Theorem mix64_bijective (x : Z) (Hx : is_u64 x) :
  unmix64 (mix64 x) = x /\ mix64 (unmix64 x) = x.
Proof.
  unfold unmix64, mix64; split; cbv zeta;
    repeat first
      [ rewrite xorshift33_involutive by auto using u64_range, xorshift33_u64
      | rewrite u64_mul_inverse by (done || auto using u64_range, xorshift33_u64) ];
    done.
Qed.

Lemma SlotOf_range t u : 0 <= SlotOf t u < PartitionSlots.
Proof.
  unfold SlotOf, slotMask. change (PartitionSlots - 1) with (Z.ones 10).
  rewrite Z.land_ones by lia. by apply Z.mod_pos_bound.
Qed.

Lemma SlotOf_index_Some t tenant uid :
  table_wf t -> exists ip, go_index (entries t) (SlotOf tenant uid) = Some ip.
Proof.
  intros Ht. apply go_index_Some. rewrite Ht. pose proof (SlotOf_range tenant uid).
  unfold PartitionSlots in *. lia.
Qed.

(** ** The table built from a node list *)

Section Tables.
Context (nodes : list string).
Abbreviation n := (Z.of_nat (length nodes)).

Lemma ModuloSlotOwner_lookup slot :
  nodes <> [] -> 0 <= slot ->
  ModuloSlotOwner nodes slot = nodes !! Z.to_nat (slot mod n).
Proof.
  intros Hne Hs. unfold ModuloSlotOwner.
  assert (0 < n) by (destruct nodes; simpl; [done | lia]).
  rewrite decide_False by lia. rewrite Z.rem_mod_nonneg by lia.
  apply go_index_lookup. apply Z.mod_pos_bound. lia.
Qed.

Lemma ModuloSlotOwner_Some slot :
  nodes <> [] -> 0 <= slot -> exists ip, ModuloSlotOwner nodes slot = Some ip /\ ip ∈ nodes.
Proof.
  intros Hne Hs. rewrite ModuloSlotOwner_lookup by done.
  assert (0 < n) by (destruct nodes; simpl; [done | lia]).
  pose proof (Z.mod_pos_bound slot n ltac:(lia)).
  destruct (lookup_lt_is_Some_2 nodes (Z.to_nat (slot mod n))) as [ip Hip]; [lia|].
  exists ip. split; [done|]. by eapply list_elem_of_lookup_2.
Qed.

(** Slot [s] of the table belongs to node [s mod n] of the list. *)
Lemma BuildRoutingTable_spec :
  nodes <> [] ->
  exists t, BuildRoutingTable nodes None = Some t /\ table_wf t /\
    forall s, 0 <= s < PartitionSlots -> entries t !! Z.to_nat s = nodes !! Z.to_nat (s mod n).
Proof.
  intros Hne. unfold BuildRoutingTable.
  rewrite decide_False by (destruct nodes; simpl; congruence).
  change (default ModuloSlotOwner None) with ModuloSlotOwner.
  destruct (mapM (ModuloSlotOwner nodes) (seqZ 0 PartitionSlots)) as [t|] eqn:Et.
  - exists (mkTable t). split; [done|]. apply mapM_Some_1 in Et.
    split; [unfold table_wf; apply Forall2_length in Et; simpl entries; by rewrite <- Et|].
    intros s Hs. destruct (Forall2_lookup_l _ _ _ (Z.to_nat s) s Et) as (ip & Hip & Ho).
    { rewrite lookup_seqZ_lt by (unfold PartitionSlots in *; lia). f_equal. lia. }
    simpl entries. rewrite Hip, <- Ho. by apply ModuloSlotOwner_lookup; [|lia].
  - exfalso. apply mapM_None_1 in Et. apply Exists_exists in Et as (s & Hs & Hnone).
    apply list_elem_of_In, elem_of_seqZ in Hs.
    destruct (ModuloSlotOwner_Some s) as (ip & Hip & _); [done | lia |]. congruence.
Qed.
End Tables.

(** With a non-empty list of non-empty addresses, table construction does not
    panic and every [(tenant, uid)] is resolved, without an error, to an address
    of the list: the one at position [SlotOf mod n]. *)
Lemma GetNodeIP_resolves (nodes : list string) (tenantID uid : Z) :
  nodes <> [] -> "" ∉ nodes ->
  exists t ip,
    BuildRoutingTable nodes None = Some t /\
    GetNodeIP (Some t) tenantID uid = Some (Ok ip) /\
    nodes !! Z.to_nat (SlotOf tenantID uid mod Z.of_nat (length nodes)) = Some ip.
Proof.
  intros Hne Haddr.
  destruct (BuildRoutingTable_spec nodes Hne) as (t & Ht & Hwf & Hlook).
  pose proof (SlotOf_range tenantID uid) as Hr.
  destruct (SlotOf_index_Some t tenantID uid Hwf) as [ip Hip].
  assert (nodes !! Z.to_nat (SlotOf tenantID uid mod Z.of_nat (length nodes)) = Some ip) as Hn.
  { rewrite <- Hlook by done. by rewrite go_index_lookup in Hip by lia. }
  exists t, ip. repeat split; [done | | done].
  rewrite (GetNodeIP_index _ _ _ _ Hip), decide_False; [done|].
  intros ->. apply Haddr. by eapply list_elem_of_lookup_2.
Qed.

(** The two error outcomes, and only those: a nil table gives
    [ErrTableNotInitialized], a table built from an empty list gives [ErrNoOwner],
    and no well-formed table makes the lookup panic. *)
Theorem GetNodeIP_errors (tenantID uid : Z) :
  GetNodeIP None tenantID uid = Some (Err ErrTableNotInitialized) /\
  (forall owner, GetNodeIP (BuildRoutingTable [] owner) tenantID uid = Some (Err ErrNoOwner)) /\
  (forall t, ~ (table_wf t /\ GetNodeIP (Some t) tenantID uid = None)).
Proof.
  split; [done|]. pose proof (SlotOf_range tenantID uid). split.
  - intros owner. unfold BuildRoutingTable. rewrite decide_True by done.
    erewrite GetNodeIP_index; [by rewrite decide_True|]. cbn [entries].
    by rewrite go_index_lookup, lookup_replicate_2 by (unfold PartitionSlots in *; lia).
  - intros t [Hwf Hnone]. destruct (SlotOf_index_Some t tenantID uid Hwf) as [ip Hip].
    by rewrite (GetNodeIP_index _ _ _ _ Hip) in Hnone.
Qed.

(** ** Even spread of the slots *)

(** The number of slots below [k] that node [i] of [n] owns. *)
Definition slots_of (n i k : Z) : nat :=
  length (filter (fun s => s mod n = i) (seqZ 0 k)).

(** [(k + n - 1 - i) / n] counts the numbers below [k] that are [i] modulo [n]. *)
Lemma div_count_step n i k :
  0 <= i < n -> 0 <= k ->
  (k + 1 + n - 1 - i) / n = (k + n - 1 - i) / n + (if decide (k mod n = i) then 1 else 0).
Proof.
  intros Hi Hk. pose proof (Z.div_mod k n ltac:(lia)) as Hdm.
  pose proof (Z.mod_pos_bound k n ltac:(lia)).
  set (q := k / n) in *. set (r := k mod n) in *.
  assert ((k + n - 1 - i) / n = q + if decide (i < r) then 1 else 0) as ->.
  { symmetry. apply (Z.div_unique _ n _ (if decide (i < r) then r - 1 - i else r + n - 1 - i));
      case_decide; lia. }
  symmetry.
  apply (Z.div_unique _ n _ (if decide (i <= r) then r - i else r + n - i)); repeat case_decide; lia.
Qed.

Lemma slots_of_count n i (k : nat) :
  0 <= i < n -> Z.of_nat (slots_of n i (Z.of_nat k)) = (Z.of_nat k + n - 1 - i) / n.
Proof.
  intros Hi. unfold slots_of. induction k as [|k IH].
  - simpl. symmetry. apply Z.div_small. lia.
  - rewrite seqZ_S, list.filter_app, length_app, Nat2Z.inj_add, IH, filter_cons, filter_nil.
    rewrite Z.add_0_l, Nat2Z.inj_succ, <- Z.add_1_r, div_count_step by lia.
    by case_decide.
Qed.

Lemma slots_of_bounds n i :
  0 <= i < n ->
  PartitionSlots / n <= Z.of_nat (slots_of n i PartitionSlots) <= PartitionSlots / n + 1.
Proof.
  intros Hi. change PartitionSlots with (Z.of_nat 1024).
  rewrite slots_of_count by done. Z.to_euclidean_division_equations. nia.
Qed.

(** The slots of table [t] that [ip] owns. *)
Definition owned_slots (t : Table) (ip : string) : list Z :=
  filter (fun s => entries t !! Z.to_nat s = Some ip) (seqZ 0 PartitionSlots).

(** The modulo assignment spreads the 1024 slots evenly: with [n] distinct
    addresses every one of them owns [1024/n] or [1024/n + 1] slots. *)
Theorem BuildRoutingTable_balanced (nodes : list string) (ip : string)
    (Hnd : NoDup nodes) (Hin : ip ∈ nodes) :
  exists t, BuildRoutingTable nodes None = Some t /\
    PartitionSlots / Z.of_nat (length nodes)
      <= Z.of_nat (length (owned_slots t ip))
      <= PartitionSlots / Z.of_nat (length nodes) + 1.
Proof.
  assert (nodes <> []) as Hne by (intros ->; by apply not_elem_of_nil in Hin).
  destruct (BuildRoutingTable_spec nodes Hne) as (t & Ht & Hwf & Hlook).
  apply list_elem_of_lookup in Hin as [i Hi].
  pose proof (lookup_lt_Some _ _ _ Hi) as Hlt.
  exists t. split; [done|].
  pose proof (slots_of_bounds (Z.of_nat (length nodes)) (Z.of_nat i) ltac:(lia)) as Hb.
  enough (length (owned_slots t ip) =
          slots_of (Z.of_nat (length nodes)) (Z.of_nat i) PartitionSlots) as -> by done.
  unfold owned_slots, slots_of. f_equal. apply filter_ext_in.
  intros s Hs%elem_of_seqZ. rewrite Hlook by lia.
  pose proof (Z.mod_pos_bound s (Z.of_nat (length nodes)) ltac:(lia)).
  split; [|intros ->; by rewrite Nat2Z.id].
  intros Hm. pose proof (NoDup_lookup _ _ _ _ Hnd Hm Hi). lia.
Qed.

