(* ===== verification/Discovery.v ===== *)
(** * Service discovery over etcd: pkg/discovery/etcd_resolver.go, resolver.go,
      internal/mock/mock_resolver.go

    etcd itself is not modelled: what it answers (the key-value pairs of a prefix
    GET, the responses of a watch, the outcomes of Grant, Put and KeepAlive) is an
    argument of the functions below, one observation per call.  The theorems: the
    keys written by the registry are read back by the resolver, processes that see
    the same keys in any order build the same table, the watch loop always holds
    the table of the last successful snapshot and a registration that returns
    without an error has stored its key under a live lease. *)

From Stdlib Require Import Ascii.
From S2P Require Import Prelude Routing.

(** ** Go's string functions *)

Definition slash : Ascii.ascii := "/"%char.

(** [strings.TrimRight(s, "/")] *)
Fixpoint TrimRightSlash (s : string) : string :=
  match s with
  | EmptyString => EmptyString
  | String c s' =>
      let t := TrimRightSlash s' in
      if decide (t = EmptyString /\ c = slash) then EmptyString else String c t
  end.

(** [strings.HasPrefix(s, p)] *)
Definition HasPrefix (s p : string) : bool := String.prefix p s.

(** The part of [s] behind its first [n] bytes. *)
Fixpoint string_drop (n : nat) (s : string) : string :=
  match n, s with
  | S n', String _ s' => string_drop n' s'
  | _, _ => s
  end.

(** [strings.TrimPrefix(s, p)] *)
Definition TrimPrefix (s p : string) : string :=
  if HasPrefix s p then string_drop (String.length p) s else s.

(** The order of [sort.Strings]: bytewise lexicographic. *)
Definition string_le (s1 s2 : string) : Prop := String.leb s1 s2 = true.

#[export] Instance string_le_dec : RelDecision string_le.
Proof. intros s1 s2. unfold string_le. apply _. Defined.

(** [sort.Strings]: the result of sorting strings does not depend on the algorithm. *)
Definition sort_Strings (l : list string) : list string := merge_sort string_le l.

(** ** Keys and snapshots *)

Definition normalizeNodePrefix (prefix : string) : string :=
  let trimmed := TrimRightSlash prefix in
  if decide (trimmed = "") then "/" else (trimmed +:+ "/")%string.

Record KeyValue := mkKV { Key : string; Value : string }.

(** One iteration of the loop over [kvs]: the address it appends, if any. *)
Definition node_ip_of_kv (prefix : string) (kv : KeyValue) : option string :=
  if negb (HasPrefix (Key kv) prefix) then None
  else
    let ip := TrimPrefix (Key kv) prefix in
    if decide (ip = "") then None else Some ip.

Definition sortedNodeIPsFromKVs (prefix : string) (kvs : list KeyValue) : list string :=
  if decide (length kvs = 0%nat) then []
  else sort_Strings (omap (node_ip_of_kv prefix) kvs).

Inductive EventType := EventTypePut | EventTypeDelete | EventTypeOther.

Fixpoint hasNodeTopologyEvent (events : list EventType) : bool :=
  match events with
  | [] => false
  | EventTypePut :: _ | EventTypeDelete :: _ => true
  | EventTypeOther :: events' => hasNodeTopologyEvent events'
  end.

(** ** The resolver *)

Record EtcdResolver := mkResolver {
  tab : option Table;
  resolverPrefix : string;
  slotOwner : option SlotOwnerFunc;
}.

Definition NewEtcdResolver (nodePrefix : string) : EtcdResolver :=
  mkResolver None (normalizeNodePrefix nodePrefix) (Some ModuloSlotOwner).

Definition EtcdResolver_GetNodeIP (r : EtcdResolver) (tenantID uid : Z) :
    option (result DiscoveryError string) :=
  GetNodeIP (tab r) tenantID uid.

Section Resolver.
Context {E : Type}.

(** [refreshSnapshot]: [resp] is what the prefix GET answers. *)
Definition refreshSnapshot (resp : result E (list KeyValue)) (r : EtcdResolver) :
    option (EtcdResolver * option E) :=
  match resp with
  | Err e => Some (r, Some e)
  | Ok kvs =>
      let sortedIPs := sortedNodeIPsFromKVs (resolverPrefix r) kvs in
      t ← BuildRoutingTable sortedIPs (slotOwner r);
      Some (mkResolver (Some t) (resolverPrefix r) (slotOwner r), None)
  end.

(** Where the goroutine of [watchLoop] is: about to test [ctx.Err()], blocked in
    the inner [select], or returned. *)
Inductive watch_pc := WOuter | WSelect | WReturned.

(** What the goroutine observes next.  [slept] is the result of
    [sleepWithContext]; [get] is the answer of the GET that a topology event
    triggers. *)
Inductive watch_obs :=
  | ObsCtxErr (cancelled : bool)                    (* ctx.Err() != nil *)
  | ObsCtxDone                                      (* <-ctx.Done() *)
  | ObsClosed (slept : bool)                        (* watchCh closed *)
  | ObsRespErr (slept : bool)                       (* resp.Err() != nil *)
  | ObsResp (events : list EventType) (get : result E (list KeyValue)).

(** One step of [watchLoop].  An observation that does not belong to the place
    the goroutine is at leaves it where it is. *)
Definition watchLoop_step (st : watch_pc * EtcdResolver) (o : watch_obs) :
    option (watch_pc * EtcdResolver) :=
  let '(pc, r) := st in
  match pc, o with
  | WOuter, ObsCtxErr cancelled => Some (if cancelled then WReturned else WSelect, r)
  | WSelect, ObsCtxDone => Some (WReturned, r)
  | WSelect, ObsClosed slept | WSelect, ObsRespErr slept =>
      Some (if slept then WOuter else WReturned, r)
  | WSelect, ObsResp events get =>
      if hasNodeTopologyEvent events
      then '(r', _) ← refreshSnapshot get r; Some (WSelect, r')
      else Some (WSelect, r)
  | _, _ => Some (pc, r)
  end.

Fixpoint watchLoop (st : watch_pc * EtcdResolver) (obs : list watch_obs) :
    option (watch_pc * EtcdResolver) :=
  match obs with
  | [] => Some st
  | o :: obs' => st' ← watchLoop_step st o; watchLoop st' obs'
  end.

(** [Watch]: the first snapshot must succeed, then the goroutine runs. *)
Definition Watch (resp : result E (list KeyValue)) (r : EtcdResolver) :
    option (EtcdResolver * option E * option watch_pc) :=
  '(r', err) ← refreshSnapshot resp r;
  match err with
  | Some e => Some (r', Some e, None)
  | None => Some (r', None, Some WOuter)
  end.
End Resolver.
Arguments watch_obs E : clear implicits.

(** ** The interface TopologyResolver

    What a node or a client needs of a resolver: [GetNodeIP].  A resolver may
    record the call, so it returns its new state; [None] is a panic. *)

Class TopologyResolver (R Er : Type) := {
  tr_GetNodeIP : R -> Z -> Z -> option (R * result Er string);
}.

#[export] Instance EtcdResolver_TopologyResolver : TopologyResolver EtcdResolver DiscoveryError := {|
  tr_GetNodeIP r tenantID uid := (fun res => (r, res)) <$> EtcdResolver_GetNodeIP r tenantID uid;
|}.

(** The test double of internal/mock. *)
Record MockResolver := mkMock {
  routes : gmap (Z * Z) string;
  forcedErr : option string;
  callCount : Z;
}.

Inductive MockError := MockForced (msg : string) | MockNoRoute (tenantID uid : Z).

Definition NewMockResolver : MockResolver := mkMock ∅ None 0.

Definition SetRoute (m : MockResolver) (tenantID uid : Z) (ip : string) : MockResolver :=
  mkMock (<[(tenantID, uid) := ip]> (routes m)) (forcedErr m) (callCount m).

Definition SetError (m : MockResolver) (err : option string) : MockResolver :=
  mkMock (routes m) err (callCount m).

Definition CallCount (m : MockResolver) : Z := callCount m.

Definition MockResolver_GetNodeIP (m : MockResolver) (tenantID uid : Z) :
    MockResolver * result MockError string :=
  let m' := mkMock (routes m) (forcedErr m) (i64 (callCount m + 1)) in
  match forcedErr m with
  | Some e => (m', Err (MockForced e))
  | None =>
      match routes m !! (tenantID, uid) with
      | None => (m', Err (MockNoRoute tenantID uid))
      | Some ip => (m', Ok ip)
      end
  end.

#[export] Instance MockResolver_TopologyResolver : TopologyResolver MockResolver MockError := {|
  tr_GetNodeIP m tenantID uid := Some (MockResolver_GetNodeIP m tenantID uid);
|}.

(** ** The registry *)

Definition defaultLeaseTTL : Z := 5.

Record EtcdRegistry := mkRegistry { registryPrefix : string; leaseTTL : Z; regValue : string }.

Definition NewEtcdRegistry (nodePrefix : string) : EtcdRegistry :=
  mkRegistry (normalizeNodePrefix nodePrefix) defaultLeaseTTL "".

(** [r.nodePrefix + ip], in [Register] and [Deregister]. *)
Definition registry_key (r : EtcdRegistry) (ip : string) : string :=
  (registryPrefix r +:+ ip)%string.

(** The calls a registry makes to the etcd client. *)
Inductive etcd_call :=
  | CallGrant (ttl : Z)
  | CallPut (key value : string) (lease : Z)
  | CallKeepAlive (lease : Z)
  | CallDelete (key : string).

(** One round of the loop of [establishRegistration]: whether the context is
    cancelled when the round starts, what Grant, Put and KeepAlive answer (each is
    only asked when the one before it succeeded) and what the back-off sleep
    returns after a failure. *)
Record attempt := mkAttempt {
  at_ctx_err : bool;
  at_grant : option Z;
  at_put : bool;
  at_keepalive : bool;
  at_slept : bool;
}.

(** The channel of a keepalive stream is identified with its lease. *)
Inductive reg_outcome :=
  | RegOk (lease : Z)      (* keepAliveCh, nil *)
  | RegCtxErr              (* nil, ctx.Err() *)
  | RegRetrying.           (* the given rounds are over, the loop goes on *)

Fixpoint establishRegistration (r : EtcdRegistry) (key : string) (rounds : list attempt) :
    list etcd_call * reg_outcome :=
  match rounds with
  | [] => ([], RegRetrying)
  | a :: rounds' =>
      if at_ctx_err a then ([], RegCtxErr)
      else
        let retry calls :=
          if negb (at_slept a) then (calls, RegCtxErr)
          else let '(calls', out) := establishRegistration r key rounds' in (calls ++ calls', out)
        in
        match at_grant a with
        | None => retry [CallGrant (leaseTTL r)]
        | Some lease =>
            if negb (at_put a)
            then retry [CallGrant (leaseTTL r); CallPut key (regValue r) lease]
            else if negb (at_keepalive a)
            then retry [CallGrant (leaseTTL r); CallPut key (regValue r) lease; CallKeepAlive lease]
            else ([CallGrant (leaseTTL r); CallPut key (regValue r) lease; CallKeepAlive lease],
                  RegOk lease)
        end
  end.

(** [Register]: [Some lease] is the keepalive channel handed to the background
    goroutine, whose [Register] call returned nil. *)
Definition Register (r : EtcdRegistry) (ip : string) (rounds : list attempt) :
    list etcd_call * reg_outcome :=
  establishRegistration r (registry_key r ip) rounds.

Definition Deregister (r : EtcdRegistry) (ip : string) : list etcd_call :=
  [CallDelete (registry_key r ip)].

(** What [consumeKeepAlive] reads: a response, or a closed channel / nil response,
    or the cancelled context. *)
Inductive keepalive_obs := KaResp | KaClosedOrNil | KaCtxDone.

#[export] Instance keepalive_obs_eq_decision : EqDecision keepalive_obs.
Proof. solve_decision. Defined.

(** [consumeKeepAlive]: [Some true] asks for a new registration, [Some false]
    ends the goroutine, [None] means it still waits. *)
Fixpoint consumeKeepAlive (obs : list keepalive_obs) : option bool :=
  match obs with
  | [] => None
  | KaCtxDone :: _ => Some false
  | KaClosedOrNil :: _ => Some true
  | KaResp :: obs' => consumeKeepAlive obs'
  end.

(** One round of [maintainRegistration]: the keepalive traffic of the current
    channel, the back-off sleep and the rounds of the new registration. *)
Record maintain_round := mkMaintain {
  mr_obs : list keepalive_obs;
  mr_slept : bool;
  mr_rounds : list attempt;
}.

(** The calls of the background goroutine and whether it is still running. *)
Fixpoint maintainRegistration (r : EtcdRegistry) (key : string) (rs : list maintain_round) :
    list etcd_call * bool :=
  match rs with
  | [] => ([], true)
  | m :: rs' =>
      match consumeKeepAlive (mr_obs m) with
      | None => ([], true)
      | Some false => ([], false)
      | Some true =>
          if negb (mr_slept m) then ([], false)
          else
            let '(calls, out) := establishRegistration r key (mr_rounds m) in
            match out with
            | RegCtxErr => (calls, false)
            | RegRetrying => (calls, true)
            | RegOk _ =>
                let '(calls', running) := maintainRegistration r key rs' in
                (calls ++ calls', running)
            end
      end
  end.

(** ** Strings *)

#[export] Instance string_le_total : Total string_le.
Proof.
  intros s1 s2. unfold string_le, String.leb.
  rewrite (String.compare_antisym s2 s1). destruct (String.compare s1 s2); auto.
Qed.

#[export] Instance string_le_antisymm : AntiSymm (=) string_le.
Proof.
  intros s1 s2. unfold string_le, String.leb.
  rewrite (String.compare_antisym s2 s1).
  destruct (String.compare s1 s2) eqn:Ec; try discriminate; intros _ _.
  by apply String.compare_eq_iff.
Qed.

Lemma ascii_compare_eq a b : Ascii.compare a b = Eq <-> a = b.
Proof.
  unfold Ascii.compare. rewrite N.compare_eq_iff.
  split; [|by intros ->]. intros H. by rewrite <- (ascii_N_embedding a), H, ascii_N_embedding.
Qed.

(** The bytewise order is transitive, by induction along the common prefix. *)
Lemma string_compare_trans s1 s2 s3 :
  String.compare s1 s2 <> Gt -> String.compare s2 s3 <> Gt -> String.compare s1 s3 <> Gt.
Proof.
  revert s2 s3. induction s1 as [|a s1 IH]; intros [|b s2] [|c s3]; simpl; try congruence.
  destruct (Ascii.compare a b) eqn:Eab; [ | | congruence];
  destruct (Ascii.compare b c) eqn:Ebc; try congruence; intros H12 H23.
  - apply ascii_compare_eq in Eab as ->. rewrite Ebc. eauto.
  - apply ascii_compare_eq in Eab as ->. by rewrite Ebc.
  - apply ascii_compare_eq in Ebc as ->. by rewrite Eab.
  - unfold Ascii.compare in *.
    replace (N_of_ascii a ?= N_of_ascii c)%N with Lt; [done|].
    symmetry. apply N.compare_lt_iff in Eab, Ebc. apply N.compare_lt_iff.
    by eapply N.lt_trans.
Qed.

#[export] Instance string_le_trans : Transitive string_le.
Proof.
  intros s1 s2 s3. unfold string_le, String.leb. intros H1 H2.
  pose proof (string_compare_trans s1 s2 s3) as H.
  repeat case_match; try congruence; exfalso; apply H; congruence.
Qed.

(** Sorting is canonical: permutations sort to the same list. *)
Lemma sort_Strings_canonical l k : l ≡ₚ k -> sort_Strings l = sort_Strings k.
Proof.
  intros Hp. unfold sort_Strings.
  apply (StronglySorted_unique string_le); try apply StronglySorted_merge_sort, _; try apply _.
  by rewrite !merge_sort_Permutation.
Qed.

Lemma HasPrefix_app p s : HasPrefix (p +:+ s) p = true.
Proof.
  unfold HasPrefix. induction p as [|c p IH]; simpl; [by destruct s|].
  destruct (ascii_dec c c); [done | congruence].
Qed.

Lemma string_drop_app p s : string_drop (String.length p) (p +:+ s) = s.
Proof. induction p; simpl; [by destruct s | done]. Qed.

Lemma TrimPrefix_app p s : TrimPrefix (p +:+ s) p = s.
Proof. unfold TrimPrefix. rewrite HasPrefix_app. apply string_drop_app. Qed.

(** What [TrimRight] leaves never ends in a slash. *)
Lemma TrimRightSlash_idemp s : TrimRightSlash (TrimRightSlash s) = TrimRightSlash s.
Proof.
  induction s as [|c s IH]; simpl; [done|].
  case_decide as Hd; simpl; [done|]. by rewrite IH, decide_False.
Qed.

Lemma TrimRightSlash_snoc s : TrimRightSlash (s +:+ "/") = TrimRightSlash s.
Proof. induction s as [|c s IH]; simpl; [done|]. by rewrite IH. Qed.

(** ** Theorems *)

(** [normalizeNodePrefix] is idempotent, so the registry and the resolver use
    the same key prefix however many trailing slashes the flag is given with. *)
Theorem normalizeNodePrefix_canonical (p : string) :
  normalizeNodePrefix (normalizeNodePrefix p) = normalizeNodePrefix p /\
  normalizeNodePrefix (p +:+ "/") = normalizeNodePrefix p.
Proof.
  unfold normalizeNodePrefix. rewrite TrimRightSlash_snoc. split; [|done].
  destruct (decide (TrimRightSlash p = "")) as [Ht|Hne]; [done|].
  by rewrite TrimRightSlash_snoc, TrimRightSlash_idemp, decide_False.
Qed.

Lemma omap_registered prefix (ips : list string) :
  "" ∉ ips ->
  omap (node_ip_of_kv prefix) ((fun ip => mkKV (prefix +:+ ip) "") <$> ips) = ips.
Proof.
  induction ips as [|ip ips IH]; intros Hne; [done|].
  apply not_elem_of_cons in Hne as [? ?]. cbn.
  unfold node_ip_of_kv at 1. cbn [Key].
  rewrite HasPrefix_app, TrimPrefix_app. simpl.
  rewrite decide_False by done. simpl. by rewrite IH.
Qed.

Lemma sortedNodeIPs_omap prefix kvs :
  sortedNodeIPsFromKVs prefix kvs = sort_Strings (omap (node_ip_of_kv prefix) kvs).
Proof. unfold sortedNodeIPsFromKVs. by destruct kvs. Qed.

(** Round trip between registry and resolver: whatever nodes registered their
    non-empty addresses under a node prefix, the resolver of that prefix extracts
    exactly those addresses, in sorted order. *)
Theorem registry_resolver_roundtrip (prefix : string) (ips : list string)
    (Haddr : "" ∉ ips) :
  sortedNodeIPsFromKVs (resolverPrefix (NewEtcdResolver prefix))
    ((fun ip => mkKV (registry_key (NewEtcdRegistry prefix) ip) "") <$> ips)
  = sort_Strings ips.
Proof.
  rewrite sortedNodeIPs_omap. f_equal. by apply omap_registered.
Qed.

(** Agreement: two resolvers (a client's and a node's, or two nodes') that
    refresh from the same key-value pairs, delivered in any order, hold the same
    table and therefore name the same owner for every [(tenant, uid)]. *)
Theorem refreshSnapshot_agreement (E : Type) (prefix : string) (kvs kvs' : list KeyValue)
    (Hperm : kvs ≡ₚ kvs') (r1 r2 : EtcdResolver) :
  refreshSnapshot (E := E) (Ok kvs) (NewEtcdResolver prefix) = Some (r1, None) ->
  refreshSnapshot (E := E) (Ok kvs') (NewEtcdResolver prefix) = Some (r2, None) ->
  forall tenantID uid,
    EtcdResolver_GetNodeIP r1 tenantID uid = EtcdResolver_GetNodeIP r2 tenantID uid.
Proof.
  unfold refreshSnapshot. rewrite !sortedNodeIPs_omap.
  rewrite (sort_Strings_canonical (omap (node_ip_of_kv (resolverPrefix (NewEtcdResolver prefix))) kvs)
             (omap (node_ip_of_kv (resolverPrefix (NewEtcdResolver prefix))) kvs'))
    by by rewrite Hperm.
  intros H1 H2 tenantID uid. rewrite H1 in H2. by simplify_eq.
Qed.

(** ** The watch loop against its specification

    The specification keeps the membership (the key-value pairs of the last
    successful GET) instead of a table; a failed GET keeps the old membership. *)

Definition watch_spec_step {E} (st : watch_pc * list KeyValue) (o : watch_obs E) :
    watch_pc * list KeyValue :=
  let '(pc, kvs) := st in
  match pc, o with
  | WOuter, ObsCtxErr cancelled => (if cancelled then WReturned else WSelect, kvs)
  | WSelect, ObsCtxDone => (WReturned, kvs)
  | WSelect, ObsClosed slept | WSelect, ObsRespErr slept =>
      (if slept then WOuter else WReturned, kvs)
  | WSelect, ObsResp events (Ok kvs') =>
      (WSelect, if hasNodeTopologyEvent events then kvs' else kvs)
  | _, _ => (pc, kvs)
  end.

(** Resolver [r] serves the table of the members [kvs] of node prefix [prefix]. *)
Definition serves (prefix : string) (kvs : list KeyValue) (r : EtcdResolver) : Prop :=
  resolverPrefix r = normalizeNodePrefix prefix /\ slotOwner r = Some ModuloSlotOwner /\
  exists t, tab r = Some t /\ table_wf t /\
    BuildRoutingTable (sortedNodeIPsFromKVs (normalizeNodePrefix prefix) kvs) None = Some t.

Lemma BuildRoutingTable_default nodes :
  BuildRoutingTable nodes (Some ModuloSlotOwner) = BuildRoutingTable nodes None.
Proof. done. Qed.

Lemma BuildRoutingTable_wf nodes :
  exists t, BuildRoutingTable nodes None = Some t /\ table_wf t.
Proof.
  destruct (decide (nodes = [])) as [->|Hne].
  - eexists. split; [done|]. unfold table_wf. cbn [entries]. by rewrite length_replicate.
  - destruct (BuildRoutingTable_spec nodes Hne) as (t & ? & ? & _). eauto.
Qed.

Lemma refreshSnapshot_serves {E} prefix kvs r :
  resolverPrefix r = normalizeNodePrefix prefix -> slotOwner r = Some ModuloSlotOwner ->
  exists r', refreshSnapshot (E := E) (Ok kvs) r = Some (r', None) /\ serves prefix kvs r'.
Proof.
  intros Hp Ho. unfold refreshSnapshot. rewrite Hp, Ho, BuildRoutingTable_default.
  destruct (BuildRoutingTable_wf (sortedNodeIPsFromKVs (normalizeNodePrefix prefix) kvs))
    as (t & Ht & Hwf).
  rewrite Ht. eexists. split; [reflexivity|]. repeat split; simpl; eauto.
Qed.

Lemma watchLoop_step_refines {E} prefix pc kvs r (o : watch_obs E) :
  serves prefix kvs r ->
  exists r', watchLoop_step (pc, r) o = Some (fst (watch_spec_step (pc, kvs) o), r') /\
    serves prefix (snd (watch_spec_step (pc, kvs) o)) r'.
Proof.
  intros Hs. destruct pc, o as [c| |sl|sl|evs [kvs'|e]]; simpl; eauto.
  - destruct (hasNodeTopologyEvent evs); [|eauto].
    destruct (refreshSnapshot_serves (E := E) prefix kvs' r) as (r' & Hr & Hs');
      [apply Hs | apply Hs |].
    simpl in Hr. rewrite Hr. simpl. eauto.
  - destruct (hasNodeTopologyEvent evs); eauto.
Qed.

(** C20: the watch loop refines its specification: after [Watch] succeeded on the
    members [kvs0], whatever sequence of watch responses, closed or failing
    channels, failing GETs and cancellations follows, no step panics and the
    resolver serves the table of the most recent membership that a GET returned
    (never an empty or partial one, and never a nil table again). *)
Theorem watchLoop_refines (E : Type) (prefix : string) (kvs0 : list KeyValue) (r0 : EtcdResolver)
    (Hwatch : Watch (E := E) (Ok kvs0) (NewEtcdResolver prefix) = Some (r0, None, Some WOuter))
    (obs : list (watch_obs E)) :
  exists r, watchLoop (WOuter, r0) obs =
      Some (fst (foldl watch_spec_step (WOuter, kvs0) obs), r) /\
    serves prefix (snd (foldl watch_spec_step (WOuter, kvs0) obs)) r.
Proof.
  assert (serves prefix kvs0 r0) as Hs0.
  { destruct (refreshSnapshot_serves (E := E) prefix kvs0 (NewEtcdResolver prefix))
      as (r & Hr & Hs); [done | done |].
    unfold Watch in Hwatch. rewrite Hr in Hwatch. simpl in Hwatch. by simplify_eq. }
  clear Hwatch. generalize WOuter as pc. revert kvs0 r0 Hs0.
  induction obs as [|o obs IH]; intros kvs r Hs pc; cbn [watchLoop foldl]; [eauto|].
  destruct (watchLoop_step_refines prefix pc kvs r o Hs) as (r' & Hstep & Hs').
  rewrite Hstep. cbn [mbind option_bind].
  destruct (watch_spec_step (pc, kvs) o) as [pc' kvs'] eqn:E'. apply (IH kvs' r' Hs' pc').
Qed.

Lemma watchLoop_refines_witness :
  exists r0,
    Watch (E := unit) (Ok [mkKV "/n/a:1" ""]) (NewEtcdResolver "/n") = Some (r0, None, Some WOuter) /\
    exists r, watchLoop (E := unit) (WOuter, r0)
        [ObsCtxErr false; ObsResp [EventTypePut] (Ok [mkKV "/n/a:1" ""; mkKV "/n/b:1" ""]);
         ObsResp [EventTypeDelete] (Err tt); ObsClosed true]
      = Some (WOuter, r) /\ serves "/n" [mkKV "/n/a:1" ""; mkKV "/n/b:1" ""] r.
Proof.
  eexists. split; [vm_compute; reflexivity|].
  apply (watchLoop_refines unit "/n" [mkKV "/n/a:1" ""]).
  vm_compute; reflexivity.
Defined.

(** ** Registration *)

(** Some round of [rounds] sees the context cancelled. *)
Definition cancelled_in (rounds : list attempt) : Prop :=
  Exists (fun a => at_ctx_err a = true \/ at_slept a = false) rounds.

#[export] Instance cancelled_in_dec rounds : Decision (cancelled_in rounds).
Proof. unfold cancelled_in. apply _. Defined.

Definition round_succeeds (a : attempt) : bool :=
  negb (at_ctx_err a) && bool_decide (is_Some (at_grant a)) && at_put a && at_keepalive a.

Lemma establishRegistration_outcome r key rounds :
  match establishRegistration r key rounds with
  | (calls, RegOk lease) =>
      exists before, calls = before ++
        [CallGrant (leaseTTL r); CallPut key (regValue r) lease; CallKeepAlive lease]
  | (_, RegCtxErr) => cancelled_in rounds
  | (_, RegRetrying) => Forall (fun a => round_succeeds a = false) rounds
  end.
Proof.
  induction rounds as [|a rounds IH]; cbn [establishRegistration]; [constructor|].
  destruct (at_ctx_err a) eqn:Hctx; [by apply Exists_cons_hd; auto|].
  destruct (at_grant a) as [lease|] eqn:Hg;
    [destruct (at_put a) eqn:Hp; [destruct (at_keepalive a) eqn:Hk|]|];
    cbn [negb]; [by exists [] | | |];
  (destruct (at_slept a) eqn:Hsl; cbn [negb]; [|by apply Exists_cons_hd; auto]);
  destruct (establishRegistration r key rounds) as [calls' [l| |]];
  solve
    [ destruct IH as [before ->]; eexists (_ ++ before); rewrite <- app_assoc; reflexivity
    | by apply Exists_cons_tl
    | constructor; [by unfold round_succeeds; rewrite Hctx, Hg, ?Hp, ?Hk | done] ].
Qed.

(** [Register] returns nil only when, in one round, the lease was granted, the
    node key was put under that lease and the keepalive of that same lease was
    opened, and these are its last calls; it returns an error only when the
    context is cancelled; and it returns as soon as a round succeeds. *)
Theorem Register_outcome (r : EtcdRegistry) (ip : string) (rounds : list attempt) :
  match Register r ip rounds with
  | (calls, RegOk lease) =>
      exists before, calls = before ++
        [CallGrant (leaseTTL r); CallPut (registry_key r ip) (regValue r) lease; CallKeepAlive lease]
  | (_, RegCtxErr) => cancelled_in rounds
  | (_, RegRetrying) => Forall (fun a => round_succeeds a = false) rounds
  end.
Proof. apply establishRegistration_outcome. Qed.

Lemma consumeKeepAlive_live obs : KaCtxDone ∉ obs -> consumeKeepAlive obs <> Some false.
Proof.
  induction obs as [|o obs IH]; simpl; [done|].
  intros [? ?]%not_elem_of_cons. destruct o; [by apply IH | done | done].
Qed.

(** The background goroutine keeps a node registered: unless the context is
    cancelled (during keepalive, back-off or a registration round) it never ends,
    however often the keepalive stream breaks and calls to etcd fail. *)
Theorem maintainRegistration_persists (r : EtcdRegistry) (key : string) (rs : list maintain_round)
    (Hlive : Forall (fun m => (KaCtxDone ∉ mr_obs m) /\ mr_slept m = true /\
                              ~ cancelled_in (mr_rounds m)) rs) :
  snd (maintainRegistration r key rs) = true.
Proof.
  induction Hlive as [|m rs (Hobs & Hsl & Hrounds) _ IH]; simpl; [done|].
  pose proof (consumeKeepAlive_live _ Hobs) as Hne.
  destruct (consumeKeepAlive (mr_obs m)) as [[|]|]; [|done|done].
  rewrite Hsl. simpl.
  pose proof (establishRegistration_outcome r key (mr_rounds m)) as Ho.
  destruct (establishRegistration r key (mr_rounds m)) as [calls [l| |]]; [|done|done].
  by destruct (maintainRegistration r key rs).
Qed.

