(* ===== verification/Mailbox.v ===== *)
(** * The actor runtime: pkg/actor/actor.go

    One actor: an intrusive multi-producer single-consumer queue with a dummy
    node and pooled nodes, a four-state life cycle, a one-slot wake channel and
    the event loop.  Any number of goroutines call [Send], [SendEnvelope] and
    [Stop]; the step relation interleaves them with the loop, one access to shared
    memory per step.  Accesses to memory that no other goroutine can reach (a node
    taken from the pool and not yet published, the retired dummy node, [a.head])
    are merged with the access next to them; the ownership invariant below is what
    justifies that.

    Three fields of the state are history variables that no step reads: the
    sequence of nodes between head and tail, the envelopes in the order of the
    [tail.Swap] that published them, and the envelopes in the order in which
    [Handle] got them. *)

From S2P Require Import Prelude Wire.

(** ** Results *)

(** [completeResult]: identity fields the handler left zero are copied from the
    envelope. *)
Definition completeResult (result : RemoteResult) (env : RemoteEnvelope) : RemoteResult :=
  mkResult
    (if decide (ResTenantId result = 0) then EnvTenantId env else ResTenantId result)
    (if decide (ResUid result = 0) then EnvUid env else ResUid result)
    (if decide (ResTxId result = "") then EnvTxId env else ResTxId result)
    (if decide (ResRequestId result = 0) then EnvRequestId env else ResRequestId result)
    (if decide (ResOpCode result = 0) then EnvOpCode env else ResOpCode result)
    (ResSuccess result) (ResErrorCode result) (ResErrorMsg result) (ResPayload result).

(** [actor.Handler]: the callback and its state; a nil result is [None]. *)
Class Handler (HS : Type) := handler_Handle : HS -> RemoteEnvelope -> HS * option RemoteResult.

(** ** The state of an actor *)

(** [Envelope], the queue node. *)
Record qnode := mkNode { Msg : option RemoteEnvelope; next : option nat }.

Inductive actor_status := statusInit | statusRunning | statusStopping | statusDead.

#[export] Instance actor_status_eq_decision : EqDecision actor_status.
Proof. solve_decision. Defined.

(** Where a goroutine inside [Send] or [SendEnvelope] is. *)
Inductive producer :=
  | PSend (env : RemoteEnvelope)    (* Send: about to load the status *)
  | PAlloc (env : RemoteEnvelope)   (* accepted: about to call GetEnvelope *)
  | PSendEnv (n : nat)              (* SendEnvelope(n): about to load the status *)
  | PClear (n : nat)                (* sendEnvelope: about to store env.next = nil *)
  | PCount (n : nat)                (* about to add 1 to processMailboxPending *)
  | PSwap (n : nat)                 (* about to swap the tail *)
  | PLink (n prev : nat)            (* about to store prev.next = n *)
  | PWake                           (* about to offer the wake token *)
  | PReturned (ok : bool).

(** Where the event loop is. *)
Inductive loop_pc :=
  | LNone                           (* Start has not spawned it *)
  | LLoad                           (* dequeue: about to load head.next *)
  | LTail                           (* next was nil: about to compare head and tail *)
  | LStatus                         (* dequeue returned nil: about to load the status *)
  | LShutdown                       (* stopping: about to call shutdownFn *)
  | LStoreDead                      (* about to store statusDead and return *)
  | LPark                           (* blocked in select on ctx.Done and wake *)
  | LAdvance (n : nat)              (* about to store head = n *)
  | LDec (h n : nat)                (* about to subtract 1 from processMailboxPending *)
  | LPut (h n : nat)                (* about to recycle the old head h *)
  | LHandle (n : nat)               (* about to call Handle on n.Msg *)
  | LClear (n : nat)                (* about to store n.Msg = nil *)
  | LExited
  | LPanicked.                      (* Handle was given a nil envelope *)

(** Where a goroutine inside [Stop] is. *)
Inductive stopper :=
  | SLoad | SCas (st : actor_status) | SWake | SReturned.

(** The caller of [Drain]. *)
Inductive drain_pc := DNone | DLoop | DDone.

#[export] Instance loop_pc_eq_decision : EqDecision loop_pc.
Proof. solve_decision. Defined.
#[export] Instance producer_eq_decision : EqDecision producer.
Proof. solve_decision. Defined.

Record state (HS : Type) := mkState {
  heap : gmap nat qnode;            (* the Envelope objects *)
  pool : gset nat;                  (* envelopePool *)
  a_head : nat;
  a_tail : nat;
  status : actor_status;
  wake : bool;                      (* the buffer of the wake channel *)
  pending : Z;                      (* processMailboxPending *)
  loopc : loop_pc;
  producers : gmap nat producer;
  stoppers : gmap nat stopper;
  drainc : drain_pc;
  ctxDone : bool;
  hasShutdownFn : bool;
  shutdownCalls : nat;
  handleCount : Z;                  (* processHandleDurationNsCount *)
  handleNs : Z;                     (* processHandleDurationNsSum *)
  hstate : HS;                      (* what Handle reads and writes *)
  emitted : list RemoteResult;      (* arguments of sink.Emit *)
  drained : list (option RemoteEnvelope);   (* what Drain appended *)
  (* history variables *)
  chain : list nat;
  accepted : list (option RemoteEnvelope);
  handled : list (option RemoteEnvelope);
}.
Arguments mkState {HS}.
Arguments heap {HS} s : rename.
Arguments pool {HS} s : rename.
Arguments a_head {HS} s : rename.
Arguments a_tail {HS} s : rename.
Arguments status {HS} s : rename.
Arguments wake {HS} s : rename.
Arguments pending {HS} s : rename.
Arguments loopc {HS} s : rename.
Arguments producers {HS} s : rename.
Arguments stoppers {HS} s : rename.
Arguments drainc {HS} s : rename.
Arguments ctxDone {HS} s : rename.
Arguments hasShutdownFn {HS} s : rename.
Arguments shutdownCalls {HS} s : rename.
Arguments handleCount {HS} s : rename.
Arguments handleNs {HS} s : rename.
Arguments hstate {HS} s : rename.
Arguments emitted {HS} s : rename.
Arguments drained {HS} s : rename.
Arguments chain {HS} s : rename.
Arguments accepted {HS} s : rename.
Arguments handled {HS} s : rename.

#[export] Instance state_Eta HS : Eta (state HS) := fun s =>
  mkState (heap s) (pool s) (a_head s) (a_tail s) (status s) (wake s) (pending s) (loopc s)
    (producers s) (stoppers s) (drainc s) (ctxDone s) (hasShutdownFn s) (shutdownCalls s)
    (handleCount s) (handleNs s) (hstate s) (emitted s) (drained s) (chain s) (accepted s)
    (handled s).

(** ** Node access

    A node that does not exist reads as nil; the invariant shows that this is
    never used. *)

Definition msg_at (h : gmap nat qnode) (n : nat) : option RemoteEnvelope := h !! n ≫= Msg.
Definition next_at (h : gmap nat qnode) (n : nat) : option nat := h !! n ≫= next.
Definition store_next (n : nat) (v : option nat) (h : gmap nat qnode) : gmap nat qnode :=
  alter (fun q => mkNode (Msg q) v) n h.
Definition store_msg (n : nat) (v : option RemoteEnvelope) (h : gmap nat qnode) : gmap nat qnode :=
  alter (fun q => mkNode v (next q)) n h.

(** [processMailboxPending.Add(1)] and [.Add(^uint64(0))]. *)
Definition incr (z : Z) : Z := u64 (z + 1).
Definition decr (z : Z) : Z := u64 (z + (2 ^ 64 - 1)).

(** ** Operations that are one access *)

Definition IsAlive {HS} (s : state HS) : bool :=
  bool_decide (status s = statusInit \/ status s = statusRunning).

Definition IsDead {HS} (s : state HS) : bool := bool_decide (status s = statusDead).

(** The status test of [Send], [SendEnvelope] and [Stop]. *)
Definition rejects (st : actor_status) : bool :=
  bool_decide (st = statusStopping \/ st = statusDead).

(** [New]: one dummy node, everything else empty; [p0] is the value the
    process-wide counter has at that moment. *)
Definition New {HS} (hs : HS) (p0 : Z) (pool0 : gset nat) (dummy : nat) : state HS :=
  mkState (<[dummy := mkNode None None]> (gset_to_gmap (mkNode None None) pool0)) pool0 dummy dummy
    statusInit false p0 LNone ∅ ∅ DNone false false 0 0 0 hs [] [] [dummy] [] [].

Definition SetShutdownFunc {HS} (s : state HS) : state HS := s <| hasShutdownFn := true |>.

(** [GetEnvelope]: a pooled node or a new one. *)
Inductive GetEnvelope {HS} (s : state HS) : nat -> state HS -> Prop :=
  | Get_pooled n :
      n ∈ pool s -> GetEnvelope s n (s <| pool ::= fun p => p ∖ {[n]} |>)
  | Get_new n :
      heap s !! n = None -> GetEnvelope s n (s <| heap ::= <[n := mkNode None None]> |>).

(** [PutEnvelope]: clears both fields, then the node is in the pool. *)
Definition PutEnvelope {HS} (n : nat) (s : state HS) : state HS :=
  s <| heap ::= fun h => store_next n None (store_msg n None h) |>
    <| pool ::= fun p => {[n]} ∪ p |>.

(** ** Steps *)

Section Steps.
Context {HS : Type} `{Handler HS}.
Implicit Types s : state HS.

Definition set_producer (t : nat) (p : producer) (s : state HS) : state HS :=
  s <| producers ::= <[t := p]> |>.
Definition set_stopper (t : nat) (p : stopper) (s : state HS) : state HS :=
  s <| stoppers ::= <[t := p]> |>.

(** The steps of [Send] (l. 114), [SendEnvelope] (l. 126) and [sendEnvelope]
    (l. 138). *)
Inductive producer_step (s : state HS) : state HS -> Prop :=
  | send_call t env :
      producers s !! t = None ->
      producer_step s (set_producer t (PSend env) s)
  | send_reject t env :
      producers s !! t = Some (PSend env) -> rejects (status s) = true ->
      producer_step s (set_producer t (PReturned false) s)
  | send_accept t env :
      producers s !! t = Some (PSend env) -> rejects (status s) = false ->
      producer_step s (set_producer t (PAlloc env) s)
  | send_alloc t env n s' :
      producers s !! t = Some (PAlloc env) -> GetEnvelope s n s' ->
      producer_step s (set_producer t (PClear n) (s' <| heap ::= store_msg n (Some env) |>))
  | sendenv_call t env n s' :
      (* the caller fills a node of its own before it calls SendEnvelope *)
      producers s !! t = None -> GetEnvelope s n s' ->
      producer_step s (set_producer t (PSendEnv n) (s' <| heap ::= store_msg n (Some env) |>))
  | sendenv_nil t :
      producers s !! t = None ->
      producer_step s (set_producer t (PReturned false) s)
  | sendenv_reject t n :
      producers s !! t = Some (PSendEnv n) -> rejects (status s) = true ->
      producer_step s (set_producer t (PReturned false) s)
  | sendenv_accept t n :
      producers s !! t = Some (PSendEnv n) -> rejects (status s) = false ->
      producer_step s (set_producer t (PClear n) s)
  | send_clear t n :
      producers s !! t = Some (PClear n) ->
      producer_step s (set_producer t (PCount n) (s <| heap ::= store_next n None |>))
  | send_count t n :
      producers s !! t = Some (PCount n) ->
      producer_step s (set_producer t (PSwap n) (s <| pending ::= incr |>))
  | send_swap t n :
      producers s !! t = Some (PSwap n) ->
      producer_step s
        (set_producer t (PLink n (a_tail s))
           (s <| a_tail := n |> <| chain ::= fun c => c ++ [n] |>
              <| accepted ::= fun l => l ++ [msg_at (heap s) n] |>))
  | send_link t n prev :
      producers s !! t = Some (PLink n prev) ->
      producer_step s (set_producer t PWake (s <| heap ::= store_next prev (Some n) |>))
  | send_wake t :
      producers s !! t = Some PWake ->
      producer_step s (set_producer t (PReturned true) (s <| wake := true |>)).

(** [Start], the event loop (l. 225) and [dequeue] (l. 210). *)
Inductive loop_step (s : state HS) : state HS -> Prop :=
  | start_ok :
      status s = statusInit ->
      loop_step s (s <| status := statusRunning |> <| loopc := LLoad |>)
  | loop_load_nil :
      loopc s = LLoad -> next_at (heap s) (a_head s) = None ->
      loop_step s (s <| loopc := LTail |>)
  | loop_load_some n :
      loopc s = LLoad -> next_at (heap s) (a_head s) = Some n ->
      loop_step s (s <| loopc := LAdvance n |>)
  | loop_tail :
      (* head = tail or Gosched: the same continuation *)
      loopc s = LTail -> loop_step s (s <| loopc := LStatus |>)
  | loop_stopping :
      loopc s = LStatus -> status s = statusStopping ->
      loop_step s (s <| loopc := LShutdown |>)
  | loop_park :
      loopc s = LStatus -> status s <> statusStopping ->
      loop_step s (s <| loopc := LPark |>)
  | loop_shutdown :
      loopc s = LShutdown ->
      loop_step s (s <| loopc := LStoreDead |>
                     <| shutdownCalls ::= fun k => if hasShutdownFn s then S k else k |>)
  | loop_ctx :
      loopc s = LPark -> ctxDone s = true ->
      loop_step s (s <| loopc := LStoreDead |>)
  | loop_dead :
      loopc s = LStoreDead ->
      loop_step s (s <| status := statusDead |> <| loopc := LExited |>)
  | loop_woken :
      loopc s = LPark -> wake s = true ->
      loop_step s (s <| wake := false |> <| loopc := LLoad |>)
  | loop_advance n :
      loopc s = LAdvance n ->
      loop_step s (s <| a_head := n |> <| chain ::= list.tail |> <| loopc := LDec (a_head s) n |>)
  | loop_dec h n :
      loopc s = LDec h n ->
      loop_step s (s <| pending ::= decr |> <| loopc := LPut h n |>)
  | loop_put h n :
      loopc s = LPut h n ->
      loop_step s ((PutEnvelope h s) <| loopc := LHandle n |>)
  | loop_handle n env hs res ns :
      (* ns is what time.Since measures around the call *)
      loopc s = LHandle n -> msg_at (heap s) n = Some env ->
      handler_Handle (hstate s) env = (hs, res) -> is_u64 ns ->
      loop_step s
        (s <| loopc := LClear n |> <| handled ::= fun l => l ++ [Some env] |>
           <| hstate := hs |>
           <| handleNs ::= fun z => u64 (z + ns) |> <| handleCount ::= incr |>
           <| emitted ::= fun l =>
                match res with Some r => l ++ [completeResult r env] | None => l end |>)
  | loop_handle_nil n :
      loopc s = LHandle n -> msg_at (heap s) n = None ->
      loop_step s (s <| loopc := LPanicked |>)
  | loop_clear n :
      loopc s = LClear n ->
      loop_step s (s <| heap ::= store_msg n None |> <| loopc := LLoad |>).

(** [Stop] (l. 157). *)
Inductive stop_step (s : state HS) : state HS -> Prop :=
  | stop_call t : stoppers s !! t = None -> stop_step s (set_stopper t SLoad s)
  | stop_already t :
      stoppers s !! t = Some SLoad -> rejects (status s) = true ->
      stop_step s (set_stopper t SReturned s)
  | stop_load t :
      stoppers s !! t = Some SLoad -> rejects (status s) = false ->
      stop_step s (set_stopper t (SCas (status s)) s)
  | stop_cas_ok t st :
      stoppers s !! t = Some (SCas st) -> status s = st ->
      stop_step s (set_stopper t SWake (s <| status := statusStopping |>))
  | stop_cas_fail t st :
      stoppers s !! t = Some (SCas st) -> status s <> st ->
      stop_step s (set_stopper t SLoad s)
  | stop_wake t :
      stoppers s !! t = Some SWake ->
      stop_step s (set_stopper t SReturned (s <| wake := true |>)).

(** [Drain] (l. 193), called once [IsDead] has returned true; one round of its
    loop per step. *)
Inductive drain_step (s : state HS) : state HS -> Prop :=
  | drain_call :
      drainc s = DNone -> IsDead s = true -> drain_step s (s <| drainc := DLoop |>)
  | drain_end :
      drainc s = DLoop -> next_at (heap s) (a_head s) = None ->
      drain_step s (s <| drainc := DDone |>)
  | drain_round n :
      drainc s = DLoop -> next_at (heap s) (a_head s) = Some n ->
      drain_step s
        (PutEnvelope (a_head s)
           (s <| drained ::= fun l => l ++ [msg_at (heap s) n] |>
              <| heap ::= store_msg n None |> <| a_head := n |> <| pending ::= decr |>
              <| chain ::= list.tail |>)).

Inductive step (s s' : state HS) : Prop :=
  | step_producer : producer_step s s' -> step s s'
  | step_loop : loop_step s s' -> step s s'
  | step_stop : stop_step s s' -> step s s'
  | step_drain : drain_step s s' -> step s s'
  | step_cancel : s' = s <| ctxDone := true |> -> step s s'.

(** The states an actor can be in. *)
Definition reachable (s : state HS) : Prop :=
  exists hs p0 pool0 dummy, (dummy ∉ pool0) /\ is_u64 p0 /\ rtc step (New hs p0 pool0 dummy) s.
End Steps.
