(* ===== verification/MailboxInv.v ===== *)
(** * The actor runtime: invariant

    The invariant of the interleaved actor of [Mailbox] (ownership of nodes, links
    of the queue, control state, history, the backlog counter and the wake
    channel) and its preservation by every step.  The theorems that follow from it
    are in [ActorSpec]. *)

From S2P Require Import Prelude Wire Mailbox.

(** ** Node access, equations *)

Section NodeAccess.
Implicit Types (h : gmap nat qnode) (n m : nat).

Definition alloc h n : Prop := is_Some (h !! n).

Lemma alloc_store_next h n v m : alloc (store_next n v h) m <-> alloc h m.
Proof. unfold alloc, store_next. by rewrite lookup_alter_is_Some. Qed.
Lemma alloc_store_msg h n v m : alloc (store_msg n v h) m <-> alloc h m.
Proof. unfold alloc, store_msg. by rewrite lookup_alter_is_Some. Qed.
Lemma alloc_insert h n q m : alloc (<[n := q]> h) m <-> m = n \/ alloc h m.
Proof.
  unfold alloc. rewrite lookup_insert_is_Some. destruct (decide (n = m)); naive_solver.
Qed.

Lemma msg_at_store_next h n v m : msg_at (store_next n v h) m = msg_at h m.
Proof.
  unfold msg_at, store_next. rewrite lookup_alter. case_decide; [subst|done].
  by destruct (h !! m).
Qed.
Lemma next_at_store_msg h n v m : next_at (store_msg n v h) m = next_at h m.
Proof.
  unfold next_at, store_msg. rewrite lookup_alter. case_decide; [subst|done].
  by destruct (h !! m).
Qed.
Lemma next_at_store_next h n v m :
  alloc h n -> next_at (store_next n v h) m = if decide (m = n) then v else next_at h m.
Proof.
  intros [q Hq]. unfold next_at, store_next. rewrite lookup_alter.
  repeat case_decide; subst; try done. by rewrite Hq.
Qed.
Lemma msg_at_store_msg h n v m :
  alloc h n -> msg_at (store_msg n v h) m = if decide (m = n) then v else msg_at h m.
Proof.
  intros [q Hq]. unfold msg_at, store_msg. rewrite lookup_alter.
  repeat case_decide; subst; try done. by rewrite Hq.
Qed.
Lemma msg_at_insert h n q m :
  msg_at (<[n := q]> h) m = if decide (m = n) then Msg q else msg_at h m.
Proof.
  unfold msg_at. rewrite lookup_insert. by repeat case_decide; subst.
Qed.
Lemma next_at_insert h n q m :
  next_at (<[n := q]> h) m = if decide (m = n) then next q else next_at h m.
Proof.
  unfold next_at. rewrite lookup_insert. by repeat case_decide; subst.
Qed.
End NodeAccess.

Create Rewrite HintDb nodes.
#[export] Hint Rewrite alloc_store_next alloc_store_msg alloc_insert msg_at_store_next
  next_at_store_msg msg_at_insert next_at_insert : nodes.
#[export] Hint Rewrite next_at_store_next msg_at_store_msg using
  (autorewrite with nodes; auto) : nodes.

(** ** The ownership and linking invariant *)

(** The node a producer holds and has not published. *)
Definition owned_node (p : producer) : option nat :=
  match p with
  | PSendEnv n | PClear n | PCount n | PSwap n => Some n
  | _ => None
  end.

(** The former dummy node the loop holds and has not recycled. *)
Definition retired_node (l : loop_pc) : option nat :=
  match l with LDec h _ | LPut h _ => Some h | _ => None end.

(** [mem_inv h p hd tl c ps ret]: the nodes of [c] run from [hd] to [tl]; each is
    linked to its successor or the producer that will link it is on its way; the
    pool, the chain, the nodes producers hold and the retired node are disjoint. *)
Record mem_inv (h : gmap nat qnode) (p : gset nat) (hd tl : nat) (c : list nat)
    (ps : gmap nat producer) (ret : option nat) : Prop := {
  mi_head : c !! 0%nat = Some hd;
  mi_last : list.last c = Some tl;
  mi_nodup : NoDup c;
  mi_chain n : n ∈ c -> alloc h n /\ (n ∉ p);
  mi_pool n : n ∈ p -> alloc h n /\ msg_at h n = None /\ next_at h n = None;
  mi_owned t q n : ps !! t = Some q -> owned_node q = Some n ->
    alloc h n /\ (n ∉ c) /\ (n ∉ p) /\ is_Some (msg_at h n) /\ next_at h n = None;
  mi_owned_inj t1 t2 q1 q2 n : ps !! t1 = Some q1 -> ps !! t2 = Some q2 ->
    owned_node q1 = Some n -> owned_node q2 = Some n -> t1 = t2;
  mi_ret n : ret = Some n -> alloc h n /\ (n ∉ c) /\ (n ∉ p) /\
    forall t q, ps !! t = Some q -> owned_node q <> Some n;
  mi_link i a b : c !! i = Some a -> c !! S i = Some b ->
    next_at h a = Some b \/ (next_at h a = None /\ exists t, ps !! t = Some (PLink b a));
  mi_tail : next_at h tl = None;
  mi_plink t b a : ps !! t = Some (PLink b a) ->
    next_at h a = None /\ exists i, c !! i = Some a /\ c !! S i = Some b;
  mi_plink_inj t1 t2 b a1 a2 : ps !! t1 = Some (PLink b a1) -> ps !! t2 = Some (PLink b a2) -> t1 = t2;
}.

Definition is_plink (p : producer) : bool :=
  match p with PLink _ _ => true | _ => false end.

Section MemInv.
Context (h : gmap nat qnode) (p : gset nat) (hd tl : nat) (c : list nat)
        (ps : gmap nat producer) (ret : option nat).
Context (I : mem_inv h p hd tl c ps ret).

(** A producer moves on without publishing, linking or getting a node. *)
Lemma mem_inv_move t q' :
  is_plink q' = false ->
  (forall q, ps !! t = Some q -> is_plink q = false) ->
  (owned_node q' = None \/ exists q, ps !! t = Some q /\ owned_node q' = owned_node q) ->
  mem_inv h p hd tl c (<[t := q']> ps) ret.
Proof.
  intros Hq' Hq Ho. destruct I. constructor; auto.
  - intros t' q n. rewrite lookup_insert. case_decide; [|eauto].
    intros [= <-] Hn. destruct Ho as [Ho|(q0 & Hq0 & Ho)]; [congruence|].
    apply (mi_owned0 t q0); congruence.
  - intros t1 t2 q1 q2 n. rewrite !lookup_insert. repeat case_decide; subst; try done.
    all: intros; simplify_eq; destruct Ho as [Ho|(q0 & Hq0 & Ho)]; try congruence;
      try (eapply mi_owned_inj0; eauto; congruence); eauto.
  - intros n Hn. destruct (mi_ret0 n Hn) as (?&?&?&Hr). repeat split; auto.
    intros t' q. rewrite lookup_insert. case_decide; [|eauto]. intros [= <-].
    destruct Ho as [Ho|(q0 & Hq0 & Ho)]; [congruence|]. rewrite Ho. eauto.
  - intros i a b Ha Hb. destruct (mi_link0 i a b Ha Hb) as [|(Hn & t' & Ht')]; [by left|].
    right. split; [done|]. exists t'. rewrite lookup_insert_ne; [done|].
    intros ->. by specialize (Hq _ Ht').
  - intros t' b a. rewrite lookup_insert. case_decide; [|eauto]. intros [= ->]. done.
  - intros t1 t2 b a1 a2. rewrite !lookup_insert.
    repeat case_decide; subst; intros; simplify_eq; try done; eauto.
Qed.

Lemma chain_last_index : exists i, c !! i = Some tl /\ length c = S i.
Proof.
  destruct I. rewrite last_lookup in mi_last0.
  exists (pred (length c)). split; [done|].
  destruct c; [done | simpl; lia].
Qed.

(** A node that only its holder can reach. *)
Definition fresh_node (n : nat) : Prop :=
  alloc h n /\ (n ∉ c) /\ (n ∉ p) /\ next_at h n = None /\ ret <> Some n /\
  forall t q, ps !! t = Some q -> owned_node q <> Some n.

(** A node taken from the pool, or newly allocated, is such a node. *)
Lemma mem_inv_take n :
  n ∈ p -> mem_inv h (p ∖ {[n]}) hd tl c ps ret /\
           alloc h n /\ (n ∉ c) /\ (n ∉ p ∖ {[n]}) /\ next_at h n = None /\ ret <> Some n /\
           forall t q, ps !! t = Some q -> owned_node q <> Some n.
Proof.
  intros Hn. destruct I. destruct (mi_pool0 n Hn) as (Hal & Hmsg & Hnx). split.
  - constructor; auto.
    + intros m Hm. destruct (mi_chain0 m Hm). split; [done | set_solver].
    + intros m Hm. apply mi_pool0. set_solver.
    + intros t q m Hq Hm. destruct (mi_owned0 t q m) as (?&?&?&?&?); [done..|].
      repeat split; auto. set_solver.
    + intros m Hm. destruct (mi_ret0 m Hm) as (?&?&?&?). repeat split; auto. set_solver.
  - repeat split; auto.
    + intros Hc. by destruct (mi_chain0 n Hc).
    + set_solver.
    + intros Hr. by destruct (mi_ret0 n Hr) as (?&?&?&?).
    + intros t q Hq Ho. by destruct (mi_owned0 t q n) as (?&?&?&?&?).
Qed.

Lemma mem_inv_new n :
  h !! n = None ->
  mem_inv (<[n := mkNode None None]> h) p hd tl c ps ret /\
  alloc (<[n := mkNode None None]> h) n /\ (n ∉ c) /\ (n ∉ p) /\
  next_at (<[n := mkNode None None]> h) n = None /\ ret <> Some n /\
  forall t q, ps !! t = Some q -> owned_node q <> Some n.
Proof.
  intros Hn. destruct chain_last_index as (k & Hk & _). destruct I.
  assert (forall m, alloc h m -> m <> n) as Hne by (intros m [q Hq] ->; congruence).
  assert (n ∉ c) as Hnc by (intros Hc; by apply (Hne n); [apply mi_chain0|]).
  assert (forall m, m ∈ c -> next_at (<[n := mkNode None None]> h) m = next_at h m) as Hnx.
  { intros m Hm. autorewrite with nodes. rewrite decide_False; [done|congruence]. }
  split.
  - constructor; auto.
    + intros m Hm. destruct (mi_chain0 m Hm). autorewrite with nodes. auto.
    + intros m Hm. destruct (mi_pool0 m Hm) as (?&?&?). autorewrite with nodes.
      rewrite !decide_False by auto. auto.
    + intros t q m Hq Hm. destruct (mi_owned0 t q m) as (?&?&?&?&?); [done..|].
      autorewrite with nodes. rewrite !decide_False by auto. auto.
    + intros m Hm. destruct (mi_ret0 m Hm) as (?&?&?&?). autorewrite with nodes. auto.
    + intros i a b Ha Hb. rewrite Hnx by by eapply list_elem_of_lookup_2. eauto.
    + by rewrite Hnx by by eapply list_elem_of_lookup_2.
    + intros t b a Ht. destruct (mi_plink0 _ _ _ Ht) as (? & i & ? & ?).
      rewrite Hnx by by eapply list_elem_of_lookup_2. eauto.
  - autorewrite with nodes. rewrite decide_True by done. repeat split; auto.
    + intros Hp. by apply (Hne n); [apply mi_pool0|].
    + intros Hr. by apply (Hne n); [apply mi_ret0|].
    + intros t q Hq Ho. by apply (Hne n); [eapply mi_owned0|].
Qed.

(** Its holder fills it and owns it from then on. *)
Lemma mem_inv_own t q' n env :
  fresh_node n -> owned_node q' = Some n ->
  (forall q, ps !! t = Some q -> owned_node q = None /\ is_plink q = false) ->
  mem_inv (store_msg n (Some env) h) p hd tl c (<[t := q']> ps) ret.
Proof.
  intros (Hal & Hnc & Hnp & Hnx & Hnr & Hno) Hq' Ht. destruct I.
  assert (forall b a, q' <> PLink b a) as Hnpl by (by intros b a ->).
  constructor; intros; autorewrite with nodes; auto.
  - destruct (mi_pool0 n0) as (?&?&?); [done|]. repeat split; auto.
    case_decide; [by subst | done].
  - destruct (decide (t0 = t)) as [->|].
    + rewrite lookup_insert_eq in *. simplify_eq. repeat split; auto. by rewrite decide_True.
    + rewrite lookup_insert_ne in * by done.
      destruct (mi_owned0 t0 q n0) as (?&?&?&?&?); [done..|]. repeat split; auto.
      rewrite decide_False; [done|]. intros ->. by eapply Hno.
  - destruct (decide (t1 = t)) as [->|], (decide (t2 = t)) as [->|];
      rewrite ?lookup_insert_eq, ?lookup_insert_ne in * by done; simplify_eq;
      try done; [..|by eapply mi_owned_inj0]; exfalso; eapply Hno; eauto; congruence.
  - destruct (mi_ret0 n0) as (?&?&?&Hr); [done|]. repeat split; auto.
    intros t' q. rewrite lookup_insert. case_decide; [|eauto]. intros [= <-]. congruence.
  - destruct (mi_link0 i a b) as [|(Hn & t' & Ht')]; [done..|by left|].
    right. split; [done|]. exists t'. rewrite lookup_insert_ne; [done|].
    intros <-. by destruct (Ht _ Ht').
  - rewrite lookup_insert in *. case_decide; [|eauto]. by simplify_eq.
  - destruct (decide (t1 = t)) as [->|], (decide (t2 = t)) as [->|];
      rewrite ?lookup_insert_eq, ?lookup_insert_ne in * by done; simplify_eq;
      try done; try (exfalso; by eapply Hnpl); eauto.
Qed.

(** A producer clears the link of the node it holds (it was clear already). *)
Lemma mem_inv_clear_next n :
  (exists t q, ps !! t = Some q /\ owned_node q = Some n) ->
  mem_inv (store_next n None h) p hd tl c ps ret.
Proof.
  intros (t & q & Ht & Hq). destruct I.
  destruct (mi_owned0 t q n) as (Hal & Hnc & Hnp & Hm & Hnx); [done..|].
  assert (forall m, next_at (store_next n None h) m = next_at h m) as Hsame.
  { intros m. autorewrite with nodes. case_decide; congruence. }
  constructor; intros; rewrite ?Hsame; autorewrite with nodes; eauto.
Qed.

(** [tail.Swap] publishes the node a producer holds. *)
Lemma mem_inv_swap t n :
  ps !! t = Some (PSwap n) ->
  mem_inv h p hd n (c ++ [n]) (<[t := PLink n tl]> ps) ret.
Proof.
  intros Ht. destruct chain_last_index as (k & Hk & Hlen). destruct I.
  destruct (mi_owned0 t _ n Ht) as (Hal & Hnc & Hnp & Hm & Hnx); [done|].
  constructor.
  - by apply lookup_app_l_Some.
  - by rewrite last_snoc.
  - apply list.NoDup_app. repeat split; [done | | apply NoDup_singleton].
    intros m Hm' ->%list_elem_of_singleton. done.
  - intros m [Hm'| ->%list_elem_of_singleton]%elem_of_app; auto.
  - done.
  - intros t' q m Hq Hm'. rewrite lookup_insert in Hq. case_decide; [by simplify_eq|].
    destruct (mi_owned0 t' q m) as (?&?&?&?&?); [done..|].
    repeat split; auto. apply not_elem_of_app. split; [done|].
    intros ->%list_elem_of_singleton. apply H. by eapply (mi_owned_inj0 t t').
  - intros t1 t2 q1 q2 m. rewrite !lookup_insert.
    repeat case_decide; intros; simplify_eq; eauto.
  - intros m Hm'. destruct (mi_ret0 m Hm') as (?&?&?&Hr). repeat split; auto.
    + apply not_elem_of_app. split; [done|]. intros ->%list_elem_of_singleton. by eapply Hr.
    + intros t' q. rewrite lookup_insert. case_decide; [by intros [= <-]|eauto].
  - intros i a b Ha Hb. pose proof (lookup_lt_Some _ _ _ Hb) as Hlt.
    rewrite length_app in Hlt; simpl in Hlt.
    rewrite lookup_app_l in Ha by lia.
    destruct (decide (S i < length c)%nat).
    + rewrite lookup_app_l in Hb by lia.
      destruct (mi_link0 i a b Ha Hb) as [|(Hn & t' & Ht')]; [by left|].
      right. split; [done|]. exists t'. rewrite lookup_insert_ne; [done|congruence].
    + assert (i = k) as -> by lia. rewrite lookup_app_r in Hb by lia.
      replace (S k - length c)%nat with 0%nat in Hb by lia. simplify_eq/=.
      right. split; [done|]. exists t. by rewrite lookup_insert_eq.
  - done.
  - intros t' b a Ht'. rewrite lookup_insert in Ht'. case_decide.
    + simplify_eq. split; [done|]. exists k. split; [by apply lookup_app_l_Some|].
      rewrite lookup_app_r by lia. by replace (S k - length c)%nat with 0%nat by lia.
    + destruct (mi_plink0 _ _ _ Ht') as (? & i & Hi & HSi). split; [done|].
      exists i. split; by apply lookup_app_l_Some.
  - assert (forall t' a, ps !! t' = Some (PLink n a) -> False) as Hnot.
    { intros t' a Ht'. destruct (mi_plink0 _ _ _ Ht') as (_ & i & _ & HSi).
      apply Hnc. by eapply list_elem_of_lookup_2. }
    intros t1 t2 b a1 a2. rewrite !lookup_insert.
    repeat case_decide; intros; simplify_eq; eauto; exfalso; eauto.
Qed.

(** [prev.next.Store] completes the publication. *)
Lemma mem_inv_link t b a :
  ps !! t = Some (PLink b a) ->
  mem_inv (store_next a (Some b) h) p hd tl c (<[t := PWake]> ps) ret.
Proof.
  intros Ht. destruct chain_last_index as (k & Hk & Hlen). destruct I.
  destruct (mi_plink0 _ _ _ Ht) as (Hnone & i & Hi & HSi).
  assert (a ∈ c) as Hac by by eapply list_elem_of_lookup_2.
  destruct (mi_chain0 a Hac) as [Hal Hnp].
  constructor; intros; autorewrite with nodes; auto.
  - destruct (mi_pool0 n) as (?&?&?); [done|]. rewrite decide_False by congruence. done.
  - rewrite lookup_insert in *. case_decide; [by simplify_eq|].
    destruct (mi_owned0 t0 q n) as (?&?&?&?&?); [done..|].
    rewrite decide_False by congruence. done.
  - rewrite !lookup_insert in *. repeat case_decide; simplify_eq; eauto.
  - destruct (mi_ret0 n) as (?&?&?&Hr); [done|]. repeat split; auto.
    intros t' q. rewrite lookup_insert. case_decide; [by intros [= <-]|eauto].
  - case_decide as Hd; [left; subst|].
    + pose proof (NoDup_lookup c i i0 a ltac:(done) Hi ltac:(done)). subst. congruence.
    + destruct (mi_link0 i0 a0 b0) as [|(Hn & t' & Ht')]; [done..|by left|].
      right. split; [done|]. exists t'. rewrite lookup_insert_ne; [done|congruence].
  - rewrite decide_False; [done|]. intros ->.
    pose proof (NoDup_lookup c i k a ltac:(done) Hi Hk). subst.
    apply lookup_lt_Some in HSi. lia.
  - rewrite lookup_insert in *. case_decide; [done|].
    destruct (mi_plink0 t0 b0 a0) as (? & j & Hj & HSj); [done|].
    split; [|eauto]. rewrite decide_False; [done|]. intros ->.
    pose proof (NoDup_lookup c i j a ltac:(done) Hi Hj). subst.
    simplify_eq. by eapply H0, mi_plink_inj0.
  - rewrite !lookup_insert in *. repeat case_decide; simplify_eq; eauto.
Qed.

(** The link out of the head is the second node of the chain. *)
Lemma chain_uncons n :
  next_at h hd = Some n -> exists rest, c = hd :: n :: rest.
Proof.
  intros Hn. destruct I. destruct c as [|x [|y rest]]; simplify_eq/=.
  exists rest. destruct (mi_link0 0%nat hd y) as [|[? _]]; try done; congruence.
Qed.

(** [head.Store(next)]: the old dummy is retired. *)
Lemma mem_inv_advance n :
  ret = None -> next_at h hd = Some n -> mem_inv h p n tl (list.tail c) ps (Some hd).
Proof.
  intros Hret Hn. destruct (chain_uncons n Hn) as [rest Hc]. destruct I. rewrite Hc in *. simpl.
  apply list.NoDup_cons in mi_nodup0 as [Hhd Hnd].
  constructor; intros; simplify_eq; auto.
  - apply mi_chain0. by right.
  - destruct (mi_owned0 t q n0) as (?&?&?&?&?); [done..|]. repeat split; auto.
    intros ?. apply H2. by right.
  - eauto.
  - destruct (mi_chain0 n0) as [? ?]; [by left|]. repeat split; auto.
    intros t q Hq Ho. destruct (mi_owned0 t q n0 Hq Ho) as (_ & Hno & _).
    apply Hno. by left.
  - by apply (mi_link0 (S i)).
  - destruct (mi_plink0 t b a) as (? & [|i] & Hi & HSi); simplify_eq/=; eauto.
  - eauto.
Qed.

(** [PutEnvelope] of the retired node. *)
Lemma mem_inv_put r :
  ret = Some r ->
  mem_inv (store_next r None (store_msg r None h)) ({[r]} ∪ p) hd tl c ps None.
Proof.
  intros Hr. destruct chain_last_index as (k & Hk & _).
  destruct I. destruct (mi_ret0 r Hr) as (Hal & Hnc & Hnp & Hno).
  constructor; intros; autorewrite with nodes; auto.
  - destruct (mi_chain0 n) as [? ?]; [done|]. split; [done|]. set_solver.
  - apply elem_of_union in H as [->%elem_of_singleton|Hn].
    + by repeat rewrite decide_True by done.
    + destruct (mi_pool0 n Hn) as (?&?&?). by repeat case_decide.
  - destruct (mi_owned0 t q n) as (?&?&?&?&?); [done..|].
    assert (n <> r) by (intros ->; by eapply Hno).
    rewrite !decide_False by done. repeat split; auto. set_solver.
  - eauto.
  - done.
  - rewrite decide_False; [eauto|]. intros ->. apply Hnc. by eapply list_elem_of_lookup_2.
  - rewrite decide_False; [done|]. intros ->. apply Hnc. by eapply list_elem_of_lookup_2.
  - destruct (mi_plink0 t b a) as (? & i & Hi & HSi); [done|].
    rewrite decide_False; [eauto|]. intros ->. apply Hnc. by eapply list_elem_of_lookup_2.
  - eauto.
Qed.

(** The dummy drops its reference to the envelope. *)
Lemma mem_inv_clear_msg : mem_inv (store_msg hd None h) p hd tl c ps ret.
Proof.
  destruct I.
  assert (hd ∈ c) as Hin by by eapply list_elem_of_lookup_2.
  destruct (mi_chain0 hd Hin) as [Hal Hnp].
  constructor; intros; autorewrite with nodes; eauto.
  - destruct (mi_pool0 n) as (?&?&?); [done|]. by case_decide.
  - destruct (mi_owned0 t q n) as (?&?&?&?&?); [done..|].
    rewrite decide_False by (intros ->; done). done.
Qed.
End MemInv.

(** ** The invariant of an actor *)

(** The envelopes that are published and not yet dequeued. *)
Definition queue {HS} (s : state HS) : list (option RemoteEnvelope) :=
  msg_at (heap s) <$> list.tail (chain s).

(** The envelope that is dequeued and not yet handled. *)
Definition in_hand {HS} (s : state HS) : list (option RemoteEnvelope) :=
  match loopc s with
  | LDec _ n | LPut _ n | LHandle n => [msg_at (heap s) n]
  | _ => []
  end.

Definition current_node (l : loop_pc) : option nat :=
  match l with LDec _ n | LPut _ n | LHandle n | LClear n => Some n | _ => None end.

#[export] Instance is_PSwap_dec (q : producer) : Decision (exists n, q = PSwap n).
Proof. destruct q as [| | | | |n| | |]; try (right; by intros [? ?]). left. by exists n. Defined.

(** The producers between the counter and the swap. *)
Definition counted (ps : gmap nat producer) : nat :=
  size (filter (fun kv => exists n, kv.2 = PSwap n) ps).

Definition uncounted (l : loop_pc) : Z := match l with LDec _ _ => 1 | _ => 0 end.

Record ctl_inv {HS} (s : state HS) : Prop := {
  ci_adv n : loopc s = LAdvance n -> next_at (heap s) (a_head s) = Some n;
  ci_cur n : current_node (loopc s) = Some n -> n = a_head s;
  ci_init : status s = statusInit -> loopc s = LNone;
  ci_none : loopc s = LNone -> status s = statusInit \/ status s = statusStopping;
  ci_dead : status s = statusDead <-> loopc s = LExited;
  ci_drain : drainc s <> DNone -> loopc s = LExited;
  ci_drained : drainc s = DNone -> drained s = [];
  ci_panic : loopc s <> LPanicked;
  ci_cas t st : stoppers s !! t = Some (SCas st) -> rejects st = false;
  ci_dummy : current_node (loopc s) = None -> msg_at (heap s) (a_head s) = None;
}.

(** A loop that saw an empty mailbox (or a running status) and is about to park
    finds a token in the wake channel, or one is on its way, whenever that is no
    longer true. *)
Record wake_inv {HS} (s : state HS) : Prop := {
  wi_link : loopc s = LTail \/ loopc s = LStatus \/ loopc s = LPark ->
    next_at (heap s) (a_head s) <> None ->
    wake s = true \/ exists t, producers s !! t = Some PWake;
  wi_stop : loopc s = LPark -> status s = statusStopping ->
    wake s = true \/ exists t, stoppers s !! t = Some SWake;
}.

Record inv {HS} (p0 : Z) (s : state HS) : Prop := {
  inv_mem : mem_inv (heap s) (pool s) (a_head s) (a_tail s) (chain s) (producers s)
              (retired_node (loopc s));
  inv_ctl : ctl_inv s;
  inv_hist : accepted s = handled s ++ in_hand s ++ drained s ++ queue s;
  inv_some : Forall is_Some (accepted s);
  inv_count : pending s =
    u64 (p0 + Z.of_nat (counted (producers s)) + Z.of_nat (length (queue s)) + uncounted (loopc s));
  inv_wake : wake_inv s;
}.

Definition not_swap (q : producer) : Prop := ~ exists n, q = PSwap n.

Lemma counted_same ps t q :
  not_swap q -> (forall q0, ps !! t = Some q0 -> not_swap q0) ->
  counted (<[t := q]> ps) = counted ps.
Proof. intros Hq H0. unfold counted. by rewrite map_filter_insert_not'. Qed.

Lemma counted_incr ps t n :
  (forall q0, ps !! t = Some q0 -> not_swap q0) ->
  counted (<[t := PSwap n]> ps) = S (counted ps).
Proof.
  intros H0. unfold counted. rewrite map_filter_insert_True by (simpl; eauto).
  apply map_size_insert_None, map_lookup_filter_None_2. right.
  intros q0 Hq0. by apply H0.
Qed.

Lemma counted_decr ps t n q :
  not_swap q -> ps !! t = Some (PSwap n) -> counted ps = S (counted (<[t := q]> ps)).
Proof.
  intros Hq Ht. rewrite <- (insert_id ps t (PSwap n)) at 1 by done.
  rewrite <- insert_delete_eq, counted_incr by (intros q0; by rewrite lookup_delete_eq).
  f_equal. unfold counted. by rewrite map_filter_insert_False.
Qed.

(** ** Preservation: producers *)

Section Preservation.
Context {HS : Type} `{Handler HS} (p0 : Z).
Implicit Types s : state HS.

Lemma queue_ext h h' (c : list nat) :
  (forall n, n ∈ c -> msg_at h' n = msg_at h n) ->
  msg_at h' <$> list.tail c = msg_at h <$> list.tail c.
Proof.
  intros Heq. apply list_fmap_ext. intros i n Hn. apply Heq.
  destruct c; [done|]. right. by eapply list_elem_of_lookup_2.
Qed.

Lemma head_in_chain s : inv p0 s -> a_head s ∈ chain s.
Proof. intros [Im _ _ _ _ _]. eapply list_elem_of_lookup_2, Im. Qed.

Lemma in_hand_ext s h' :
  ctl_inv s -> msg_at h' (a_head s) = msg_at (heap s) (a_head s) ->
  in_hand (s <| heap := h' |>) = in_hand s.
Proof.
  intros [] Hm. unfold in_hand. simpl.
  destruct (loopc s) eqn:El; try done; rewrite (ci_cur0 n) by done; by rewrite Hm.
Qed.

(** Steps that only change memory the queue does not use. *)
Lemma inv_frame s h' p' ps' :
  inv p0 s ->
  mem_inv h' p' (a_head s) (a_tail s) (chain s) ps' (retired_node (loopc s)) ->
  (forall m, m ∈ chain s ->
     msg_at h' m = msg_at (heap s) m /\ next_at h' m = next_at (heap s) m) ->
  counted ps' = counted (producers s) ->
  (forall t, producers s !! t = Some PWake -> ps' !! t = Some PWake) ->
  inv p0 (s <| heap := h' |> <| pool := p' |> <| producers := ps' |>).
Proof.
  intros I Im' Hsame Hcnt Hw. pose proof (head_in_chain s I) as Hhd.
  destruct (Hsame _ Hhd) as [Hm Hn].
  assert (queue (s <| heap := h' |>) = queue s) as Hq.
  { apply queue_ext. intros n Hin. by apply Hsame. }
  destruct I as [Im Ictl Ih Is Ic [Wl Ws]].
  pose proof (in_hand_ext s h' Ictl Hm) as Hih. destruct Ictl.
  constructor; [done|..|done| |].
  - constructor; simpl; rewrite ?Hm, ?Hn; auto.
  - change (accepted s = handled s ++ in_hand (s <| heap := h' |>) ++ drained s ++
              queue (s <| heap := h' |>)).
    by rewrite Hih, Hq.
  - change (pending s = u64 (p0 + Z.of_nat (counted ps') +
              Z.of_nat (length (queue (s <| heap := h' |>))) + uncounted (loopc s))).
    by rewrite Hcnt, Hq.
  - constructor; simpl; [|done]. rewrite Hn. intros Hpc Hnx.
    destruct (Wl Hpc Hnx) as [|[t Ht]]; [by left|]. right. eauto.
Qed.

(** A producer moves on, nothing else changes. *)
Lemma inv_move s t q' :
  inv p0 s -> is_plink q' = false -> not_swap q' ->
  (forall q, producers s !! t = Some q -> is_plink q = false /\ not_swap q /\ q <> PWake) ->
  (owned_node q' = None \/ exists q, producers s !! t = Some q /\ owned_node q' = owned_node q) ->
  inv p0 (set_producer t q' s).
Proof.
  intros I Hpl Hns Hq Ho.
  apply (inv_frame s (heap s) (pool s) (<[t := q']> (producers s))); auto.
  - apply mem_inv_move; [apply I|done| |done]. intros q Ht. by apply Hq.
  - apply counted_same; [done|]. intros q Ht. by apply Hq.
  - intros t' Ht'. rewrite lookup_insert_ne; [done|]. intros <-. by apply (Hq _ Ht').
Qed.

(** What [GetEnvelope] hands out is held by nobody else, and the queue does not
    notice. *)
Lemma get_envelope_mem s n s' :
  inv p0 s -> GetEnvelope s n s' ->
  mem_inv (heap s') (pool s') (a_head s) (a_tail s) (chain s) (producers s)
    (retired_node (loopc s)) /\
  fresh_node (heap s') (pool s') (chain s) (producers s) (retired_node (loopc s)) n /\
  (forall m, m ∈ chain s ->
     msg_at (heap s') m = msg_at (heap s) m /\ next_at (heap s') m = next_at (heap s) m) /\
  exists h' p', s' = s <| heap := h' |> <| pool := p' |>.
Proof.
  intros [Im _ _ _ _ _] [m Hm|m Hm]; simpl.
  - destruct (mem_inv_take _ _ _ _ _ _ _ Im m Hm) as [Im' Hf].
    repeat (split; [done|]). by eexists (heap s), _.
  - destruct (mem_inv_new _ _ _ _ _ _ _ Im m Hm) as [Im' Hf].
    split; [done|]. split; [done|]. split; [|by eexists _, (pool s)].
    intros k Hk. autorewrite with nodes. rewrite !decide_False; [done|..]; intros ->; apply Hf in Hk; done.
Qed.

(** A producer fills a node it got and holds it. *)
Lemma inv_own s t n env s' q' :
  inv p0 s -> GetEnvelope s n s' -> owned_node q' = Some n -> not_swap q' ->
  (producers s !! t = None \/ producers s !! t = Some (PAlloc env)) ->
  inv p0 (set_producer t q' (s' <| heap ::= store_msg n (Some env) |>)).
Proof.
  intros I Hget Hq' Hns Ht.
  destruct (get_envelope_mem s n s' I Hget) as (Im & Hf & Hsame & h' & p' & ->). simpl in *.
  apply (inv_frame s (store_msg n (Some env) h') p' (<[t := q']> (producers s))); [done|..].
  - apply mem_inv_own; [done..|]. intros q Hq. destruct Ht as [Ht|Ht]; rewrite Ht in Hq; by simplify_eq.
  - intros m Hm. destruct (Hsame m Hm) as [<- <-]. destruct Hf as (Hal & Hnc & _).
    autorewrite with nodes. rewrite decide_False; [done|congruence].
  - apply counted_same; [done|]. intros q Hq.
    destruct Ht as [Ht|Ht]; rewrite Ht in Hq; simplify_eq. by intros [? ?].
  - intros t' Ht'. rewrite lookup_insert_ne; [done|]. intros <-. destruct Ht; congruence.
Qed.

Lemma inv_clear s t n :
  inv p0 s -> producers s !! t = Some (PClear n) ->
  inv p0 (set_producer t (PCount n) (s <| heap ::= store_next n None |>)).
Proof.
  intros I Ht. pose proof I as [Im _ _ _ _ _].
  destruct (mi_owned _ _ _ _ _ _ _ Im t _ n Ht eq_refl) as (Hal & Hnc & _ & _ & Hnx).
  apply (inv_frame s (store_next n None (heap s)) (pool s) (<[t := PCount n]> (producers s))); [done|..].
  - apply mem_inv_clear_next; [|exists t, (PCount n); by rewrite lookup_insert_eq].
    apply mem_inv_move; [done|done| |right; eauto]. intros q Hq. by simplify_eq.
  - intros m Hm. autorewrite with nodes. rewrite decide_False; [done|congruence].
  - apply counted_same; [by intros [? ?]|]. intros q Hq. simplify_eq. by intros [? ?].
  - intros t' Ht'. rewrite lookup_insert_ne; [done|congruence].
Qed.

Lemma inv_count_step s t n :
  inv p0 s -> producers s !! t = Some (PCount n) ->
  inv p0 (set_producer t (PSwap n) (s <| pending ::= incr |>)).
Proof.
  intros [Im [] Ih Is Ic [Wl Ws]] Ht. constructor; simpl; [|by constructor|done|done| |].
  - apply mem_inv_move; [done|done| |right; eauto]. intros q Hq. by simplify_eq.
  - rewrite counted_incr by (intros q Hq; simplify_eq; by intros [? ?]).
    rewrite Ic. unfold incr. rewrite u64_add_l. f_equal. unfold queue. simpl. lia.
  - constructor; simpl; [|done]. intros Hpc Hnx.
    destruct (Wl Hpc Hnx) as [|[t' Ht']]; [by left|]. right. exists t'.
    rewrite lookup_insert_ne; [done|congruence].
Qed.

Lemma tail_snoc (c : list nat) n x : c !! 0%nat = Some x -> list.tail (c ++ [n]) = list.tail c ++ [n].
Proof. by destruct c. Qed.

Lemma inv_swap s t n :
  inv p0 s -> producers s !! t = Some (PSwap n) ->
  inv p0 (set_producer t (PLink n (a_tail s))
           (s <| a_tail := n |> <| chain ::= fun c => c ++ [n] |>
              <| accepted ::= fun l => l ++ [msg_at (heap s) n] |>)).
Proof.
  intros [Im [] Ih Is Ic [Wl Ws]] Ht.
  destruct (mi_owned _ _ _ _ _ _ _ Im t _ n Ht eq_refl) as (_ & _ & _ & Hsome & _).
  assert (msg_at (heap s) <$> list.tail (chain s ++ [n]) = queue s ++ [msg_at (heap s) n]) as Hq.
  { unfold queue. erewrite tail_snoc by apply Im. by rewrite fmap_app. }
  constructor; simpl.
  - by apply mem_inv_swap.
  - by constructor.
  - unfold queue. simpl. rewrite Hq, Ih. by rewrite <- !app_assoc.
  - apply Forall_app. split; [done|]. by constructor.
  - unfold queue. simpl. rewrite Hq, length_app, Ic. simpl.
    rewrite (counted_decr (producers s) t n (PLink n (a_tail s))) by (done || by intros [? ?]).
    f_equal. lia.
  - constructor; simpl; [|done]. intros Hpc Hnx.
    destruct (Wl Hpc Hnx) as [|[t' Ht']]; [by left|]. right. exists t'.
    rewrite lookup_insert_ne; [done|congruence].
Qed.

Lemma inv_link s t n prev :
  inv p0 s -> producers s !! t = Some (PLink n prev) ->
  inv p0 (set_producer t PWake (s <| heap ::= store_next prev (Some n) |>)).
Proof.
  intros [Im [] Ih Is Ic [Wl Ws]] Ht.
  destruct (mi_plink _ _ _ _ _ _ _ Im _ _ _ Ht) as (Hnone & i & Hi & _).
  destruct (mi_chain _ _ _ _ _ _ _ Im prev) as [Hal _]; [by eapply list_elem_of_lookup_2|].
  constructor; simpl.
  - by apply mem_inv_link.
  - constructor; simpl; auto.
    + intros m Hm. autorewrite with nodes. apply ci_adv0 in Hm. rewrite decide_False; [done|congruence].
    + intros Hc. autorewrite with nodes. auto.
  - rewrite Ih. unfold in_hand, queue. simpl. f_equal. f_equal; [|f_equal].
    + destruct (loopc s); simpl; by autorewrite with nodes.
    + apply list_fmap_ext. intros. by autorewrite with nodes.
  - done.
  - rewrite counted_same, Ic by (by intros [? ?] || (intros q Hq; simplify_eq; by intros [? ?])).
    unfold queue. simpl. by rewrite !length_fmap.
  - constructor; simpl; [|done]. intros Hpc Hnx. right. exists t. by rewrite lookup_insert_eq.
Qed.

Lemma producer_step_inv s s' : inv p0 s -> producer_step s s' -> inv p0 s'.
Proof.
  intros I Hstep. destruct Hstep as
    [t env Ht|t env Ht _|t env Ht _|t env n s' Ht Hg|t env n s' Ht Hg|t Ht|t n Ht _|t n Ht _
    |t n Ht|t n Ht|t n Ht|t n prev Ht|t Ht].
  1,2,3,6,7,8: apply inv_move; [done|done|by intros [? ?]|..];
    [intros q Hq; rewrite Ht in Hq; simplify_eq; repeat split; (done || by intros [? ?])
    |first [by left | right; eauto]].
  - eapply inv_own; eauto. by intros [? ?].
  - eapply inv_own; eauto. by intros [? ?].
  - by apply inv_clear.
  - by apply inv_count_step.
  - by apply inv_swap.
  - by apply inv_link.
  - destruct I as [Im [] Ih Is Ic [Wl Ws]]. constructor; simpl; [|by constructor|done|done| |].
    + apply mem_inv_move; [done|done| |by left]. intros q Hq. by simplify_eq.
    + rewrite counted_same; [done|by intros [? ?]|]. intros q Hq. simplify_eq. by intros [? ?].
    + constructor; auto.
Qed.

(** *** The loop *)

(** While the loop runs, the actor is running or stopping and nobody drains. *)
Lemma ctl_running s :
  ctl_inv s -> loopc s <> LNone -> loopc s <> LExited ->
  status s <> statusInit /\ status s <> statusDead /\ drainc s = DNone /\ drained s = [].
Proof.
  intros [] Hn Hx. assert (drainc s = DNone) as Hd.
  { destruct (drainc s) eqn:E; [done|..]; by destruct Hx; apply ci_drain0. }
  repeat split; auto. intros Hs. by apply Hx, ci_dead0.
Qed.

(** A loop step that leaves the queue alone: neither the place it leaves nor the
    one it reaches holds a node, and the life cycle stays consistent. *)
Lemma inv_loop_quiet s st w l k :
  inv p0 s ->
  retired_node (loopc s) = None -> retired_node l = None ->
  current_node (loopc s) = None -> current_node l = None ->
  (forall n, l = LAdvance n -> next_at (heap s) (a_head s) = Some n) ->
  st <> statusInit -> l <> LNone -> l <> LPanicked -> loopc s <> LExited ->
  (st = statusDead <-> l = LExited) ->
  (l = LTail \/ l = LStatus \/ l = LPark -> next_at (heap s) (a_head s) <> None ->
     w = true \/ exists t, producers s !! t = Some PWake) ->
  (l = LPark -> st = statusStopping -> w = true \/ exists t, stoppers s !! t = Some SWake) ->
  inv p0 (s <| status := st |> <| wake := w |> <| loopc := l |> <| shutdownCalls := k |>).
Proof.
  intros [Im [] Ih Is Ic Iw] Hr Hr' Hc Hc' Hadv Hst Hl Hp Hx Hd Hw1 Hw2.
  assert (drainc s = DNone) as Hdr.
  { destruct (drainc s) eqn:E; [done|..]; by destruct Hx; apply ci_drain0. }
  assert (in_hand s = []) as Hih by (unfold in_hand; by destruct (loopc s)).
  constructor; simpl.
  - by rewrite Hr', <- Hr.
  - constructor; simpl; auto; congruence.
  - rewrite Ih, Hih. unfold in_hand. simpl. by destruct l.
  - done.
  - rewrite Ic. f_equal. by destruct (loopc s), l.
  - by constructor.
Qed.

Lemma inv_advance s n :
  inv p0 s -> loopc s = LAdvance n ->
  inv p0 (s <| a_head := n |> <| chain ::= list.tail |> <| loopc := LDec (a_head s) n |>).
Proof.
  intros [Im Ictl Ih Is Ic Iw] Hl. pose proof (ci_adv s Ictl n Hl) as Hn.
  destruct (ctl_running s Ictl) as (Hs1 & Hs2 & Hd1 & Hdr); [congruence..|].
  destruct (chain_uncons _ _ _ _ _ _ _ Im n Hn) as [rest Hch].
  rewrite Hl in *.
  assert (queue s = msg_at (heap s) n :: (msg_at (heap s) <$> rest)) as Hq.
  { unfold queue. by rewrite Hch. }
  constructor; simpl.
  - by apply (mem_inv_advance _ _ _ _ _ _ _ Im).
  - constructor; simpl; intros; try split; intros;
      first [done | congruence | by eapply (ci_cas s Ictl) | simplify_eq; by auto].
  - rewrite Ih, Hdr, Hq. unfold in_hand, queue. rewrite Hl. simpl. by rewrite Hch.
  - done.
  - rewrite Ic, Hq. unfold queue. simpl. rewrite Hch. simpl. f_equal. lia.
  - constructor; simpl; [intros [|[|]]; done | done].
Qed.

Lemma inv_dec s h n :
  inv p0 s -> loopc s = LDec h n -> inv p0 (s <| pending ::= decr |> <| loopc := LPut h n |>).
Proof.
  intros [Im Ictl Ih Is Ic Iw] Hl.
  destruct (ctl_running s Ictl) as (Hs1 & Hs2 & Hd1 & Hdr); [congruence..|].
  pose proof (ci_cur s Ictl n) as Hcur. rewrite Hl in *. constructor; simpl; [done|..|done| |].
  - constructor; simpl; intros; try split; intros;
      first [done | congruence | by eapply (ci_cas s Ictl) | simplify_eq; by auto].
  - rewrite Ih. unfold in_hand. by rewrite Hl.
  - rewrite Ic. unfold decr, queue. rewrite u64_add_l, u64_add_ones. f_equal. simpl. lia.
  - constructor; simpl; [intros [|[|]]; done | done].
Qed.

Lemma inv_put s h n :
  inv p0 s -> loopc s = LPut h n -> inv p0 ((PutEnvelope h s) <| loopc := LHandle n |>).
Proof.
  intros I Hl. pose proof (head_in_chain s I) as Hhd.
  destruct I as [Im Ictl Ih Is Ic Iw].
  destruct (ctl_running s Ictl) as (Hs1 & Hs2 & Hd1 & Hdr); [congruence..|].
  pose proof (ci_cur s Ictl n) as Hcur. rewrite Hl in *.
  destruct (mi_ret _ _ _ _ _ _ _ Im h eq_refl) as (Hal & Hnc & _ & _).
  assert (forall m, m ∈ chain s ->
            msg_at (store_next h None (store_msg h None (heap s))) m = msg_at (heap s) m) as Hsame.
  { intros m Hm. autorewrite with nodes. rewrite decide_False; [done|congruence]. }
  constructor; simpl.
  - by apply (mem_inv_put _ _ _ _ _ _ _ Im).
  - constructor; simpl; intros; try split; intros;
      first [done | congruence | by eapply (ci_cas s Ictl) | simplify_eq; by auto].
  - rewrite Ih. unfold in_hand, queue. simpl. rewrite Hl. simpl.
    rewrite Hcur, Hsame by done. do 3 f_equal. symmetry. by apply queue_ext.
  - done.
  - rewrite Ic. unfold queue. simpl. by rewrite !length_fmap.
  - constructor; simpl; [intros [|[|]]; done | done].
Qed.

Lemma in_hand_some s n : inv p0 s -> loopc s = LHandle n -> is_Some (msg_at (heap s) n).
Proof.
  intros [_ _ Ih Is _ _] Hl. rewrite Ih in Is. unfold in_hand in Is. rewrite Hl in Is.
  apply Forall_app in Is as [_ Is]. by inversion Is.
Qed.

Lemma inv_handle s n env :
  inv p0 s -> loopc s = LHandle n -> msg_at (heap s) n = Some env ->
  inv p0 (s <| loopc := LClear n |> <| handled ::= fun l => l ++ [Some env] |>).
Proof.
  intros [Im Ictl Ih Is Ic Iw] Hl Hm.
  destruct (ctl_running s Ictl) as (Hs1 & Hs2 & Hd1 & Hdr); [congruence..|].
  pose proof (ci_cur s Ictl n) as Hcur. rewrite Hl in *. constructor; simpl; [done|..|done|done|].
  - constructor; simpl; intros; try split; intros;
      first [done | congruence | by eapply (ci_cas s Ictl) | simplify_eq; by auto].
  - rewrite Ih. unfold in_hand, queue. simpl. rewrite Hl, Hm. simpl.
    rewrite <- !app_assoc. done.
  - constructor; simpl; [intros [|[|]]; done | done].
Qed.

(** The handler, the clock and the sink are outside the invariant. *)
Lemma inv_observe s hs f g em :
  inv p0 s ->
  inv p0 (s <| hstate := hs |> <| handleNs ::= f |> <| handleCount ::= g |> <| emitted ::= em |>).
Proof. destruct s. intros [? [] ? ? ? []]. by constructor; [|constructor|..|constructor]. Qed.

Lemma inv_clear_msg s n :
  inv p0 s -> loopc s = LClear n ->
  inv p0 (s <| heap ::= store_msg n None |> <| loopc := LLoad |>).
Proof.
  intros I Hl. pose proof (head_in_chain s I) as Hhd.
  destruct I as [Im Ictl Ih Is Ic Iw].
  destruct (ctl_running s Ictl) as (Hs1 & Hs2 & Hd1 & Hdr); [congruence..|].
  pose proof (ci_cur s Ictl n) as Hcur. rewrite Hl in *.
  rewrite (Hcur eq_refl) in *.
  destruct (mi_chain _ _ _ _ _ _ _ Im _ Hhd) as [Hal _].
  constructor; simpl.
  - by apply (mem_inv_clear_msg _ _ _ _ _ _ _ Im).
  - constructor; simpl; intros; try split; intros;
      try first [done | congruence | by eapply (ci_cas s Ictl) | simplify_eq; by auto].
    autorewrite with nodes. by rewrite decide_True.
  - rewrite Ih. unfold in_hand, queue. simpl. rewrite Hl, Hdr. simpl. f_equal.
    apply list_fmap_ext. intros i m Hm. autorewrite with nodes. rewrite decide_False; [done|].
    intros ->. destruct Im. destruct (chain s) as [|x rest]; [done|]. simplify_eq/=.
    apply list.NoDup_cons in mi_nodup0 as [Hx _]. apply Hx. by eapply list_elem_of_lookup_2.
  - done.
  - rewrite Ic. unfold queue. simpl. by rewrite !length_fmap.
  - constructor; simpl; [intros [|[|]]; done | done].
Qed.

Lemma loop_step_inv s s' : inv p0 s -> loop_step s s' -> inv p0 s'.
Proof.
  intros I Hstep. pose proof I as [_ Ictl _ _ _ [Wl Ws]].
  assert (forall l, loopc s = l -> l <> LNone -> l <> LExited ->
            status s <> statusInit /\ status s <> statusDead) as Hrun.
  { intros l <- ? ?. by destruct (ctl_running s Ictl) as (?&?&_). }
  pose (q st w l k := inv_loop_quiet s st w l k I).
  destruct Hstep as [Hi|Hl Hn|n Hl Hn|Hl|Hl Hst|Hl Hst|Hl|Hl Hx|Hl|Hl Hw|n Hl|h n Hl|h n Hl
    |n env hs res ns Hl Hm Hh Hns|n Hl Hm|n Hl];
    try (destruct (Hrun _ Hl) as [Hr1 Hr2]; [done..|]; clear Hrun).
  - pose proof (ci_init _ Ictl Hi) as Hl.
    apply (q statusRunning (wake s) LLoad (shutdownCalls s)); rewrite ?Hl; naive_solver.
  - apply (q (status s) (wake s) LTail (shutdownCalls s)); rewrite ?Hl; naive_solver.
  - apply (q (status s) (wake s) (LAdvance n) (shutdownCalls s)); rewrite ?Hl; naive_solver.
  - apply (q (status s) (wake s) LStatus (shutdownCalls s)); rewrite ?Hl; naive_solver.
  - apply (q (status s) (wake s) LShutdown (shutdownCalls s)); rewrite ?Hl; naive_solver.
  - apply (q (status s) (wake s) LPark (shutdownCalls s)); rewrite ?Hl; naive_solver.
  - apply (q (status s) (wake s) LStoreDead
             (if hasShutdownFn s then S (shutdownCalls s) else shutdownCalls s));
      rewrite ?Hl; naive_solver.
  - apply (q (status s) (wake s) LStoreDead (shutdownCalls s)); rewrite ?Hl; naive_solver.
  - apply (q statusDead (wake s) LExited (shutdownCalls s)); rewrite ?Hl; naive_solver.
  - apply (q (status s) false LLoad (shutdownCalls s)); rewrite ?Hl; naive_solver.
  - by apply inv_advance.
  - by apply inv_dec.
  - by apply inv_put.
  - by apply inv_observe, inv_handle.
  - destruct (in_hand_some s n I Hl). congruence.
  - by apply inv_clear_msg.
Qed.

(** *** Stop, Drain and the initial state *)

Lemma stop_step_inv s s' : inv p0 s -> stop_step s s' -> inv p0 s'.
Proof.
  intros [Im Ictl Ih Is Ic [Wl Ws]] Hstep.
  assert (forall t x, stoppers s !! t <> Some SWake ->
            (forall st, x = SCas st -> rejects st = false) -> inv p0 (set_stopper t x s)) as Hmove.
  { intros t x Ht Hx. constructor; simpl; [done| |done..|].
    { destruct Ictl; constructor; simpl; auto. intros t' st.
      rewrite lookup_insert. case_decide; [|eauto]. intros [= ->]. auto. }
    constructor; simpl; [done|]. intros Hp Hst.
    destruct (Ws Hp Hst) as [|[t' Ht']]; [by left|]. right. exists t'.
    rewrite lookup_insert_ne; [done|congruence]. }
  destruct Hstep as [t Ht|t Ht Hr|t Ht Hr|t st Ht Hst|t st Ht Hst|t Ht];
    try (apply Hmove; [congruence | intros st' [=]; by subst]).
  - (* the CAS took effect; the status was init or running *)
    pose proof (ci_cas _ Ictl _ _ Ht) as Hr. subst st. unfold rejects in Hr.
    apply bool_decide_eq_false in Hr.
    constructor; simpl; [done| |done..|].
    + destruct Ictl. constructor; simpl; auto; try done.
      * split; [done|]. intros Hx. apply ci_dead0 in Hx. tauto.
      * intros t' st'. rewrite lookup_insert. case_decide; [done|eauto].
    + constructor; simpl; [done|]. intros. right. exists t. by rewrite lookup_insert_eq.
  - constructor; simpl; [done| |done..|by constructor; auto].
    destruct Ictl; constructor; simpl; auto. intros t' st.
    rewrite lookup_insert. case_decide; [done|eauto].
Qed.
(** One round of [Drain] on memory: advance, clear the new dummy, recycle. *)
Lemma mem_inv_round h p hd tl c ps n :
  mem_inv h p hd tl c ps None -> next_at h hd = Some n ->
  mem_inv (store_next hd None (store_msg hd None (store_msg n None h))) ({[hd]} ∪ p) n tl
    (list.tail c) ps None.
Proof.
  intros Im Hn. eapply mem_inv_put; [|done].
  by apply mem_inv_clear_msg, mem_inv_advance with (ret := None).
Qed.

Lemma round_queue h p hd tl c ps n :
  mem_inv h p hd tl c ps None -> next_at h hd = Some n ->
  exists rest, c = hd :: n :: rest /\ alloc h n /\ alloc h hd /\ hd <> n /\
    msg_at (store_next hd None (store_msg hd None (store_msg n None h))) <$> rest =
    msg_at h <$> rest.
Proof.
  intros Im Hn. destruct (chain_uncons _ _ _ _ _ _ _ Im n Hn) as [rest ->]. destruct Im.
  apply list.NoDup_cons in mi_nodup0 as [Hhd [Hnr _]%list.NoDup_cons].
  destruct (mi_chain0 n) as [Haln _]; [set_solver|].
  destruct (mi_chain0 hd) as [Hal _]; [set_solver|].
  exists rest. repeat split; [done|done|set_solver|].
  apply list_fmap_ext. intros i m Hm%list_elem_of_lookup_2. autorewrite with nodes.
  rewrite !decide_False; [done|set_solver..].
Qed.

(** The fields the invariant reads. *)
Lemma inv_proper s s' :
  heap s' = heap s -> pool s' = pool s -> a_head s' = a_head s -> a_tail s' = a_tail s ->
  status s' = status s -> wake s' = wake s -> pending s' = pending s -> loopc s' = loopc s ->
  producers s' = producers s -> stoppers s' = stoppers s -> drainc s' = drainc s ->
  drained s' = drained s -> chain s' = chain s -> accepted s' = accepted s ->
  handled s' = handled s -> inv p0 s -> inv p0 s'.
Proof.
  intros E1 E2 E3 E4 E5 E6 E7 E8 E9 E10 E11 E12 E13 E14 E15 [? [] ? ? ? []].
  constructor; [|constructor|..|constructor]; unfold in_hand, queue in *;
    by rewrite ?E1, ?E2, ?E3, ?E4, ?E5, ?E6, ?E7, ?E8, ?E9, ?E10, ?E11, ?E12, ?E13, ?E14, ?E15.
Qed.

Lemma inv_round s n :
  inv p0 s -> drainc s = DLoop -> next_at (heap s) (a_head s) = Some n ->
  inv p0 (PutEnvelope (a_head s)
           (s <| drained ::= fun l => l ++ [msg_at (heap s) n] |>
              <| heap ::= store_msg n None |> <| a_head := n |> <| pending ::= decr |>
              <| chain ::= list.tail |>)).
Proof.
  intros [Im Ictl Ih Is Ic Iw] Hd Hn.
  assert (loopc s = LExited) as Hl by (apply (ci_drain s Ictl); congruence).
  destruct s as [h p hd tl st w pe l ps ss d cx hf sc hc hn hs em dr c ac ha].
  simpl in *; subst; simpl in *.
  destruct (round_queue _ _ _ _ _ _ _ Im Hn) as (rest & -> & Hal & Halh & Hne & Hrest).
  unfold queue, in_hand in *; simpl in *. destruct Ictl; simpl in *.
  apply (inv_proper (mkState
    (store_next hd None (store_msg hd None (store_msg n None h))) ({[hd]} ∪ p) n tl st w (decr pe)
    LExited ps ss DLoop cx hf sc hc hn hs em (dr ++ [msg_at h n]) (n :: rest) ac ha));
    try reflexivity.
  constructor; simpl; auto.
  - by apply (mem_inv_round _ _ _ _ _ _ _ Im).
  - constructor; simpl; try done. intros _. autorewrite with nodes.
    by repeat case_decide.
  - rewrite Ih. unfold queue; simpl. rewrite Hrest. by rewrite <- !app_assoc.
  - rewrite Ic. unfold decr, queue; simpl. rewrite u64_add_l, u64_add_ones, !length_fmap.
    f_equal. lia.
  - constructor; simpl; [intros [|[|]]|]; done.
Qed.

Lemma drain_step_inv s s' : inv p0 s -> drain_step s s' -> inv p0 s'.
Proof.
  intros I [Hd Hdead|Hd Hn|n Hd Hn].
  3: by apply inv_round.
  all: destruct I as [Im [] Ih Is Ic []]; constructor; simpl; [done|..|done|done|done|by constructor];
    constructor; simpl; auto; try done.
  - intros _. by apply ci_dead0, (bool_decide_eq_true _).
  - intros _. apply ci_drain0. congruence.
Qed.

Lemma step_inv s s' : inv p0 s -> step s s' -> inv p0 s'.
Proof.
  intros I [Hp|Hl|Ht|Hd| ->].
  - by eapply producer_step_inv.
  - by eapply loop_step_inv.
  - by eapply stop_step_inv.
  - by eapply drain_step_inv.
  - destruct I as [? [] ? ? ? []]. by constructor; [|constructor|..|constructor].
Qed.

Lemma New_inv hs pool0 dummy :
  dummy ∉ pool0 -> is_u64 p0 -> inv p0 (New (HS := HS) hs p0 pool0 dummy).
Proof.
  intros Hd Hp. constructor; simpl.
  - constructor; simpl; try set_solver.
    + apply NoDup_singleton.
    + intros n ->%list_elem_of_singleton. split; [|done]. apply alloc_insert. by left.
    + intros n Hn. rewrite alloc_insert, msg_at_insert, next_at_insert.
      rewrite !decide_False by congruence. unfold alloc, msg_at, next_at.
      rewrite !lookup_gset_to_gmap. rewrite option_guard_True by done. eauto.
    + rewrite next_at_insert. by rewrite decide_True.
  - constructor; simpl; try done; try naive_solver.
    intros _. rewrite msg_at_insert. by rewrite decide_True.
  - done.
  - done.
  - unfold counted. rewrite map_filter_empty, map_size_empty.
    rewrite !Z.add_0_r. symmetry. by apply u64_id.
  - constructor; simpl; naive_solver.
Qed.

Lemma steps_inv s s' : inv p0 s -> rtc step s s' -> inv p0 s'.
Proof. intros I Hs. induction Hs; eauto using step_inv. Qed.
End Preservation.
