(* ===== verification/ActorSpec.v ===== *)
(** * The actor runtime: what it promises

    The theorems about pkg/actor/actor.go, from the invariant of [MailboxInv]: the
    mailbox refines an atomic FIFO queue; the handler runs as if it were called
    sequentially on the accepted envelopes; wake-ups are not lost; the backlog
    counter is exact; [Stop] is graceful except in one window, which is exhibited. *)

From S2P Require Import Prelude Wire Mailbox MailboxInv.

(** ** The specification: an atomic FIFO mailbox *)

Record fifo := mkFifo {
  fq : list (option RemoteEnvelope);          (* accepted, not yet handled *)
  fdelivered : list (option RemoteEnvelope);  (* given to Handle *)
  fdrained : list (option RemoteEnvelope);    (* returned by Drain *)
}.

Inductive fifo_step (a : fifo) : fifo -> Prop :=
  | fifo_enqueue env :
      fifo_step a (mkFifo (fq a ++ [Some env]) (fdelivered a) (fdrained a))
  | fifo_deliver env q :
      fq a = Some env :: q -> fifo_step a (mkFifo q (fdelivered a ++ [Some env]) (fdrained a))
  | fifo_drain env q :
      fq a = Some env :: q -> fifo_step a (mkFifo q (fdelivered a) (fdrained a ++ [Some env])).

Definition abstract {HS} (s : state HS) : fifo :=
  mkFifo (in_hand s ++ queue s) (handled s) (drained s).

(** [Handle] on one envelope after the other, with the results that are emitted. *)
Fixpoint run_handler {HS} `{Handler HS} (hs : HS) (envs : list (option RemoteEnvelope)) :
    HS * list RemoteResult :=
  match envs with
  | [] => (hs, [])
  | None :: rest => run_handler hs rest
  | Some env :: rest =>
      let '(hs1, res) := handler_Handle hs env in
      let '(hs2, out) := run_handler hs1 rest in
      (hs2, match res with Some r => completeResult r env :: out | None => out end)
  end.

Lemma run_handler_snoc {HS} `{Handler HS} (hs : HS) envs env :
  run_handler hs (envs ++ [Some env]) =
  let '(hs1, out) := run_handler hs envs in
  let '(hs2, res) := handler_Handle hs1 env in
  (hs2, out ++ match res with Some r => [completeResult r env] | None => [] end).
Proof.
  revert hs. induction envs as [|[e|] envs IH]; intros hs; simpl.
  - by destruct (handler_Handle hs env) as [hs1 [r|]].
  - destruct (handler_Handle hs e) as [hs1 res]. rewrite IH.
    destruct (run_handler hs1 envs) as [hs2 out].
    destruct (handler_Handle hs2 env) as [hs3 res']. by destruct res.
  - apply IH.
Qed.

(** ** Quiescence *)

(** A goroutine that is not between the status test and the end of [Send]. *)
Definition calm (q : producer) : bool :=
  match q with PSend _ | PSendEnv _ | PReturned _ => true | _ => false end.

Definition all_calm {HS} (s : state HS) : Prop :=
  forall t q, producers s !! t = Some q -> calm q = true.

Definition status_rank (st : actor_status) : nat :=
  match st with statusInit => 0 | statusRunning => 1 | statusStopping => 2 | statusDead => 3 end.

(** The loop is past a [dequeue] that returned nil, or has exited. *)
Definition past_dequeue (l : loop_pc) : bool :=
  match l with LTail | LStatus | LShutdown | LStoreDead | LExited => true | _ => false end.

Section Theorems.
Context {HS : Type} `{Handler HS}.
Implicit Types s : state HS.

Lemma reachable_inv s : reachable s -> exists p0, inv p0 s.
Proof.
  intros (hs & p0 & pool0 & dummy & Hd & Hp & Hs). exists p0.
  refine (steps_inv p0 _ _ _ Hs). by apply New_inv.
Qed.

Lemma steps_reachable s s' : reachable s -> rtc step s s' -> reachable s'.
Proof.
  intros (hs & p0 & pool0 & dummy & Hd & Hp & Hs) Hs'. exists hs, p0, pool0, dummy.
  refine (conj Hd (conj Hp _)). exact (transitivity Hs Hs').
Qed.

Lemma hist_fifo p0 s : inv p0 s -> accepted s = handled s ++ drained s ++ in_hand s ++ queue s.
Proof.
  intros [_ Ictl -> _ _ _]. destruct (drainc s) eqn:Ed.
  - rewrite (ci_drained s Ictl Ed). by rewrite !(left_id_L [] (++)).
  - unfold in_hand. by rewrite (ci_drain s Ictl) by congruence.
  - unfold in_hand. by rewrite (ci_drain s Ictl) by congruence.
Qed.

(** What a step does to the three sequences. *)
Inductive hist_step (s s' : state HS) : Prop :=
  | hist_same :
      accepted s' = accepted s -> handled s' = handled s -> drained s' = drained s -> hist_step s s'
  | hist_accept m :
      accepted s' = accepted s ++ [m] -> handled s' = handled s -> drained s' = drained s ->
      hist_step s s'
  | hist_handle env :
      accepted s' = accepted s -> handled s' = handled s ++ [Some env] -> drained s = [] ->
      drained s' = [] -> hist_step s s'
  | hist_drain m :
      accepted s' = accepted s -> handled s' = handled s -> drained s' = drained s ++ [m] ->
      hist_step s s'.

Lemma step_hist p0 s s' : inv p0 s -> step s s' -> hist_step s s'.
Proof.
  intros I [Hst|Hst|Hst|Hst| ->]; [| | | |by apply hist_same].
  - destruct Hst; try by apply hist_same.
    1,2: match goal with Hg : GetEnvelope _ _ _ |- _ => destruct Hg end; by apply hist_same.
    by eapply hist_accept.
  - destruct Hst as [| | | | | | | | | | | | |n env hs res ns Hl| |]; try by apply hist_same.
    destruct (ctl_running s (inv_ctl p0 s I)) as (_ & _ & _ & Hd); [congruence..|].
    by eapply hist_handle.
  - destruct Hst; by apply hist_same.
  - destruct Hst; try by apply hist_same. by eapply hist_drain.
Qed.

Lemma step_refines p0 s s' :
  inv p0 s -> inv p0 s' -> step s s' ->
  abstract s' = abstract s \/ fifo_step (abstract s) (abstract s').
Proof.
  intros I I' Hst. pose proof (hist_fifo _ _ I) as E. pose proof (hist_fifo _ _ I') as E'.
  pose proof (inv_some _ _ I') as Hsome. unfold abstract.
  destruct (step_hist _ _ _ I Hst) as [Ha Hh Hd|m Ha Hh Hd|env Ha Hh Hd Hd'|m Ha Hh Hd].
  - left. rewrite Ha, Hh, Hd, E in E'. apply app_inv_head, app_inv_head in E'. congruence.
  - right. rewrite Ha, Forall_app, Forall_singleton in Hsome. destruct Hsome as [_ [env ->]].
    rewrite Ha, Hh, Hd, E, <- !app_assoc in E'. apply app_inv_head, app_inv_head in E'.
    rewrite app_assoc in E'. rewrite Hh, Hd, <- E', <- (app_assoc (in_hand s)).
    rewrite app_assoc. apply (fifo_enqueue (mkFifo _ _ _)).
  - right. rewrite Ha, Hh, Hd', E, Hd, <- !app_assoc in E'. apply app_inv_head in E'.
    rewrite Hh, Hd, Hd'. simpl in E'. by apply (fifo_deliver (mkFifo _ _ _)).
  - right. rewrite Ha, E in Hsome. rewrite Ha, Hh, Hd, E, <- !app_assoc in E'.
    apply app_inv_head, app_inv_head in E'. simpl in E'. rewrite E' in Hsome.
    assert (is_Some m) as [env ->].
    { apply Forall_app in Hsome as [_ [_ Hm]%Forall_app]. by inversion Hm. }
    rewrite Hh, Hd. by apply (fifo_drain (mkFifo _ _ _)).
Qed.

(** Without a goroutine about to link, an unlinked head is the whole chain. *)
Lemma queue_empty p0 s :
  inv p0 s -> next_at (heap s) (a_head s) = None ->
  (forall t n prev, producers s !! t <> Some (PLink n prev)) -> queue s = [].
Proof.
  intros [Im _ _ _ _ _] Hn Hl. unfold queue. pose proof (mi_head _ _ _ _ _ _ _ Im) as Hhd.
  pose proof (mi_link _ _ _ _ _ _ _ Im) as Hlink.
  destruct (chain s) as [|x [|y rest]]; [done..|]. simplify_eq/=.
  destruct (Hlink 0%nat (a_head s) y) as [|(_ & t & Ht)]; [done..|congruence|].
  by destruct (Hl _ _ _ Ht).
Qed.

(** A parked loop without a token, given or on its way, has nothing to do. *)
Lemma no_lost_wakeup p0 s :
  inv p0 s -> loopc s = LPark -> wake s = false ->
  (forall t n prev, producers s !! t <> Some (PLink n prev)) ->
  (forall t, producers s !! t <> Some PWake) ->
  (forall t, stoppers s !! t <> Some SWake) ->
  queue s = [] /\ status s = statusRunning.
Proof.
  intros I Hl Hw Hpl Hpw Hsw. pose proof I as [_ Ictl _ _ _ [Wl Ws]].
  destruct (ctl_running s Ictl) as (Hi & Hd & _); [congruence..|]. split.
  - apply (queue_empty p0 s I); [|done].
    destruct (next_at (heap s) (a_head s)) eqn:E; [|done].
    destruct Wl as [|[t Ht]]; [auto|congruence..|by destruct (Hpw t)].
  - destruct (status s) eqn:E; try done.
    destruct (Ws Hl eq_refl) as [|[t Ht]]; [congruence|by destruct (Hsw t)].
Qed.

Lemma handler_state hs0 p0 pool0 dummy s :
  rtc step (New hs0 p0 pool0 dummy) s ->
  (hstate s, emitted s) = run_handler hs0 (handled s) /\
  handleCount s = u64 (Z.of_nat (length (handled s))).
Proof.
  intros Hs. pattern s. revert s Hs. apply rtc_ind_r; [done|].
  intros s s' _ Hst [IH1 IH2].
  destruct Hst as [Hst|Hst|Hst|Hst| ->]; [| | | |done].
  - destruct Hst; try done;
      match goal with Hg : GetEnvelope _ _ _ |- _ => by destruct Hg end.
  - destruct Hst as [| | | | | | | | | | | | |n env hs res ns Hl Hm Hh Hns| |]; try done.
    simpl. rewrite run_handler_snoc, <- IH1. rewrite Hh, IH2, length_app. simpl. split.
    + destruct res; [done|]. by rewrite app_nil_r.
    + unfold incr. rewrite u64_add_l. f_equal. lia.
  - by destruct Hst.
  - by destruct Hst.
Qed.

Lemma status_rank_step p0 s s' :
  inv p0 s -> step s s' -> (status_rank (status s) <= status_rank (status s'))%nat.
Proof.
  intros I [Hst|Hst|Hst|Hst| ->]; [| | | |done].
  - destruct Hst; try done; match goal with Hg : GetEnvelope _ _ _ |- _ => by destruct Hg end.
  - destruct Hst as [Hi| | | | | | | |Hl| | | | | | |]; try done.
    + rewrite Hi. simpl. lia.
    + simpl. destruct (status s); simpl; lia.
  - destruct Hst as [| | |t st Ht Hst| |]; try done. simpl.
    pose proof (ci_cas s (inv_ctl _ _ I) _ _ Ht) as Hr. subst st.
    unfold rejects in Hr. apply bool_decide_eq_false in Hr. destruct (status s); simpl; lia || tauto.
  - by destruct Hst.
Qed.

Lemma status_rank_steps p0 s s' :
  inv p0 s -> rtc step s s' -> (status_rank (status s) <= status_rank (status s'))%nat.
Proof.
  intros I Hs. induction Hs as [|s1 s2 s3 Hst Hs IH]; [done|].
  pose proof (status_rank_step _ _ _ I Hst). specialize (IH (step_inv _ _ _ I Hst)). lia.
Qed.

(** The situation after [Stop] in which nothing can be lost. *)
Record stopping_calm (acc : list (option RemoteEnvelope)) (s : state HS) : Prop := {
  sc_status : rejects (status s) = true;
  sc_calm : all_calm s;
  sc_accepted : accepted s = acc;
  sc_drained : drained s = [];
  sc_empty : past_dequeue (loopc s) = true -> next_at (heap s) (a_head s) = None;
}.

Lemma calm_insert s t q :
  all_calm s -> calm q = true -> all_calm (set_producer t q s).
Proof. intros Hc Hq t' q'. simpl. rewrite lookup_insert. case_decide; naive_solver. Qed.

Lemma sc_producer p0 acc s s' :
  inv p0 s -> stopping_calm acc s -> producer_step s s' -> stopping_calm acc s'.
Proof.
  intros I [Hs Hc Ha Hd He] Hst.
  assert (forall t q, producers s !! t = Some q -> calm q = false -> stopping_calm acc s') as Hno.
  { intros t q Ht Hq. by rewrite (Hc _ _ Ht) in Hq. }
  destruct Hst as [t env Ht|t env Ht _|t env Ht Hr|t env n s' Ht Hg|t env n s' Ht Hg|t Ht|t n Ht _
    |t n Ht Hr|t n Ht|t n Ht|t n Ht|t n prev Ht|t Ht];
    try (by eapply Hno); try congruence;
    try (constructor; simpl; auto; by apply calm_insert).
  destruct (get_envelope_mem p0 s n s' I Hg) as (_ & _ & Hsame & h' & p' & ->).
  constructor; simpl; auto; [by apply calm_insert|]. intros Hp.
  autorewrite with nodes. destruct (Hsame _ (head_in_chain _ _ I)) as [_ Hn].
  simpl in Hn. rewrite Hn. auto.
Qed.

Lemma sc_loop p0 acc s s' :
  inv p0 s -> stopping_calm acc s -> loop_step s s' -> ctxDone s' = false -> stopping_calm acc s'.
Proof.
  intros I [Hs Hc Ha Hd He] Hst Hx.
  destruct Hst as [Hi|Hl Hn|n Hl Hn|Hl|Hl Hst|Hl Hst|Hl|Hl Hx'|Hl|Hl Hw|n Hl|h n Hl|h n Hl
    |n env hs res ns Hl Hm Hh Hns|n Hl Hm|n Hl]; try (constructor; simpl in *; done).
  - by rewrite Hi in Hs.
  - constructor; simpl; auto. rewrite Hl in He. auto.
  - constructor; simpl; auto. rewrite Hl in He. auto.
  - constructor; simpl; auto. rewrite Hl in He. auto.
  - simpl in Hx. congruence.
  - constructor; simpl; auto. rewrite Hl in He. auto.
Qed.

Lemma sc_step p0 acc s s' :
  inv p0 s -> stopping_calm acc s -> step s s' -> ctxDone s' = false -> stopping_calm acc s'.
Proof.
  intros I SC [Hst|Hst|Hst|Hst| ->] Hx.
  - by eapply sc_producer.
  - by eapply sc_loop.
  - destruct SC as [Hs Hc Ha Hd He], Hst as [| | |t st Ht Hst| |]; try by constructor.
  - destruct SC as [Hs Hc Ha Hd He], Hst as [Hdr Hdead|Hdr Hn|n Hdr Hn]; try by constructor.
    rewrite He in Hn; [done|].
    by rewrite (ci_drain s (inv_ctl _ _ I)) by congruence.
  - done.
Qed.

Lemma ctxDone_mono s s' : step s s' -> ctxDone s = true -> ctxDone s' = true.
Proof.
  intros [Hst|Hst|Hst|Hst| ->]; destruct Hst || idtac; try done;
    match goal with Hg : GetEnvelope _ _ _ |- _ => by destruct Hg end.
Qed.

Lemma sc_steps p0 acc s s' :
  inv p0 s -> stopping_calm acc s -> rtc step s s' -> ctxDone s' = false -> stopping_calm acc s'.
Proof.
  intros I SC Hs Hx. induction Hs as [|s1 s2 s3 Hst Hs IH]; [done|].
  assert (ctxDone s2 = false) as Hx2.
  { destruct (ctxDone s2) eqn:E; [|done]. assert (ctxDone s3 = true); [|congruence].
    clear -Hs E. induction Hs; eauto using ctxDone_mono. }
  apply IH; [by eapply step_inv|by eapply sc_step|done].
Qed.
End Theorems.

(** ** Running the model

    [by_producer], [by_loop] and [by_stopper] perform one step of a trace and evaluate
    the state it reaches. *)

Ltac evaluate_state :=
  lazymatch goal with
  | |- rtc _ ?s _ => let s' := eval vm_compute in s in change s with s'
  end.
Tactic Notation "by_producer" uconstr(c) :=
  eapply rtc_l; [apply step_producer; eapply c; vm_compute; reflexivity |]; evaluate_state.
Tactic Notation "by_loop" uconstr(c) :=
  eapply rtc_l; [apply step_loop; eapply c; vm_compute; reflexivity |]; evaluate_state.
Tactic Notation "by_stopper" uconstr(c) :=
  eapply rtc_l; [apply step_stop; eapply c; vm_compute; reflexivity |]; evaluate_state.

(** [Send env] by goroutine [t], the node [n] being new, up to its swap, and from
    there to its return. *)
Ltac run_send_to_swap t env n :=
  by_producer (send_call _ t env); by_producer (send_accept _ t env);
  eapply rtc_l;
    [apply step_producer; eapply (send_alloc _ t env n); [vm_compute; reflexivity|];
     apply Get_new; vm_compute; reflexivity|]; evaluate_state;
  by_producer (send_clear _ t n); by_producer (send_count _ t n).
Ltac run_send t env n :=
  run_send_to_swap t env n;
  by_producer (send_swap _ t n); by_producer (send_link _ t n); by_producer (send_wake _ t).

Ltac run_stop t :=
  by_stopper (stop_call _ t); by_stopper (stop_load _ t); by_stopper (stop_cas_ok _ t);
  by_stopper (stop_wake _ t).

Lemma New_reachable {HS} `{Handler HS} (hs : HS) s :
  rtc step (New hs 0 ∅ 0%nat) s -> reachable s.
Proof. intros Hs. exists hs, 0, ∅, 0%nat. repeat split; [set_solver|done..]. Qed.

(** ** Theorems *)

(** C1: the lock-free mailbox refines an atomic FIFO queue.  Whatever goroutines
    send, stop, drain and however their accesses interleave with the loop's, every
    step is invisible or is one atomic enqueue, delivery to [Handle] or draining
    of the oldest envelope; a new actor is the empty queue. *)
Theorem mailbox_refines_fifo {HS} `{Handler HS} (s s' : state HS) :
  reachable s -> step s s' ->
  abstract s' = abstract s \/ fifo_step (abstract s) (abstract s').
Proof.
  intros [p0 I]%reachable_inv Hst. eapply step_refines; [done| |done]. by eapply step_inv.
Qed.

(** Exactly once, in order.  The envelopes published by [tail.Swap] are, in
    that order, those given to [Handle], then the one the loop holds, those
    [Drain] returned and those still queued: none is lost, duplicated or
    reordered; none is nil and the loop never dereferences a nil envelope. *)
Theorem mailbox_exactly_once {HS} `{Handler HS} (s : state HS) :
  reachable s ->
  accepted s = handled s ++ in_hand s ++ drained s ++ queue s /\
  Forall is_Some (accepted s) /\ loopc s <> LPanicked.
Proof. intros [p0 [_ Ic Ih Is _ _]]%reachable_inv. repeat split; [done..|apply Ic]. Qed.

(** Sequential semantics.  The state of the handler, the results given to the
    sink and the call counter are those of calling [Handle] on the handled
    envelopes one after the other, whatever the producers do meanwhile. *)
Theorem actor_sequential {HS} `{Handler HS} (hs0 : HS) p0 pool0 dummy s :
  rtc step (New hs0 p0 pool0 dummy) s ->
  (hstate s, emitted s) = run_handler hs0 (handled s) /\
  handleCount s = u64 (Z.of_nat (length (handled s))).
Proof. apply handler_state. Qed.

(** C18: no lost wake-up.  When the loop is parked, no token is in the wake channel
    and no goroutine is between [tail.Swap] and the end of [Send] (or between the
    CAS of [Stop] and its token), the mailbox is empty and the actor is not
    stopping: an actor never sleeps on work. *)
Theorem actor_no_lost_wakeup {HS} `{Handler HS} (s : state HS) :
  reachable s -> loopc s = LPark -> wake s = false ->
  (forall t n prev, producers s !! t <> Some (PLink n prev)) ->
  (forall t, producers s !! t <> Some PWake) ->
  (forall t, stoppers s !! t <> Some SWake) ->
  queue s = [] /\ status s = statusRunning.
Proof. intros [p0 I]%reachable_inv. by apply (no_lost_wakeup p0). Qed.

(** The backlog counter.  When no producer is between its increment and its
    swap and the loop is not between its dequeue and its decrement,
    [ProcessMailboxPending] is the value it had when the actor was created plus
    the length of the mailbox (modulo 2^64): every increment is paid back. *)
Theorem mailbox_pending_exact {HS} `{Handler HS} (hs0 : HS) p0 pool0 dummy s :
  dummy ∉ pool0 -> is_u64 p0 -> rtc step (New hs0 p0 pool0 dummy) s ->
  (forall t n, producers s !! t <> Some (PSwap n)) ->
  (forall h n, loopc s <> LDec h n) ->
  pending s = u64 (p0 + Z.of_nat (length (queue s))).
Proof.
  intros Hd Hp Hs Hns Hnd. pose proof (steps_inv p0 _ _ (New_inv p0 hs0 pool0 dummy Hd Hp) Hs) as I.
  rewrite (inv_count _ _ I). unfold counted.
  rewrite map_empty_filter_2 by (intros t q Hq [n Hn]; simpl in Hn; subst; by destruct (Hns t n)).
  rewrite map_size_empty. f_equal. destruct (loopc s) eqn:E; simpl; try lia. by destruct (Hnd h n).
Qed.

(** C32: the pool is safe.  A pooled node is clean and is neither in the mailbox nor
    held by a producer or the loop, two producers never hold the same node, and a
    loop that is not handling anything keeps no envelope alive in the dummy node. *)
Theorem envelope_pool_safe {HS} `{Handler HS} (s : state HS) :
  reachable s ->
  (forall n, n ∈ pool s ->
     msg_at (heap s) n = None /\ next_at (heap s) n = None /\ (n ∉ chain s) /\
     retired_node (loopc s) <> Some n /\
     forall t q, producers s !! t = Some q -> owned_node q <> Some n) /\
  (forall t1 t2 q1 q2 n, producers s !! t1 = Some q1 -> producers s !! t2 = Some q2 ->
     owned_node q1 = Some n -> owned_node q2 = Some n -> t1 = t2) /\
  (current_node (loopc s) = None -> msg_at (heap s) (a_head s) = None).
Proof.
  intros [p0 [Im Ic _ _ _ _]]%reachable_inv. repeat split.
  - by apply Im.
  - by apply Im.
  - intros Hc. by destruct (mi_chain _ _ _ _ _ _ _ Im _ Hc).
  - intros Hr. by destruct (mi_ret _ _ _ _ _ _ _ Im _ Hr) as (_ & _ & ? & _).
  - intros t q Hq Ho. by destruct (mi_owned _ _ _ _ _ _ _ Im _ _ _ Hq Ho) as (_ & _ & ? & _).
  - apply Im.
  - apply Ic.
Qed.

(** Life cycle.  The status only moves init, running, stopping, dead, and never
    back; an actor that [IsDead] has no goroutine any more, stays dead and hands
    nothing more to [Handle], so that [Drain] has the mailbox for itself. *)
Theorem actor_lifecycle {HS} `{Handler HS} (s s' : state HS) :
  reachable s -> rtc step s s' ->
  (status_rank (status s) <= status_rank (status s'))%nat /\
  (IsDead s = true -> IsDead s' = true /\ loopc s' = LExited /\ handled s' = handled s).
Proof.
  intros Hr Hs. destruct (reachable_inv s Hr) as [p0 I]. split; [by eapply status_rank_steps|].
  unfold IsDead. rewrite !bool_decide_eq_true. intros Hd.
  assert (status s' = statusDead /\ handled s' = handled s) as [Hd' Hh].
  { clear Hr. induction Hs as [|s1 s2 s3 Hst Hs IH]; [done|].
    pose proof (status_rank_step _ _ _ I Hst) as Hle. rewrite Hd in Hle.
    assert (status s2 = statusDead) as Hd2 by (destruct (status s2); simpl in Hle; lia || done).
    destruct (IH (step_inv _ _ _ I Hst) Hd2) as [-> ->]. split; [done|].
    destruct (step_hist _ _ _ I Hst) as [|?|env Ha Hh _ _|?]; try done.
    exfalso. apply (ci_dead s1 (inv_ctl _ _ I)) in Hd. clear -Hh Hst Hd.
    assert (forall l (e : option RemoteEnvelope), l = l ++ [e] -> False) as Hno.
    { intros l e E. apply (f_equal length) in E. rewrite length_app in E. simpl in E. lia. }
    destruct Hst as [Hst|Hst|Hst|Hst| ->]; [destruct Hst..|];
      try (by eapply Hno); try congruence;
      match goal with Hg : GetEnvelope _ _ _ |- _ => destruct Hg; by eapply Hno end. }
  split; [done|]. split; [|done].
  apply (ci_dead s' (inv_ctl p0 _ (steps_inv _ _ _ I Hs))), Hd'.
Qed.

(** C19: graceful stop.  Once the actor is stopping and no [Send] that passed the
    status test is still under way, an actor whose loop is not between a [dequeue]
    that returned nil and the status test (it is handling, or parked, or saw an
    empty mailbox that is still empty) handles everything it accepted before it is
    dead, and accepts nothing more, as long as its context is not cancelled. *)
Theorem actor_stop_drains {HS} `{Handler HS} (s s' : state HS) :
  reachable s -> status s = statusStopping -> all_calm s ->
  (past_dequeue (loopc s) = true -> next_at (heap s) (a_head s) = None) ->
  rtc step s s' -> ctxDone s' = false -> IsDead s' = true ->
  handled s' = accepted s /\ accepted s' = accepted s /\ queue s' = [].
Proof.
  intros [p0 I]%reachable_inv Hst Hc He Hs Hx Hd. unfold IsDead in Hd. apply bool_decide_eq_true in Hd.
  assert (drained s = []) as Hdr.
  { pose proof (inv_ctl _ _ I) as Ictl. apply (ci_drained s Ictl).
    destruct (drainc s) eqn:E; [done|..];
      assert (status s = statusDead) by (apply (ci_dead s Ictl), (ci_drain s Ictl); congruence);
      congruence. }
  assert (stopping_calm (accepted s) s) as SC by (constructor; auto; by rewrite Hst).
  destruct (sc_steps p0 _ _ _ I SC Hs Hx) as [_ Hc' Ha' Hdr' He'].
  pose proof (steps_inv _ _ _ I Hs) as I'. pose proof (inv_ctl _ _ I') as Ictl'.
  apply (ci_dead s' Ictl') in Hd.
  assert (queue s' = []) as Hq.
  { apply (queue_empty p0 s' I'); [by apply He'; rewrite Hd|].
    intros t n prev Ht. by specialize (Hc' _ _ Ht). }
  repeat split; [|done|done]. rewrite <- Ha', (inv_hist _ _ I'), Hdr', Hq. unfold in_hand.
  by rewrite Hd, !app_nil_r.
Qed.

(** C35: the window.  A [Send] that returned true before [Stop] was called can still
    be lost: when the loop's [dequeue] returned nil before the send and its status
    test comes after the stop, the loop exits with the envelope in the mailbox.
    The envelope is never handled, no result is emitted for it and the process
    keeps counting it as pending, unless somebody calls [Drain]. *)
Theorem actor_stop_race {HS} `{Handler HS} (hs : HS) (env : RemoteEnvelope) :
  exists s1 s2 : state HS,
    reachable s1 /\ producers s1 = {[0%nat := PReturned true]} /\ stoppers s1 = ∅ /\
    accepted s1 = [Some env] /\
    rtc step s1 s2 /\ ctxDone s2 = false /\ stoppers s2 = {[0%nat := SReturned]} /\
    IsDead s2 = true /\ handled s2 = [] /\ emitted s2 = [] /\ queue s2 = [Some env] /\
    pending s2 = 1.
Proof.
  eexists _, _. split.
  - apply (New_reachable hs).
    by_loop (start_ok _). by_loop (loop_load_nil _). run_send 0%nat env 1%nat. apply rtc_refl.
  - do 3 (split; [reflexivity|]). split.
    + run_stop 0%nat. by_loop (loop_tail _). by_loop (loop_stopping _). by_loop (loop_shutdown _).
      by_loop (loop_dead _). apply rtc_refl.
    + by repeat (split; [vm_compute; reflexivity|]).
Qed.

(** ** Witnesses *)

Section Witnesses.
(** A handler that sums the request ids it sees and answers each envelope. *)
Local Instance sum_handler : Handler Z := fun hs env =>
  (hs + EnvRequestId env, Some (mkResult 0 0 "" 0 0 true "" "" [])).

Definition demo_env : RemoteEnvelope := mkEnvelope 1 7 "tx-1" 42 1 [] 0.

(** One message sent, handled, and the loop parked again. *)
Lemma demo_parked :
  exists s : state Z, rtc step (New 0 0 ∅ 0%nat) s /\
    loopc s = LPark /\ wake s = false /\ status s = statusRunning /\ ctxDone s = false /\
    producers s = {[0%nat := PReturned true]} /\ stoppers s = ∅ /\
    handled s = [Some demo_env] /\ accepted s = [Some demo_env].
Proof.
  eexists. split.
  - by_loop (start_ok _). run_send 0%nat demo_env 1%nat.
    by_loop (loop_load_some _). by_loop (loop_advance _). by_loop (loop_dec _). by_loop (loop_put _).
    eapply rtc_l.
    { apply step_loop. eapply (loop_handle _ _ _ _ _ 5); try (vm_compute; reflexivity).
      split; vm_compute; congruence. }
    evaluate_state. by_loop (loop_clear _).
    by_loop (loop_load_nil _). by_loop (loop_tail _).
    eapply rtc_l; [apply step_loop, loop_park; vm_compute; done|]. evaluate_state.
    by_loop (loop_woken _). by_loop (loop_load_nil _). by_loop (loop_tail _).
    eapply rtc_l; [apply step_loop, loop_park; vm_compute; done|]. evaluate_state.
    apply rtc_refl.
  - by repeat (split; [vm_compute; reflexivity|]).
Qed.

Lemma mailbox_refines_fifo_witness :
  exists s s' : state Z, reachable s /\ step s s' /\ abstract s = mkFifo [] [] [] /\
    abstract s' = mkFifo [Some demo_env] [] [] /\
    (abstract s' = abstract s \/ fifo_step (abstract s) (abstract s')).
Proof.
  assert (exists s, reachable s /\ producers s !! 0%nat = Some (PSwap 1) /\
            abstract s = mkFifo [] [] [] /\ msg_at (heap s) 1 = Some demo_env /\ chain s = [0%nat]
            /\ in_hand s = [] /\ handled s = [] /\ drained s = [])
    as (s & Hr & Hp & Ha & Hm & Hc & Hi & Hh & Hd).
  { eexists. split; [apply (New_reachable 0); run_send_to_swap 0%nat demo_env 1%nat; apply rtc_refl|].
    by repeat (split; [vm_compute; reflexivity|]). }
  eexists s, _. split; [done|]. assert (Hst := step_producer _ _ (send_swap s 0%nat 1%nat Hp)).
  split; [exact Hst|]. split; [done|]. split; [|exact (mailbox_refines_fifo _ _ Hr Hst)].
  unfold abstract, in_hand, queue in *. simpl in *. by rewrite Hc, Hi, Hh, Hd, <- Hm.
Defined.

Lemma actor_no_lost_wakeup_witness :
  exists s : state Z, reachable s /\ loopc s = LPark /\ queue s = [] /\ status s = statusRunning.
Proof.
  destruct demo_parked as (s & Hs & Hl & Hw & _ & _ & Hp & Hst & _). exists s.
  assert (Hr := New_reachable 0 s Hs). split; [done|]. split; [done|].
  apply (actor_no_lost_wakeup s Hr Hl Hw).
  - intros t n prev. rewrite Hp, lookup_singleton. by case_decide.
  - intros t. rewrite Hp, lookup_singleton. by case_decide.
  - intros t. by rewrite Hst, lookup_empty.
Defined.

Lemma envelope_pool_safe_witness :
  exists s : state Z, reachable s /\ loopc s = LPark /\ msg_at (heap s) (a_head s) = None.
Proof.
  destruct demo_parked as (s & Hs & Hl & _). exists s.
  assert (Hr := New_reachable 0 s Hs). split; [done|]. split; [done|].
  apply (envelope_pool_safe s Hr). by rewrite Hl.
Defined.

(** A message is in the mailbox of a parked actor when it is stopped. *)
Lemma actor_stop_drains_witness :
  exists s s' : state Z, accepted s = [Some demo_env] /\ handled s = [] /\
    IsDead s' = true /\ handled s' = [Some demo_env] /\ queue s' = [].
Proof.
  assert (exists s : state Z, reachable s /\ status s = statusStopping /\
    producers s = {[0%nat := PReturned true]} /\ loopc s = LLoad /\ accepted s = [Some demo_env] /\
    handled s = [] /\
    exists s', rtc step s s' /\ ctxDone s' = false /\ IsDead s' = true)
    as (s & Hr & Hst & Hp & Hl & Ha & Hh & s' & Hs & Hx & Hd).
  { eexists. split.
    { apply (New_reachable 0). by_loop (start_ok _). run_send 0%nat demo_env 1%nat. run_stop 0%nat.
      apply rtc_refl. }
    do 5 (split; [vm_compute; reflexivity|]). eexists. split.
    - by_loop (loop_load_some _). by_loop (loop_advance _). by_loop (loop_dec _). by_loop (loop_put _).
      eapply rtc_l.
      { apply step_loop. eapply (loop_handle _ _ _ _ _ 5); try (vm_compute; reflexivity).
        split; vm_compute; congruence. }
      evaluate_state. by_loop (loop_clear _).
      by_loop (loop_load_nil _). by_loop (loop_tail _). by_loop (loop_stopping _).
      by_loop (loop_shutdown _). by_loop (loop_dead _). apply rtc_refl.
    - by repeat (split; [vm_compute; reflexivity|]). }
  exists s, s'. rewrite <- Ha. do 3 (split; [done|]).
  destruct (actor_stop_drains s s' Hr Hst) as (-> & _ & ->); try done.
  - intros t q. rewrite Hp, lookup_singleton. case_decide; naive_solver.
  - by rewrite Hl.
Defined.
End Witnesses.
