(* ===== verification/ActorTerm.v ===== *)
(** * The actor runtime comes to rest

    What a call of [Send], [SendEnvelope], [Stop], [Start] or [Drain] sets going
    ends by itself: between two calls an actor takes only finitely many steps,
    whatever the scheduler does, and the number is bounded by a weight of its state.
    Where it comes to rest every call has returned and no accepted envelope waits. *)

From S2P Require Import Prelude Wire Mailbox MailboxInv ActorSpec.

(** No call begins between two states. *)
Record no_new_call {HS} (s s' : state HS) : Prop := {
  nc_producers t : is_Some (producers s' !! t) -> is_Some (producers s !! t);
  nc_stoppers t : is_Some (stoppers s' !! t) -> is_Some (stoppers s !! t);
  nc_start : loopc s = LNone -> loopc s' = LNone;
  nc_drain : drainc s = DNone -> drainc s' = DNone;
}.

(** A step of a call that has begun, or of the loop. *)
Inductive work_step {HS} `{Handler HS} (s s' : state HS) : Prop :=
  | work_producer : producer_step s s' -> no_new_call s s' -> work_step s s'
  | work_loop : loop_step s s' -> no_new_call s s' -> work_step s s'
  | work_stop : stop_step s s' -> no_new_call s s' -> work_step s s'
  | work_drain : drain_step s s' -> no_new_call s s' -> work_step s s'.

(** ** The weight of a state

    An upper bound of the number of steps a state has left.  A queued envelope costs
    ten steps of the loop, a token in the wake channel one more round of it, and a
    goroutine in [Stop] two steps for each change of status that can make its CAS
    fail. *)

Definition producer_weight (q : producer) : nat :=
  match q with
  | PReturned _ => 0 | PWake => 6 | PLink _ _ => 7 | PSwap _ => 18 | PCount _ => 19
  | PClear _ => 20 | PAlloc _ | PSendEnv _ => 21 | PSend _ => 22
  end.

Definition stopper_weight (st : actor_status) (q : stopper) : nat :=
  match q with
  | SReturned => 0 | SWake => 6
  | SCas st0 => 7 + 2 * (3 - status_rank st0)
  | SLoad => 8 + 2 * (3 - status_rank st)
  end.

Definition loop_weight (l : loop_pc) : nat :=
  match l with
  | LExited | LPanicked | LNone => 0
  | LStoreDead => 1 | LPark | LShutdown => 3 | LStatus => 4 | LTail | LAdvance _ => 5
  | LLoad => 6 | LClear _ => 7 | LHandle _ => 8 | LPut _ _ => 9 | LDec _ _ => 10
  end.

Definition drain_weight (d : drain_pc) : nat := match d with DLoop => 1 | _ => 0 end.

Definition weight {HS} (s : state HS) : nat :=
  msum producer_weight (producers s) + msum (stopper_weight (status s)) (stoppers s) +
  (if wake s then 5 else 0) + 10 * length (list.tail (chain s)) + loop_weight (loopc s) +
  drain_weight (drainc s).

(** ** Every step of work lowers the weight *)

Section Termination.
Context {HS : Type} `{Handler HS}.
Implicit Types s : state HS.

(** A status [Stop] has read is not newer than the status. *)
Definition cas_behind s : Prop :=
  forall t st, stoppers s !! t = Some (SCas st) -> (status_rank st <= status_rank (status s))%nat.

Lemma producer_stoppers s s' : producer_step s s' -> stoppers s' = stoppers s /\ status s' = status s.
Proof. destruct 1; try done; match goal with Hg : GetEnvelope _ _ _ |- _ => by destruct Hg end. Qed.

Lemma cas_behind_step p0 s s' : inv p0 s -> cas_behind s -> step s s' -> cas_behind s'.
Proof.
  intros I C Hst t st Ht. pose proof (status_rank_step p0 s s' I Hst) as Hr.
  assert (stoppers s' = stoppers s -> (status_rank st <= status_rank (status s'))%nat) as Hsame.
  { intros E. rewrite E in Ht. specialize (C _ _ Ht). lia. }
  destruct Hst as [Hst|Hst|Hst|Hst| ->]; [by apply Hsame, producer_stoppers|by destruct Hst; auto| |by destruct Hst; auto|auto].
  destruct Hst; simpl in *; rewrite lookup_insert in Ht; case_decide; simplify_eq; auto;
    specialize (C _ _ Ht); lia.
Qed.

Lemma stopper_weight_mono st st' q :
  (status_rank st <= status_rank st')%nat -> (stopper_weight st' q <= stopper_weight st q)%nat.
Proof. destruct q; simpl; lia. Qed.

Lemma stoppers_mono (m : gmap nat stopper) st st' :
  (status_rank st <= status_rank st')%nat -> (msum (stopper_weight st') m <= msum (stopper_weight st) m)%nat.
Proof. intros. apply msum_le. intros. by apply stopper_weight_mono. Qed.

Ltac lower_producer Ht :=
  match goal with |- context [<[?t := ?q]> ?m] =>
    let E := fresh in pose proof (msum_update producer_weight m t q _ Ht) as E; simpl in E; lia
  end.

Lemma producer_lowers p0 s s' : inv p0 s -> producer_step s s' -> no_new_call s s' -> (weight s' < weight s)%nat.
Proof.
  intros I Hst [Hp _ _ _]. pose proof (mi_head _ _ _ _ _ _ _ (inv_mem _ _ I)) as Hhd.
  assert (forall t q, producers s !! t = None -> producers s' = <[t := q]> (producers s) -> False) as Hnew.
  { intros t q Ht E. destruct (Hp t) as [? ?]; [rewrite E, lookup_insert_eq; eauto|congruence]. }
  destruct Hst as [t env Ht|t env Ht Hr|t env Ht Hr|t env n s' Ht Hg|t env n s' Ht Hg|t Ht|t n Ht Hr
    |t n Ht Hr|t n Ht|t n Ht|t n Ht|t n prev Ht|t Ht];
    try (by destruct (Hnew t _ Ht eq_refl)); try (unfold weight; simpl; lower_producer Ht).
  - destruct Hg; unfold weight; simpl; lower_producer Ht.
  - destruct Hg; by destruct (Hnew t _ Ht eq_refl).
  - unfold weight; simpl. rewrite (tail_snoc _ _ _ Hhd), length_app. simpl. lower_producer Ht.
Qed.

Lemma loop_lowers p0 s s' : inv p0 s -> loop_step s s' -> no_new_call s s' -> (weight s' < weight s)%nat.
Proof.
  intros I Hst [_ _ Hs _]. pose proof (stoppers_mono (stoppers s) (status s) (status s')
    (status_rank_step p0 s s' I (step_loop _ _ Hst))) as Hm.
  destruct Hst as [Hi|Hl Hn|n Hl Hn|Hl|Hl Hst|Hl Hst|Hl|Hl Hx|Hl|Hl Hw|n Hl|h n Hl|h n Hl
    |n env hs res ns Hl Hm' Hh Hns|n Hl Hm'|n Hl]; unfold weight; simpl in *;
    try (rewrite Hl; simpl in *; lia).
  - by specialize (Hs (ci_init s (inv_ctl _ _ I) Hi)).
  - rewrite Hl, Hw. simpl. lia.
  - pose proof (ci_adv s (inv_ctl _ _ I) n Hl) as Hn.
    destruct (chain_uncons _ _ _ _ _ _ _ (inv_mem _ _ I) n Hn) as [rest ->]. rewrite Hl. simpl. lia.
Qed.

Lemma stop_lowers p0 s s' :
  inv p0 s -> cas_behind s -> stop_step s s' -> no_new_call s s' -> (weight s' < weight s)%nat.
Proof.
  intros I C Hst [_ Hp _ _]. pose proof (stoppers_mono (stoppers s) (status s) (status s')
    (status_rank_step p0 s s' I (step_stop _ _ Hst))) as Hm.
  destruct Hst as [t Ht|t Ht Hr|t Ht Hr|t st Ht Hst|t st Ht Hst|t Ht];
    [destruct (Hp t) as [? ?]; [simpl; rewrite lookup_insert_eq; eauto|congruence]|..];
    unfold weight; simpl in *;
    match goal with |- context [<[t := ?q]> _] =>
      pose proof (msum_update (stopper_weight (status s)) (stoppers s) t q _ Ht) as E;
      pose proof (msum_update (stopper_weight statusStopping) (stoppers s) t q _ Ht) as E' end;
    simpl in E, E'; try lia.
  - specialize (C _ _ Ht). destruct st, (status s); simpl in *; done || lia.
Qed.

Lemma drain_lowers p0 s s' : inv p0 s -> drain_step s s' -> no_new_call s s' -> (weight s' < weight s)%nat.
Proof.
  intros I [Hd Hdead|Hd Hn|n Hd Hn] [_ _ _ Hnd]; unfold weight; simpl.
  - by specialize (Hnd Hd).
  - rewrite Hd. simpl. lia.
  - destruct (chain_uncons _ _ _ _ _ _ _ (inv_mem _ _ I) n Hn) as [rest ->]. simpl. lia.
Qed.

Lemma work_is_step s s' : work_step s s' -> step s s'.
Proof. intros [?|?|?|?]; by constructor. Qed.

(** What every step of work needs and keeps. *)
Definition work_inv s : Prop := (exists p0, inv p0 s) /\ cas_behind s.

Lemma work_inv_step s s' : work_inv s -> step s s' -> work_inv s'.
Proof.
  intros [[p0 I] C] Hst. split; [exists p0; by eapply step_inv|by eapply cas_behind_step].
Qed.

Lemma reachable_work_inv s : reachable s -> work_inv s.
Proof.
  intros (hs & p0 & pool0 & d & Hd & Hp & Hs). eapply rtc_invariant; [apply work_inv_step| |done].
  split; [exists p0; by apply New_inv|done].
Qed.

Lemma work_lowers s s' : work_inv s -> work_step s s' -> (weight s' < weight s)%nat.
Proof.
  intros [[p0 I] C] [Hst Hn|Hst Hn|Hst Hn|Hst Hn];
    eauto using producer_lowers, loop_lowers, stop_lowers, drain_lowers.
Qed.

Lemma work_bounded k s s' : work_inv s -> nsteps work_step k s s' -> (k + weight s' <= weight s)%nat.
Proof.
  intros I Hs. induction Hs as [|k s s1 s2 Hst Hs IH]; [lia|].
  pose proof (work_lowers _ _ I Hst). specialize (IH (work_inv_step _ _ I (work_is_step _ _ Hst))). lia.
Qed.

(** ** Where it comes to rest *)

(** A state in which no call is in progress and the loop has nothing to do. *)
Record at_rest s : Prop := {
  ar_producers t q : producers s !! t = Some q -> exists ok, q = PReturned ok;
  ar_stoppers t q : stoppers s !! t = Some q -> q = SReturned;
  ar_drain : drainc s <> DLoop;
  ar_loop : loopc s = LNone \/ loopc s = LExited \/
    (loopc s = LPark /\ wake s = false /\ ctxDone s = false);
}.

Lemma GetEnvelope_total s : exists n s', GetEnvelope s n s'.
Proof. exists (fresh (dom (heap s))). eexists. apply Get_new, not_elem_of_dom, is_fresh. Qed.

Lemma no_new_producer s s' t q :
  is_Some (producers s !! t) -> producers s' = <[t := q]> (producers s) ->
  stoppers s' = stoppers s -> loopc s' = loopc s -> drainc s' = drainc s -> no_new_call s s'.
Proof.
  intros Ht Ep Es El Ed. split; [|congruence..]. intros t'. rewrite Ep, lookup_insert.
  case_decide; [by subst|done].
Qed.

Lemma no_new_stopper s s' t q :
  is_Some (stoppers s !! t) -> stoppers s' = <[t := q]> (stoppers s) ->
  producers s' = producers s -> loopc s' = loopc s -> drainc s' = drainc s -> no_new_call s s'.
Proof.
  intros Ht Es Ep El Ed. split; [congruence| |congruence..]. intros t'. rewrite Es, lookup_insert.
  case_decide; [by subst|done].
Qed.

Lemma no_new_loop s s' :
  producers s' = producers s -> stoppers s' = stoppers s -> drainc s' = drainc s ->
  loopc s <> LNone -> no_new_call s s'.
Proof. intros Ep Es Ed Hl. split; congruence. Qed.

Lemma producer_works s t q : producers s !! t = Some q -> (exists ok, q = PReturned ok) \/ exists s', work_step s s'.
Proof.
  intros Ht. assert (forall q' s', producer_step s s' -> producers s' = <[t := q']> (producers s) ->
    stoppers s' = stoppers s -> loopc s' = loopc s -> drainc s' = drainc s -> exists s', work_step s s') as Hgo.
  { intros q' s' Hst E1 E2 E3 E4. exists s'. apply work_producer; [done|].
    eapply no_new_producer; [by rewrite Ht|done..]. }
  destruct q as [env|env|n|n|n|n|n prev| |ok]; [right..|by left; exists ok].
  - destruct (rejects (status s)) eqn:Hr;
      [eapply Hgo; [eapply send_reject|..]|eapply Hgo; [eapply send_accept|..]]; done.
  - destruct (GetEnvelope_total s) as (n & s' & Hg).
    eapply Hgo; [by eapply send_alloc|by destruct Hg..].
  - destruct (rejects (status s)) eqn:Hr;
      [eapply Hgo; [eapply sendenv_reject|..]|eapply Hgo; [eapply sendenv_accept|..]]; done.
  - eapply Hgo; [by eapply send_clear|done..].
  - eapply Hgo; [by eapply send_count|done..].
  - eapply Hgo; [by eapply send_swap|done..].
  - eapply Hgo; [by eapply send_link|done..].
  - eapply Hgo; [by eapply send_wake|done..].
Qed.

Lemma stopper_works s t q : stoppers s !! t = Some q -> q = SReturned \/ exists s', work_step s s'.
Proof.
  intros Ht. assert (forall q' s', stop_step s s' -> stoppers s' = <[t := q']> (stoppers s) ->
    producers s' = producers s -> loopc s' = loopc s -> drainc s' = drainc s -> exists s', work_step s s') as Hgo.
  { intros q' s' Hst E1 E2 E3 E4. exists s'. apply work_stop; [done|].
    eapply no_new_stopper; [by rewrite Ht|done..]. }
  destruct q as [|st| |]; [right..|by left].
  - destruct (rejects (status s)) eqn:Hr;
      [eapply Hgo; [eapply stop_already|..]|eapply Hgo; [eapply stop_load|..]]; done.
  - destruct (decide (status s = st));
      [eapply Hgo; [eapply stop_cas_ok|..]|eapply Hgo; [eapply stop_cas_fail|..]]; done.
  - eapply Hgo; [by eapply stop_wake|done..].
Qed.

Lemma loop_works s : loopc s <> LPanicked ->
  (loopc s = LNone \/ loopc s = LExited \/ (loopc s = LPark /\ wake s = false /\ ctxDone s = false)) \/
  exists s', work_step s s'.
Proof.
  intros Hp. assert (forall s', loop_step s s' -> loopc s <> LNone -> producers s' = producers s ->
    stoppers s' = stoppers s -> drainc s' = drainc s -> exists s', work_step s s') as Hgo.
  { intros s' Hst Hl E1 E2 E3. exists s'. apply work_loop; [done|]. by apply no_new_loop. }
  destruct (loopc s) eqn:Hl; try done; try (by left; eauto); try (
    right; eapply Hgo; [(by apply loop_tail) || (by apply loop_shutdown) || (by apply loop_dead) ||
      (by apply loop_advance) || (by eapply loop_dec) || (by eapply loop_put) || (by eapply loop_clear)|done..]).
  - right. destruct (next_at (heap s) (a_head s)) eqn:E;
      [eapply Hgo; [by eapply loop_load_some|done..]|eapply Hgo; [by eapply loop_load_nil|done..]].
  - right. destruct (decide (status s = statusStopping));
      [eapply Hgo; [by eapply loop_stopping|done..]|eapply Hgo; [by eapply loop_park|done..]].
  - destruct (ctxDone s) eqn:Hc; [right; eapply Hgo; [by eapply loop_ctx|done..]|].
    destruct (wake s) eqn:Hw; [right; eapply Hgo; [by eapply loop_woken|done..]|]. by left; auto.
  - right. destruct (msg_at (heap s) n) as [env|] eqn:E; [|eapply Hgo; [by eapply loop_handle_nil|done..]].
    destruct (handler_Handle (hstate s) env) as [hs res] eqn:Eh.
    eapply Hgo; [by eapply (loop_handle _ n env hs res 0)|done..].
Qed.

Lemma drain_works s : drainc s <> DLoop \/ exists s', work_step s s'.
Proof.
  destruct (drainc s) eqn:Hd; [by left|right|by left].
  destruct (next_at (heap s) (a_head s)) as [n|] eqn:E; eexists;
    (apply work_drain; [(by eapply drain_round) || (by eapply drain_end)|split; simpl; congruence]).
Qed.

Definition returned (q : producer) : bool := match q with PReturned _ => true | _ => false end.
Definition stop_returned (q : stopper) : bool := match q with SReturned => true | _ => false end.

(** An actor is at rest or some goroutine can take a step. *)
Lemma rest_or_work s : work_inv s -> at_rest s \/ exists s', work_step s s'.
Proof.
  intros [[p0 I] _]. destruct (loop_works s (ci_panic s (inv_ctl _ _ I))) as [Hl|]; [|by right].
  destruct (drain_works s) as [Hd|]; [|by right].
  destruct (decide (map_Forall (fun _ q => returned q = true) (producers s))) as [Hp|Hp].
  2:{ apply map_not_Forall in Hp as (t & q & Ht & Hq); [|solve_decision].
      destruct (producer_works s t q Ht) as [[ok ->]|]; [by destruct Hq|by right]. }
  destruct (decide (map_Forall (fun _ q => stop_returned q = true) (stoppers s))) as [Hs|Hs].
  2:{ apply map_not_Forall in Hs as (t & q & Ht & Hq); [|solve_decision].
      destruct (stopper_works s t q Ht) as [->|]; [by destruct Hq|by right]. }
  left. split; [|by intros t [] Ht%Hs|done|done]. intros t [] Ht; specialize (Hp _ _ Ht); by eauto.
Qed.

Lemma work_rests s : work_inv s -> exists s', rtc work_step s s' /\ at_rest s'.
Proof.
  remember (weight s) as k eqn:Hk. revert s Hk. induction k as [k IH] using lt_wf_ind.
  intros s -> I. destruct (rest_or_work s I) as [|[s1 Hst]]; [by exists s|].
  destruct (IH _ (work_lowers _ _ I Hst) s1 eq_refl (work_inv_step _ _ I (work_is_step _ _ Hst))) as (s' & Hs & Hr).
  exists s'. split; [by eapply rtc_l|done].
Qed.

(** What has been accepted is handled when a running actor is at rest. *)
Lemma rest_handled s : work_inv s -> at_rest s -> status s = statusRunning -> handled s = accepted s.
Proof.
  intros [[p0 I] _] [Rp Rs Rd Rl] Hst. pose proof (inv_ctl _ _ I) as C.
  destruct Rl as [Hl|[Hl|(Hl & Hw & _)]].
  - destruct (ci_none s C Hl); congruence.
  - apply (ci_dead s C) in Hl. congruence.
  - destruct (no_lost_wakeup p0 s I Hl Hw) as [Hq _].
    + intros t n prev Ht. by destruct (Rp _ _ Ht).
    + intros t Ht. by destruct (Rp _ _ Ht).
    + intros t Ht. by specialize (Rs _ _ Ht).
    + rewrite (inv_hist _ _ I), Hq. unfold in_hand. rewrite Hl, (ci_drained s C), !app_nil_r; [done|].
      destruct (drainc s) eqn:Ed; [done|..]; rewrite (ci_drain s C) in Hl; congruence.
Qed.

(** A state with no work left is at rest. *)
Lemma nf_at_rest s : work_inv s -> nf work_step s -> at_rest s.
Proof.
  intros [[p0 I] _] Hnf. split.
  - intros t q Ht. by destruct (producer_works s t q Ht).
  - intros t q Ht. by destruct (stopper_works s t q Ht).
  - by destruct (drain_works s).
  - destruct (loop_works s) as [|]; [exact (ci_panic s (inv_ctl _ _ I))|done|by destruct Hnf].
Qed.
End Termination.

(** ** Termination *)

(** C12: the actor runtime terminates between calls.  From every state an actor can
    be in, the calls in progress and the loop take at most [weight] steps in any
    interleaving before a new call begins; they can always reach a state at rest; and
    when they stop, every [Send], [SendEnvelope], [Stop] and [Drain] has returned and
    the loop is parked without a token, has exited, or was never started.  An actor
    that is then still running has handled every envelope it accepted. *)
Theorem actor_terminates {HS} `{Handler HS} (s : state HS) :
  reachable s ->
  (forall k s', nsteps work_step k s s' -> (k <= weight s)%nat) /\
  (exists s', rtc work_step s s' /\ at_rest s') /\
  (forall s', rtc work_step s s' -> nf work_step s' ->
     at_rest s' /\ (status s' = statusRunning -> handled s' = accepted s')).
Proof.
  intros I%reachable_work_inv. split; [|split].
  - intros k s' Hs%work_bounded; [lia|done].
  - by apply work_rests.
  - intros s' Hs Hnf. assert (work_inv s') as I'.
    { eapply rtc_invariant; [|apply I|apply Hs]. eauto using work_inv_step, work_is_step. }
    pose proof (nf_at_rest s' I' Hnf). split; [done|]. by apply rest_handled.
Qed.

(** ** Witness *)

#[local] Existing Instance sum_handler.

(** A started actor with one call of [Send] and one of [Stop] in progress. *)
Definition busy_state : state Z :=
  set_stopper 0 SLoad (set_producer 0 (PSend demo_env)
    ((New 0 0 ∅ 0%nat) <| status := statusRunning |> <| loopc := LLoad |>)).

Lemma actor_terminates_witness :
  (forall k s', nsteps work_step k busy_state s' -> (k <= 40)%nat) /\
  exists s', rtc work_step busy_state s' /\ at_rest s'.
Proof.
  assert (reachable busy_state) as Hr.
  { eapply New_reachable. eapply rtc_l; [apply step_loop, start_ok; done|].
    eapply rtc_l; [apply step_producer, (send_call _ 0%nat demo_env); done|].
    eapply rtc_l; [apply step_stop, (stop_call _ 0%nat); done|]. apply rtc_refl. }
  destruct (actor_terminates busy_state Hr) as (Hb & Hx & _). split; [exact Hb|exact Hx].
Defined.
