(* ===== verification/Store.v ===== *)
(** * Persistence: pkg/persistence/store.go, pkg/persistence/cassandra_store.go

    The [Store] interface, the Cassandra adapter over a gocql session, and the
    contract of the two wallet tables as type classes: what the driver promises
    ([SessionDB], documented behaviour of Cassandra) and what the adapter makes of
    it ([WalletDB]), which is all the wallet actor relies on.  An in-memory session
    with injected faults shows that the contract can be met. *)

From S2P Require Import Prelude Wire.

(** ** store.go *)

Inductive BatchMode := LoggedBatch | UnloggedBatch.

(** The dynamic types that occur in [[]any] arguments and in rows. *)
Inductive cql_value :=
  | VInt (z : Z) | VText (s : string) | VTime (ns : Z) | VBlob (b : list Byte.byte).

Record Statement := mkStatement { CQL : string; Args : list cql_value; Idempotent : bool }.

(** A row as [Scan] delivers it; a [Scanner] is the list of the rows to come. *)
Abbreviation row := (list cql_value).

(** A callback reads rows and updates the variables [S] it captured; its error is
    [Some].  It is given all rows and reads as many as it wants. *)
Definition scan_fn (S : Type) : Type := list row -> S -> S * option string.

(** [persistence.Store]: [W] is the world behind the interface. *)
Class Store (W : Type) := {
  ExecuteBatch : W -> BatchMode -> list Statement -> W * option string;
  Query : forall {S}, W -> string -> list cql_value -> scan_fn S -> S -> W * (S * option string);
}.

(** ** The gocql session, a parameter *)

Inductive gocql_BatchType := gocql_LoggedBatch | gocql_UnloggedBatch.

Record gocql_BatchEntry := mkEntry { Stmt : string; EArgs : list cql_value; EIdempotent : bool }.
Record gocql_Batch := mkBatch { BType : gocql_BatchType; Entries : list gocql_BatchEntry }.

(** [session.ExecuteBatch] also says how many nanoseconds it took; [Iter] gives
    the rows that arrive before it stops and the error [Close] reports. *)
Class Session (W : Type) := {
  session_ExecuteBatch : W -> gocql_Batch -> W * Z * option string;
  session_Iter : W -> string -> list cql_value -> W * (list row * option string);
}.

(** ** cassandra_store.go *)

Definition ErrEmptyBatch : string := "persistence: statements slice must not be empty".

Record CassandraStore (W : Type) := mkCassandraStore {
  session : W;
  processPersistenceWriteDurationNsSum : Z;
  processPersistenceWriteDurationNsCount : Z;
}.
Arguments mkCassandraStore {W}.
Arguments session {W} c : rename.
Arguments processPersistenceWriteDurationNsSum {W} c : rename.
Arguments processPersistenceWriteDurationNsCount {W} c : rename.

Definition toGocqlBatchType (mode : BatchMode) : gocql_BatchType :=
  match mode with LoggedBatch => gocql_LoggedBatch | UnloggedBatch => gocql_UnloggedBatch end.

(** [fmt.Errorf("<text>: %w", err)]. *)
Definition wrap_error (text err : string) : string := text +:+ ": " +:+ err.

(** The fields of [gocql.ClusterConfig] the program sets; durations in nanoseconds. *)
Inductive gocql_Consistency := gocql_Any | gocql_One | gocql_Two | gocql_Three | gocql_Quorum | gocql_All
  | gocql_LocalQuorum | gocql_EachQuorum | gocql_LocalOne.
Record gocql_ClusterConfig := mkClusterConfig {
  Hosts : list string; Keyspace : string; Consistency : gocql_Consistency; Timeout : Z; ConnectTimeout : Z;
}.

Definition cassandra_config (hosts : list string) (keyspace : string) : gocql_ClusterConfig :=
  mkClusterConfig hosts keyspace gocql_Quorum (5 * 10 ^ 9) (10 * 10 ^ 9).

Definition session_error : string -> string := wrap_error "persistence: failed to create cassandra session".

(** [NewCassandraStore]; [CreateSession] is the driver's.  A process opens one store,
    when its counters are still 0. *)
Definition NewCassandraStore {W} (CreateSession : gocql_ClusterConfig -> result string W)
    (hosts : list string) (keyspace : string) : result string (CassandraStore W) :=
  match CreateSession (cassandra_config hosts keyspace) with
  | Err e => Err (session_error e)
  | Ok w => Ok (mkCassandraStore w 0 0)
  end.

Section Cassandra.
Context {W : Type} `{Session W}.

Definition batch_of (mode : BatchMode) (statements : list Statement) : gocql_Batch :=
  mkBatch (toGocqlBatchType mode)
    ((fun stmt => mkEntry (CQL stmt) (Args stmt) (Idempotent stmt)) <$> statements).

Definition CassandraStore_ExecuteBatch (s : CassandraStore W) (mode : BatchMode)
    (statements : list Statement) : CassandraStore W * option string :=
  match statements with
  | [] => (s, Some ErrEmptyBatch)
  | _ =>
      let '(w, ns, err) := session_ExecuteBatch (session s) (batch_of mode statements) in
      (mkCassandraStore w
         (u64 (processPersistenceWriteDurationNsSum s + ns))
         (u64 (processPersistenceWriteDurationNsCount s + 1)),
       match err with
       | Some e => Some (wrap_error "persistence: ExecuteBatch failed" e)
       | None => None
       end)
  end.

Definition CassandraStore_Query {S} (s : CassandraStore W) (cql : string) (args : list cql_value)
    (scan : scan_fn S) (st : S) : CassandraStore W * (S * option string) :=
  let '(w, (rows, closeErr)) := session_Iter (session s) cql args in
  let s' := mkCassandraStore w (processPersistenceWriteDurationNsSum s)
              (processPersistenceWriteDurationNsCount s) in
  let '(st', scanErr) := scan rows st in
  (s', (st',
    match scanErr with
    | Some e => Some e
    | None =>
        match closeErr with
        | Some e => Some (wrap_error "persistence: Query failed" e)
        | None => None
        end
    end)).

#[export] Instance CassandraStore_Store : Store (CassandraStore W) := {
  ExecuteBatch := CassandraStore_ExecuteBatch;
  Query := @CassandraStore_Query;
}.
End Cassandra.

(** ** The wallet tables

    [wallet_events], PRIMARY KEY ((tenant_id, uid), version), and
    [wallet_snapshots], PRIMARY KEY ((tenant_id, uid)). *)

Record wallet_event := mkEvent { created_at : Z; tx_id : string; delta_amount : Z; ev_payload : list Byte.byte }.

(** A partition of wallet_events: its rows in clustering order. *)
Abbreviation partition := (list (Z * wallet_event)).

(** The statements of internal/node. *)
Definition insertEventCQL : string :=
  "INSERT INTO wallet_events (tenant_id, uid, version, created_at, tx_id, delta_amount, payload) VALUES (?, ?, ?, ?, ?, ?, ?)".
Definition insertSnapshotCQL : string :=
  "INSERT INTO wallet_snapshots (tenant_id, uid, balance, last_version) VALUES (?, ?, ?, ?)".
Definition snapCQL : string :=
  "SELECT balance, last_version FROM wallet_snapshots WHERE tenant_id = ? AND uid = ?".
Definition eventCQL : string :=
  "SELECT version, tx_id, delta_amount FROM wallet_events WHERE tenant_id = ? AND uid = ? AND version > ? ORDER BY version ASC".
Definition deltaCQL : string :=
  "SELECT delta_amount FROM wallet_events WHERE tenant_id = ? AND uid = ? AND version > ? ORDER BY version ASC".
Definition maxVersionCQL : string :=
  "SELECT version FROM wallet_events WHERE tenant_id = ? AND uid = ? ORDER BY version DESC LIMIT 1".
(** The statement of cmd/client. *)
Definition balanceCQL : string :=
  "SELECT version, delta_amount FROM wallet_events WHERE tenant_id = ? AND uid = ? AND version > ? ORDER BY version ASC".

Definition event_stmt (tenant uid v : Z) (e : wallet_event) : Statement :=
  mkStatement insertEventCQL
    [VInt tenant; VInt uid; VInt v; VTime (created_at e); VText (tx_id e); VInt (delta_amount e);
     VBlob (ev_payload e)] false.
Definition snapshot_stmt (tenant uid balance version : Z) : Statement :=
  mkStatement insertSnapshotCQL [VInt tenant; VInt uid; VInt balance; VInt version] true.

(** INSERT is an upsert of the row with that clustering key. *)
Fixpoint upsert (v : Z) (e : wallet_event) (p : partition) : partition :=
  match p with
  | [] => [(v, e)]
  | (v', e') :: rest =>
      if decide (v < v') then (v, e) :: p
      else if decide (v = v') then (v, e) :: rest
      else (v', e') :: upsert v e rest
  end.

Record tables := mkTables {
  wallet_events : gmap (Z * Z) partition;
  wallet_snapshots : gmap (Z * Z) (Z * Z);
}.
#[export] Instance tables_Eta : Eta tables := fun t =>
  mkTables (wallet_events t) (wallet_snapshots t).

Definition rows_of (t : tables) (tenant uid : Z) : partition :=
  default [] (wallet_events t !! (tenant, uid)).

Definition put_event (tenant uid v : Z) (e : wallet_event) (t : tables) : tables :=
  t <| wallet_events ::= <[(tenant, uid) := upsert v e (rows_of t tenant uid)]> |>.
Definition put_snapshot (tenant uid balance version : Z) (t : tables) : tables :=
  t <| wallet_snapshots ::= <[(tenant, uid) := (balance, version)]> |>.

(** What the SELECT statements return. *)
Definition select_snapshot (t : tables) (tenant uid : Z) : list row :=
  match wallet_snapshots t !! (tenant, uid) with
  | Some (b, v) => [[VInt b; VInt v]]
  | None => []
  end.
Definition after_version (last : Z) (p : partition) : partition := filter (fun r => last < r.1) p.
Definition select_events (t : tables) (tenant uid last : Z) : list row :=
  (fun r => [VInt r.1; VText (tx_id r.2); VInt (delta_amount r.2)]) <$>
    after_version last (rows_of t tenant uid).
Definition select_deltas (t : tables) (tenant uid last : Z) : list row :=
  (fun r => [VInt (delta_amount r.2)]) <$> after_version last (rows_of t tenant uid).
Definition select_version_deltas (t : tables) (tenant uid last : Z) : list row :=
  (fun r => [VInt r.1; VInt (delta_amount r.2)]) <$> after_version last (rows_of t tenant uid).
Definition select_max_version (t : tables) (tenant uid : Z) : list row :=
  match list.last (rows_of t tenant uid) with Some r => [[VInt r.1]] | None => [] end.

(** ** The contracts *)

(** A write that reports no error took effect; one that reports an error (a
    timeout, say) may have taken effect or not. *)
Definition wrote (before : tables) (f : tables -> tables) (after : tables) (err : option string) : Prop :=
  after = f before \/ (after = before /\ is_Some err).

(** A read that reports no error delivered all rows; one that does delivered a
    part of them, in order. *)
Definition read (want got : list row) (err : option string) : Prop :=
  got `prefix_of` want /\ (err = None -> got = want).

(** The SELECT statements the program uses. *)
Inductive select : string -> list cql_value -> (tables -> list row) -> Prop :=
  | sel_snapshot t u : select snapCQL [VInt t; VInt u] (fun d => select_snapshot d t u)
  | sel_events t u v : select eventCQL [VInt t; VInt u; VInt v] (fun d => select_events d t u v)
  | sel_deltas t u v : select deltaCQL [VInt t; VInt u; VInt v] (fun d => select_deltas d t u v)
  | sel_balance t u v : select balanceCQL [VInt t; VInt u; VInt v] (fun d => select_version_deltas d t u v)
  | sel_max t u : select maxVersionCQL [VInt t; VInt u] (fun d => select_max_version d t u).

(** The INSERT statements the program uses. *)
Inductive insert_into : Statement -> (tables -> tables) -> Prop :=
  | ins_event t u v e : insert_into (event_stmt t u v e) (put_event t u v e)
  | ins_snapshot t u b v : insert_into (snapshot_stmt t u b v) (put_snapshot t u b v).

(** What Cassandra documents of the driver's session. *)
Class SessionDB (W : Type) `{Session W} := {
  session_tables : W -> tables;
  session_insert w bt stmt f w' ns err :
    insert_into stmt f ->
    session_ExecuteBatch w (mkBatch bt [mkEntry (CQL stmt) (Args stmt) (Idempotent stmt)]) = (w', ns, err) ->
    wrote (session_tables w) f (session_tables w') err;
  session_select w cql args sel w' got err :
    select cql args sel ->
    session_Iter w cql args = (w', (got, err)) ->
    session_tables w' = session_tables w /\ read (sel (session_tables w)) got err;
}.

(** What the wallet relies on. *)
Class WalletDB (W : Type) `{Store W} := {
  db : W -> tables;
  db_insert w mode stmt f w' err :
    insert_into stmt f -> ExecuteBatch w mode [stmt] = (w', err) -> wrote (db w) f (db w') err;
  db_select {S} w cql args sel (scan : scan_fn S) (st : S) w' st' err :
    select cql args sel -> Query w cql args scan st = (w', (st', err)) ->
    db w' = db w /\
    exists got closed, read (sel (db w)) got closed /\
      st' = (scan got st).1 /\
      (err = None <-> (scan got st).2 = None /\ closed = None);
}.

(** The adapter turns the one into the other. *)
#[export] Instance CassandraStore_WalletDB `{SessionDB W} : WalletDB (CassandraStore W).
Proof.
  refine {| db := fun s => session_tables (session s) |}.
  - intros s mode stmt f s' err Hins. cbn [ExecuteBatch CassandraStore_Store CassandraStore_ExecuteBatch].
    unfold batch_of. cbn [fmap list_fmap].
    destruct (session_ExecuteBatch _ _) as [[w ns] e] eqn:E. intros [= <- <-]. cbn.
    apply (session_insert _ _ _ _ _ _ _ Hins) in E as [->|[-> [? ->]]]; [by left|right; eauto].
  - intros S s cql args sel scan st s' st' err Hsel. cbn. unfold CassandraStore_Query.
    destruct (session_Iter _ _ _) as [w [rows closed]] eqn:E.
    destruct (scan rows st) as [st1 e] eqn:Es. intros [= <- <- <-]. cbn.
    apply (session_select _ _ _ _ _ _ _ Hsel) in E as [-> Hread]. split; [done|].
    exists rows, closed. rewrite Es. cbn. destruct e, closed; naive_solver.
Defined.

(** ** Partitions *)

(** Rows numbered from [k + 1]: the partition of a gap-free history. *)
Fixpoint numbered (k : Z) (log : list wallet_event) : partition :=
  match log with
  | [] => []
  | e :: rest => (k + 1, e) :: numbered (k + 1) rest
  end.

Lemma numbered_app k l1 l2 :
  numbered k (l1 ++ l2) = numbered k l1 ++ numbered (k + Z.of_nat (length l1)) l2.
Proof.
  revert k. induction l1 as [|e l1 IH]; intros k; simpl.
  - by rewrite Z.add_0_r.
  - rewrite IH. do 3 f_equal. lia.
Qed.

Lemma numbered_lt k log r : r ∈ numbered k log -> k < r.1 <= k + Z.of_nat (length log).
Proof.
  revert k. induction log as [|e log IH]; intros k; simpl.
  - by intros ?%not_elem_of_nil.
  - intros [->|Hr]%elem_of_cons; simpl; [lia|]. apply IH in Hr. lia.
Qed.

Lemma upsert_append v e p : (forall r, r ∈ p -> r.1 < v) -> upsert v e p = p ++ [(v, e)].
Proof.
  induction p as [|[v' e'] p IH]; intros Hp; simpl; [done|].
  assert (v' < v) by (apply (Hp (v', e')); by left).
  rewrite !decide_False by lia. rewrite IH; [done|]. intros r Hr. apply Hp. by right.
Qed.

Lemma upsert_skip v e p q :
  (forall r, r ∈ p -> r.1 < v) -> upsert v e (p ++ q) = p ++ upsert v e q.
Proof.
  induction p as [|[v' e'] p IH]; intros Hp; simpl; [done|].
  assert (v' < v) by (apply (Hp (v', e')); by left).
  rewrite !decide_False by lia. rewrite IH; [done|]. intros r Hr. apply Hp. by right.
Qed.

(** Writing version [n + 1] over a history of [n] rows, with or without a row of
    that version. *)
Lemma upsert_numbered log ph e :
  (length ph <= 1)%nat ->
  upsert (Z.of_nat (length log) + 1) e (numbered 0 (log ++ ph)) = numbered 0 (log ++ [e]).
Proof.
  intros Hph. rewrite !numbered_app, upsert_skip.
  2:{ intros r Hr%numbered_lt. lia. }
  f_equal. rewrite !Z.add_0_l.
  destruct ph as [|x [|y ph]]; simpl in *; [done| |lia].
  rewrite decide_False, decide_True by lia. done.
Qed.

Lemma after_version_numbered log k :
  (k <= length log)%nat ->
  after_version (Z.of_nat k) (numbered 0 log) = numbered (Z.of_nat k) (drop k log).
Proof.
  intros Hk. rewrite <- (take_drop k log) at 1. rewrite numbered_app. unfold after_version.
  rewrite list.filter_app, length_take, Z.add_0_l.
  replace (k `min` length log)%nat with k by lia.
  assert (forall p : partition, (forall r, r ∈ p -> ~ Z.of_nat k < r.1) ->
            filter (fun r : Z * wallet_event => Z.of_nat k < r.1) p = []) as Hnone.
  { induction p as [|r p IH]; [done|]. intros Hp. rewrite filter_cons_False by (apply Hp; by left).
    apply IH. intros r' Hr'. apply Hp. by right. }
  assert (forall p : partition, (forall r, r ∈ p -> Z.of_nat k < r.1) ->
            filter (fun r : Z * wallet_event => Z.of_nat k < r.1) p = p) as Hall.
  { induction p as [|r p IH]; [done|]. intros Hp. rewrite filter_cons_True by (apply Hp; by left).
    f_equal. apply IH. intros r' Hr'. apply Hp. by right. }
  rewrite Hnone, Hall; [done|..].
  - intros r Hr%numbered_lt. lia.
  - intros r Hr%numbered_lt. rewrite length_take in Hr. lia.
Qed.

(** ** An in-memory session with faults *)

Inductive fault :=
  | FOk                 (* the call works *)
  | FLost               (* a write fails without effect; a read fails at once *)
  | FApplied            (* a write takes effect and its reply is lost *)
  | FCut (n : nat).     (* a read fails after n rows *)

Record MemSession := mkMem { mem : tables; faults : list fault }.

Definition apply_entry (en : gocql_BatchEntry) (t : tables) : tables :=
  match EArgs en with
  | [VInt tn; VInt u; VInt v; VTime c; VText tx; VInt d; VBlob p] =>
      if decide (Stmt en = insertEventCQL) then put_event tn u v (mkEvent c tx d p) t else t
  | [VInt tn; VInt u; VInt b; VInt v] =>
      if decide (Stmt en = insertSnapshotCQL) then put_snapshot tn u b v t else t
  | _ => t
  end.

Definition run_select (cql : string) (args : list cql_value) (t : tables) : list row :=
  match args with
  | [VInt tn; VInt u] =>
      if decide (cql = snapCQL) then select_snapshot t tn u
      else if decide (cql = maxVersionCQL) then select_max_version t tn u else []
  | [VInt tn; VInt u; VInt v] =>
      if decide (cql = eventCQL) then select_events t tn u v
      else if decide (cql = deltaCQL) then select_deltas t tn u v
      else if decide (cql = balanceCQL) then select_version_deltas t tn u v else []
  | _ => []
  end.

#[export] Instance MemSession_Session : Session MemSession := {
  session_ExecuteBatch w b :=
    let t := foldl (fun t en => apply_entry en t) (mem w) (Entries b) in
    match faults w with
    | [] => (mkMem t [], 1, None)
    | FOk :: fs => (mkMem t fs, 1, None)
    | FApplied :: fs => (mkMem t fs, 1, Some "timeout")
    | _ :: fs => (mkMem (mem w) fs, 1, Some "unavailable")
    end;
  session_Iter w cql args :=
    let rows := run_select cql args (mem w) in
    match faults w with
    | [] => (w, (rows, None))
    | FOk :: fs => (mkMem (mem w) fs, (rows, None))
    | FCut n :: fs => (mkMem (mem w) fs, (take n rows, Some "timeout"))
    | _ :: fs => (mkMem (mem w) fs, ([], Some "unavailable"))
    end;
}.

Lemma run_select_ok cql args sel t : select cql args sel -> run_select cql args t = sel t.
Proof.
  intros [tn u|tn u v|tn u v|tn u v|tn u]; unfold run_select;
    repeat (first [rewrite decide_True by done | rewrite decide_False by done]); done.
Qed.

#[export] Instance MemSession_DB : SessionDB MemSession.
Proof.
  refine {| session_tables := mem |}.
  - intros w bt stmt f w' ns err Hins. cbn [session_ExecuteBatch MemSession_Session].
    assert (apply_entry (mkEntry (CQL stmt) (Args stmt) (Idempotent stmt)) (mem w) = f (mem w)) as Hf.
    { destruct Hins; [by destruct e | done]. }
    cbn [foldl Entries]. rewrite Hf.
    destruct (faults w) as [|[| | |n] fs]; intros [= <- <- <-]; unfold wrote; simpl; eauto.
  - intros w cql args sel w' got err Hsel. cbn [session_Iter MemSession_Session].
    rewrite (run_select_ok _ _ _ _ Hsel).
    destruct (faults w) as [|[| | |n] fs]; intros [= <- <- <-]; simpl; (split; [done|]);
      (split; [|naive_solver]); try done; try apply prefix_nil. apply prefix_take.
Defined.
