(* ===== verification/Wallet.v ===== *)
(** * The wallet actor: internal/node/actor.go

    [BusinessActor]: the balance and version of one account, the window of recent
    transaction ids, rehydration from the store and the transaction handler.  A
    computation that can panic is an [option]. *)

From stdpp Require Import pretty.
From S2P Require Import Prelude Wire Mailbox Store.

Definition txCacheSize : Z := 1000.
Definition snapshotThreshold : Z := 1000.

Record BusinessActor := mkActor {
  tenantID : Z;               (* int32 *)
  uid : Z;                    (* int64 *)
  balance : Z;                (* int64 *)
  version : Z;                (* int64 *)
  eventCount : Z;             (* int *)
  txCache : gset string;
  txRing : list string;
  txCursor : Z;               (* int *)
  lastActive : Z;             (* int64, ns *)
}.
#[export] Instance BusinessActor_Eta : Eta BusinessActor := fun b =>
  mkActor (tenantID b) (uid b) (balance b) (version b) (eventCount b) (txCache b) (txRing b)
    (txCursor b) (lastActive b).

Definition newBusinessActor (tenant u now : Z) : BusinessActor :=
  mkActor tenant u 0 0 0 ∅ (replicate (Z.to_nat txCacheSize) "") 0 now.

(** [addTxID]: the id that leaves the ring leaves the cache. *)
Definition addTxID (txID : string) (b : BusinessActor) : option BusinessActor :=
  old ← go_index (txRing b) (txCursor b);
  ring ← go_update (txRing b) (txCursor b) txID;
  let cache := if decide (old = "") then txCache b else txCache b ∖ {[old]} in
  Some (b <| txCache := {[txID]} ∪ cache |> <| txRing := ring |>
          <| txCursor := Z.rem (i64 (txCursor b + 1)) txCacheSize |>).

(** [seedTxID]: as [addTxID], without eviction, and only for a new id. *)
Definition seedTxID (txID : string) (b : BusinessActor) : option BusinessActor :=
  if decide (txID ∈ txCache b) then Some b
  else
    ring ← go_update (txRing b) (txCursor b) txID;
    Some (b <| txCache := {[txID]} ∪ txCache b |> <| txRing := ring |>
            <| txCursor := Z.rem (i64 (txCursor b + 1)) txCacheSize |>).

Definition encodeBalance (b : BusinessActor) : list Byte.byte :=
  BigEndian_PutUint64 (u64 (balance b)).

(** The statement the goroutine of [takeSnapshotAsync] executes: the values are
    copied before it starts. *)
Definition takeSnapshotAsync (b : BusinessActor) : Statement :=
  snapshot_stmt (tenantID b) (uid b) (balance b) (version b).

(** [fmt.Errorf("version gap: ...")]. *)
Definition version_gap (expected got : Z) : string :=
  "version gap: expected " +:+ pretty expected +:+ " got " +:+ pretty got +:+
  " (data loss or out-of-order write)".

(** [for s.Scan(&snapshotBalance, &lastVersion) {}]: the last row wins; a row of
    another shape ends the loop, as [Scan] returns false. *)
Fixpoint scan_snapshot (rows : list row) (st : Z * Z) : Z * Z :=
  match rows with
  | [VInt b; VInt v] :: rest => scan_snapshot rest (b, v)
  | _ => st
  end.

(** The loop over the events: [prevVersion], [balance] and the actor. *)
Fixpoint scan_events (rows : list row) (st : option (Z * Z * BusinessActor)) :
    option (Z * Z * BusinessActor) * option string :=
  match st with
  | None => (None, None)
  | Some (prevVersion, bal, b) =>
      match rows with
      | [VInt v; VText txID; VInt deltaAmount] :: rest =>
          if decide (v = i64 (prevVersion + 1))
          then scan_events rest (b' ← seedTxID txID b; Some (v, i64 (bal + deltaAmount), b'))
          else (st, Some (version_gap (i64 (prevVersion + 1)) v))
      | _ => (st, None)
      end
  end.

Section WithStore.
Context {W : Type} `{Store W}.

Definition takeSnapshotSync (w : W) (b : BusinessActor) : W :=
  if decide (eventCount b = 0) then w
  else (ExecuteBatch w UnloggedBatch
          [snapshot_stmt (tenantID b) (uid b) (balance b) (version b)]).1.

(** [rehydrate]: the actor and the error; ids seeded before an error stay. *)
Definition rehydrate (w : W) (b : BusinessActor) : option (W * (BusinessActor * option string)) :=
  let '(w1, ((snapshotBalance, lastVersion), err)) :=
    Query w snapCQL [VInt (tenantID b); VInt (uid b)]
      (fun rows st => (scan_snapshot rows st, None)) (0, 0) in
  match err with
  | Some e => Some (w1, (b, Some (wrap_error "rehydrate: load snapshot failed" e)))
  | None =>
      let '(w2, (st, err2)) :=
        Query w1 eventCQL [VInt (tenantID b); VInt (uid b); VInt lastVersion]
          scan_events (Some (lastVersion, snapshotBalance, b)) in
      '(prevVersion, bal, b1) ← st;
      match err2 with
      | Some e => Some (w2, (b1, Some (wrap_error "rehydrate: load events failed" e)))
      | None => Some (w2, (b1 <| balance := bal |> <| version := prevVersion |>, None))
      end
  end.

(** What [Handle] leaves: the store, the actor, the result and the statements of
    the goroutines it started. *)
Record handled_tx := mkHandled {
  h_world : W;
  h_actor : BusinessActor;
  h_result : RemoteResult;
  h_spawned : list Statement;
}.

(** [base] with the business fields a return path sets. *)
Definition reply (b : BusinessActor) (env : RemoteEnvelope) (success : bool)
    (code msg : string) (payload : list Byte.byte) : RemoteResult :=
  mkResult (tenantID b) (uid b) (EnvTxId env) (EnvRequestId env) (EnvOpCode env)
    success code msg payload.

(** The part of [Handle] after the guards: blind write, then memory. *)
Definition commit_tx (now : Z) (w : W) (b : BusinessActor) (env : RemoteEnvelope)
    (amount newBalance : Z) : option handled_tx :=
  let nextVersion := i64 (version b + 1) in
  let stmt := event_stmt (tenantID b) (uid b) nextVersion
                (mkEvent now (EnvTxId env) amount (EnvPayload env)) in
  match ExecuteBatch w UnloggedBatch [stmt] with
  | (w', Some err) => Some (mkHandled w' b (reply b env false ErrPersistenceFailed err []) [])
  | (w', None) =>
      b1 ← addTxID (EnvTxId env) (b <| balance := newBalance |> <| version := nextVersion |>);
      let count := i64 (eventCount b1 + 1) in
      let snap := bool_decide (snapshotThreshold <= count) in
      let b2 := b1 <| eventCount := if snap then 0 else count |> in
      Some (mkHandled w' b2 (reply b2 env true "" "" (encodeBalance b2))
              (if snap then [takeSnapshotAsync b2] else []))
  end.

Definition Handle (now : Z) (w : W) (b0 : BusinessActor) (env : RemoteEnvelope) :
    option handled_tx :=
  let b := b0 <| lastActive := now |> in
  if decide (EnvTxId env ∈ txCache b) then Some (mkHandled w b (reply b env true "" "" []) [])
  else if decide (length (EnvPayload env) < 8)%nat then
    Some (mkHandled w b
      (reply b env false ErrInvalidPayload "payload must be 8 bytes (int64 big-endian)" []) [])
  else
    raw ← BigEndian_Uint64 (EnvPayload env);
    let amount := i64 raw in
    let newBalance := i64 (balance b + amount) in
    if decide (newBalance < 0) then
      Some (mkHandled w b
        (reply b env false ErrInsufficientFunds "balance cannot be negative" []) [])
    else commit_tx now w b env amount newBalance.
End WithStore.
Arguments handled_tx W : clear implicits.
Arguments mkHandled {W}.
Arguments h_world {W} h : rename.
Arguments h_actor {W} h : rename.
Arguments h_result {W} h : rename.
Arguments h_spawned {W} h : rename.

(** ** The ring of transaction ids *)

(** [ring_ok hist b]: [hist] is the sequence of ids added or seeded, latest first;
    the ring holds the last [txCacheSize] of them, backwards from the cursor, the
    rest of it is empty; these ids are distinct and cached, and nothing is cached that
    is not in [hist]. *)
Record ring_ok (hist : list string) (b : BusinessActor) : Prop := {
  ro_length : length (txRing b) = Z.to_nat txCacheSize;
  ro_cursor : 0 <= txCursor b < txCacheSize;
  ro_slot (i : nat) : Z.of_nat i < txCacheSize ->
    txRing b !! Z.to_nat ((txCursor b - 1 - Z.of_nat i) mod txCacheSize) = Some (default "" (hist !! i));
  ro_nodup : NoDup (take (Z.to_nat txCacheSize) hist);
  ro_cached tx : tx ∈ take (Z.to_nat txCacheSize) hist -> tx ∈ txCache b;
  ro_seen tx : tx ∈ txCache b -> tx ∈ hist;
}.

Lemma newBusinessActor_ring t u now : ring_ok [] (newBusinessActor t u now).
Proof.
  constructor; unfold newBusinessActor, txCacheSize; cbn [txRing txCursor txCache].
  - by rewrite length_replicate.
  - lia.
  - intros i Hi. rewrite lookup_nil. cbn [default]. apply lookup_replicate_2.
    pose proof (Z.mod_pos_bound (0 - 1 - Z.of_nat i) 1000 ltac:(lia)). lia.
  - rewrite take_nil. constructor.
  - intros tx. rewrite take_nil. by intros ?%not_elem_of_nil.
  - set_solver.
Qed.

Lemma txCacheSize_eq : txCacheSize = 1000.
Proof. done. Qed.

#[local] Opaque txCacheSize.
Ltac ring_lia := pose proof txCacheSize_eq; lia.

Lemma cursor_next c :
  0 <= c < txCacheSize -> Z.rem (i64 (c + 1)) txCacheSize = (c + 1) mod txCacheSize.
Proof.
  rewrite txCacheSize_eq. intros. rewrite i64_id by go_arith. apply Z.rem_mod_nonneg; lia.
Qed.

(** Where the entry [i] steps back was before the cursor moved. *)
Lemma slot_shift c i :
  ((c + 1) mod txCacheSize - 1 - Z.of_nat i) mod txCacheSize = (c - Z.of_nat i) mod txCacheSize.
Proof.
  rewrite <- Z.sub_add_distr, Zminus_mod_idemp_l. f_equal. lia.
Qed.

Lemma slot_distinct c i :
  0 <= c < txCacheSize -> Z.of_nat (S i) < txCacheSize ->
  Z.to_nat ((c - Z.of_nat (S i)) mod txCacheSize) <> Z.to_nat c.
Proof.
  rewrite txCacheSize_eq. intros Hc Hi. pose proof (Z.mod_pos_bound (c - Z.of_nat (S i)) 1000 ltac:(lia)).
  intros E%Z2Nat.inj; [|lia..].
  pose proof (Z.div_mod (c - Z.of_nat (S i)) 1000 ltac:(lia)). nia.
Qed.

Lemma take_pred_elem {A} n (x : A) l : x ∈ take (pred n) l -> x ∈ take n l.
Proof.
  intros (i & Hx & Hi)%elem_of_take. apply elem_of_take. exists i. split; [done|lia].
Qed.

(** Pushing a new id, whatever happens to the cache as long as the window stays in it. *)
Lemma ring_push hist b tx cache :
  ring_ok hist b -> tx ∉ take (Z.to_nat txCacheSize) hist ->
  (forall x, x ∈ take (pred (Z.to_nat txCacheSize)) hist -> x ∈ cache) ->
  cache ⊆ txCache b ->
  ring_ok (tx :: hist)
    (b <| txCache := {[tx]} ∪ cache |> <| txRing := <[Z.to_nat (txCursor b) := tx]> (txRing b) |>
       <| txCursor := Z.rem (i64 (txCursor b + 1)) txCacheSize |>).
Proof.
  intros [Hlen Hcur Hslot Hnd Hcached Hseen] Htx Hcache Hsubc.
  assert (take (Z.to_nat txCacheSize) (tx :: hist) = tx :: take (pred (Z.to_nat txCacheSize)) hist) as Ht.
  { replace (Z.to_nat txCacheSize) with (S (pred (Z.to_nat txCacheSize))) by ring_lia. done. }
  pose proof (fun x => take_pred_elem (Z.to_nat txCacheSize) x hist) as Hsub.
  constructor; cbn [txRing txCursor txCache set_field].
  - by rewrite length_insert.
  - rewrite cursor_next by done. apply Z.mod_pos_bound. ring_lia.
  - intros i Hi. rewrite cursor_next, slot_shift by done. destruct i as [|i].
    + rewrite Z.sub_0_r, Z.mod_small by done. rewrite list_lookup_insert_eq; [done|].
      rewrite Hlen. lia.
    + rewrite list_lookup_insert_ne by (apply not_eq_sym, slot_distinct; done).
      change ((tx :: hist) !! S i) with (hist !! i). rewrite <- (Hslot i) by lia.
      do 3 f_equal. lia.
  - rewrite Ht. constructor; [naive_solver|].
    apply sublist_NoDup with (take (Z.to_nat txCacheSize) hist); [done|]. 
    replace (take (pred (Z.to_nat txCacheSize)) hist)
      with (take (pred (Z.to_nat txCacheSize)) (take (Z.to_nat txCacheSize) hist)).
    + apply sublist_take.
    + rewrite take_take. by f_equal; lia.
  - rewrite Ht. intros x [->|Hx]%elem_of_cons; set_solver.
  - intros x [->%elem_of_singleton|Hx]%elem_of_union; [by left|]. right. by apply Hseen, Hsubc.
Qed.

(** The slot under the cursor is the oldest entry of the window. *)
Lemma ring_oldest hist b :
  ring_ok hist b -> go_index (txRing b) (txCursor b) = Some (default "" (hist !! pred (Z.to_nat txCacheSize))).
Proof.
  intros [Hlen Hcur Hslot _ _ _]. rewrite go_index_lookup by lia.
  rewrite <- (Hslot (pred (Z.to_nat txCacheSize))) by ring_lia.
  f_equal. replace (txCursor b - 1 - Z.of_nat (pred (Z.to_nat txCacheSize)))
    with (txCursor b + (-1) * txCacheSize) by ring_lia.
  rewrite Z.mod_add by ring_lia. by rewrite Z.mod_small.
Qed.

Lemma ring_update hist b tx :
  ring_ok hist b ->
  go_update (txRing b) (txCursor b) tx = Some (<[Z.to_nat (txCursor b) := tx]> (txRing b)).
Proof. intros [Hlen Hcur _ _ _ _]. apply go_update_Some. rewrite Hlen. lia. Qed.

(** An operation on the ring changes only the ring, the cursor and the cache. *)
Definition same_account (b b' : BusinessActor) : Prop :=
  tenantID b' = tenantID b /\ uid b' = uid b /\ balance b' = balance b /\ version b' = version b /\
  eventCount b' = eventCount b /\ lastActive b' = lastActive b.

Lemma addTxID_ok hist b tx :
  ring_ok hist b -> tx ∉ txCache b ->
  exists b', addTxID tx b = Some b' /\ ring_ok (tx :: hist) b' /\ same_account b b' /\ tx ∈ txCache b'.
Proof.
  intros R Htx. unfold addTxID. rewrite (ring_oldest hist b R). cbn [mbind option_bind].
  rewrite (ring_update hist b tx R). cbn [mbind option_bind]. eexists. split; [reflexivity|].
  split; [|split; [done|cbn; set_solver]]. apply ring_push; [done|by intros Hin; apply Htx, R| |case_decide; set_solver].
  intros x Hx. assert (x ∈ txCache b) as Hxc.
  { by apply R, take_pred_elem. }
  case_decide; [done|]. apply elem_of_difference. split; [done|].
  intros ->%elem_of_singleton. pose proof (ro_nodup _ _ R) as Hnd.
  apply elem_of_take in Hx as (i & Hx & Hi).
  destruct (hist !! pred (Z.to_nat txCacheSize)) as [y|] eqn:Hy; [|done]. simpl in *.
  enough (i = pred (Z.to_nat txCacheSize)) by ring_lia.
  apply (NoDup_lookup _ _ _ y Hnd); rewrite lookup_take_lt; try done; lia.
Qed.

Lemma seedTxID_ok hist b tx :
  ring_ok hist b ->
  exists b' hist', seedTxID tx b = Some b' /\ ring_ok hist' b' /\ same_account b b' /\
    txCache b' = {[tx]} ∪ txCache b /\ (hist' = hist \/ hist' = tx :: hist).
Proof.
  intros R. unfold seedTxID. case_decide as Htx.
  - exists b, hist. split_and!; auto; [done|set_solver].
  - rewrite (ring_update hist b tx R). cbn [mbind option_bind]. eexists _, (tx :: hist).
    split; [reflexivity|]. split; [|split_and!; [done|done|by right]]. apply ring_push; [done|by intros Hin; apply Htx, R| |done].
    intros x Hx. by apply R, take_pred_elem.
Qed.
