(* ===== verification/WalletSpec.v ===== *)
(** * The wallet actor: what it promises

    The ledger an account is meant to be, and the lemmas that relate
    internal/node/actor.go to it: what rehydration reads and installs, and what the
    transaction handler does on each of its paths.  [WalletSystem] has the theorems. *)

From S2P Require Import Prelude Wire Mailbox Store Wallet.

(** ** The ledger *)

Definition deltas (log : list wallet_event) : list Z := delta_amount <$> log.
Definition total (log : list wallet_event) : Z := zsum (deltas log).

(** At every moment of its history the account was neither overdrawn nor out of
    the range of [int64]. *)
Definition good_log (log : list wallet_event) : Prop :=
  forall k, 0 <= total (take k log) < 2 ^ 63.

(** A snapshot is worth a prefix of the history. *)
Definition prefix_snapshot (log : list wallet_event) (b v : Z) : Prop :=
  exists k : nat, (k <= length log)%nat /\ v = Z.of_nat k /\ b = total (take k log).

Definition snapshot_ok (d : tables) (t u : Z) (log : list wallet_event) : Prop :=
  forall b v, wallet_snapshots d !! (t, u) = Some (b, v) -> prefix_snapshot log b v.

(** The snapshot that [rehydrate] starts from. *)
Definition snapshot_of (d : tables) (t u : Z) : Z * Z :=
  default (0, 0) (wallet_snapshots d !! (t, u)).

Lemma total_cons e l : total (e :: l) = delta_amount e + total l.
Proof. done. Qed.

Lemma total_app l1 l2 : total (l1 ++ l2) = total l1 + total l2.
Proof. unfold total, deltas. by rewrite fmap_app, zsum_app. Qed.

Lemma total_take_drop k log : total (take k log) + total (drop k log) = total log.
Proof. by rewrite <- total_app, take_drop. Qed.

Lemma good_total log : good_log log -> 0 <= total log < 2 ^ 63.
Proof. intros Hg. specialize (Hg (length log)). by rewrite take_ge in Hg. Qed.

Lemma good_nil : good_log [].
Proof. intros k. rewrite take_nil. done. Qed.

Lemma good_snoc log e :
  good_log log -> 0 <= total log + delta_amount e < 2 ^ 63 -> good_log (log ++ [e]).
Proof.
  intros Hg He k. destruct (decide (k <= length log)%nat).
  - rewrite take_app_le by done. apply Hg.
  - rewrite take_ge by (rewrite length_app; simpl; lia).
    rewrite total_app. change (total [e]) with (delta_amount e + 0). lia.
Qed.

Lemma prefix_snapshot_app log l b v : prefix_snapshot log b v -> prefix_snapshot (log ++ l) b v.
Proof.
  intros (k & Hk & -> & ->). exists k. rewrite take_app_le, length_app by done.
  split_and!; [lia|done|done].
Qed.

Lemma prefix_snapshot_full log : prefix_snapshot log (total log) (Z.of_nat (length log)).
Proof. exists (length log). by rewrite take_ge. Qed.

(** ** Reading the store *)

Definition event_row (r : Z * wallet_event) : row :=
  [VInt r.1; VText (tx_id r.2); VInt (delta_amount r.2)].

(** The event loop on a partition: it goes through when the versions continue the
    snapshot without a gap, and stops at the first gap. *)
Lemma scan_events_run (p : partition) prev bal b hist :
  ring_ok hist b -> is_i64 bal -> - 2 ^ 63 <= prev -> prev + Z.of_nat (length p) < 2 ^ 63 ->
  exists pv bal' b' hist' err,
    scan_events (event_row <$> p) (Some (prev, bal, b)) = (Some (pv, bal', b'), err) /\
    ring_ok hist' b' /\ same_account b b' /\ txCache b ⊆ txCache b' /\
    (forall x, x ∈ hist' -> x ∈ hist \/ x ∈ tx_id <$> p.*2) /\
    (err = None <-> p = numbered prev (p.*2)) /\
    (err = None -> pv = prev + Z.of_nat (length p) /\ bal' = i64 (bal + total (p.*2)) /\
       forall e, e ∈ p.*2 -> tx_id e ∈ txCache b').
Proof.
  revert prev bal b hist. induction p as [|[v e] p IH]; intros prev bal b hist R Hb Hp Hlen.
  - exists prev, bal, b, hist, None. simpl. split_and!; try done; [by left|].
    intros _. split_and!; [lia| |by intros ? ?%not_elem_of_nil].
    unfold total, deltas. simpl. by rewrite Z.add_0_r, i64_id.
  - simpl in Hlen. cbn [fmap list_fmap scan_events event_row fst snd].
    rewrite (i64_id (prev + 1)) by go_arith. case_decide as Hv.
    + subst v. destruct (seedTxID_ok hist b (tx_id e) R) as (b1 & h1 & -> & R1 & S1 & C1 & Hh1).
      cbn [mbind option_bind].
      destruct (IH (prev + 1) (i64 (bal + delta_amount e)) b1 h1 R1 (i64_range _) ltac:(lia) ltac:(lia))
        as (pv & bal' & b' & h' & err & -> & R' & S' & M' & C' & Hiff & Hok).
      exists pv, bal', b', h', err. split_and!; try done.
      * unfold same_account in *. intuition congruence.
      * rewrite C1 in M'. set_solver.
      * intros x Hx. destruct (C' x Hx) as [Hx1|Hx1]; [|right; by right].
        destruct Hh1 as [->| ->]; [by left|]. apply elem_of_cons in Hx1 as [->|]; [right; by left|by left].
      * rewrite Hiff. simpl. split; [by intros <- |by intros [= ?]].
      * intros ->. destruct Hok as (-> & -> & Hin); [done|]. split_and!.
        -- simpl. lia.
        -- autorewrite with gonorm. f_equal. change (((prev + 1, e) :: p).*2) with (e :: p.*2).
           rewrite total_cons. lia.
        -- simpl. intros x [->|Hx]%elem_of_cons; [|auto]. apply M'. rewrite C1. set_solver.
    + exists prev, bal, b, hist, (Some (version_gap (prev + 1) v)). split_and!; try done; [by left|].
      split; [done|]. intros [= ? _]. by destruct Hv.
Qed.

Section Rehydrate.
Context {W : Type} `{WalletDB W}.

(** What the queries of [rehydrate] give when no error is reported. *)
Lemma rehydrate_run (w : W) b hist :
  ring_ok hist b ->
  let '(sb, lv) := snapshot_of (db w) (tenantID b) (uid b) in
  let p := after_version lv (rows_of (db w) (tenantID b) (uid b)) in
  is_i64 sb -> - 2 ^ 63 <= lv -> lv + Z.of_nat (length p) < 2 ^ 63 ->
  exists w' b' err hist',
    rehydrate w b = Some (w', (b', err)) /\ db w' = db w /\ ring_ok hist' b' /\
    tenantID b' = tenantID b /\ uid b' = uid b /\ eventCount b' = eventCount b /\
    (err = None ->
       p = numbered lv (p.*2) /\ version b' = lv + Z.of_nat (length p) /\
       balance b' = i64 (sb + total (p.*2)) /\ (forall e, e ∈ p.*2 -> tx_id e ∈ txCache b') /\
       forall x, x ∈ hist' -> x ∈ hist \/ x ∈ tx_id <$> p.*2).
Proof.
  intros R. destruct (snapshot_of _ _ _) as [sb lv] eqn:Esnap. intros p Hsb Hlv Hlen.
  unfold rehydrate.
  destruct (Query w snapCQL _ _ _) as [w1 [[sb1 lv1] err1]] eqn:Eq1.
  destruct (db_select _ _ _ _ _ _ _ _ _ (sel_snapshot _ _) Eq1)
    as (Hw1 & got & closed & [_ Hgot] & Hst & Herr). simpl in Herr.
  destruct err1 as [e|].
  { eexists _, _, _, hist. split; [reflexivity|]. by split_and!. }
  destruct (proj1 Herr eq_refl) as [_ ->]. specialize (Hgot eq_refl). subst got.
  assert ((sb1, lv1) = (sb, lv)) as [= -> ->].
  { rewrite Hst, <- Esnap. unfold select_snapshot, snapshot_of.
    by destruct (wallet_snapshots (db w) !! _) as [[? ?]|]. }
  destruct (Query w1 eventCQL _ _ _) as [w2 [st err2]] eqn:Eq2.
  destruct (db_select _ _ _ _ _ _ _ _ _ (sel_events _ _ _) Eq2)
    as (Hw2 & got2 & closed2 & [Hpre Hgot2] & Hst2 & Herr2).
  rewrite Hw1 in Hpre, Hgot2. unfold select_events in Hpre, Hgot2. fold p in Hpre, Hgot2.
  change (got2 `prefix_of` (event_row <$> p)) in Hpre.
  change (closed2 = None -> got2 = event_row <$> p) in Hgot2.
  assert (exists q, got2 = event_row <$> q /\ q `prefix_of` p) as (q & -> & Hq).
  { destruct Hpre as [rest Hrest]. apply fmap_app_inv in Hrest as (q & r & -> & -> & Hpq).
    exists q. split; [done|]. rewrite Hpq. by exists r. }
  pose proof (prefix_length _ _ Hq) as Hql.
  destruct (scan_events_run q lv sb b hist R Hsb Hlv ltac:(lia))
    as (pv & bal' & b1 & h1 & err & Escan & R1 & (T1 & U1 & B1 & V1 & E1 & L1) & _ & Hh & Hiff & Hok).
  rewrite Escan in Hst2, Herr2. simpl in Hst2, Herr2. subst st. cbn [mbind option_bind].
  destruct err2 as [e2|].
  { eexists _, _, _, h1. split; [reflexivity|]. split_and!; try done. congruence. }
  destruct (proj1 Herr2 eq_refl) as [-> ->]. specialize (Hgot2 eq_refl).
  assert (q = p) as ->.
  { apply prefix_length_eq; [done|]. apply (f_equal length) in Hgot2. rewrite !length_fmap in Hgot2. lia. }
  eexists _, _, _, h1. split; [reflexivity|]. split_and!; try done; [congruence|by destruct R1|].
  intros _. destruct (Hok eq_refl) as (-> & -> & Hin). by rewrite <- (proj1 Hiff eq_refl).
Qed.

(** A store whose reads all work. *)
Definition reliable (w : W) : Prop :=
  forall S cql args sel (scan : scan_fn S) (st : S),
    select cql args sel -> Query w cql args scan st = (w, scan (sel (db w)) st).

(** A query whose callback reports no error of its own. *)
Lemma pure_query {S} (w w' : W) cql args sel (f : list row -> S -> S) st st' err :
  select cql args sel -> Query w cql args (fun rows st => (f rows st, None)) st = (w', (st', err)) ->
  db w' = db w /\ (err = None -> st' = f (sel (db w)) st) /\ (reliable w -> w' = w /\ err = None).
Proof.
  intros Hsel Eq. destruct (db_select _ _ _ _ _ _ _ _ _ Hsel Eq) as (Hw & got & closed & [_ Hgot] & Hst & Herr).
  simpl in Hst, Herr. split_and!; [done| |].
  - intros He. destruct (proj1 Herr He) as [_ Hc]. by rewrite (Hgot Hc) in Hst.
  - intros Rel. rewrite (Rel _ _ _ _ _ _ Hsel) in Eq. by injection Eq.
Qed.

Lemma scan_select_snapshot d t u : scan_snapshot (select_snapshot d t u) (0, 0) = snapshot_of d t u.
Proof. unfold select_snapshot, snapshot_of. by destruct (wallet_snapshots d !! _) as [[? ?]|]. Qed.

(** On such a store a gap is the only reason to fail. *)
Lemma rehydrate_reliable (w : W) b hist :
  reliable w -> ring_ok hist b ->
  let '(sb, lv) := snapshot_of (db w) (tenantID b) (uid b) in
  let p := after_version lv (rows_of (db w) (tenantID b) (uid b)) in
  is_i64 sb -> - 2 ^ 63 <= lv -> lv + Z.of_nat (length p) < 2 ^ 63 ->
  exists b' err, rehydrate w b = Some (w, (b', err)) /\
    (err = None <-> p = numbered lv (p.*2)) /\
    (err <> None -> balance b' = balance b /\ version b' = version b) /\
    forall tx, tx ∈ txCache b' -> tx ∈ hist \/ tx ∈ tx_id <$> p.*2.
Proof.
  intros Rel R. destruct (snapshot_of _ _ _) as [sb lv] eqn:Esnap. intros p Hsb Hlv Hlen.
  unfold rehydrate. rewrite (Rel _ _ _ _ _ _ (sel_snapshot _ _)).
  assert (scan_snapshot (select_snapshot (db w) (tenantID b) (uid b)) (0, 0) = (sb, lv)) as ->.
  { rewrite <- Esnap. unfold select_snapshot, snapshot_of.
    by destruct (wallet_snapshots (db w) !! _) as [[? ?]|]. }
  rewrite (Rel _ _ _ _ _ _ (sel_events _ _ _)).
  change (select_events (db w) (tenantID b) (uid b) lv) with (event_row <$> p).
  destruct (scan_events_run p lv sb b hist R Hsb Hlv ltac:(lia))
    as (pv & bal' & b1 & h1 & err & -> & R1 & (T1 & U1 & B1 & V1 & E1 & L1) & _ & Hh & Hiff & Hok).
  assert (forall tx, tx ∈ txCache b1 -> tx ∈ hist \/ tx ∈ tx_id <$> p.*2) as Hseen
    by (intros tx Htx; by apply Hh, (ro_seen _ _ R1)).
  cbn [mbind option_bind]. destruct err as [e|].
  - eexists _, _. split; [reflexivity|]. split_and!; [|done|done].
    split; [done|]. intros Hp. by apply Hiff in Hp.
  - eexists _, _. split; [reflexivity|]. by split_and!.
Qed.

(** The account [(t, u)] of the store holds the history [log]. *)
Record ledger_of (d : tables) (t u : Z) (log : list wallet_event) : Prop := {
  lo_rows : rows_of d t u = numbered 0 log;
  lo_snapshot : snapshot_ok d t u log;
  lo_good : good_log log;
  lo_length : Z.of_nat (length log) < 2 ^ 63;
}.

Lemma snapshot_after d t u log :
  rows_of d t u = numbered 0 log -> snapshot_ok d t u log ->
  exists k : nat, (k <= length log)%nat /\
    snapshot_of d t u = (total (take k log), Z.of_nat k) /\
    after_version (Z.of_nat k) (rows_of d t u) = numbered (Z.of_nat k) (drop k log).
Proof.
  intros Hr Hs. unfold snapshot_of.
  assert (prefix_snapshot log 0 0) as Hz by (exists 0%nat; split_and!; [lia|done..]).
  assert (exists b v, default (0, 0) (wallet_snapshots d !! (t, u)) = (b, v) /\ prefix_snapshot log b v)
    as (b & v & -> & k & Hk & -> & ->).
  { destruct (wallet_snapshots d !! (t, u)) as [[b v]|] eqn:E; [|by eexists _, _].
    exists b, v. split; [done|]. by apply Hs. }
  exists k. rewrite Hr. split_and!; [done|done|]. by apply after_version_numbered.
Qed.

Lemma numbered_snd k log : (numbered k log).*2 = log.
Proof. revert k. induction log as [|e log IH]; intros k; simpl; [done|]. by rewrite IH. Qed.

Lemma numbered_elem k log e : e ∈ log -> exists ver, (ver, e) ∈ numbered k log.
Proof.
  intros He. rewrite <- (numbered_snd k log) in He. apply list_elem_of_fmap in He as ([ver e'] & -> & Hin). by exists ver.
Qed.

Lemma numbered_elem_inv k log ver e : (ver, e) ∈ numbered k log -> e ∈ log.
Proof. intros He. rewrite <- (numbered_snd k log). by apply (list_elem_of_fmap_2 snd) in He. Qed.

Lemma length_numbered k log : length (numbered k log) = length log.
Proof. rewrite <- (numbered_snd k log) at 2. by rewrite length_fmap. Qed.

(** Rehydration of an account with a gap-free history. *)
Lemma rehydrate_ledger (w : W) b hist log :
  ring_ok hist b -> ledger_of (db w) (tenantID b) (uid b) log ->
  exists w' b' err hist' (k : nat),
    rehydrate w b = Some (w', (b', err)) /\ db w' = db w /\ ring_ok hist' b' /\
    tenantID b' = tenantID b /\ uid b' = uid b /\ eventCount b' = eventCount b /\
    (snapshot_of (db w) (tenantID b) (uid b)).2 = Z.of_nat k /\
    (reliable w -> err = None) /\
    (err = None -> version b' = Z.of_nat (length log) /\ balance b' = total log /\
       (forall e, e ∈ drop k log -> tx_id e ∈ txCache b') /\
       forall x, x ∈ hist' -> x ∈ hist \/ x ∈ tx_id <$> log).
Proof.
  intros R L. destruct (snapshot_after _ _ _ _ (lo_rows _ _ _ _ L) (lo_snapshot _ _ _ _ L)) as (k & Hk & Hsnap & Hrows).
  destruct L as [_ _ Hg Hlen].
  pose proof (rehydrate_run w b hist R) as Hrun.
  pose proof (fun Rel => rehydrate_reliable w b hist Rel R) as Hrel.
  rewrite Hsnap in *. cbv zeta beta iota in Hrun, Hrel. rewrite Hrows in *.
  rewrite length_numbered, numbered_snd, length_drop in Hrun.
  pose proof (Hg k). pose proof (good_total log Hg).
  destruct Hrun as (w' & b' & err & h' & E & Hdb & R' & HT & HU & HE & Hok); [go_arith..|].
  exists w', b', err, h', k. split_and!; try done.
  - intros Rel. destruct (Hrel Rel) as (b2 & err2 & E2 & Hiff & _);
      [rewrite ?length_numbered, ?length_drop; go_arith..|].
    rewrite E in E2. simplify_eq. apply Hiff. by rewrite numbered_snd.
  - intros Herr. destruct (Hok Herr) as (_ & -> & -> & Hin & Hh). split_and!; [lia| |done|].
    + rewrite total_take_drop. apply i64_id. go_arith.
    + intros x Hx. destruct (Hh x Hx) as [|Hd]; [by left|right].
      apply list_elem_of_fmap in Hd as (e & -> & He). apply list_elem_of_fmap_2.
      rewrite <- (take_drop k log). apply elem_of_app. by right.
Qed.
End Rehydrate.

(** ** Transactions *)

(** The actor in memory and its account in the store: the store holds the history
    [log] the actor knows and at most one more row [ph], left by a write whose
    error hid that it took effect. *)
Record coherent (d : tables) (b : BusinessActor) (log ph : list wallet_event) : Prop := {
  co_rows : rows_of d (tenantID b) (uid b) = numbered 0 (log ++ ph);
  co_ph : (length ph <= 1)%nat;
  co_good : good_log (log ++ ph);
  co_snapshot : snapshot_ok d (tenantID b) (uid b) log;
  co_version : version b = Z.of_nat (length log);
  co_balance : balance b = total log;
  co_ring : exists hist, ring_ok hist b /\ forall x, x ∈ hist -> x ∈ tx_id <$> log;
  co_count : 0 <= eventCount b < snapshotThreshold;
}.

(** What a transaction of [amount] means for a ledger, as a result for the client
    and the history after it. *)
Inductive tx_outcome (now : Z) (b : BusinessActor) (log ph : list wallet_event) (env : RemoteEnvelope) :
    RemoteResult -> list wallet_event -> list wallet_event -> list Statement -> Prop :=
  | out_duplicate :
      EnvTxId env ∈ txCache b ->
      tx_outcome now b log ph env (reply b env true "" "" []) log ph []
  | out_payload :
      EnvTxId env ∉ txCache b -> (length (EnvPayload env) < 8)%nat ->
      tx_outcome now b log ph env
        (reply b env false ErrInvalidPayload "payload must be 8 bytes (int64 big-endian)" []) log ph []
  | out_refused raw :
      EnvTxId env ∉ txCache b -> BigEndian_Uint64 (EnvPayload env) = Some raw ->
      ~ (0 <= total log + i64 raw < 2 ^ 63) ->
      tx_outcome now b log ph env
        (reply b env false ErrInsufficientFunds "balance cannot be negative" []) log ph []
  | out_failed raw err ph' :
      EnvTxId env ∉ txCache b -> BigEndian_Uint64 (EnvPayload env) = Some raw ->
      0 <= total log + i64 raw < 2 ^ 63 ->
      ph' = ph \/ ph' = [mkEvent now (EnvTxId env) (i64 raw) (EnvPayload env)] ->
      tx_outcome now b log ph env (reply b env false ErrPersistenceFailed err []) log ph' []
  | out_committed raw spawned log' :
      EnvTxId env ∉ txCache b -> BigEndian_Uint64 (EnvPayload env) = Some raw ->
      0 <= total log + i64 raw < 2 ^ 63 ->
      log' = log ++ [mkEvent now (EnvTxId env) (i64 raw) (EnvPayload env)] ->
      spawned = [] \/
        spawned = [snapshot_stmt (tenantID b) (uid b) (total log') (Z.of_nat (length log'))] ->
      tx_outcome now b log ph env
        (reply b env true "" "" (BigEndian_PutUint64 (total log'))) log' [] spawned.

(** The wrapped sum is non-negative exactly when the true sum is a balance. *)
Lemma new_balance_ok b a :
  0 <= b < 2 ^ 63 -> is_i64 a ->
  (i64 (b + a) < 0 <-> ~ (0 <= b + a < 2 ^ 63)) /\ (0 <= b + a < 2 ^ 63 -> i64 (b + a) = b + a).
Proof.
  intros Hb Ha. assert (0 <= b + a < 2 ^ 63 -> i64 (b + a) = b + a) as Hid.
  { intros. apply i64_id. go_arith. }
  split; [|done]. split.
  - intros Hneg Hr. rewrite (Hid Hr) in Hneg. lia.
  - intros Hr. destruct (decide (b + a < 0)).
    + rewrite i64_id; go_arith.
    + rewrite (i64_congr _ (b + a - 2 ^ 64) 1) by lia. rewrite i64_id; go_arith.
Qed.

Lemma good_app_l log ph : good_log (log ++ ph) -> good_log log.
Proof.
  intros Hg k. destruct (decide (k <= length log)%nat).
  - specialize (Hg k). by rewrite take_app_le in Hg.
  - specialize (Hg (length log)). rewrite take_app_le, take_ge in Hg by done.
    by rewrite take_ge by lia.
Qed.

Lemma rows_put_event d t u v e : rows_of (put_event t u v e d) t u = upsert v e (rows_of d t u).
Proof. unfold rows_of, put_event. simpl. by rewrite lookup_insert_eq. Qed.

(** Nothing but the account is touched. *)
Definition frame (t u : Z) (d d' : tables) : Prop :=
  wallet_snapshots d' = wallet_snapshots d /\
  forall k, k <> (t, u) -> wallet_events d' !! k = wallet_events d !! k.

Lemma frame_refl t u d : frame t u d d.
Proof. done. Qed.

Lemma frame_put_event t u v e d : frame t u d (put_event t u v e d).
Proof. split; [done|]. intros k Hk. simpl. by rewrite lookup_insert_ne. Qed.

Section HandleSpec.
Context {W : Type} `{WalletDB W}.

(** A field the store does not depend on changes. *)
Lemma coherent_touch d b log ph now :
  coherent d b log ph -> coherent d (b <| lastActive := now |>) log ph.
Proof.
  intros [? ? ? ? ? ? (hist & [] & ?) ?]. constructor; simpl; try done. exists hist.
  split; [by constructor|done].
Qed.

(** The write of [Handle], by its outcome. *)
Lemma handle_write (w : W) b log ph e w' err :
  coherent (db w) b log ph -> 0 <= total log + delta_amount e < 2 ^ 63 ->
  ExecuteBatch w UnloggedBatch [event_stmt (tenantID b) (uid b) (Z.of_nat (length log) + 1) e] = (w', err) ->
  frame (tenantID b) (uid b) (db w) (db w') /\
  exists ph', (ph' = ph /\ is_Some err \/ ph' = [e]) /\ (length ph' <= 1)%nat /\
    good_log (log ++ ph') /\ rows_of (db w') (tenantID b) (uid b) = numbered 0 (log ++ ph').
Proof.
  intros [Hrows Hph Hgood Hsnap Hver Hbal Hring Hcnt] He Ex.
  destruct (db_insert _ _ _ _ _ _ (ins_event _ _ _ _) Ex) as [-> | [-> Herr]].
  - split; [apply frame_put_event|]. exists [e]. split; [by right|]. split; [done|]. split.
    + apply good_snoc; [by eapply good_app_l|done].
    + by rewrite rows_put_event, Hrows, upsert_numbered.
  - split; [apply frame_refl|]. exists ph. by split; [left|].
Qed.

Lemma coherent_write d d' b log ph ph' :
  coherent d b log ph -> frame (tenantID b) (uid b) d d' ->
  (length ph' <= 1)%nat -> good_log (log ++ ph') ->
  rows_of d' (tenantID b) (uid b) = numbered 0 (log ++ ph') -> coherent d' b log ph'.
Proof.
  intros [? ? ? Hsnap ? ? ? ?] [Hf _] ? ? ?. constructor; try done. unfold snapshot_ok. by rewrite Hf.
Qed.

(** After the write: the actor follows. *)
Lemma handle_commit d b log e env :
  coherent d b log [e] -> Z.of_nat (length log) + 1 < 2 ^ 63 -> tx_id e = EnvTxId env ->
  EnvTxId env ∉ txCache b ->
  exists b1, addTxID (EnvTxId env)
      (b <| balance := total log + delta_amount e |> <| version := Z.of_nat (length log) + 1 |>) = Some b1 /\
    tenantID b1 = tenantID b /\ uid b1 = uid b /\ eventCount b1 = eventCount b /\
    EnvTxId env ∈ txCache b1 /\
    forall c, 0 <= c < snapshotThreshold -> coherent d (b1 <| eventCount := c |>) (log ++ [e]) [].
Proof.
  intros [Hrows Hph Hgood Hsnap Hver Hbal (hist & R & Hseen) Hcnt] Hlen Htx Hnew.
  destruct (addTxID_ok hist
    (b <| balance := total log + delta_amount e |> <| version := Z.of_nat (length log) + 1 |>)
    (EnvTxId env)) as (b1 & -> & R1 & (T1 & U1 & B1 & V1 & E1 & L1) & Hin); [by destruct R|done|].
  simpl in *. exists b1. split_and!; try done. intros c Hc. constructor; simpl; rewrite ?T1, ?U1.
  - by rewrite app_nil_r.
  - lia.
  - by rewrite app_nil_r.
  - intros bal v Hs. apply prefix_snapshot_app. by apply Hsnap.
  - rewrite V1, length_app. simpl. lia.
  - rewrite B1, total_app. change (total [e]) with (delta_amount e + 0). lia.
  - exists (EnvTxId env :: hist). split; [by destruct R1|]. rewrite fmap_app, <- Htx.
    intros x [->|Hx]%elem_of_cons; apply elem_of_app; [right; by left|left; auto].
  - done.
Qed.

(** What is promised of a call that leaves [h], the history [log'] and [ph']. *)
Definition handled_well (now : Z) (w : W) (b : BusinessActor) (log ph : list wallet_event)
    (env : RemoteEnvelope) (h : handled_tx W) (log' ph' : list wallet_event) : Prop :=
  tx_outcome now b log ph env (h_result h) log' ph' (h_spawned h) /\
  coherent (db (h_world h)) (h_actor h) log' ph' /\
  frame (tenantID b) (uid b) (db w) (db (h_world h)) /\
  tenantID (h_actor h) = tenantID b /\ uid (h_actor h) = uid b /\
  (ResSuccess (h_result h) = true -> EnvTxId env ∈ txCache (h_actor h)).

Lemma tx_outcome_touch now t b log ph env r log' ph' sp :
  tx_outcome now (b <| lastActive := t |>) log ph env r log' ph' sp ->
  tx_outcome now b log ph env r log' ph' sp.
Proof.
  intros [A|A B|raw A B C|raw err ph1 A B C D|raw sp1 log1 A B C D E].
  - exact (out_duplicate now b log ph env A).
  - exact (out_payload now b log ph env A B).
  - exact (out_refused now b log ph env raw A B C).
  - exact (out_failed now b log ph env raw err ph1 A B C D).
  - exact (out_committed now b log ph env raw sp1 log1 A B C D E).
Qed.

(** The snapshot and the payload are those of the new history. *)
Lemma handle_reply b b2 env log e :
  coherent (db (W := W) b) b2 (log ++ [e]) [] ->
  reply b2 env true "" "" (encodeBalance b2) =
    reply b2 env true "" "" (BigEndian_PutUint64 (total (log ++ [e]))) /\
  takeSnapshotAsync b2 =
    snapshot_stmt (tenantID b2) (uid b2) (total (log ++ [e])) (Z.of_nat (length (log ++ [e]))).
Proof.
  intros Hfin. pose proof (good_total _ (good_app_l _ _ (co_good _ _ _ _ Hfin))).
  unfold encodeBalance, takeSnapshotAsync.
  rewrite (co_balance _ _ _ _ Hfin), (co_version _ _ _ _ Hfin). split; [|done].
  rewrite u64_id; [done|go_arith].
Qed.

Lemma commit_refines (w : W) now b log ph env raw :
  coherent (db w) b log ph -> Z.of_nat (length log) + 1 < 2 ^ 63 ->
  EnvTxId env ∉ txCache b -> BigEndian_Uint64 (EnvPayload env) = Some raw ->
  0 <= total log + i64 raw < 2 ^ 63 ->
  exists h log' ph', commit_tx now w b env (i64 raw) (total log + i64 raw) = Some h /\
    handled_well now w b log ph env h log' ph'.
Proof.
  intros Hco Hlen Hnew Hraw Hrange. unfold commit_tx, handled_well.
  rewrite (co_version _ _ _ _ Hco), (i64_id (Z.of_nat (length log) + 1)) by go_arith.
  set (e := mkEvent now (EnvTxId env) (i64 raw) (EnvPayload env)).
  destruct (ExecuteBatch _ _ _) as [w' err] eqn:Ex.
  destruct (handle_write w b log ph e w' err Hco Hrange Ex)
    as (Hframe & ph' & Hcase & Hlen' & Hgood' & Hrows').
  pose proof (coherent_write _ _ _ _ _ _ Hco Hframe Hlen' Hgood' Hrows') as Hco'.
  destruct err as [err|].
  { eexists _, log, ph'. split; [reflexivity|]. cbn. split_and!; try done.
    eapply out_failed; eauto. destruct Hcase as [[-> _]| ->]; auto. }
  destruct Hcase as [[_ [? [=]]]| ->].
  destruct (handle_commit _ _ _ _ env Hco' Hlen eq_refl Hnew) as (b1 & Eadd & T1 & U1 & E1 & Hin & Hfin).
  change (delta_amount e) with (i64 raw) in Eadd. rewrite Eadd. cbn [mbind option_bind].
  pose proof (co_count _ _ _ _ Hco) as Hc.
  rewrite E1, (i64_id (eventCount b + 1)) by (unfold snapshotThreshold in *; go_arith).
  set (c := if bool_decide (snapshotThreshold <= eventCount b + 1) then 0 else eventCount b + 1).
  assert (0 <= c < snapshotThreshold) as Hc2.
  { unfold c. case_bool_decide; unfold snapshotThreshold in *; lia. }
  specialize (Hfin c Hc2). clearbody c.
  destruct (handle_reply _ _ env _ _ Hfin) as [-> ->].
  eexists _, (log ++ [e]), []. split; [reflexivity|]. cbn. rewrite T1, U1. split_and!; try done.
  replace (reply (b1 <| eventCount := c |>)) with (reply b) by (unfold reply; cbn; by rewrite T1, U1).
  eapply out_committed; eauto. case_bool_decide; auto.
Qed.

Lemma handle_refines (w : W) now b log ph env :
  coherent (db w) b log ph -> Z.of_nat (length log) + 1 < 2 ^ 63 ->
  exists h log' ph', Handle now w b env = Some h /\ handled_well now w b log ph env h log' ph'.
Proof.
  intros Hco Hlen. apply (coherent_touch _ _ _ _ now) in Hco.
  enough (exists h log' ph', Handle now w b env = Some h /\
            handled_well now w (b <| lastActive := now |>) log ph env h log' ph')
    as (h & log' & ph' & E & Hout & Hrest).
  { exists h, log', ph'. split; [done|]. split; [by eapply tx_outcome_touch|done]. }
  unfold Handle. generalize dependent (b <| lastActive := now |>). clear b. intros b Hco.
  case_decide as Hdup.
  { eexists _, log, ph. split; [reflexivity|]. split_and!; try done. by apply out_duplicate. }
  case_decide as Hpay.
  { eexists _, log, ph. split; [reflexivity|]. split_and!; try done. by apply out_payload. }
  destruct (BigEndian_Uint64_Some (EnvPayload env) ltac:(lia)) as [raw Hraw]. rewrite Hraw.
  cbn [mbind option_bind].
  pose proof (good_total _ (good_app_l _ _ (co_good _ _ _ _ Hco))) as Htot.
  rewrite (co_balance _ _ _ _ Hco).
  destruct (new_balance_ok (total log) (i64 raw) Htot (i64_range _)) as [Hneg Hpos].
  case_decide as Hb.
  { eexists _, log, ph. split; [reflexivity|]. split_and!; try done. eapply out_refused; [done|done|by apply Hneg]. }
  assert (0 <= total log + i64 raw < 2 ^ 63) as Hrange
    by (destruct (decide (0 <= total log + i64 raw < 2 ^ 63)); tauto).
  rewrite (Hpos Hrange). by apply commit_refines.
Qed.
End HandleSpec.
