(* ===== verification/WalletTypes.v ===== *)
(** * The wallet actor is well typed

    The Go types of [BusinessActor] (int32, int64, int, an array of 1000 ids with its
    cursor) as value ranges, and type soundness of internal/node/actor.go: a typed
    actor never panics, whatever the envelope, the store and its faults, and every
    method leaves a typed actor and a typed result. *)

From S2P Require Import Prelude Wire Mailbox Store Wallet WalletSpec.

Record actor_typed (b : BusinessActor) : Prop := {
  ty_tenant : is_i32 (tenantID b);
  ty_uid : is_i64 (uid b);
  ty_balance : is_i64 (balance b);
  ty_version : is_i64 (version b);
  ty_eventCount : is_i64 (eventCount b);
  ty_lastActive : is_i64 (lastActive b);
  ty_ring : length (txRing b) = Z.to_nat txCacheSize;
  ty_cursor : 0 <= txCursor b < txCacheSize;
}.

Definition result_typed (r : RemoteResult) : Prop :=
  is_i32 (ResTenantId r) /\ is_i64 (ResUid r) /\ is_u64 (ResRequestId r) /\ is_i32 (ResOpCode r) /\
  (ResPayload r = [] \/ length (ResPayload r) = 8%nat).

(** What the tables hold for an account fits the columns: bigint. *)
Definition snapshot_typed (d : tables) (t u : Z) : Prop :=
  forall b v, wallet_snapshots d !! (t, u) = Some (b, v) -> is_i64 b /\ is_i64 v.

Lemma newBusinessActor_typed t u now :
  is_i32 t -> is_i64 u -> is_i64 now -> actor_typed (newBusinessActor t u now).
Proof. intros. by constructor. Qed.

Lemma cursor_typed c : 0 <= c < txCacheSize -> 0 <= Z.rem (i64 (c + 1)) txCacheSize < txCacheSize.
Proof.
  intros Hc. rewrite cursor_next by done. apply Z.mod_pos_bound. by rewrite txCacheSize_eq.
Qed.

(** The ring operations, from the types alone. *)
Lemma ring_ops_typed b tx : actor_typed b ->
  (exists b', addTxID tx b = Some b' /\ actor_typed b') /\ (exists b', seedTxID tx b = Some b' /\ actor_typed b').
Proof.
  intros [Ht Hu Hb Hv He Hl Hr Hc].
  assert (go_update (txRing b) (txCursor b) tx = Some (<[Z.to_nat (txCursor b) := tx]> (txRing b))) as Hup.
  { apply go_update_Some. rewrite Hr. lia. }
  destruct (go_index_Some (txRing b) (txCursor b)) as [old Hold]; [rewrite Hr; lia|].
  pose proof (cursor_typed _ Hc) as Hc'. unfold addTxID, seedTxID. rewrite Hold, Hup.
  split; [|case_decide]; eexists; (split; [reflexivity|]); constructor; simpl; try done; by rewrite length_insert.
Qed.

Lemma scan_events_typed rows prev bal b :
  is_i64 prev -> is_i64 bal -> actor_typed b ->
  exists prev' bal' b', (scan_events rows (Some (prev, bal, b))).1 = Some (prev', bal', b') /\
    is_i64 prev' /\ is_i64 bal' /\ actor_typed b'.
Proof.
  revert prev bal b. induction rows as [|r rows IH]; intros prev bal b Hp Hb Ht; cbn [scan_events].
  { by eexists _, _, _. }
  repeat case_match; try (by eexists _, _, _). subst.
  destruct (proj2 (ring_ops_typed b s Ht)) as (b1 & -> & Ht1). cbn [mbind option_bind].
  apply IH; [apply i64_range|apply i64_range|done].
Qed.

Section Typed.
Context {W : Type} `{WalletDB W}.

Lemma rehydrate_typed (w : W) b :
  snapshot_typed (db w) (tenantID b) (uid b) -> actor_typed b ->
  exists w' b' err, rehydrate w b = Some (w', (b', err)) /\ actor_typed b'.
Proof.
  intros Hs Ht. unfold rehydrate. destruct (Query w snapCQL _ _ _) as [w1 [[sb lv] err1]] eqn:Eq1.
  destruct (db_select _ _ _ _ _ _ _ _ _ (sel_snapshot _ _) Eq1) as (_ & got & closed & [Hpre _] & Hst & _).
  assert (is_i64 sb /\ is_i64 lv) as [Hsb Hlv].
  { unfold select_snapshot in Hpre. simpl in Hst. destruct (wallet_snapshots _ !! _) as [[b0 v0]|] eqn:E.
    - destruct got as [|r [|r2 got]].
      + simpl in Hst. by injection Hst as -> ->.
      + apply prefix_cons_inv_1 in Hpre as ->. injection Hst as -> ->. by eapply Hs.
      + apply prefix_length in Hpre. simpl in Hpre. lia.
    - apply prefix_nil_inv in Hpre as ->. by injection Hst as -> ->. }
  destruct err1 as [e|]; [by eexists _, _, _|].
  destruct (Query w1 eventCQL _ _ _) as [w2 [st err2]] eqn:Eq2.
  destruct (db_select _ _ _ _ _ _ _ _ _ (sel_events _ _ _) Eq2) as (_ & got2 & closed2 & _ & Hst2 & _).
  destruct (scan_events_typed got2 lv sb b Hlv Hsb Ht) as (pv & bal & b1 & E & Hpv & Hbal & Ht1).
  rewrite Hst2, E. cbn [mbind option_bind]. destruct err2; eexists _, _, _; (split; [reflexivity|]); [done|].
  destruct Ht1. by constructor.
Qed.

Lemma reply_typed b env ok code msg payload :
  actor_typed b -> envelope_typed env -> payload = [] \/ length payload = 8%nat ->
  result_typed (reply b env ok code msg payload).
Proof. intros [] (_ & _ & ? & ? & _) ?. by split_and!. Qed.

Lemma Handle_typed (w : W) now b env :
  actor_typed b -> is_i64 now -> envelope_typed env ->
  exists h, Handle now w b env = Some h /\ actor_typed (h_actor h) /\ result_typed (h_result h).
Proof.
  intros Ht Hn He. unfold Handle. assert (actor_typed (b <| lastActive := now |>)) as Ht1 by by destruct Ht.
  revert Ht1. generalize (b <| lastActive := now |>). clear b Ht. intros b Ht.
  case_decide; [eexists; split_and!; [reflexivity|done|]; apply reply_typed; auto|].
  case_decide as Hlen; [eexists; split_and!; [reflexivity|done|]; apply reply_typed; auto|].
  destruct (BigEndian_Uint64_Some (EnvPayload env)) as [raw ->]; [lia|]. cbn [mbind option_bind].
  case_decide; [eexists; split_and!; [reflexivity|done|]; apply reply_typed; auto|].
  unfold commit_tx. destruct (ExecuteBatch _ _ _) as [w' [err|]].
  { eexists; split_and!; [reflexivity|done|]. apply reply_typed; auto. }
  match goal with |- context [addTxID ?tx ?b0] =>
    destruct (proj1 (ring_ops_typed b0 tx ltac:(destruct Ht; constructor; simpl; try done; apply i64_range)))
      as (b1 & -> & Ht1) end.
  cbn [mbind option_bind]. eexists. split; [reflexivity|]. cbn [h_actor h_result].
  match goal with |- actor_typed ?b2 /\ _ => assert (actor_typed b2) as Ht2 end.
  { destruct Ht1. constructor; simpl; try done. case_match; [done|]. apply i64_range. }
  split; [done|]. apply reply_typed; [done|done|right; apply length_PutUint64].
Qed.

(** A sequence of calls on a fresh actor: the envelopes with the clock of each call. *)
Fixpoint serve_all (w : W) (b : BusinessActor) (calls : list (Z * RemoteEnvelope)) :
    option (W * BusinessActor * list RemoteResult) :=
  match calls with
  | [] => Some (w, b, [])
  | (now, env) :: rest =>
      h ← Handle now w b env;
      '(w', b', rs) ← serve_all (h_world h) (h_actor h) rest;
      Some (w', b', h_result h :: rs)
  end.

Lemma serve_all_typed calls (w : W) b :
  actor_typed b -> Forall (fun c => is_i64 c.1 /\ envelope_typed c.2) calls ->
  exists w' b' rs, serve_all w b calls = Some (w', b', rs) /\ actor_typed b' /\
    Forall result_typed rs /\ length rs = length calls.
Proof.
  intros Ht Hc. revert w b Ht. induction Hc as [|[now env] calls [Hn He] _ IH]; intros w b Ht; simpl.
  { eexists _, _, _. split_and!; [reflexivity|done|constructor|done]. }
  destruct (Handle_typed w now b env Ht Hn He) as (h & -> & Ht1 & Hr). cbn [mbind option_bind].
  destruct (IH (h_world h) (h_actor h) Ht1) as (w' & b' & rs & -> & Ht' & Hrs & Hl). cbn [mbind option_bind].
  eexists _, _, _. split_and!; [reflexivity|done|by constructor|simpl; by rewrite Hl].
Qed.
End Typed.

(** ** Type soundness *)

(** C15: type soundness of the wallet actor.  An actor created for a well-typed account
    and rehydrated from any store whose snapshot fits its columns, whether the reads
    fail or not, is well typed (all integers in the range of their Go type, the ring
    of 1000 ids with its cursor inside); and it then answers any sequence of
    well-typed envelopes, whatever their payloads and whatever the store answers,
    without an index or slice panic, with one well-typed result each. *)
Theorem wallet_type_soundness {W} `{WalletDB W} (w : W) (t u now : Z) (calls : list (Z * RemoteEnvelope)) :
  is_i32 t -> is_i64 u -> is_i64 now -> snapshot_typed (db w) t u ->
  Forall (fun c => is_i64 c.1 /\ envelope_typed c.2) calls ->
  exists w1 b1 err, rehydrate w (newBusinessActor t u now) = Some (w1, (b1, err)) /\ actor_typed b1 /\
    exists w2 b2 rs, serve_all w1 b1 calls = Some (w2, b2, rs) /\ actor_typed b2 /\
      Forall result_typed rs /\ length rs = length calls.
Proof.
  intros Ht Hu Hn Hs Hc.
  destruct (rehydrate_typed w (newBusinessActor t u now) Hs (newBusinessActor_typed t u now Ht Hu Hn))
    as (w1 & b1 & err & E & Ht1).
  exists w1, b1, err. split_and!; [done..|]. by apply serve_all_typed.
Qed.

Definition typed_demo : CassandraStore MemSession := mkCassandraStore (mkMem (mkTables ∅ {[(1, 7) := (100, 1)]}) []) 0 0.

Lemma wallet_type_soundness_witness :
  exists w1 b1 w2 b2 rs, serve_all (W := CassandraStore MemSession) w1 b1
      [(5, mkEnvelope 1 7 "a" 1 1 [] 0); (6, mkEnvelope 1 7 "b" 2 1 (BigEndian_PutUint64 3) 0)] = Some (w2, b2, rs) /\
    length rs = 2%nat /\ Forall result_typed rs.
Proof.
  destruct (wallet_type_soundness typed_demo 1 7 3
    [(5, mkEnvelope 1 7 "a" 1 1 [] 0); (6, mkEnvelope 1 7 "b" 2 1 (BigEndian_PutUint64 3) 0)])
    as (w1 & b1 & err & _ & _ & w2 & b2 & rs & E & _ & Hrs & Hl).
  - go_decide.
  - go_decide.
  - go_decide.
  - intros b v Hbv. change (({[(1, 7) := (100, 1)]} : gmap (Z * Z) (Z * Z)) !! (1, 7) = Some (b, v)) in Hbv.
    rewrite lookup_singleton_eq in Hbv. injection Hbv as <- <-. split; go_decide.
  - go_decide.
  - exists w1, b1, w2, b2, rs. split; [exact E|]. split; [exact Hl|exact Hrs].
Defined.
