(* ===== verification/WalletSystem.v ===== *)
(** * One account over time

    The life of one account of internal/node/actor.go: actors that come and go
    (passivation, eviction, crash), transactions, asynchronous snapshots that are
    executed late, out of order or never, store calls that fail with or without
    effect, and writes of other accounts; with the theorems about the wallet. *)

From S2P Require Import Prelude Wire Mailbox Store Wallet WalletSpec.

Record wsys (W : Type) := mkSys {
  ws_world : W;
  ws_actor : option BusinessActor;
  ws_goroutines : list Statement;        (* snapshot goroutines still to run *)
  ws_acked : list (string * Z);          (* history: transactions reported as executed *)
}.
Arguments mkSys {W}.
Arguments ws_world {W} w : rename.
Arguments ws_actor {W} w : rename.
Arguments ws_goroutines {W} w : rename.
Arguments ws_acked {W} w : rename.
#[export] Instance wsys_Eta W : Eta (wsys W) := fun s =>
  mkSys (ws_world s) (ws_actor s) (ws_goroutines s) (ws_acked s).

(** The amount a payload asks for. *)
Definition amount_of (env : RemoteEnvelope) : Z := i64 (default 0 (BigEndian_Uint64 (EnvPayload env))).

(** The transaction that a result reports as executed by this call. *)
Definition acks (b : BusinessActor) (env : RemoteEnvelope) (r : RemoteResult) : list (string * Z) :=
  if decide (EnvTxId env ∈ txCache b) then []
  else if ResSuccess r then [(EnvTxId env, amount_of env)] else [].

Section System.
Context {W : Type} `{WalletDB W} (t u : Z).
Implicit Types s : wsys W.

Inductive wstep s : wsys W -> Prop :=
  | w_start now w' b' :
      ws_actor s = None -> rehydrate (ws_world s) (newBusinessActor t u now) = Some (w', (b', None)) ->
      wstep s (s <| ws_world := w' |> <| ws_actor := Some b' |>)
  | w_start_failed now w' b' e :
      ws_actor s = None -> rehydrate (ws_world s) (newBusinessActor t u now) = Some (w', (b', Some e)) ->
      wstep s (s <| ws_world := w' |>)
  | w_handle now b env h :
      ws_actor s = Some b -> Handle now (ws_world s) b env = Some h ->
      wstep s (mkSys (h_world h) (Some (h_actor h)) (ws_goroutines s ++ h_spawned h)
                 (ws_acked s ++ acks b env (h_result h)))
  | w_snapshot_sync b :
      ws_actor s = Some b -> wstep s (s <| ws_world := takeSnapshotSync (ws_world s) b |>)
  | w_snapshot gs1 stmt gs2 :
      ws_goroutines s = gs1 ++ stmt :: gs2 ->
      wstep s (s <| ws_world := (ExecuteBatch (ws_world s) UnloggedBatch [stmt]).1 |>
                 <| ws_goroutines := gs1 ++ gs2 |>)
  | w_lost gs1 stmt gs2 :
      ws_goroutines s = gs1 ++ stmt :: gs2 -> wstep s (s <| ws_goroutines := gs1 ++ gs2 |>)
  | w_gone : wstep s (s <| ws_actor := None |>)
  | w_other w' :
      rows_of (db w') t u = rows_of (db (ws_world s)) t u ->
      wallet_snapshots (db w') !! (t, u) = wallet_snapshots (db (ws_world s)) !! (t, u) ->
      wstep s (s <| ws_world := w' |>).

Definition tx_of (e : wallet_event) : string * Z := (tx_id e, delta_amount e).

(** [log]: the history of the account; [ph]: a row the actor does not know of. *)
Record winv (n : nat) s (log ph : list wallet_event) : Prop := {
  wi_rows : rows_of (db (ws_world s)) t u = numbered 0 (log ++ ph);
  wi_ph : (length ph <= 1)%nat;
  wi_good : good_log (log ++ ph);
  wi_snapshot : snapshot_ok (db (ws_world s)) t u log;
  wi_goroutines : Forall (fun stmt => exists b v, prefix_snapshot log b v /\ stmt = snapshot_stmt t u b v)
                    (ws_goroutines s);
  wi_acked : ws_acked s `sublist_of` (tx_of <$> log);
  wi_length : (length (log ++ ph) <= n)%nat;
  wi_actor : match ws_actor s with
             | None => ph = []
             | Some b => tenantID b = t /\ uid b = u /\ coherent (db (ws_world s)) b log ph
             end;
}.

(** A write of a valid snapshot keeps everything. *)
Lemma snapshot_write d d' log b v err :
  prefix_snapshot log b v -> snapshot_ok d t u log -> wrote d (put_snapshot t u b v) d' err ->
  rows_of d' t u = rows_of d t u /\ snapshot_ok d' t u log.
Proof.
  intros Hp Hs [-> | [-> _]]; [|done]. split; [done|]. intros b' v'. simpl.
  rewrite lookup_insert_eq. by intros [= <- <-].
Qed.

(** The actor's own balance and version are a valid snapshot. *)
Lemma coherent_prefix d b log ph : coherent d b log ph -> prefix_snapshot log (balance b) (version b).
Proof. intros [? ? ? ? -> -> ? ?]. apply prefix_snapshot_full. Qed.

Lemma coherent_rows d d' b log ph :
  coherent d b log ph -> rows_of d' (tenantID b) (uid b) = rows_of d (tenantID b) (uid b) ->
  snapshot_ok d' (tenantID b) (uid b) log -> coherent d' b log ph.
Proof. intros [] Hr Hs. constructor; try done. by rewrite Hr. Qed.

(** The store changes, the account does not (but for its snapshot). *)
Lemma winv_world n s log ph w' :
  winv n s log ph -> rows_of (db w') t u = rows_of (db (ws_world s)) t u ->
  snapshot_ok (db w') t u log -> winv n (s <| ws_world := w' |>) log ph.
Proof.
  intros [] Hr Hs. constructor; simpl; try done; [by rewrite Hr|].
  destruct (ws_actor s) as [b|]; [|done]. destruct wi_actor0 as (<- & <- & Hco).
  split_and!; try done. by eapply coherent_rows.
Qed.

Lemma winv_goroutines n s log ph gs :
  winv n s log ph -> Forall (fun stmt => stmt ∈ ws_goroutines s) gs ->
  winv n (s <| ws_goroutines := gs |>) log ph.
Proof.
  intros [] Hin. constructor; simpl; try done.
  rewrite list.Forall_forall in *. intros stmt Hg. apply wi_goroutines0. by apply Hin.
Qed.

Lemma winv_gone n s log ph : winv n s log ph -> winv n (s <| ws_actor := None |>) (log ++ ph) [].
Proof.
  intros []. constructor; simpl; rewrite ?app_nil_r; try done; try lia.
  - intros b v Hs. by apply prefix_snapshot_app, wi_snapshot0.
  - eapply list.Forall_impl; [done|]. intros stmt (b & v & Hp & ->).
    exists b, v. split; [by apply prefix_snapshot_app|done].
  - rewrite fmap_app. by apply sublist_inserts_r.
Qed.

Lemma winv_start n s log w' b' now :
  winv n s log [] -> Z.of_nat n < 2 ^ 63 - 1 ->
  rehydrate (ws_world s) (newBusinessActor t u now) = Some (w', (b', None)) ->
  winv n (s <| ws_world := w' |> <| ws_actor := Some b' |>) log [].
Proof.
  intros I Hn E. pose proof I as []. rewrite app_nil_r in *.
  destruct (rehydrate_ledger (ws_world s) (newBusinessActor t u now) [] log
    (newBusinessActor_ring _ _ _)) as (w1 & b1 & err & hist & k & E1 & Hdb & R & HT & HU & HE & _ & _ & Hok).
  { constructor; try done. simpl. lia. }
  rewrite E in E1. simplify_eq. destruct (Hok eq_refl) as (Hv & Hb & _ & Hh). simpl in *.
  constructor; simpl; rewrite ?Hdb, ?app_nil_r; try done.
  split_and!; try done. constructor; simpl; rewrite ?HT, ?HU, ?HE, ?app_nil_r; try done.
  exists hist. split; [done|]. intros x Hx. by destruct (Hh x Hx) as [?%not_elem_of_nil|].
Qed.

Lemma winv_handle n s log ph b env now h :
  winv n s log ph -> Z.of_nat n + 1 < 2 ^ 63 ->
  ws_actor s = Some b -> Handle now (ws_world s) b env = Some h ->
  exists log' ph', winv (S n)
    (mkSys (h_world h) (Some (h_actor h)) (ws_goroutines s ++ h_spawned h)
       (ws_acked s ++ acks b env (h_result h))) log' ph' /\
    log `prefix_of` log' /\ (ResSuccess (h_result h) = true -> EnvTxId env ∈ tx_id <$> log') /\
    frame t u (db (ws_world s)) (db (h_world h)).
Proof.
  intros I Hn Hb E. pose proof I as []. rewrite Hb in *. destruct wi_actor0 as (HT & HU & Hco).
  rewrite length_app in wi_length0.
  destruct (handle_refines (ws_world s) now b log ph env Hco) as (h1 & log' & ph' & E1 & Hw); [lia|].
  rewrite E in E1. injection E1 as <-. destruct Hw as (Hout & Hco' & Hfr & HT' & HU' & Hin).
  rewrite HT, HU in *. exists log', ph'. pose proof Hco' as [Hrows Hph Hgood Hsnap _ _ (hist & Rh & Hseen) _].
  rewrite HT', HU' in *. split_and!; [|by inversion Hout; subst; auto using prefix_app_r
    |by intros Hs; apply Hseen, (ro_seen _ _ Rh), Hin|done]. constructor; simpl; try done.
  - clear E. inversion Hout; subst; rewrite ?app_nil_r; try done.
    all: apply Forall_app; split; [eapply list.Forall_impl; [done|]|];
      [intros stmt (b0 & v & Hp & ->); exists b0, v; split; [by apply prefix_snapshot_app|done]|].
    match goal with Hs : _ = [] \/ _ |- _ => destruct Hs as [-> | ->] end; [done|].
    apply Forall_singleton. rewrite HT, HU. eexists _, _. split; [apply prefix_snapshot_full|done].
  - unfold acks. clear E. inversion Hout; subst; simpl;
      first [rewrite decide_True by done | rewrite decide_False by done]; rewrite ?app_nil_r; try done.
    rewrite fmap_app. apply sublist_app; [done|]. unfold amount_of.
    match goal with Hr : BigEndian_Uint64 _ = Some _ |- _ => rewrite Hr end. done.
  - rewrite length_app. inversion Hout; subst; rewrite ?length_app; simpl; lia.
Qed.

Lemma wstep_winv n s s' log ph :
  winv n s log ph -> Z.of_nat n + 1 < 2 ^ 63 -> wstep s s' -> exists log' ph', winv (S n) s' log' ph'.
Proof.
  intros I Hn Hst.
  assert (forall s1 log1 ph1, winv n s1 log1 ph1 -> exists log' ph', winv (S n) s1 log' ph') as Hup.
  { intros s1 log1 ph1 []. exists log1, ph1. constructor; try done. lia. }
  destruct Hst as [now w' b' Ha E|now w' b' e Ha E|now b env h Ha E|b Ha|gs1 stmt gs2 Hg|gs1 stmt gs2 Hg| |w' Hr Hs].
  - pose proof (wi_actor _ _ _ _ I) as Hph. rewrite Ha in Hph. subst ph.
    eapply Hup, winv_start; [done|lia|done].
  - pose proof (wi_actor _ _ _ _ I) as Hph. rewrite Ha in Hph. subst ph.
    pose proof I as []. rewrite app_nil_r in *.
    destruct (rehydrate_ledger (ws_world s) (newBusinessActor t u now) [] log
      (newBusinessActor_ring _ _ _)) as (w1 & b1 & err & hist & k & E1 & Hdb & _).
    { constructor; try done. simpl. lia. }
    rewrite E in E1. simplify_eq. eapply Hup, winv_world; [done|by rewrite Hdb..].
  - destruct (winv_handle _ _ _ _ _ _ _ _ I Hn Ha E) as (log' & ph' & I' & _). eauto.
  - pose proof (wi_actor _ _ _ _ I) as Hact. rewrite Ha in Hact. destruct Hact as (HT & HU & Hco).
    apply (Hup _ log ph). unfold takeSnapshotSync. case_decide; [by destruct s|].
    destruct (ExecuteBatch _ _ _) as [w' err] eqn:E.
    apply (db_insert _ _ _ _ _ _ (ins_snapshot _ _ _ _)) in E. rewrite HT, HU in E.
    destruct (snapshot_write _ _ log _ _ _ (coherent_prefix _ _ _ _ Hco) (wi_snapshot _ _ _ _ I) E).
    by apply winv_world.
  - pose proof (wi_goroutines _ _ _ _ I) as Hgs. rewrite Hg in Hgs.
    apply Forall_app in Hgs as [Hg1 [(b & v & Hp & ->) Hg2]%list.Forall_cons].
    destruct (ExecuteBatch _ _ _) as [w' err] eqn:E.
    apply (db_insert _ _ _ _ _ _ (ins_snapshot _ _ _ _)) in E.
    destruct (snapshot_write _ _ log _ _ _ Hp (wi_snapshot _ _ _ _ I) E) as [Hr Hs].
    eapply Hup, (winv_goroutines n (s <| ws_world := w' |>)); [by apply winv_world|].
    simpl. rewrite Hg. apply list.Forall_forall. set_solver.
  - eapply Hup, winv_goroutines; [done|]. rewrite Hg. apply list.Forall_forall. set_solver.
  - eapply Hup. by apply winv_gone.
  - eapply Hup, winv_world; [done..|]. unfold snapshot_ok. rewrite Hs. apply I.
Qed.
End System.

(** ** Sequences of transactions *)

(** [Handle] on one envelope after the other, with the clock of each call. *)
Fixpoint handle_all {W} `{Store W} (w : W) (b : BusinessActor) (envs : list (Z * RemoteEnvelope)) :
    option (W * BusinessActor) :=
  match envs with
  | [] => Some (w, b)
  | (now, env) :: rest => h ← Handle now w b env; handle_all (h_world h) (h_actor h) rest
  end.

Lemma handle_ring {W} `{Store W} now (w : W) b env h hist :
  ring_ok hist b -> Handle now w b env = Some h ->
  exists hist', ring_ok hist' (h_actor h) /\ (hist' = hist \/ hist' = EnvTxId env :: hist) /\
    (ResSuccess (h_result h) = true -> EnvTxId env ∉ txCache b -> hist' = EnvTxId env :: hist).
Proof.
  intros R. assert (forall c x y z, ring_ok hist (b <| lastActive := c |> <| balance := x |> <| version := y |> <| eventCount := z |>)) as R0.
  { intros. by destruct R. }
  assert (ring_ok hist (b <| lastActive := now |>)) as R1 by by destruct R.
  unfold Handle. case_decide as Hdup.
  { intros [= <-]. exists hist. split_and!; [done|by left|]. simpl. done. }
  case_decide. { intros [= <-]. exists hist. split_and!; [done|by left|done]. }
  destruct (BigEndian_Uint64 _) as [raw|]; [|done]. cbn [mbind option_bind].
  case_decide. { intros [= <-]. exists hist. split_and!; [done|by left|done]. }
  unfold commit_tx. destruct (ExecuteBatch _ _ _) as [w' [err|]].
  { intros [= <-]. exists hist. split_and!; [done|by left|done]. }
  match goal with |- context [addTxID ?tx ?b0] =>
    destruct (addTxID_ok hist b0 tx) as (b1 & -> & R2 & _ & _); [by destruct R|done|] end.
  cbn [mbind option_bind]. intros [= <-]. exists (EnvTxId env :: hist).
  split_and!; [by destruct R2|by right|done].
Qed.

Lemma handle_all_ring {W} `{Store W} envs (w w' : W) b b' hist :
  ring_ok hist b -> handle_all w b envs = Some (w', b') ->
  exists new, ring_ok (new ++ hist) b' /\ (length new <= length envs)%nat.
Proof.
  revert w b hist. induction envs as [|[now env] envs IH]; intros w b hist R; simpl.
  - intros [= <- <-]. by exists [].
  - destruct (Handle now w b env) as [h|] eqn:E; [|done]. cbn [mbind option_bind]. intros Hall.
    destruct (handle_ring _ _ _ _ _ _ R E) as (hist' & R' & Hh & _).
    destruct (IH _ _ _ R' Hall) as (new & Rn & Hn).
    destruct Hh as [-> | ->]; [exists new; split; [done|lia]|].
    exists (new ++ [EnvTxId env]). rewrite <- app_assoc. split; [done|]. rewrite length_app. simpl. lia.
Qed.

Lemma handle_identity {W} `{Store W} now (w : W) b env h :
  Handle now w b env = Some h ->
  ResTenantId (h_result h) = tenantID b /\ ResUid (h_result h) = uid b /\
  ResTxId (h_result h) = EnvTxId env /\ ResRequestId (h_result h) = EnvRequestId env /\
  ResOpCode (h_result h) = EnvOpCode env.
Proof.
  unfold Handle. repeat (case_decide; [by intros [= <-]|]).
  destruct (BigEndian_Uint64 _) as [raw|]; [|done]. cbn [mbind option_bind].
  case_decide; [by intros [= <-]|]. unfold commit_tx, addTxID.
  destruct (ExecuteBatch _ _ _) as [w' [err|]]; [by intros [= <-]|].
  destruct (go_index _ _) as [old|]; [|done]. cbn [mbind option_bind].
  destruct (go_update _ _ _) as [ring|]; [|done]. cbn [mbind option_bind]. by intros [= <-].
Qed.

(** ** Runs *)

Section Runs.
Context {W : Type} `{WalletDB W}.

Lemma nsteps_winv (t u : Z) (w0 : W) n s :
  rows_of (db w0) t u = [] -> wallet_snapshots (db w0) !! (t, u) = None ->
  nsteps (wstep t u) n (mkSys w0 None [] []) s -> Z.of_nat n < 2 ^ 63 - 1 ->
  exists log ph, winv t u n s log ph.
Proof.
  intros Hr0 Hs0. revert s. induction n as [|n IH]; intros s Hsteps Hn.
  - inversion Hsteps; subst. exists [], []. constructor; simpl; try done; try lia; [apply good_nil|].
    intros b v. by rewrite Hs0.
  - apply nsteps_inv_r in Hsteps as (s1 & Hsteps & Hst).
    destruct (IH s1 Hsteps ltac:(lia)) as (log & ph & I).
    eapply wstep_winv; [done|lia|done].
Qed.

(** A new actor of an account that is wholly covered by its snapshot. *)
Lemma rehydrate_empty (w : W) t u now log w' b' :
  ledger_of (db w) t u log -> Z.of_nat (length log) + 1 < 2 ^ 63 ->
  snapshot_of (db w) t u = (total log, Z.of_nat (length log)) ->
  rehydrate w (newBusinessActor t u now) = Some (w', (b', None)) ->
  tenantID b' = t /\ uid b' = u /\ coherent (db w') b' log [] /\ txCache b' = ∅.
Proof.
  intros L Hlen Hsnap E. pose proof (newBusinessActor_ring t u now) as R.
  pose proof (rehydrate_run w _ [] R) as Hrun. simpl in Hrun. rewrite Hsnap in Hrun.
  cbv zeta in Hrun. rewrite (lo_rows _ _ _ _ L), after_version_numbered, drop_all in Hrun by done.
  simpl in Hrun. pose proof (good_total _ (lo_good _ _ _ _ L)) as Htot.
  destruct Hrun as (w1 & b1 & err & hist & E1 & Hdb & R1 & HT & HU & HE & Hok); [go_arith..|].
  rewrite E in E1. simplify_eq. destruct (Hok eq_refl) as (_ & Hv & Hb & _ & Hh). simpl in *.
  assert (hist = []) as ->.
  { destruct hist as [|x hist]; [done|]. by destruct (Hh x ltac:(by left)) as [?%not_elem_of_nil|?%not_elem_of_nil]. }
  split_and!; try done.
  - destruct L. constructor; rewrite ?HT, ?HU, ?HE, ?Hdb, ?app_nil_r; try done.
    + simpl. lia.
    + rewrite Hv. lia.
    + rewrite Hb. change (total []) with 0. rewrite Z.add_0_r. apply i64_id. go_arith.
    + exists []. split; [done|]. by intros ? ?%not_elem_of_nil.
  - apply set_eq. intros x. split; [|set_solver]. intros Hx%R1. by apply not_elem_of_nil in Hx.
Qed.
End Runs.

(** ** Theorems *)

Section Theorems.
Context {W : Type} `{WalletDB W}.

(** C2: the history of an account.  Whatever the interleaving of transactions,
    actor restarts, failing store calls and snapshots written late, out of order
    or not at all: the rows of the account are a gap-free history in which every
    transaction that was reported as executed appears, in order; at no point of
    that history was the balance negative or out of [int64]; the stored snapshot
    is the balance of a prefix; and the live actor holds the balance and version
    of the history (up to one row whose write was reported as failed). *)
Theorem wallet_history (t u : Z) (w0 : W) n s :
  rows_of (db w0) t u = [] -> wallet_snapshots (db w0) !! (t, u) = None ->
  nsteps (wstep t u) n (mkSys w0 None [] []) s -> Z.of_nat n < 2 ^ 63 - 1 ->
  exists log ph, rows_of (db (ws_world s)) t u = numbered 0 (log ++ ph) /\ (length ph <= 1)%nat /\
    good_log (log ++ ph) /\ snapshot_ok (db (ws_world s)) t u log /\
    ws_acked s `sublist_of` (tx_of <$> log) /\
    match ws_actor s with
    | None => ph = []
    | Some b => balance b = total log /\ version b = Z.of_nat (length log)
    end.
Proof.
  intros Hr0 Hs0 Hsteps Hn.
  destruct (nsteps_winv t u w0 n s Hr0 Hs0 Hsteps Hn) as (log & ph & []).
  exists log, ph. split_and!; try done. destruct (ws_actor s); [|done].
  destruct wi_actor0 as (_ & _ & []). done.
Qed.

(** C16: rehydration.  A fresh actor of an account with history [log] and a
    snapshot of any prefix of it never panics, does not change the store, and,
    when it reports no error (which is the case whenever the reads work), has the
    balance of the whole history, its length as version, and knows the
    transaction ids that follow the snapshot. *)
Theorem rehydrate_restores (w : W) (t u now : Z) log :
  ledger_of (db w) t u log ->
  exists w' b' err, rehydrate w (newBusinessActor t u now) = Some (w', (b', err)) /\ db w' = db w /\
    (reliable w -> err = None) /\
    (err = None -> balance b' = total log /\ version b' = Z.of_nat (length log) /\
       forall e, e ∈ drop (Z.to_nat (snapshot_of (db w) t u).2) log -> tx_id e ∈ txCache b').
Proof.
  intros L. destruct (rehydrate_ledger w (newBusinessActor t u now) [] log
    (newBusinessActor_ring _ _ _) L) as (w' & b' & err & hist & k & E & Hdb & _ & _ & _ & _ & Hk & Hrel & Hok).
  exists w', b', err. split_and!; try done. intros Herr.
  destruct (Hok Herr) as (Hv & Hb & Hin & _). simpl in Hk. by rewrite Hk, Nat2Z.id.
Qed.

(** C25: gap detection.  When the reads work, rehydration succeeds exactly when the
    rows after the snapshot are numbered without a gap from its version on.  When it
    fails, the store is unchanged and the new actor keeps balance and version zero;
    what it may then hold are transaction ids read before the gap: in any case its
    cache holds only ids of rows after the snapshot. *)
Theorem rehydrate_detects_gaps (w : W) (t u now : Z) :
  reliable w ->
  let '(sb, lv) := snapshot_of (db w) t u in
  let p := after_version lv (rows_of (db w) t u) in
  is_i64 sb -> - 2 ^ 63 <= lv -> lv + Z.of_nat (length p) < 2 ^ 63 ->
  exists b' err, rehydrate w (newBusinessActor t u now) = Some (w, (b', err)) /\
    (err = None <-> p = numbered lv (p.*2)) /\
    (err <> None -> balance b' = 0 /\ version b' = 0) /\
    forall tx, tx ∈ txCache b' -> tx ∈ tx_id <$> p.*2.
Proof.
  intros Rel. pose proof (rehydrate_reliable w (newBusinessActor t u now) [] Rel (newBusinessActor_ring _ _ _)) as Hr.
  simpl in Hr. destruct (snapshot_of (db w) t u) as [sb lv]. intros p Hsb Hlv Hlen.
  destruct (Hr Hsb Hlv Hlen) as (b' & err & E & Hiff & Hfail & Hseen). exists b', err. split_and!; try done.
  intros tx Htx. by destruct (Hseen tx Htx) as [?%not_elem_of_nil|].
Qed.

(** C3: [Handle] refines the ledger.  From an actor that agrees with the store it
    never panics and does one of five things: acknowledge a known transaction
    without effect; reject a short payload; refuse a transaction exactly when the
    true new balance would be negative or above [int64]; report a failed write
    and keep its state (at most one unacknowledged row stays behind); or commit,
    answering with the encoded new balance.  Agreement is kept, and no other
    account's rows change. *)
Theorem Handle_refines_ledger (w : W) now b log ph env :
  coherent (db w) b log ph -> Z.of_nat (length log) + 1 < 2 ^ 63 ->
  exists h log' ph', Handle now w b env = Some h /\
    tx_outcome now b log ph env (h_result h) log' ph' (h_spawned h) /\
    coherent (db (h_world h)) (h_actor h) log' ph' /\
    frame (tenantID b) (uid b) (db w) (db (h_world h)).
Proof.
  intros Hco Hlen. destruct (handle_refines w now b log ph env Hco Hlen)
    as (h & log' & ph' & E & Hout & Hco' & Hfr & _). by exists h, log', ph'.
Qed.

(** Success means durable.  A result with [Success], new or duplicate, is given
    only when the transaction is in the history the store holds. *)
Theorem Handle_success_durable (w : W) now b log ph env h :
  coherent (db w) b log ph -> Z.of_nat (length log) + 1 < 2 ^ 63 ->
  Handle now w b env = Some h -> ResSuccess (h_result h) = true ->
  exists v e, (v, e) ∈ rows_of (db (h_world h)) (tenantID b) (uid b) /\ tx_id e = EnvTxId env.
Proof.
  intros Hco Hlen E Hs. destruct (handle_refines w now b log ph env Hco Hlen)
    as (h1 & log' & ph' & E1 & Hout & Hco' & _ & HT & HU & Hin). rewrite E in E1. injection E1 as <-.
  destruct Hco' as [Hrows _ _ _ _ _ (hist & R & Hseen) _]. rewrite HT, HU in Hrows.
  specialize (Hseen _ (ro_seen _ _ R _ (Hin Hs))). apply list_elem_of_fmap in Hseen as (e & -> & He).
  assert (e ∈ (numbered 0 (log' ++ ph')).*2) as Hrow by (rewrite numbered_snd; set_solver).
  apply list_elem_of_fmap in Hrow as ([v e'] & -> & Hrow). exists v, e'. by rewrite Hrows.
Qed.

(** C17: idempotency window.  After a transaction was committed, and after at most
    999 further calls whatever they are, the same transaction id is answered with
    [Success] without touching the store, the balance or the version. *)
Theorem Handle_idempotent (w w2 : W) now now2 b b2 hist env env2 h envs :
  ring_ok hist b -> EnvTxId env ∉ txCache b ->
  Handle now w b env = Some h -> ResSuccess (h_result h) = true ->
  handle_all (h_world h) (h_actor h) envs = Some (w2, b2) ->
  Z.of_nat (length envs) < txCacheSize -> EnvTxId env2 = EnvTxId env ->
  Handle now2 w2 b2 env2 =
    Some (mkHandled w2 (b2 <| lastActive := now2 |>) (reply b2 env2 true "" "" []) []).
Proof.
  intros R Hnew E Hs Hall Hlen Htx.
  destruct (handle_ring _ _ _ _ _ _ R E) as (hist1 & R1 & _ & Heq). rewrite (Heq Hs Hnew) in R1.
  destruct (handle_all_ring _ _ _ _ _ _ R1 Hall) as (new & R2 & Hn).
  unfold Handle. rewrite decide_True; [done|]. cbn. rewrite Htx. apply R2.
  apply elem_of_take. exists (length new). split; [|lia].
  by rewrite lookup_app_r, Nat.sub_diag.
Qed.

(** Every result [Handle] returns carries the identity the gateway needs, on
    all paths; what the actor runtime fills in is already there. *)
Theorem Handle_identity (w : W) now b env h :
  Handle now w b env = Some h -> EnvTenantId env = tenantID b -> EnvUid env = uid b ->
  ResTenantId (h_result h) = EnvTenantId env /\ ResUid (h_result h) = EnvUid env /\
  ResTxId (h_result h) = EnvTxId env /\ ResRequestId (h_result h) = EnvRequestId env /\
  ResOpCode (h_result h) = EnvOpCode env /\ completeResult (h_result h) env = h_result h.
Proof.
  intros E HT HU. destruct (handle_identity _ _ _ _ _ E) as (I1 & I2 & I3 & I4 & I5).
  rewrite HT, HU. split_and!; try done. unfold completeResult.
  destruct (h_result h) as [rt ru rx rr ro rs rc rm rp]; simpl in *; subst.
  by repeat case_decide; rewrite ?HT, ?HU.
Qed.

(** C36: the window does not survive a restart from a snapshot.  When the snapshot
    covers the whole history, the new actor knows no transaction id: a repeated
    transaction that is answered with [Success] has been executed again. *)
Theorem restart_forgets_snapshotted (w w' : W) (t u now now2 : Z) log b' env h :
  ledger_of (db w) t u log -> Z.of_nat (length log) + 1 < 2 ^ 63 ->
  snapshot_of (db w) t u = (total log, Z.of_nat (length log)) ->
  rehydrate w (newBusinessActor t u now) = Some (w', (b', None)) ->
  Handle now2 w' b' env = Some h -> ResSuccess (h_result h) = true ->
  exists e, rows_of (db (h_world h)) t u = numbered 0 (log ++ [e]) /\
    tx_id e = EnvTxId env /\ delta_amount e = amount_of env.
Proof.
  intros L Hlen Hsnap Er Eh Hs.
  destruct (rehydrate_empty w t u now log w' b' L Hlen Hsnap Er) as (HT & HU & Hco & Hempty).
  destruct (handle_refines w' now2 b' log [] env Hco Hlen)
    as (h1 & log' & ph' & E1 & Hout & [Hrows _ _ _ _ _ _ _] & _ & HT1 & HU1 & _).
  rewrite Eh in E1. injection E1 as <-. rewrite HT1, HU1, HT, HU in Hrows.
  inversion Hout as [Hd Hr|? ? Hr|raw ? ? ? Hr|raw err ph1 ? ? ? ? Hr|raw sp log1 ? Hraw ? Hlog ? Hr];
    try (rewrite <- Hr in Hs; done).
  - rewrite Hempty in Hd. set_solver.
  - subst. rewrite app_nil_r in Hrows. eexists. split; [exact Hrows|].
    split; [done|]. unfold amount_of. by rewrite Hraw.
Qed.
End Theorems.

(** ** Witnesses *)

Section Witnesses.
Definition mem_store (d : tables) : CassandraStore MemSession := mkCassandraStore (mkMem d []) 0 0.

Lemma mem_reliable d : reliable (mem_store d).
Proof.
  intros S cql args sel scan st Hsel. cbn. unfold CassandraStore_Query. cbn.
  rewrite (run_select_ok _ _ _ _ Hsel). by destruct (scan _ st) as [st' [e|]].
Qed.

Definition demo_tx (tx : string) (amount : Z) : RemoteEnvelope :=
  mkEnvelope 1 7 tx 42 1 (BigEndian_PutUint64 (u64 amount)) 0.
Definition demo_event (tx : string) (amount : Z) : wallet_event :=
  mkEvent 5 tx amount (BigEndian_PutUint64 (u64 amount)).
Definition demo_log : list wallet_event := [demo_event "tx-1" 100; demo_event "tx-2" (-30)].

(** The tables after [demo_log], with a snapshot of the first [k] events. *)
Definition demo_tables (k : nat) : tables :=
  mkTables {[(1, 7) := numbered 0 demo_log]}
           {[(1, 7) := (total (take k demo_log), Z.of_nat k)]}.

Lemma demo_ledger k : (k <= 2)%nat -> ledger_of (db (mem_store (demo_tables k))) 1 7 demo_log.
Proof.
  intros Hk. constructor.
  - reflexivity.
  - intros b v. change (wallet_snapshots (db (mem_store (demo_tables k))) !! (1, 7))
      with (Some (total (take k demo_log), Z.of_nat k)). intros [= <- <-]. by exists k.
  - intros [|[|[|j]]]; by vm_compute.
  - done.
Qed.

Lemma wallet_history_witness :
  exists s log ph, nsteps (wstep 1 7) 2 (mkSys (mem_store (mkTables ∅ ∅)) None [] []) s /\
    ws_acked s = [("tx-1", 100)] /\
    rows_of (db (ws_world s)) 1 7 = numbered 0 (log ++ ph) /\ ws_acked s `sublist_of` (tx_of <$> log).
Proof.
  assert (exists s, nsteps (wstep 1 7) 2 (mkSys (mem_store (mkTables ∅ ∅)) None [] []) s /\
            ws_acked s = [("tx-1", 100)]) as (s & Hs & Ha).
  { eexists. split.
    - eapply nsteps_l; [eapply (w_start _ _ _ 3); [reflexivity|vm_compute; reflexivity]|].
      eapply nsteps_l; [eapply (w_handle _ _ _ 5 _ (demo_tx "tx-1" 100)); [reflexivity|vm_compute; reflexivity]|].
      apply nsteps_O.
    - vm_compute. reflexivity. }
  destruct (wallet_history 1 7 (mem_store (mkTables ∅ ∅)) 2 s) as (log & ph & Hr & _ & _ & _ & Hsub & _);
    [reflexivity|reflexivity|done|done|].
  by exists s, log, ph.
Defined.

Lemma rehydrate_restores_witness :
  exists w' b', rehydrate (mem_store (demo_tables 1)) (newBusinessActor 1 7 3) = Some (w', (b', None)) /\
    balance b' = 70 /\ version b' = 2.
Proof.
  destruct (rehydrate_restores (mem_store (demo_tables 1)) 1 7 3 demo_log (demo_ledger 1 ltac:(lia)))
    as (w' & b' & err & E & _ & Hrel & Hok).
  rewrite (Hrel (mem_reliable _)) in *. exists w', b'. destruct (Hok eq_refl) as (-> & -> & _). done.
Defined.

(** Version 2 is missing. *)
Lemma rehydrate_detects_gaps_witness :
  let d := mkTables {[(1, 7) := [(1, demo_event "tx-1" 100); (3, demo_event "tx-3" 5)]]} ∅ in
  exists b' err, rehydrate (mem_store d) (newBusinessActor 1 7 3) = Some (mem_store d, (b', Some err)) /\
    version b' = 0.
Proof.
  intros d. destruct (rehydrate_detects_gaps (mem_store d) 1 7 3 (mem_reliable d))
    as (b' & err & E & Hiff & Hfail); [done..|].
  destruct err as [err|]; [|by destruct (proj1 Hiff eq_refl)].
  exists b', err. split; [done|]. by apply Hfail.
Defined.

Lemma demo_coherent :
  exists b, rehydrate (mem_store (demo_tables 2)) (newBusinessActor 1 7 3) =
      Some (mem_store (demo_tables 2), (b, None)) /\
    coherent (db (mem_store (demo_tables 2))) b demo_log [] /\ ring_ok [] b /\ txCache b = ∅.
Proof.
  assert (exists b, rehydrate (mem_store (demo_tables 2)) (newBusinessActor 1 7 3) =
      Some (mem_store (demo_tables 2), (b, None)) /\
      b = (newBusinessActor 1 7 3) <| balance := 70 |> <| version := 2 |>) as (b & E & Hb).
  { eexists. split; vm_compute; reflexivity. }
  exists b. destruct (rehydrate_empty _ 1 7 3 demo_log _ _ (demo_ledger 2 ltac:(lia)) eq_refl eq_refl E)
    as (_ & _ & Hco & Hc). refine (conj E (conj Hco (conj _ Hc))). subst b.
  destruct (newBusinessActor_ring 1 7 3). constructor; assumption.
Qed.

Lemma Handle_refines_ledger_witness :
  exists b h log' ph', Handle 5 (mem_store (demo_tables 2)) b (demo_tx "tx-3" (-80)) = Some h /\
    tx_outcome 5 b demo_log [] (demo_tx "tx-3" (-80)) (h_result h) log' ph' (h_spawned h).
Proof.
  destruct demo_coherent as (b & _ & Hco & _).
  destruct (Handle_refines_ledger _ 5 b demo_log [] (demo_tx "tx-3" (-80)) Hco eq_refl)
    as (h & log' & ph' & E & Hout & _). by exists b, h, log', ph'.
Defined.

Lemma Handle_idempotent_witness :
  exists w b h, Handle 9 w b (demo_tx "tx-3" 1) = Some h /\ h_world h = w /\
    h_result h = reply b (demo_tx "tx-3" 1) true "" "" [].
Proof.
  destruct demo_coherent as (b & E & _ & R & Hc).
  assert (exists h w2 b2, Handle 5 (mem_store (demo_tables 2)) b (demo_tx "tx-3" 1) = Some h /\
            ResSuccess (h_result h) = true /\
            handle_all (h_world h) (h_actor h) [(6, demo_tx "tx-4" 2); (7, demo_tx "tx-5" 2)] = Some (w2, b2))
    as (h & w2 & b2 & Eh & Hs & Hall).
  { vm_compute in E. injection E as <-. eexists _, _, _. split; [vm_compute; reflexivity|].
    split; vm_compute; reflexivity. }
  exists w2, b2, (mkHandled w2 (b2 <| lastActive := 9 |>) (reply b2 (demo_tx "tx-3" 1) true "" "" []) []).
  split; [|split; reflexivity].
  refine (Handle_idempotent _ _ 5 9 b b2 [] (demo_tx "tx-3" 1) (demo_tx "tx-3" 1) h _ R _ Eh Hs Hall _ _);
    [rewrite Hc; apply not_elem_of_empty|vm_compute; reflexivity|reflexivity].
Defined.

(** "tx-1" is in the history and is executed again after the restart. *)
Lemma restart_forgets_snapshotted_witness :
  exists b h e, Handle 5 (mem_store (demo_tables 2)) b (demo_tx "tx-1" 100) = Some h /\
    rows_of (db (h_world h)) 1 7 = numbered 0 (demo_log ++ [e]) /\ tx_id e = "tx-1" /\
    "tx-1" ∈ tx_id <$> demo_log.
Proof.
  destruct demo_coherent as (b & E & _).
  assert (exists h, Handle 5 (mem_store (demo_tables 2)) b (demo_tx "tx-1" 100) = Some h /\
            ResSuccess (h_result h) = true) as (h & Eh & Hs).
  { vm_compute in E. injection E as <-. eexists. split; vm_compute; reflexivity. }
  destruct (restart_forgets_snapshotted _ _ 1 7 3 5 demo_log b (demo_tx "tx-1" 100) h
    (demo_ledger 2 ltac:(lia)) eq_refl eq_refl E Eh Hs) as (e & Hr & Ht & _).
  exists b, h, e. refine (conj Eh (conj Hr (conj Ht _))). by left.
Defined.
End Witnesses.
