(* ===== verification/Reconciliation.v ===== *)
(** * Reconciliation: internal/node/reconciliation.go

    The daily task that recomputes balances from the store and compensates negative
    ones.  The loop is modelled on any list of accounts; the task itself runs it on
    the list the code has, which is empty. *)

From stdpp Require Import pretty.
From S2P Require Import Prelude Wire Mailbox Store Wallet WalletSpec WalletSystem.

(** [for s.Scan(&delta) { balance += delta }]. *)
Fixpoint scan_deltas (rows : list row) (bal : Z) : Z :=
  match rows with
  | [VInt delta] :: rest => scan_deltas rest (i64 (bal + delta))
  | _ => bal
  end.

(** [s.Scan(&maxVersion)], once. *)
Definition scan_version (rows : list row) (maxVersion : Z) : Z :=
  match rows with
  | [VInt v] :: _ => v
  | _ => maxVersion
  end.

(** The bytes of [[]byte("reconciliation-compensating-tx")]. *)
Definition compensation_payload : list Byte.byte :=
  byte_of <$> [114; 101; 99; 111; 110; 99; 105; 108; 105; 97; 116; 105; 111; 110; 45; 99; 111; 109;
               112; 101; 110; 115; 97; 116; 105; 110; 103; 45; 116; 120].

Definition compensation_tx (tenant u now : Z) : string :=
  "reconciliation-" +:+ pretty tenant +:+ "-" +:+ pretty u +:+ "-" +:+ pretty now.

(** The counters the task logs. *)
Record recon_stats := mkStats { successCount : Z; discrepancyCount : Z }.

Section WithStore.
Context {W : Type} `{Store W}.

Definition computeTrueBalance (w : W) (tenant u : Z) : W * result string Z :=
  let '(w1, ((snapshotBalance, lastVersion), err)) :=
    Query w snapCQL [VInt tenant; VInt u] (fun rows st => (scan_snapshot rows st, None)) (0, 0) in
  match err with
  | Some e => (w1, Err (wrap_error "computeTrueBalance: load snapshot failed" e))
  | None =>
      let '(w2, (bal, err2)) :=
        Query w1 deltaCQL [VInt tenant; VInt u; VInt lastVersion]
          (fun rows st => (scan_deltas rows st, None)) snapshotBalance in
      match err2 with
      | Some e => (w2, Err (wrap_error "computeTrueBalance: load events failed" e))
      | None => (w2, Ok bal)
      end
  end.

Definition issueCompensatingTransaction (w : W) (now tenant u negativeBalance : Z) :
    W * option string :=
  if decide (0 <= negativeBalance) then (w, None)
  else
    let '(w1, (maxVersion, err)) :=
      Query w maxVersionCQL [VInt tenant; VInt u] (fun rows st => (scan_version rows st, None)) 0 in
    match err with
    | Some e => (w1, Some (wrap_error "issueCompensatingTransaction: failed to get max version" e))
    | None =>
        let deficit := i64 (- negativeBalance) in
        let nextVersion := i64 (maxVersion + 1) in
        ExecuteBatch w1 UnloggedBatch
          [event_stmt tenant u nextVersion
             (mkEvent now (compensation_tx tenant u now) deficit compensation_payload)]
    end.

(** The loop over the targets; [ctxErr] is what [ctx.Err] says before each and
    [now] the clock in it. *)
Fixpoint reconcile (w : W) (targets : list (option string * Z * (Z * Z))) (st : recon_stats) :
    W * (recon_stats * option string) :=
  match targets with
  | [] => (w, (st, None))
  | (Some e, _, _) :: _ => (w, (st, Some (wrap_error "reconciliation cancelled" e)))
  | (None, now, (tenant, u)) :: rest =>
      match computeTrueBalance w tenant u with
      | (w1, Err _) => reconcile w1 rest st
      | (w1, Ok bal) =>
          if decide (bal < 0) then
            let st1 := mkStats (successCount st) (discrepancyCount st + 1) in
            match issueCompensatingTransaction w1 now tenant u bal with
            | (w2, Some _) => reconcile w2 rest st1
            | (w2, None) => reconcile w2 rest (mkStats (successCount st1 + 1) (discrepancyCount st1))
            end
          else reconcile w1 rest (mkStats (successCount st + 1) (discrepancyCount st))
      end
  end.

(** [RunDailyReconciliation]: [var targets []uidKey] is never filled. *)
Definition RunDailyReconciliation (w : W) : W * (recon_stats * option string) :=
  reconcile w [] (mkStats 0 0).
End WithStore.

Definition delta_row (r : Z * wallet_event) : row := [VInt (delta_amount r.2)].

Lemma scan_deltas_run (p : partition) bal :
  is_i64 bal -> scan_deltas (delta_row <$> p) bal = i64 (bal + total (p.*2)).
Proof.
  revert bal. induction p as [|[v e] p IH]; intros bal Hb; cbn [scan_deltas fmap list_fmap delta_row snd].
  - change (total ([].*2)) with 0. by rewrite Z.add_0_r, i64_id.
  - rewrite IH by apply i64_range. change (((v, e) :: p).*2) with (e :: p.*2).
    rewrite total_cons. autorewrite with gonorm. f_equal. lia.
Qed.

Section Theorems.
Context {W : Type} `{WalletDB W}.

Lemma computeTrueBalance_run (w : W) t u :
  is_i64 (snapshot_of (db w) t u).1 ->
  exists w' r, computeTrueBalance w t u = (w', r) /\ db w' = db w /\
    (reliable w -> w' = w /\ is_ok r = true) /\
    (forall bal, r = Ok bal -> bal = i64 ((snapshot_of (db w) t u).1 +
       total ((after_version (snapshot_of (db w) t u).2 (rows_of (db w) t u)).*2))).
Proof.
  intros Hsb. unfold computeTrueBalance. destruct (Query w snapCQL _ _ _) as [w1 [[sb lv] err1]] eqn:Eq1.
  destruct (pure_query _ _ _ _ _ _ _ _ _ (sel_snapshot _ _) Eq1) as (Hw1 & Hst1 & Hrel1).
  destruct err1 as [e|].
  { eexists _, _. split; [reflexivity|]. split_and!; [done| |done]. intros Rel. by destruct (Hrel1 Rel). }
  rewrite scan_select_snapshot in Hst1. rewrite <- (Hst1 eq_refl) in *.
  destruct (Query w1 deltaCQL _ _ _) as [w2 [bal err2]] eqn:Eq2.
  destruct (pure_query _ _ _ _ _ _ _ _ _ (sel_deltas _ _ _) Eq2) as (Hw2 & Hst2 & Hrel2).
  rewrite Hw1 in *. destruct err2 as [e|].
  { eexists _, _. split; [reflexivity|]. split_and!; [done| |done]. intros Rel.
    destruct (Hrel1 Rel) as [-> _]. by destruct (Hrel2 Rel). }
  eexists _, _. split; [reflexivity|]. split_and!; [done| |].
  - intros Rel. destruct (Hrel1 Rel) as [-> _]. by destruct (Hrel2 Rel) as [-> _].
  - intros bal' [= <-]. rewrite (Hst2 eq_refl). by apply (scan_deltas_run _ sb).
Qed.

(** The audit agrees with the actor.  When rehydration succeeds, recomputing
    the balance of the same account succeeds on a working store and gives the
    balance the actor would have; it changes nothing. *)
Theorem computeTrueBalance_agrees (w w' : W) (t u now : Z) b' :
  let '(sb, lv) := snapshot_of (db w) t u in
  let p := after_version lv (rows_of (db w) t u) in
  is_i64 sb -> - 2 ^ 63 <= lv -> lv + Z.of_nat (length p) < 2 ^ 63 ->
  rehydrate w (newBusinessActor t u now) = Some (w', (b', None)) ->
  exists w2 r, computeTrueBalance w t u = (w2, r) /\ db w2 = db w /\
    (reliable w -> r = Ok (balance b')) /\ (forall bal, r = Ok bal -> bal = balance b').
Proof.
  pose proof (rehydrate_run w _ [] (newBusinessActor_ring t u now)) as Hrun. simpl in Hrun.
  pose proof (computeTrueBalance_run w t u) as Hc.
  destruct (snapshot_of (db w) t u) as [sb lv]. simpl in Hc. intros p Hsb Hlv Hlen E.
  destruct (Hrun Hsb Hlv Hlen) as (w1 & b1 & err & hist & E1 & _ & _ & _ & _ & _ & Hok).
  rewrite E in E1. simplify_eq. destruct (Hok eq_refl) as (_ & _ & Hb & _ & _). rewrite Hb.
  destruct (Hc Hsb) as (w2 & r & Ec & Hdb & Hrel & Hbal). exists w2, r. split_and!; try done.
  intros Rel. destruct (Hrel Rel) as [_ Hr]. destruct r as [bal|]; [|done]. f_equal. by apply Hbal.
Qed.

(** C26: compensation.  For an account whose gap-free history sums to a negative
    balance, a compensating transaction that reports no error appends one event
    with the next version, and the balance of the account is then zero. *)
Theorem compensation_restores_zero (w w' : W) (t u now : Z) log :
  rows_of (db w) t u = numbered 0 log -> snapshot_ok (db w) t u log ->
  - 2 ^ 63 < total log < 0 -> Z.of_nat (length log) < 2 ^ 63 - 1 ->
  (forall k, is_i64 (total (take k log))) ->
  issueCompensatingTransaction w now t u (total log) = (w', None) ->
  exists e, rows_of (db w') t u = numbered 0 (log ++ [e]) /\ total (log ++ [e]) = 0 /\
    (forall w2 bal, computeTrueBalance w' t u = (w2, Ok bal) -> bal = 0).
Proof.
  intros Hrows Hsnap Htot Hlen Htake. unfold issueCompensatingTransaction.
  rewrite decide_False by lia.
  destruct (Query w maxVersionCQL _ _ _) as [w1 [mv err]] eqn:Eq.
  destruct (db_select _ _ _ _ _ _ _ _ _ (sel_max _ _) Eq) as (Hw1 & got & closed & [_ Hgot] & Hst & Herr).
  simpl in Herr, Hst. destruct err as [e|]; [done|].
  destruct (proj1 Herr eq_refl) as [_ ->]. rewrite (Hgot eq_refl) in Hst.
  assert (mv = Z.of_nat (length log)) as ->.
  { rewrite Hst. unfold select_max_version. rewrite Hrows.
    destruct log as [|e log _] using rev_ind; [done|]. rewrite numbered_app, Z.add_0_l. simpl.
    rewrite last_snoc. simpl. rewrite length_app. simpl. lia. }
  rewrite !i64_id by go_arith. set (e := mkEvent _ _ _ _). intros Ex.
  destruct (db_insert _ _ _ _ _ _ (ins_event _ _ _ _) Ex) as [Hdb' | [_ [? [=]]]].
  rewrite Hw1 in Hdb'.
  assert (rows_of (db w') t u = numbered 0 (log ++ [e])) as Hr'.
  { rewrite Hdb', rows_put_event, Hrows. rewrite <- (app_nil_r log) at 2. apply upsert_numbered.
    simpl. lia. }
  assert (total (log ++ [e]) = 0) as Hz.
  { rewrite total_app. change (total [e]) with (- total log + 0). lia. }
  exists e. split_and!; try done. intros w2 bal Ec.
  assert (snapshot_ok (db w') t u (log ++ [e])) as Hsnap'.
  { rewrite Hdb'. intros b v Hs. apply prefix_snapshot_app. by apply Hsnap. }
  destruct (snapshot_after _ _ _ _ Hr' Hsnap') as (k & Hk & Hs & Ha).
  assert (total (take k (log ++ [e])) = 0 \/ is_i64 (total (take k (log ++ [e])))) as Hi.
  { destruct (decide (k <= length log)%nat); [right; rewrite take_app_le by done; apply Htake|left].
    rewrite take_ge; [done|]. rewrite length_app. simpl. lia. }
  destruct (computeTrueBalance_run w' t u) as (w3 & r & Ec' & _ & _ & Hbal).
  { rewrite Hs. simpl. destruct Hi as [->|]; done. }
  rewrite Ec in Ec'. simplify_eq. rewrite (Hbal _ eq_refl), Hs. simpl. rewrite Ha, numbered_snd.
  by rewrite total_take_drop, Hz.
Qed.

(** The scheduled task does nothing: its list of accounts is a placeholder. *)
Lemma RunDailyReconciliation_inert (w : W) :
  RunDailyReconciliation w = (w, (mkStats 0 0, None)).
Proof. done. Qed.
End Theorems.

(** ** Witnesses *)

Section Witnesses.
(** Two events that overdraw the account. *)
Lemma compensation_restores_zero_witness :
  let log := [demo_event "tx-1" 100; demo_event "tx-2" (-130)] in
  let d := mkTables {[(1, 7) := numbered 0 log]} ∅ in
  exists w' e, issueCompensatingTransaction (mem_store d) 9 1 7 (-30) = (w', None) /\
    rows_of (db w') 1 7 = numbered 0 (log ++ [e]) /\ total (log ++ [e]) = 0.
Proof.
  intros log d.
  assert (exists w', issueCompensatingTransaction (mem_store d) 9 1 7 (total log) = (w', None)) as (w' & E)
    by (eexists; vm_compute; reflexivity).
  exists w'. destruct (compensation_restores_zero (mem_store d) w' 1 7 9 log) as (e & Hr & Hz & _).
  - reflexivity.
  - intros b v. done.
  - done.
  - done.
  - intros [|[|[|k]]]; by vm_compute.
  - done.
  - exists e. split; [exact E|]. split; [done|done].
Defined.
End Witnesses.
