(* ===== verification/Node.v ===== *)
(** * The node: internal/node/node.go

    The business runtime: 256 shards of actors, batches that arrive on many gRPC
    streams, the ownership guard, reply routes, the result channel and its
    aggregator, passivation, eviction and shutdown.  Any number of goroutines
    interleave; a step is what one of them does between two accesses to shared
    state (or while it holds a shard's lock).

    An actor is used through what [ActorSpec] shows of it: a FIFO mailbox, one
    goroutine that handles envelopes one at a time, and a life cycle.  [Send] tests
    the status and enqueues in two steps, and the loop looks at the mailbox and then
    at the status, as in actor.go. *)

From S2P Require Import Prelude Wire Routing Discovery Mailbox Store Wallet.

(** ** Keys *)

Abbreviation ActorKey := (Z * Z)%type.

(** [shardIndex]: [uint64(k.TenantID^int32(k.UID)) % 256]. *)
Definition shardIndex (k : ActorKey) : Z := u64 (Z.lxor k.1 (i32 k.2)) mod 256.

(** [resultRouteKey]. *)
Definition route_key : Type := Z * Z * Z.
Definition env_key (e : RemoteEnvelope) : Z * Z * Z := (EnvTenantId e, EnvUid e, EnvRequestId e).
Definition res_key (r : RemoteResult) : Z * Z * Z := (ResTenantId r, ResUid r, ResRequestId r).
Definition actor_key (e : RemoteEnvelope) : ActorKey := (EnvTenantId e, EnvUid e).

(** A [BatchSender] is identified by the stream it belongs to. *)
Record queuedResult := mkQueued { q_res : RemoteResult; q_reply : nat }.

(** ** Configuration *)

Definition defaultMailboxLimit : Z := 1500000.
Definition resultChCap : nat := Z.to_nat 10000.
Definition idleThreshold : Z := 24 * 3600 * 1000000000.
Definition maxBatchSize : nat := Z.to_nat 1000.

Record Config := mkConfig { myIP : string; cfgMailboxLimit : Z }.

Definition mailboxLimit (cfg : Config) : Z :=
  if decide (cfgMailboxLimit cfg = 0) then defaultMailboxLimit else cfgMailboxLimit cfg.

(** ** Results the node makes itself *)

Definition error_result (env : RemoteEnvelope) (op : Z) (code msg : string) : RemoteResult :=
  mkResult (EnvTenantId env) (EnvUid env) (EnvTxId env) (EnvRequestId env) op false code msg [].

Definition overloaded (env : RemoteEnvelope) : RemoteResult :=
  error_result env (EnvOpCode env) ErrNodeOverloaded "node mailbox backlog limit reached, please retry".
Definition bad_request (env : RemoteEnvelope) : RemoteResult :=
  error_result env (EnvOpCode env) ErrBadRequest "missing tenant_id, uid, tx_id, or request_id".
Definition wrong_node (env : RemoteEnvelope) : RemoteResult :=
  error_result env (EnvOpCode env) ErrWrongNode "routing table indicates this node is not the owner".
Definition evicted (env : RemoteEnvelope) : RemoteResult :=
  error_result env (EnvOpCode env) ErrWrongNode "actor evicted due to ownership change, please retry".
Definition rehydration_failed (env : RemoteEnvelope) (err : string) : RemoteResult :=
  error_result env 0 ErrRehydrationFailed err.

(** ** The guards of HandleBatch on one envelope *)

Inductive verdict :=
  | Pass
  | Reject (kill : bool) (r : RemoteResult).

Definition missing_field (env : RemoteEnvelope) : bool :=
  bool_decide (EnvTenantId env = 0 \/ EnvUid env = 0 \/ EnvTxId env = "" \/ EnvRequestId env = 0).

Section Guards.
Context {R Er : Type} `{TopologyResolver R Er}.

(** A nil resolver skips the ownership guard. *)
Definition check_envelope (resolver : option R) (ip : string) (env : RemoteEnvelope) :
    option (option R * verdict) :=
  if missing_field env then Some (resolver, Reject false (bad_request env))
  else
    match resolver with
    | None => Some (None, Pass)
    | Some r =>
        '(r', owner) ← tr_GetNodeIP r (EnvTenantId env) (EnvUid env);
        match owner with
        | Ok ownerIP =>
            Some (Some r', if decide (ownerIP = ip) then Pass else Reject true (wrong_node env))
        | Err _ => Some (Some r', Reject true (wrong_node env))
        end
    end.
End Guards.

(** ** The aggregator's flush *)

(** [groups[q.reply] = append(groups[q.reply], q.res)]. *)
Fixpoint add_group (q : queuedResult) (groups : list (nat * list RemoteResult)) :
    list (nat * list RemoteResult) :=
  match groups with
  | [] => [(q_reply q, [q_res q])]
  | (s, rs) :: rest =>
      if decide (s = q_reply q) then (s, rs ++ [q_res q]) :: rest else (s, rs) :: add_group q rest
  end.

Definition group_results (batch : list queuedResult) : list (nat * list RemoteResult) :=
  foldl (fun gs q => add_group q gs) [] batch.

(** [for start := 0; start < len(ress); start += maxBatchSize]. *)
Fixpoint chunks (fuel : nat) (ress : list RemoteResult) : list BatchResponse :=
  match fuel, ress with
  | S fuel', _ :: _ => mkBatchResponse (take maxBatchSize ress) :: chunks fuel' (drop maxBatchSize ress)
  | _, _ => []
  end.

(** What one flush sends, the groups in the order [gs] in which the map is ranged. *)
Definition flush_sends (gs : list (nat * list RemoteResult)) : list (nat * BatchResponse) :=
  gs ≫= fun g => (fun resp => (g.1, resp)) <$> chunks (length g.2) g.2.

(** ** State *)

(** Where the goroutine of an actor is. *)
Inductive actor_pc :=
  | AIdle                           (* about to dequeue *)
  | AEmpty                          (* dequeue returned nil: about to load the status *)
  | AEmit (r : RemoteResult)        (* Handle returned: about to take the reply route *)
  | APush (q : queuedResult)        (* about to send on resultCh *)
  | AExited.

Record node_actor := mkNodeActor {
  na_biz : BusinessActor;
  na_status : actor_status;
  na_mailbox : list RemoteEnvelope;
  na_pc : actor_pc;
}.

(** Where a [HandleBatch] call is. *)
Inductive hb_pc :=
  | HOver                                    (* overloaded: next envelope *)
  | HLoop                                    (* next envelope *)
  | HPush (over : bool) (q : queuedResult)   (* in enqueueResult *)
  | HKill (a : nat) (q : queuedResult)       (* forceKillLocalActor: about to Stop a *)
  | HLookup (env : RemoteEnvelope)           (* retry: RLock *)
  | HCreate (env : RemoteEnvelope)           (* Lock, create, rehydrate *)
  | HRoute (env : RemoteEnvelope) (a : nat)  (* replyRoutes.Store *)
  | HSend (env : RemoteEnvelope) (a : nat)   (* Send: status test *)
  | HEnq (env : RemoteEnvelope) (a : nat)    (* Send: enqueue *)
  | HUnroute (env : RemoteEnvelope) (a : nat)(* Send failed: replyRoutes.Delete *)
  | HEvict (env : RemoteEnvelope) (a : nat)  (* Lock, delete the dead reference *)
  | HDone.

Record hb := mkHb { hb_sender : nat; hb_rest : list (option RemoteEnvelope); hb_at : hb_pc }.

(** The goroutine of forceKillLocalActor. *)
Inductive kill_pc :=
  | KWait (a : nat)                                      (* spins on IsDead *)
  | KNext (envs : list RemoteEnvelope)                   (* loop over Drain() *)
  | KPush (q : queuedResult) (envs : list RemoteEnvelope).

(** [Stop]: not called, sweeping shard [i], waiting for the actors it stopped, done
    closed. *)
Inductive stop_pc :=
  | StNone | StSweep (i : nat) (stopping : list nat) | StWait (stopping : list nat) | StClosed.

(** passivationLoop: in its select, on shard [i] of the sweep whose time is [now],
    returned. *)
Inductive pass_pc := PassSelect | PassSweep (i : nat) (now : Z) | PassExited.

Record node (W R : Type) := mkNodeState {
  n_shards : list (gmap (Z * Z) nat);
  n_actors : gmap nat node_actor;
  n_routes : gmap (Z * Z * Z) nat;
  n_resultCh : list queuedResult;
  n_batch : list queuedResult;                 (* the aggregator's batch *)
  n_aggExited : bool;
  n_hbs : gmap nat hb;
  n_kills : gmap nat kill_pc;
  n_stop : stop_pc;
  n_pass : pass_pc;
  n_world : W;
  n_resolver : option R;
  n_goroutines : list Statement;
  n_panicked : bool;
  (* history *)
  n_sent : list (nat * BatchResponse);
  n_submitted : list (nat * RemoteEnvelope);
}.
Arguments mkNodeState {W R}.
Arguments n_shards {W R} n : rename.
Arguments n_actors {W R} n : rename.
Arguments n_routes {W R} n : rename.
Arguments n_resultCh {W R} n : rename.
Arguments n_batch {W R} n : rename.
Arguments n_aggExited {W R} n : rename.
Arguments n_hbs {W R} n : rename.
Arguments n_kills {W R} n : rename.
Arguments n_stop {W R} n : rename.
Arguments n_pass {W R} n : rename.
Arguments n_world {W R} n : rename.
Arguments n_resolver {W R} n : rename.
Arguments n_goroutines {W R} n : rename.
Arguments n_panicked {W R} n : rename.
Arguments n_sent {W R} n : rename.
Arguments n_submitted {W R} n : rename.
#[export] Instance node_Eta W R : Eta (node W R) := fun n =>
  mkNodeState (n_shards n) (n_actors n) (n_routes n) (n_resultCh n) (n_batch n) (n_aggExited n)
    (n_hbs n) (n_kills n) (n_stop n) (n_pass n) (n_world n) (n_resolver n) (n_goroutines n) (n_panicked n)
    (n_sent n) (n_submitted n).

Definition NewNode {W R} (store : W) (resolver : option R) : node W R :=
  mkNodeState (replicate 256 ∅) ∅ ∅ [] [] false ∅ ∅ StNone PassSelect store resolver [] false [] [].

(** ** Shared state, one access each *)

Definition shard_ix (k : ActorKey) : nat := Z.to_nat (shardIndex k).

Section Access.
Context {W R : Type}.
Implicit Types n : node W R.

Definition lookup_actor n (k : ActorKey) : option nat := n_shards n !! shard_ix k ≫= lookup k.
Definition put_ref (k : ActorKey) (a : nat) n : node W R :=
  n <| n_shards ::= alter <[k := a]> (shard_ix k) |>.
Definition drop_ref (k : ActorKey) n : node W R := n <| n_shards ::= alter (delete k) (shard_ix k) |>.

(** [core.Stop()], as seen from outside. *)
Definition stop_actor (na : node_actor) : node_actor :=
  if rejects (na_status na) then na
  else mkNodeActor (na_biz na) statusStopping (na_mailbox na) (na_pc na).
Definition stop_actors (ids : list nat) n : node W R :=
  n <| n_actors ::= map_imap (fun a na => Some (if decide (a ∈ ids) then stop_actor na else na)) |>.

Definition set_hb (t : nat) (h : hb) n : node W R := n <| n_hbs ::= <[t := h]> |>.
Definition set_actor (a : nat) (na : node_actor) n : node W R := n <| n_actors ::= <[a := na]> |>.
Definition set_kill (t : nat) (k : kill_pc) n : node W R := n <| n_kills ::= <[t := k]> |>.
Definition push_result (q : queuedResult) n : node W R := n <| n_resultCh ::= fun l => l ++ [q] |>.
Definition panic n : node W R := n <| n_panicked := true |>.

(** [resultCh <- q] goes through when the channel has room. *)
Definition has_room n : Prop := (length (n_resultCh n) < resultChCap)%nat.

(** The idle test of passivationLoop, on the actors of one shard. *)
Definition is_idle n (now : Z) (a : nat) : bool :=
  match n_actors n !! a with
  | Some na => bool_decide (idleThreshold < i64 (now - lastActive (na_biz na)))
  | None => false
  end.
Definition passivate (i : nat) (now : Z) n : node W R :=
  let shard := default ∅ (n_shards n !! i) in
  let ids := filter (fun a => is_idle n now a = true) (map_to_list shard).*2 in
  stop_actors ids n <| n_shards ::= alter (filter (fun kv => is_idle n now kv.2 = false)) i |>.

(** One shard of [Stop]. *)
Definition sweep (i : nat) n : node W R * list nat :=
  let ids := (map_to_list (default ∅ (n_shards n !! i))).*2 in
  (stop_actors ids n <| n_shards ::= alter (fun _ => ∅) i |>, ids).

(** [flush], the groups ranged in the order [gs]. *)
Definition flush (gs : list (nat * list RemoteResult)) n : node W R :=
  n <| n_batch := [] |> <| n_sent ::= fun l => l ++ flush_sends gs |>.
End Access.

(** ** Steps *)

Section Steps.
Context {W R Er : Type} `{Store W} `{TopologyResolver R Er} (cfg : Config).
Implicit Types n : node W R.

(** The envelopes of a batch that are not nil. *)
Definition submit (s : nat) (envs : list (option RemoteEnvelope)) : list (nat * RemoteEnvelope) :=
  pair s <$> omap id envs.

(** [HandleBatch]; [pending] is what [mailboxPending] returns at its start. *)
Inductive hb_step n : node W R -> Prop :=
  | hb_call t s envs pending :
      n_hbs n !! t = None -> is_u64 pending ->
      hb_step n (set_hb t (mkHb s envs (if decide (mailboxLimit cfg <= pending) then HOver else HLoop)) n
                   <| n_submitted ::= fun l => l ++ submit s envs |>)
  | hb_over_nil t s rest :
      n_hbs n !! t = Some (mkHb s (None :: rest) HOver) ->
      hb_step n (set_hb t (mkHb s rest HOver) n)
  | hb_over_env t s env rest :
      n_hbs n !! t = Some (mkHb s (Some env :: rest) HOver) ->
      hb_step n (set_hb t (mkHb s rest (HPush true (mkQueued (overloaded env) s))) n)
  | hb_end t s over :
      n_hbs n !! t = Some (mkHb s [] over) -> over = HOver \/ over = HLoop ->
      hb_step n (set_hb t (mkHb s [] HDone) n)
  | hb_push t s rest over q :
      n_hbs n !! t = Some (mkHb s rest (HPush over q)) -> has_room n ->
      hb_step n (set_hb t (mkHb s rest (if over then HOver else HLoop)) (push_result q n))
  | hb_nil t s rest :
      n_hbs n !! t = Some (mkHb s (None :: rest) HLoop) ->
      hb_step n (panic (set_hb t (mkHb s rest HDone) n))
  | hb_check_panic t s env rest :
      n_hbs n !! t = Some (mkHb s (Some env :: rest) HLoop) ->
      check_envelope (n_resolver n) (myIP cfg) env = None ->
      hb_step n (panic (set_hb t (mkHb s rest HDone) n))
  | hb_pass t s env rest r' :
      n_hbs n !! t = Some (mkHb s (Some env :: rest) HLoop) ->
      check_envelope (n_resolver n) (myIP cfg) env = Some (r', Pass) ->
      hb_step n (set_hb t (mkHb s rest (HLookup env)) n <| n_resolver := r' |>)
  | hb_reject t s env rest r' kill r :
      n_hbs n !! t = Some (mkHb s (Some env :: rest) HLoop) ->
      check_envelope (n_resolver n) (myIP cfg) env = Some (r', Reject kill r) ->
      kill = false \/ lookup_actor n (actor_key env) = None ->
      hb_step n (set_hb t (mkHb s rest (HPush false (mkQueued r s))) n <| n_resolver := r' |>)
  | hb_kill t s env rest r' r a :
      n_hbs n !! t = Some (mkHb s (Some env :: rest) HLoop) ->
      check_envelope (n_resolver n) (myIP cfg) env = Some (r', Reject true r) ->
      lookup_actor n (actor_key env) = Some a ->
      hb_step n (drop_ref (actor_key env)
                   (set_hb t (mkHb s rest (HKill a (mkQueued r s))) n <| n_resolver := r' |>))
  | hb_kill_stop t s rest a q g :
      n_hbs n !! t = Some (mkHb s rest (HKill a q)) -> n_kills n !! g = None ->
      hb_step n (set_kill g (KWait a) (stop_actors [a] (set_hb t (mkHb s rest (HPush false q)) n)))
  | hb_lookup t s env rest :
      n_hbs n !! t = Some (mkHb s rest (HLookup env)) ->
      hb_step n (set_hb t (mkHb s rest
        (match lookup_actor n (actor_key env) with Some a => HRoute env a | None => HCreate env end)) n)
  | hb_create_hit t s env rest a :
      n_hbs n !! t = Some (mkHb s rest (HCreate env)) -> lookup_actor n (actor_key env) = Some a ->
      hb_step n (set_hb t (mkHb s rest (HRoute env a)) n)
  | hb_create_new t s env rest now w' b a :
      n_hbs n !! t = Some (mkHb s rest (HCreate env)) -> lookup_actor n (actor_key env) = None ->
      rehydrate (n_world n) (newBusinessActor (EnvTenantId env) (EnvUid env) now) = Some (w', (b, None)) ->
      n_actors n !! a = None ->
      hb_step n (put_ref (actor_key env) a
                   (set_actor a (mkNodeActor b statusRunning [] AIdle)
                      (set_hb t (mkHb s rest (HRoute env a)) n)) <| n_world := w' |>)
  | hb_create_failed t s env rest now w' b e :
      n_hbs n !! t = Some (mkHb s rest (HCreate env)) -> lookup_actor n (actor_key env) = None ->
      rehydrate (n_world n) (newBusinessActor (EnvTenantId env) (EnvUid env) now) = Some (w', (b, Some e)) ->
      hb_step n (set_hb t (mkHb s rest (HPush false (mkQueued (rehydration_failed env e) s))) n
                   <| n_world := w' |>)
  | hb_create_panic t s env rest now :
      n_hbs n !! t = Some (mkHb s rest (HCreate env)) ->
      rehydrate (n_world n) (newBusinessActor (EnvTenantId env) (EnvUid env) now) = None ->
      hb_step n (panic (set_hb t (mkHb s rest HDone) n))
  | hb_route t s env rest a :
      n_hbs n !! t = Some (mkHb s rest (HRoute env a)) ->
      hb_step n (set_hb t (mkHb s rest (HSend env a)) n <| n_routes ::= <[env_key env := s]> |>)
  | hb_send t s env rest a na :
      n_hbs n !! t = Some (mkHb s rest (HSend env a)) -> n_actors n !! a = Some na ->
      hb_step n (set_hb t (mkHb s rest
        (if rejects (na_status na) then HUnroute env a else HEnq env a)) n)
  | hb_enqueue t s env rest a na :
      n_hbs n !! t = Some (mkHb s rest (HEnq env a)) -> n_actors n !! a = Some na ->
      hb_step n (set_actor a (mkNodeActor (na_biz na) (na_status na) (na_mailbox na ++ [env]) (na_pc na))
                   (set_hb t (mkHb s rest HLoop) n))
  | hb_unroute t s env rest a :
      n_hbs n !! t = Some (mkHb s rest (HUnroute env a)) ->
      hb_step n (set_hb t (mkHb s rest (HEvict env a)) n <| n_routes ::= delete (env_key env) |>)
  | hb_evict t s env rest a :
      n_hbs n !! t = Some (mkHb s rest (HEvict env a)) ->
      hb_step n
        (let n1 := set_hb t (mkHb s rest (HLookup env)) n in
         if decide (lookup_actor n (actor_key env) = Some a) then drop_ref (actor_key env) n1 else n1).

(** The goroutine of actor [a], and [Emit] as its sink. *)
Inductive actor_step n : node W R -> Prop :=
  | act_handle a na env rest now h :
      n_actors n !! a = Some na -> na_pc na = AIdle -> na_mailbox na = env :: rest ->
      Handle now (n_world n) (na_biz na) env = Some h ->
      actor_step n (set_actor a (mkNodeActor (h_actor h) (na_status na) rest
                                   (AEmit (completeResult (h_result h) env))) n
                      <| n_world := h_world h |> <| n_goroutines ::= fun l => l ++ h_spawned h |>)
  | act_panic a na env rest now :
      n_actors n !! a = Some na -> na_pc na = AIdle -> na_mailbox na = env :: rest ->
      Handle now (n_world n) (na_biz na) env = None -> actor_step n (panic n)
  | act_empty a na :
      n_actors n !! a = Some na -> na_pc na = AIdle -> na_mailbox na = [] ->
      actor_step n (set_actor a (mkNodeActor (na_biz na) (na_status na) [] AEmpty) n)
  | act_resume a na :
      n_actors n !! a = Some na -> na_pc na = AEmpty -> na_status na <> statusStopping ->
      actor_step n (set_actor a (mkNodeActor (na_biz na) (na_status na) (na_mailbox na) AIdle) n)
  | act_exit a na :
      n_actors n !! a = Some na -> na_pc na = AEmpty -> na_status na = statusStopping ->
      actor_step n (set_actor a (mkNodeActor (na_biz na) statusDead (na_mailbox na) AExited) n)
  | act_emit a na r :
      n_actors n !! a = Some na -> na_pc na = AEmit r ->
      actor_step n
        (set_actor a (mkNodeActor (na_biz na) (na_status na) (na_mailbox na)
           (match n_routes n !! res_key r with Some s => APush (mkQueued r s) | None => AIdle end)) n
           <| n_routes ::= delete (res_key r) |>)
  | act_push a na q :
      n_actors n !! a = Some na -> na_pc na = APush q -> has_room n ->
      actor_step n (set_actor a (mkNodeActor (na_biz na) (na_status na) (na_mailbox na) AIdle)
                      (push_result q n)).

(** The background part of forceKillLocalActor. *)
Inductive kill_step n : node W R -> Prop :=
  | kill_drain g a na :
      n_kills n !! g = Some (KWait a) -> n_actors n !! a = Some na -> na_status na = statusDead ->
      kill_step n (set_actor a (mkNodeActor (na_biz na) (na_status na) [] (na_pc na))
                     (set_kill g (KNext (na_mailbox na)) n))
  | kill_next g env envs :
      n_kills n !! g = Some (KNext (env :: envs)) ->
      kill_step n
        (set_kill g (match n_routes n !! env_key env with
                     | Some s => KPush (mkQueued (evicted env) s) envs
                     | None => KNext envs end) n
           <| n_routes ::= delete (env_key env) |>)
  | kill_push g q envs :
      n_kills n !! g = Some (KPush q envs) -> has_room n ->
      kill_step n (set_kill g (KNext envs) (push_result q n)).

(** aggregatorLoop; the groups of a flush are ranged in any order. *)
Inductive agg_step n : node W R -> Prop :=
  | agg_recv q rest :
      n_aggExited n = false -> n_resultCh n = q :: rest ->
      (length (n_batch n ++ [q]) < maxBatchSize)%nat ->
      agg_step n (n <| n_resultCh := rest |> <| n_batch ::= fun b => b ++ [q] |>)
  | agg_recv_flush q rest gs :
      n_aggExited n = false -> n_resultCh n = q :: rest ->
      (maxBatchSize <= length (n_batch n ++ [q]))%nat ->
      gs ≡ₚ group_results (n_batch n ++ [q]) ->
      agg_step n (flush gs (n <| n_resultCh := rest |>))
  | agg_tick gs :
      n_aggExited n = false -> gs ≡ₚ group_results (n_batch n) -> agg_step n (flush gs n)
  | agg_done gs :
      n_aggExited n = false -> n_stop n = StClosed -> gs ≡ₚ group_results (n_batch n) ->
      agg_step n (flush gs n <| n_aggExited := true |>).

(** [Stop], which main calls once (a second call would close [done] again and panic). *)
Inductive node_stop_step n : node W R -> Prop :=
  | stop_begin : n_stop n = StNone -> node_stop_step n (n <| n_stop := StSweep 0 [] |>)
  | stop_sweep i stopping :
      n_stop n = StSweep i stopping -> (i < 256)%nat ->
      node_stop_step n ((sweep i n).1 <| n_stop := StSweep (S i) (stopping ++ (sweep i n).2) |>)
  | stop_swept stopping :
      n_stop n = StSweep 256 stopping -> node_stop_step n (n <| n_stop := StWait stopping |>)
  | stop_wait a stopping na :
      n_stop n = StWait (a :: stopping) -> n_actors n !! a = Some na -> na_status na = statusDead ->
      node_stop_step n (n <| n_stop := StWait stopping |>)
  | stop_close : n_stop n = StWait [] -> node_stop_step n (n <| n_stop := StClosed |>).

(** passivationLoop: every hour one sweep over the shards; [done] is looked at
    between sweeps only. *)
Inductive pass_step n : node W R -> Prop :=
  | pass_tick now :
      n_pass n = PassSelect -> pass_step n (n <| n_pass := PassSweep 0 now |>)
  | pass_shard i now :
      n_pass n = PassSweep i now -> (i < 256)%nat ->
      pass_step n ((passivate i now n) <| n_pass := PassSweep (S i) now |>)
  | pass_swept now :
      n_pass n = PassSweep 256 now -> pass_step n (n <| n_pass := PassSelect |>)
  | pass_done :
      n_pass n = PassSelect -> n_stop n = StClosed -> pass_step n (n <| n_pass := PassExited |>).

Inductive node_move n n' : Prop :=
  | ns_hb : hb_step n n' -> node_move n n'
  | ns_actor : actor_step n n' -> node_move n n'
  | ns_kill : kill_step n n' -> node_move n n'
  | ns_agg : agg_step n n' -> node_move n n'
  | ns_stop : node_stop_step n n' -> node_move n n'
  | ns_passivate : pass_step n n' -> node_move n n'
  | ns_environment w r :      (* the topology changes, others use the store *)
      n' = n <| n_world := w |> <| n_resolver := r |> -> node_move n n'.

(** A panic in any goroutine ends the process. *)
Definition node_step n n' : Prop := n_panicked n = false /\ node_move n n'.

Definition node_reachable n : Prop := exists w r, rtc node_step (NewNode w r) n.
End Steps.
