(* ===== verification/NodeInv.v ===== *)
(** * The node: invariant, guards and flush

    The guards of internal/node/node.go admit exactly what they should, a flush
    delivers exactly the batch; and the invariant of the steps of [Node]: every
    result on its way to a stream is for a request of that stream, and actors live
    in their shard under their own key.  The theorems about whole runs are in
    [NodeOnce]. *)

From S2P Require Import Prelude Wire Routing Discovery Mailbox Store Wallet WalletSpec WalletSystem Node.

(** ** The flush *)

Definition results_for (s : nat) (groups : list (nat * list RemoteResult)) : list RemoteResult :=
  concat ((filter (fun g => g.1 = s) groups).*2).

Lemma add_group_keys q gs :
  (add_group q gs).*1 = gs.*1 \/ ((add_group q gs).*1 = gs.*1 ++ [q_reply q] /\ (q_reply q ∉ gs.*1)).
Proof.
  induction gs as [|[s rs] gs IH]; cbn [add_group].
  - right. split; [done|]. apply not_elem_of_nil.
  - case_decide as E; rewrite ?fmap_cons; [by left|].
    destruct IH as [-> | [-> Hn]]; [by left|right].
    split; [done|]. intros [Hs|Hs]%elem_of_cons; [by destruct E|done].
Qed.

Lemma group_results_nodup batch : NoDup (group_results batch).*1.
Proof.
  unfold group_results. assert (NoDup ([] : list (nat * list RemoteResult)).*1) as H0 by constructor.
  revert H0. generalize ([] : list (nat * list RemoteResult)).
  induction batch as [|q batch IH]; intros gs Hgs; simpl; [done|]. apply IH.
  destruct (add_group_keys q gs) as [-> | [-> Hn]]; [done|].
  apply list.NoDup_app. split_and!; [done| |apply NoDup_singleton].
  by intros x Hx ->%list_elem_of_singleton.
Qed.

Lemma results_for_cons s g gs :
  results_for s (g :: gs) = (if decide (g.1 = s) then g.2 else []) ++ results_for s gs.
Proof. unfold results_for. rewrite filter_cons. by case_decide. Qed.

Lemma results_for_notin s gs : s ∉ gs.*1 -> results_for s gs = [].
Proof.
  induction gs as [|g gs IH]; [done|]. intros [Hg Hgs]%not_elem_of_cons.
  rewrite results_for_cons, decide_False, IH by done. done.
Qed.

Lemma results_for_add s q gs :
  NoDup gs.*1 ->
  results_for s (add_group q gs) = results_for s gs ++ (if decide (q_reply q = s) then [q_res q] else []).
Proof.
  induction gs as [|[s' rs] gs IH]; intros Hnd; simpl.
  - rewrite results_for_cons. simpl. by rewrite app_nil_r.
  - apply list.NoDup_cons in Hnd as [Hn Hnd].
    destruct (decide (s' = q_reply q)) as [->|E]; rewrite !results_for_cons; simpl.
    + case_decide; [subst|by rewrite app_nil_r].
      rewrite (results_for_notin _ gs) by done. by rewrite !app_nil_r.
    + rewrite IH by done. by rewrite app_assoc.
Qed.

(** The groups hold, per stream, its results in the order in which they arrived. *)
Lemma group_results_for s batch :
  results_for s (group_results batch) = q_res <$> filter (fun q => q_reply q = s) batch.
Proof.
  unfold group_results. induction batch as [|q batch IH] using rev_ind; [done|].
  rewrite foldl_app, list.filter_app, fmap_app. simpl.
  rewrite results_for_add by apply group_results_nodup. rewrite IH. f_equal.
  rewrite filter_cons, filter_nil. by case_decide.
Qed.

(** Ranging over the map in another order changes nothing for a stream. *)
Lemma results_for_perm s gs gs' : NoDup gs.*1 -> gs ≡ₚ gs' -> results_for s gs = results_for s gs'.
Proof.
  intros Hnd Hp. induction Hp as [|g gs gs' Hp IH|g1 g2 gs|gs1 gs2 gs3 H1 IH1 H2 IH2]; [done|..].
  - rewrite !results_for_cons. apply list.NoDup_cons in Hnd as [_ Hnd]. by rewrite IH.
  - rewrite !results_for_cons. apply list.NoDup_cons in Hnd as [Hn _].
    apply not_elem_of_cons in Hn as [Hn _]. repeat case_decide; simpl; rewrite ?app_nil_r; congruence.
  - rewrite IH1, IH2; [done| |done]. by rewrite <- H1.
Qed.

Lemma chunks_concat fuel ress :
  (length ress <= fuel)%nat -> concat (Results <$> chunks fuel ress) = ress.
Proof.
  revert ress. induction fuel as [|fuel IH]; intros [|r ress] Hf; try done; [simpl in Hf; lia|].
  cbn [chunks fmap list_fmap concat Results]. rewrite IH; [apply take_drop|].
  rewrite length_drop. unfold maxBatchSize. cbn [length] in *. lia.
Qed.

Lemma chunks_size fuel ress :
  Forall (fun resp => (1 <= length (Results resp) <= maxBatchSize)%nat) (chunks fuel ress).
Proof.
  revert ress. induction fuel as [|fuel IH]; intros [|r ress]; cbn [chunks]; constructor; [|done].
  cbn [Results]. rewrite length_take. unfold maxBatchSize. cbn [length]. lia.
Qed.

(** What a stream receives in a flush. *)
Definition received (s : nat) (sent : list (nat * BatchResponse)) : list RemoteResult :=
  concat ((fun m => Results m.2) <$> filter (fun m => m.1 = s) sent).

Lemma received_app s l1 l2 : received s (l1 ++ l2) = received s l1 ++ received s l2.
Proof. unfold received. by rewrite list.filter_app, fmap_app, concat_app. Qed.

Lemma received_same s resps : received s (pair s <$> resps) = concat (Results <$> resps).
Proof.
  unfold received. induction resps as [|r resps IH]; [done|].
  cbn [fmap list_fmap]. rewrite filter_cons_True by done. cbn. by rewrite IH.
Qed.

Lemma received_other s s' resps : s' <> s -> received s (pair s' <$> resps) = [].
Proof.
  intros Hs. unfold received. induction resps as [|r resps IH]; [done|].
  cbn [fmap list_fmap]. by rewrite filter_cons_False.
Qed.

Lemma received_flush s gs : received s (flush_sends gs) = results_for s gs.
Proof.
  induction gs as [|[s' rs] gs IH]; [done|]. unfold flush_sends. cbn [mbind list_bind].
  rewrite received_app, results_for_cons. fold (flush_sends gs). rewrite <- IH. f_equal. cbn [fst snd].
  case_decide as E.
  - subst s'. rewrite received_same. by apply chunks_concat.
  - by apply received_other.
Qed.

(** C22: a flush delivers exactly the batch.  In whatever order the groups are
    ranged, every stream receives its own results of the batch, all of them, once
    and in the order in which they arrived, and nothing else; every response has
    between 1 and 1000 results. *)
Theorem flush_delivers (batch : list queuedResult) (gs : list (nat * list RemoteResult)) :
  gs ≡ₚ group_results batch ->
  (forall s, received s (flush_sends gs) = q_res <$> filter (fun q => q_reply q = s) batch) /\
  Forall (fun m => (1 <= length (Results m.2) <= maxBatchSize)%nat) (flush_sends gs).
Proof.
  intros Hp. split.
  - intros s. rewrite received_flush, <- group_results_for. symmetry.
    apply results_for_perm; [apply group_results_nodup|done].
  - unfold flush_sends. apply Forall_bind, Forall_true. intros g. apply Forall_fmap.
    eapply list.Forall_impl; [apply chunks_size|done].
Qed.

Lemma flush_delivers_witness :
  let r k := mkResult 1 7 "t" k 1 true "" "" [] in
  let batch := [mkQueued (r 1) 0; mkQueued (r 2) 5; mkQueued (r 3) 0] in
  received 0 (flush_sends (group_results batch)) = [r 1; r 3].
Proof.
  intros r batch. destruct (flush_delivers batch (group_results batch)) as [Hr _]; [done|]. apply (Hr 0%nat).
Defined.

(** ** The guards *)

(** C23: what HandleBatch admits.  An envelope passes exactly when its four identity
    fields are set and, unless the node runs without a resolver, the resolver names
    this node as its owner.  An envelope with a field that is not set is answered with
    BAD_REQUEST and evicts nothing; any other that does not pass, owned by another node
    or by none, is answered with WRONG_NODE and the local actor is evicted.  The answer
    carries the identity of the envelope. *)
Theorem check_envelope_spec {R Er} `{TopologyResolver R Er} (resolver : option R) ip env r' v :
  check_envelope resolver ip env = Some (r', v) ->
  (v = Pass <->
     EnvTenantId env <> 0 /\ EnvUid env <> 0 /\ EnvTxId env <> "" /\ EnvRequestId env <> 0 /\
     forall r, resolver = Some r -> exists r1, tr_GetNodeIP r (EnvTenantId env) (EnvUid env) = Some (r1, Ok ip)) /\
  (forall kill res, v = Reject kill res ->
     res_key res = env_key env /\ ResTxId res = EnvTxId env /\ ResOpCode res = EnvOpCode env /\
     ResSuccess res = false /\
     (kill = true <-> ResErrorCode res = ErrWrongNode) /\
     ((EnvTenantId env = 0 \/ EnvUid env = 0 \/ EnvTxId env = "" \/ EnvRequestId env = 0) /\
        kill = false /\ ResErrorCode res = ErrBadRequest \/
      (EnvTenantId env <> 0 /\ EnvUid env <> 0 /\ EnvTxId env <> "" /\ EnvRequestId env <> 0) /\
        kill = true /\ ResErrorCode res = ErrWrongNode)).
Proof.
  unfold check_envelope, missing_field. case_bool_decide as Hm.
  - intros [= <- <-]. split; [|intros kill res [= <- <-]; split_and!; (done || tauto)]. split; [done|]. intros. tauto.
  - destruct resolver as [r|].
    + destruct (tr_GetNodeIP r _ _) as [[r1 [owner|e]]|] eqn:E; [..|done]; cbn [mbind option_bind].
      * case_decide as Ho; intros [= <- <-].
        -- subst owner. split; [|done]. split; [|done]. intros _. split_and!; [tauto..|].
           intros r0 [= <-]. eauto.
        -- split; [|intros kill res [= <- <-]; split_and!; (done || tauto)]. split; [done|].
           intros (_ & _ & _ & _ & Hr). destruct (Hr r eq_refl) as [r2 Hr2]. congruence.
      * intros [= <- <-]. split; [|intros kill res [= <- <-]; split_and!; (done || tauto)]. split; [done|].
        intros (_ & _ & _ & _ & Hr). destruct (Hr r eq_refl) as [r2 Hr2]. congruence.
    + intros [= <- <-]. split; [|done]. split; [|done]. intros _. split_and!; try tauto. done.
Qed.

Lemma check_envelope_spec_witness :
  let r := SetRoute NewMockResolver 1 7 "10.0.0.1:9000" in
  exists r', check_envelope (Some r) "10.0.0.1:9000" (demo_tx "tx-1" 5) = Some (r', Pass) /\
    EnvUid (demo_tx "tx-1" 5) <> 0.
Proof.
  intros r. eexists. split; [vm_compute; reflexivity|].
  refine (proj1 (proj2 (proj1 (proj1 (check_envelope_spec (Some r) "10.0.0.1:9000" (demo_tx "tx-1" 5) _ _ _)) eq_refl))).
  vm_compute; reflexivity.
Defined.

(** ** What the node needs to know of its actors *)

Section ActorFacts.
Context {W : Type} `{WalletDB W}.

Lemma handle_ids now (w : W) b env h :
  Handle now w b env = Some h -> tenantID (h_actor h) = tenantID b /\ uid (h_actor h) = uid b.
Proof.
  unfold Handle. repeat (case_decide; [by intros [= <-]|]).
  destruct (BigEndian_Uint64 _) as [raw|]; [|done]. cbn [mbind option_bind].
  case_decide; [by intros [= <-]|]. unfold commit_tx, addTxID.
  destruct (ExecuteBatch _ _ _) as [w' [err|]]; [by intros [= <-]|].
  destruct (go_index _ _) as [old|]; [|done]. cbn [mbind option_bind].
  destruct (go_update _ _ _) as [ring|]; [|done]. cbn [mbind option_bind]. by intros [= <-].
Qed.

Lemma handle_total now (w : W) b env hist : ring_ok hist b -> is_Some (Handle now w b env).
Proof.
  intros R. unfold Handle. case_decide as Hdup; [done|]. case_decide; [done|].
  destruct (BigEndian_Uint64_Some (EnvPayload env)) as [raw ->]; [lia|]. cbn [mbind option_bind].
  case_decide; [done|]. unfold commit_tx. destruct (ExecuteBatch _ _ _) as [w' [err|]]; [done|].
  match goal with |- context [addTxID ?tx ?b0] =>
    destruct (addTxID_ok hist b0 tx) as (b1 & -> & _); [by destruct R|done|] end.
  done.
Qed.

Lemma scan_events_safe rows prev bal b hist :
  ring_ok hist b ->
  exists pv bal' b' hist', (scan_events rows (Some (prev, bal, b))).1 = Some (pv, bal', b') /\
    ring_ok hist' b' /\ same_account b b'.
Proof.
  revert prev bal b hist. induction rows as [|r rows IH]; intros prev bal b hist R; simpl.
  - by exists prev, bal, b, hist.
  - repeat case_match; try (by exists prev, bal, b, hist). subst.
    destruct (seedTxID_ok hist b s R) as (b1 & h1 & -> & R1 & S1 & _). cbn [mbind option_bind].
    destruct (IH (i64 (prev + 1)) (i64 (bal + z0)) b1 h1 R1) as (pv & bal' & b' & h' & E & R' & S').
    exists pv, bal', b', h'. split_and!; try done. unfold same_account in *. intuition congruence.
Qed.

(** Rehydration never panics and keeps the identity, whatever the store holds. *)
Lemma rehydrate_safe (w : W) b hist :
  ring_ok hist b ->
  exists w' b' err hist', rehydrate w b = Some (w', (b', err)) /\ ring_ok hist' b' /\
    tenantID b' = tenantID b /\ uid b' = uid b.
Proof.
  intros R. unfold rehydrate.
  destruct (Query w snapCQL _ _ _) as [w1 [[sb lv] [e|]]]; [by eexists _, _, _, hist|].
  destruct (Query w1 eventCQL _ _ _) as [w2 [st err]] eqn:Eq.
  destruct (db_select _ _ _ _ _ _ _ _ _ (sel_events _ _ _) Eq) as (_ & got & closed & _ & Hst & _).
  destruct (scan_events_safe got lv sb b hist R) as (pv & bal' & b' & h' & E & R' & (HT & HU & _)).
  rewrite Hst, E. cbn [mbind option_bind].
  destruct err; eexists _, _, _, h'; (split; [reflexivity|]); split_and!; try done. by destruct R'.
Qed.
End ActorFacts.

(** ** The invariant *)

Section Invariant.
Context {W R Er : Type} `{WalletDB W} `{TopologyResolver R Er} (cfg : Config).
Implicit Types n : node W R.

(** Stream [s] submitted a request with this key. *)
Definition asked n (s : nat) (k : Z * Z * Z) : Prop :=
  exists env, (s, env) ∈ n_submitted n /\ env_key env = k.
Definition q_ok n (q : queuedResult) : Prop := asked n (q_reply q) (res_key (q_res q)).

(** An actor serves the account [k]. *)
Record serves_key (k : ActorKey) (na : node_actor) : Prop := {
  sk_ids : (tenantID (na_biz na), uid (na_biz na)) = k;
  sk_mail : Forall (fun env => actor_key env = k) (na_mailbox na);
  sk_ring : exists hist, ring_ok hist (na_biz na);
}.
Definition has_actor n (k : ActorKey) (a : nat) : Prop :=
  exists na, n_actors n !! a = Some na /\ serves_key k na.

Definition pc_ok n (s : nat) (pc : hb_pc) : Prop :=
  match pc with
  | HOver | HLoop | HDone => True
  | HPush _ q | HKill _ q => q_ok n q
  | HLookup env | HCreate env => (s, env) ∈ n_submitted n
  | HRoute env a | HSend env a | HEnq env a | HUnroute env a | HEvict env a =>
      (s, env) ∈ n_submitted n /\ has_actor n (actor_key env) a
  end.
Definition hb_ok n (h : hb) : Prop :=
  (forall env, Some env ∈ hb_rest h -> (hb_sender h, env) ∈ n_submitted n) /\
  pc_ok n (hb_sender h) (hb_at h).

Record node_inv n : Prop := {
  ni_length : length (n_shards n) = 256%nat;
  ni_shard i sh k a : n_shards n !! i = Some sh -> sh !! k = Some a ->
    i = shard_ix k /\ has_actor n k a;
  ni_actor a na : n_actors n !! a = Some na -> exists k, serves_key k na;
  ni_apush a na q : n_actors n !! a = Some na -> na_pc na = APush q -> q_ok n q;
  ni_hb t h : n_hbs n !! t = Some h -> hb_ok n h;
  ni_kpush g q envs : n_kills n !! g = Some (KPush q envs) -> q_ok n q;
  ni_route k s : n_routes n !! k = Some s -> asked n s k;
  ni_results q : q ∈ n_resultCh n ++ n_batch n -> q_ok n q;
  ni_sent s resp r : (s, resp) ∈ n_sent n -> r ∈ Results resp -> asked n s (res_key r);
}.

(** Which parts of the invariant a step leaves alone. *)
Definition grows n n' : Prop :=
  n_submitted n ⊆ n_submitted n' /\ (forall k a, has_actor n k a -> has_actor n' k a).

Lemma asked_mono n n' s k : grows n n' -> asked n s k -> asked n' s k.
Proof. intros [Hs _] (env & He & Hk). exists env. auto. Qed.
Lemma q_ok_mono n n' q : grows n n' -> q_ok n q -> q_ok n' q.
Proof. apply asked_mono. Qed.
Lemma hb_ok_mono n n' h : grows n n' -> hb_ok n h -> hb_ok n' h.
Proof.
  intros G [Hr Hp]. pose proof G as [Hs Ha]. split; [auto|].
  destruct (hb_at h); simpl in *; eauto using q_ok_mono; destruct Hp; eauto.
Qed.

(** A step keeps the invariant when what is new in each component is right. *)
Lemma node_inv_step n n' :
  node_inv n -> grows n n' -> length (n_shards n') = length (n_shards n) ->
  (forall i sh k a, n_shards n' !! i = Some sh -> sh !! k = Some a ->
     (exists sh0, n_shards n !! i = Some sh0 /\ sh0 !! k = Some a) \/ (i = shard_ix k /\ has_actor n' k a)) ->
  (forall a na, n_actors n' !! a = Some na -> n_actors n !! a = Some na \/
     ((exists k, serves_key k na) /\ forall q, na_pc na = APush q -> q_ok n' q)) ->
  (forall t h, n_hbs n' !! t = Some h -> n_hbs n !! t = Some h \/ hb_ok n' h) ->
  (forall g q envs, n_kills n' !! g = Some (KPush q envs) ->
     n_kills n !! g = Some (KPush q envs) \/ q_ok n' q) ->
  (forall k s, n_routes n' !! k = Some s -> n_routes n !! k = Some s \/ asked n' s k) ->
  (forall q, q ∈ n_resultCh n' ++ n_batch n' -> q ∈ n_resultCh n ++ n_batch n \/ q_ok n' q) ->
  (forall s resp r, (s, resp) ∈ n_sent n' -> r ∈ Results resp ->
     (s, resp) ∈ n_sent n \/ asked n' s (res_key r)) ->
  node_inv n'.
Proof.
  intros [Il Is Ia Ip Ih Ik Ir Iq It] G Hl Hs Ha Hh Hk Hr Hq Ht. constructor.
  - congruence.
  - intros i sh k a Hi Hk'. destruct (Hs _ _ _ _ Hi Hk') as [(sh0 & Hi0 & Hk0)|]; [|done].
    destruct (Is _ _ _ _ Hi0 Hk0) as [-> Hact]. split; [done|]. by apply G.
  - intros a na Hna. destruct (Ha _ _ Hna) as [Hna0|[? _]]; eauto.
  - intros a na q Hna Hpc. destruct (Ha _ _ Hna) as [Hna0|[_ ?]]; eauto using q_ok_mono.
  - intros t h Ht'. destruct (Hh _ _ Ht') as [|]; eauto using hb_ok_mono.
  - intros g q envs Hg. destruct (Hk _ _ _ Hg) as [|]; eauto using q_ok_mono.
  - intros k s Hk'. destruct (Hr _ _ Hk') as [|]; eauto using asked_mono.
  - intros q Hq'. destruct (Hq _ Hq') as [|]; eauto using q_ok_mono.
  - intros s resp r Hin Hr'. destruct (Ht _ _ _ Hin Hr') as [|]; eauto using asked_mono.
Qed.

(** Steps that leave the actors alone only have to let the history grow. *)
Lemma grows_actors n n' :
  n_submitted n ⊆ n_submitted n' -> n_actors n' = n_actors n -> grows n n'.
Proof. intros Hs Ha. split; [done|]. intros k a (na & Hna & Hk). exists na. by rewrite Ha. Qed.

Lemma grows_set_actor n n' a na na' :
  n_submitted n' = n_submitted n -> n_actors n' = <[a := na']> (n_actors n) ->
  n_actors n !! a = Some na -> (forall k, serves_key k na -> serves_key k na') -> grows n n'.
Proof.
  intros Hs Ha Hna Hk. split; [by rewrite Hs|]. intros k b (nb & Hb & Hkb). unfold has_actor.
  rewrite Ha, lookup_insert. case_decide; [subst; simplify_eq|]; eauto.
Qed.

Lemma serves_stop k na : serves_key k na -> serves_key k (stop_actor na).
Proof. intros []. unfold stop_actor. case_match; by constructor. Qed.

Lemma stop_actors_lookup n ids a na' :
  n_actors (stop_actors ids n) !! a = Some na' ->
  exists na, n_actors n !! a = Some na /\ (na' = na \/ na' = stop_actor na).
Proof.
  unfold stop_actors. simpl. rewrite map_lookup_imap. destruct (n_actors n !! a) as [na|]; [|done].
  simpl. intros [= <-]. exists na. split; [done|]. case_decide; auto.
Qed.

Lemma grows_stop n n' ids :
  n_submitted n' = n_submitted n -> n_actors n' = n_actors (stop_actors ids n) -> grows n n'.
Proof.
  intros Hs Ha. split; [by rewrite Hs|]. intros k a (na & Hna & Hk). unfold has_actor. rewrite Ha.
  unfold stop_actors. simpl. rewrite map_lookup_imap, Hna. simpl.
  eexists. split; [reflexivity|]. case_decide; auto using serves_stop.
Qed.

Lemma stop_pc_same na : na_pc (stop_actor na) = na_pc na.
Proof. unfold stop_actor. by case_match. Qed.

(** Stopping actors and removing references keeps the invariant. *)
Lemma node_inv_stop n n' ids :
  node_inv n -> n_actors n' = n_actors (stop_actors ids n) ->
  length (n_shards n') = length (n_shards n) ->
  (forall i sh k a, n_shards n' !! i = Some sh -> sh !! k = Some a ->
     exists sh0, n_shards n !! i = Some sh0 /\ sh0 !! k = Some a) ->
  n_submitted n' = n_submitted n -> n_hbs n' = n_hbs n -> n_kills n' = n_kills n ->
  n_routes n' = n_routes n -> n_resultCh n' = n_resultCh n -> n_batch n' = n_batch n ->
  n_sent n' = n_sent n -> node_inv n'.
Proof.
  intros I Ha Hl Hs Hsub Hh Hk Hr Hc Hb Ht. assert (grows n n') as G by by eapply grows_stop.
  eapply node_inv_step; eauto; rewrite ?Hh, ?Hk, ?Hr, ?Hc, ?Hb, ?Ht; auto.
  intros a na' Hna'. rewrite Ha in Hna'. apply stop_actors_lookup in Hna' as (na & Hna & [->| ->]); [by left|].
  right. destruct (ni_actor _ I _ _ Hna) as [k Hsk]. split; [exists k; by apply serves_stop|].
  intros q. rewrite stop_pc_same. intros Hpc. eapply q_ok_mono; [done|]. by eapply (ni_apush _ I).
Qed.

(** *** HandleBatch *)

(** The step of a [HandleBatch] goroutine that only moves on (and perhaps changes
    the resolver, the store, the panic flag). *)
Lemma node_inv_move n n' t h :
  node_inv n -> n_hbs n' = <[t := h]> (n_hbs n) -> hb_ok n h ->
  n_shards n' = n_shards n -> n_actors n' = n_actors n -> n_submitted n' = n_submitted n ->
  n_kills n' = n_kills n -> n_routes n' = n_routes n -> n_resultCh n' = n_resultCh n ->
  n_batch n' = n_batch n -> n_sent n' = n_sent n -> node_inv n'.
Proof.
  intros I Hh Hok Hs Ha Hsub Hk Hr Hc Hb Ht.
  assert (grows n n') as G by (apply grows_actors; [by rewrite Hsub|done]).
  apply (node_inv_step n n' I G); rewrite ?Hs, ?Ha, ?Hk, ?Hr, ?Hc, ?Hb, ?Ht; eauto.
  intros t' h'. rewrite Hh, lookup_insert. case_decide; [|by left].
  intros [= <-]. right. by eapply hb_ok_mono.
Qed.

(** The envelope at the head of a batch was submitted, and so were the others. *)
Lemma hb_head n t s env rest pc :
  node_inv n -> n_hbs n !! t = Some (mkHb s (Some env :: rest) pc) ->
  (s, env) ∈ n_submitted n /\ (forall e, Some e ∈ rest -> (s, e) ∈ n_submitted n).
Proof.
  intros I Ht. destruct (ni_hb _ I _ _ Ht) as [Hrest _]. simpl in Hrest. split.
  - apply Hrest. by left.
  - intros e He. apply Hrest. by right.
Qed.
Lemma hb_tail n t s rest pc :
  node_inv n -> n_hbs n !! t = Some (mkHb s rest pc) ->
  (forall e, Some e ∈ rest -> (s, e) ∈ n_submitted n) /\ pc_ok n s pc.
Proof. intros I Ht. by destruct (ni_hb _ I _ _ Ht). Qed.

Lemma asked_submitted n s env : (s, env) ∈ n_submitted n -> asked n s (env_key env).
Proof. intros Hin. by exists env. Qed.

Lemma lookup_actor_ok n k a : node_inv n -> lookup_actor n k = Some a -> has_actor n k a.
Proof.
  intros I. unfold lookup_actor. destruct (n_shards n !! shard_ix k) as [sh|] eqn:E; [|done].
  simpl. intros Hk. by destruct (ni_shard _ I _ _ _ _ E Hk).
Qed.

(** The guard's answers carry the key of the envelope. *)
Lemma check_key resolver ip env r' kill r :
  check_envelope (R := R) resolver ip env = Some (r', Reject kill r) -> res_key r = env_key env.
Proof.
  unfold check_envelope. case_match; [by intros [= <- <- <-]|].
  destruct resolver as [rs|]; [|by intros [=]].
  destruct (tr_GetNodeIP rs _ _) as [[r1 [o|e]]|]; [..|by intros [=]]; cbn [mbind option_bind].
  - case_decide; [by intros [=]|]. by intros [= <- <- <-].
  - by intros [= <- <- <-].
Qed.

(** Removing a reference from a shard. *)
Lemma drop_ref_shards n k i sh k' a :
  n_shards (drop_ref k n) !! i = Some sh -> sh !! k' = Some a ->
  exists sh0, n_shards n !! i = Some sh0 /\ sh0 !! k' = Some a.
Proof.
  unfold drop_ref. simpl. rewrite list_lookup_alter. case_decide as Hix; [subst i|eauto]. intros Hi.
  apply fmap_Some in Hi as (sh0 & Hi & ->). rewrite lookup_delete. case_decide; [done|eauto].
Qed.

Lemma drop_ref_inv n k : node_inv n -> node_inv (drop_ref k n).
Proof.
  intros I. apply (node_inv_step n _ I); auto.
  - by apply grows_actors.
  - unfold drop_ref. simpl. by rewrite length_alter.
  - intros i sh k' a Hi Hk. left. by eapply drop_ref_shards.
Qed.

Lemma push_inv n t s rest pc q :
  node_inv n -> n_hbs n !! t = Some (mkHb s rest (HPush pc q)) ->
  node_inv (set_hb t (mkHb s rest (if pc then HOver else HLoop)) (push_result q n)).
Proof.
  intros I Ht. destruct (hb_tail _ _ _ _ _ I Ht) as [Hrest Hq]. simpl in Hq.
  assert (node_inv (push_result q n)) as I'.
  { apply (node_inv_step n _ I); eauto; [by apply grows_actors|].
    intros q'. simpl. rewrite !elem_of_app, list_elem_of_singleton. intros [[?| ->]|?]; auto. }
  eapply node_inv_move; [exact I'|reflexivity|..]; try done. split; [done|]. by destruct pc.
Qed.

(** The routes change, and nothing else. *)
Lemma routes_inv n f :
  node_inv n -> (forall k s, f (n_routes n) !! k = Some s -> n_routes n !! k = Some s \/ asked n s k) ->
  node_inv (n <| n_routes ::= f |>).
Proof. intros I Hf. apply (node_inv_step n _ I); eauto. by apply grows_actors. Qed.

Lemma set_kill_inv n g pc :
  node_inv n -> (forall q envs, pc = KPush q envs -> q_ok n q) -> node_inv (set_kill g pc n).
Proof.
  intros I Hpc. apply (node_inv_step n _ I); eauto; [by apply grows_actors|].
  intros g' q envs. simpl. rewrite lookup_insert. case_decide; [|by left].
  intros [= ->]. right. by eapply Hpc.
Qed.

(** An actor changes but keeps serving its account. *)
Lemma set_actor_inv n a na na' :
  node_inv n -> n_actors n !! a = Some na -> (forall k, serves_key k na -> serves_key k na') ->
  (forall q, na_pc na' = APush q -> q_ok n q) -> node_inv (set_actor a na' n).
Proof.
  intros I Hna Hk Hq. assert (grows n (set_actor a na' n)) as G by by eapply grows_set_actor.
  apply (node_inv_step n _ I G); eauto. intros b nb. simpl. rewrite lookup_insert.
  case_decide; [|by left]. intros [= <-]. right. subst b.
  destruct (ni_actor _ I _ _ Hna) as [k Hsk]. split; [by exists k; apply Hk|].
  intros q Hpc. by eapply q_ok_mono, Hq.
Qed.

Lemma call_inv n t s envs pc :
  node_inv n -> pc_ok n s pc ->
  n_hbs n !! t = None -> pc = HOver \/ pc = HLoop ->
  node_inv (set_hb t (mkHb s envs pc) n <| n_submitted ::= fun l => l ++ submit s envs |>).
Proof.
  intros I Hpc Ht Hcase.
  assert (grows n (set_hb t (mkHb s envs pc) n <| n_submitted ::= fun l => l ++ submit s envs |>)) as G.
  { apply grows_actors; [|done]. simpl. set_solver. }
  apply (node_inv_step n _ I G); eauto. intros t' h. simpl. rewrite lookup_insert.
  case_decide; [|by left]. intros [= <-]. right. split; [|by destruct Hcase as [-> | ->]].
  simpl. intros env Henv. apply elem_of_app. right. unfold submit.
  apply list_elem_of_fmap_2. apply list_elem_of_omap. by exists (Some env).
Qed.

(** A new actor enters its shard. *)
Lemma create_inv n k a b (w : W) :
  node_inv n -> n_actors n !! a = None -> (tenantID b, uid b) = k -> (exists hist, ring_ok hist b) ->
  node_inv (put_ref k a (set_actor a (mkNodeActor b statusRunning [] AIdle) n) <| n_world := w |>) /\
  has_actor (put_ref k a (set_actor a (mkNodeActor b statusRunning [] AIdle) n) <| n_world := w |>) k a /\
  grows n (put_ref k a (set_actor a (mkNodeActor b statusRunning [] AIdle) n) <| n_world := w |>).
Proof.
  intros I Hnone Hids Hring. set (n' := put_ref _ _ _).
  assert (serves_key k (mkNodeActor b statusRunning [] AIdle)) as Hsk by by constructor.
  assert (has_actor n' k a) as Hact.
  { eexists. split; [|exact Hsk]. simpl. by rewrite lookup_insert_eq. }
  assert (grows n n') as G.
  { split; [done|]. intros k' a' (na & Hna & Hk'). exists na. split; [|done]. simpl.
    rewrite lookup_insert_ne; [done|congruence]. }
  split_and!; [|done|done]. apply (node_inv_step n n' I G); eauto.
  - simpl. by rewrite length_alter.
  - intros i sh k' a'. simpl. rewrite list_lookup_alter. case_decide as Hix; [subst i|eauto].
    intros (sh0 & Hi & ->)%fmap_Some. rewrite lookup_insert. case_decide as Hk; [|eauto].
    intros [= <-]. right. by subst k'.
  - intros a' na. simpl. rewrite lookup_insert. case_decide; [|by left]. intros [= <-].
    right. split; [by exists k|done].
Qed.

Lemma move_inv n t h : node_inv n -> hb_ok n h -> node_inv (set_hb t h n).
Proof. intros I Hok. by eapply (node_inv_move n _ t h). Qed.

Lemma kill_stop_inv n t s rest a q g :
  node_inv n -> n_hbs n !! t = Some (mkHb s rest (HKill a q)) ->
  node_inv (set_kill g (KWait a) (stop_actors [a] (set_hb t (mkHb s rest (HPush false q)) n))).
Proof.
  intros I Ht. destruct (hb_tail _ _ _ _ _ I Ht) as [Hrest Hq].
  apply set_kill_inv; [|done].
  eapply (node_inv_stop (set_hb t (mkHb s rest (HPush false q)) n) _ [a]); eauto.
  by apply move_inv.
Qed.

Lemma create_new_inv n t s env rest now w' b a :
  node_inv n -> n_hbs n !! t = Some (mkHb s rest (HCreate env)) ->
  rehydrate (n_world n) (newBusinessActor (EnvTenantId env) (EnvUid env) now) = Some (w', (b, None)) ->
  n_actors n !! a = None ->
  node_inv (put_ref (actor_key env) a
              (set_actor a (mkNodeActor b statusRunning [] AIdle)
                 (set_hb t (mkHb s rest (HRoute env a)) n)) <| n_world := w' |>).
Proof.
  intros I Ht E Hnone. destruct (hb_tail _ _ _ _ _ I Ht) as [Hrest Hsub]. simpl in Hsub.
  destruct (rehydrate_safe (n_world n) _ [] (newBusinessActor_ring (EnvTenantId env) (EnvUid env) now))
    as (w1 & b1 & err & hist & E1 & R1 & HT & HU). rewrite E in E1. simplify_eq.
  destruct (create_inv n (actor_key env) a b1 w1 I Hnone) as (I' & Hact & G);
    [unfold actor_key; simpl in *; congruence|by exists hist|].
  eapply (node_inv_move _ _ t (mkHb s rest (HRoute env a)) I'); try reflexivity.
  split; [exact Hrest|]. by split.
Qed.

Lemma enqueue_inv n t s env rest a na :
  node_inv n -> n_hbs n !! t = Some (mkHb s rest (HEnq env a)) -> n_actors n !! a = Some na ->
  node_inv (set_actor a (mkNodeActor (na_biz na) (na_status na) (na_mailbox na ++ [env]) (na_pc na))
              (set_hb t (mkHb s rest HLoop) n)).
Proof.
  intros I Ht Hna. destruct (hb_tail _ _ _ _ _ I Ht) as [Hrest [Hsub (na' & Hna' & Hsk)]].
  rewrite Hna in Hna'. injection Hna' as <-.
  eapply (set_actor_inv _ a na); [by apply move_inv|done| |].
  - intros k [Hi Hm Hr]. destruct Hsk as [Hi' _ _]. constructor; simpl; try done.
    apply Forall_app. split; [done|]. apply Forall_singleton. congruence.
  - simpl. intros q Hpc. by eapply (ni_apush _ I).
Qed.

Lemma hb_step_inv n n' : node_inv n -> hb_step cfg n n' -> node_inv n'.
Proof.
  intros I Hst. destruct Hst as
    [t s envs pending Ht Hp|t s rest Ht|t s env rest Ht|t s over Ht Ho|t s rest over q Ht Hroom
    |t s rest Ht|t s env rest Ht E|t s env rest r' Ht E|t s env rest r' kill r Ht E Hl
    |t s env rest r' r a Ht E Hl|t s rest a q g Ht Hg|t s env rest Ht|t s env rest a Ht Hl
    |t s env rest now w' b a Ht Hl E Ha|t s env rest now w' b e Ht Hl E|t s env rest now Ht E
    |t s env rest a Ht|t s env rest a na Ht Hna|t s env rest a na Ht Hna|t s env rest a Ht
    |t s env rest a Ht];
    try (destruct (hb_tail _ _ _ _ _ I Ht) as [Hrest Hpc]; simpl in Hpc);
    try (destruct (hb_head _ _ _ _ _ _ I Ht) as [Henv Hrest']).
  - apply call_inv; [done| |done|]; case_decide; auto; done.
  - apply move_inv; [done|]. split; [|done]. intros e He. apply Hrest. by right.
  - apply move_inv; [done|]. split; [done|]. by apply asked_submitted.
  - apply move_inv; [done|]. by split.
  - by apply push_inv.
  - eapply (node_inv_move n _ t); try reflexivity; [done|]. split; [|done]. intros e He. apply Hrest. by right.
  - by eapply (node_inv_move n _ t).
  - by eapply (node_inv_move n _ t).
  - eapply (node_inv_move n _ t); try reflexivity; [done|]. split; [done|]. simpl. unfold q_ok. simpl.
    rewrite (check_key _ _ _ _ _ _ E). by apply asked_submitted.
  - apply drop_ref_inv. eapply (node_inv_move n _ t); try reflexivity; [done|]. split; [done|].
    simpl. unfold q_ok. simpl. rewrite (check_key _ _ _ _ _ _ E). by apply asked_submitted.
  - by apply kill_stop_inv.
  - apply move_inv; [done|]. split; [done|]. simpl.
    destruct (lookup_actor n _) eqn:El; [|done]. split; [done|]. by apply lookup_actor_ok.
  - apply move_inv; [done|]. split; [done|]. split; [done|]. by apply lookup_actor_ok.
  - by eapply create_new_inv.
  - eapply (node_inv_move n _ t); try reflexivity; [done|]. split; [done|]. by apply asked_submitted.
  - by eapply (node_inv_move n _ t).
  - destruct Hpc as [Hsub Hact].
    apply (routes_inv (set_hb t (mkHb s rest (HSend env a)) n)); [by apply move_inv|].
    intros k s'. rewrite lookup_insert. case_decide; [|by left]. intros [= <-]. subst k. right.
    by apply asked_submitted.
  - apply move_inv; [done|]. split; [done|]. simpl. by case_match.
  - by apply enqueue_inv.
  - apply (routes_inv (set_hb t (mkHb s rest (HEvict env a)) n)); [by apply move_inv|].
    intros k s'. rewrite lookup_delete. case_decide; [done|by left].
  - destruct Hpc as [Hsub _]. assert (node_inv (set_hb t (mkHb s rest (HLookup env)) n)) as I' by by apply move_inv.
    simpl. case_decide; [by apply drop_ref_inv|done].
Qed.

(** *** Actors, evictions, the aggregator, shutdown *)

(** The store and the list of goroutines are outside the invariant. *)
Lemma world_inv n w f : node_inv n -> node_inv (n <| n_world := w |> <| n_goroutines ::= f |>).
Proof. intros I. apply (node_inv_step n _ I); eauto. by apply grows_actors. Qed.

Lemma push_result_inv n q : node_inv n -> q_ok n q -> node_inv (push_result q n).
Proof.
  intros I Hq. apply (node_inv_step n _ I); eauto; [by apply grows_actors|].
  intros q'. simpl. rewrite !elem_of_app, list_elem_of_singleton. intros [[?| ->]|?]; auto.
Qed.

Lemma serves_handle k na now w env rest h pc :
  serves_key k na -> na_mailbox na = env :: rest ->
  Handle now (W := W) w (na_biz na) env = Some h ->
  serves_key k (mkNodeActor (h_actor h) (na_status na) rest pc).
Proof.
  intros [Hi Hm [hist R0]] Hmail E. rewrite Hmail in Hm. apply list.Forall_cons in Hm as [_ Hm].
  destruct (handle_ids _ _ _ _ _ E) as [HT HU].
  destruct (handle_ring _ _ _ _ _ _ R0 E) as (hist' & R' & _).
  constructor; simpl; [congruence|done|by exists hist'].
Qed.

Lemma serves_pc k na st pc : serves_key k na -> serves_key k (mkNodeActor (na_biz na) st (na_mailbox na) pc).
Proof. intros []. by constructor. Qed.

Lemma actor_step_inv n n' : node_inv n -> actor_step n n' -> node_inv n'.
Proof.
  intros I Hst. destruct Hst as
    [a na env rest now h Hna Hpc Hm E|a na env rest now Hna Hpc Hm E|a na Hna Hpc Hm|a na Hna Hpc Hs
    |a na Hna Hpc Hs|a na r Hna Hpc|a na q Hna Hpc Hroom].
  - eapply (set_actor_inv (n <| n_world := h_world h |> <| n_goroutines ::= fun l => l ++ h_spawned h |>));
      [by apply world_inv|done| |done].
    intros k Hk. by eapply serves_handle.
  - apply (node_inv_step n _ I); eauto. by apply grows_actors.
  - eapply set_actor_inv; [done|done| |done]. intros k Hk. rewrite <- Hm. by apply serves_pc.
  - eapply set_actor_inv; [done|done| |done]. intros k Hk. by apply serves_pc.
  - eapply set_actor_inv; [done|done| |done]. intros k Hk. by apply serves_pc.
  - eapply (set_actor_inv (n <| n_routes ::= delete (res_key r) |>) a na).
    + apply routes_inv; [done|]. intros k s. rewrite lookup_delete. case_decide; [done|by left].
    + done.
    + intros k Hk. by apply serves_pc.
    + simpl. intros q. destruct (n_routes n !! res_key r) as [s|] eqn:Eroute; [|done].
      intros [= <-]. exact (ni_route _ I _ _ Eroute).
  - pose proof (ni_apush _ I _ _ _ Hna Hpc) as Hq.
    eapply (set_actor_inv (push_result q n) a na); [by apply push_result_inv|done| |done].
    intros k Hk. by apply serves_pc.
Qed.

Lemma kill_step_inv n n' : node_inv n -> kill_step n n' -> node_inv n'.
Proof.
  intros I [g a na Hg Hna Hs|g env envs Hg|g q envs Hg Hroom].
  - eapply (set_actor_inv (set_kill g (KNext (na_mailbox na)) n) a na); [by apply set_kill_inv|done| |].
    + intros k []. by constructor.
    + simpl. intros q Hpc. by eapply (ni_apush _ I).
  - apply (set_kill_inv (n <| n_routes ::= delete (env_key env) |>)).
    + apply routes_inv; [done|]. intros k s. rewrite lookup_delete. case_decide; [done|by left].
    + intros q envs'. destruct (n_routes n !! env_key env) as [s|] eqn:Eroute; [|done].
      intros [= <- _]. exact (ni_route _ I _ _ Eroute).
  - pose proof (ni_kpush _ I _ _ _ Hg) as Hq.
    apply (set_kill_inv (push_result q n)); [by apply push_result_inv|done].
Qed.

(** Everything a flush sends was in the batch, for that stream. *)
Lemma flush_sends_in batch gs s resp r :
  gs ≡ₚ group_results batch -> (s, resp) ∈ flush_sends gs -> r ∈ Results resp ->
  exists q, q ∈ batch /\ q_reply q = s /\ q_res q = r.
Proof.
  intros Hp Hin Hr. assert (r ∈ received s (flush_sends gs)) as Hrec.
  { unfold received. apply list_elem_of_In, in_concat. exists (Results resp).
    split; [|by apply list_elem_of_In]. apply list_elem_of_In, list_elem_of_fmap.
    exists (s, resp). split; [done|]. by apply list_elem_of_filter. }
  rewrite received_flush, <- (results_for_perm s _ _ (group_results_nodup batch) (symmetry Hp)) in Hrec.
  rewrite group_results_for in Hrec. apply list_elem_of_fmap in Hrec as (q & -> & Hq).
  apply list_elem_of_filter in Hq as [Hs Hq]. by exists q.
Qed.

Lemma flush_inv n gs :
  node_inv n -> gs ≡ₚ group_results (n_batch n) -> node_inv (flush gs n).
Proof.
  intros I Hp. apply (node_inv_step n _ I); eauto; [by apply grows_actors|..].
  - intros q. simpl. rewrite app_nil_r. intros Hq. left. apply elem_of_app. by left.
  - intros s resp r. simpl. rewrite elem_of_app. intros [|Hin] Hr; [by left|right].
    destruct (flush_sends_in _ _ _ _ _ Hp Hin Hr) as (q & Hq & <- & <-).
    apply (ni_results _ I). apply elem_of_app. by right.
Qed.

Lemma recv_inv n q rest :
  node_inv n -> n_resultCh n = q :: rest ->
  node_inv (n <| n_resultCh := rest |> <| n_batch ::= fun b => b ++ [q] |>).
Proof.
  intros I Hc. apply (node_inv_step n _ I); eauto; [by apply grows_actors|].
  intros q'. simpl. rewrite Hc. left. set_solver.
Qed.

Lemma agg_step_inv n n' : node_inv n -> agg_step n n' -> node_inv n'.
Proof.
  intros I [q rest He Hc Hlen|q rest gs He Hc Hlen Hp|gs He Hp|gs He Hs Hp].
  - by apply recv_inv.
  - apply (flush_inv _ gs (recv_inv _ _ _ I Hc) Hp).
  - by apply flush_inv.
  - apply (node_inv_step (flush gs n) _ (flush_inv _ _ I Hp)); eauto. by apply grows_actors.
Qed.

(** Passivation and the sweep of [Stop] on one shard. *)
Lemma shard_stop_inv n (ids : list nat) (i : nat) (f : gmap (Z * Z) nat -> gmap (Z * Z) nat) :
  node_inv n -> (forall sh k a, f sh !! k = Some a -> sh !! k = Some a) ->
  node_inv (stop_actors ids n <| n_shards ::= alter f i |>).
Proof.
  intros I Hf. eapply (node_inv_stop n _ ids I); try reflexivity.
  - simpl. by rewrite length_alter.
  - intros j sh k a. simpl. rewrite list_lookup_alter. case_decide as Hix; [subst j|eauto].
    intros (sh0 & Hi & ->)%fmap_Some Hk. eauto.
Qed.

Lemma pass_step_inv n n' : node_inv n -> pass_step n n' -> node_inv n'.
Proof.
  assert (forall m pc, node_inv m -> node_inv (m <| n_pass := pc |>)) as Hpc.
  { intros m pc I. apply (node_inv_step m _ I); eauto. by apply grows_actors. }
  intros I [now H2|i now H2 Hi|now H2|H2 Hc]; apply Hpc; try done. apply shard_stop_inv; [done|]. intros sh k a Hk.
  by apply map_lookup_filter_Some in Hk as [? _].
Qed.

Lemma node_stop_step_inv n n' : node_inv n -> node_stop_step n n' -> node_inv n'.
Proof.
  assert (forall m st, node_inv m -> node_inv (m <| n_stop := st |>)) as Hst.
  { intros m st I. apply (node_inv_step m _ I); eauto. by apply grows_actors. }
  intros I [H2|i stopping H2 Hi|stopping H2|a stopping na H2 Hna Hd|H2]; try by apply Hst.
  apply Hst. unfold sweep. simpl. apply shard_stop_inv; [done|]. intros sh k a. by rewrite lookup_empty.
Qed.

Lemma node_step_inv n n' : node_inv n -> node_step cfg n n' -> node_inv n'.
Proof.
  intros I [_ [Hs|Hs|Hs|Hs|Hs|Hs|w r ->]].
  - by eapply hb_step_inv.
  - by eapply actor_step_inv.
  - by eapply kill_step_inv.
  - by eapply agg_step_inv.
  - by eapply node_stop_step_inv.
  - by eapply pass_step_inv.
  - apply (node_inv_step n _ I); eauto. by apply grows_actors.
Qed.

Lemma NewNode_inv (w : W) (r : option R) : node_inv (NewNode w r).
Proof.
  constructor; cbn -[replicate]; try (intros *; rewrite lookup_empty; by intros [=]).
  - apply length_replicate.
  - intros i sh k a [-> _]%lookup_replicate. by rewrite lookup_empty.
  - intros q ?%not_elem_of_nil. done.
  - intros s resp x ?%not_elem_of_nil. done.
Qed.

Lemma node_reachable_inv n : node_reachable cfg n -> node_inv n.
Proof.
  intros (w & r & Hs). eapply (rtc_invariant (node_step cfg) node_inv); [|apply NewNode_inv|exact Hs].
  apply node_step_inv.
Qed.
End Invariant.

(** ** Rest *)

(** The node has nothing in hand: no batch has an envelope left, mailboxes are empty
    and actors idle, no eviction has an envelope to answer, and the result channel and
    the batch of the aggregator are empty. *)
Definition quiescent {W R} (n : node W R) : bool :=
  map_forallb (fun h => match hb_rest h, hb_at h with [], (HOver | HLoop | HDone) => true | _, _ => false end) (n_hbs n) &&
  map_forallb (fun na => match na_mailbox na, na_pc na with [], (AIdle | AEmpty | AExited) => true | _, _ => false end) (n_actors n) &&
  map_forallb (fun g => match g with KWait _ | KNext [] => true | _ => false end) (n_kills n) &&
  match n_resultCh n, n_batch n with [], [] => true | _, _ => false end.
