(* ===== verification/LedgerView.v ===== *)
(** * Ledgers and their writers

    What keeps the histories of accounts, seen from the store: a set of actors, on
    one node or on several, that write one store.  [effect] says what a step may do
    to it; [effect_ledger] shows that every history stays gap-free, never negative and
    only grows, and that every success on its way to a client is in one, as long as an
    account has one writer at a time.  [NodeLedger] uses it for one process,
    [ClusterLedger] for many. *)

From S2P Require Import Prelude Wire Routing Discovery Mailbox Store Wallet WalletSpec WalletSystem Node NodeInv.

Definition actor_ids (na : node_actor) : ActorKey := (tenantID (na_biz na), uid (na_biz na)).

(** An account as another process leaves it. *)
Definition undisturbed (d d' : tables) : Prop :=
  forall k : ActorKey, rows_of d' k.1 k.2 = rows_of d k.1 k.2 /\
    wallet_snapshots d' !! k = wallet_snapshots d !! k.

Lemma undisturbed_eq d d' : d' = d -> undisturbed d d'.
Proof. by intros ->. Qed.

(** The actors by some name, the store, the snapshot statements under way, and the
    results that are under way or sent. *)
Record view (W K : Type) := mkView {
  v_actor : K -> option node_actor;
  v_world : W;
  v_goroutines : list Statement;
  v_carries : RemoteResult -> Prop;
}.
Arguments mkView {W K}.
Arguments v_actor {W K}.
Arguments v_world {W K}.
Arguments v_goroutines {W K}.
Arguments v_carries {W K}.

Section Views.
Context {W K : Type} `{WalletDB W} `{EqDecision K}.
Implicit Types v : view W K.

(** A new actor finds every earlier actor of its account ended. *)
Definition sole_writer v v' : Prop :=
  forall a na a' na', v_actor v a = None -> v_actor v' a = Some na ->
    v_actor v a' = Some na' -> actor_ids na' = actor_ids na -> na_pc na' = AExited.

(** Actors keep their memory, and those that have ended stay so. *)
Definition keeps_writers v v' : Prop :=
  (forall a na', v_actor v' a = Some na' -> exists na, v_actor v a = Some na /\
     na_biz na' = na_biz na /\ (na_pc na = AExited -> na_pc na' = AExited)) /\
  (forall a, is_Some (v_actor v a) -> is_Some (v_actor v' a)).

Definition no_new_result v v' : Prop :=
  forall r, v_carries v' r -> ResSuccess r = true -> v_carries v r.

(** One actor is replaced, or added. *)
Definition sets_actor v v' (a : K) (na' : node_actor) : Prop :=
  v_actor v' a = Some na' /\ forall a', a' <> a -> v_actor v' a' = v_actor v a'.

Inductive effect v v' : Prop :=
  | ef_quiet :
      keeps_writers v v' -> undisturbed (db (v_world v)) (db (v_world v')) ->
      v_goroutines v' ⊆ v_goroutines v -> no_new_result v v' -> effect v v'
  | ef_create (k : ActorKey) now b a :
      v_actor v a = None -> sets_actor v v' a (mkNodeActor b statusRunning [] AIdle) ->
      rehydrate (v_world v) (newBusinessActor k.1 k.2 now) = Some (v_world v', (b, None)) ->
      v_goroutines v' ⊆ v_goroutines v -> no_new_result v v' -> effect v v'
  | ef_handle a na na' env now h :
      v_actor v a = Some na -> na_pc na <> AExited -> env ∈ na_mailbox na -> actor_key env = actor_ids na ->
      Handle now (v_world v) (na_biz na) env = Some h ->
      sets_actor v v' a na' -> na_biz na' = h_actor h -> v_world v' = h_world h ->
      v_goroutines v' ⊆ v_goroutines v ++ h_spawned h ->
      (forall r, v_carries v' r -> ResSuccess r = true ->
         v_carries v r \/ r = completeResult (h_result h) env) -> effect v v'
  | ef_snapshot stmt :
      stmt ∈ v_goroutines v -> (forall a, v_actor v' a = v_actor v a) ->
      v_world v' = (ExecuteBatch (v_world v) UnloggedBatch [stmt]).1 ->
      v_goroutines v' ⊆ v_goroutines v -> no_new_result v v' -> effect v v'
  | ef_crash :
      (forall a na, v_actor v' a = Some na -> v_actor v a = Some na) -> v_world v' = v_world v ->
      v_goroutines v' ⊆ v_goroutines v -> no_new_result v v' -> effect v v'.

(** ** The invariant *)

(** The actor that may write the account [k]: every other one has ended. *)
Definition live v (k : ActorKey) (o : option BusinessActor) : Prop :=
  match o with
  | None => forall a na, v_actor v a = Some na -> actor_ids na = k -> na_pc na = AExited
  | Some b => exists a na, v_actor v a = Some na /\ na_biz na = b /\ actor_ids na = k /\
      forall a' na', v_actor v a' = Some na' -> actor_ids na' = k -> a' <> a -> na_pc na' = AExited
  end.

(** The history of the account [k] is [log], and perhaps a row [ph] whose write was
    reported as failed. *)
Record account_inv (m : nat) v (k : ActorKey) (log ph : list wallet_event) : Prop := {
  ac_writer : exists o, live v k o /\ winv k.1 k.2 m (mkSys (v_world v) o [] []) log ph;
  ac_snapshot b ver : snapshot_stmt k.1 k.2 b ver ∈ v_goroutines v -> prefix_snapshot log b ver;
  ac_result r : v_carries v r -> ResSuccess r = true -> (ResTenantId r, ResUid r) = k -> ResTxId r ∈ tx_id <$> log;
}.

Record ledger_inv (base : ActorKey -> list wallet_event) (m : nat) v : Prop := {
  li_snapshots stmt : stmt ∈ v_goroutines v -> exists (k : ActorKey) b ver, stmt = snapshot_stmt k.1 k.2 b ver;
  li_account k : exists log ph, base k `prefix_of` log /\ account_inv m v k log ph;
}.

(** ** Histories *)

Lemma winv_up t u m m' (s : wsys W) log ph : winv t u m s log ph -> (m <= m')%nat -> winv t u m' s log ph.
Proof. intros [] Hm. constructor; try done. lia. Qed.

Lemma winv_forget t u m (s : wsys W) log ph :
  winv t u m s log ph -> winv t u m (mkSys (ws_world s) (ws_actor s) [] []) log ph.
Proof. intros []. constructor; simpl; try done. apply sublist_nil_l. Qed.

Lemma prefix_snapshot_prefix log log' b ver :
  log `prefix_of` log' -> prefix_snapshot log b ver -> prefix_snapshot log' b ver.
Proof. intros [x ->]. apply prefix_snapshot_app. Qed.

Lemma tx_prefix log log' tx : log `prefix_of` log' -> tx ∈ tx_id <$> log -> tx ∈ tx_id <$> log'.
Proof. intros [x ->]. rewrite fmap_app, elem_of_app. by left. Qed.

Lemma snapshot_stmt_inj (k k' : ActorKey) b ver b' ver' :
  snapshot_stmt k.1 k.2 b ver = snapshot_stmt k'.1 k'.2 b' ver' -> k = k' /\ b = b' /\ ver = ver'.
Proof. destruct k, k'. unfold snapshot_stmt. simpl. intros [=]. subst. done. Qed.

(** ** One account in one step *)

Lemma account_change m v v' k log ph log' ph' o' :
  account_inv m v k log ph -> log `prefix_of` log' ->
  live v' k o' -> winv k.1 k.2 (S m) (mkSys (v_world v') o' [] []) log' ph' ->
  (forall b ver, snapshot_stmt k.1 k.2 b ver ∈ v_goroutines v' ->
     snapshot_stmt k.1 k.2 b ver ∈ v_goroutines v \/ prefix_snapshot log' b ver) ->
  (forall r, v_carries v' r -> ResSuccess r = true -> (ResTenantId r, ResUid r) = k ->
     v_carries v r \/ ResTxId r ∈ tx_id <$> log') ->
  account_inv (S m) v' k log' ph'.
Proof.
  intros [_ Is Ir] Hpre Hl Hw Hs Hr. constructor; [by exists o'|..].
  - intros b ver Hin. destruct (Hs _ _ Hin) as [Hin0|]; [|done]. by eapply prefix_snapshot_prefix, Is.
  - intros r Hc Hok Hk. destruct (Hr _ Hc Hok Hk) as [Hc0|]; [|done]. by eapply tx_prefix, Ir.
Qed.

(** A step that leaves the account to its writer. *)
Lemma account_keep m v v' k log ph :
  account_inv m v k log ph -> (forall o, live v k o -> live v' k o) ->
  rows_of (db (v_world v')) k.1 k.2 = rows_of (db (v_world v)) k.1 k.2 ->
  snapshot_ok (db (v_world v')) k.1 k.2 log ->
  (forall b ver, snapshot_stmt k.1 k.2 b ver ∈ v_goroutines v' -> snapshot_stmt k.1 k.2 b ver ∈ v_goroutines v) ->
  (forall r, v_carries v' r -> ResSuccess r = true -> (ResTenantId r, ResUid r) = k -> v_carries v r) ->
  account_inv (S m) v' k log ph.
Proof.
  intros I Hl Hr Hs Hg Hc. destruct (ac_writer _ _ _ _ _ I) as (o & Hlo & Iw).
  apply (account_change m v v' k log ph log ph o I); eauto. apply (winv_up _ _ m); [|lia].
  by apply (winv_world _ _ _ _ _ _ (v_world v') Iw).
Qed.

Lemma snapshot_unchanged d d' (k : ActorKey) log :
  wallet_snapshots d' !! k = wallet_snapshots d !! k -> snapshot_ok d k.1 k.2 log -> snapshot_ok d' k.1 k.2 log.
Proof. intros E Hs b v. rewrite <- surjective_pairing, E. intros Hb. apply Hs. by rewrite <- surjective_pairing. Qed.

Lemma account_snapshot m v k log ph : account_inv m v k log ph -> snapshot_ok (db (v_world v)) k.1 k.2 log.
Proof. intros []. destruct ac_writer0 as (o & _ & []). done. Qed.

(** *** Writers *)

Lemma keeps_live v v' k o : keeps_writers v v' -> live v k o -> live v' k o.
Proof.
  intros [Hb Hf]. assert (forall a na na', v_actor v a = Some na -> v_actor v' a = Some na' ->
    na_biz na' = na_biz na /\ (na_pc na = AExited -> na_pc na' = AExited)) as Hsame.
  { intros a na na' Ha Ha'. destruct (Hb _ _ Ha') as (na0 & ? & ?). by simplify_eq. }
  destruct o as [b|]; simpl.
  - intros (a & na & Ha & Hbiz & Hids & Hu). destruct (Hf a) as [na' Ha']; [by eauto|].
    destruct (Hsame _ _ _ Ha Ha') as [E _]. exists a, na'. unfold actor_ids in *. rewrite E.
    split_and!; auto. intros a1 na1 H3 Hk Hne. destruct (Hb _ _ H3) as (na2 & H4 & E2 & Hx).
    rewrite E2 in Hk. eauto.
  - intros Hn a na' Ha'. destruct (Hb _ _ Ha') as (na & Ha & E & Hx). unfold actor_ids in *. rewrite E. eauto.
Qed.

(** The actor of one account changes: the other accounts keep their writer. *)
Lemma live_other v v' a na' k k' o :
  sets_actor v v' a na' -> actor_ids na' = k ->
  (forall na, v_actor v a = Some na -> actor_ids na = k) -> k' <> k -> live v k' o -> live v' k' o.
Proof.
  intros [E Eo] Hk Hold Hne. assert (forall b nb, v_actor v' b = Some nb -> actor_ids nb = k' ->
    v_actor v b = Some nb) as Hback.
  { intros b nb Hb. destruct (decide (b = a)) as [->|Hba]; [|by rewrite <- Eo]. congruence. }
  destruct o as [b|]; simpl.
  - intros (a1 & na & Ha & Hb & Hids & Hu). exists a1, na. split_and!; eauto.
    rewrite Eo; [done|]. intros ->. rewrite (Hold _ Ha) in Hids. congruence.
  - intros Hn a1 na Ha Hids. by eapply Hn; [apply Hback|].
Qed.

(** An actor that is about to handle a transaction is the writer of its account. *)
Lemma live_writer v a na k o :
  live v k o -> v_actor v a = Some na -> actor_ids na = k -> na_pc na <> AExited -> o = Some (na_biz na).
Proof.
  destruct o as [b|]; simpl.
  - intros (a1 & na1 & Ha1 & Hb & Hids & Hu) Ha Hk Hpc. destruct (decide (a = a1)) as [->|Hne].
    + congruence.
    + by destruct (Hpc (Hu _ _ Ha Hk Hne)).
  - intros Hn Ha Hk Hpc. by destruct Hpc; eapply Hn.
Qed.

(** *** Effects *)

(** Reading does not change the tables. *)
Lemma rehydrate_db (w w' : W) b res : rehydrate w b = Some (w', res) -> db w' = db w.
Proof.
  unfold rehydrate. destruct (Query w snapCQL _ _ _) as [w1 [[sb lv] err]] eqn:E1.
  apply (db_select _ _ _ _ _ _ _ _ _ (sel_snapshot _ _)) in E1 as [<- _].
  destruct err as [e|]; [by intros [= <- _]|].
  destruct (Query w1 eventCQL _ _ _) as [w2 [st err2]] eqn:E2.
  apply (db_select _ _ _ _ _ _ _ _ _ (sel_events _ _ _)) in E2 as [<- _].
  destruct st as [[[pv bal] b1]|]; [|done]. cbn [mbind option_bind]. destruct err2; by intros [= <- _].
Qed.

Lemma rehydrate_ids (w w' : W) (k : ActorKey) now b res :
  rehydrate w (newBusinessActor k.1 k.2 now) = Some (w', (b, res)) -> (tenantID b, uid b) = k.
Proof.
  intros E. destruct (rehydrate_safe w _ [] (newBusinessActor_ring k.1 k.2 now))
    as (w1 & b1 & err & hist & E1 & _ & HT & HU). rewrite E in E1. simplify_eq. simpl in HT, HU.
  rewrite HT, HU. by destruct k.
Qed.

(** The result an actor emits is about its account and the transaction. *)
Lemma emitted_identity now (w : W) b env h :
  Handle now w b env = Some h -> actor_key env = (tenantID b, uid b) ->
  let r := completeResult (h_result h) env in
  (ResTenantId r, ResUid r) = (tenantID b, uid b) /\ ResTxId r = EnvTxId env /\
  ResSuccess r = ResSuccess (h_result h).
Proof.
  intros (HT & HU & Htx & _ & _)%handle_identity [= Et Eu]. unfold completeResult. simpl.
  rewrite HT, HU, Htx, Et, Eu. repeat case_decide; auto.
Qed.

Definition grown m v' (k : ActorKey) (log : list wallet_event) : Prop :=
  exists log' ph', log `prefix_of` log' /\ account_inv (S m) v' k log' ph'.

Lemma grown_keep m v' k log ph : account_inv (S m) v' k log ph -> grown m v' k log.
Proof. intros I. by exists log, ph. Qed.

Lemma create_account m v v' k now b a k' log ph :
  account_inv m v k' log ph -> Z.of_nat m < 2 ^ 63 - 1 -> sole_writer v v' ->
  v_actor v a = None -> sets_actor v v' a (mkNodeActor b statusRunning [] AIdle) ->
  rehydrate (v_world v) (newBusinessActor k.1 k.2 now) = Some (v_world v', (b, None)) ->
  v_goroutines v' ⊆ v_goroutines v -> no_new_result v v' -> grown m v' k' log.
Proof.
  intros I Hm Hsole Hnone Hset E Hg Hc. pose proof (rehydrate_db _ _ _ _ E) as Hdb.
  assert (actor_ids (mkNodeActor b statusRunning [] AIdle) = k) as Hids by exact (rehydrate_ids _ _ _ _ _ _ E).
  pose proof (account_snapshot _ _ _ _ _ I) as Hsn. destruct (decide (k' = k)) as [->|Hk].
  - destruct (ac_writer _ _ _ _ _ I) as (o & Hlo & Iw). exists (log ++ ph), []. split; [by apply prefix_app_r|].
    eapply (account_change m v v' k log ph _ [] (Some b) I); [by apply prefix_app_r| | |auto|auto].
    + exists a, (mkNodeActor b statusRunning [] AIdle). destruct Hset as [Ha Ho]. split_and!; try done.
      intros a' na' Ha' Hk' Hne. rewrite Ho in Ha' by done. eapply (Hsole a _ a' na'); [done|done|done|congruence].
    + apply (winv_up _ _ m); [|lia].
      by apply (winv_start k.1 k.2 m _ _ _ _ now (winv_gone _ _ _ _ _ _ Iw) Hm E).
  - eapply grown_keep, (account_keep m v v' k' log ph I); rewrite ?Hdb; auto.
    intros o. eapply live_other; [done|done| |done]. congruence.
Qed.

Lemma handle_account m v v' a na na' env now h k' log ph :
  account_inv m v k' log ph -> Z.of_nat m + 1 < 2 ^ 63 ->
  v_actor v a = Some na -> na_pc na <> AExited -> actor_key env = actor_ids na ->
  Handle now (v_world v) (na_biz na) env = Some h ->
  sets_actor v v' a na' -> na_biz na' = h_actor h -> v_world v' = h_world h ->
  v_goroutines v' ⊆ v_goroutines v ++ h_spawned h ->
  (forall r, v_carries v' r -> ResSuccess r = true -> v_carries v r \/ r = completeResult (h_result h) env) ->
  (forall stmt, stmt ∈ h_spawned h -> exists b ver, stmt = snapshot_stmt (actor_ids na).1 (actor_ids na).2 b ver) ->
  frame (actor_ids na).1 (actor_ids na).2 (db (v_world v)) (db (v_world v')) ->
  grown m v' k' log.
Proof.
  intros I Hm Ha Hpc Henv E Hset Hbiz Hw Hg Hc Hsp Hfr. set (k := actor_ids na) in *.
  destruct (handle_ids _ _ _ _ _ E) as [HT HU].
  destruct (emitted_identity _ _ _ _ _ E Henv) as (Hkr & Htx & Hok). cbv zeta in Hkr, Htx, Hok.
  assert (actor_ids na' = k) as Hids by (unfold actor_ids; rewrite Hbiz, HT, HU; done).
  destruct (decide (k' = k)) as [->|Hk].
  - destruct (ac_writer _ _ _ _ _ I) as (o & Hlo & Iw).
    assert (o = Some (na_biz na)) as -> by (by eapply live_writer).
    destruct (winv_handle k.1 k.2 m (mkSys (v_world v) (Some (na_biz na)) [] []) _ _ (na_biz na) env now h Iw Hm eq_refl E)
      as (log' & ph' & Iw' & Hpre & Hsucc & _). exists log', ph'. split; [done|].
    eapply (account_change m v v' k log ph log' ph' (Some (h_actor h)) I Hpre).
    + destruct Hlo as (a1 & na1 & Ha1 & Hb1 & Hids1 & Hu). destruct Hset as [Ha' Ho]. exists a, na'.
      split_and!; [done..|]. intros b nb Hb Hk' Hne. rewrite Ho in Hb by done.
      destruct (decide (b = a1)) as [->|]; [|by eapply Hu]. exfalso. apply Hpc, (Hu a na Ha eq_refl). congruence.
    + rewrite Hw. apply (winv_forget _ _ _ _ _ _ Iw').
    + intros b ver [Hin|Hin]%Hg%elem_of_app; [by left|right].
      pose proof (wi_goroutines _ _ _ _ _ _ Iw') as Hgs. simpl in Hgs. rewrite list.Forall_forall in Hgs.
      destruct (Hgs _ Hin) as (b' & ver' & Hp & Est). by destruct (snapshot_stmt_inj k k _ _ _ _ Est) as (_ & -> & ->).
    + intros r Hr Hs _. destruct (Hc r Hr Hs) as [| ->]; [by left|right]. rewrite Htx. apply Hsucc. by rewrite <- Hok.
  - pose proof (account_snapshot _ _ _ _ _ I) as Hsn. destruct Hfr as [Hs Hr].
    eapply grown_keep, (account_keep m v v' k' log ph I).
    + intros o. eapply live_other; [done|done| |done]. intros na0 Hna0. rewrite Ha in Hna0. by injection Hna0 as <-.
    + unfold rows_of. rewrite Hr; [done|]. by rewrite <- !surjective_pairing.
    + by apply (snapshot_unchanged (db (v_world v))); [rewrite Hs|].
    + intros b ver [Hin|Hin]%Hg%elem_of_app; [done|]. destruct (Hsp _ Hin) as (b' & ver' & [-> _]%snapshot_stmt_inj). done.
    + intros r Hcr Hsr Hkr'. destruct (Hc r Hcr Hsr) as [| ->]; [done|].
      destruct Hk. rewrite <- Hkr'. exact Hkr.
Qed.

Lemma snapshot_account m v v' stmt k' log ph :
  account_inv m v k' log ph -> stmt ∈ v_goroutines v -> (forall a, v_actor v' a = v_actor v a) ->
  (exists (k : ActorKey) b ver, stmt = snapshot_stmt k.1 k.2 b ver) ->
  v_world v' = (ExecuteBatch (v_world v) UnloggedBatch [stmt]).1 ->
  v_goroutines v' ⊆ v_goroutines v -> no_new_result v v' -> grown m v' k' log.
Proof.
  intros I Hin Ha (k & b & ver & ->) Hw Hg Hc. destruct (ExecuteBatch _ _ _) as [w' err] eqn:E. simpl in Hw. subst w'.
  apply (db_insert _ _ _ _ _ _ (ins_snapshot _ _ _ _)) in E. pose proof (account_snapshot _ _ _ _ _ I) as Hsn.
  eapply grown_keep, (account_keep m v v' k' log ph I); auto.
  - intros o. apply keeps_live. split; intros a; rewrite Ha; eauto.
  - destruct (decide (k' = k)) as [->|Hk].
    + by destruct (snapshot_write k.1 k.2 _ _ _ _ _ _ (ac_snapshot _ _ _ _ _ I _ _ Hin) Hsn E).
    + by destruct E as [-> | [-> _]].
  - destruct (decide (k' = k)) as [->|Hk].
    + by destruct (snapshot_write k.1 k.2 _ _ _ _ _ _ (ac_snapshot _ _ _ _ _ I _ _ Hin) Hsn E).
    + apply (snapshot_unchanged (db (v_world v))); [|done]. destruct E as [-> | [-> _]]; [|done]. simpl.
      rewrite lookup_insert_ne; [done|]. by rewrite <- surjective_pairing.
Qed.

Lemma crash_account m v v' k log ph :
  account_inv m v k log ph -> (forall a na, v_actor v' a = Some na -> v_actor v a = Some na) ->
  v_world v' = v_world v -> v_goroutines v' ⊆ v_goroutines v -> no_new_result v v' -> grown m v' k log.
Proof.
  intros I Ha Hw Hg Hc. destruct (ac_writer _ _ _ _ _ I) as (o & Hlo & Iw).
  assert (live v' k None -> grown m v' k log) as Hgone.
  { intros Hl. exists (log ++ ph), []. split; [by apply prefix_app_r|].
    eapply (account_change m v v' k log ph _ [] None I); [by apply prefix_app_r|done| |auto|auto].
    rewrite Hw. apply (winv_up _ _ m); [|lia]. apply (winv_gone _ _ _ _ _ _ Iw). }
  destruct o as [b|]; [|apply Hgone; simpl in *; eauto].
  destruct Hlo as (a & na & Hna & Hb & Hids & Hu). destruct (v_actor v' a) as [na'|] eqn:Ha'.
  - pose proof (Ha _ _ Ha') as E. rewrite Hna in E. injection E as <-.
    exists log, ph. split; [done|]. eapply (account_change m v v' k log ph _ _ (Some b) I); [done| | |auto|auto].
    + exists a, na. split_and!; eauto.
    + rewrite Hw. apply (winv_up _ _ m); [done|lia].
  - apply Hgone. intros a' na' Hna' Hk. apply (Hu a' na'); auto. congruence.
Qed.

(** ** The theorem of one step *)

Lemma effect_ledger base m v v' :
  ledger_inv base m v -> Z.of_nat m < 2 ^ 63 - 1 -> effect v v' -> sole_writer v v' -> ledger_inv base (S m) v'.
Proof.
  intros [Is Ia] Hm Hef Hsole.
  assert ((forall k log ph, account_inv m v k log ph -> grown m v' k log) ->
    (forall stmt, stmt ∈ v_goroutines v' -> exists (k : ActorKey) b ver, stmt = snapshot_stmt k.1 k.2 b ver) ->
    ledger_inv base (S m) v') as Hall.
  { intros Hk Hs. constructor; [done|]. intros k. destruct (Ia k) as (log & ph & Hpre & I).
    destruct (Hk k log ph I) as (log' & ph' & Hpre' & I'). exists log', ph'. split; [by etrans|done]. }
  destruct Hef as [Hk Hu Hg Hc|k now b a Hnone Hset E Hg Hc|a na na' env now h Ha Hpc _ Henv E Hset Hbiz Hw Hg Hc
    |stmt Hin Ha Hw Hg Hc|Ha Hw Hg Hc].
  - apply Hall; [|by auto]. intros k log ph I. destruct (Hu k) as [Hr Hs].
    eapply grown_keep, (account_keep m v v' k log ph I); auto; [by intros o; apply keeps_live|].
    eapply snapshot_unchanged; [done|]. by eapply account_snapshot.
  - apply Hall; [|by auto]. intros k' log ph I. by eapply create_account.
  - destruct (Ia (actor_ids na)) as (log0 & ph0 & _ & I0). destruct (ac_writer _ _ _ _ _ I0) as (o & Hlo & Iw).
    assert (o = Some (na_biz na)) as -> by (by eapply live_writer).
    destruct (winv_handle _ _ m _ _ _ (na_biz na) env now h Iw ltac:(lia) eq_refl E)
      as (log' & ph' & Iw' & _ & _ & Hfr).
    assert (forall stmt, stmt ∈ h_spawned h -> exists b ver, stmt = snapshot_stmt (actor_ids na).1 (actor_ids na).2 b ver) as Hsp.
    { intros stmt Hin. pose proof (wi_goroutines _ _ _ _ _ _ Iw') as Hgs. simpl in Hgs.
      rewrite list.Forall_forall in Hgs. destruct (Hgs _ Hin) as (b & ver & _ & ->). eauto. }
    apply Hall.
    + intros k log ph I. eapply (handle_account m v v' a na na' env now h); eauto; [lia|]. by rewrite Hw.
    + intros stmt [Hin|Hin]%Hg%elem_of_app; [by apply Is|]. destruct (Hsp _ Hin) as (b & ver & ->). eauto.
  - apply Hall; [|by auto]. intros k log ph I. eapply snapshot_account; eauto.
  - apply Hall; [|by auto]. intros k log ph I. by eapply crash_account.
Qed.

(** The start: consistent histories, no actors. *)
Lemma start_ledger base m v :
  (forall k : ActorKey, ledger_of (db (v_world v)) k.1 k.2 (base k) /\ (length (base k) <= m)%nat) ->
  (forall a, v_actor v a = None) -> v_goroutines v = [] -> (forall r, v_carries v r -> False) ->
  ledger_inv base m v.
Proof.
  intros Hl Ha Hg Hc. constructor; [rewrite Hg; by intros stmt ?%not_elem_of_nil|].
  intros k. exists (base k), []. split; [done|]. destruct (Hl k) as [[Hr Hs Hgd _] Hlen]. constructor.
  - exists None. split; [intros a na; by rewrite Ha|].
    constructor; simpl; rewrite ?app_nil_r; try done; [lia|]. apply sublist_nil_l.
  - rewrite Hg. by intros b ver ?%not_elem_of_nil.
  - intros r Hr'. by destruct (Hc r).
Qed.

(** What the invariant says of the tables and of the successes. *)
Lemma ledger_facts base m v k :
  ledger_inv base m v -> exists log ph : list wallet_event,
    base k `prefix_of` log /\ rows_of (db (v_world v)) k.1 k.2 = numbered 0 (log ++ ph) /\ (length ph <= 1)%nat /\
    good_log (log ++ ph) /\ snapshot_ok (db (v_world v)) k.1 k.2 log /\
    forall r, v_carries v r -> ResSuccess r = true -> (ResTenantId r, ResUid r) = k -> ResTxId r ∈ tx_id <$> log.
Proof.
  intros [_ Ia]. destruct (Ia k) as (log & ph & Hpre & [(o & _ & []) _ Ir]). by exists log, ph.
Qed.
End Views.
