(* ===== verification/NodeLedger.v ===== *)
(** * The node and its ledgers

    The node of [Node], the wallet of [WalletSystem] and the store together: as long
    as an account has one writer at a time, a node that starts on consistent
    histories keeps them, and every success it sends is in them.

    The condition is needed, as [NodeRace] shows; it holds by itself while no actor
    loses its reference ([steady_orderly]): there is no change of ownership, no
    passivation and no shutdown. *)

From S2P Require Import Prelude Wire Routing Discovery Mailbox Store Wallet WalletSpec WalletSystem Node NodeInv LedgerView.

(** ** One writer per account *)

Section Orderly.
Context {W R Er : Type} `{WalletDB W} `{TopologyResolver R Er} (cfg : Config).
Implicit Types n : node W R.

(** ** Results on their way *)

Definition hb_result (pc : hb_pc) : option RemoteResult :=
  match pc with HPush _ q | HKill _ q => Some (q_res q) | _ => None end.
Definition actor_result (pc : actor_pc) : option RemoteResult :=
  match pc with AEmit r => Some r | APush q => Some (q_res q) | _ => None end.
Definition kill_result (pc : kill_pc) : option RemoteResult :=
  match pc with KPush q _ => Some (q_res q) | _ => None end.

(** A result that some goroutine or channel holds, or that was sent. *)
Inductive carries n (r : RemoteResult) : Prop :=
  | ca_hb t h : n_hbs n !! t = Some h -> hb_result (hb_at h) = Some r -> carries n r
  | ca_actor a na : n_actors n !! a = Some na -> actor_result (na_pc na) = Some r -> carries n r
  | ca_kill g pc : n_kills n !! g = Some pc -> kill_result pc = Some r -> carries n r
  | ca_queue q : q ∈ n_resultCh n ++ n_batch n -> q_res q = r -> carries n r
  | ca_sent s resp : (s, resp) ∈ n_sent n -> r ∈ Results resp -> carries n r.

(** The guard's own answers are failures. *)
Lemma check_fails resolver ip env r' kill r :
  check_envelope (R := R) resolver ip env = Some (r', Reject kill r) -> ResSuccess r = false.
Proof.
  unfold check_envelope. case_match; [by intros [= <- <- <-]|].
  destruct resolver as [rs|]; [|by intros [=]].
  destruct (tr_GetNodeIP rs _ _) as [[r1 [o|e]]|]; [..|by intros [=]]; cbn [mbind option_bind].
  - case_decide; [by intros [=]|]. by intros [= <- <- <-].
  - by intros [= <- <- <-].
Qed.

(** A goroutine moves from one pc to the next and carries nothing new. *)
Lemma carries_hb n n' r t h :
  n_hbs n' = <[t := h]> (n_hbs n) -> (hb_result (hb_at h) = Some r -> carries n r) ->
  (forall a na, n_actors n' !! a = Some na ->
     actor_result (na_pc na) = None \/ exists na0, n_actors n !! a = Some na0 /\ na_pc na0 = na_pc na) ->
  (forall g pc, n_kills n' !! g = Some pc -> kill_result pc = None \/ n_kills n !! g = Some pc) ->
  (forall q, q ∈ n_resultCh n' -> q ∈ n_resultCh n \/ (q_res q = r -> carries n r)) ->
  n_batch n' = n_batch n -> n_sent n' = n_sent n -> carries n' r -> carries n r.
Proof.
  intros Hh Hn Ha Hk Hc Hb Ht [t' h' Hi Hr|a na Hi Hr|g pc Hi Hr|q Hi Hr|s resp Hi Hr].
  - rewrite Hh, lookup_insert in Hi. case_decide; [simplify_eq; auto|by eapply ca_hb].
  - destruct (Ha _ _ Hi) as [|(na0 & Hi0 & Hpc)]; [congruence|]. eapply ca_actor; [done|congruence].
  - destruct (Hk _ _ Hi) as [|]; [congruence|by eapply ca_kill].
  - rewrite Hb in Hi. apply elem_of_app in Hi as [Hi|Hi].
    + destruct (Hc _ Hi) as [|]; [|auto]. eapply ca_queue; [|done]. apply elem_of_app. by left.
    + eapply ca_queue; [|done]. apply elem_of_app. by right.
  - rewrite Ht in Hi. by eapply ca_sent.
Qed.

Lemma hb_carries n n' r : hb_step cfg n n' -> ResSuccess r = true -> carries n' r -> carries n r.
Proof.
  intros Hst Hr. assert (forall s env rest t kill r0 r', n_hbs n !! t = Some (mkHb s (Some env :: rest) HLoop) ->
    check_envelope (n_resolver n) (myIP cfg) env = Some (r', Reject kill r0) -> r0 <> r) as Hrej.
  { intros s env rest t kill r0 r' _ E%check_fails. congruence. }
  destruct Hst as
    [t s envs pending Ht Hp|t s rest Ht|t s env rest Ht|t s over Ht Ho|t s rest over q Ht Hroom
    |t s rest Ht|t s env rest Ht E|t s env rest r' Ht E|t s env rest r' kill r0 Ht E Hl
    |t s env rest r' r0 a Ht E Hl|t s rest a q g Ht Hg|t s env rest Ht|t s env rest a Ht Hl
    |t s env rest now w' b a Ht Hl E Ha|t s env rest now w' b e Ht Hl E|t s env rest now Ht E
    |t s env rest a Ht|t s env rest a na Ht Hna|t s env rest a na Ht Hna|t s env rest a Ht
    |t s env rest a Ht];
    try (eapply carries_hb; [reflexivity|simpl; intros Hres|simpl; eauto..]; simplify_eq; done).
  - eapply carries_hb; [reflexivity|simpl; by case_decide|simpl; eauto..].
  - eapply carries_hb; [reflexivity|simpl; by destruct over|simpl; eauto..].
    intros q'. rewrite elem_of_app, list_elem_of_singleton. intros [| ->]; [by left|].
    right. intros <-. by eapply ca_hb.
  - eapply carries_hb; [reflexivity|simpl; intros [= ->]|simpl; eauto..]. by destruct (Hrej _ _ _ _ _ _ _ Ht E).
  - eapply carries_hb; [reflexivity|simpl; intros [= ->]|simpl; eauto..]. by destruct (Hrej _ _ _ _ _ _ _ Ht E).
  - eapply carries_hb; [reflexivity|simpl; intros [= <-]; by eapply ca_hb|..|done|done].
    + intros b nb Hb. right. apply (stop_actors_lookup (set_hb t (mkHb s rest (HPush false q)) n)) in Hb
        as (nb0 & Hb0 & [-> | ->]); exists nb0; rewrite ?stop_pc_same; done.
    + intros g' pc. simpl. rewrite lookup_insert. case_decide; [intros [= <-]; by left|by right].
    + simpl; auto.
  - eapply carries_hb; [reflexivity|simpl; by case_match|simpl; eauto..].
  - eapply carries_hb; [reflexivity|done|..|done|done]; simpl; eauto.
    intros b' nb. rewrite lookup_insert. case_decide; [intros [= <-]; by left|eauto].
  - eapply carries_hb; [reflexivity|simpl; by case_match|simpl; eauto..].
  - eapply carries_hb; [reflexivity|done|..|done|done]; simpl; eauto.
    intros b' nb. rewrite lookup_insert. case_decide; [intros [= <-]; right; subst b'; by exists na|eauto].
  - cbv zeta. case_decide; (eapply carries_hb; [reflexivity|done|simpl; eauto..]).
Qed.

Lemma carries_set_actor n n' r a na na' :
  n_actors n !! a = Some na -> n_actors n' = <[a := na']> (n_actors n) ->
  n_hbs n' = n_hbs n -> n_kills n' = n_kills n ->
  (forall q, q ∈ n_resultCh n' -> q ∈ n_resultCh n \/ (q_res q = r -> carries n r)) ->
  n_batch n' = n_batch n -> n_sent n' = n_sent n ->
  carries n' r -> carries n r \/ actor_result (na_pc na') = Some r.
Proof.
  intros Hna Ha Hh Hk Hc Hb Ht [t h Hi Hr|b nb Hi Hr|g pc Hi Hr|q Hi Hr|s resp Hi Hr].
  - left. rewrite Hh in Hi. by eapply ca_hb.
  - rewrite Ha, lookup_insert in Hi. case_decide; [simplify_eq; by right|]. left. by eapply ca_actor.
  - left. rewrite Hk in Hi. by eapply ca_kill.
  - left. rewrite Hb in Hi. apply elem_of_app in Hi as [Hi|Hi].
    + destruct (Hc _ Hi) as [|]; [|auto]. eapply ca_queue; [|done]. apply elem_of_app. by left.
    + eapply ca_queue; [|done]. apply elem_of_app. by right.
  - left. rewrite Ht in Hi. by eapply ca_sent.
Qed.

Lemma kill_carries n n' r : kill_step n n' -> ResSuccess r = true -> carries n' r -> carries n r.
Proof.
  intros Hst Hr Hc. destruct Hst as [g a na Hg Hna Hs|g env envs Hg|g q envs Hg Hroom].
  - destruct Hc as [t h Hi Hx|b nb Hi Hx|g' pc Hi Hx|q Hi Hx|s resp Hi Hx]; simpl in Hi.
    + by eapply ca_hb.
    + rewrite lookup_insert in Hi. case_decide; simplify_eq; by eapply ca_actor.
    + rewrite lookup_insert in Hi. case_decide; simplify_eq; by eapply ca_kill.
    + by eapply ca_queue.
    + by eapply ca_sent.
  - destruct Hc as [t h Hi Hx|b nb Hi Hx|g' pc Hi Hx|q Hi Hx|s resp Hi Hx]; simpl in Hi.
    + by eapply ca_hb.
    + by eapply ca_actor.
    + rewrite lookup_insert in Hi. case_decide; simplify_eq; [|by eapply ca_kill].
      destruct (n_routes n !! env_key env); [|done]. injection Hx as <-. done.
    + by eapply ca_queue.
    + by eapply ca_sent.
  - destruct Hc as [t h Hi Hx|b nb Hi Hx|g' pc Hi Hx|q' Hi Hx|s resp Hi Hx]; simpl in Hi.
    + by eapply ca_hb.
    + by eapply ca_actor.
    + rewrite lookup_insert in Hi. case_decide; simplify_eq; by eapply ca_kill.
    + rewrite !elem_of_app, list_elem_of_singleton in Hi. destruct Hi as [[Hi| ->]|Hi].
      * eapply ca_queue; [|done]. apply elem_of_app. by left.
      * eapply ca_kill; [done|]. by subst r.
      * eapply ca_queue; [|done]. apply elem_of_app. by right.
    + by eapply ca_sent.
Qed.

Lemma flush_carries n gs r : gs ≡ₚ group_results (n_batch n) -> carries (flush gs n) r -> carries n r.
Proof.
  intros Hp [t h Hi Hx|b nb Hi Hx|g' pc Hi Hx|q' Hi Hx|s resp Hi Hx]; simpl in Hi.
  - by eapply ca_hb.
  - by eapply ca_actor.
  - by eapply ca_kill.
  - rewrite app_nil_r in Hi. eapply ca_queue; [|done]. apply elem_of_app. by left.
  - apply elem_of_app in Hi as [Hi|Hi]; [by eapply ca_sent|].
    destruct (flush_sends_in _ _ _ _ _ Hp Hi Hx) as (q & Hq & _ & Hres).
    eapply ca_queue; [|done]. apply elem_of_app. by right.
Qed.

(** What carries nothing new: the results of [n'] are those of [n], perhaps elsewhere. *)
Lemma carries_same n n' r :
  n_hbs n' = n_hbs n -> n_kills n' = n_kills n -> n_resultCh n' ++ n_batch n' ≡ₚ n_resultCh n ++ n_batch n ->
  n_sent n' = n_sent n ->
  (forall a na, n_actors n' !! a = Some na -> exists na0, n_actors n !! a = Some na0 /\ na_pc na0 = na_pc na) ->
  carries n' r -> carries n r.
Proof.
  intros Hh Hk Hc Ht Ha [t h Hi Hx|b nb Hi Hx|g' pc Hi Hx|q' Hi Hx|s resp Hi Hx].
  - rewrite Hh in Hi. by eapply ca_hb.
  - destruct (Ha _ _ Hi) as (nb0 & Hi0 & Hpc). eapply ca_actor; [done|by rewrite Hpc].
  - rewrite Hk in Hi. by eapply ca_kill.
  - rewrite Hc in Hi. by eapply ca_queue.
  - rewrite Ht in Hi. by eapply ca_sent.
Qed.

Lemma agg_carries n n' r : agg_step n n' -> carries n' r -> carries n r.
Proof.
  intros [q rest He Hc Hlen|q rest gs He Hc Hlen Hp|gs He Hp|gs He Hs Hp] Hr.
  - eapply carries_same, Hr; eauto. simpl. rewrite Hc. solve_Permutation.
  - change (carries (flush gs (n <| n_resultCh := rest |> <| n_batch ::= fun b => b ++ [q] |>)) r) in Hr.
    apply flush_carries in Hr; [|done]. eapply carries_same, Hr; eauto. simpl. rewrite Hc. solve_Permutation.
  - by eapply flush_carries.
  - apply (flush_carries n gs); [done|]. eapply carries_same, Hr; eauto.
Qed.

Lemma stop_actors_pc n ids a na :
  n_actors (stop_actors ids n) !! a = Some na -> exists na0, n_actors n !! a = Some na0 /\ na_pc na0 = na_pc na.
Proof. intros (na0 & Hna & [-> | ->])%stop_actors_lookup; exists na0; by rewrite ?stop_pc_same. Qed.

Lemma pass_carries n n' r : pass_step n n' -> carries n' r -> carries n r.
Proof.
  intros Hst. destruct Hst as [now H2|i now H2 Hi|now H2|H2 Hc];
    (apply carries_same; [done..|]); intros a na Ha; eauto. exact (stop_actors_pc n _ a na Ha).
Qed.

Lemma node_stop_carries n n' r : node_stop_step n n' -> carries n' r -> carries n r.
Proof.
  intros Hst. destruct Hst as [H2|i stopping H2 Hi|stopping H2|a stopping na H2 Hna Hd|H2];
    (apply carries_same; [done..|]); intros a' na' Ha; eauto. exact (stop_actors_pc n _ a' na' Ha).
Qed.

(** ** The node as its ledgers see it *)

Definition node_view n : view W nat :=
  mkView (fun a => n_actors n !! a) (n_world n) (n_goroutines n) (carries n).

(** ** Steps *)

(** What the goroutines of a node do by themselves. *)
Inductive own_move n n' : Prop :=
  | ow_hb : hb_step cfg n n' -> own_move n n'
  | ow_actor : actor_step n n' -> own_move n n'
  | ow_kill : kill_step n n' -> own_move n n'
  | ow_agg : agg_step n n' -> own_move n n'
  | ow_stop : node_stop_step n n' -> own_move n n'
  | ow_passivate : pass_step n n' -> own_move n n'.

(** The steps of a node whose accounts nobody else writes; a snapshot statement
    that an actor's goroutine left is executed at some time, or several. *)
Inductive orderly_move n n' : Prop :=
  | om_hb : hb_step cfg n n' -> sole_writer (node_view n) (node_view n') -> orderly_move n n'
  | om_actor : actor_step n n' -> orderly_move n n'
  | om_kill : kill_step n n' -> orderly_move n n'
  | om_agg : agg_step n n' -> orderly_move n n'
  | om_stop : node_stop_step n n' -> orderly_move n n'
  | om_passivate : pass_step n n' -> orderly_move n n'
  | om_snapshot stmt :
      stmt ∈ n_goroutines n ->
      n' = n <| n_world := (ExecuteBatch (n_world n) UnloggedBatch [stmt]).1 |> -> orderly_move n n'
  | om_environment w r :
      undisturbed (db (n_world n)) (db w) -> n' = n <| n_world := w |> <| n_resolver := r |> ->
      orderly_move n n'.

Definition orderly_step n n' : Prop := n_panicked n = false /\ orderly_move n n'.

(** These are steps of the node. *)
Lemma orderly_node_step n n' : orderly_step n n' -> node_step cfg n n'.
Proof.
  intros [Hp Hm]. split; [done|]. destruct Hm as [Hs _|Hs|Hs|Hs|Hs|Hs|stmt _ ->|w r _ ->].
  - by apply ns_hb.
  - by apply ns_actor.
  - by apply ns_kill.
  - by apply ns_agg.
  - by apply ns_stop.
  - by apply ns_passivate.
  - by eapply (ns_environment cfg n _ _ (n_resolver n)).
  - by apply (ns_environment cfg n _ w r).
Qed.

(** ** The effect of a step *)

Lemma keeps_eq n n' : n_actors n' = n_actors n -> keeps_writers (node_view n) (node_view n').
Proof. intros E. split; simpl; rewrite E; eauto. Qed.

Lemma keeps_stop n n' ids :
  n_actors n' = n_actors (stop_actors ids n) -> keeps_writers (node_view n) (node_view n').
Proof.
  intros E. split; simpl; rewrite E.
  - intros a na' (na & Ha & [-> | ->])%stop_actors_lookup; exists na; [by eauto|].
    rewrite stop_pc_same. split_and!; [done| |done]. unfold stop_actor. by case_match.
  - intros a [na Ha]. simpl. rewrite map_lookup_imap, Ha. by eexists.
Qed.

Lemma keeps_set n n' a na na' :
  n_actors n !! a = Some na -> n_actors n' = <[a := na']> (n_actors n) -> na_biz na' = na_biz na ->
  (na_pc na = AExited -> na_pc na' = AExited) -> keeps_writers (node_view n) (node_view n').
Proof.
  intros Ha E Hb Hx. split; simpl; rewrite E.
  - intros b nb. rewrite lookup_insert. case_decide; [intros [= <-]; subst b; eauto|eauto].
  - intros b Hs. rewrite lookup_insert. by case_decide.
Qed.

Lemma sets_insert n n' a na' : n_actors n' = <[a := na']> (n_actors n) -> sets_actor (node_view n) (node_view n') a na'.
Proof. intros E. split; simpl; rewrite E; [apply lookup_insert_eq|]. intros a' Hne. by apply lookup_insert_ne. Qed.

(** The only step of [HandleBatch] that changes a writer creates an actor. *)
Inductive hb_effect n n' : Prop :=
  | he_quiet : keeps_writers (node_view n) (node_view n') -> n_world n' = n_world n -> hb_effect n n'
  | he_failed t u now b e : keeps_writers (node_view n) (node_view n') ->
      rehydrate (n_world n) (newBusinessActor t u now) = Some (n_world n', (b, Some e)) -> hb_effect n n'
  | he_new (k : ActorKey) now b a :
      n_actors n !! a = None -> n_actors n' = <[a := mkNodeActor b statusRunning [] AIdle]> (n_actors n) ->
      lookup_actor n k = None -> n_shards n' = alter <[k := a]> (shard_ix k) (n_shards n) ->
      (exists t s rest env, n_hbs n !! t = Some (mkHb s rest (HCreate env)) /\ actor_key env = k) ->
      rehydrate (n_world n) (newBusinessActor k.1 k.2 now) = Some (n_world n', (b, None)) -> hb_effect n n'.

Lemma hb_effects n n' : hb_step cfg n n' -> hb_effect n n' /\ n_goroutines n' = n_goroutines n.
Proof.
  intros Hst. destruct Hst as
    [t s envs pending Ht Hp|t s rest Ht|t s env rest Ht|t s over Ht Ho|t s rest over q Ht Hroom
    |t s rest Ht|t s env rest Ht E|t s env rest r' Ht E|t s env rest r' kill r0 Ht E Hl
    |t s env rest r' r0 a Ht E Hl|t s rest a q g Ht Hg|t s env rest Ht|t s env rest a Ht Hl
    |t s env rest now w' b a Ht Hl E Ha|t s env rest now w' b e Ht Hl E|t s env rest now Ht E
    |t s env rest a Ht|t s env rest a na Ht Hna|t s env rest a na Ht Hna|t s env rest a Ht
    |t s env rest a Ht];
    try (split; [apply he_quiet; [by apply keeps_eq|done]|done]).
  - split; [|done]. apply he_quiet; [|done].
    by apply (keeps_stop _ _ [a]).
  - split; [|done]. eapply (he_new _ _ (actor_key env) now b a); try done. by eexists _, _, _, _.
  - split; [|done]. by eapply he_failed; [apply keeps_eq|].
  - split; [|done]. apply he_quiet; [|done]. by eapply (keeps_set _ _ a na).
  - cbv zeta. case_decide; (split; [apply he_quiet; [by apply keeps_eq|done]|done]).
Qed.

Lemma hb_view_effect n n' : hb_step cfg n n' -> effect (node_view n) (node_view n').
Proof.
  intros Hst. assert (no_new_result (node_view n) (node_view n')) as Hc
    by (intros r Hr Hs; exact (hb_carries n n' r Hst Hs Hr)).
  destruct (hb_effects _ _ Hst) as [[Hk Hw|t u now b e Hk E|k now b a Hnone Ha _ _ _ E] Hg].
  - apply ef_quiet; [done|apply undisturbed_eq; simpl; by rewrite Hw|simpl; by rewrite Hg|done].
  - apply ef_quiet; [done|by eapply undisturbed_eq, rehydrate_db|simpl; by rewrite Hg|done].
  - eapply (ef_create _ _ k now b a); [done|by apply sets_insert|done|simpl; by rewrite Hg|done].
Qed.

Lemma quiet_view_effect n n' :
  kill_step n n' \/ agg_step n n' \/ node_stop_step n n' \/ pass_step n n' -> effect (node_view n) (node_view n').
Proof.
  intros Hst. apply ef_quiet.
  - destruct Hst as [Hs|[Hs|[Hs|Hs]]].
    + destruct Hs; [by eapply keeps_set|by apply keeps_eq..].
    + destruct Hs; by apply keeps_eq.
    + destruct Hs; try (by apply keeps_eq). by eapply keeps_stop.
    + destruct Hs; try (by apply keeps_eq). by eapply keeps_stop.
  - apply undisturbed_eq. destruct Hst as [Hs|[Hs|[Hs|Hs]]]; by destruct Hs.
  - destruct Hst as [Hs|[Hs|[Hs|Hs]]]; by destruct Hs.
  - intros r Hc Hr. destruct Hst as [Hs|[Hs|[Hs|Hs]]]; simpl in *;
      eauto using kill_carries, agg_carries, node_stop_carries, pass_carries.
Qed.

Lemma actor_view_effect n n' : node_inv n -> actor_step n n' -> effect (node_view n) (node_view n').
Proof.
  intros N Hst.
  assert (forall a na na', n_actors n !! a = Some na -> n_actors n' = <[a := na']> (n_actors n) ->
    na_biz na' = na_biz na -> (na_pc na = AExited -> na_pc na' = AExited) ->
    n_world n' = n_world n -> n_goroutines n' = n_goroutines n ->
    (forall r, carries n' r -> carries n r \/ actor_result (na_pc na') = Some r) ->
    (forall r, actor_result (na_pc na') = Some r -> carries n r) ->
    effect (node_view n) (node_view n')) as Hquiet.
  { intros a na na' Ha Ha' Hb Hx Hw Hg Hc Hr. apply ef_quiet.
    - by eapply keeps_set.
    - apply undisturbed_eq. simpl. by rewrite Hw.
    - simpl. by rewrite Hg.
    - intros r Hc' _. destruct (Hc r Hc'); simpl; auto. }
  destruct Hst as
    [a na env rest now h Hna Hpc Hm' E|a na env rest now Hna Hpc Hm' E|a na Hna Hpc Hm'|a na Hna Hpc Hs
    |a na Hna Hpc Hs|a na r0 Hna Hpc|a na q Hna Hpc Hroom].
  - destruct (ni_actor _ N _ _ Hna) as [k0 [Hk0 Hkeys _]]. rewrite Hm' in Hkeys.
    apply list.Forall_cons in Hkeys as [Henv _].
    eapply (ef_handle _ _ a na _ env now h); [done|congruence|rewrite Hm'; by left|unfold actor_ids; congruence|done|by apply sets_insert|done..|].
    intros r Hc Hs. eapply carries_set_actor in Hc; [|done|reflexivity|simpl; auto..].
    destruct Hc as [|[= <-]]; auto.
  - apply ef_quiet; [by apply keeps_eq|done|done|]. intros r Hc _. by eapply carries_same, Hc; eauto.
  - eapply Hquiet; try done; [congruence|intros r; by eapply carries_set_actor; eauto].
  - eapply Hquiet; try done; [congruence|intros r; by eapply carries_set_actor; eauto].
  - eapply Hquiet; try done; intros r; by eapply carries_set_actor; eauto.
  - eapply Hquiet; try done; [congruence|intros r; by eapply carries_set_actor; eauto|].
    simpl. intros r Hr. eapply ca_actor; [done|]. rewrite Hpc. by destruct (n_routes n !! res_key r0).
  - eapply Hquiet; try done; [congruence|]. intros r. eapply carries_set_actor; eauto.
    intros q'. simpl. rewrite elem_of_app, list_elem_of_singleton. intros [| ->]; [by left|].
    right. intros <-. eapply ca_actor; [done|]. by rewrite Hpc.
Qed.

(** A step that is not of [HandleBatch] creates no actor. *)
Lemma effect_no_new v v' : (forall a : nat, v_actor v a = None -> v_actor v' a = None) -> sole_writer (W := W) v v'.
Proof. intros Hn a na a' na' Ha Ha' _ _. rewrite Hn in Ha' by done. done. Qed.

Lemma keeps_no_new v v' a : keeps_writers (W := W) (K := nat) v v' -> v_actor v a = None -> v_actor v' a = None.
Proof. intros [Hb _] Ha. destruct (v_actor v' a) eqn:E; [|done]. destruct (Hb _ _ E) as (na & ? & _). congruence. Qed.

Lemma actor_no_new n n' a :
  actor_step n n' \/ kill_step n n' \/ agg_step n n' \/ node_stop_step n n' \/ pass_step n n' ->
  n_actors n !! a = None -> n_actors n' !! a = None.
Proof.
  assert (forall b na na', n_actors n !! b = Some na -> n_actors n !! a = None ->
    <[b := na']> (n_actors n) !! a = None) as Hi by (intros; rewrite lookup_insert_ne by congruence; done).
  assert (forall ids, n_actors n !! a = None -> n_actors (stop_actors ids n) !! a = None) as Hs
    by (intros ids Hn; simpl; by rewrite map_lookup_imap, Hn).
  intros [Hst|[Hst|[Hst|[Hst|Hst]]]]; destruct Hst; try done; try (by eapply Hi); apply Hs.
Qed.

Lemma orderly_effect n n' :
  node_inv n -> orderly_move n n' -> effect (node_view n) (node_view n') /\ sole_writer (node_view n) (node_view n').
Proof.
  intros N Hm. assert ((forall a, n_actors n !! a = None -> n_actors n' !! a = None) ->
    effect (node_view n) (node_view n') ->
    effect (node_view n) (node_view n') /\ sole_writer (node_view n) (node_view n')) as Hno.
  { intros Hn He. split; [done|]. by apply effect_no_new. }
  destruct Hm as [Hs Hw|Hs|Hs|Hs|Hs|Hs|stmt Hin ->|w r Hu ->].
  - split; [by apply hb_view_effect|done].
  - apply Hno; [intros a; apply actor_no_new; auto|by apply actor_view_effect].
  - apply Hno; [intros a; apply actor_no_new; auto|apply quiet_view_effect; auto].
  - apply Hno; [intros a; apply actor_no_new; auto|apply quiet_view_effect; auto].
  - apply Hno; [intros a; apply actor_no_new; auto 6|apply quiet_view_effect; auto].
  - apply Hno; [intros a; apply actor_no_new; auto 6|apply quiet_view_effect; auto].
  - apply Hno; [done|]. eapply (ef_snapshot _ _ stmt); try done. intros r Hc _. by eapply carries_same, Hc; eauto.
  - apply Hno; [done|]. apply ef_quiet; [by apply keeps_eq|done|done|]. intros x Hc _. by eapply carries_same, Hc; eauto.
Qed.

Lemma own_orderly n n' : own_move n n' -> hb_step cfg n n' \/ orderly_move n n'.
Proof. intros [Hs|Hs|Hs|Hs|Hs|Hs]; [by left|right..]; eauto using orderly_move. Qed.

Lemma own_effect n n' : node_inv n -> own_move n n' -> effect (node_view n) (node_view n').
Proof.
  intros N Hm. destruct (own_orderly _ _ Hm) as [|Ho]; [by apply hb_view_effect|by apply orderly_effect].
Qed.

Lemma NewNode_carries (w : W) (r : option R) x : carries (NewNode w r) x -> False.
Proof.
  intros [t h Hi Hx|b nb Hi Hx|g' pc Hi Hx|q' Hi Hx|s resp Hi Hx]; simpl in Hi;
    rewrite ?lookup_empty in Hi; try done; by apply not_elem_of_nil in Hi.
Qed.

Lemma orderly_reachable n n' : node_reachable cfg n -> orderly_step n n' -> node_reachable cfg n'.
Proof.
  intros (w & r & Hs) Hst. exists w, r. eapply rtc_r; [done|]. by apply orderly_node_step.
Qed.

Lemma ledger_steps (w : W) (r : option R) m0 m log0 n :
  (forall k : ActorKey, ledger_of (db w) k.1 k.2 (log0 k) /\ (length (log0 k) <= m0)%nat) ->
  nsteps orderly_step m (NewNode w r) n -> Z.of_nat (m0 + m) < 2 ^ 63 - 1 ->
  ledger_inv log0 (m0 + m) (node_view n) /\ node_reachable cfg n.
Proof.
  intros Hl. revert n. induction m as [|m IH]; intros n Hs Hm.
  - inversion Hs; subst. rewrite Nat.add_0_r. split; [|exists w, r; apply rtc_refl].
    apply start_ledger; [done|intros a; apply lookup_empty|done|apply NewNode_carries].
  - apply nsteps_inv_r in Hs as (n1 & Hs & Hst). destruct (IH n1 Hs ltac:(lia)) as [I Hreach].
    split; [|by eapply orderly_reachable]. replace (m0 + S m)%nat with (S (m0 + m)) by lia.
    destruct (orderly_effect _ _ (node_reachable_inv cfg _ Hreach) (proj2 Hst)) as [He Hso].
    by apply (effect_ledger log0 (m0 + m) (node_view n1)); [|lia|..].
Qed.

(** ** Runs in which no reference is dropped *)

Definition keeps_refs n n' : Prop :=
  forall k a, lookup_actor n k = Some a -> lookup_actor n' k = Some a.

Definition steady_step n n' : Prop :=
  n_panicked n = false /\ keeps_refs n n' /\ (hb_step cfg n n' \/ orderly_move n n').

Definition referenced n : Prop :=
  forall a na, n_actors n !! a = Some na -> lookup_actor n (actor_ids na) = Some a.

Lemma referenced_sole n n' : referenced n -> hb_step cfg n n' -> sole_writer (node_view n) (node_view n').
Proof.
  intros Hr Hst a na a' na' Hnone Ha Ha' Hids. simpl in Hnone, Ha, Ha'.
  pose proof (Hr _ _ Ha') as Href. rewrite Hids in Href. clear Hids.
  destruct (hb_effects _ _ Hst) as [[[Hb _] _|t u now b e [Hb _] _|k now b a1 _ E Hl _ _ Ereh] _].
  - destruct (Hb _ _ Ha) as (na0 & Hna0 & _). simpl in Hna0. congruence.
  - destruct (Hb _ _ Ha) as (na0 & Hna0 & _). simpl in Hna0. congruence.
  - rewrite E, lookup_insert in Ha. case_decide; [|congruence]. simplify_eq.
    destruct (rehydrate_safe (n_world n) _ [] (newBusinessActor_ring k.1 k.2 now))
      as (w1 & b1 & err & hist & E1 & _ & HT & HU). rewrite Ereh in E1. simplify_eq. simpl in HT, HU.
    unfold actor_ids in Href. simpl in Href.
    rewrite HT, HU, <- surjective_pairing in Href. congruence.
Qed.

Lemma shard_ix_lt k : (shard_ix k < 256)%nat.
Proof.
  unfold shard_ix, shardIndex. pose proof (Z.mod_pos_bound (u64 (Z.lxor k.1 (i32 k.2))) 256 ltac:(lia)). lia.
Qed.

(** A step that is not of [HandleBatch] creates no actor and changes no identity. *)
Lemma move_ids n n' a na' :
  orderly_move n n' -> hb_step cfg n n' \/
  (n_actors n' !! a = Some na' -> exists na, n_actors n !! a = Some na /\ actor_ids na' = actor_ids na).
Proof.
  assert (keeps_writers (node_view n) (node_view n') -> n_actors n' !! a = Some na' ->
    exists na, n_actors n !! a = Some na /\ actor_ids na' = actor_ids na) as Hk.
  { intros [Hb _] Ha. destruct (Hb _ _ Ha) as (na & ? & E & _). exists na. unfold actor_ids. by rewrite E. }
  intros [Hs _|Hs|Hs|Hs|Hs|Hs|stmt _ ->|w r _ ->]; [by left|right..].
  - destruct Hs; try (apply Hk; by eapply keeps_set; eauto; congruence); try (apply Hk; by apply keeps_eq).
    simpl. rewrite lookup_insert. case_decide; [|eauto]. intros [= <-]. subst a. eexists. split; [done|].
    match goal with E : Handle _ _ _ _ = Some _ |- _ => destruct (handle_ids _ _ _ _ _ E) as [HT HU] end.
    unfold actor_ids. simpl. by rewrite HT, HU.
  - apply Hk. destruct Hs; [by eapply keeps_set|by apply keeps_eq..].
  - apply Hk. destruct Hs; by apply keeps_eq.
  - apply Hk. destruct Hs; try (by apply keeps_eq). by eapply keeps_stop.
  - apply Hk. destruct Hs; try (by apply keeps_eq). by eapply keeps_stop.
  - apply Hk. by apply keeps_eq.
  - apply Hk. by apply keeps_eq.
Qed.

Lemma referenced_step n n' : node_inv n -> referenced n -> steady_step n n' -> referenced n'.
Proof.
  intros N Hr (_ & Hk & Hst) a na' Ha.
  assert ((exists na, n_actors n !! a = Some na /\ actor_ids na' = actor_ids na) ->
    lookup_actor n' (actor_ids na') = Some a) as Hold.
  { intros (na & Hna & ->). by apply Hk, Hr. }
  assert (hb_step cfg n n' \/ (n_actors n' !! a = Some na' ->
    exists na, n_actors n !! a = Some na /\ actor_ids na' = actor_ids na)) as [Hhb|Hids].
  { destruct Hst as [|Hm]; [by left|by apply (move_ids _ _ a na')]. }
  2:{ auto. }
  destruct (hb_effects _ _ Hhb) as [[[Hb _] _|t u now b e [Hb _] _|k now b a1 _ E Hl Hsh _ Ereh] _].
  1,2: destruct (Hb _ _ Ha) as (na & Hna & E & _); apply Hold; exists na; unfold actor_ids; by rewrite E.
  rewrite E, lookup_insert in Ha. case_decide; [|by eauto]. simplify_eq.
  destruct (rehydrate_safe (n_world n) _ [] (newBusinessActor_ring k.1 k.2 now))
    as (w1 & b1 & err & hist & E1 & _ & HT & HU). rewrite Ereh in E1. simplify_eq. simpl in HT, HU.
  unfold actor_ids, lookup_actor. simpl. rewrite HT, HU, <- surjective_pairing, Hsh, list_lookup_alter_eq.
  destruct (lookup_lt_is_Some_2 (n_shards n) (shard_ix k)) as [sh ->].
  { rewrite (ni_length _ N). apply shard_ix_lt. }
  simpl. by rewrite lookup_insert_eq.
Qed.

(** While no reference is dropped every account has one writer. *)
Lemma steady_orderly (w : W) (r : option R) m n :
  nsteps steady_step m (NewNode w r) n ->
  nsteps orderly_step m (NewNode w r) n /\ referenced n /\ node_reachable cfg n.
Proof.
  revert n. induction m as [|m IH]; intros n Hs.
  - inversion Hs; subst. split_and!; [constructor| |exists w, r; apply rtc_refl].
    intros a na. simpl. by rewrite lookup_empty.
  - apply nsteps_inv_r in Hs as (n1 & Hs & Hst). destruct (IH _ Hs) as (Ho & Hr & Hreach).
    assert (orderly_step n1 n) as Hst'.
    { destruct Hst as (Hp & _ & Hm). split; [done|]. destruct Hm as [Hhb|]; [|done].
      apply om_hb; [done|]. by apply referenced_sole. }
    split_and!; [by eapply nsteps_r| |by eapply orderly_reachable].
    eapply referenced_step; [|done..]. by eapply node_reachable_inv.
Qed.
End Orderly.

(** ** Theorems *)

Section Theorems.
Context {W R Er : Type} `{WalletDB W} `{TopologyResolver R Er} (cfg : Config).

(** The node keeps the ledgers.  A node that starts on a store in which every
    account has a consistent history, and that creates an actor only when the
    earlier actors of the account have ended, keeps every history gap-free, never
    negative and only growing (up to one row per account whose write was reported
    as failed), whatever batches arrive on however many streams, whatever fails,
    and whenever the snapshots are written; and every success it has sent on any
    stream is of a transaction in the history of that account. *)
Theorem node_keeps_ledgers (w : W) (r : option R) m0 m log0 n :
  (forall k : ActorKey, ledger_of (db w) k.1 k.2 (log0 k) /\ (length (log0 k) <= m0)%nat) ->
  nsteps (orderly_step cfg) m (NewNode w r) n -> Z.of_nat (m0 + m) < 2 ^ 63 - 1 ->
  forall k : ActorKey, exists log ph : list wallet_event,
    log0 k `prefix_of` log /\
    rows_of (db (n_world n)) k.1 k.2 = numbered 0 (log ++ ph) /\ (length ph <= 1)%nat /\
    good_log (log ++ ph) /\ snapshot_ok (db (n_world n)) k.1 k.2 log /\
    forall s resp x, (s, resp) ∈ n_sent n -> x ∈ Results resp -> ResSuccess x = true ->
      (ResTenantId x, ResUid x) = k -> ResTxId x ∈ tx_id <$> log.
Proof.
  intros Hl Hs Hm k. destruct (ledger_steps cfg w r m0 m log0 n Hl Hs Hm) as [I _].
  destruct (ledger_facts _ _ _ k I) as (log & ph & Hpre & Hr & Hph & Hg & Hsn & Hres). exists log, ph.
  split_and!; try done. intros s resp x Hin Hx Hok Hk. apply Hres; [|done..]. by eapply ca_sent.
Qed.

(** One writer per account.  As long as no step drops an actor's reference (no
    change of ownership, no passivation, no shutdown), there is at most one actor of
    each account, it is the one its shard names, and the run is one in which
    [node_keeps_ledgers] holds: concurrent batches never create a second actor. *)
Theorem node_single_writer (w : W) (r : option R) m n :
  nsteps (steady_step cfg) m (NewNode w r) n ->
  nsteps (orderly_step cfg) m (NewNode w r) n /\
  (forall a na, n_actors n !! a = Some na -> lookup_actor n (actor_ids na) = Some a) /\
  (forall a1 na1 a2 na2, n_actors n !! a1 = Some na1 -> n_actors n !! a2 = Some na2 ->
     actor_ids na1 = actor_ids na2 -> a1 = a2).
Proof.
  intros (Ho & Hr & _)%steady_orderly. split_and!; [done|done|].
  intros a1 na1 a2 na2 H3%Hr H4%Hr Hids. congruence.
Qed.
End Theorems.

(** ** Witnesses *)

Definition demo_cfg : Config := mkConfig "10.0.0.1:9000" 0.
Definition demo_resolver : MockResolver := SetRoute NewMockResolver 1 7 "10.0.0.1:9000".
Definition demo_store : CassandraStore MemSession := mem_store (mkTables ∅ ∅).

Section Demo.
Context {W R Er : Type} `{WalletDB W} `{TopologyResolver R Er} (cfg : Config).
Implicit Types n : node W R.

(** The node's own steps that drop no reference, while it neither stops nor passivates. *)
Definition own_steady n n' : Prop :=
  n_panicked n = false /\ n_stop n' = StNone /\ n_pass n' = PassSelect /\ keeps_refs n n' /\ own_move cfg n n'.

Lemma own_steady_step n n' : own_steady n n' -> steady_step cfg n n'.
Proof. intros (Hp & _ & _ & Hk & Hm). split_and!; [done..|]. by apply own_orderly. Qed.

Lemma own_keep n n' :
  n_panicked n = false -> n_stop n' = StNone -> n_pass n' = PassSelect -> own_move cfg n n' ->
  n_shards n' = n_shards n \/ n_shards n = replicate 256 ∅ -> own_steady n n'.
Proof.
  intros Hp Hstop Hpass Hst Hs. split_and!; [done..| |done]. intros k a. unfold lookup_actor.
  destruct Hs as [->|Hs]; [done|]. rewrite Hs. destruct (replicate 256 _ !! shard_ix k) as [sh|] eqn:E; [|done].
  apply lookup_replicate in E as [-> _]. simpl. by rewrite lookup_empty.
Qed.
End Demo.

Ltac steady_call c kept :=
  eapply nsteps_step_eq;
    [eapply own_keep; [vm_compute; reflexivity|..|apply ow_hb; eapply c; [> (vm_compute; reflexivity)..]
      |kept]; [> (vm_compute; reflexivity)..]
    |evaluate_state|].
Ltac steady_hb c := steady_call c ltac:(left; reflexivity).
Ltac steady_own c :=
  eapply nsteps_step_eq;
    [eapply own_keep; [vm_compute; reflexivity|..|c|left; reflexivity]; [> (vm_compute; reflexivity)..]
    |evaluate_state|].

(** Stream 5 submits a deposit and receives the answer. *)
Lemma demo_own :
  exists n r, nsteps (own_steady (W := CassandraStore MemSession) (R := MockResolver) demo_cfg) 12
      (NewNode demo_store (Some demo_resolver)) n /\
    n_submitted n = [(5%nat, demo_tx "tx-1" 100)] /\
    n_sent n = [(5%nat, mkBatchResponse [r])] /\ ResSuccess r = true /\ res_key r = (1, 7, 42) /\
    (ResTenantId r, ResUid r, ResTxId r) = (1, 7, "tx-1") /\
    n_shards n !! 6%nat = Some {[(1, 7) := 0%nat]} /\ n_panicked n = false /\ n_hbs n = {[0%nat := mkHb 5 [] HLoop]} /\ n_kills n = ∅ /\ n_aggExited n = false /\
    quiescent n = true.
Proof.
  eexists _, _. split.
  { eapply nsteps_step_eq; [eapply own_keep; [reflexivity|..|apply ow_hb, (hb_call _ _ 0 5 [Some (demo_tx "tx-1" 100)] 0); [done|go_decide]
      |left; reflexivity]; [> reflexivity..]|evaluate_state|].
    steady_hb uconstr:(hb_pass _ _ 0). steady_hb uconstr:(hb_lookup _ _ 0).
    steady_call uconstr:(hb_create_new _ _ 0 _ _ _ 3 _ _ 0) ltac:(right; reflexivity).
    steady_hb uconstr:(hb_route _ _ 0). steady_hb uconstr:(hb_send _ _ 0). steady_hb uconstr:(hb_enqueue _ _ 0).
    steady_own ltac:(apply ow_actor; eapply (act_handle _ 0 _ _ _ 9); [> (vm_compute; reflexivity)..]).
    steady_own ltac:(apply ow_actor; eapply (act_emit _ 0); [> (vm_compute; reflexivity)..]).
    steady_own ltac:(apply ow_actor; eapply (act_push _ 0);
      [vm_compute; reflexivity..|unfold has_room, resultChCap; cbn; lia]).
    steady_own ltac:(apply ow_agg; eapply agg_recv;
      [reflexivity|vm_compute; reflexivity|unfold maxBatchSize; cbn; lia]).
    steady_own ltac:(apply ow_agg; eapply agg_tick; reflexivity).
    apply nsteps_O. }
  by repeat (split; [vm_compute; reflexivity|]).
Qed.

Lemma demo_steady :
  exists n r, nsteps (steady_step (W := CassandraStore MemSession) (R := MockResolver) demo_cfg) 12
      (NewNode demo_store (Some demo_resolver)) n /\
    n_submitted n = [(5%nat, demo_tx "tx-1" 100)] /\
    n_sent n = [(5%nat, mkBatchResponse [r])] /\ ResSuccess r = true /\ res_key r = (1, 7, 42) /\
    (ResTenantId r, ResUid r, ResTxId r) = (1, 7, "tx-1") /\
    n_shards n !! 6%nat = Some {[(1, 7) := 0%nat]} /\ n_panicked n = false /\
    n_hbs n = {[0%nat := mkHb 5 [] HLoop]} /\ n_kills n = ∅ /\ n_aggExited n = false /\ quiescent n = true.
Proof.
  destruct demo_own as (n & r & Hs & Hrest). exists n, r. split; [|exact Hrest].
  eapply nsteps_mono; [|exact Hs]. apply own_steady_step.
Qed.

Lemma empty_ledger (k : ActorKey) : ledger_of (db demo_store) k.1 k.2 [].
Proof.
  split; [done| | |done].
  - intros b v. simpl. by rewrite lookup_empty.
  - apply good_nil.
Qed.

