(* ===== verification/NodeOnce.v ===== *)
(** * The node: theorems

    Every envelope that a stream submits is one token; the steps of the node move
    tokens between batches, mailboxes, evictions, the result channel, the
    aggregator and the streams, and never create one: no request is answered more
    often than it was submitted.  With the invariant of [NodeInv] this gives the
    theorems about runs of internal/node/node.go: routing of replies, sharding,
    panics, and what shutdown can lose.  The witnesses run a node step by step. *)

From S2P Require Import Prelude Wire Routing Discovery Mailbox Store Wallet WalletSpec WalletSystem Node NodeInv NodeLedger.

(** ** Tokens *)

Definition hit (k k' : Z * Z * Z) : nat := if decide (k' = k) then 1 else 0.

Section Tokens.
Context (k : Z * Z * Z).

Definition env_tok (env : RemoteEnvelope) : nat := hit k (env_key env).
Definition oenv_tok (o : option RemoteEnvelope) : nat := match o with Some e => env_tok e | None => 0 end.
Definition res_tok (r : RemoteResult) : nat := hit k (res_key r).
Definition q_tok (q : queuedResult) : nat := res_tok (q_res q).
Definition pc_tok (pc : hb_pc) : nat :=
  match pc with
  | HOver | HLoop | HDone => 0
  | HPush _ q | HKill _ q => q_tok q
  | HLookup env | HCreate env => env_tok env
  | HRoute env _ | HSend env _ | HEnq env _ | HUnroute env _ | HEvict env _ => env_tok env
  end.
Definition hb_tok (h : hb) : nat := sum_list_with oenv_tok (hb_rest h) + pc_tok (hb_at h).
Definition apc_tok (pc : actor_pc) : nat :=
  match pc with AEmit r => res_tok r | APush q => q_tok q | _ => 0 end.
Definition act_tok (na : node_actor) : nat := sum_list_with env_tok (na_mailbox na) + apc_tok (na_pc na).
Definition kill_tok (g : kill_pc) : nat :=
  match g with
  | KWait _ => 0
  | KNext envs => sum_list_with env_tok envs
  | KPush q envs => q_tok q + sum_list_with env_tok envs
  end.
Definition sent_tok (m : nat * BatchResponse) : nat := sum_list_with res_tok (Results m.2).

Definition tokens {W R} (n : node W R) : nat :=
  msum hb_tok (n_hbs n) + msum act_tok (n_actors n) + msum kill_tok (n_kills n) +
  sum_list_with q_tok (n_resultCh n) + sum_list_with q_tok (n_batch n) +
  sum_list_with sent_tok (n_sent n).
Definition asked_tok {W R} (n : node W R) : nat := sum_list_with (fun se => env_tok se.2) (n_submitted n).

Lemma act_tok_stop na : act_tok (stop_actor na) = act_tok na.
Proof. unfold stop_actor. by case_match. Qed.

Lemma stop_actors_tok {W R} (n : node W R) ids : msum act_tok (n_actors (stop_actors ids n)) = msum act_tok (n_actors n).
Proof. apply msum_imap. intros i x. case_decide; [apply act_tok_stop|done]. Qed.

(** *** The flush *)

Lemma add_group_tok q gs :
  sum_list_with (fun g => sum_list_with res_tok g.2) (add_group q gs) =
  (sum_list_with (fun g => sum_list_with res_tok g.2) gs + q_tok q)%nat.
Proof.
  induction gs as [|[s rs] gs IH]; simpl; [unfold q_tok; lia|].
  case_decide; simpl; [rewrite sum_list_with_app; simpl; unfold q_tok; lia|rewrite IH; lia].
Qed.

Lemma group_tok batch :
  sum_list_with (fun g => sum_list_with res_tok g.2) (group_results batch) = sum_list_with q_tok batch.
Proof.
  unfold group_results. induction batch as [|q batch IH] using rev_ind; [done|].
  rewrite foldl_app, sum_list_with_app. simpl. rewrite add_group_tok, IH. lia.
Qed.

Lemma chunk_tok s fuel rs :
  (length rs <= fuel)%nat ->
  sum_list_with sent_tok (pair s <$> chunks fuel rs) = sum_list_with res_tok rs.
Proof.
  intros Hf. rewrite <- (chunks_concat fuel rs Hf) at 2. clear Hf.
  induction (chunks fuel rs) as [|c cs IH]; [done|].
  cbn [fmap list_fmap sum_list_with concat]. rewrite sum_list_with_app. unfold sent_tok at 1.
  cbn [snd]. f_equal. exact IH.
Qed.

Lemma flush_tok batch gs :
  gs ≡ₚ group_results batch -> sum_list_with sent_tok (flush_sends gs) = sum_list_with q_tok batch.
Proof.
  intros Hp. rewrite <- group_tok, <- (sum_list_with_perm _ _ _ Hp). clear Hp.
  induction gs as [|[s rs] gs IH]; [done|]. unfold flush_sends. cbn [mbind list_bind sum_list_with].
  rewrite sum_list_with_app. f_equal; [|exact IH]. by apply chunk_tok.
Qed.
End Tokens.

(** ** Conservation *)

Section Conservation.
Context {W R Er : Type} `{WalletDB W} `{TopologyResolver R Er} (cfg : Config) (k : Z * Z * Z).
Implicit Types n : node W R.

(** A step creates no token but those it submits, and a step that loses none. *)
Definition conserves n n' : Prop :=
  (tokens k n' + asked_tok k n <= tokens k n + asked_tok k n')%nat.
Definition balanced n n' : Prop :=
  (tokens k n' + asked_tok k n = tokens k n + asked_tok k n')%nat.

(** Whatever holds an envelope or an answer with key [k] that is to be routed finds the
    route: an actor that emits, an eviction that answers. *)
Definition routes_held n : Prop :=
  (forall a na r, n_actors n !! a = Some na -> na_pc na = AEmit r -> res_key r = k -> is_Some (n_routes n !! k)) /\
  (forall g env envs, n_kills n !! g = Some (KNext (env :: envs)) -> env_key env = k -> is_Some (n_routes n !! k)).

(** A step loses a token only by a panic or a missing route. *)
Definition accounts n n' : Prop :=
  conserves n n' /\ (n_panicked n' = false -> routes_held n -> balanced n n').

Lemma balanced_accounts n n' : balanced n n' -> accounts n n'.
Proof. unfold accounts, conserves, balanced. lia. Qed.

Lemma submit_tok s envs : sum_list_with (fun se => env_tok k se.2) (submit s envs) = sum_list_with (oenv_tok k) envs.
Proof. unfold submit. induction envs as [|[e|] envs IH]; simpl; [done|by rewrite <- IH|exact IH]. Qed.

Lemma check_tok resolver ip env r' kill r :
  check_envelope (R := R) resolver ip env = Some (r', Reject kill r) -> res_tok k r = env_tok k env.
Proof. intros E. unfold res_tok, env_tok. by rewrite (check_key _ _ _ _ _ _ E). Qed.

(** The answer of [Handle] is for the envelope it was given. *)
Lemma handle_tok ak na now w env rest h :
  serves_key ak na -> na_mailbox na = env :: rest -> Handle (W := W) now w (na_biz na) env = Some h ->
  res_tok k (completeResult (h_result h) env) = env_tok k env.
Proof.
  intros [Hi Hm _] Hmail E. rewrite Hmail in Hm. apply list.Forall_cons in Hm as [Hk _].
  destruct (handle_identity _ _ _ _ _ E) as (I1 & I2 & _ & I4 & _).
  unfold actor_key in Hk. rewrite <- Hi in Hk. injection Hk as HT HU.
  unfold res_tok, env_tok. f_equal. unfold res_key, env_key, completeResult.
  cbn [ResTenantId ResUid ResRequestId]. rewrite I1, I2, I4.
  by repeat case_decide; rewrite ?HT, ?HU.
Qed.

Lemma hb_update n t s s' rest rest' pc pc' :
  n_hbs n !! t = Some (mkHb s rest pc) ->
  (msum (hb_tok k) (<[t := mkHb s' rest' pc']> (n_hbs n)) + (sum_list_with (oenv_tok k) rest + pc_tok k pc) =
   sum_list_with (oenv_tok k) rest' + pc_tok k pc' + msum (hb_tok k) (n_hbs n))%nat.
Proof. intros Ht. exact (msum_update (hb_tok k) _ t (mkHb s' rest' pc') _ Ht). Qed.

Lemma act_update n a na b st mail pc :
  n_actors n !! a = Some na ->
  (msum (act_tok k) (<[a := mkNodeActor b st mail pc]> (n_actors n)) +
     (sum_list_with (env_tok k) (na_mailbox na) + apc_tok k (na_pc na)) =
   sum_list_with (env_tok k) mail + apc_tok k pc + msum (act_tok k) (n_actors n))%nat.
Proof. intros Ha. exact (msum_update (act_tok k) _ a (mkNodeActor b st mail pc) _ Ha). Qed.

Ltac count_hb Ht Hu :=
  match goal with |- context [msum (hb_tok k) (<[?t := mkHb ?s' ?rest' ?pc']> (n_hbs ?n))] =>
    pose proof (hb_update n t _ s' _ rest' _ pc' Ht) as Hu; cbn -[Nat.add] in Hu end;
  repeat match type of Hu with
  | context [q_tok k (mkQueued (overloaded ?e) ?s)] =>
      change (q_tok k (mkQueued (overloaded e) s)) with (env_tok k e) in Hu
  | context [q_tok k (mkQueued (rehydration_failed ?e ?m) ?s)] =>
      change (q_tok k (mkQueued (rehydration_failed e m) s)) with (env_tok k e) in Hu
  end.

Ltac settle := split; [lia|intros Hnp _; first [discriminate Hnp | lia]].

Lemma hb_accounts n n' : node_inv n -> hb_step cfg n n' -> accounts n n'.
Proof.
  intros I Hst. unfold accounts, conserves, balanced, tokens, asked_tok. destruct Hst as
    [t s envs pending Ht Hp|t s rest Ht|t s env rest Ht|t s over Ht Ho|t s rest over q Ht Hroom
    |t s rest Ht|t s env rest Ht E|t s env rest r' Ht E|t s env rest r' kill r Ht E Hl
    |t s env rest r' r a Ht E Hl|t s rest a q g Ht Hg|t s env rest Ht|t s env rest a Ht Hl
    |t s env rest now w' b a Ht Hl E Ha|t s env rest now w' b e Ht Hl E|t s env rest now Ht E
    |t s env rest a Ht|t s env rest a na Ht Hna|t s env rest a na Ht Hna|t s env rest a Ht
    |t s env rest a Ht]; cbn -[Nat.add msum stop_actors]; try (count_hb Ht Hu; settle).
  - rewrite msum_new by done. rewrite sum_list_with_app, submit_tok.
    unfold hb_tok at 1. cbn -[Nat.add msum]. case_decide; cbn -[msum]; settle.
  - count_hb Ht Hu. destruct Ho as [-> | ->]; cbn -[msum Nat.add] in *; settle.
  - count_hb Ht Hu. rewrite sum_list_with_app. cbn -[msum Nat.add]. destruct over; cbn -[msum Nat.add] in *; settle.
  - count_hb Ht Hu. unfold q_tok in Hu. cbn -[msum Nat.add] in Hu. rewrite (check_tok _ _ _ _ _ _ E) in Hu. settle.
  - count_hb Ht Hu. unfold q_tok in Hu. cbn -[msum Nat.add] in Hu. rewrite (check_tok _ _ _ _ _ _ E) in Hu. settle.
  - rewrite msum_new by done. cbn -[msum Nat.add stop_actors].
    change (n_actors (stop_actors [a] (set_hb t (mkHb s rest (HPush false q)) n)))
      with (n_actors (stop_actors [a] n)). rewrite stop_actors_tok.
    cbn -[msum Nat.add]. count_hb Ht Hu. settle.
  - count_hb Ht Hu. destruct (lookup_actor n (actor_key env)); cbn -[msum Nat.add] in *; settle.
  - rewrite (msum_new (act_tok k)) by done. change (act_tok k (mkNodeActor b statusRunning [] AIdle)) with 0%nat. cbn -[msum Nat.add]. count_hb Ht Hu. settle.
  - count_hb Ht Hu. destruct (rejects (na_status na)); cbn -[msum Nat.add] in *; settle.
  - count_hb Ht Hu. pose proof (act_update n a na (na_biz na) (na_status na) (na_mailbox na ++ [env]) (na_pc na) Hna) as Ha.
    rewrite sum_list_with_app in Ha. cbn -[msum Nat.add] in Ha. settle.
  - case_decide; cbn -[msum Nat.add]; count_hb Ht Hu; settle.
Qed.

Lemma actor_accounts n n' : node_inv n -> actor_step n n' -> accounts n n'.
Proof.
  intros I Hst. unfold accounts, conserves, balanced, tokens, asked_tok. destruct Hst as
    [a na env rest now h Hna Hpc Hm E|a na env rest now Hna Hpc Hm E|a na Hna Hpc Hm|a na Hna Hpc Hs
    |a na Hna Hpc Hs|a na r Hna Hpc|a na q Hna Hpc Hroom]; cbn -[Nat.add msum]; try settle;
    match goal with |- context [msum (act_tok k) (<[?a := mkNodeActor ?b ?st ?mail ?pc]> (n_actors ?n))] =>
      pose proof (act_update n a na b st mail pc Hna) as Hu; rewrite Hpc in Hu; cbn -[Nat.add msum] in Hu end;
    try (rewrite Hm in Hu; cbn -[Nat.add msum] in Hu); try settle.
  - destruct (ni_actor _ I _ _ Hna) as [ak Hsk]. rewrite (handle_tok _ _ _ _ _ _ _ Hsk Hm E) in Hu. settle.
  - destruct (n_routes n !! res_key r) as [s|] eqn:Hrt; cbn -[Nat.add msum] in *; [unfold q_tok in *; cbn in *; settle|].
    split; [lia|]. intros _ [Hr _]. unfold res_tok, hit in Hu. case_decide as Hk; [|lia].
    destruct (Hr a na r Hna Hpc Hk) as [s Hs]. rewrite <- Hk in Hs. congruence.
  - rewrite sum_list_with_app. cbn -[Nat.add msum]. settle.
Qed.

Lemma kill_update n g pc pc' :
  n_kills n !! g = Some pc ->
  (msum (kill_tok k) (<[g := pc']> (n_kills n)) + kill_tok k pc = kill_tok k pc' + msum (kill_tok k) (n_kills n))%nat.
Proof. apply msum_update. Qed.

Lemma kill_accounts n n' : kill_step n n' -> accounts n n'.
Proof.
  unfold accounts, conserves, balanced, tokens, asked_tok. intros [g a na Hg Hna Hs|g env envs Hg|g q envs Hg Hroom];
    cbn -[Nat.add msum]; pose proof (fun pc' => kill_update n g _ pc' Hg) as Hu.
  - pose proof (act_update n a na (na_biz na) (na_status na) [] (na_pc na) Hna) as Ha.
    specialize (Hu (KNext (na_mailbox na))). cbn -[Nat.add msum] in Ha, Hu. settle.
  - destruct (n_routes n !! env_key env) as [s|] eqn:Hrt.
    + specialize (Hu (KPush (mkQueued (evicted env) s) envs)). cbn -[Nat.add msum] in Hu.
      change (q_tok k (mkQueued (evicted env) s)) with (env_tok k env) in Hu. settle.
    + specialize (Hu (KNext envs)). cbn -[Nat.add msum] in Hu. split; [lia|]. intros _ [_ Hr].
      unfold env_tok at 1, hit in Hu. case_decide as Hk; [|lia].
      destruct (Hr g env envs Hg Hk) as [s Hs]. rewrite <- Hk in Hs. congruence.
  - rewrite sum_list_with_app. specialize (Hu (KNext envs)). cbn -[Nat.add msum] in *. settle.
Qed.

Lemma agg_balanced n n' : agg_step n n' -> balanced n n'.
Proof.
  unfold balanced, tokens, asked_tok. intros [q rest He Hc Hlen|q rest gs He Hc Hlen Hp|gs He Hp|gs He Hs Hp];
    cbn -[Nat.add msum flush_sends]; rewrite ?Hc, ?sum_list_with_app; try rewrite (flush_tok k _ _ Hp);
    rewrite ?sum_list_with_app; cbn -[Nat.add msum]; lia.
Qed.

Lemma node_accounts n n' : node_inv n -> node_step cfg n n' -> accounts n n'.
Proof.
  intros I [_ [Hs|Hs|Hs|Hs|Hs|Hs|w r ->]].
  - by apply hb_accounts.
  - by apply actor_accounts.
  - by apply kill_accounts.
  - by apply balanced_accounts, agg_balanced.
  - apply balanced_accounts. unfold balanced, tokens, asked_tok.
    destruct Hs as [H2|i stopping H2 Hi|stopping H2|a stopping na H2 Hna Hd|H2]; try done.
    unfold sweep. cbn -[Nat.add msum stop_actors].
    match goal with |- context [n_actors (stop_actors ?ids _)] =>
      change (n_actors (stop_actors ids _)) with (n_actors (stop_actors ids n)) end.
    by rewrite stop_actors_tok.
  - apply balanced_accounts. unfold balanced, tokens, asked_tok. destruct Hs as [now H2|i now H2 Hi|now H2|H2 Hc]; try done.
    unfold passivate. cbn -[Nat.add msum stop_actors].
    match goal with |- context [n_actors (stop_actors ?ids _)] =>
      change (n_actors (stop_actors ids _)) with (n_actors (stop_actors ids n)) end.
    by rewrite stop_actors_tok.
  - by apply balanced_accounts.
Qed.

Lemma tokens_bounded n : node_reachable cfg n -> (tokens k n <= asked_tok k n)%nat.
Proof.
  intros (w & r & Hs).
  apply (rtc_invariant (node_step cfg) (fun m => node_inv m /\ (tokens k m <= asked_tok k m)%nat))
    with (x := NewNode w r); [|split; [apply NewNode_inv|done]|done].
  intros a b [I Ht] Hst. split; [by eapply node_step_inv|].
  destruct (node_accounts _ _ I Hst) as [Hc _]. unfold conserves in Hc. lia.
Qed.
End Conservation.

(** ** Theorems *)

(** The results with key [k] that streams received. *)
Definition answers {W R} (k : Z * Z * Z) (n : node W R) : nat := sum_list_with (sent_tok k) (n_sent n).
(** The envelopes with key [k] that streams submitted. *)
Definition requests {W R} (k : Z * Z * Z) (n : node W R) : nat := asked_tok k n.

Section Theorems.
Context {W R Er : Type} `{WalletDB W} `{TopologyResolver R Er} (cfg : Config).
Implicit Types n : node W R.

(** C7: replies are not misrouted.  Whatever streams, actors, evictions and
    flushes interleave, a stream only receives results whose (tenant, uid,
    request id) is that of an envelope this same stream submitted. *)
Theorem node_reply_routing n s resp r :
  node_reachable cfg n -> (s, resp) ∈ n_sent n -> r ∈ Results resp ->
  exists env, (s, env) ∈ n_submitted n /\ env_key env = res_key r.
Proof. intros Hn Hin Hr. exact (ni_sent _ (node_reachable_inv cfg n Hn) _ _ _ Hin Hr). Qed.

(** No request is answered more often than it was submitted. *)
Lemma node_answers_at_most_once n k :
  node_reachable cfg n -> (answers k n <= requests k n)%nat.
Proof.
  intros Hn. pose proof (tokens_bounded cfg k n Hn) as Ht.
  unfold answers, requests. unfold tokens in Ht. lia.
Qed.

(** Sharding.  A key is only ever found in the shard [shardIndex] gives, which
    exists, and refers to an actor of exactly that account, all of whose queued
    envelopes are for that account. *)
Theorem node_sharding n i sh k a :
  node_reachable cfg n -> n_shards n !! i = Some sh -> sh !! k = Some a ->
  Z.of_nat i = shardIndex k /\ 0 <= shardIndex k < 256 /\
  exists na, n_actors n !! a = Some na /\ tenantID (na_biz na) = k.1 /\ uid (na_biz na) = k.2 /\
    Forall (fun env => actor_key env = k) (na_mailbox na).
Proof.
  intros Hn Hi Hk. destruct (ni_shard _ (node_reachable_inv cfg n Hn) _ _ _ _ Hi Hk) as [-> (na & Hna & [Hids Hm _])].
  assert (0 <= shardIndex k < 256) as Hr by (apply Z.mod_pos_bound; lia).
  split_and!; try lia; [unfold shard_ix; lia|]. exists na. rewrite <- Hids. split_and!; try done. by rewrite Hids.
Qed.

(** C33: panics.  The only steps that crash the process are a nil envelope in a
    batch that is not overloaded and a resolver that itself panics; no actor, no
    rehydration and no other path does. *)
Theorem node_panics n n' :
  node_reachable cfg n -> node_step cfg n n' -> n_panicked n = false -> n_panicked n' = true ->
  exists t s rest, n_hbs n !! t = Some (mkHb s (None :: rest) HLoop) \/
    exists env, n_hbs n !! t = Some (mkHb s (Some env :: rest) HLoop) /\
      check_envelope (n_resolver n) (myIP cfg) env = None.
Proof.
  intros I%node_reachable_inv Hst Hf Ht.
  destruct Hst as [_ [Hs|Hs|Hs|Hs|Hs|Hs|w r ->]]; [| | | | | |cbn in Ht; congruence].
  - destruct Hs; cbn in Ht; try congruence; try (case_decide; cbn in Ht; congruence).
    + eexists _, _, _. by left.
    + eexists _, _, _. right. eauto.
    + match goal with E : rehydrate ?w (newBusinessActor ?x ?y ?z) = None |- _ =>
        destruct (rehydrate_safe w _ [] (newBusinessActor_ring x y z)) as (? & ? & ? & ? & E' & _) end.
      congruence.
  - destruct Hs as [|a na env rest now Hna Hpc Hm E| | | | |]; cbn in Ht; try congruence.
    destruct (ni_actor _ I _ _ Hna) as [ak [_ _ [hist Rg]]].
    destruct (handle_total now (n_world n) (na_biz na) env hist Rg). congruence.
  - destruct Hs; cbn in Ht; congruence.
  - destruct Hs; cbn in Ht; congruence.
  - destruct Hs; cbn in Ht; congruence.
  - destruct Hs; cbn in Ht; congruence.
Qed.
End Theorems.

(** ** Shutdown *)

Section Shutdown.
Context {W R Er : Type} `{Store W} `{TopologyResolver R Er} (cfg : Config).
Implicit Types n : node W R.

(** Sweeping a node without actors changes nothing. *)
Lemma sweep_empty n i : n_shards n = replicate 256 ∅ -> n_actors n = ∅ -> sweep i n = (n, []).
Proof.
  intros Hs Ha. unfold sweep. rewrite Hs.
  assert (default ∅ (replicate 256 (∅ : gmap (Z * Z) nat) !! i) = ∅) as ->.
  { destruct (replicate 256 _ !! i) eqn:E; [|done]. by apply lookup_replicate in E as [-> _]. }
  rewrite map_to_list_empty. cbn [fmap list_fmap].
  assert (alter (fun _ => ∅) i (replicate 256 (∅ : gmap (Z * Z) nat)) = replicate 256 ∅) as Halt.
  { apply list_eq. intros j. rewrite list_lookup_alter. case_decide; [|done].
    destruct (replicate 256 _ !! _) eqn:E; [|by subst; rewrite E].
    subst. apply lookup_replicate in E as [-> Hj]. symmetry. by apply lookup_replicate. }
  f_equal. destruct n as [sh ac ro rc ba ae hs ki st ps wo re go pa se su]. cbn in Hs, Ha. subst sh ac.
  exact (f_equal2 (fun x y => mkNodeState x y ro rc ba ae hs ki st ps wo re go pa se su) Halt (map_imap_empty _)).
Qed.

Lemma sweep_all n i :
  n_shards n = replicate 256 ∅ -> n_actors n = ∅ -> n_panicked n = false ->
  n_stop n = StSweep i [] -> (i <= 256)%nat ->
  rtc (node_step cfg) n (n <| n_stop := StSweep 256 [] |>).
Proof.
  intros Hs Ha. remember (256 - i)%nat as d eqn:Ed. revert n i Ed Hs Ha.
  induction d as [|d IH]; intros n i Ed Hs Ha Hf Hst Hi.
  - assert (i = 256%nat) as -> by lia. destruct n. cbn in *. subst. apply rtc_refl.
  - eapply rtc_l; [split; [done|]; apply ns_stop, (stop_sweep _ i []); [done|lia]|].
    rewrite (sweep_empty n i Hs Ha). cbn [fst snd app].
    exact (IH (n <| n_stop := StSweep (S i) [] |>) (S i) ltac:(lia) Hs Ha Hf eq_refl ltac:(lia)).
Qed.

(** C37: shutdown can drop results.  When [done] is closed the aggregator flushes
    the batch it has and returns, without receiving what is still in the result
    channel: there is a run in which a request was answered into the channel,
    [Stop] completed, and the stream never receives the answer. *)
Theorem node_stop_drops_results (w : W) (r : option R) (s : nat) (env : RemoteEnvelope) :
  missing_field env = true -> 0 <= cfgMailboxLimit cfg ->
  exists n, node_reachable cfg n /\ n_submitted n = [(s, env)] /\ n_stop n = StClosed /\
    n_aggExited n = true /\ n_resultCh n = [mkQueued (bad_request env) s] /\ n_sent n = [] /\
    (forall n', agg_step n n' -> False).
Proof.
  intros Hm Hlim. set (q := mkQueued (bad_request env) s).
  set (nd hbs ch st ex := mkNodeState (W := W) (R := R) (replicate 256 ∅) ∅ ∅ ch [] ex hbs ∅ st PassSelect w r []
                            false [] [(s, env)]).
  set (hd := {[0%nat := mkHb s [] HLoop]} : gmap nat hb).
  exists (nd hd [q] StClosed true). split_and!; try done; [|by inversion 1].
  exists w, r.
  eapply rtc_l; [split; [done|]; apply ns_hb, (hb_call _ _ 0 s [Some env] 0); [done|done]|].
  rewrite decide_False by (unfold mailboxLimit, defaultMailboxLimit; case_decide; lia).
  eapply rtc_l; [split; [done|]; apply ns_hb; eapply (hb_reject _ _ 0 s env [] r false (bad_request env)); [done| |by left]|].
  { cbn. unfold check_envelope. by rewrite Hm. }
  eapply rtc_l; [split; [done|]; apply ns_hb; eapply (hb_push _ _ 0 s [] false q); [done|]|].
  { unfold has_room, resultChCap. cbn. lia. }
  match goal with |- rtc _ ?x _ => change x with (nd hd [q] StNone false) end.
  eapply rtc_l; [split; [done|]; by apply ns_stop, stop_begin|].
  etrans; [by eapply (sweep_all (nd hd [q] (StSweep 0 []) false) 0); [done|done|done|done|lia]|].
  eapply rtc_l; [split; [done|]; by apply ns_stop, (stop_swept _ [])|].
  eapply rtc_l; [split; [done|]; by apply ns_stop, stop_close|].
  eapply rtc_l; [split; [done|]; by apply ns_agg, (agg_done _ [])|]. apply rtc_refl.
Qed.
End Shutdown.

(** ** Witnesses *)

Ltac run_node c := eapply rtc_step_eq; [c; [> (vm_compute; reflexivity)..]|evaluate_state|].
Tactic Notation "by_hb" uconstr(c) := run_node ltac:(split; [vm_compute; reflexivity|]; apply ns_hb; eapply c).
Tactic Notation "by_actor" uconstr(c) := run_node ltac:(split; [vm_compute; reflexivity|]; apply ns_actor; eapply c).

(** Stream 5 submits a deposit; its actor is created, executes it, and the answer
    reaches the stream. *)
Lemma demo_run :
  exists n r, node_reachable (W := CassandraStore MemSession) (R := MockResolver) demo_cfg n /\
    n_submitted n = [(5%nat, demo_tx "tx-1" 100)] /\
    n_sent n = [(5%nat, mkBatchResponse [r])] /\ ResSuccess r = true /\ res_key r = (1, 7, 42) /\
    n_shards n !! 6%nat = Some {[(1, 7) := 0%nat]} /\ n_panicked n = false /\ n_hbs n = {[0%nat := mkHb 5 [] HLoop]} /\ n_kills n = ∅ /\ n_aggExited n = false /\ quiescent n = true.
Proof.
  destruct demo_steady as (n & r & Hs & Hsub & Hsent & Hok & Hk & _ & Hsh & Hp & Hb & Hki & Hag & Hq). exists n, r.
  split_and!; try done. by destruct (steady_orderly _ _ _ _ _ Hs) as (_ & _ & Hr).
Qed.

Lemma node_reply_routing_witness :
  exists (n : node (CassandraStore MemSession) MockResolver) r,
    node_reachable demo_cfg n /\ n_sent n = [(5%nat, mkBatchResponse [r])] /\
    exists env, (5%nat, env) ∈ n_submitted n /\ env_key env = res_key r.
Proof.
  destruct demo_run as (n & r & Hn & _ & Hs & _). exists n, r. split; [done|]. split; [done|].
  apply (node_reply_routing demo_cfg n 5%nat (mkBatchResponse [r]) r Hn); [rewrite Hs|]; by left.
Defined.

(** A batch with a nil envelope. *)
Lemma node_panics_witness :
  exists n n' : node (CassandraStore MemSession) MockResolver,
    node_reachable demo_cfg n /\ node_step demo_cfg n n' /\ n_panicked n' = true /\
    exists t s rest, n_hbs n !! t = Some (mkHb s (None :: rest) HLoop) \/
      exists env, n_hbs n !! t = Some (mkHb s (Some env :: rest) HLoop) /\
        check_envelope (n_resolver n) (myIP demo_cfg) env = None.
Proof.
  assert (exists n n' : node (CassandraStore MemSession) MockResolver,
    node_reachable demo_cfg n /\ node_step demo_cfg n n' /\ n_panicked n = false /\ n_panicked n' = true)
    as (n & n' & Hn & Hst & Hf & Ht).
  { eexists _, _. split.
    - exists demo_store, (Some demo_resolver). eapply rtc_l; [|apply rtc_refl].
      split; [done|]. apply ns_hb, (hb_call _ _ 1 5 [None] 0); done.
    - split; [split; [done|]; apply ns_hb; eapply (hb_nil _ _ 1); vm_compute; reflexivity|]. split; reflexivity. }
  exists n, n'. split; [done|]. split; [done|]. split; [done|].
  exact (node_panics demo_cfg n n' Hn Hst Hf Ht).
Defined.

Lemma node_stop_drops_results_witness :
  exists n : node (CassandraStore MemSession) MockResolver,
    node_reachable demo_cfg n /\ n_stop n = StClosed /\ n_sent n = [] /\ n_resultCh n <> [].
Proof.
  destruct (node_stop_drops_results demo_cfg demo_store (Some demo_resolver) 5%nat (mkEnvelope 1 7 "" 42 1 [] 0))
    as (n & Hn & _ & Hst & _ & Hc & Hs & _); [reflexivity|done|].
  exists n. split_and!; try done. by rewrite Hc.
Defined.
