(* ===== verification/NodeExact.v ===== *)
(** * The node: every request is answered

    The converse of the counting of [NodeOnce] for internal/node/node.go.  A request
    whose (tenant, uid, request id) is submitted once is never lost while the process
    runs: its token is at every moment in exactly one place, a batch, a mailbox, an
    eviction, the result channel, the aggregator or a stream, because whoever is to
    answer it still finds its route.  So once the node has nothing left to do, it has
    answered each such request exactly once. *)

From S2P Require Import Prelude Wire Routing Discovery Mailbox Store Wallet WalletSpec WalletSystem Node NodeInv NodeLedger NodeOnce.

(** ** Tokens that still need their route *)

Section Routed.
Context (k : Z * Z * Z).

Definition hb_routed (h : hb) : nat :=
  match hb_at h with HSend env _ | HEnq env _ | HUnroute env _ => env_tok k env | _ => 0 end.
Definition act_routed (na : node_actor) : nat :=
  sum_list_with (env_tok k) (na_mailbox na) + match na_pc na with AEmit r => res_tok k r | _ => 0 end.
Definition kill_routed (g : kill_pc) : nat :=
  match g with KWait _ => 0 | KNext envs | KPush _ envs => sum_list_with (env_tok k) envs end.
Definition routed {W R} (n : node W R) : nat :=
  msum hb_routed (n_hbs n) + msum act_routed (n_actors n) + msum kill_routed (n_kills n).

Lemma hb_routed_le h : (hb_routed h <= hb_tok k h)%nat.
Proof. destruct h as [s rest pc]. unfold hb_routed, hb_tok. cbn. destruct pc; cbn; lia. Qed.
Lemma act_routed_le na : (act_routed na <= act_tok k na)%nat.
Proof. unfold act_routed, act_tok. destruct (na_pc na); cbn; lia. Qed.
Lemma kill_routed_le g : (kill_routed g <= kill_tok k g)%nat.
Proof. destruct g; cbn; lia. Qed.

(** A place that holds a token which needs no route leaves fewer that do. *)
Lemma routed_lt {W R} (n : node W R) :
  (exists t h, n_hbs n !! t = Some h /\ (hb_routed h < hb_tok k h)%nat) \/
  (exists a na, n_actors n !! a = Some na /\ (act_routed na < act_tok k na)%nat) \/
  (exists g pc, n_kills n !! g = Some pc /\ (kill_routed pc < kill_tok k pc)%nat) ->
  (routed n < tokens k n)%nat.
Proof.
  unfold routed, tokens.
  pose proof (msum_le hb_routed (hb_tok k) (n_hbs n) (fun _ h _ => hb_routed_le h)).
  pose proof (msum_le act_routed (act_tok k) (n_actors n) (fun _ na _ => act_routed_le na)).
  pose proof (msum_le kill_routed (kill_tok k) (n_kills n) (fun _ g _ => kill_routed_le g)).
  intros [(t & h & Ht & Hl)|[(a & na & Ha & Hl)|(g & pc & Hg & Hl)]].
  - pose proof (msum_lt _ _ _ _ _ (fun _ h _ => hb_routed_le h) Ht Hl). lia.
  - pose proof (msum_lt _ _ _ _ _ (fun _ na _ => act_routed_le na) Ha Hl). lia.
  - pose proof (msum_lt _ _ _ _ _ (fun _ g _ => kill_routed_le g) Hg Hl). lia.
Qed.

Lemma act_routed_stop na : act_routed (stop_actor na) = act_routed na.
Proof. unfold stop_actor. by case_match. Qed.
End Routed.

Section Exact.
Context {W R Er : Type} `{WalletDB W} `{TopologyResolver R Er} (cfg : Config) (k : Z * Z * Z).
Implicit Types n : node W R.

(** The token of [k], if it needs its route, has it. *)
Definition route_kept n : Prop := (0 < routed k n)%nat -> is_Some (n_routes n !! k).

Lemma routed_held n : route_kept n -> routes_held k n.
Proof.
  unfold route_kept, routed. intros Hk. split.
  - intros a na r Hna Hpc <-. apply Hk.
    pose proof (msum_lookup (act_routed (res_key r)) _ a na Hna) as Hl.
    unfold act_routed at 1, res_tok, hit in Hl. rewrite Hpc, decide_True in Hl by done. lia.
  - intros g env envs Hg <-. apply Hk.
    pose proof (msum_lookup (kill_routed (env_key env)) _ g _ Hg) as Hl.
    cbn -[msum] in Hl. unfold env_tok at 1, hit in Hl. rewrite decide_True in Hl by done. lia.
Qed.

Lemma kept_mono n n' :
  (routed k n' <= routed k n)%nat -> n_routes n' !! k = n_routes n !! k -> route_kept n -> route_kept n'.
Proof. unfold route_kept. intros Hle -> Hk Hpos. apply Hk. lia. Qed.

Lemma kept_last n : (tokens k n <= 1)%nat -> (routed k n < tokens k n)%nat -> route_kept n.
Proof. unfold route_kept. lia. Qed.

Lemma hb_routed_update n t s s' rest rest' pc pc' :
  n_hbs n !! t = Some (mkHb s rest pc) ->
  (msum (hb_routed k) (<[t := mkHb s' rest' pc']> (n_hbs n)) + hb_routed k (mkHb s rest pc) =
   hb_routed k (mkHb s' rest' pc') + msum (hb_routed k) (n_hbs n))%nat.
Proof. intros Ht. exact (msum_update (hb_routed k) _ t (mkHb s' rest' pc') _ Ht). Qed.

Lemma stop_actors_routed n ids : msum (act_routed k) (n_actors (stop_actors ids n)) = msum (act_routed k) (n_actors n).
Proof. apply msum_imap. intros i x. case_decide; [apply act_routed_stop|done]. Qed.

Lemma env_tok_ne env : env_key env <> k -> env_tok k env = 0%nat.
Proof. intros Hne. unfold env_tok, hit. by rewrite decide_False. Qed.
Lemma env_tok_eq env : env_key env = k -> env_tok k env = 1%nat.
Proof. intros He. unfold env_tok, hit. by rewrite decide_True. Qed.

Ltac hb_moves Ht Hu :=
  match goal with |- context [msum (hb_routed k) (<[?t := mkHb ?s' ?rest' ?pc']> (n_hbs ?n))] =>
    pose proof (hb_routed_update n t _ s' _ rest' _ pc' Ht) as Hu; cbn -[Nat.add msum] in Hu end.

Lemma hb_kept n n' : hb_step cfg n n' -> (tokens k n' <= 1)%nat -> route_kept n -> route_kept n'.
Proof.
  intros Hst. destruct Hst as
    [t s envs pending Ht Hp|t s rest Ht|t s env rest Ht|t s over Ht Ho|t s rest over q Ht Hroom
    |t s rest Ht|t s env rest Ht E|t s env rest r' Ht E|t s env rest r' kill r Ht E Hl
    |t s env rest r' r a Ht E Hl|t s rest a q g Ht Hg|t s env rest Ht|t s env rest a Ht Hl
    |t s env rest now w' b a Ht Hl E Ha|t s env rest now w' b e Ht Hl E|t s env rest now Ht E
    |t s env rest a Ht|t s env rest a na Ht Hna|t s env rest a na Ht Hna|t s env rest a Ht
    |t s env rest a Ht]; intros Hone;
    try (apply kept_mono; [unfold routed; cbn -[Nat.add msum]; hb_moves Ht Hu; lia|done]).
  - apply kept_mono; [|done]. unfold routed. cbn -[Nat.add msum]. rewrite msum_new by done.
    unfold hb_routed at 1. cbn -[msum Nat.add]. case_decide; lia.
  - apply kept_mono; [|done]. unfold routed. cbn -[Nat.add msum]. hb_moves Ht Hu. destruct over; cbn -[msum Nat.add] in Hu; lia.
  - apply kept_mono; [|done]. unfold routed. cbn -[Nat.add msum stop_actors]. rewrite msum_new by done.
    change (n_actors (stop_actors [a] (set_hb t (mkHb s rest (HPush false q)) n)))
      with (n_actors (stop_actors [a] n)). rewrite stop_actors_routed. cbn -[Nat.add msum]. hb_moves Ht Hu. lia.
  - apply kept_mono; [|done]. unfold routed. cbn -[Nat.add msum]. hb_moves Ht Hu.
    destruct (lookup_actor n (actor_key env)); cbn -[msum Nat.add] in Hu; lia.
  - apply kept_mono; [|done]. unfold routed. cbn -[Nat.add msum]. rewrite (msum_new (act_routed k)) by done.
    change (act_routed k (mkNodeActor b statusRunning [] AIdle)) with 0%nat. hb_moves Ht Hu. lia.
  - destruct (decide (env_key env = k)) as [He|Hne].
    + intros _ _. exists s. rewrite <- He. apply lookup_insert_eq.
    + apply kept_mono; [|by apply lookup_insert_ne].
      unfold routed. cbn -[Nat.add msum]. hb_moves Ht Hu.
      rewrite (env_tok_ne env Hne) in Hu. lia.
  - apply kept_mono; [|done]. unfold routed. cbn -[Nat.add msum]. hb_moves Ht Hu.
    destruct (rejects (na_status na)); cbn -[msum Nat.add] in Hu; lia.
  - apply kept_mono; [|done]. unfold routed. cbn -[Nat.add msum]. hb_moves Ht Hu.
    pose proof (msum_update (act_routed k) _ a (mkNodeActor (na_biz na) (na_status na) (na_mailbox na ++ [env]) (na_pc na)) _ Hna) as Ha.
    unfold act_routed at 2 3 in Ha. cbn -[msum Nat.add] in Ha. rewrite sum_list_with_app in Ha. cbn -[msum Nat.add] in Ha. lia.
  - destruct (decide (env_key env = k)) as [He|Hne].
    + intros _. apply (kept_last _ Hone), routed_lt. left.
      eexists t, _. split; [apply lookup_insert_eq|]. unfold hb_tok. cbn. rewrite (env_tok_eq env He). lia.
    + apply kept_mono; [|by apply lookup_delete_ne].
      unfold routed. cbn -[Nat.add msum]. hb_moves Ht Hu. lia.
  - apply kept_mono; [|by case_decide]. unfold routed. case_decide; cbn -[Nat.add msum]; hb_moves Ht Hu; lia.
Qed.

Lemma act_routed_update n a na b st mail pc :
  n_actors n !! a = Some na ->
  (msum (act_routed k) (<[a := mkNodeActor b st mail pc]> (n_actors n)) + act_routed k na =
   act_routed k (mkNodeActor b st mail pc) + msum (act_routed k) (n_actors n))%nat.
Proof. intros Ha. exact (msum_update (act_routed k) _ a (mkNodeActor b st mail pc) _ Ha). Qed.

Lemma actor_kept n n' :
  node_inv n -> actor_step n n' -> (tokens k n' <= 1)%nat -> route_kept n -> route_kept n'.
Proof.
  intros I Hst. destruct Hst as
    [a na env rest now h Hna Hpc Hm E|a na env rest now Hna Hpc Hm E|a na Hna Hpc Hm|a na Hna Hpc Hs
    |a na Hna Hpc Hs|a na r Hna Hpc|a na q Hna Hpc Hroom]; intros Hone; [|by apply kept_mono| | | | |];
    try match goal with |- context [mkNodeActor ?b ?st ?mail ?pc] =>
      pose proof (act_routed_update n a na b st mail pc Hna) as Hu; unfold act_routed in Hu at 2 3;
      rewrite Hpc in Hu; cbn -[Nat.add msum] in Hu; try (rewrite Hm in Hu; cbn -[Nat.add msum] in Hu) end;
    try (apply kept_mono; [unfold routed; cbn -[Nat.add msum]; lia|done]).
  - destruct (ni_actor _ I _ _ Hna) as [ak Hsk]. rewrite (handle_tok _ _ _ _ _ _ _ _ Hsk Hm E) in Hu.
    apply kept_mono; [unfold routed; cbn -[Nat.add msum]; lia|done].
  - destruct (decide (res_key r = k)) as [He|Hne].
    + destruct (n_routes n !! res_key r) as [s|] eqn:Hrt.
      * intros _. apply (kept_last _ Hone), routed_lt. right. left.
        eexists a, _. split; [apply lookup_insert_eq|]. unfold act_routed, act_tok, apc_tok, q_tok, res_tok, hit. cbn -[Nat.add].
        rewrite decide_True by done. lia.
      * intros Hk. exfalso. destruct (proj1 (routed_held n Hk) a na r Hna Hpc He) as [s Hs]. rewrite <- He in Hs. congruence.
    + apply kept_mono; [|by apply lookup_delete_ne].
      unfold routed. cbn -[Nat.add msum]. destruct (n_routes n !! res_key r); lia.
Qed.

Lemma kill_routed_update n g pc pc' :
  n_kills n !! g = Some pc ->
  (msum (kill_routed k) (<[g := pc']> (n_kills n)) + kill_routed k pc = kill_routed k pc' + msum (kill_routed k) (n_kills n))%nat.
Proof. apply msum_update. Qed.

Lemma kill_kept n n' : kill_step n n' -> (tokens k n' <= 1)%nat -> route_kept n -> route_kept n'.
Proof.
  intros [g a na Hg Hna Hs|g env envs Hg|g q envs Hg Hroom] Hone;
    pose proof (fun pc' => kill_routed_update n g _ pc' Hg) as Hu.
  - apply kept_mono; [|done].
    pose proof (act_routed_update n a na (na_biz na) (na_status na) [] (na_pc na) Hna) as Ha.
    specialize (Hu (KNext (na_mailbox na))). unfold act_routed in Ha at 2 3. unfold routed.
    cbn -[Nat.add msum] in Ha, Hu |- *. lia.
  - destruct (decide (env_key env = k)) as [He|Hne].
    + destruct (n_routes n !! env_key env) as [s|] eqn:Hrt.
      * intros _. apply (kept_last _ Hone), routed_lt. right. right.
        eexists g, _. split; [apply lookup_insert_eq|]. cbn -[Nat.add q_tok].
        change (q_tok k (mkQueued (evicted env) s)) with (env_tok k env). rewrite (env_tok_eq env He). lia.
      * intros Hk. exfalso. destruct (proj2 (routed_held n Hk) g env envs Hg He) as [s Hs]. rewrite <- He in Hs. congruence.
    + apply kept_mono; [|by apply lookup_delete_ne]. unfold routed. cbn -[Nat.add msum].
      destruct (n_routes n !! env_key env) as [s|];
        [specialize (Hu (KPush (mkQueued (evicted env) s) envs))|specialize (Hu (KNext envs))];
        cbn -[Nat.add msum] in Hu; lia.
  - apply kept_mono; [|done]. unfold routed. specialize (Hu (KNext envs)). cbn -[Nat.add msum] in Hu |- *. lia.
Qed.

Lemma node_kept n n' :
  node_inv n -> node_step cfg n n' -> (tokens k n' <= 1)%nat -> route_kept n -> route_kept n'.
Proof.
  intros I [_ [Hs|Hs|Hs|Hs|Hs|Hs|w r ->]] Hone.
  - by apply hb_kept.
  - by apply actor_kept.
  - by apply kill_kept.
  - destruct Hs; by apply kept_mono.
  - apply kept_mono; [|by destruct Hs].
    destruct Hs as [H2|i stopping H2 Hi|stopping H2|a stopping na H2 Hna Hd|H2]; try done.
    unfold routed, sweep. cbn -[Nat.add msum stop_actors].
    match goal with |- context [n_actors (stop_actors ?ids _)] =>
      change (n_actors (stop_actors ids _)) with (n_actors (stop_actors ids n)) end.
    by rewrite stop_actors_routed.
  - apply kept_mono; [|by destruct Hs].
    destruct Hs as [now H2|i now H2 Hi|now H2|H2 Hc]; try done.
    unfold routed, passivate. cbn -[Nat.add msum stop_actors].
    match goal with |- context [n_actors (stop_actors ?ids _)] =>
      change (n_actors (stop_actors ids _)) with (n_actors (stop_actors ids n)) end.
    by rewrite stop_actors_routed.
  - by apply kept_mono.
Qed.

(** *** Runs *)

Lemma asked_grows n n' : node_step cfg n n' -> (asked_tok k n <= asked_tok k n')%nat.
Proof.
  intros [_ Hst]. assert (exists l, n_submitted n' = n_submitted n ++ l) as [l E].
  { destruct Hst as [Hs|Hs|Hs|Hs|Hs|Hs|w r ->]; [destruct Hs|destruct Hs..|];
      try (by exists []; rewrite app_nil_r); [by eexists|]. exists []. rewrite app_nil_r. by case_decide. }
  unfold asked_tok. rewrite E, sum_list_with_app. lia.
Qed.

(** No token of a key that is submitted at most once is lost. *)
Lemma tokens_exact n :
  node_reachable cfg n -> n_panicked n = false -> (asked_tok k n <= 1)%nat -> tokens k n = asked_tok k n.
Proof.
  intros (w & r & Hs) Hp Ha.
  enough (node_inv n /\ (n_panicked n = false -> (asked_tok k n <= 1)%nat ->
    tokens k n = asked_tok k n /\ route_kept n)) as [_ Hk] by (by apply Hk).
  clear Hp Ha. revert Hs.
  apply (rtc_invariant (node_step cfg) (fun m => node_inv m /\ (n_panicked m = false -> (asked_tok k m <= 1)%nat ->
    tokens k m = asked_tok k m /\ route_kept m))).
  2: { split; [apply NewNode_inv|]. intros _ _. split; [done|]. intros Hpos. exfalso. by apply Nat.lt_irrefl in Hpos. }
  intros a b [I Hk] Hst. split; [by eapply node_step_inv|]. intros Hp Ha.
  pose proof (asked_grows _ _ Hst). destruct (Hk (proj1 Hst) ltac:(lia)) as [Ht Hr].
  destruct (node_accounts cfg k _ _ I Hst) as [_ Hbal].
  specialize (Hbal Hp (routed_held _ Hr)). unfold balanced in Hbal.
  assert (tokens k b = asked_tok k b) as Hb by lia. split; [done|]. apply (node_kept a b I Hst); [lia|done].
Qed.
End Exact.

(** ** Theorem *)

Section Answered.
Context {W R Er : Type} `{WalletDB W} `{TopologyResolver R Er} (cfg : Config).
Implicit Types n : node W R.

(** The requests and answers with key [k] that the node still has in hand. *)
Definition outstanding k n : nat :=
  msum (hb_tok k) (n_hbs n) + msum (act_tok k) (n_actors n) + msum (kill_tok k) (n_kills n) +
  sum_list_with (q_tok k) (n_resultCh n) + sum_list_with (q_tok k) (n_batch n).

Lemma quiescent_outstanding n k : quiescent n = true -> outstanding k n = 0%nat.
Proof.
  intros [[[Hh Ha]%andb_true_iff Hk]%andb_true_iff Hc]%andb_true_iff. unfold outstanding.
  destruct (n_resultCh n); [|done]. destruct (n_batch n); [|done].
  rewrite (msum_zero (hb_tok k)), (msum_zero (act_tok k)), (msum_zero (kill_tok k)); [done|..].
  - intros g pc Hg. pose proof (map_forallb_lookup _ _ _ _ Hk Hg). by destruct pc as [a|[|]|].
  - intros a na Hna. pose proof (map_forallb_lookup _ _ _ _ Ha Hna) as Hq.
    destruct na as [b st [|] pc]; [|done]. by destruct pc.
  - intros t h Ht. pose proof (map_forallb_lookup _ _ _ _ Hh Ht) as Hq.
    destruct h as [s [|] pc]; [|done]. by destruct pc.
Qed.

(** C8: every request is answered exactly once.  Whatever streams, evictions,
    passivation, shutdown and flushes interleave, no request is answered more often
    than it was submitted; and while the process has not crashed, a request whose key
    is used once, as the system requires, is either answered or still in hand, never
    dropped between two owners, so that a node at rest has answered it exactly once. *)
Theorem node_answers_exactly_once n k :
  node_reachable cfg n ->
  (answers k n <= requests k n)%nat /\
  (n_panicked n = false -> (requests k n <= 1)%nat ->
   (answers k n + outstanding k n = requests k n)%nat /\ (quiescent n = true -> answers k n = requests k n)).
Proof.
  intros Hn. split; [by apply (node_answers_at_most_once cfg)|]. intros Hp Hr.
  pose proof (tokens_exact cfg k n Hn Hp Hr) as Ht.
  assert (answers k n + outstanding k n = requests k n)%nat as Hsum
    by (unfold tokens in Ht; unfold answers, outstanding, requests; lia).
  split; [done|]. intros Hq. rewrite (quiescent_outstanding n k Hq) in Hsum. lia.
Qed.
End Answered.

(** ** Witness *)

Lemma node_answers_exactly_once_witness :
  exists n : node (CassandraStore MemSession) MockResolver,
    node_reachable demo_cfg n /\ quiescent n = true /\ requests (1, 7, 42) n = 1%nat /\ answers (1, 7, 42) n = 1%nat.
Proof.
  destruct demo_run as (n & r & Hn & Hsub & _ & _ & _ & _ & Hp & _ & _ & _ & Hq). exists n.
  assert (requests (1, 7, 42) n = 1%nat) as Hone by (unfold requests, asked_tok; rewrite Hsub; reflexivity).
  split_and!; [done..|]. rewrite <- Hone.
  exact (proj2 (proj2 (node_answers_exactly_once demo_cfg n (1, 7, 42) Hn) Hp ltac:(rewrite Hone; lia)) Hq).
Defined.
