(* ===== verification/NodeLife.v ===== *)
(** * The node: the life of its actors

    Which actors of internal/node/node.go accept envelopes: those a shard refers to; an
    actor loses its reference before it is stopped, and an eviction waits only for an
    actor that was stopped.  [NodeTerm] builds on it. *)

From S2P Require Import Prelude Wire Routing Discovery Mailbox Store Wallet WalletSpec Node NodeInv.

(** ** The life of actors *)

Section Life.
Context {W R Er : Type} `{WalletDB W} `{TopologyResolver R Er} (cfg : Config).
Implicit Types n : node W R.

Definition accepts n (a : nat) : Prop :=
  exists na, n_actors n !! a = Some na /\ rejects (na_status na) = false.
Definition stopped n (a : nat) : Prop :=
  exists na, n_actors n !! a = Some na /\ rejects (na_status na) = true.

(** The goroutine has exited exactly when the status says so. *)
Definition life_ok (na : node_actor) : Prop :=
  na_status na <> statusInit /\ (na_pc na = AExited <-> na_status na = statusDead).

(** A shard refers to actors that accept envelopes; what is about to be stopped has
    lost its reference; an eviction waits for an actor that was stopped. *)
Record life_inv n : Prop := {
  lf_ref k a : lookup_actor n k = Some a -> accepts n a;
  lf_kill t h a q : n_hbs n !! t = Some h -> hb_at h = HKill a q ->
    is_Some (n_actors n !! a) /\ forall k, lookup_actor n k <> Some a;
  lf_wait g a : n_kills n !! g = Some (KWait a) -> stopped n a;
  lf_actor a na : n_actors n !! a = Some na -> life_ok na;
  lf_done t h : n_hbs n !! t = Some h -> hb_at h = HDone -> hb_rest h = [] \/ n_panicked n = true;
}.

(** What a step may do to references, actors and goroutines. *)
Lemma life_step n n' :
  life_inv n ->
  (forall k a, lookup_actor n' k = Some a ->
     (lookup_actor n k = Some a /\ (accepts n a -> accepts n' a)) \/ (n_actors n !! a = None /\ accepts n' a)) ->
  (forall a, is_Some (n_actors n !! a) -> is_Some (n_actors n' !! a)) ->
  (forall a, stopped n a -> stopped n' a) ->
  (forall t h a q, n_hbs n' !! t = Some h -> hb_at h = HKill a q ->
     (exists h0, n_hbs n !! t = Some h0 /\ hb_at h0 = HKill a q) \/
     (is_Some (n_actors n' !! a) /\ forall k, lookup_actor n' k <> Some a)) ->
  (forall g a, n_kills n' !! g = Some (KWait a) -> n_kills n !! g = Some (KWait a) \/ stopped n' a) ->
  (forall a na, n_actors n' !! a = Some na -> n_actors n !! a = Some na \/ life_ok na) ->
  (forall t h, n_hbs n' !! t = Some h -> n_hbs n !! t = Some h \/ (hb_at h = HDone -> hb_rest h = [] \/ n_panicked n' = true)) ->
  (n_panicked n = true -> n_panicked n' = true) ->
  life_inv n'.
Proof.
  intros [Ir Ik Iw Ia Id] Hr Hs Hst Hk Hw Ha Hd Hp. constructor.
  - intros k a Hl. destruct (Hr _ _ Hl) as [[Hl0 Hacc]|[_ Hacc]]; eauto.
  - intros t h a q Ht Hpc. destruct (Hk _ _ _ _ Ht Hpc) as [(h0 & Ht0 & Hpc0)|]; [|done].
    destruct (Ik _ _ _ _ Ht0 Hpc0) as [Hex Hno]. split; [by apply Hs|]. intros k Hl.
    destruct (Hr _ _ Hl) as [[Hl0 _]|[Hnone _]]; [by apply (Hno k)|]. rewrite Hnone in Hex. by destruct Hex.
  - intros g a Hg. destruct (Hw _ _ Hg); eauto.
  - intros a na Hna. destruct (Ha _ _ Hna); eauto.
  - intros t h Ht Hpc. destruct (Hd _ _ Ht) as [Ht0|]; [|auto]. destruct (Id _ _ Ht0 Hpc); auto.
Qed.

(** Steps that leave references and actors alone. *)
Lemma life_same n n' :
  life_inv n -> n_shards n' = n_shards n -> n_actors n' = n_actors n ->
  (forall t h, n_hbs n' !! t = Some h -> n_hbs n !! t = Some h \/
     ((forall a q, hb_at h <> HKill a q) /\ (hb_at h = HDone -> hb_rest h = [] \/ n_panicked n' = true))) ->
  (forall g a, n_kills n' !! g = Some (KWait a) -> n_kills n !! g = Some (KWait a)) ->
  (n_panicked n = true -> n_panicked n' = true) -> life_inv n'.
Proof.
  intros I Hsh Ha Hh Hk Hp.
  assert (forall a, accepts n a -> accepts n' a) as Hacc by (unfold accepts; by rewrite Ha).
  assert (forall a, stopped n a -> stopped n' a) as Hstp by (unfold stopped; by rewrite Ha).
  apply (life_step n n' I); try done.
  - unfold lookup_actor. rewrite Hsh. eauto.
  - by rewrite Ha.
  - intros t h a q Ht Hpc. destruct (Hh _ _ Ht) as [|[Hne _]]; [eauto|]. by destruct (Hne a q).
  - intros g a Hg. eauto.
  - intros a na. rewrite Ha. by left.
  - intros t h Ht. destruct (Hh _ _ Ht) as [|[_ ?]]; auto.
Qed.

(** The same for one actor that keeps its status, or exits. *)
Lemma life_actor n n' a na na' :
  life_inv n -> n_shards n' = n_shards n -> n_actors n !! a = Some na ->
  n_actors n' = <[a := na']> (n_actors n) -> rejects (na_status na') = rejects (na_status na) -> life_ok na' ->
  (forall t h, n_hbs n' !! t = Some h -> n_hbs n !! t = Some h \/
     ((forall a q, hb_at h <> HKill a q) /\ (hb_at h = HDone -> hb_rest h = [] \/ n_panicked n' = true))) ->
  (forall g a, n_kills n' !! g = Some (KWait a) -> n_kills n !! g = Some (KWait a)) ->
  (n_panicked n = true -> n_panicked n' = true) -> life_inv n'.
Proof.
  intros I Hsh Hna Ha Hrej Hok Hh Hk Hp.
  assert (forall b v, (exists nb, n_actors n !! b = Some nb /\ rejects (na_status nb) = v) ->
    exists nb, n_actors n' !! b = Some nb /\ rejects (na_status nb) = v) as Hkeep.
  { intros b v (nb & Hb & Hv). rewrite Ha, lookup_insert. case_decide; [subst; simplify_eq|]; eauto. }
  apply (life_step n n' I); try done.
  - unfold lookup_actor. rewrite Hsh. intros k b Hl. left. split; [done|]. apply Hkeep.
  - intros b Hb. rewrite Ha, lookup_insert. by case_decide.
  - intros b. apply Hkeep.
  - intros t h b q Ht Hpc. destruct (Hh _ _ Ht) as [|[Hne _]]; [eauto|]. by destruct (Hne b q).
  - eauto.
  - intros b nb. rewrite Ha, lookup_insert. case_decide; [|by left]. intros [= <-]. by right.
  - intros t h Ht. destruct (Hh _ _ Ht) as [|[_ ?]]; auto.
Qed.

Lemma stop_life_ok na : life_ok na -> life_ok (stop_actor na).
Proof.
  unfold life_ok, stop_actor. destruct (na_status na) eqn:E; simpl; rewrite ?E; try done; intros [? Hx]; split; try done.
  rewrite Hx. by split.
Qed.
Lemma stop_rejects na : rejects (na_status (stop_actor na)) = true.
Proof. unfold stop_actor. by case_match. Qed.

(** Actors that lose their references are stopped. *)
Lemma life_stop n n' ids :
  life_inv n -> n_actors n' = n_actors (stop_actors ids n) ->
  (forall k a, lookup_actor n' k = Some a -> lookup_actor n k = Some a /\ a ∉ ids) ->
  (forall t h, n_hbs n' !! t = Some h -> n_hbs n !! t = Some h \/
     ((forall a q, hb_at h <> HKill a q) /\ hb_at h <> HDone)) ->
  (forall g a, n_kills n' !! g = Some (KWait a) ->
     n_kills n !! g = Some (KWait a) \/ (a ∈ ids /\ is_Some (n_actors n !! a))) ->
  (n_panicked n = true -> n_panicked n' = true) -> life_inv n'.
Proof.
  intros I Ha Hr Hh Hk Hp.
  assert (forall a na, n_actors n !! a = Some na ->
    n_actors n' !! a = Some (if decide (a ∈ ids) then stop_actor na else na)) as Hl.
  { intros a na Hna. rewrite Ha. simpl. by rewrite map_lookup_imap, Hna. }
  apply (life_step n n' I); try done.
  - intros k a [Hl0 Hni]%Hr. left. split; [done|]. intros (na & Hna & Hrej).
    exists na. by rewrite (Hl _ _ Hna), decide_False.
  - intros a [na Hna]. by rewrite (Hl _ _ Hna).
  - intros a (na & Hna & Hrej). eexists. split; [by apply Hl|]. case_decide; [apply stop_rejects|done].
  - intros t h a q Ht Hpc. destruct (Hh _ _ Ht) as [|[Hne _]]; [eauto|]. by destruct (Hne a q).
  - intros g a Hg. destruct (Hk _ _ Hg) as [|[Hin [na Hna]]]; [by left|right].
    eexists. split; [by apply Hl|]. rewrite decide_True by done. apply stop_rejects.
  - intros a na'. rewrite Ha. intros (na & Hna & [-> | ->])%stop_actors_lookup; [by left|right].
    apply stop_life_ok. by eapply (lf_actor _ I).
  - intros t h Ht. destruct (Hh _ _ Ht) as [|[_ Hne]]; auto.
Qed.

(** One goroutine of [HandleBatch] moves on. *)
Lemma life_move n n' t h :
  life_inv n -> n_shards n' = n_shards n -> n_actors n' = n_actors n -> n_hbs n' = <[t := h]> (n_hbs n) ->
  n_kills n' = n_kills n -> (forall a q, hb_at h <> HKill a q) ->
  (hb_at h = HDone -> hb_rest h = [] \/ n_panicked n' = true) ->
  (n_panicked n = true -> n_panicked n' = true) -> life_inv n'.
Proof.
  intros I Hsh Ha Hh Hk Hne Hd Hp. apply (life_same n n' I Hsh Ha); [|by rewrite Hk|done].
  intros t' h'. rewrite Hh, lookup_insert. case_decide; [|by left]. intros [= <-]. by right.
Qed.

Lemma lookup_drop_ref n k k' a : lookup_actor (drop_ref k n) k' = Some a -> lookup_actor n k' = Some a /\ k' <> k.
Proof.
  unfold lookup_actor, drop_ref. simpl. rewrite list_lookup_alter. case_decide as Hix.
  - rewrite <- Hix. destruct (n_shards n !! shard_ix k) as [sh|]; [|done]. simpl. rewrite lookup_delete. by case_decide.
  - intros Hl. split; [done|]. by intros ->.
Qed.

Lemma life_drop n k : life_inv n -> life_inv (drop_ref k n).
Proof.
  intros I. apply (life_step n _ I); eauto. intros k' a [Hl _]%lookup_drop_ref. by left.
Qed.

(** Two references to one actor are one. *)
Lemma ref_unique n k k' a :
  node_inv n -> lookup_actor n k = Some a -> lookup_actor n k' = Some a -> k = k'.
Proof.
  intros I (na & Hna & [Hi _ _])%lookup_actor_ok (na' & Hna' & [Hi' _ _])%lookup_actor_ok; [|done..].
  congruence.
Qed.

Lemma lookup_put_ref n k k' a b :
  lookup_actor (put_ref k a n) k' = Some b -> lookup_actor n k' = Some b \/ (k' = k /\ b = a).
Proof.
  unfold lookup_actor, put_ref. simpl. rewrite list_lookup_alter. case_decide as Hix; [|by left].
  rewrite <- Hix. destruct (n_shards n !! shard_ix k) as [sh|]; [|done]. simpl. rewrite lookup_insert.
  case_decide; [|by left]. intros [= ->]. by right.
Qed.

Lemma hb_life n n' : node_inv n -> life_inv n -> hb_step cfg n n' -> life_inv n'.
Proof.
  intros N I Hst. destruct Hst as
    [t s envs pending Ht Hp|t s rest Ht|t s env rest Ht|t s over Ht Ho|t s rest over q Ht Hroom
    |t s rest Ht|t s env rest Ht E|t s env rest r' Ht E|t s env rest r' kill r Ht E Hl
    |t s env rest r' r a Ht E Hl|t s rest a q g Ht Hg|t s env rest Ht|t s env rest a Ht Hl
    |t s env rest now w' b a Ht Hl E Ha|t s env rest now w' b e Ht Hl E|t s env rest now Ht E
    |t s env rest a Ht|t s env rest a na Ht Hna|t s env rest a na Ht Hna|t s env rest a Ht
    |t s env rest a Ht];
    try (eapply (life_move n _ t _ I); [done..| | |]; simpl; auto; done).
  - eapply (life_move n _ t _ I); [done..| | |]; simpl; try case_decide; done.
  - eapply (life_move n _ t _ I); [done..| | |]; simpl; destruct over; done.
  - assert (forall k, lookup_actor (drop_ref (actor_key env) n) k <> Some a) as Hno.
    { intros k [Hk Hne]%lookup_drop_ref. by apply Hne, (ref_unique n k (actor_key env) a N). }
    destruct (lf_ref _ I _ _ Hl) as (na & Hna & _).
    apply (life_step (drop_ref (actor_key env) n) _ (life_drop _ _ I)); eauto; simpl.
    + intros t' h a' q. rewrite lookup_insert. case_decide; [|eauto]. intros [= <-]. simpl. intros [= -> <-].
      right. split; [by rewrite Hna|exact Hno].
    + intros t' h. rewrite lookup_insert. case_decide; [|by left]. intros [= <-]. by right.
  - destruct (lf_kill _ I _ _ _ _ Ht eq_refl) as [Hex Hno].
    apply (life_stop n _ [a] I); simpl; try done.
    + intros k b Hk. split; [done|]. intros ->%list_elem_of_singleton. by apply (Hno k).
    + intros t' h. rewrite lookup_insert. case_decide; [|by left]. intros [= <-]. by right.
    + intros g' b. rewrite lookup_insert. case_decide; [|by left]. intros [= <-]. right.
      split; [by apply list_elem_of_singleton|done].
  - eapply (life_move n _ t _ I); [done..| | |]; simpl; try case_match; done.
  - apply (life_step n _ I); simpl; try done.
    + intros k b' Hk. change (lookup_actor (put_ref (actor_key env) a n) k = Some b') in Hk.
      apply lookup_put_ref in Hk as [Hk|[-> ->]].
      * left. split; [done|]. intros (na & Hna & Hrej). exists na. simpl. rewrite lookup_insert_ne by congruence. done.
      * right. split; [done|]. eexists. split; [apply lookup_insert_eq|done].
    + intros b' Hb. rewrite lookup_insert. by case_decide.
    + intros b' (na & Hna & Hrej). exists na. simpl. rewrite lookup_insert_ne by congruence. done.
    + intros t' h a' q. rewrite lookup_insert. case_decide; [|eauto]. by intros [= <-].
    + auto.
    + intros b' nb. rewrite lookup_insert. case_decide; [|by left]. intros [= <-]. right. by split.
    + intros t' h. rewrite lookup_insert. case_decide; [|by left]. intros [= <-]. by right.
  - eapply (life_move n _ t _ I); [done..| | |]; simpl; try case_match; done.
  - eapply (life_actor n _ a na _ I); simpl; try done; [by apply (lf_actor _ I _ _ Hna)|].
    intros t' h. rewrite lookup_insert. case_decide; [|by left]. intros [= <-]. by right.
  - cbv zeta. case_decide.
    + apply life_drop. by eapply (life_move n _ t _ I).
    + by eapply (life_move n _ t _ I).
Qed.

Lemma actor_life n n' : life_inv n -> actor_step n n' -> life_inv n'.
Proof.
  intros I Hst. destruct Hst as
    [a na env rest now h Hna Hpc Hm E|a na env rest now Hna Hpc Hm E|a na Hna Hpc Hm|a na Hna Hpc Hs
    |a na Hna Hpc Hs|a na r Hna Hpc|a na q Hna Hpc Hroom];
    destruct (lf_actor _ I _ _ Hna) as [Hi Hx]; rewrite Hpc in Hx;
    try (eapply (life_actor n _ a na _ I); simpl; try done; [|by left]; split; [done|]; simpl;
         rewrite <- Hx; try case_match; done).
  - apply (life_same n _ I); simpl; auto.
  - eapply (life_actor n _ a na _ I); simpl; try done; [by rewrite Hs|by left].
Qed.

Lemma kill_life n n' : life_inv n -> kill_step n n' -> life_inv n'.
Proof.
  intros I [g a na Hg Hna Hs|g env envs Hg|g q envs Hg Hroom].
  - eapply (life_actor n _ a na _ I); simpl; try done; [by apply (lf_actor _ I _ _ Hna)|by left|].
    intros g' b. rewrite lookup_insert. by case_decide.
  - apply (life_same n _ I); simpl; auto. intros g' b. rewrite lookup_insert. case_decide; [by case_match|done].
  - apply (life_same n _ I); simpl; auto. intros g' b. rewrite lookup_insert. by case_decide.
Qed.

(** A shard is swept: what it referred to and lost is stopped. *)
Lemma life_shard n n' (p : nat -> bool) i :
  node_inv n -> life_inv n ->
  n_actors n' = n_actors (stop_actors (filter (fun a => p a = true) (map_to_list (default ∅ (n_shards n !! i))).*2) n) ->
  (forall k a, lookup_actor n' k = Some a -> lookup_actor n k = Some a /\ (shard_ix k = i -> p a = false)) ->
  n_hbs n' = n_hbs n -> n_kills n' = n_kills n -> n_panicked n' = n_panicked n -> life_inv n'.
Proof.
  intros N I Ha Hr Hh Hk Hp. eapply (life_stop n n' _ I Ha); rewrite ?Hh, ?Hk, ?Hp; auto.
  intros k a Hl. destruct (Hr _ _ Hl) as [Hl0 Hpa]. split; [done|].
  intros [Hpt ([k' a'] & -> & Hin)%list_elem_of_fmap]%list_elem_of_filter. simpl in *.
  destruct (n_shards n !! i) as [sh|] eqn:Hi; simpl in Hin; [|by rewrite map_to_list_empty in Hin; apply not_elem_of_nil in Hin].
  apply elem_of_map_to_list in Hin. destruct (ni_shard _ N _ _ _ _ Hi Hin) as [-> _].
  assert (k = k') as -> by (eapply (ref_unique n k k'); [done..|]; unfold lookup_actor; by rewrite Hi).
  rewrite Hpa in Hpt by done. done.
Qed.

Lemma pass_life n n' : node_inv n -> life_inv n -> pass_step n n' -> life_inv n'.
Proof.
  intros N I [now H2|i now H2 Hi|now H2|H2 Hc]; try (apply (life_same n _ I); simpl; auto; done).
  apply (life_shard n _ (is_idle n now) i N I); try done. intros k a. unfold lookup_actor. simpl.
  rewrite list_lookup_alter. case_decide as Hix; [|done].
  rewrite <- Hix. destruct (n_shards n !! i) as [sh|]; [|done]. simpl.
  by intros [? ?]%map_lookup_filter_Some.
Qed.

Lemma stop_life n n' : node_inv n -> life_inv n -> node_stop_step n n' -> life_inv n'.
Proof.
  intros N I [H2|i stopping H2 Hi|stopping H2|a stopping na H2 Hna Hd|H2]; try (apply (life_same n _ I); simpl; auto; done).
  apply (life_shard n _ (fun _ => true) i N I); try done; [by rewrite filter_all|].
  intros k a. unfold lookup_actor. simpl. rewrite list_lookup_alter. case_decide as Hix; [|done].
  rewrite <- Hix. destruct (n_shards n !! i); [|done]. simpl. by rewrite lookup_empty.
Qed.

Lemma node_life n n' : node_inv n -> life_inv n -> node_step cfg n n' -> life_inv n'.
Proof.
  intros N I [_ [Hs|Hs|Hs|Hs|Hs|Hs|w r ->]].
  - by eapply hb_life.
  - by eapply actor_life.
  - by eapply kill_life.
  - apply (life_same n _ I); destruct Hs; simpl; auto.
  - by eapply stop_life.
  - by eapply pass_life.
  - apply (life_same n _ I); simpl; auto.
Qed.

Lemma node_reachable_life n : node_reachable cfg n -> life_inv n.
Proof.
  intros (w & r & Hs). cut (node_inv n /\ life_inv n); [by intros []|].
  eapply (rtc_invariant (node_step cfg) (fun m => node_inv m /\ life_inv m)); [| |exact Hs].
  - intros a b [N I] Hst. split; [by eapply node_step_inv|by eapply node_life].
  - split; [apply NewNode_inv|]. constructor; cbn -[lookup_actor]; try (intros *; rewrite lookup_empty; by intros [=]).
    intros k a. unfold lookup_actor. destruct (n_shards (NewNode w r) !! shard_ix k) as [sh|] eqn:E; [|done].
    apply lookup_replicate in E as [-> _]. simpl. by rewrite lookup_empty.
Qed.
End Life.
