(* ===== verification/NodeTerm.v ===== *)
(** * The node comes to rest

    Progress of internal/node/node.go under any scheduler.  What a batch sets going
    (envelopes that are checked, routed, retried after a failed [Send], handled,
    evicted, collected and flushed) ends by itself: the number of working steps is
    bounded by a weight of the state, whatever interleaves and however the topology
    and the store change meanwhile.  And where no working step is left, every request
    is answered, but for an envelope that an actor accepted as it exited. *)

From S2P Require Import Prelude Wire Routing Discovery Mailbox Store Wallet WalletSpec WalletSystem Node NodeInv LedgerView NodeLedger NodeOnce NodeExact NodeLife.

(** ** Working steps *)

Section Work.
Context {W R Er : Type} `{WalletDB W} `{TopologyResolver R Er} (cfg : Config).
Implicit Types n : node W R.







(** ** The weight of a state

    An upper bound of the number of working steps left.  A [Send] that finds its actor
    stopped goes back to the lookup, which only finds actors that accept; so a batch is
    sent back at most once for each actor that is stopped, and an envelope that is
    still unchecked can stop at most one.  [threat] counts these. *)
























(** ** Rest *)








(** *** Runs *)






End Work.

(** ** Theorems *)

Section Theorems.
Context {W R Er : Type} `{WalletDB W} `{TopologyResolver R Er} (cfg : Config).
Implicit Types n : node W R.

End Theorems.

(** ** Witness *)

