(* ===== verification/NodeRace.v ===== *)
(** * The node: two actors of one account

    Evicting an actor ([forceKillLocalActor]) removes its reference before its
    goroutine has ended: internal/node/node.go can create a second actor for the
    account while the first still executes what it has queued.  The run below shows
    what that does to the account. *)

From S2P Require Import Prelude Wire Routing Discovery Mailbox Store Wallet WalletSpec WalletSystem Node NodeInv NodeLedger NodeOnce.

Definition race_tx (tx : string) (req amount : Z) : RemoteEnvelope :=
  mkEnvelope 1 7 tx req 1 (BigEndian_PutUint64 (u64 amount)) 0.

(** The account belongs to another node. *)
Definition moved_resolver : MockResolver := SetRoute NewMockResolver 1 7 "10.0.0.2:9000".

Ltac push_room := unfold has_room, resultChCap; cbn; lia.
Ltac submit_batch t s envs :=
  eapply rtc_l; [split; [reflexivity|]; apply ns_hb, (hb_call _ _ t s envs 0); [reflexivity|go_decide]|].
Ltac topology r :=
  match goal with |- rtc _ ?n _ =>
    eapply rtc_step_eq;
      [split; [reflexivity|]; exact (ns_environment demo_cfg n _ (n_world n) (Some r) eq_refl)
      |evaluate_state|] end.

(** C38: an eviction can lose an acknowledged transaction.  The account moves away
    and back while its actor still has a deposit queued: the second actor
    rehydrates before the first writes, both insert the next version, and the
    second row replaces the first.  Both deposits (100 and 50) are acknowledged as
    successful, yet a later rehydration finds a balance of 50. *)
Theorem eviction_loses_transaction :
  exists (n : node (CassandraStore MemSession) MockResolver) r1 r2 w b,
    node_reachable demo_cfg n /\
    n_sent n = [(5%nat, mkBatchResponse [wrong_node (race_tx "tx-2" 43 1); r1; r2])] /\
    (ResTxId r1, ResSuccess r1, ResPayload r1) = ("tx-1", true, BigEndian_PutUint64 100) /\
    (ResTxId r2, ResSuccess r2, ResPayload r2) = ("tx-3", true, BigEndian_PutUint64 50) /\
    rehydrate (n_world n) (newBusinessActor 1 7 0) = Some (w, (b, None)) /\ balance b = 50.
Proof.
  eexists _, _, _, _, _. split.
  { exists demo_store, (Some demo_resolver).
    submit_batch 0%nat 5%nat [Some (race_tx "tx-1" 42 100)].
    by_hb (hb_pass _ _ 0). by_hb (hb_lookup _ _ 0). by_hb (hb_create_new _ _ 0 _ _ _ 3 _ _ 0).
    by_hb (hb_route _ _ 0). by_hb (hb_send _ _ 0). by_hb (hb_enqueue _ _ 0).
    topology moved_resolver.
    submit_batch 1%nat 5%nat [Some (race_tx "tx-2" 43 1)].
    by_hb (hb_kill _ _ 1). by_hb (hb_kill_stop _ _ 1 _ _ _ _ 0).
    eapply rtc_l; [split; [reflexivity|]; apply ns_hb; eapply (hb_push _ _ 1); [vm_compute; reflexivity|push_room]|].
    topology demo_resolver.
    submit_batch 2%nat 5%nat [Some (race_tx "tx-3" 44 50)].
    by_hb (hb_pass _ _ 2). by_hb (hb_lookup _ _ 2). by_hb (hb_create_new _ _ 2 _ _ _ 4 _ _ 1).
    by_hb (hb_route _ _ 2). by_hb (hb_send _ _ 2). by_hb (hb_enqueue _ _ 2).
    by_actor (act_handle _ 0 _ _ _ 9). by_actor (act_handle _ 1 _ _ _ 10).
    by_actor (act_emit _ 0). by_actor (act_emit _ 1).
    eapply rtc_l; [split; [reflexivity|]; apply ns_actor; eapply (act_push _ 0); [vm_compute; reflexivity..|push_room]|].
    eapply rtc_l; [split; [reflexivity|]; apply ns_actor; eapply (act_push _ 1); [vm_compute; reflexivity..|push_room]|].
    do 3 (eapply rtc_l; [split; [reflexivity|]; apply ns_agg; eapply agg_recv;
      [reflexivity|vm_compute; reflexivity|unfold maxBatchSize; cbn; lia]|]).
    eapply rtc_l; [split; [reflexivity|]; apply ns_agg; eapply agg_tick; [reflexivity|reflexivity]|].
    apply rtc_refl. }
  by repeat (split; [vm_compute; reflexivity|]).
Qed.
