(* ===== verification/NodeMain.v ===== *)
(** * Starting and stopping a node: cmd/node/main.go

    The address a node advertises ([resolveMyIP] over Go's net.SplitHostPort and
    net.JoinHostPort), [main] as a sequence of calls that can fail with the deferred
    calls that clean up after them, and the metrics page.  What the calls answer
    (etcd, Cassandra, the listener, the signal) is an argument. *)

From Stdlib Require Import Ascii.
From stdpp Require Import pretty.
From S2P Require Import Prelude Boot Wire Routing Discovery Store Wallet Mailbox Node.

(** ** Addresses *)

(** [strings.IndexByte]. *)
Fixpoint IndexByte (s : string) (c : ascii) : option nat :=
  match s with
  | EmptyString => None
  | String d s' => if decide (d = c) then Some O else S <$> IndexByte s' c
  end.

(** [strings.LastIndexByte]. *)
Fixpoint LastIndexByte (s : string) (c : ascii) : option nat :=
  match s with
  | EmptyString => None
  | String d s' =>
      match LastIndexByte s' c with
      | Some i => Some (S i)
      | None => if decide (d = c) then Some O else None
      end
  end.

Definition hasByte (s : string) (c : ascii) : bool := bool_decide (is_Some (IndexByte s c)).

(** [s[:n]]; [s[n:]] is [string_drop n s]. *)
Fixpoint string_take (n : nat) (s : string) : string :=
  match n, s with
  | S n', String c s' => String c (string_take n' s')
  | _, _ => EmptyString
  end.

Definition missingPort : string := "missing port in address".
Definition tooManyColons : string := "too many colons in address".

(** [net.SplitHostPort]. *)
Definition SplitHostPort (hostport : string) : result string (string * string) :=
  match LastIndexByte hostport ":" with
  | None => Err missingPort
  | Some i =>
      let finish (host : string) (j k : nat) :=
        if hasByte (string_drop j hostport) "[" then Err "unexpected '[' in address"
        else if hasByte (string_drop k hostport) "]" then Err "unexpected ']' in address"
        else Ok (host, string_drop (S i) hostport) in
      if HasPrefix hostport "[" then
        match IndexByte hostport "]" with
        | None => Err "missing ']' in address"
        | Some e =>
            if decide (S e = String.length hostport) then Err missingPort
            else if decide (S e = i) then finish (string_drop 1 (string_take e hostport)) 1%nat (S e)
            else if HasPrefix (string_drop (S e) hostport) ":" then Err tooManyColons
            else Err missingPort
        end
      else
        let host := string_take i hostport in
        if hasByte host ":" then Err tooManyColons else finish host 0%nat 0%nat
  end.

(** [net.JoinHostPort]. *)
Definition JoinHostPort (host port : string) : string :=
  if hasByte host ":" then ("[" +:+ host +:+ "]:" +:+ port)%string
  else (host +:+ ":" +:+ port)%string.

(** [resolveMyIP]; [podIP] is the environment variable POD_IP, [probe] what the UDP
    socket answers: an error of Dial, or the local address. *)
Definition resolveMyIP (flagIP port podIP : string) (probe : result string string) : result string string :=
  let cleanPort := TrimPrefix port ":" in
  if decide (flagIP <> "") then
    Ok (match SplitHostPort flagIP with Ok _ => flagIP | Err _ => JoinHostPort flagIP cleanPort end)
  else if decide (podIP <> "") then Ok (JoinHostPort podIP cleanPort)
  else
    match probe with
    | Err e => Err (wrap_error "UDP probe failed" e)
    | Ok ip => Ok (JoinHostPort ip cleanPort)
    end.

Example split_v4 : SplitHostPort "10.0.0.1:50051" = Ok ("10.0.0.1", "50051").
Proof. reflexivity. Qed.
Example split_v6 : SplitHostPort "[::1]:50051" = Ok ("::1", "50051").
Proof. reflexivity. Qed.
Example split_bare_v6 : SplitHostPort "::1" = Err tooManyColons.
Proof. reflexivity. Qed.
Example resolve_pod : resolveMyIP "" ":50051" "10.1.2.3" (Err "no network") = Ok "10.1.2.3:50051".
Proof. reflexivity. Qed.

(** *** Bytes of strings *)

Lemma string_app_assoc (a b c : string) : ((a +:+ b) +:+ c)%string = (a +:+ (b +:+ c))%string.
Proof. induction a as [|x a IH]; [done|]. exact (f_equal (String x) IH). Qed.

Lemma string_length_app (a b : string) : String.length (a +:+ b)%string = (String.length a + String.length b)%nat.
Proof. induction a as [|x a IH]; [done|]. exact (f_equal S IH). Qed.

Lemma hasByte_cons d s c : hasByte (String d s) c = bool_decide (d = c) || hasByte s c.
Proof.
  unfold hasByte. simpl. case_decide as E.
  - rewrite (bool_decide_eq_true_2 (d = c)) by done. by apply bool_decide_eq_true_2.
  - rewrite (bool_decide_eq_false_2 (d = c)) by done. simpl. apply bool_decide_ext.
    split; intros [i Hi]; [apply fmap_Some in Hi as (j & -> & _)|rewrite Hi]; eauto.
Qed.

Lemma hasByte_app a b c : hasByte (a +:+ b)%string c = hasByte a c || hasByte b c.
Proof.
  induction a as [|d a IH]; [done|]. change ((String d a +:+ b)%string) with (String d (a +:+ b)%string).
  rewrite !hasByte_cons, IH. by rewrite orb_assoc.
Qed.

Lemma IndexByte_app a b c :
  hasByte a c = false -> IndexByte (a +:+ b)%string c = Nat.add (String.length a) <$> IndexByte b c.
Proof.
  induction a as [|d a IH].
  - intros _. change ("" +:+ b)%string with b. by destruct (IndexByte b c).
  - rewrite hasByte_cons, orb_false_iff, bool_decide_eq_false. intros [Hd Ha].
    change ((String d a +:+ b)%string) with (String d (a +:+ b)%string). cbn [IndexByte].
    rewrite decide_False by done. rewrite IH by done. by destruct (IndexByte b c).
Qed.

Lemma LastIndexByte_none s c : hasByte s c = false -> LastIndexByte s c = None.
Proof.
  induction s as [|d s IH]; [done|]. rewrite hasByte_cons, orb_false_iff, bool_decide_eq_false.
  intros [Hd Hs]. simpl. by rewrite IH, decide_False.
Qed.

Lemma LastIndexByte_app a c b : hasByte b c = false -> LastIndexByte (a +:+ String c b)%string c = Some (String.length a).
Proof.
  intros Hb. induction a as [|d a IH].
  - change ("" +:+ String c b)%string with (String c b). simpl. by rewrite LastIndexByte_none, decide_True.
  - change ((String d a +:+ String c b)%string) with (String d (a +:+ String c b)%string).
    cbn [LastIndexByte String.length]. by rewrite IH.
Qed.

Lemma string_take_app a b : string_take (String.length a) (a +:+ b)%string = a.
Proof. induction a as [|d a IH]; [by destruct b|]. exact (f_equal (String d) IH). Qed.

Lemma HasPrefix_byte s c : hasByte s c = false -> HasPrefix s (String c "") = false.
Proof.
  destruct s as [|d s]; [done|]. rewrite hasByte_cons, orb_false_iff, bool_decide_eq_false. intros [Hd _].
  unfold HasPrefix. simpl. destruct (ascii_dec c d); [congruence|done].
Qed.

(** A host or port without brackets, a port without colons. *)
Definition plain_host (h : string) : bool := negb (hasByte h "[") && negb (hasByte h "]").
Definition plain_port (p : string) : bool := plain_host p && negb (hasByte p ":").

(** Joining and splitting are inverse, also for IPv6 hosts. *)
Lemma split_join h p :
  plain_host h = true -> plain_port p = true -> SplitHostPort (JoinHostPort h p) = Ok (h, p).
Proof.
  unfold plain_port, plain_host. rewrite !andb_true_iff, !negb_true_iff.
  intros [Hh1 Hh2] [[Hp1 Hp2] Hp3]. unfold SplitHostPort, JoinHostPort.
  destruct (hasByte h ":") eqn:Hc.
  - set (pre := ("[" +:+ h +:+ "]")%string).
    assert (("[" +:+ h +:+ "]:" +:+ p)%string = (pre +:+ String ":" p)%string) as Heq.
    { unfold pre. by rewrite !string_app_assoc. }
    rewrite Heq. rewrite LastIndexByte_app by done.
    assert (String.length pre = S (S (String.length h))) as Hlen.
    { unfold pre. rewrite !string_length_app. simpl. lia. }
    rewrite string_length_app, Hlen. rewrite <- Heq, (HasPrefix_app "[").
    assert (IndexByte ("[" +:+ h +:+ "]:" +:+ p) "]" = Some (S (String.length h))) as ->.
    { change (S <$> IndexByte (h +:+ "]:" +:+ p) "]" = Some (S (String.length h))).
      rewrite IndexByte_app by done. simpl. by rewrite Nat.add_0_r. }
    cbn [String.length]. rewrite decide_False by lia. rewrite decide_True by done.
    rewrite !Heq, <- Hlen.
    assert (string_drop 1 (pre +:+ String ":" p) = (h +:+ "]:" +:+ p)%string) as -> by by rewrite <- Heq.
    rewrite !hasByte_app, Hh1. change (hasByte "]:" "[") with false. rewrite Hp1. simpl orb.
    rewrite string_drop_app, hasByte_cons, Hp2. cbn [orb bool_decide]. f_equal.
    replace (S (String.length pre)) with (String.length (pre +:+ ":")%string)
      by (rewrite string_length_app; simpl; lia).
    assert ((pre +:+ String ":" p)%string = ((pre +:+ ":") +:+ p)%string) as Heq2 by by rewrite string_app_assoc.
    rewrite Heq2 at 2. rewrite string_drop_app. f_equal.
    rewrite <- Heq. change (string_take (S (String.length h)) ("[" +:+ h +:+ "]:" +:+ p))
      with (String "[" (string_take (String.length h) (h +:+ "]:" +:+ p))). by rewrite string_take_app.
  - assert ((h +:+ ":" +:+ p)%string = ((h +:+ ":") +:+ p)%string) as Heq by by rewrite string_app_assoc.
    change (h +:+ ":" +:+ p)%string with (h +:+ String ":" p)%string in *.
    assert (hasByte (h +:+ String ":" p) "[" = false) as Hb by by rewrite hasByte_app, hasByte_cons, Hh1, Hp1.
    assert (hasByte (h +:+ String ":" p) "]" = false) as Hb' by by rewrite hasByte_app, hasByte_cons, Hh2, Hp2.
    rewrite LastIndexByte_app by done. rewrite HasPrefix_byte by done. rewrite string_take_app, Hc.
    change (string_drop 0 (h +:+ String ":" p)) with (h +:+ String ":" p)%string. rewrite Hb, Hb'. do 2 f_equal.
    replace (S (String.length h)) with (String.length (h +:+ ":")%string)
      by (rewrite string_length_app; simpl; lia).
    by rewrite Heq, string_drop_app.
Qed.

(** C30: the advertised address.  [net.JoinHostPort] and [net.SplitHostPort] are
    inverse on hosts without brackets (IPv6 included) and ports without brackets and
    colons.  So when --port is a plain port (":50051" or "50051") and the hosts carry no
    brackets, the address a node registers splits into the port it listens on and the
    host it was given: by --ip, else by POD_IP, else by the probe.  A --ip that already
    splits into host and port is registered as it is, with whatever port it names.  The
    only error is a failed probe. *)
Theorem resolveMyIP_roundtrip (flagIP port podIP : string) (probe : result string string) :
  let p := TrimPrefix port ":" in
  plain_port p = true -> plain_host flagIP = true \/ (exists hp, SplitHostPort flagIP = Ok hp) ->
  plain_host podIP = true -> (forall ip, probe = Ok ip -> plain_host ip = true) ->
  match resolveMyIP flagIP port podIP probe with
  | Ok addr =>
      if decide (flagIP <> "") then
        match SplitHostPort flagIP with
        | Ok _ => addr = flagIP
        | Err _ => SplitHostPort addr = Ok (flagIP, p)
        end
      else if decide (podIP <> "") then SplitHostPort addr = Ok (podIP, p)
      else exists ip, probe = Ok ip /\ SplitHostPort addr = Ok (ip, p)
  | Err e => flagIP = "" /\ podIP = "" /\ exists e', probe = Err e'
  end.
Proof.
  intros p Hp Hf Hpod Hprobe. unfold resolveMyIP. fold p. case_decide as H1.
  - destruct (SplitHostPort flagIP) as [hp|e] eqn:E; [done|]. apply split_join; [|done].
    destruct Hf as [|[hp Hhp]]; [done|congruence].
  - case_decide as H2; [by apply split_join|]. destruct probe as [ip|e].
    + exists ip. split; [done|]. apply split_join; [by apply Hprobe|done].
    + destruct (decide (flagIP = "")), (decide (podIP = "")); try tauto. eauto.
Qed.

Lemma resolveMyIP_roundtrip_witness :
  resolveMyIP "fe80::1" ":50051" "" (Err "down") = Ok "[fe80::1]:50051" /\
  SplitHostPort "[fe80::1]:50051" = Ok ("fe80::1", "50051").
Proof.
  split; [reflexivity|].
  refine (resolveMyIP_roundtrip "fe80::1" ":50051" "" (Err "down") _ _ _ _);
    [reflexivity|left; reflexivity|reflexivity|discriminate].
Defined.

(** Outside these conditions the address is not host:port: a bracketed IPv6 host
    without a port is bracketed twice, and a listen address with a host is appended
    whole. *)
Lemma resolveMyIP_malformed :
  resolveMyIP "[::1]" ":50051" "" (Err "down") = Ok "[[::1]]:50051" /\
  SplitHostPort "[[::1]]:50051" = Err missingPort /\
  resolveMyIP "" "0.0.0.0:50051" "10.0.0.7" (Err "down") = Ok "10.0.0.7:0.0.0.0:50051" /\
  SplitHostPort "10.0.0.7:0.0.0.0:50051" = Err tooManyColons.
Proof. repeat split. Qed.

(** ** main *)

Local Open Scope boot_scope.

Record node_flags := mkFlags {
  f_port : string; f_metrics : string; f_ip : string; f_cassandra : string; f_keyspace : string;
  f_etcd : string; f_nodePrefix : string; f_mailboxLimit : Z;
}.

Definition default_flags : node_flags :=
  mkFlags ":50051" ":9090" "" "127.0.0.1" "wallet" "127.0.0.1:2379" "/actor_cluster/nodes" 1500000.

Inductive node_call :=
  | NotifyContext | StopNotify
  | OpenStore (hosts : list string) (keyspace : string) | CloseStore
  | OpenEtcd (endpoints : list string) | CloseEtcd
  | EtcdCall (c : etcd_call)
  | WatchTopology
  | StartNode (cfg : Config)
  | Listen (addr : string)
  | ServeGrpc (maxBatchSize : Z) | ServeMetrics (addr : string)
  | OpenTimeout | CancelTimeout
  | ShutdownMetrics | GracefulStop | StopNode.

(** What ends the wait for [ctx.Done()]. *)
Inductive node_event := GotSignal | ServeFailed (e : string) | MetricsFailed (e : string).

(** What the outside answers to the calls of [main]; an error is [Some]. *)
Record node_answers := mkAnswers {
  an_podIP : string;
  an_probe : result string string;
  an_store : option string;
  an_etcd : option string;
  an_rounds : list attempt;
  an_get : result string (list KeyValue);
  an_listen : option string;
  an_event : node_event;
  an_rpcsEnd : bool;                     (* every stream that is open at shutdown ends *)
}.

(** [if err != nil { panic(err) }]. *)
Definition must {A} (r : result string A) : boot node_call A :=
  match r with Ok a => bret a | Err e => bpanic e end.
Definition must_nil (err : option string) : boot node_call unit :=
  match err with None => bret tt | Some e => bpanic e end.

Fixpoint etcd_calls (cs : list etcd_call) : boot node_call unit :=
  match cs with [] => bret tt | c :: cs' => bcall (EtcdCall c) ;;; etcd_calls cs' end.

(** [registry.Register(ctx, resolvedIP)]. *)
Definition register (registry : EtcdRegistry) (ip : string) (rounds : list attempt) : boot node_call unit :=
  let '(calls, outcome) := Register registry ip rounds in
  etcd_calls calls ;;;
  match outcome with
  | RegOk _ => bret tt
  | RegCtxErr => bpanic "context canceled"
  | RegRetrying => bblocked
  end.

(** [etcdResolver.Watch(ctx)]. *)
Definition watch (resolver : EtcdResolver) (get : result string (list KeyValue)) : boot node_call EtcdResolver :=
  bcall WatchTopology ;;;
  match Watch get resolver with
  | None => bpanic "index out of range"
  | Some (r', None, _) => bret r'
  | Some (_, Some e, _) => bpanic e
  end.

Record booted (W : Type) := mkBooted {
  bo_registry : EtcdRegistry; bo_ip : string; bo_cfg : Config; bo_node : node W EtcdResolver;
}.
Arguments mkBooted {W}.
Arguments bo_registry {W} b : rename.
Arguments bo_ip {W} b : rename.
Arguments bo_cfg {W} b : rename.
Arguments bo_node {W} b : rename.

(** Steps 0 to 5 of [main]. *)
Definition main_start {W} (f : node_flags) (store : W) (an : node_answers) : boot node_call (booted W) :=
  bcall NotifyContext ;;; bdefer StopNotify ;;;
  resolvedIP <- must (resolveMyIP (f_ip f) (f_port f) (an_podIP an) (an_probe an)) ;;
  must_nil (session_error <$> an_store an) ;;;
  bcall (OpenStore (SplitComma (f_cassandra f)) (f_keyspace f)) ;;; bdefer CloseStore ;;;
  must_nil (an_etcd an) ;;;
  bcall (OpenEtcd (SplitComma (f_etcd f))) ;;; bdefer CloseEtcd ;;;
  let registry := NewEtcdRegistry (f_nodePrefix f) in
  register registry resolvedIP (an_rounds an) ;;;
  resolver <- watch (NewEtcdResolver (f_nodePrefix f)) (an_get an) ;;
  let cfg := mkConfig resolvedIP (f_mailboxLimit f) in
  bcall (StartNode cfg) ;;;
  bret (mkBooted registry resolvedIP cfg (NewNode store (Some resolver))).

(** [grpcServer.GracefulStop()] waits until the RPCs in progress have ended; the streams
    of the clients are among them. *)
Definition graceful_stop (an : node_answers) : boot node_call unit :=
  bcall GracefulStop ;;; if an_rpcsEnd an then bret tt else bblocked.

(** Steps 6 and 7. *)
Definition main_serve {W} (f : node_flags) (b : booted W) (an : node_answers) : boot node_call (booted W) :=
  must_nil (an_listen an) ;;;
  bcall (Listen (f_port f)) ;;;
  bcall (ServeGrpc 5000) ;;; bcall (ServeMetrics (f_metrics f)) ;;;
  match an_event an with
  | ServeFailed e | MetricsFailed e => bkilled e
  | GotSignal =>
      bcall StopNotify ;;;
      etcd_calls (Deregister (bo_registry b) (bo_ip b)) ;;;
      bcall OpenTimeout ;;; bdefer CancelTimeout ;;;
      bcall ShutdownMetrics ;;; graceful_stop an ;;; bcall StopNode ;;; bret b
  end.

Definition main {W} (f : node_flags) (store : W) (an : node_answers) : boot node_call (booted W) :=
  b <- main_start f store an ;; main_serve f b an.

(** *** What main does on every path *)

Inductive node_resource := RStore | REtcd | RTimeout.
#[export] Instance node_resource_eq_decision : EqDecision node_resource.
Proof. solve_decision. Defined.

Definition node_effect (c : node_call) : bracket node_resource :=
  match c with
  | OpenStore _ _ => Opens RStore | CloseStore => Closes RStore
  | OpenEtcd _ => Opens REtcd | CloseEtcd => Closes REtcd
  | OpenTimeout => Opens RTimeout | CancelTimeout => Closes RTimeout
  | _ => Neutral
  end.

Lemma etcd_calls_run cs st :
  etcd_calls cs st = (mkBoot (b_trace st ++ (EtcdCall <$> cs)) (b_deferred st), Returned tt).
Proof.
  revert st. induction cs as [|c cs IH]; intros [tr ds]; simpl.
  - by rewrite app_nil_r.
  - unfold bbind, bcall. rewrite IH. simpl. by rewrite <- app_assoc.
Qed.

Lemma Register_no_delete r ip rounds : Forall (fun c => forall k, c <> CallDelete k) (Register r ip rounds).1.
Proof.
  unfold Register. generalize (registry_key r ip). intros key.
  induction rounds as [|a rounds IH]; cbn [establishRegistration]; [constructor|].
  destruct (at_ctx_err a); [constructor|].
  destruct (establishRegistration r key rounds) as [calls out]. cbn [fst] in IH.
  destruct (at_grant a) as [lease|]; [destruct (at_put a); [destruct (at_keepalive a)|]|];
    destruct (at_slept a); cbn; repeat (constructor; [done|]); done || constructor.
Qed.

Ltac boot_eval :=
  repeat first [rewrite etcd_calls_run | progress unfold must, must_nil | progress boot_reduce].

(** The calls of a start that reaches the node, up to the registration. *)
Definition opened (f : node_flags) : list node_call :=
  [NotifyContext; OpenStore (SplitComma (f_cassandra f)) (f_keyspace f); OpenEtcd (SplitComma (f_etcd f))].

(** A panic after everything was opened closes everything and deletes no key. *)
Lemma opened_closed f calls mid :
  Forall (fun c => forall k, c <> CallDelete k) calls ->
  Forall (fun c => node_effect c = Neutral /\ forall k, c <> EtcdCall (CallDelete k)) mid ->
  brackets node_effect [] ((opened f ++ (EtcdCall <$> calls) ++ mid) ++ [CloseEtcd; CloseStore; StopNotify]) = Some [] /\
  forall k, EtcdCall (CallDelete k) ∉ (opened f ++ (EtcdCall <$> calls) ++ mid) ++ [CloseEtcd; CloseStore; StopNotify].
Proof.
  intros Hc Hm. split.
  - rewrite <- !app_assoc, brackets_app. cbn [opened brackets node_effect mbind option_bind].
    rewrite brackets_app, brackets_neutral by (apply Forall_fmap, Forall_true; done). cbn [mbind option_bind].
    rewrite brackets_app, brackets_neutral by (eapply list.Forall_impl; [exact Hm|]; by intros c [? _]). done.
  - intros k. rewrite !elem_of_app. pose proof (proj1 (list.Forall_forall _ _) Hc) as Hc0. pose proof (proj1 (list.Forall_forall _ _) Hm) as Hm0.
    intros [[Hin|[Hin|Hin]]|Hin]; [unfold opened in Hin; set_solver| | |set_solver].
    + apply list_elem_of_fmap in Hin as (c & [= <-] & Hc'). by destruct (Hc0 _ Hc' k).
    + by destruct (proj2 (Hm0 _ Hin) k).
Qed.

(** Steps 0 to 5: either a panic, with only what was opened to be closed, or blocked
    in the registration, or the node with its three deferred calls. *)
Lemma main_start_run {W} (f : node_flags) (store : W) (an : node_answers) :
  match main_start f store an (mkBoot [] []) with
  | (mkBoot tr ds, Returned b) =>
      exists calls lease r,
        Register (NewEtcdRegistry (f_nodePrefix f)) (bo_ip b) (an_rounds an) = (calls, RegOk lease) /\
        Watch (an_get an) (NewEtcdResolver (f_nodePrefix f)) = Some (r, None, Some WOuter) /\
        resolveMyIP (f_ip f) (f_port f) (an_podIP an) (an_probe an) = Ok (bo_ip b) /\
        b = mkBooted (NewEtcdRegistry (f_nodePrefix f)) (bo_ip b) (mkConfig (bo_ip b) (f_mailboxLimit f))
              (NewNode store (Some r)) /\
        tr = opened f ++ (EtcdCall <$> calls) ++ [WatchTopology; StartNode (bo_cfg b)] /\
        ds = [CloseEtcd; CloseStore; StopNotify]
  | (mkBoot tr ds, Panicked e) =>
      brackets node_effect [] (tr ++ ds) = Some [] /\ forall k, EtcdCall (CallDelete k) ∉ tr ++ ds
  | (_, Killed _) => False
  | (_, Blocked) =>
      exists ip, resolveMyIP (f_ip f) (f_port f) (an_podIP an) (an_probe an) = Ok ip /\
        (Register (NewEtcdRegistry (f_nodePrefix f)) ip (an_rounds an)).2 = RegRetrying
  end.
Proof.
  pose proof (fun ip => Register_no_delete (NewEtcdRegistry (f_nodePrefix f)) ip (an_rounds an)) as Hnd.
  unfold main_start, register, watch. boot_eval.
  destruct (resolveMyIP _ _ _ _) as [ip|e] eqn:Eip; boot_eval; [|by split; [|set_solver]].
  destruct (an_store an) as [e|]; boot_eval; [by split; [|set_solver]|].
  destruct (an_etcd an) as [e|]; boot_eval; [by split; [|set_solver]|].
  destruct (Register _ _ _) as [calls outcome] eqn:Ereg; boot_eval. specialize (Hnd ip). rewrite Ereg in Hnd.
  destruct outcome as [lease| |]; boot_eval; [| |exists ip; by rewrite Ereg].
  2:{ rewrite <- (app_nil_r (EtcdCall <$> calls)). by apply (opened_closed f calls []). }
  destruct (Watch _ _) as [[[r [e|]] pc]|] eqn:Ew; boot_eval.
  - apply (opened_closed f calls [WatchTopology]); [done|]. by repeat constructor.
  - exists calls, lease, r. unfold Watch in Ew. destruct (refreshSnapshot _ _) as [[r1 [?|]]|]; simplify_eq/=.
    split_and!; try done. cbn. by rewrite <- app_assoc.
  - apply (opened_closed f calls [WatchTopology]); [done|]. by repeat constructor.
Qed.

(** The last part of a run that is ended by a signal. *)
Definition shutdown_calls (f : node_flags) (cfg : Config) (key : string) : list node_call :=
  [WatchTopology; StartNode cfg; Listen (f_port f); ServeGrpc 5000; ServeMetrics (f_metrics f);
   StopNotify; EtcdCall (CallDelete key); OpenTimeout; ShutdownMetrics; GracefulStop; StopNode;
   CancelTimeout; CloseEtcd; CloseStore; StopNotify].

(** The last part of a run that waits in GracefulStop. *)
Definition hung_calls (f : node_flags) (cfg : Config) (key : string) : list node_call :=
  [WatchTopology; StartNode cfg; Listen (f_port f); ServeGrpc 5000; ServeMetrics (f_metrics f);
   StopNotify; EtcdCall (CallDelete key); OpenTimeout; ShutdownMetrics; GracefulStop].

(** C29: the life of a node process.  Whatever etcd, Cassandra, the network and the
    servers answer: a run that is ended by a signal registered the key of its
    advertised address under a live lease, then built its table, then its node (with
    that address as its own and that table), then served; and at the end it deletes
    that same key first, then stops the listeners, then drains the actors, and closes
    etcd and the store last.  A run that panics has closed, exactly once and in
    reverse order, what it had opened, but never deletes the key, so that a failing
    Watch or Listen leaves it to the lease.  When a server goroutine panics the process
    ends with the store and etcd open.  And it waits only for the registration, or, after
    a signal and with its key deleted, in GracefulStop for a stream that does not end:
    then the actors are not drained, and the store and etcd stay open. *)
Theorem node_main_lifecycle {W} (f : node_flags) (store : W) (an : node_answers) :
  match run (main f store an) with
  | (tr, Returned b) =>
      let key := registry_key (NewEtcdRegistry (f_nodePrefix f)) (bo_ip b) in
      exists before lease r,
        resolveMyIP (f_ip f) (f_port f) (an_podIP an) (an_probe an) = Ok (bo_ip b) /\
        Watch (an_get an) (NewEtcdResolver (f_nodePrefix f)) = Some (r, None, Some WOuter) /\
        bo_cfg b = mkConfig (bo_ip b) (f_mailboxLimit f) /\ bo_node b = NewNode store (Some r) /\
        tr = opened f ++ (EtcdCall <$> before ++ [CallGrant defaultLeaseTTL; CallPut key "" lease; CallKeepAlive lease]) ++
             shutdown_calls f (bo_cfg b) key /\
        brackets node_effect [] tr = Some []
  | (tr, Panicked _) =>
      brackets node_effect [] tr = Some [] /\ forall k, EtcdCall (CallDelete k) ∉ tr
  | (tr, Killed e) =>
      (an_event an = ServeFailed e \/ an_event an = MetricsFailed e) /\
      brackets node_effect [] tr = Some [REtcd; RStore]
  | (tr, Blocked) =>
      exists ip, resolveMyIP (f_ip f) (f_port f) (an_podIP an) (an_probe an) = Ok ip /\
        ((Register (NewEtcdRegistry (f_nodePrefix f)) ip (an_rounds an)).2 = RegRetrying \/
         an_event an = GotSignal /\ an_rpcsEnd an = false /\
         exists before, tr = opened f ++ (EtcdCall <$> before) ++
           hung_calls f (mkConfig ip (f_mailboxLimit f)) (registry_key (NewEtcdRegistry (f_nodePrefix f)) ip))
  end.
Proof.
  unfold run, main, bbind at 1. pose proof (main_start_run f store an) as Hs.
  destruct (main_start f store an _) as [[tr ds] [b|e|e|]]; cbn [b_trace b_deferred].
  2: exact Hs. 2: done. 2: destruct Hs as (ip & Eip & Hr); exists ip; by split; [|left].
  destruct Hs as (calls & lease & r & Ereg & Ew & Eip & Eb & -> & ->).
  destruct b as [rg ip cf nd]. cbn [bo_ip bo_cfg bo_node bo_registry] in *. injection Eb as -> -> ->.
  set (reg := NewEtcdRegistry (f_nodePrefix f)) in *. set (cfg := mkConfig ip (f_mailboxLimit f)).
  pose proof (Register_no_delete reg ip (an_rounds an)) as Hnd.
  pose proof (establishRegistration_outcome reg (registry_key reg ip) (an_rounds an)) as Hout.
  change (establishRegistration _ _ _) with (Register reg ip (an_rounds an)) in Hout.
  rewrite Ereg in Hout, Hnd. destruct Hout as [before ->]. cbn [fst] in Hnd.
  set (calls := before ++ _) in *.
  unfold main_serve, graceful_stop. destruct (an_listen an) as [e|]; boot_eval.
  { apply (opened_closed f calls [WatchTopology; StartNode cfg]); [done|]. by repeat constructor. }
  assert (forall tl, brackets node_effect [] (opened f ++ (EtcdCall <$> calls) ++ tl) =
    brackets node_effect [REtcd; RStore] tl) as Hbr.
  { intros tl. rewrite brackets_app. cbn [opened brackets node_effect mbind option_bind].
    rewrite brackets_app, brackets_neutral by (apply Forall_fmap, Forall_true; done). done. }
  destruct (an_event an) as [|e|e] eqn:Eev; [destruct (an_rpcsEnd an) eqn:Eend|..]; boot_eval;
    rewrite ?app_nil_r, <- ?app_assoc; cbn [app].
  - exists before, lease, r. split_and!; try done.
  - exists ip. split; [done|]. right. split_and!; try done. by exists calls.
  - split; [by left|]. by rewrite Hbr.
  - split; [by right|]. by rewrite Hbr.
Qed.

(** ** The metrics page *)

Definition newline : string := String "010"%char EmptyString.

(** One counter: its HELP, TYPE and value lines. *)
Definition metric (name help kind : string) (value : Z) : list string :=
  [("# HELP " +:+ name +:+ " " +:+ help +:+ newline)%string;
   ("# TYPE " +:+ name +:+ " " +:+ kind +:+ newline)%string;
   (name +:+ " " +:+ pretty value +:+ newline)%string].

Record process_stats := mkStats {
  ProcessMailboxPending : Z;
  ProcessHandleDurationNsSum : Z;
  ProcessHandleDurationNsCount : Z;
  ProcessPersistenceWriteDurationNsSum : Z;
  ProcessPersistenceWriteDurationNsCount : Z;
}.

(** [handleMetrics]: the status and what is written, one string per [Fprintf]. *)
Definition handleMetrics (method : string) (st : process_stats) : Z * list string :=
  if decide (method <> "GET") then (405, ["method not allowed"])
  else (200,
    metric "node_actor_mailbox_pending" "Total number of envelopes currently waiting across all actor mailboxes within this node process."
      "gauge" (ProcessMailboxPending st) ++
    metric "node_handle_duration_ns_sum" "Cumulative total nanoseconds spent inside handler.Handle(env) in this node process."
      "counter" (ProcessHandleDurationNsSum st) ++
    metric "node_handle_duration_ns_count" "Total number of handler.Handle(env) calls in this node process."
      "counter" (ProcessHandleDurationNsCount st) ++
    metric "node_persistence_write_duration_ns_sum" "Cumulative total nanoseconds spent inside persistence ExecuteBatch() in this node process."
      "counter" (ProcessPersistenceWriteDurationNsSum st) ++
    metric "node_persistence_write_duration_ns_count" "Total number of persistence ExecuteBatch() calls in this node process."
      "counter" (ProcessPersistenceWriteDurationNsCount st)).

(** The value a scraper reads for a metric: the first line that begins with its name. *)
Definition scrape (name : string) (lines : list string) : option string :=
  let key := (name +:+ " ")%string in
  (fun l => TrimPrefix l key) <$> List.find (fun l => HasPrefix l key) lines.

(** A scraper reads back the five counters. *)
Lemma handleMetrics_scrape (st : process_stats) :
  let page := (handleMetrics "GET" st).2 in
  scrape "node_actor_mailbox_pending" page = Some (pretty (ProcessMailboxPending st) +:+ newline)%string /\
  scrape "node_handle_duration_ns_sum" page = Some (pretty (ProcessHandleDurationNsSum st) +:+ newline)%string /\
  scrape "node_handle_duration_ns_count" page = Some (pretty (ProcessHandleDurationNsCount st) +:+ newline)%string /\
  scrape "node_persistence_write_duration_ns_sum" page =
    Some (pretty (ProcessPersistenceWriteDurationNsSum st) +:+ newline)%string /\
  scrape "node_persistence_write_duration_ns_count" page =
    Some (pretty (ProcessPersistenceWriteDurationNsCount st) +:+ newline)%string.
Proof.
  destruct st as [a b c d e]. unfold handleMetrics, metric.
  cbn [ProcessMailboxPending ProcessHandleDurationNsSum ProcessHandleDurationNsCount
    ProcessPersistenceWriteDurationNsSum ProcessPersistenceWriteDurationNsCount].
  generalize (pretty a), (pretty b), (pretty c), (pretty d), (pretty e). intros [] [] [] [] []; by split_and!.
Qed.
