(* ===== verification/Cluster.v ===== *)
(** * The cluster: who owns an account

    pkg/discovery, the ownership guard of internal/node and the routing of cmd/client
    together.  Every process builds its table from the keys the registered nodes have
    put under the node prefix; [serves] (see [Discovery]) says that a resolver holds
    the table of some answer of etcd, and [watchLoop] keeps it so. *)

From S2P Require Import Prelude Wire Routing Discovery Store Wallet Mailbox Node Boot NodeMain.

(** The keys in etcd when [ips] are registered. *)
Definition registered (prefix : string) (ips : list string) : list KeyValue :=
  (fun ip => mkKV (registry_key (NewEtcdRegistry prefix) ip) "") <$> ips.

(** A process whose last answer of etcd was the members [ips], in any order. *)
Definition sees (prefix : string) (ips : list string) (r : EtcdResolver) : Prop :=
  exists kvs, kvs ≡ₚ registered prefix ips /\ serves prefix kvs r.

(** The owner of an account among the members. *)
Definition owner_of (ips : list string) (tenantID uid : Z) : option string :=
  sort_Strings ips !! Z.to_nat (SlotOf tenantID uid mod Z.of_nat (length ips)).

Lemma sort_Strings_perm ips : sort_Strings ips ≡ₚ ips.
Proof. apply merge_sort_Permutation. Qed.

(** Every process that sees the members names the same owner, one of them. *)
Lemma sees_owner prefix ips r t u :
  ips <> [] -> "" ∉ ips -> sees prefix ips r ->
  exists ip, owner_of ips t u = Some ip /\ ip ∈ ips /\ EtcdResolver_GetNodeIP r t u = Some (Ok ip).
Proof.
  intros Hne Haddr (kvs & Hp & _ & _ & tb & Htab & _ & Hb).
  assert (sortedNodeIPsFromKVs (normalizeNodePrefix prefix) kvs = sort_Strings ips) as Hs.
  { rewrite sortedNodeIPs_omap. apply sort_Strings_canonical. rewrite Hp.
    by rewrite <- (omap_registered (normalizeNodePrefix prefix) ips Haddr) at 2. }
  rewrite Hs in Hb. destruct (GetNodeIP_resolves (sort_Strings ips) t u) as (tb' & ip & Hb' & Hget & Hix).
  - intros E. apply Hne, Permutation_nil_r. by rewrite <- E, sort_Strings_perm.
  - by rewrite sort_Strings_perm.
  - rewrite Hb in Hb'. simplify_eq. exists ip. unfold owner_of. rewrite (Permutation_length (sort_Strings_perm ips)) in Hix.
    split_and!; [done| |unfold EtcdResolver_GetNodeIP; by rewrite Htab].
    rewrite <- (sort_Strings_perm ips). by eapply list_elem_of_lookup_2.
Qed.

(** The guard of HandleBatch on a complete envelope, given the owner. *)
Lemma check_owner r ip owner env :
  missing_field env = false -> EtcdResolver_GetNodeIP r (EnvTenantId env) (EnvUid env) = Some (Ok owner) ->
  check_envelope (Some r) ip env =
    Some (Some r, if decide (ip = owner) then Pass else Reject true (wrong_node env)).
Proof.
  intros Hm Hg. unfold check_envelope. rewrite Hm. cbn [tr_GetNodeIP EtcdResolver_TopologyResolver].
  rewrite Hg. cbn [fmap option_fmap option_map mbind option_bind].
  repeat case_decide; congruence.
Qed.

(** C14: one owner.  When all processes see the same members, a complete envelope has
    exactly one node whose ownership guard lets it pass; every other node answers
    WRONG_NODE and evicts; and every client sends it to that node. *)
Theorem cluster_unique_owner (prefix : string) (ips : list string) (rs : string -> EtcdResolver)
    (client : EtcdResolver) (env : RemoteEnvelope) :
  ips <> [] -> "" ∉ ips -> (forall ip, ip ∈ ips -> sees prefix ips (rs ip)) -> sees prefix ips client ->
  missing_field env = false ->
  exists owner, owner ∈ ips /\
    tr_GetNodeIP client (EnvTenantId env) (EnvUid env) = Some (client, Ok owner) /\
    forall ip, ip ∈ ips -> check_envelope (Some (rs ip)) ip env =
      Some (Some (rs ip), if decide (ip = owner) then Pass else Reject true (wrong_node env)).
Proof.
  intros Hne Haddr Hrs Hc Hm.
  destruct (sees_owner prefix ips client (EnvTenantId env) (EnvUid env) Hne Haddr Hc) as (owner & Ho & Hin & Hg).
  exists owner. split_and!; [done|cbn; by rewrite Hg|]. intros ip Hip. apply check_owner; [done|].
  destruct (sees_owner prefix ips (rs ip) (EnvTenantId env) (EnvUid env) Hne Haddr (Hrs _ Hip))
    as (o' & Ho' & _ & ->). congruence.
Qed.

Lemma refresh_sees prefix ips kvs r :
  kvs ≡ₚ registered prefix ips ->
  refreshSnapshot (E := string) (Ok kvs) (NewEtcdResolver prefix) = Some (r, None) -> sees prefix ips r.
Proof.
  intros Hp E. exists kvs. split; [done|].
  destruct (refreshSnapshot_serves (E := string) prefix kvs (NewEtcdResolver prefix)) as (r' & E' & Hs); [done..|].
  rewrite E in E'. by simplify_eq.
Qed.

Definition demo_members : list string := ["10.0.0.2:50051"; "10.0.0.1:50051"].
Definition demo_view : EtcdResolver :=
  default (NewEtcdResolver "/n")
    (fst <$> refreshSnapshot (E := string) (Ok (registered "/n" demo_members)) (NewEtcdResolver "/n")).

Lemma cluster_unique_owner_witness :
  exists owner, owner ∈ demo_members /\ forall ip, ip ∈ demo_members ->
    check_envelope (Some demo_view) ip (mkEnvelope 1 7 "tx-1" 42 1 [] 0) =
      Some (Some demo_view, if decide (ip = owner) then Pass
                            else Reject true (wrong_node (mkEnvelope 1 7 "tx-1" 42 1 [] 0))).
Proof.
  assert (sees "/n" demo_members demo_view) as Hs.
  { apply (refresh_sees "/n" demo_members (registered "/n" demo_members)); vm_compute; reflexivity. }
  destruct (cluster_unique_owner "/n" demo_members (fun _ => demo_view) demo_view (mkEnvelope 1 7 "tx-1" 42 1 [] 0))
    as (owner & Hin & _ & Hall); [discriminate|go_decide|intros; exact Hs|exact Hs|reflexivity|].
  exists owner. split; [exact Hin|exact Hall].
Defined.

(** ** Nodes as cmd/node starts them *)

(** A node whose first snapshot shows the members [ips] sees them, under the address
    it has registered. *)
Lemma booted_sees {W} f (store : W) an st b kvs ips :
  main_start f store an (mkBoot [] []) = (st, Returned b) -> an_get an = Ok kvs ->
  kvs ≡ₚ registered (f_nodePrefix f) ips ->
  myIP (bo_cfg b) = bo_ip b /\
  exists r, n_resolver (bo_node b) = Some r /\ sees (f_nodePrefix f) ips r.
Proof.
  intros E Hget Hp. pose proof (main_start_run f store an) as Hs. rewrite E in Hs. destruct st as [tr ds].
  destruct Hs as (calls & lease & r & _ & Ew & _ & -> & _). split; [done|]. exists r. split; [done|].
  rewrite Hget in Ew. unfold Watch in Ew.
  destruct (refreshSnapshot _ _) as [[r1 [e|]]|] eqn:Er; simplify_eq/=. by eapply refresh_sees.
Qed.

(** A started node guards its own accounts.  A node that [main] has started, whose
    first snapshot shows the members [ips], lets an envelope pass exactly when its own
    registered address is the owner of the account among [ips]. *)
Theorem booted_node_guard {W} f (store : W) an st b kvs ips env :
  main_start f store an (mkBoot [] []) = (st, Returned b) -> an_get an = Ok kvs ->
  kvs ≡ₚ registered (f_nodePrefix f) ips -> ips <> [] -> "" ∉ ips -> missing_field env = false ->
  exists r, check_envelope (n_resolver (bo_node b)) (myIP (bo_cfg b)) env =
    Some (Some r, if decide (owner_of ips (EnvTenantId env) (EnvUid env) = Some (bo_ip b))
                  then Pass else Reject true (wrong_node env)).
Proof.
  intros E Hget Hp Hne Haddr Hm. destruct (booted_sees f store an st b kvs ips E Hget Hp) as (-> & r & -> & Hs).
  destruct (sees_owner _ ips r (EnvTenantId env) (EnvUid env) Hne Haddr Hs) as (o & -> & _ & Hg).
  exists r. rewrite (check_owner r (bo_ip b) o env Hm Hg). repeat case_decide; congruence.
Qed.

(** The answers of an outside in which everything works and the node is alone. *)
Definition alone : node_answers :=
  mkAnswers "10.0.0.1" (Err "unused") None None [mkAttempt false (Some 7) true true true]
    (Ok (registered "/actor_cluster/nodes" ["10.0.0.1:50051"])) None GotSignal true.

Example alone_runs :
  exists b, (run (main default_flags tt alone)).2 = Returned b /\ bo_ip b = "10.0.0.1:50051".
Proof. eexists. split; [vm_compute; reflexivity|reflexivity]. Qed.

(** While the members change, two nodes can own one account: the node that has not yet
    seen the new member, and the new member. *)
Lemma stale_view_overlap :
  exists r_old r_new env,
    sees "/n" ["a:1"] r_old /\ sees "/n" ["a:1"; "b:1"] r_new /\
    check_envelope (Some r_old) "a:1" env = Some (Some r_old, Pass) /\
    check_envelope (Some r_new) "b:1" env = Some (Some r_new, Pass).
Proof.
  eexists _, _, (mkEnvelope 1 6 "tx-1" 42 1 [] 0).
  split; [eapply refresh_sees; [reflexivity|vm_compute; reflexivity]|].
  split; [eapply refresh_sees; [reflexivity|vm_compute; reflexivity]|].
  split; vm_compute; reflexivity.
Qed.
