(* ===== verification/ClusterLedger.v ===== *)
(** * Several nodes over one store

    The processes of cmd/node together: any number of nodes of internal/node on one
    store, that boot, crash and see the topology change.  As long as an account has
    one writer at a time, in the whole cluster, every history is kept and every success
    that any process ever sent is in one.  And while all resolvers give the same answers,
    addresses differ, no process shuts down and passivation finds no idle actor, there
    is one writer, on the owner: no actor loses its reference then. *)

From S2P Require Import Prelude Wire Routing Discovery Mailbox Store Wallet WalletSpec WalletSystem Node NodeInv LedgerView NodeLedger Boot NodeMain Cluster.

Record cluster (W R : Type) := mkCluster {
  c_nodes : gmap nat (node W R);          (* the processes that run *)
  c_world : W;                            (* the store they share *)
  c_sent : list (nat * BatchResponse);    (* history: what crashed processes had sent *)
  c_given : list (nat * RemoteEnvelope);  (* history: what crashed processes had been given *)
}.
Arguments mkCluster {W R}.
Arguments c_nodes {W R}.
Arguments c_world {W R}.
Arguments c_sent {W R}.
Arguments c_given {W R}.

Section Cluster.
Context {W R Er : Type} `{WalletDB W} `{TopologyResolver R Er} (cfgs : nat -> Config).
Implicit Types (c : cluster W R) (n : node W R).

(** A node reads and writes the shared store. *)
Definition on_store (w : W) n : node W R := n <| n_world := w |>.

Inductive cluster_step c : cluster W R -> Prop :=
  | cl_node i n n' :
      c_nodes c !! i = Some n -> n_panicked n = false -> own_move (cfgs i) (on_store (c_world c) n) n' ->
      cluster_step c (mkCluster (<[i := n']> (c_nodes c)) (n_world n') (c_sent c) (c_given c))
  | cl_topology i n r :
      c_nodes c !! i = Some n ->
      cluster_step c (mkCluster (<[i := on_store (c_world c) n <| n_resolver := r |>]> (c_nodes c)) (c_world c) (c_sent c) (c_given c))
  | cl_snapshot i n stmt :
      c_nodes c !! i = Some n -> stmt ∈ n_goroutines n ->
      cluster_step c (mkCluster (c_nodes c) (ExecuteBatch (c_world c) UnloggedBatch [stmt]).1 (c_sent c) (c_given c))
  | cl_boot i r :
      c_nodes c !! i = None ->
      cluster_step c (mkCluster (<[i := NewNode (c_world c) r]> (c_nodes c)) (c_world c) (c_sent c) (c_given c))
  | cl_crash i n :
      c_nodes c !! i = Some n ->
      cluster_step c (mkCluster (delete i (c_nodes c)) (c_world c) (c_sent c ++ n_sent n) (c_given c ++ n_submitted n))
  | cl_store w :
      undisturbed (db (c_world c)) (db w) -> cluster_step c (mkCluster (c_nodes c) w (c_sent c) (c_given c)).

(** ** The cluster as its ledgers see it *)

Definition cluster_carries c (r : RemoteResult) : Prop :=
  (exists i n, c_nodes c !! i = Some n /\ carries n r) \/ (exists s resp, (s, resp) ∈ c_sent c /\ r ∈ Results resp).

Definition cluster_view c : view W (nat * nat) :=
  mkView (fun ia => c_nodes c !! ia.1 ≫= fun n => n_actors n !! ia.2) (c_world c)
    (map_to_list (c_nodes c) ≫= fun iv => n_goroutines iv.2) (cluster_carries c).

Lemma in_goroutines c stmt :
  stmt ∈ v_goroutines (cluster_view c) <-> exists i n, c_nodes c !! i = Some n /\ stmt ∈ n_goroutines n.
Proof.
  simpl. rewrite list_elem_of_bind. split.
  - intros ([i n] & Hs & Hin). apply elem_of_map_to_list in Hin. by exists i, n.
  - intros (i & n & Hi & Hs). exists (i, n). split; [done|]. by apply elem_of_map_to_list.
Qed.

Lemma carries_on_store w n r : carries (on_store w n) r <-> carries n r.
Proof. split; apply carries_same; eauto. Qed.

(** The node [i] moves on: its part of the cluster changes as it does. *)
Lemma set_node_actor c i n' w' ls gs j a :
  v_actor (cluster_view (mkCluster (<[i := n']> (c_nodes c)) w' ls gs)) (j, a) =
  if decide (i = j) then n_actors n' !! a else v_actor (cluster_view c) (j, a).
Proof. simpl. rewrite lookup_insert. by case_decide. Qed.

Lemma node_actor_at c i n a : c_nodes c !! i = Some n -> v_actor (cluster_view c) (i, a) = n_actors n !! a.
Proof. intros Hi. simpl. by rewrite Hi. Qed.

Lemma set_node_carries c i n n' w' r :
  c_nodes c !! i = Some n ->
  cluster_carries (mkCluster (<[i := n']> (c_nodes c)) w' (c_sent c) (c_given c)) r ->
  cluster_carries c r \/ carries n' r.
Proof.
  intros Hi [(j & nj & Hj & Hr)|Hs]; [|by left; right]. simpl in Hj. rewrite lookup_insert in Hj.
  case_decide; [simplify_eq; by right|]. left. left. by exists j, nj.
Qed.

Lemma set_node_goroutines c i n n' w' extra :
  c_nodes c !! i = Some n -> n_goroutines n' ⊆ n_goroutines n ++ extra ->
  v_goroutines (cluster_view (mkCluster (<[i := n']> (c_nodes c)) w' (c_sent c) (c_given c))) ⊆
    v_goroutines (cluster_view c) ++ extra.
Proof.
  intros Hi Hg stmt (j & nj & Hj & Hs)%in_goroutines. simpl in Hj. apply elem_of_app.
  rewrite lookup_insert in Hj. case_decide.
  - simplify_eq. apply Hg, elem_of_app in Hs as [Hs|]; [left|by right]. apply in_goroutines. by exists j, n.
  - left. apply in_goroutines. by exists j, nj.
Qed.

Lemma lift_no_result c i n n' w' :
  c_nodes c !! i = Some n -> no_new_result (node_view (on_store (c_world c) n)) (node_view n') ->
  no_new_result (cluster_view c) (cluster_view (mkCluster (<[i := n']> (c_nodes c)) w' (c_sent c) (c_given c))).
Proof.
  intros Hi Hc r Hr Hs. destruct (set_node_carries _ _ _ _ _ _ Hi Hr) as [|Hn]; [done|].
  left. exists i, n. split; [done|].
  exact (proj1 (carries_on_store _ _ _) (Hc r Hn Hs)).
Qed.

Lemma lift_sets c i n n' w' a na' :
  c_nodes c !! i = Some n -> sets_actor (node_view (on_store (c_world c) n)) (node_view n') a na' ->
  sets_actor (cluster_view c) (cluster_view (mkCluster (<[i := n']> (c_nodes c)) w' (c_sent c) (c_given c))) (i, a) na'.
Proof.
  intros Hi [Ha Ho]. split.
  - rewrite set_node_actor, decide_True by done. exact Ha.
  - intros [j b] Hne. rewrite set_node_actor. case_decide as Hij; [subst j|done].
    rewrite (node_actor_at c i n b Hi). apply (Ho b). congruence.
Qed.

(** ** The effect of a step *)

Lemma lift_effect c i n n' :
  c_nodes c !! i = Some n -> effect (node_view (on_store (c_world c) n)) (node_view n') ->
  effect (cluster_view c) (cluster_view (mkCluster (<[i := n']> (c_nodes c)) (n_world n') (c_sent c) (c_given c))).
Proof.
  intros Hi Hef.
  assert (n_goroutines n' ⊆ n_goroutines n -> v_goroutines (cluster_view (mkCluster (<[i := n']> (c_nodes c)) (n_world n') (c_sent c) (c_given c)))
    ⊆ v_goroutines (cluster_view c)) as Hgo.
  { intros Hg. rewrite <- (app_nil_r (v_goroutines (cluster_view c))). apply (set_node_goroutines c i n); [done|].
    by rewrite app_nil_r. }
  destruct Hef as [Hk Hu Hg Hc|k now b a Hnone Hset E Hg Hc|a na na' env now h Ha Hpc Hmail Henv E Hset Hbiz Hw Hg Hc
    |stmt Hin Ha Hw Hg Hc|Ha Hw Hg Hc].
  - apply ef_quiet; [|done|by apply Hgo|by apply (lift_no_result c i n)]. destruct Hk as [Hb Hf]. split.
    + intros [j a] na'. rewrite set_node_actor. case_decide; [subst j|eauto].
      rewrite (node_actor_at c i n a Hi). apply (Hb a).
    + intros [j a]. rewrite set_node_actor. case_decide; [subst j|done].
      rewrite (node_actor_at c i n a Hi). apply (Hf a).
  - eapply (ef_create _ _ k now b (i, a)); [rewrite (node_actor_at c i n a Hi); exact Hnone|exact (lift_sets c i n n' _ a _ Hi Hset)|exact E|
      by apply Hgo|by apply (lift_no_result c i n)].
  - eapply (ef_handle _ _ (i, a) na na' env now h); try done.
    + rewrite (node_actor_at c i n a Hi). exact Ha.
    + exact (lift_sets c i n n' _ a _ Hi Hset).
    + by apply (set_node_goroutines c i n).
    + intros r Hr Hs. destruct (set_node_carries _ _ _ _ _ _ Hi Hr) as [|Hn]; [by left|].
      destruct (Hc r Hn Hs) as [Hold|]; [|by right]. left. left. exists i, n.
      split; [done|]. exact (proj1 (carries_on_store _ _ _) Hold).
  - eapply (ef_snapshot _ _ stmt); try done; [apply in_goroutines; by exists i, n| |by apply Hgo|by apply (lift_no_result c i n)].
    intros [j a]. rewrite set_node_actor. case_decide; [subst j|done]. rewrite (node_actor_at c i n a Hi). apply (Ha a).
  - apply ef_crash; [|done|by apply Hgo|by apply (lift_no_result c i n)]. intros [j a] na.
    rewrite set_node_actor. case_decide; [subst j|done]. rewrite (node_actor_at c i n a Hi). apply (Ha a).
Qed.

Definition nodes_inv c : Prop := forall i n, c_nodes c !! i = Some n -> node_inv n.

Lemma node_inv_store w n : node_inv n -> node_inv (on_store w n).
Proof. intros I. apply (node_inv_step n _ I); eauto. by apply grows_actors. Qed.

Lemma own_move_inv cfg n n' : node_inv n -> own_move cfg n n' -> node_inv n'.
Proof.
  intros I [Hs|Hs|Hs|Hs|Hs|Hs];
    eauto using hb_step_inv, actor_step_inv, kill_step_inv, agg_step_inv, node_stop_step_inv, pass_step_inv.
Qed.

Lemma nodes_inv_step c c' : nodes_inv c -> cluster_step c c' -> nodes_inv c'.
Proof.
  intros I [i n n' Hi Hp Hm|i n r Hi|i n stmt Hi Hin|i r Hi|i n Hi|w Hu] j nj; simpl; try apply I.
  - rewrite lookup_insert. case_decide; [|apply I]. intros [= <-]. eapply own_move_inv; [|done].
    by eapply node_inv_store, I.
  - rewrite lookup_insert. case_decide; [|apply I]. intros [= <-].
    apply (node_inv_step n _ (I _ _ Hi)); eauto. by apply grows_actors.
  - rewrite lookup_insert. case_decide; [|apply I]. intros [= <-]. apply NewNode_inv.
  - rewrite lookup_delete. case_decide; [done|apply I].
Qed.

Lemma cluster_effect c c' : nodes_inv c -> cluster_step c c' -> effect (cluster_view c) (cluster_view c').
Proof.
  intros I [i n n' Hi Hp Hm|i n r Hi|i n stmt Hi Hin|i r Hi|i n Hi|w Hu].
  - apply (lift_effect c i n n' Hi). eapply own_effect; [|done]. by eapply node_inv_store, I.
  - apply (lift_effect c i n (on_store (c_world c) n <| n_resolver := r |>) Hi).
    apply ef_quiet; [by apply keeps_eq|done..|]. intros x Hx _. by eapply carries_same, Hx; eauto.
  - eapply (ef_snapshot _ _ stmt); [apply in_goroutines; by exists i, n|done|done|done|by intros x].
  - apply ef_quiet; [split|done|..].
    + intros [j a] na. rewrite set_node_actor. case_decide; [|eauto]. simpl. by rewrite lookup_empty.
    + intros [j a]. rewrite set_node_actor. case_decide; [subst j|done]. simpl. rewrite Hi. by intros [? ?].
    + intros stmt (j & nj & Hj & Hs)%in_goroutines. simpl in Hj. rewrite lookup_insert in Hj.
      case_decide; [simplify_eq; by apply not_elem_of_nil in Hs|]. apply in_goroutines. by exists j, nj.
    + intros x [(j & nj & Hj & Hx)|Hx] _; [|by right]. simpl in Hj. rewrite lookup_insert in Hj.
      case_decide; [simplify_eq; by apply NewNode_carries in Hx|]. left. by exists j, nj.
  - apply ef_crash; [|done|..].
    + intros [j a] na. simpl. rewrite lookup_delete. by case_decide.
    + intros stmt (j & nj & Hj & Hs)%in_goroutines. simpl in Hj. apply lookup_delete_Some in Hj as [_ Hj].
      apply in_goroutines. by exists j, nj.
    + intros x [(j & nj & Hj & Hx)|(s & resp & Hin & Hx)] _; simpl in *.
      * apply lookup_delete_Some in Hj as [_ Hj]. left. by exists j, nj.
      * apply elem_of_app in Hin as [Hin|Hin]; [right; by exists s, resp|]. left. exists i, n. split; [done|]. by eapply ca_sent.
  - apply ef_quiet; [split; eauto|done|done|by intros x].
Qed.

(** ** Runs *)

Definition empty_cluster (w : W) : cluster W R := mkCluster ∅ w [] [].

(** A step after which an account still has one writer in the whole cluster. *)
Definition orderly_cluster_step c c' : Prop :=
  cluster_step c c' /\ sole_writer (cluster_view c) (cluster_view c').

(** A process, one that runs or one that crashed, has sent the result. *)
Definition replied c (x : RemoteResult) : Prop :=
  (exists i n s resp, c_nodes c !! i = Some n /\ (s, resp) ∈ n_sent n /\ x ∈ Results resp) \/
  (exists s resp, (s, resp) ∈ c_sent c /\ x ∈ Results resp).

Lemma cluster_ledger_steps (w : W) m0 m log0 c :
  (forall k : ActorKey, ledger_of (db w) k.1 k.2 (log0 k) /\ (length (log0 k) <= m0)%nat) ->
  nsteps orderly_cluster_step m (empty_cluster w) c -> Z.of_nat (m0 + m) < 2 ^ 63 - 1 ->
  ledger_inv log0 (m0 + m) (cluster_view c) /\ nodes_inv c.
Proof.
  intros Hl. revert c. induction m as [|m IH]; intros c Hs Hm.
  - inversion Hs; subst. rewrite Nat.add_0_r. split; [|intros i n; simpl; by rewrite lookup_empty].
    apply start_ledger; [done| | |].
    + intros [i a]. simpl. by rewrite lookup_empty.
    + simpl. by rewrite map_to_list_empty.
    + intros r [(i & n & Hi & _)|(s & resp & Hin & _)]; simpl in *; [by rewrite lookup_empty in Hi|by apply not_elem_of_nil in Hin].
  - apply nsteps_inv_r in Hs as (c1 & Hs & [Hst Hso]). destruct (IH c1 Hs ltac:(lia)) as [I Hn].
    split; [|by eapply nodes_inv_step]. replace (m0 + S m)%nat with (S (m0 + m)) by lia.
    by apply (effect_ledger log0 (m0 + m) (cluster_view c1)); [|lia|apply cluster_effect|].
Qed.
End Cluster.

(** ** Stable ownership *)

Section Ownership.
Context {W R Er : Type} `{WalletDB W} `{TopologyResolver R Er} (cfgs : nat -> Config).
Implicit Types (c : cluster W R) (n : node W R).

(** The resolvers in [agreed] name the owner [own] (or fail, where it is [None]), and
    asking them changes nothing of that. *)
Context (own : Z -> Z -> option string) (agreed : R -> Prop).
Definition agrees : Prop :=
  forall r t u, agreed r -> exists r' res, tr_GetNodeIP r t u = Some (r', res) /\ agreed r' /\
    forall ip, res = Ok ip <-> own t u = Some ip.

Definition env_of (pc : hb_pc) : option RemoteEnvelope :=
  match pc with
  | HLookup env | HCreate env | HRoute env _ | HSend env _ | HEnq env _ | HUnroute env _ | HEvict env _ => Some env
  | _ => None
  end.

(** The node only serves accounts it owns. *)
Record owned (ip : string) n : Prop := {
  ow_actor_ids a na : n_actors n !! a = Some na -> own (actor_ids na).1 (actor_ids na).2 = Some ip;
  ow_env t h env : n_hbs n !! t = Some h -> env_of (hb_at h) = Some env -> own (EnvTenantId env) (EnvUid env) = Some ip;
}.

Definition has_agreed n : Prop := exists r, n_resolver n = Some r /\ agreed r.

Lemma agreed_pass n ip env r' :
  agrees -> has_agreed n -> check_envelope (n_resolver n) ip env = Some (r', Pass) ->
  own (EnvTenantId env) (EnvUid env) = Some ip.
Proof.
  intros Hag (r & Hr & Hok). unfold check_envelope. rewrite Hr. case_match; [done|].
  destruct (Hag r (EnvTenantId env) (EnvUid env) Hok) as (r1 & [o|e] & -> & _ & Ho); simpl; [|done].
  case_decide; [|done]. intros _. subst ip. by apply Ho.
Qed.

(** The guard tells nobody off about an account the node owns. *)
Lemma agreed_no_kill n ip env r' x :
  agrees -> has_agreed n -> check_envelope (n_resolver n) ip env = Some (r', Reject true x) ->
  own (EnvTenantId env) (EnvUid env) <> Some ip.
Proof.
  intros Hag (r & Hr & Hok). unfold check_envelope. rewrite Hr. case_match; [done|].
  destruct (Hag r (EnvTenantId env) (EnvUid env) Hok) as (r1 & res & -> & _ & Ho); simpl.
  intros E Hown%Ho. subst res. simpl in E. by rewrite decide_True in E by done.
Qed.

Lemma hb_envs cfg n n' t h env :
  agrees -> has_agreed n -> hb_step cfg n n' -> n_hbs n' !! t = Some h -> env_of (hb_at h) = Some env ->
  (exists t0 h0, n_hbs n !! t0 = Some h0 /\ env_of (hb_at h0) = Some env) \/
  own (EnvTenantId env) (EnvUid env) = Some (myIP cfg).
Proof.
  intros Hag Hok Hst.
  assert (forall (m : node W R) t0 h0 h1, n_hbs n !! t0 = Some h0 -> n_hbs m = <[t0 := h1]> (n_hbs n) ->
    (env_of (hb_at h1) = Some env -> env_of (hb_at h0) = Some env \/ own (EnvTenantId env) (EnvUid env) = Some (myIP cfg)) ->
    n_hbs m !! t = Some h -> env_of (hb_at h) = Some env ->
    (exists t0 h0, n_hbs n !! t0 = Some h0 /\ env_of (hb_at h0) = Some env) \/
    own (EnvTenantId env) (EnvUid env) = Some (myIP cfg)) as Hone.
  { intros m t0 h0 h1 Ht0 -> Hkeep. rewrite lookup_insert. case_decide; [|eauto].
    intros [= <-] He. destruct (Hkeep He); eauto. }
  destruct Hst as
    [t0 s envs pending Ht Hp|t0 s rest Ht|t0 s env0 rest Ht|t0 s over Ht Ho|t0 s rest over q Ht Hroom
    |t0 s rest Ht|t0 s env0 rest Ht E|t0 s env0 rest r' Ht E|t0 s env0 rest r' kill r0 Ht E Hl
    |t0 s env0 rest r' r0 a Ht E Hl|t0 s rest a q g Ht Hg|t0 s env0 rest Ht|t0 s env0 rest a Ht Hl
    |t0 s env0 rest now w' b a Ht Hl E Ha|t0 s env0 rest now w' b e Ht Hl E|t0 s env0 rest now Ht E
    |t0 s env0 rest a Ht|t0 s env0 rest a na Ht Hna|t0 s env0 rest a na Ht Hna|t0 s env0 rest a Ht
    |t0 s env0 rest a Ht];
    try (by eapply Hone; [done|reflexivity|simpl; auto]).
  - simpl. rewrite lookup_insert. case_decide; [|eauto]. intros [= <-]. simpl. by case_decide.
  - eapply Hone; [done|reflexivity|]. simpl. by destruct over.
  - eapply Hone; [done|reflexivity|]. simpl. intros [= <-]. right. by eapply agreed_pass.
  - eapply Hone; [done|reflexivity|]. simpl. case_match; auto.
  - eapply Hone; [done|reflexivity|]. simpl. case_match; auto.
  - cbv zeta. case_decide; (eapply Hone; [done|reflexivity|simpl; auto]).
Qed.

Lemma quiet_hbs cfg n n' : own_move cfg n n' -> hb_step cfg n n' \/ n_hbs n' = n_hbs n.
Proof. intros [Hs|Hs|Hs|Hs|Hs|Hs]; [by left|right..]; by destruct Hs. Qed.

Lemma owned_step cfg n n' :
  agrees -> has_agreed n -> owned (myIP cfg) n -> own_move cfg n n' -> owned (myIP cfg) n'.
Proof.
  intros Hag Hok [Ia Ie] Hm. constructor.
  - intros a na' Ha'. assert ((exists na, n_actors n !! a = Some na /\ actor_ids na' = actor_ids na) ->
      own (actor_ids na').1 (actor_ids na').2 = Some (myIP cfg)) as Hold by (intros (na & Hna & ->); eauto).
    assert (hb_step cfg n n' \/ (n_actors n' !! a = Some na' ->
      exists na, n_actors n !! a = Some na /\ actor_ids na' = actor_ids na)) as [Hhb|Hids]; [|..|auto].
    { destruct (own_orderly _ _ _ Hm) as [|Ho]; [by left|by eapply move_ids]. }
    destruct (hb_effects _ _ _ Hhb) as [[[Hb _] _|t u now b e [Hb _] _|k now b a1 _ E _ _ (t & s & rest & env & Ht & Hk) Ereh] _].
    1,2: destruct (Hb _ _ Ha') as (na & Hna & E & _); apply Hold; exists na; unfold actor_ids; by rewrite E.
    rewrite E, lookup_insert in Ha'. case_decide; [|by eauto]. injection Ha' as <-.
    change (actor_ids (mkNodeActor b statusRunning [] AIdle)) with (tenantID b, uid b).
    rewrite (rehydrate_ids _ _ _ _ _ _ Ereh), <- Hk. by apply (Ie _ _ env Ht).
  - intros t h env Ht He. destruct (quiet_hbs _ _ _ Hm) as [Hhb|Hh].
    + destruct (hb_envs _ _ _ _ _ _ Hag Hok Hhb Ht He) as [(t0 & h0 & Ht0 & He0)|]; eauto.
    + rewrite Hh in Ht. eauto.
Qed.

(** Nothing has been stopped: every actor runs, and no call of [HandleBatch] is evicting
    one. *)
Definition evicting (pc : hb_pc) : bool :=
  match pc with HKill _ _ | HUnroute _ _ | HEvict _ _ => true | _ => false end.
Definition running n : Prop := forall a na, n_actors n !! a = Some na -> na_status na = statusRunning.
Record settled n : Prop := {
  se_running : running n;
  se_hb t h : n_hbs n !! t = Some h -> evicting (hb_at h) = false;
}.

(** No sweep of the passivation loop finds an idle actor. *)
Definition all_busy n : Prop :=
  forall i now a, n_pass n = PassSweep i now -> is_idle n now a = false.

Lemma keeps_refs_same n n' : n_shards n' = n_shards n -> keeps_refs n n'.
Proof. intros E k a. unfold lookup_actor. by rewrite E. Qed.

Lemma put_ref_keeps n n' k a :
  n_shards n' = alter <[k := a]> (shard_ix k) (n_shards n) -> lookup_actor n k = None -> keeps_refs n n'.
Proof.
  intros E Hl j b Hj. assert (j <> k) as Hne by congruence. unfold lookup_actor in *. rewrite E.
  destruct (decide (shard_ix k = shard_ix j)) as [He|He]; [|by rewrite list_lookup_alter_ne].
  rewrite He, list_lookup_alter_eq. destruct (n_shards n !! shard_ix j) as [sh|]; [|done]. simpl in *.
  by rewrite lookup_insert_ne.
Qed.

Lemma set_running n n' a na :
  running n -> n_actors n' = <[a := na]> (n_actors n) -> na_status na = statusRunning -> running n'.
Proof. intros Hr E Hs b nb. rewrite E, lookup_insert. case_decide; [congruence|apply Hr]. Qed.

(** A call of [HandleBatch] goes on: it drops no reference and stops no actor. *)
Lemma settled_hb cfg n n' :
  agrees -> has_agreed n -> node_inv n -> owned (myIP cfg) n -> settled n -> hb_step cfg n n' ->
  settled n' /\ keeps_refs n n'.
Proof.
  intros Hag Hok N Ho [Hr Hh] Hst.
  assert (forall (m : node W R) t h, n_hbs m = <[t := h]> (n_hbs n) -> evicting (hb_at h) = false -> running m ->
    n_shards m = n_shards n -> settled m /\ keeps_refs n m) as Hone.
  { intros m t h E He Hm Hs. split; [|by apply keeps_refs_same]. constructor; [done|]. intros t1 h1. rewrite E, lookup_insert.
    case_decide; [congruence|apply Hh]. }
  assert (forall t s rest pc, n_hbs n !! t = Some (mkHb s rest pc) -> evicting pc = true -> False) as Hno.
  { intros t s rest pc Ht He. apply Hh in Ht. simpl in Ht. congruence. }
  destruct Hst as
    [t0 s envs pending Ht Hp|t0 s rest Ht|t0 s env0 rest Ht|t0 s over Ht Hov|t0 s rest over q Ht Hroom
    |t0 s rest Ht|t0 s env0 rest Ht E|t0 s env0 rest r' Ht E|t0 s env0 rest r' kill r0 Ht E Hl
    |t0 s env0 rest r' r0 a Ht E Hl|t0 s rest a q g Ht Hg|t0 s env0 rest Ht|t0 s env0 rest a Ht Hl
    |t0 s env0 rest now w' b a Ht Hl E Ha|t0 s env0 rest now w' b e Ht Hl E|t0 s env0 rest now Ht E
    |t0 s env0 rest a Ht|t0 s env0 rest a na Ht Hna|t0 s env0 rest a na Ht Hna|t0 s env0 rest a Ht
    |t0 s env0 rest a Ht];
    try (by destruct (Hno _ _ _ _ Ht)); try (by eapply Hone; [reflexivity|..]).
  - eapply Hone; [reflexivity|by simpl; case_decide|done..].
  - eapply Hone; [reflexivity|by destruct over|done..].
  - exfalso. apply (agreed_no_kill _ _ _ _ _ Hag Hok E). destruct (n_shards n !! shard_ix (actor_key env0)) as [sh|] eqn:Hsh;
      unfold lookup_actor in Hl; rewrite Hsh in Hl; [|done]. simpl in Hl.
    destruct (ni_shard _ N _ _ _ _ Hsh Hl) as (_ & na & Hna & Hk).
    pose proof (ow_actor_ids _ _ Ho _ _ Hna) as Hown. pose proof (sk_ids _ _ Hk : actor_ids na = _) as Hids.
    by rewrite Hids in Hown.
  - eapply Hone; [reflexivity|by simpl; case_match|done..].
  - split; [|by eapply put_ref_keeps]. constructor; [by eapply set_running|]. simpl. intros t1 h1.
    rewrite lookup_insert. case_decide; [intros [= <-]; done|apply Hh].
  - eapply Hone; [reflexivity|simpl; by rewrite (Hr _ _ Hna)|done..].
  - eapply Hone; [reflexivity|done| |done]. eapply set_running; [done|reflexivity|]. by apply (Hr _ _ Hna).
Qed.

(** So does everything else, unless the process shuts down or passivates. *)
Lemma settled_step cfg n n' :
  agrees -> has_agreed n -> node_inv n -> owned (myIP cfg) n -> settled n -> n_stop n' = StNone -> all_busy n ->
  own_move cfg n n' -> settled n' /\ keeps_refs n n'.
Proof.
  intros Hag Hok N Ho Hs Hstop Hbusy Hm. pose proof Hs as [Hr Hh].
  assert (forall m : node W R, n_hbs m = n_hbs n -> running m -> n_shards m = n_shards n -> settled m /\ keeps_refs n m) as Hsame.
  { intros m E Hrun Hsh. split; [|by apply keeps_refs_same]. constructor; [done|]. by rewrite E. }
  destruct Hm as [Hst|Hst|Hst|Hst|Hst|Hst]; [by eapply settled_hb|..].
  - destruct Hst as [a na env rest now h Ha|a na env rest now Ha|a na Ha|a na Ha|a na Ha Hpc Hdead|a na r Ha|a na q Ha];
      try (apply Hsame; [done| |done]; eapply set_running; [done|reflexivity|by apply (Hr _ _ Ha)]).
    + by apply Hsame.
    + rewrite (Hr _ _ Ha) in Hdead. done.
  - destruct Hst as [g a na Hg Ha|g env envs Hg|g q envs Hg]; apply Hsame; try done.
    eapply set_running; [done|reflexivity|by apply (Hr _ _ Ha)].
  - destruct Hst; by apply Hsame.
  - destruct Hst; simpl in Hstop; congruence.
  - destruct Hst as [now Hp|i now Hp Hi|now Hp|Hp Hc]; try by apply Hsame.
    specialize (Hbusy i now). split.
    + constructor; [|done]. intros a na. simpl. rewrite map_lookup_imap. destruct (n_actors n !! a) as [na0|] eqn:Ha; [|done].
      simpl. intros [= <-]. rewrite decide_False; [by apply (Hr _ _ Ha)|]. intros [Hidle _]%list_elem_of_filter.
      by rewrite Hbusy in Hidle.
    + intros k a. unfold lookup_actor. simpl. destruct (decide (i = shard_ix k)) as [->|Hne]; [|by rewrite list_lookup_alter_ne].
      rewrite list_lookup_alter_eq. destruct (n_shards n !! shard_ix k) as [sh|]; [|done]. simpl. intros Hk.
      apply map_lookup_filter_Some. split; [done|]. by apply Hbusy.
Qed.

(** A step while ownership is stable: the resolvers of all processes agree, no two
    processes that run have the same address, no process is shutting down, and no actor
    is idle when passivation looks at it. *)
Record stable_step c c' : Prop := {
  st_step : cluster_step cfgs c c';
  st_agreed i n : c_nodes c' !! i = Some n -> has_agreed n;
  st_address i j : is_Some (c_nodes c' !! i) -> is_Some (c_nodes c' !! j) -> myIP (cfgs i) = myIP (cfgs j) -> i = j;
  st_running i n : c_nodes c' !! i = Some n -> n_stop n = StNone;
  st_busy i n : c_nodes c !! i = Some n -> all_busy n;
}.

Record stable_inv c : Prop := {
  sv_inv : nodes_inv c;
  sv_agreed i n : c_nodes c !! i = Some n -> has_agreed n;
  sv_owned i n : c_nodes c !! i = Some n -> owned (myIP (cfgs i)) n;
  sv_referenced i n : c_nodes c !! i = Some n -> referenced n;
  sv_settled i n : c_nodes c !! i = Some n -> settled n;
  sv_address i j : is_Some (c_nodes c !! i) -> is_Some (c_nodes c !! j) -> myIP (cfgs i) = myIP (cfgs j) -> i = j;
}.

(** An account has at most one actor in the cluster. *)
Lemma stable_unique c ia na jb nb :
  stable_inv c -> v_actor (cluster_view c) ia = Some na -> v_actor (cluster_view c) jb = Some nb ->
  actor_ids na = actor_ids nb -> ia = jb.
Proof.
  intros [_ _ Io Ir _ Id] Ha Hb Hids. destruct ia as [i a], jb as [j b]. simpl in Ha, Hb.
  destruct (c_nodes c !! i) as [ni|] eqn:Hi; [|done]. destruct (c_nodes c !! j) as [nj|] eqn:Hj; [|done]. simpl in Ha, Hb.
  assert (i = j) as <-.
  { apply Id; [by eauto..|]. apply (inj Some).
    rewrite <- (ow_actor_ids _ _ (Io _ _ Hi) _ _ Ha), <- (ow_actor_ids _ _ (Io _ _ Hj) _ _ Hb). by rewrite Hids. }
  rewrite Hi in Hj. injection Hj as <-. pose proof (Ir _ _ Hi _ _ Ha) as E1. pose proof (Ir _ _ Hi _ _ Hb) as E2.
  rewrite Hids in E1. congruence.
Qed.

Lemma stable_inv_step c c' : agrees -> stable_inv c -> stable_step c c' -> stable_inv c'.
Proof.
  intros Hag [Ii Ia Io Ir Is Id] [Hst Hag' Had Hstop Hbusy].
  assert (forall i n, c_nodes c !! i = Some n -> owned (myIP (cfgs i)) n /\ referenced n /\ settled n) as Hold
    by (intros; split_and!; eauto).
  assert (forall i n, c_nodes c' !! i = Some n -> owned (myIP (cfgs i)) n /\ referenced n /\ settled n) as Hall.
  { intros j nj Hj. pose proof (Hstop _ _ Hj) as Hrun.
    destruct Hst as [i n n' Hi Hp Hm|i n r Hi|i n stmt Hi Hin|i r Hi|i n Hi|w Hu]; simpl in *; eauto.
    - rewrite lookup_insert in Hj. case_decide; [|eauto]. injection Hj as <-. subst j.
      assert (owned (myIP (cfgs i)) (on_store (c_world c) n)) as Ho by (destruct (Io _ _ Hi); by constructor).
      assert (settled (on_store (c_world c) n)) as Hs by (destruct (Is _ _ Hi); by constructor).
      assert (node_inv (on_store (c_world c) n)) as N by by eapply node_inv_store, Ii.
      assert (has_agreed (on_store (c_world c) n)) as Hk by exact (Ia _ _ Hi).
      destruct (settled_step (cfgs i) (on_store (c_world c) n) n') as [Hs' Hrefs]; try done; [exact (Hbusy _ _ Hi)|].
      split_and!; [by eapply owned_step| |done]. eapply (referenced_step (cfgs i)); [exact N|exact (Ir _ _ Hi)|].
      split_and!; [exact Hp|exact Hrefs|by apply own_orderly].
    - rewrite lookup_insert in Hj. case_decide; [|eauto]. injection Hj as <-. subst j. destruct (Io _ _ Hi), (Is _ _ Hi).
      split_and!; [by constructor|exact (Ir _ _ Hi)|by constructor].
    - rewrite lookup_insert in Hj. case_decide; [|eauto]. injection Hj as <-.
      split_and!; [split; [intros a na|intros t h env]|intros a na|split; [intros a na|intros t h]]; simpl; by rewrite lookup_empty.
    - apply lookup_delete_Some in Hj as [_ Hj]. eauto. }
  constructor; [by eapply nodes_inv_step|done| | | |done]; intros i n Hi; by destruct (Hall i n Hi) as (? & ? & ?).
Qed.

(** A new actor is the first of its account. *)
Lemma stable_sole c c' :
  agrees -> stable_inv c -> stable_step c c' -> sole_writer (cluster_view c) (cluster_view c').
Proof.
  intros Hag I Hst [i a] na [j b] nb Hnone Ha Hb Hids. exfalso.
  pose proof (stable_inv_step _ _ Hag I Hst) as I'. destruct Hst as [Hst _ _ _ _].
  destruct Hst as [i0 n n' Hi Hp Hm|i0 n r Hi|i0 n stmt Hi Hin|i0 r Hi|i0 n Hi|w Hu].
  - rewrite set_node_actor in Ha. case_decide; [subst i0|congruence].
    rewrite (node_actor_at c i n a Hi) in Hnone.
    assert (hb_step (cfgs i) (on_store (c_world c) n) n') as Hhb.
    { destruct Hm as [Hs|Hs|Hs|Hs|Hs|Hs]; [done|exfalso..];
        rewrite (actor_no_new (on_store (c_world c) n) n' a) in Ha by auto 6; done. }
    destruct (hb_effects _ _ _ Hhb) as [[[Hk _] _|t u now b0 e [Hk _] _|k now b0 a1 _ E Hl _ _ Ereh] _].
    1,2: destruct (Hk _ _ Ha) as (na0 & Hna0 & _); simpl in Hna0; congruence.
    assert (actor_ids na = k) as Hk.
    { rewrite E, lookup_insert in Ha. case_decide; [|simpl in Ha; congruence]. injection Ha as <-.
      exact (rehydrate_ids _ _ _ _ _ _ Ereh). }
    assert (c_nodes (mkCluster (<[i := n']> (c_nodes c)) (n_world n') (c_sent c) (c_given c)) !! i = Some n') as Hi' by apply lookup_insert_eq.
    simpl in Hb. destruct (c_nodes c !! j) as [nj|] eqn:Hj; [|done]. simpl in Hb.
    assert (j = i) as ->.
    { apply (sv_address _ I); [by eauto..|]. apply (inj Some).
      rewrite <- (ow_actor_ids _ _ (sv_owned _ I _ _ Hj) _ _ Hb), Hids.
      apply (ow_actor_ids _ _ (sv_owned _ I' _ _ Hi') _ _ Ha). }
    rewrite Hi in Hj. injection Hj as <-. pose proof (sv_referenced _ I _ _ Hi _ _ Hb) as Href.
    rewrite Hids, Hk in Href. change (lookup_actor n k = None) in Hl. congruence.
  - rewrite set_node_actor in Ha. case_decide; [subst i0|congruence]. rewrite (node_actor_at c i n a Hi) in Hnone.
    simpl in Ha. congruence.
  - simpl in *. congruence.
  - rewrite set_node_actor in Ha. case_decide; [simpl in Ha; by rewrite lookup_empty in Ha|congruence].
  - simpl in *. rewrite lookup_delete in Ha. case_decide; [done|congruence].
  - simpl in *. congruence.
Qed.

Lemma stable_orderly (w : W) m c :
  agrees -> nsteps stable_step m (empty_cluster w) c ->
  nsteps (orderly_cluster_step cfgs) m (empty_cluster w) c /\ stable_inv c.
Proof.
  intros Hag. revert c. induction m as [|m IH]; intros c Hs.
  - inversion Hs; subst. split; [constructor|].
    constructor; [intros i n|intros i n|intros i n|intros i n|intros i n|intros i j [n Hn]]; simpl in *; rewrite ?lookup_empty in *; done.
  - apply nsteps_inv_r in Hs as (c1 & Hs & Hst). destruct (IH _ Hs) as [Ho I].
    split; [|by eapply stable_inv_step]. eapply nsteps_r; [done|]. split; [by destruct Hst|by apply stable_sole].
Qed.
End Ownership.

(** ** Theorems *)

Section Theorems.
Context {W R Er : Type} `{WalletDB W} `{TopologyResolver R Er} (cfgs : nat -> Config).

(** C6: the cluster keeps the ledgers.  Processes boot, crash and see the topology change in
    any order, on a store in which every account has a consistent history; as long as
    a process creates an actor only when the earlier actors of the account have ended,
    in whatever process, every history stays gap-free, never negative and only grows
    (up to one row per account whose write was reported as failed), and every success
    that any process sent, before a crash too, is of a transaction in that history. *)
Theorem cluster_keeps_ledgers (w : W) m0 m log0 (c : cluster W R) :
  (forall k : ActorKey, ledger_of (db w) k.1 k.2 (log0 k) /\ (length (log0 k) <= m0)%nat) ->
  nsteps (orderly_cluster_step cfgs) m (empty_cluster w) c -> Z.of_nat (m0 + m) < 2 ^ 63 - 1 ->
  forall k : ActorKey, exists log ph : list wallet_event,
    log0 k `prefix_of` log /\
    rows_of (db (c_world c)) k.1 k.2 = numbered 0 (log ++ ph) /\ (length ph <= 1)%nat /\
    good_log (log ++ ph) /\ snapshot_ok (db (c_world c)) k.1 k.2 log /\
    forall x, replied c x -> ResSuccess x = true -> (ResTenantId x, ResUid x) = k -> ResTxId x ∈ tx_id <$> log.
Proof.
  intros Hl Hs Hm k. destruct (cluster_ledger_steps cfgs w m0 m log0 c Hl Hs Hm) as [I _].
  destruct (ledger_facts _ _ _ k I) as (log & ph & Hpre & Hr & Hph & Hg & Hsn & Hres). exists log, ph.
  split_and!; try done. intros x [(i & n & s & resp & Hi & Hin & Hx)|(s & resp & Hin & Hx)] Hok Hk; apply Hres; try done.
  - left. exists i, n. split; [done|]. by eapply ca_sent.
  - right. by exists s, resp.
Qed.

(** C13: the cluster has one writer per account.  While the resolvers of all processes
    give the same answers, the processes that run have different addresses, none shuts
    down and no sweep of passivation finds an idle actor, processes may boot and crash,
    resolvers be replaced, and batches arrive on any streams in any order, for any
    accounts: an account has at most one actor in the whole cluster, on the node whose
    address is its owner; that actor runs and is the one its shard names; and the run
    satisfies the one-writer condition under which histories are kept. *)
Theorem cluster_single_writer (own : Z -> Z -> option string) (agreed : R -> Prop) (w : W) m (c : cluster W R) :
  agrees own agreed -> nsteps (stable_step cfgs agreed) m (empty_cluster w) c ->
  nsteps (orderly_cluster_step cfgs) m (empty_cluster w) c /\
  (forall i n a na, c_nodes c !! i = Some n -> n_actors n !! a = Some na ->
     own (tenantID (na_biz na)) (uid (na_biz na)) = Some (myIP (cfgs i)) /\
     na_status na = statusRunning /\ lookup_actor n (actor_ids na) = Some a) /\
  (forall i n a na j n' b nb, c_nodes c !! i = Some n -> n_actors n !! a = Some na ->
     c_nodes c !! j = Some n' -> n_actors n' !! b = Some nb -> actor_ids na = actor_ids nb -> i = j /\ a = b).
Proof.
  intros Hag Hs. destruct (stable_orderly cfgs own agreed w m c Hag Hs) as [Ho I]. split_and!; [done|..].
  - intros i n a na Hi Ha. split_and!; [exact (ow_actor_ids _ _ _ (sv_owned _ _ _ _ I _ _ Hi) _ _ Ha)|
      exact (se_running _ (sv_settled _ _ _ _ I _ _ Hi) _ _ Ha)|exact (sv_referenced _ _ _ _ I _ _ Hi _ _ Ha)].
  - intros i n a na j n' b nb Hi Ha Hj Hb Hids.
    assert ((i, a) = (j, b)) as [= -> ->]; [|done].
    apply (stable_unique cfgs own agreed c (i, a) na (j, b) nb I); [by rewrite (node_actor_at c i n)|by rewrite (node_actor_at c j n')|done].
Qed.
End Theorems.

(** ** Resolvers that agree *)

(** The resolvers of processes whose last answer of etcd shows the same members. *)
Lemma etcd_agrees (prefix : string) (ips : list string) :
  ips <> [] -> "" ∉ ips -> agrees (owner_of ips) (sees prefix ips).
Proof.
  intros Hne Haddr r t u Hs. destruct (sees_owner prefix ips r t u Hne Haddr Hs) as (ip & Ho & _ & Hg).
  exists r, (Ok ip). split_and!; [|done|].
  - cbn [tr_GetNodeIP EtcdResolver_TopologyResolver]. by rewrite Hg.
  - intros ip'. rewrite Ho. split; congruence.
Qed.

(** With pkg/discovery as the resolver: while all processes see the same members, an
    account has at most one actor in the cluster, on its owner among the members. *)
Theorem etcd_single_writer {W} `{WalletDB W} (cfgs : nat -> Config) (prefix : string) (ips : list string) (w : W) m c :
  ips <> [] -> "" ∉ ips -> nsteps (stable_step cfgs (sees prefix ips)) m (empty_cluster w) c ->
  nsteps (orderly_cluster_step cfgs) m (empty_cluster w) c /\
  forall i n a na, c_nodes c !! i = Some n -> n_actors n !! a = Some na ->
    owner_of ips (tenantID (na_biz na)) (uid (na_biz na)) = Some (myIP (cfgs i)).
Proof.
  intros Hne Haddr Hs.
  destruct (stable_orderly cfgs _ _ w m c (etcd_agrees prefix ips Hne Haddr) Hs) as [Ho I]. split; [done|].
  intros i n a na Hi Ha. exact (ow_actor_ids _ _ _ (sv_owned _ _ _ _ I _ _ Hi) _ _ Ha).
Qed.

(** ** Nodes that join *)

Section Join.
Context {W R Er : Type} `{WalletDB W} `{TopologyResolver R Er} (cfgs : nat -> Config).
Context (own : Z -> Z -> option string) (agreed : R -> Prop).
Implicit Types (n : node W R) (c : cluster W R).

Lemma own_agreed cfg n n' : agrees own agreed -> has_agreed agreed n -> own_move cfg n n' -> has_agreed agreed n'.
Proof.
  intros Hag (r & Hr & Hok) Hm. assert (n_resolver n' = n_resolver n -> has_agreed agreed n') as Hsame.
  { intros E. exists r. by rewrite E. }
  assert (forall ip env r' v, check_envelope (n_resolver n) ip env = Some (r', v) -> exists r1, r' = Some r1 /\ agreed r1) as Hck.
  { intros ip env r' v. unfold check_envelope. rewrite Hr. case_match; [intros [= <- _]; eauto|].
    destruct (Hag r (EnvTenantId env) (EnvUid env) Hok) as (r1 & [o|e] & -> & Hr1 & _); simpl; intros [= <- _]; eauto. }
  destruct Hm as [Hs|Hs|Hs|Hs|Hs|Hs]; try (apply Hsame; by destruct Hs).
  destruct Hs; try (by apply Hsame); try (by eapply Hck); cbv zeta; case_decide; by apply Hsame.
Qed.

(** A node that works: it has an agreed resolver, and neither stops nor sweeps. *)
Definition at_work n : Prop := has_agreed agreed n /\ n_stop n = StNone /\ n_pass n = PassSelect.
(** Every other node of the cluster works, at another address than [i]. *)
Definition room_for c (i : nat) : Prop :=
  (forall j n, c_nodes c !! j = Some n -> at_work n) /\
  forall j k, j = i \/ is_Some (c_nodes c !! j) -> k = i \/ is_Some (c_nodes c !! k) ->
    myIP (cfgs j) = myIP (cfgs k) -> j = k.

Definition with_node c (i : nat) n : cluster W R :=
  mkCluster (<[i := n]> (c_nodes c)) (n_world n) (c_sent c) (c_given c).

Lemma with_node_stable c c' i n :
  room_for c i -> (forall j nj, c_nodes c' !! j = Some nj -> n_pass nj = PassSelect) -> at_work n ->
  cluster_step cfgs c' (with_node c i n) -> stable_step cfgs agreed c' (with_node c i n).
Proof.
  intros [Hw Had] Hpass Hn Hst. assert (forall j nj, c_nodes (with_node c i n) !! j = Some nj -> at_work nj) as Hall.
  { intros j nj. simpl. rewrite lookup_insert. case_decide; [congruence|apply Hw]. }
  assert (forall j, is_Some (c_nodes (with_node c i n) !! j) -> j = i \/ is_Some (c_nodes c !! j)) as Hdom.
  { intros j. simpl. rewrite lookup_insert. case_decide; auto. }
  constructor; [done|intros j nj Hj; by apply (Hall j nj)|auto|intros j nj Hj; by apply (Hall j nj)|].
  intros j nj Hj k now a. by rewrite (Hpass _ _ Hj).
Qed.

(** A node works while the others stand still. *)
Lemma node_works c i n n' :
  agrees own agreed -> room_for c i -> at_work n -> own_steady (cfgs i) n n' ->
  stable_step cfgs agreed (with_node c i n) (with_node c i n') /\ at_work n'.
Proof.
  intros Hag Hroom Hn (Hp & Hstop & Hpass & _ & Hm). pose proof Hroom as [Hw _].
  assert (at_work n') as Hn' by (split_and!; [eapply own_agreed; [done|apply Hn|done]|done|done]). split; [|done].
  apply with_node_stable; [done| |done|].
  - intros j nj. simpl. rewrite lookup_insert. case_decide; [intros [= <-]; apply Hn|intros Hj; by apply (Hw j nj)].
  - pose proof (cl_node cfgs (with_node c i n) i n n') as Hst. unfold with_node in Hst. simpl in Hst.
    rewrite insert_insert_eq in Hst. apply Hst; [apply lookup_insert_eq|done|]. by destruct n.
Qed.

Lemma node_joins c i r m n :
  agrees own agreed -> room_for c i -> c_nodes c !! i = None -> agreed r ->
  nsteps (own_steady (cfgs i)) m (NewNode (c_world c) (Some r)) n ->
  nsteps (stable_step cfgs agreed) (S m) c (with_node c i n) /\ at_work n.
Proof.
  intros Hag Hroom Hi Hr. pose proof Hroom as [Hw _]. revert n. induction m as [|m IH]; intros n Hs.
  - inversion Hs; subst. assert (at_work (NewNode (c_world c) (Some r))) as Hn by (split_and!; [by exists r|done..]).
    split; [|done]. apply nsteps_once. apply with_node_stable; [done|by intros; apply (Hw j nj)|done|]. by apply cl_boot.
  - apply nsteps_inv_r in Hs as (n1 & Hs & Hst). destruct (IH _ Hs) as [Hrun Hn1].
    destruct (node_works c i n1 n Hag Hroom Hn1 Hst) as [Hc Hn]. split; [|done]. by eapply nsteps_r.
Qed.

(** The first node of a cluster. *)
Lemma empty_room (w : W) i : room_for (empty_cluster w) i.
Proof.
  split.
  - intros j nj. simpl. by rewrite lookup_empty.
  - intros j k [->|[x Hj]] [->|[y Hk]]; simpl in *; [done|..]; by rewrite lookup_empty in *.
Qed.

Lemma first_node (w : W) r m n :
  agrees own agreed -> agreed r -> nsteps (own_steady (cfgs 0%nat)) m (NewNode w (Some r)) n ->
  nsteps (stable_step cfgs agreed) (S m) (empty_cluster w) (mkCluster {[0%nat := n]} (n_world n) [] []) /\ at_work n.
Proof.
  intros Hag Hr Hs. by apply (node_joins (empty_cluster w) 0 r m n); [|apply empty_room|..].
Qed.
End Join.

(** ** Witnesses *)

Definition demo_owner (t u : Z) : option string := routes demo_resolver !! (t, u).
Definition demo_agreed (r : MockResolver) : Prop := routes r = routes demo_resolver /\ forcedErr r = None.

Lemma demo_agrees : agrees demo_owner demo_agreed.
Proof.
  intros r t u [Hr He]. unfold demo_owner. rewrite <- Hr. cbn [tr_GetNodeIP MockResolver_TopologyResolver].
  unfold MockResolver_GetNodeIP. rewrite He.
  destruct (routes r !! (t, u)) as [o|]; (eexists _, _; split_and!; [reflexivity|by split|]); intros ip; split; congruence.
Qed.

(** The node of the demo run, booted in an empty cluster. *)
Lemma demo_cluster (cfgs : nat -> Config) :
  cfgs 0%nat = demo_cfg -> exists n r,
    nsteps (stable_step cfgs demo_agreed) 13 (empty_cluster demo_store) (mkCluster {[0%nat := n]} (n_world n) [] []) /\
    at_work demo_agreed n /\ n_sent n = [(5%nat, mkBatchResponse [r])] /\ ResSuccess r = true /\
    (ResTenantId r, ResUid r, ResTxId r) = (1, 7, "tx-1").
Proof.
  intros Hcfg. destruct demo_own as (n & r & Hs & _ & Hsent & Hok & _ & Hid & _). rewrite <- Hcfg in Hs. exists n, r.
  destruct (first_node cfgs demo_owner demo_agreed demo_store demo_resolver 12 n) as [Hrun Hw]; try done. by apply demo_agrees.
Qed.

(** Two nodes: the demo node, and one at another address. *)
Definition pair_cfgs (i : nat) : Config := if decide (i = 0%nat) then demo_cfg else mkConfig "10.0.0.2:9000" 0.

(** The second node is given a request for the account of the first, and turns it away. *)
Lemma stranger_turned_away (w : CassandraStore MemSession) :
  exists n, nsteps (own_steady (R := MockResolver) (pair_cfgs 1)) 5 (NewNode w (Some demo_resolver)) n /\
    n_sent n = [(6%nat, mkBatchResponse [wrong_node (demo_tx "tx-2" 50)])] /\ n_actors n = ∅.
Proof.
  eexists. split.
  { eapply nsteps_step_eq; [eapply own_keep; [reflexivity|..|apply ow_hb, (hb_call _ _ 0 6 [Some (demo_tx "tx-2" 50)] 0); [done|go_decide]
      |left; reflexivity]; [> reflexivity..]|evaluate_state|].
    steady_own ltac:(apply ow_hb; eapply (hb_reject _ _ 0); [vm_compute; reflexivity..|by right]).
    steady_own ltac:(apply ow_hb; eapply (hb_push _ _ 0); [vm_compute; reflexivity|unfold has_room, resultChCap; cbn; lia]).
    steady_own ltac:(apply ow_agg; eapply agg_recv; [reflexivity|vm_compute; reflexivity|unfold maxBatchSize; cbn; lia]).
    steady_own ltac:(apply ow_agg; eapply agg_tick; reflexivity).
    apply nsteps_O. }
  by repeat (split; [vm_compute; reflexivity|]).
Qed.

Lemma pair_cluster :
  exists (c : cluster (CassandraStore MemSession) MockResolver) n1,
    nsteps (stable_step pair_cfgs demo_agreed) 19 (empty_cluster demo_store) c /\
    is_Some (c_nodes c !! 0%nat) /\ c_nodes c !! 1%nat = Some n1 /\
    n_sent n1 = [(6%nat, mkBatchResponse [wrong_node (demo_tx "tx-2" 50)])].
Proof.
  destruct (demo_cluster pair_cfgs eq_refl) as (n & r & Hs & Hw & _). set (c := mkCluster _ _ _ _) in Hs.
  destruct (stranger_turned_away (c_world c)) as (n1 & Hs1 & Hsent & _). exists (with_node c 1 n1), n1.
  assert (forall j nj, c_nodes c !! j = Some nj -> j = 0%nat /\ nj = n) as Hone
    by (intros j nj Hj; simpl in Hj; by apply lookup_singleton_Some in Hj as [<- <-]).
  split_and!; [|by exists n|apply lookup_insert_eq|done].
  change 19%nat with (13 + 6)%nat. eapply nsteps_trans; [exact Hs|].
  refine (proj1 (node_joins pair_cfgs demo_owner demo_agreed c 1 demo_resolver 5 n1 demo_agrees _ _ _ Hs1)); [|done|done].
  split; [by intros j nj [_ ->]%Hone|].
  intros j k [->|[x [-> _]%Hone]] [->|[y [-> _]%Hone]]; done.
Qed.

Lemma cluster_keeps_ledgers_witness :
  exists (c : cluster (CassandraStore MemSession) MockResolver) r log,
    replied c r /\ ResSuccess r = true /\ rows_of (db (c_world c)) 1 7 = numbered 0 log /\ "tx-1" ∈ tx_id <$> log.
Proof.
  destruct (demo_cluster (fun _ => demo_cfg) eq_refl) as (n & r & Hs & _ & Hsent & Hok & Hid). injection Hid as HT HU Htx.
  set (c := mkCluster _ _ _ _) in Hs. assert (c_nodes c !! 0%nat = Some n) as Hn by apply lookup_singleton_eq.
  destruct (stable_orderly _ _ _ _ _ _ demo_agrees Hs) as [Ho _].
  assert (replied c r) as Hrep by (left; exists 0%nat, n, 5%nat, (mkBatchResponse [r]); rewrite Hsent; split_and!; [done|by left|by left]).
  destruct (cluster_keeps_ledgers (fun _ => demo_cfg) demo_store 0 13 (fun _ => []) c) with (k := (1, 7))
    as (log & ph & _ & Hrows & _ & _ & _ & Hsucc).
  - intros k. split; [apply empty_ledger|apply Nat.le_refl].
  - exact Ho.
  - reflexivity.
  - exists c, r, (log ++ ph). split_and!; try done. rewrite fmap_app. apply elem_of_app. left. rewrite <- Htx.
    apply (Hsucc r); [done|done|congruence].
Defined.

Lemma cluster_single_writer_witness :
  exists (c : cluster (CassandraStore MemSession) MockResolver) n0 n1,
    c_nodes c !! 0%nat = Some n0 /\ c_nodes c !! 1%nat = Some n1 /\
    n_sent n1 = [(6%nat, mkBatchResponse [wrong_node (demo_tx "tx-2" 50)])] /\
    nsteps (orderly_cluster_step pair_cfgs) 19 (empty_cluster demo_store) c /\
    forall a na b nb, n_actors n0 !! a = Some na -> n_actors n1 !! b = Some nb -> actor_ids na <> actor_ids nb.
Proof.
  destruct pair_cluster as (c & n1 & Hs & [n0 H0] & H1 & Hsent). exists c, n0, n1. split_and!; try assumption.
  - exact (proj1 (cluster_single_writer pair_cfgs demo_owner demo_agreed demo_store 19 c demo_agrees Hs)).
  - intros a na b nb Ha Hb E.
    destruct (cluster_single_writer pair_cfgs demo_owner demo_agreed demo_store 19 c demo_agrees Hs) as (_ & _ & Hu).
    destruct (Hu _ _ _ _ _ _ _ _ H0 Ha H1 Hb E) as [Hi _]. discriminate Hi.
Defined.
