(* ===== verification/Origin.v ===== *)
(** * Where rows and results come from

    Every row that the nodes of a cluster write, and every success they send, is of an
    envelope that some stream submitted: the row has its transaction id and its amount,
    the success its ids.  Stated of what [LedgerView] sees, for any property [P] that
    the submitted envelopes have; [System] uses it with "a client sent it". *)

From S2P Require Import Prelude Wire Routing Discovery Mailbox Store Wallet WalletSpec WalletSystem Node NodeInv LedgerView NodeLedger ClusterLedger.

(** The event of a row is the transaction of an envelope. *)
Definition books (env : RemoteEnvelope) (k : ActorKey) (e : wallet_event) : Prop :=
  actor_key env = k /\ tx_of e = (EnvTxId env, amount_of env).

(** The result is about the request of an envelope. *)
Definition answers_env (env : RemoteEnvelope) (r : RemoteResult) : Prop :=
  res_key r = env_key env /\ ResTxId r = EnvTxId env.

(** ** One call of Handle *)

Lemma upsert_elem v e p x : x ∈ upsert v e p -> x ∈ p \/ x = (v, e).
Proof.
  induction p as [|[v' e'] p IH]; simpl.
  - rewrite list_elem_of_singleton. by right.
  - repeat case_decide; rewrite !elem_of_cons; naive_solver.
Qed.

Section Handle.
Context {W : Type} `{WalletDB W}.

(** An INSERT of an event adds its row to its account or replaces one there. *)
Lemma put_event_rows t u v e d (k : ActorKey) x :
  x ∈ rows_of (put_event t u v e d) k.1 k.2 -> x ∈ rows_of d k.1 k.2 \/ (k = (t, u) /\ x = (v, e)).
Proof.
  unfold rows_of at 1, put_event. simpl. rewrite lookup_insert. case_decide as Hk; [|by left].
  simpl. intros [Hx|Hx]%upsert_elem; [left|right].
  - injection Hk as Ht Hu. by rewrite <- Ht, <- Hu.
  - split; [destruct k; simpl in *; congruence|done].
Qed.

(** A call of Handle inserts at most one event, of its envelope, and only starts snapshots. *)
Lemma Handle_writes now (w : W) b env h :
  Handle now w b env = Some h ->
  (db (h_world h) = db w \/
   exists ver e, db (h_world h) = put_event (tenantID b) (uid b) ver e (db w) /\ tx_of e = (EnvTxId env, amount_of env)) /\
  forall stmt, stmt ∈ h_spawned h -> exists (k : ActorKey) bal ver, stmt = snapshot_stmt k.1 k.2 bal ver.
Proof.
  assert (forall h0, h_world h0 = w -> h_spawned h0 = [] -> Some h0 = Some h ->
    (db (h_world h) = db w \/
     exists ver e, db (h_world h) = put_event (tenantID b) (uid b) ver e (db w) /\ tx_of e = (EnvTxId env, amount_of env)) /\
    forall stmt, stmt ∈ h_spawned h -> exists (k : ActorKey) bal ver, stmt = snapshot_stmt k.1 k.2 bal ver) as Hno.
  { intros h0 Hw Hs [= <-]. rewrite Hw, Hs. split; [by left|]. by intros stmt ?%not_elem_of_nil. }
  unfold Handle. case_decide; [by apply Hno|]. case_decide as Hp; [by apply Hno|].
  destruct (BigEndian_Uint64 (EnvPayload env)) as [raw|] eqn:Eraw; [|done]. cbn [mbind option_bind].
  case_decide; [by apply Hno|]. unfold commit_tx. destruct (ExecuteBatch w _ _) as [w' err] eqn:Ex.
  apply (db_insert _ _ _ _ _ _ (ins_event _ _ _ _)) in Ex. intros Hh.
  assert (h_world h = w' /\ forall stmt, stmt ∈ h_spawned h -> exists (k : ActorKey) bal ver, stmt = snapshot_stmt k.1 k.2 bal ver)
    as [-> Hs].
  { destruct err; [injection Hh as <-; split; [done|by intros stmt ?%not_elem_of_nil]|].
    destruct (addTxID _ _) as [b1|]; [|done]. injection Hh as <-. split; [done|]. simpl. intros stmt.
    case_bool_decide; [|by intros ?%not_elem_of_nil]. intros ->%list_elem_of_singleton.
    by eexists (_, _), _, _. }
  split; [|done]. destruct Ex as [->|[-> _]]; [right|by left]. eexists _, _. split; [reflexivity|].
  unfold tx_of, amount_of. by rewrite Eraw.
Qed.

Lemma Handle_rows now (w : W) b env h (k : ActorKey) ver e :
  Handle now w b env = Some h -> (ver, e) ∈ rows_of (db (h_world h)) k.1 k.2 ->
  (ver, e) ∈ rows_of (db w) k.1 k.2 \/ (k = (tenantID b, uid b) /\ tx_of e = (EnvTxId env, amount_of env)).
Proof.
  intros [[->|(ver' & e' & -> & Ht)] _]%Handle_writes; [by left|].
  intros [Hx|[-> [= _ ->]]]%put_event_rows; [by left|by right].
Qed.

Lemma Handle_answers now (w : W) b env h :
  Handle now w b env = Some h -> actor_key env = (tenantID b, uid b) ->
  answers_env env (completeResult (h_result h) env).
Proof.
  intros (HT & HU & Htx & Hrq & _)%handle_identity [= Et Eu]. unfold answers_env, res_key, env_key, completeResult.
  simpl. rewrite HT, HU, Htx, Hrq, Et, Eu. split; repeat case_decide; congruence.
Qed.
End Handle.

(** ** Views *)

Section Views.
Context {W K : Type} `{WalletDB W} `{EqDecision K} (P : RemoteEnvelope -> Prop) (d0 : tables).
Implicit Types v : view W K.

(** Rows that were not in [d0], envelopes in mailboxes and successes come from [P]. *)
Record traced v : Prop := {
  tr_rows (k : ActorKey) ver e : (ver, e) ∈ rows_of (db (v_world v)) k.1 k.2 ->
    (ver, e) ∈ rows_of d0 k.1 k.2 \/ exists env, P env /\ books env k e;
  tr_mail a na env : v_actor v a = Some na -> env ∈ na_mailbox na -> P env;
  tr_result r : v_carries v r -> ResSuccess r = true -> exists env, P env /\ answers_env env r;
}.

Lemma traced_quiet v v' :
  traced v -> undisturbed (db (v_world v)) (db (v_world v')) -> no_new_result v v' ->
  (forall a na env, v_actor v' a = Some na -> env ∈ na_mailbox na -> P env) -> traced v'.
Proof.
  intros [Ir _ Ic] Hu Hn Hm. constructor; [|done|by eauto].
  intros k ver e. destruct (Hu k) as [-> _]. apply Ir.
Qed.

Lemma traced_effect v v' :
  traced v -> (forall stmt, stmt ∈ v_goroutines v -> exists (k : ActorKey) b ver, stmt = snapshot_stmt k.1 k.2 b ver) ->
  effect v v' -> (forall a na env, v_actor v' a = Some na -> env ∈ na_mailbox na -> P env) -> traced v'.
Proof.
  intros I Hs Hef Hm. pose proof I as [Ir Im Ic].
  destruct Hef as [Hk Hu Hg Hc|k now b a Hnone Hset E Hg Hc|a na na' env now h Ha Hpc Hmail Henv E Hset Hbiz Hw Hg Hc
    |stmt Hin Ha Hw Hg Hc|Ha Hw Hg Hc].
  - by eapply traced_quiet.
  - eapply traced_quiet; try done. by eapply undisturbed_eq, rehydrate_db.
  - assert (P env) as Hp by eauto. constructor; [|done|].
    + intros k ver e. rewrite Hw. intros [Hx|[-> Hx]]%(Handle_rows _ _ _ _ _ k _ _ E); [by apply Ir|].
      right. exists env. split; [done|]. by split.
    + intros r Hr Hok. destruct (Hc r Hr Hok) as [| ->]; [by apply Ic|]. exists env. split; [done|].
      by eapply Handle_answers.
  - destruct (Hs _ Hin) as (k & b & ver & ->). destruct (ExecuteBatch _ _ _) as [w' err] eqn:Ex. simpl in Hw.
    apply (db_insert _ _ _ _ _ _ (ins_snapshot _ _ _ _)) in Ex. constructor; [|done|by eauto].
    intros k' ver' e. rewrite Hw. destruct Ex as [->|[-> _]]; apply Ir.
  - eapply traced_quiet; try done. by rewrite Hw.
Qed.
End Views.

Lemma traced_mono {W K} `{WalletDB W} (P Q : RemoteEnvelope -> Prop) d0 (v : view W K) :
  (forall env, P env -> Q env) -> traced P d0 v -> traced Q d0 v.
Proof.
  intros HPQ [Ir Im Ic]. constructor; [|by eauto|].
  - intros k ver e [|(env & Hp & Hb)]%Ir; [by left|right; eauto].
  - intros r Hr Hok. destruct (Ic r Hr Hok) as (env & Hp & Ha). eauto.
Qed.

(** ** Nodes *)

Section Nodes.
Context {W R Er : Type} `{WalletDB W} `{TopologyResolver R Er} (cfg : Config).
Implicit Types n : node W R.

Definition in_mailbox n (env : RemoteEnvelope) : Prop :=
  exists a na, n_actors n !! a = Some na /\ env ∈ na_mailbox na.

Definition submitted n (env : RemoteEnvelope) : Prop := exists s, (s, env) ∈ n_submitted n.

Lemma set_mailbox n a na' env :
  (forall e, e ∈ na_mailbox na' -> in_mailbox n e \/ submitted n e) ->
  (exists b nb, <[a := na']> (n_actors n) !! b = Some nb /\ env ∈ na_mailbox nb) -> in_mailbox n env \/ submitted n env.
Proof.
  intros Hm (b & nb & Hb & He). rewrite lookup_insert in Hb. case_decide; [simplify_eq; auto|].
  left. by exists b, nb.
Qed.

Lemma stop_mailbox n ids env : in_mailbox (stop_actors ids n) env -> in_mailbox n env.
Proof.
  intros (a & na' & (na & Ha & [-> | ->])%stop_actors_lookup & He); exists a, na; split; try done.
  revert He. unfold stop_actor. by case_match.
Qed.

(** What is in a mailbox was there before or has been submitted. *)
Lemma own_mailbox n n' env : node_inv n -> own_move cfg n n' -> in_mailbox n' env -> in_mailbox n env \/ submitted n env.
Proof.
  intros N Hm.
  assert (forall a na na', n_actors n !! a = Some na -> n_actors n' = <[a := na']> (n_actors n) ->
    na_mailbox na' ⊆ na_mailbox na -> in_mailbox n' env -> in_mailbox n env \/ submitted n env) as Hset.
  { intros a na na' Ha E Hsub Hin. unfold in_mailbox in Hin. rewrite E in Hin. revert Hin. apply set_mailbox.
    intros e He. left. exists a, na. auto. }
  assert (n_actors n' = n_actors n -> in_mailbox n' env -> in_mailbox n env \/ submitted n env) as Hsame.
  { unfold in_mailbox. intros ->. by left. }
  assert (forall ids, n_actors n' = n_actors (stop_actors ids n) -> in_mailbox n' env -> in_mailbox n env \/ submitted n env) as Hstop.
  { intros ids E Hin. left. apply (stop_mailbox n ids). unfold in_mailbox in *. by rewrite <- E. }
  destruct Hm as [Hs|Hs|Hs|Hs|Hs|Hs].
  - destruct Hs as
      [t s envs pending Ht Hp|t s rest Ht|t s e rest Ht|t s over Ht Ho|t s rest over q Ht Hroom
      |t s rest Ht|t s e rest Ht E|t s e rest r' Ht E|t s e rest r' kill r0 Ht E Hl
      |t s e rest r' r0 a Ht E Hl|t s rest a q g Ht Hg|t s e rest Ht|t s e rest a Ht Hl
      |t s e rest now w' b a Ht Hl E Ha|t s e rest now w' b er Ht Hl E|t s e rest now Ht E
      |t s e rest a Ht|t s e rest a na Ht Hna|t s e rest a na Ht Hna|t s e rest a Ht|t s e rest a Ht];
      try (by apply Hsame); [by apply (Hstop [a])|..].
    + refine (set_mailbox n a _ env _). by intros ? ?%not_elem_of_nil.
    + refine (set_mailbox n a _ env _). simpl. intros e' [He|He]%elem_of_app; [left; by exists a, na|right].
      apply list_elem_of_singleton in He as ->. destruct (hb_tail _ _ _ _ _ N Ht) as [_ [Hsub _]]. by exists s.
    + cbv zeta. case_decide; by apply Hsame.
  - destruct Hs as [a na e rest now h Hna Hpc Hm' E|a na e rest now Hna Hpc Hm' E|a na Hna Hpc Hm'|a na Hna Hpc Hs
      |a na Hna Hpc Hs|a na r0 Hna Hpc|a na q Hna Hpc Hroom]; try (by eapply (Hset a na)); [|by apply Hsame|].
    + eapply (Hset a na); [done|reflexivity|]. simpl. rewrite Hm'. by apply list_subseteq_cons.
    + eapply (Hset a na); [done|reflexivity|]. simpl. apply list_subseteq_nil.
  - destruct Hs; [|by apply Hsame..]. eapply Hset; [done|reflexivity|]. apply list_subseteq_nil.
  - destruct Hs; by apply Hsame.
  - destruct Hs; try (by apply Hsame). by eapply Hstop.
  - destruct Hs; try (by apply Hsame). by eapply Hstop.
Qed.
End Nodes.

(** ** Clusters *)

Section Clusters.
Context {W R Er : Type} `{WalletDB W} `{TopologyResolver R Er} (cfgs : nat -> Config).
Context (P : RemoteEnvelope -> Prop) (d0 : tables).
Implicit Types c : cluster W R.

Definition cluster_submitted c (env : RemoteEnvelope) : Prop :=
  exists i n, c_nodes c !! i = Some n /\ submitted n env.

Record cluster_traced c : Prop := {
  ct_view : traced P d0 (cluster_view c);
  ct_submitted env : cluster_submitted c env -> P env;
}.

Lemma cluster_mailbox c ia na env :
  v_actor (cluster_view c) ia = Some na -> env ∈ na_mailbox na ->
  exists n, c_nodes c !! ia.1 = Some n /\ in_mailbox n env.
Proof.
  simpl. destruct (c_nodes c !! ia.1) as [n|]; [|done]. simpl. intros Ha He. exists n. split; [done|]. by exists ia.2, na.
Qed.

Lemma traced_mailbox c i n env : cluster_traced c -> c_nodes c !! i = Some n -> in_mailbox n env -> P env.
Proof.
  intros [Iv _] Hi (a & na & Ha & He). apply (tr_mail _ _ _ Iv (i, a) na env); [|done].
  by rewrite (node_actor_at c i n a Hi).
Qed.

Lemma cluster_traced_step c c' :
  nodes_inv c -> cluster_traced c ->
  (forall stmt, stmt ∈ v_goroutines (cluster_view c) -> exists (k : ActorKey) b ver, stmt = snapshot_stmt k.1 k.2 b ver) ->
  cluster_step cfgs c c' -> (forall env, cluster_submitted c' env -> P env) -> cluster_traced c'.
Proof.
  intros N I Hg Hst Hsub. split; [|done].
  eapply traced_effect; [by destruct I|done|by eapply cluster_effect|].
  intros ia na env Ha He. destruct (cluster_mailbox _ _ _ _ Ha He) as (n & Hn & Hin). clear Ha He.
  destruct ia as [j a]. simpl in Hn.
  destruct Hst as [i n0 n' Hi Hp Hm|i n0 r Hi|i n0 stmt Hi Hs|i r Hi|i n0 Hi|w Hu]; simpl in Hn;
    try (by eapply traced_mailbox).
  - rewrite lookup_insert in Hn. case_decide; [|by eapply traced_mailbox]. injection Hn as <-.
    apply (own_mailbox _ _ _ _ (node_inv_store _ _ (N _ _ Hi)) Hm) in Hin as [Hin|Hin].
    + by eapply traced_mailbox.
    + apply (ct_submitted _ I). by exists i, n0.
  - rewrite lookup_insert in Hn. case_decide; [|by eapply traced_mailbox]. injection Hn as <-. by eapply traced_mailbox.
  - rewrite lookup_insert in Hn. case_decide; [|by eapply traced_mailbox]. injection Hn as <-.
    destruct Hin as (b & nb & Hb & _). simpl in Hb. by rewrite lookup_empty in Hb.
  - apply lookup_delete_Some in Hn as [_ Hn]. by eapply traced_mailbox.
Qed.
End Clusters.

Lemma cluster_traced_mono {W R} `{WalletDB W} (P Q : RemoteEnvelope -> Prop) d0 (c : cluster W R) :
  (forall env, P env -> Q env) -> cluster_traced P d0 c -> cluster_traced Q d0 c.
Proof. intros HPQ [Iv Is]. split; [by eapply traced_mono|by eauto]. Qed.
