(* ===== verification/Server.v ===== *)
(** * The gRPC transport: pkg/remote/server.go, pkg/remote/types.go

    One [StreamMessages] call: batches are received, checked and given to the
    injected [BatchHandler]; its error or the end of the stream ends the call.  The
    gRPC stream is the list of what [Recv] returns. *)

From S2P Require Import Prelude Wire.

(** ** Errors *)

Inductive code := codes_Unavailable | codes_InvalidArgument | codes_Canceled
  | codes_DeadlineExceeded | codes_Internal | codes_Other (c : Z).

(** The errors the code distinguishes: gRPC statuses, the two errors of package
    context, anything else. *)
Inductive go_error :=
  | Status (c : code) (msg : string)
  | context_Canceled
  | context_DeadlineExceeded
  | OtherError (msg : string).

#[export] Instance go_error_eq_decision : EqDecision go_error.
Proof. unfold EqDecision. intros. unfold Decision. repeat decide equality; apply _. Defined.

Definition normalizeHandlerError (err : option go_error) : option go_error :=
  match err with
  | None => None
  | Some (Status c m) => Some (Status c m)
  | Some context_Canceled => Some (Status codes_Canceled ErrTransportClosed)
  | Some context_DeadlineExceeded => Some (Status codes_DeadlineExceeded ErrDeadlineExceeded)
  | Some (OtherError _) => Some (Status codes_Internal ErrInternal)
  end.

(** ** The interfaces of types.go *)

(** [BatchHandler]: [H] is what the handler reads and writes. *)
Class BatchHandler (H : Type) := {
  HandleBatch : H -> BatchRequest -> H * option go_error;
}.

(** ** Server *)

Definition defaultMaxBatchSize : Z := 256.

Record Server := mkServer { MaxBatchSize : Z }.

(** [NewServer]; a nil handler panics, which the class rules out. *)
Definition NewServer (cfgMaxBatchSize : Z) : Server :=
  mkServer (if decide (cfgMaxBatchSize <= 0) then defaultMaxBatchSize else cfgMaxBatchSize).

(** What [stream.Recv] returns. *)
Inductive recv :=
  | RecvEOF
  | RecvErr (err : go_error)
  | RecvBatch (batch : option BatchRequest).

(** How a call ended: [Some None] is [return nil]; [None] is still receiving. *)
Abbreviation stream_end := (option (option go_error)).

Section Stream.
Context {H : Type} `{BatchHandler H} (s : Server).

Fixpoint StreamMessages (h : H) (events : list recv) : H * stream_end :=
  match events with
  | [] => (h, None)
  | RecvEOF :: _ => (h, Some None)
  | RecvErr _ :: _ => (h, Some (Some (Status codes_Unavailable ErrTransportClosed)))
  | RecvBatch None :: _ => (h, Some (Some (Status codes_InvalidArgument ErrBadRequest)))
  | RecvBatch (Some batch) :: rest =>
      if decide (MaxBatchSize s < Z.of_nat (length (Envelopes batch)))
      then (h, Some (Some (Status codes_InvalidArgument ErrBatchTooLarge)))
      else
        let '(h', err) := HandleBatch h batch in
        match err with
        | Some e => (h', Some (normalizeHandlerError (Some e)))
        | None => StreamMessages h' rest
        end
  end.
End Stream.

(** [streamBatchSender.SendBatchResponse]: [send] is [stream.Send]; the mutex makes
    the calls of several goroutines a sequence. *)
Definition SendBatchResponse {C} (send : C -> BatchResponse -> C * option go_error) (c : C)
    (resp : option BatchResponse) : C * option go_error :=
  match resp with
  | None => (c, Some (Status codes_InvalidArgument ErrBadRequest))
  | Some r =>
      let '(c', err) := send c r in
      (c', match err with Some _ => Some (Status codes_Unavailable ErrTransportClosed) | None => None end)
  end.

(** ** Specification *)

(** The batches a stream accepts: those before the first event that ends it. *)
Fixpoint accepted_batches (max : Z) (events : list recv) : list BatchRequest :=
  match events with
  | RecvBatch (Some b) :: rest =>
      if decide (max < Z.of_nat (length (Envelopes b))) then [] else b :: accepted_batches max rest
  | _ => []
  end.

(** [HandleBatch] on one batch after the other, up to the first error. *)
Fixpoint handle_batches {H} `{BatchHandler H} (h : H) (bs : list BatchRequest) : H * option go_error :=
  match bs with
  | [] => (h, None)
  | b :: rest =>
      match HandleBatch h b with
      | (h', Some e) => (h', Some e)
      | (h', None) => handle_batches h' rest
      end
  end.

(** What the first event that is not an accepted batch means. *)
Fixpoint ending (max : Z) (events : list recv) : stream_end :=
  match events with
  | [] => None
  | RecvEOF :: _ => Some None
  | RecvErr _ :: _ => Some (Some (Status codes_Unavailable ErrTransportClosed))
  | RecvBatch None :: _ => Some (Some (Status codes_InvalidArgument ErrBadRequest))
  | RecvBatch (Some b) :: rest =>
      if decide (max < Z.of_nat (length (Envelopes b)))
      then Some (Some (Status codes_InvalidArgument ErrBatchTooLarge)) else ending max rest
  end.

Lemma stream_spec {H} `{BatchHandler H} (s : Server) (h : H) events :
  StreamMessages s h events =
  match handle_batches h (accepted_batches (MaxBatchSize s) events) with
  | (h', Some e) => (h', Some (normalizeHandlerError (Some e)))
  | (h', None) => (h', ending (MaxBatchSize s) events)
  end.
Proof.
  revert h. induction events as [|[|err|[b|]] events IH]; intros h; simpl; try done.
  case_decide; [done|]. simpl. destruct (HandleBatch h b) as [h' [e|]]; [done|apply IH].
Qed.

Lemma accepted_batches_bounded max events :
  Forall (fun b => Z.of_nat (length (Envelopes b)) <= max) (accepted_batches max events).
Proof.
  induction events as [|[|err|[b|]] events IH]; simpl; try done.
  case_decide; constructor; [lia|done].
Qed.

Lemma ending_status max events e : ending max events = Some (Some e) -> exists c m, e = Status c m.
Proof.
  induction events as [|[|err|[b|]] events IH]; simpl; try (by intros E; injection E as <-; eauto); [done|done|].
  case_decide; [intros E; injection E as <-; eauto|done].
Qed.

Lemma ending_open max events : ending max events = None -> length (accepted_batches max events) = length events.
Proof.
  induction events as [|[|err|[b|]] events IH]; simpl; try done. case_decide; [done|]. simpl. intros E. by rewrite IH.
Qed.

(** C34: the transport.  The handler is given exactly the batches received before the
    stream ends, in order, each of at most [MaxBatchSize] envelopes, and none after
    it returned an error.  The call ends at the first event that is not such a batch,
    or at the first error of the handler, and goes on receiving only as long as there
    was neither: with nil at EOF, with UNAVAILABLE and ERR_TRANSPORT_CLOSED at any other
    error of Recv, with INVALID_ARGUMENT at a nil batch or one that is too large, and
    with the handler's error turned into a gRPC status. *)
Theorem StreamMessages_spec {H} `{BatchHandler H} (cfgMax : Z) (h : H) events :
  let s := NewServer cfgMax in
  let bs := accepted_batches (MaxBatchSize s) events in
  0 < MaxBatchSize s /\
  Forall (fun b => Z.of_nat (length (Envelopes b)) <= MaxBatchSize s) bs /\
  StreamMessages s h events =
    match handle_batches h bs with
    | (h', Some e) => (h', Some (normalizeHandlerError (Some e)))
    | (h', None) => (h', ending (MaxBatchSize s) events)
    end /\
  (forall h' e, StreamMessages s h events = (h', Some (Some e)) -> exists c m, e = Status c m) /\
  ((StreamMessages s h events).2 = None -> length bs = length events /\ (handle_batches h bs).2 = None).
Proof.
  intros s bs. split_and!.
  - unfold s, NewServer. simpl. case_decide; [done|lia].
  - apply accepted_batches_bounded.
  - apply stream_spec.
  - intros h' e. rewrite stream_spec. fold bs. destruct (handle_batches h bs) as [h1 [e1|]].
    + intros E. apply (f_equal snd) in E. destruct e1; simpl in E; injection E as <-; eauto.
    + intros E. by eapply ending_status, (f_equal snd E).
  - rewrite stream_spec. fold bs. destruct (handle_batches h bs) as [h1 [e1|]]; simpl; [done|].
    intros E. split; [by apply ending_open|done].
Qed.
