(* ===== verification/Callbacks.v ===== *)
(** * The callback map of the client: cmd/client/router.go, l. 16-97

    [ShardedCallbackMap]: 256 maps, each with its own lock, from request ids to the
    callers that wait for them, and a counter of the waiting requests.  Every
    operation holds the lock of one shard, so it is one step; [FailAll] takes the
    entries of a shard one by one while it holds its lock ([fail_entry]).  The
    theorem: any sequence of operations, with the iterations of [FailAll] anywhere in
    it, behaves as one flat map, and the counter is its size. *)

From S2P Require Import Prelude Wire Mailbox.

(** [callbackEntry]; a response channel is identified by the call that made it. *)
Record callbackEntry := mkCallback { startedAt : Z; respCh : option nat }.

#[export] Instance callbackEntry_eq_decision : EqDecision callbackEntry.
Proof. solve_decision. Defined.

Record ShardedCallbackMap := mkCallbackMap {
  cm_pending : Z;                              (* uint64 *)
  cm_shards : list (gmap Z callbackEntry);
}.

Definition NewShardedCallbackMap : ShardedCallbackMap := mkCallbackMap 0 (replicate 256 ∅).

(** [reqID % 256]. *)
Definition cm_ix (reqID : Z) : nat := Z.to_nat (reqID mod 256).

(** [s.m[reqID]] of the shard of [reqID]. *)
Definition cm_lookup (sm : ShardedCallbackMap) (reqID : Z) : option callbackEntry :=
  cm_shards sm !! cm_ix reqID ≫= lookup reqID.

(** [delete(s.m, reqID); sm.pending.Add(^uint64(0))] on shard [i]. *)
Definition cm_remove (i : nat) (reqID : Z) (sm : ShardedCallbackMap) : ShardedCallbackMap :=
  mkCallbackMap (decr (cm_pending sm)) (alter (delete reqID) i (cm_shards sm)).

Definition cm_Store (reqID : Z) (entry : callbackEntry) (sm : ShardedCallbackMap) : ShardedCallbackMap :=
  mkCallbackMap
    (match cm_lookup sm reqID with Some _ => cm_pending sm | None => incr (cm_pending sm) end)
    (alter <[reqID := entry]> (cm_ix reqID) (cm_shards sm)).

Definition cm_LoadAndDelete (reqID : Z) (sm : ShardedCallbackMap) :
    ShardedCallbackMap * option callbackEntry :=
  match cm_lookup sm reqID with
  | Some entry => (cm_remove (cm_ix reqID) reqID sm, Some entry)
  | None => (sm, None)
  end.

Definition cm_Delete (reqID : Z) (sm : ShardedCallbackMap) : ShardedCallbackMap :=
  match cm_lookup sm reqID with
  | Some _ => cm_remove (cm_ix reqID) reqID sm
  | None => sm
  end.

(** One iteration of the loop of [FailAll] over shard [i]. *)
Definition fail_entry (i : nat) (reqID : Z) (sm : ShardedCallbackMap) :
    option (ShardedCallbackMap * callbackEntry) :=
  entry ← cm_shards sm !! i ≫= lookup reqID;
  Some (cm_remove i reqID sm, entry).

Definition cm_Pending (sm : ShardedCallbackMap) : Z := cm_pending sm.

(** ** The flat map *)

(** [sm] is the flat map [f]. *)
Record cm_rep (sm : ShardedCallbackMap) (f : gmap Z callbackEntry) : Prop := {
  cr_length : length (cm_shards sm) = 256%nat;
  cr_home i sh k e : cm_shards sm !! i = Some sh -> sh !! k = Some e -> i = cm_ix k;
  cr_lookup k : cm_lookup sm k = f !! k;
  cr_pending : cm_pending sm = u64 (Z.of_nat (size f));
}.

Lemma cm_ix_lt k : (cm_ix k < 256)%nat.
Proof. unfold cm_ix. pose proof (Z.mod_pos_bound k 256 ltac:(lia)). lia. Qed.

Lemma cm_shard_some sm k : length (cm_shards sm) = 256%nat -> exists sh, cm_shards sm !! cm_ix k = Some sh.
Proof. intros Hl. apply lookup_lt_is_Some_2. rewrite Hl. apply cm_ix_lt. Qed.

(** An update of the shard of [k] at [k] only. *)
Lemma cm_rep_alter sm f (g : gmap Z callbackEntry -> gmap Z callbackEntry) k p f' :
  cm_rep sm f -> (forall sh j, j <> k -> g sh !! j = sh !! j) -> (forall j, j <> k -> f' !! j = f !! j) ->
  (forall sh, g sh !! k = f' !! k) -> p = u64 (Z.of_nat (size f')) ->
  cm_rep (mkCallbackMap p (alter g (cm_ix k) (cm_shards sm))) f'.
Proof.
  intros [Hl Hh Hk Hp] Hg Hf Hgk Hp'. constructor; [simpl; by rewrite length_alter| | |done].
  - intros i sh j e. simpl. rewrite list_lookup_alter. case_decide as Hi; [subst i|eauto].
    destruct (cm_shard_some sm k Hl) as [sh0 E]. rewrite E. intros [= <-].
    destruct (decide (j = k)) as [->|Hj]; [done|]. rewrite Hg by done. eauto.
  - intros j. destruct (cm_shard_some sm k Hl) as [sh0 E]. unfold cm_lookup in *. simpl.
    rewrite list_lookup_alter. destruct (decide (j = k)) as [->|Hj].
    + rewrite decide_True, E by done. simpl. apply Hgk.
    + rewrite Hf, <- Hk by done. case_decide as Hi; [|done]. rewrite <- Hi, E. simpl. by apply Hg.
Qed.

Lemma cm_rep_store sm f k e : cm_rep sm f -> cm_rep (cm_Store k e sm) (<[k := e]> f).
Proof.
  intros Hr. apply (cm_rep_alter sm f _ k _ _ Hr).
  - intros sh j Hj. by apply lookup_insert_ne.
  - intros j Hj. by apply lookup_insert_ne.
  - intros sh. by rewrite !lookup_insert_eq.
  - rewrite (cr_lookup _ _ Hr), map_size_insert, (cr_pending _ _ Hr). destruct (f !! k); [done|].
    unfold incr. rewrite u64_add_l. f_equal. lia.
Qed.

Lemma cm_rep_remove sm f k e :
  cm_rep sm f -> f !! k = Some e -> cm_rep (cm_remove (cm_ix k) k sm) (delete k f).
Proof.
  intros Hr Hk. apply (cm_rep_alter sm f _ k _ _ Hr).
  - intros sh j Hj. by apply lookup_delete_ne.
  - intros j Hj. by apply lookup_delete_ne.
  - intros sh. by rewrite !lookup_delete_eq.
  - rewrite (cr_pending _ _ Hr). unfold decr. rewrite u64_add_l, u64_add_ones. f_equal.
    rewrite map_size_delete, Hk. assert (size f <> 0%nat); [|lia].
    rewrite map_size_ne_0_lookup. eauto.
Qed.

Lemma cm_rep_load_delete sm f k :
  cm_rep sm f -> cm_rep (cm_LoadAndDelete k sm).1 (delete k f) /\ (cm_LoadAndDelete k sm).2 = f !! k.
Proof.
  intros Hr. unfold cm_LoadAndDelete. rewrite (cr_lookup _ _ Hr).
  destruct (f !! k) as [e|] eqn:E; simpl; [eauto using cm_rep_remove|].
  by rewrite delete_id.
Qed.

Lemma cm_rep_delete sm f k : cm_rep sm f -> cm_rep (cm_Delete k sm) (delete k f).
Proof.
  intros Hr. unfold cm_Delete. rewrite (cr_lookup _ _ Hr).
  destruct (f !! k) as [e|] eqn:E; [eauto using cm_rep_remove|by rewrite delete_id].
Qed.

Lemma cm_rep_fail sm f i k sm' e :
  cm_rep sm f -> fail_entry i k sm = Some (sm', e) -> f !! k = Some e /\ cm_rep sm' (delete k f).
Proof.
  intros Hr. unfold fail_entry. destruct (cm_shards sm !! i) as [sh|] eqn:Ei; [|done]. simpl.
  destruct (sh !! k) as [e0|] eqn:Ek; [|done]. simpl. intros [= <- <-].
  pose proof (cr_home _ _ Hr _ _ _ _ Ei Ek) as ->.
  assert (f !! k = Some e0) as Hf by (rewrite <- (cr_lookup _ _ Hr); unfold cm_lookup; by rewrite Ei).
  eauto using cm_rep_remove.
Qed.

Lemma cm_rep_new : cm_rep NewShardedCallbackMap ∅.
Proof.
  constructor; [apply length_replicate| | |done].
  - intros i sh k e [-> _]%lookup_replicate. by rewrite lookup_empty.
  - intros k. unfold cm_lookup. cbn -[replicate].
    destruct (cm_shard_some NewShardedCallbackMap k (length_replicate _ _)) as [sh E]. cbn -[replicate] in E.
    rewrite E. by apply lookup_replicate in E as [-> _].
Qed.
#[export] Hint Resolve cm_rep_store cm_rep_delete cm_rep_new : gohints.

(** ** Any sequence of operations *)

Inductive cm_op :=
  | OpStore (reqID : Z) (entry : callbackEntry)
  | OpLoadAndDelete (reqID : Z)
  | OpDelete (reqID : Z)
  | OpFail (i : nat) (reqID : Z)               (* an iteration of FailAll on shard i *)
  | OpPending.

(** What an operation returns. *)
Inductive cm_out := OutUnit | OutEntry (e : option callbackEntry) | OutCount (n : Z).

Definition cm_exec (op : cm_op) (sm : ShardedCallbackMap) : ShardedCallbackMap * cm_out :=
  match op with
  | OpStore k e => (cm_Store k e sm, OutUnit)
  | OpLoadAndDelete k => let '(sm', e) := cm_LoadAndDelete k sm in (sm', OutEntry e)
  | OpDelete k => (cm_Delete k sm, OutUnit)
  | OpFail i k => match fail_entry i k sm with Some (sm', e) => (sm', OutEntry (Some e)) | None => (sm, OutEntry None) end
  | OpPending => (sm, OutCount (cm_Pending sm))
  end.

(** The specification: a finite map. *)
Definition flat_exec (op : cm_op) (f : gmap Z callbackEntry) : gmap Z callbackEntry * cm_out :=
  match op with
  | OpStore k e => (<[k := e]> f, OutUnit)
  | OpLoadAndDelete k => (delete k f, OutEntry (f !! k))
  | OpDelete k => (delete k f, OutUnit)
  | OpFail i k => if decide (i = cm_ix k) then (delete k f, OutEntry (f !! k)) else (f, OutEntry None)
  | OpPending => (f, OutCount (u64 (Z.of_nat (size f))))
  end.

Fixpoint run_ops {S} (exec : cm_op -> S -> S * cm_out) (ops : list cm_op) (s : S) : S * list cm_out :=
  match ops with
  | [] => (s, [])
  | op :: ops' =>
      let '(s', o) := exec op s in
      let '(s'', os) := run_ops exec ops' s' in (s'', o :: os)
  end.

(** The iterations of a [FailAll] that meets the entries [keys], each in its shard. *)
Definition FailAll_ops (keys : list Z) : list cm_op := (fun k => OpFail (cm_ix k) k) <$> keys.

Lemma cm_rep_fail_none sm f i k : cm_rep sm f -> fail_entry i k sm = None -> i = cm_ix k -> f !! k = None.
Proof.
  intros Hr Hf ->. rewrite <- (cr_lookup _ _ Hr). unfold fail_entry in Hf. unfold cm_lookup.
  by destruct (cm_shards sm !! cm_ix k ≫= lookup k).
Qed.

Lemma cm_exec_refines op sm f :
  cm_rep sm f -> cm_rep (cm_exec op sm).1 (flat_exec op f).1 /\ (cm_exec op sm).2 = (flat_exec op f).2.
Proof.
  intros Hr. destruct op as [k e|k|k|i k|]; simpl; eauto with gohints.
  - destruct (cm_rep_load_delete _ _ k Hr) as [H1 H2]. destruct (cm_LoadAndDelete k sm) as [sm' e].
    simpl in *. by subst.
  - destruct (fail_entry i k sm) as [[sm' e]|] eqn:Hf.
    + destruct (cm_rep_fail _ _ _ _ _ _ Hr Hf) as [Hk Hr']. unfold fail_entry in Hf.
      destruct (cm_shards sm !! i) as [sh|] eqn:Ei; [|done]. simpl in Hf. destruct (sh !! k) as [e0|] eqn:Ek; [|done].
      rewrite decide_True by exact (cr_home _ _ Hr _ _ _ _ Ei Ek). simpl. by rewrite Hk.
    + case_decide as Hi; [|done]. pose proof (cm_rep_fail_none _ _ _ _ Hr Hf Hi) as Hk. simpl. by rewrite delete_id, Hk.
  - split; [done|]. unfold cm_Pending. by rewrite (cr_pending _ _ Hr).
Qed.

Lemma cm_run_refines ops sm f :
  cm_rep sm f -> cm_rep (run_ops cm_exec ops sm).1 (run_ops flat_exec ops f).1 /\
    (run_ops cm_exec ops sm).2 = (run_ops flat_exec ops f).2.
Proof.
  revert sm f. induction ops as [|op ops IH]; intros sm f Hr; [done|]. simpl.
  destruct (cm_exec_refines op sm f Hr) as [Hr' Ho].
  destruct (cm_exec op sm) as [sm1 o1], (flat_exec op f) as [f1 o1']. simpl in *.
  destruct (IH sm1 f1 Hr') as [Hr2 Hos].
  destruct (run_ops cm_exec ops sm1), (run_ops flat_exec ops f1). simpl in *. by subst.
Qed.

(** A [FailAll] over all entries empties the flat map and hands out each entry. *)
Lemma flat_fail_all keys (f : gmap Z callbackEntry) :
  keys ≡ₚ (map_to_list f).*1 ->
  run_ops flat_exec (FailAll_ops keys) f = (∅, (fun k => OutEntry (f !! k)) <$> keys).
Proof.
  intros Hk. assert (NoDup keys) as Hnd by (rewrite Hk; apply NoDup_fst_map_to_list).
  assert (forall k, is_Some (f !! k) -> k ∈ keys) as Hin.
  { intros k [e He]. rewrite Hk. apply list_elem_of_fmap. exists (k, e). split; [done|]. by apply elem_of_map_to_list. }
  clear Hk. revert f Hin. induction Hnd as [|k keys Hnot Hnd IH]; intros f Hin; simpl.
  - f_equal. apply map_empty. intros k. apply eq_None_not_Some. intros Hs%Hin. by apply not_elem_of_nil in Hs.
  - rewrite decide_True by done. unfold FailAll_ops in IH. unfold fmap in IH. rewrite IH.
    + do 2 f_equal. apply list_fmap_ext. intros i x Hx. f_equal. apply lookup_delete_ne. intros ->.
      apply Hnot. by eapply list_elem_of_lookup_2.
    + intros j [e [Hj Hs]%lookup_delete_Some]. assert (j ∈ k :: keys) as [|]%elem_of_cons by (apply Hin; by exists e); [congruence|done].
Qed.

(** C21: the sharded callback map refines one map from request ids to entries.
    Whatever sequence of Store, LoadAndDelete, Delete, Pending and iterations of FailAll
    is executed from the empty map, every call returns what the flat map returns, the
    final contents agree and Pending is the number of entries (as a uint64).  A FailAll
    that meets the entries of the map, in any order, hands out each of them once and
    leaves the map empty and Pending zero. *)
Theorem callback_map_refines ops :
  let '(sm, outs) := run_ops cm_exec ops NewShardedCallbackMap in
  let '(f, outs') := run_ops flat_exec ops ∅ in
  outs = outs' /\ (forall k, cm_lookup sm k = f !! k) /\ cm_Pending sm = u64 (Z.of_nat (size f)) /\
  (forall i k sm' e, fail_entry i k sm = Some (sm', e) ->
     f !! k = Some e /\ forall j, cm_lookup sm' j = delete k f !! j) /\
  (forall keys, keys ≡ₚ (map_to_list f).*1 ->
     exists sm', run_ops cm_exec (FailAll_ops keys) sm = (sm', (fun k => OutEntry (f !! k)) <$> keys) /\
       (forall k, cm_lookup sm' k = None) /\ cm_Pending sm' = 0).
Proof.
  destruct (cm_run_refines ops _ _ cm_rep_new) as [Hr Ho].
  destruct (run_ops cm_exec ops NewShardedCallbackMap) as [sm outs], (run_ops flat_exec ops ∅) as [f outs'].
  simpl in *. split_and!; [done|apply Hr|apply Hr| |].
  - intros i k sm' e Hf. destruct (cm_rep_fail _ _ _ _ _ _ Hr Hf) as [Hk Hr']. split; [done|]. apply Hr'.
  - intros keys Hk. destruct (cm_run_refines (FailAll_ops keys) _ _ Hr) as [Hr' Hos].
    rewrite (flat_fail_all keys f Hk) in Hr', Hos. destruct (run_ops cm_exec (FailAll_ops keys) sm) as [sm' outs2].
    simpl in Hr', Hos. subst outs2. exists sm'. split_and!; [done| |by apply Hr'].
    intros k. rewrite (cr_lookup _ _ Hr'). apply lookup_empty.
Qed.
