(* ===== verification/Client.v ===== *)
(** * The client: cmd/client/router.go, cmd/client/streamer.go

    [Router] sends envelopes to the node that owns their account through one
    [NodeStreamer] per node, and hands results back to the callers that wait for
    them.  Any number of goroutines interleave: the callers of
    [EmulateGatewayFlow] and [ExecuteAndWait], the flusher and the receiver of every
    streamer, [fail], and [StopAll].  A step is one access to shared state (an
    operation of a [sync.Map], of the callback map, of a channel, of the mutex).

    The gRPC stream is what its calls return: whether [Send] succeeds, and what
    [Recv] yields, are chosen by the environment.  The resolver is any instance of
    [TopologyResolver]; one that panics ends the process, so it has no step.  [targetSize]
    is the --batch flag; a batch size of 0 makes [envelopeCh] unbuffered, and the
    rendezvous of a caller with the flusher is not modelled. *)

From S2P Require Import Prelude Wire Discovery Mailbox Callbacks.

(** ** Results made by the client *)

Definition syntheticResult (env : RemoteEnvelope) (errCode errMsg : string) : RemoteResult :=
  mkResult (EnvTenantId env) (EnvUid env) (EnvTxId env) (EnvRequestId env) (EnvOpCode env)
    false errCode errMsg [].

(** The result [FailAll] gives to the callers of a streamer that failed. *)
Definition failed_result (reqID : Z) (errCode : string) : RemoteResult :=
  mkResult 0 0 "" reqID 0 false errCode errCode [].

(** ** Streamers *)

(** [fail], run once per streamer. *)
Inductive fail_pc :=
  | FailNot
  | FailStarted (errCode : string)           (* about to store dead *)
  | FailEvict (errCode : string)             (* evictStreamer: about to Load *)
  | FailEvictDel (errCode : string)          (* evictStreamer: about to Delete *)
  | FailShard (i : nat) (errCode : string)   (* FailAll: holds the lock of shard i *)
  | FailClose                                (* about to closeTransport *)
  | FailDone.

Inductive flusher_pc := FlLoop | FlFail | FlExited.

Inductive receiver_pc :=
  | RcRecv
  | RcResults (rs : list RemoteResult)
  | RcDeliver (r : RemoteResult) (c : nat) (rs : list RemoteResult)   (* entry.respCh <- res *)
  | RcFail (errCode : string)
  | RcExited.

Record streamer := mkStreamer {
  ns_TargetIP : string;
  ns_dead : bool;
  ns_cancelled : bool;                       (* ctx *)
  ns_stopClosed : bool;                      (* stopCh *)
  ns_doneClosed : bool;                      (* done *)
  ns_callbackMap : ShardedCallbackMap;
  ns_envelopeCh : list RemoteEnvelope;
  ns_batch : list RemoteEnvelope;
  ns_flusher : flusher_pc;
  ns_receiver : receiver_pc;
  ns_fail : fail_pc;
  (* history *)
  ns_accepted : list RemoteEnvelope;         (* what envelopeCh took *)
  ns_sent : list (list RemoteEnvelope);      (* the batches the stream took *)
  ns_dropped : list RemoteEnvelope;          (* the batch the flusher held when it returned *)
}.
#[export] Instance streamer_Eta : Eta streamer := fun s =>
  mkStreamer (ns_TargetIP s) (ns_dead s) (ns_cancelled s) (ns_stopClosed s) (ns_doneClosed s)
    (ns_callbackMap s) (ns_envelopeCh s) (ns_batch s) (ns_flusher s) (ns_receiver s) (ns_fail s)
    (ns_accepted s) (ns_sent s) (ns_dropped s).

(** [NewNodeStreamer], when dialling and opening the stream succeed. *)
Definition NewNodeStreamer (ip : string) : streamer :=
  mkStreamer ip false false false false NewShardedCallbackMap [] [] FlLoop RcRecv FailNot [] [] [].

Definition ns_IsDead (ns : streamer) : bool := ns_dead ns.

(** The lock of the shard of [reqID] is free. *)
Definition cb_free (ns : streamer) (reqID : Z) : Prop :=
  match ns_fail ns with FailShard i _ => i <> cm_ix reqID | _ => True end.

(** ** Calls *)

(** Where a caller of [dispatchEnvelope] is; [att] counts the attempts. *)
Inductive call_pc :=
  | CResolve                                 (* about to call GetNodeIP *)
  | CGet (ip : string) (att : nat)           (* getStreamer: first Load *)
  | CGetDel (ip : string) (att : nat)        (* it was dead: about to Delete *)
  | CLock (ip : string) (att : nat)          (* about to take mu *)
  | CGet2 (ip : string) (att : nat)          (* holds mu: second Load *)
  | CGetDel2 (ip : string) (att : nat)       (* holds mu: about to Delete *)
  | CCreate (ip : string) (att : nat)        (* holds mu: NewNodeStreamer *)
  | CPut (ip : string) (att : nat) (id : nat)    (* holds mu: streamers.Store *)
  | CStore (ip : string) (att : nat) (id : nat)  (* callbackMap.Store *)
  | CSelect (ip : string) (att : nat) (id : nat) (* select: enqueue or ctx.Done *)
  | CDelete (ip : string) (att : nat) (id : nat) (* callbackMap.Delete *)
  | CWait                                    (* ExecuteAndWait: respCh or timer *)
  | CTimeout (ids : list nat)                (* callbackTimeout: Range *)
  | CReturned (res : option RemoteResult).

(** A call of [ExecuteAndWait] ([c_wait]) or of [EmulateGatewayFlow], whose callers
    pass the ids of the envelope itself. *)
Record call := mkCall {
  c_env : RemoteEnvelope;
  c_wait : bool;
  c_startedAt : Z;
  c_pc : call_pc;
  c_ch : list RemoteResult;                  (* respCh, capacity 1 *)
}.
#[export] Instance call_Eta : Eta call := fun c =>
  mkCall (c_env c) (c_wait c) (c_startedAt c) (c_pc c) (c_ch c).

(** The entry a call registers. *)
Definition entry_of (c : nat) (cl : call) : callbackEntry :=
  mkCallback (c_startedAt cl) (if c_wait cl then Some c else None).

(** [StopAll] over [StopAndWait]. *)
Inductive stopall_pc :=
  | SaNone
  | SaNext (ids : list nat)
  | SaDead (id : nat) (ids : list nat)       (* dead: waits for done *)
  | SaWait (id : nat) (ids : list nat)       (* stopCh closed: waits for done *)
  | SaDone.

(** ** The router *)

Record metrics := mkMetrics {
  reqSent : Z; respRecv : Z; errCount : Z; latencyNanos : Z; latencySamples : Z;   (* uint64 *)
  errBreakdown : gmap string Z;
}.
#[export] Instance metrics_Eta : Eta metrics := fun m =>
  mkMetrics (reqSent m) (respRecv m) (errCount m) (latencyNanos m) (latencySamples m) (errBreakdown m).

Definition no_metrics : metrics := mkMetrics 0 0 0 0 0 ∅.

Definition RecordError (errCode : string) (m : metrics) : metrics :=
  let key := if decide (errCode = "") then "UNKNOWN" else errCode in
  m <| errBreakdown := <[key := incr (default 0 (errBreakdown m !! key))]> (errBreakdown m) |>.

(** [errCount.Add(1); RecordError(errCode)], as every error path does. *)
Definition note_error (errCode : string) (m : metrics) : metrics :=
  (RecordError errCode m) <| errCount ::= incr |>.

Definition RecordLatency (d : Z) (m : metrics) : metrics :=
  if decide (d <= 0) then m
  else m <| latencyNanos ::= fun z => u64 (z + u64 d) |> <| latencySamples ::= incr |>.

Definition AvgLatency (m : metrics) : Z :=
  if decide (latencySamples m = 0) then 0 else i64 (latencyNanos m / latencySamples m).

Definition ErrorBreakdownMap (m : metrics) : gmap string Z := errBreakdown m.

(** The counters for one result of a response. *)
Definition note_result (res : RemoteResult) (m : metrics) : metrics :=
  if ResSuccess res then m <| respRecv ::= incr |>
  else note_error
         (if decide (ResErrorMsg res = "") then ResErrorCode res
          else ResErrorCode res +:+ " (" +:+ ResErrorMsg res +:+ ")") m.

Record router (R : Type) := mkRouter {
  r_resolver : R;
  r_streamers : gmap string nat;
  r_objects : gmap nat streamer;
  r_mu : option nat;                         (* the call that holds mu *)
  r_calls : gmap nat call;
  r_stopall : stopall_pc;
  r_metrics : metrics;
  r_received : list RemoteResult;            (* history: what Recv gave *)
}.
Arguments mkRouter {R}.
Arguments r_resolver {R} r : rename.
Arguments r_streamers {R} r : rename.
Arguments r_objects {R} r : rename.
Arguments r_mu {R} r : rename.
Arguments r_calls {R} r : rename.
Arguments r_stopall {R} r : rename.
Arguments r_metrics {R} r : rename.
Arguments r_received {R} r : rename.
#[export] Instance router_Eta R : Eta (router R) := fun r =>
  mkRouter (r_resolver r) (r_streamers r) (r_objects r) (r_mu r) (r_calls r) (r_stopall r)
    (r_metrics r) (r_received r).

Definition NewRouter {R} (resolver : R) : router R :=
  mkRouter resolver ∅ ∅ None ∅ SaNone no_metrics [].

(** [CallbackPending]: the sum over the streamers of the map, as a uint64. *)
Definition CallbackPending {R} (r : router R) : Z :=
  foldr (fun kv acc => match r_objects r !! kv.2 with
                       | Some ns => u64 (acc + cm_Pending (ns_callbackMap ns))
                       | None => acc
                       end) 0 (map_to_list (r_streamers r)).

(** ** Steps *)

Section Access.
Context {R : Type}.
Implicit Types r : router R.

Definition goto (c : nat) (pc : call_pc) r : router R :=
  r <| r_calls ::= alter (fun cl => cl <| c_pc := pc |>) c |>.
Definition set_ns (id : nat) (ns : streamer) r : router R := r <| r_objects ::= <[id := ns]> |>.
Definition unlock r : router R := r <| r_mu := None |>.
Definition count (f : metrics -> metrics) r : router R := r <| r_metrics ::= f |>.

(** [respCh <- res] on the channel of call [c], which has room. *)
Definition deliver (c : nat) (res : RemoteResult) r : router R :=
  r <| r_calls ::= alter (fun cl => cl <| c_ch ::= fun l => l ++ [res] |>) c |>.
Definition ch_room r (c : nat) : Prop := exists cl, r_calls r !! c = Some cl /\ c_ch cl = [].

(** Call [c] returns a result of its own making, having counted the error. *)
Definition return_error (c : nat) (env : RemoteEnvelope) (errCode errMsg : string) r : router R :=
  goto c (CReturned (Some (syntheticResult env errCode errMsg))) (count (note_error errCode) r).

(** [streamers.Load(ip)]. *)
Definition load_streamer r (ip : string) : option (nat * streamer) :=
  id ← r_streamers r !! ip; ns ← r_objects r !! id; Some (id, ns).
End Access.

Section Steps.
Context {R Er : Type} `{TopologyResolver R Er} (error_string : Er -> string) (targetSize : nat).
Implicit Types r : router R.

(** Call [c] is at [pc]. *)
Definition at_pc r (c : nat) (pc : call_pc) (cl : call) : Prop := r_calls r !! c = Some cl /\ c_pc cl = pc.

(** [ExecuteAndWait], [EmulateGatewayFlow], [dispatchEnvelope], [getStreamer],
    [callbackTimeout]. *)
Inductive call_step r : router R -> Prop :=
  | call_begin c env wait now :
      r_calls r !! c = None ->
      call_step r (r <| r_calls ::= <[c := mkCall env wait now CResolve []]> |>)
  | call_discovery_error c cl x e :
      at_pc r c CResolve cl ->
      tr_GetNodeIP (r_resolver r) (EnvTenantId (c_env cl)) (EnvUid (c_env cl)) = Some (x, Err e) ->
      call_step r (return_error c (c_env cl) ErrDiscovery (error_string e) (r <| r_resolver := x |>))
  | call_resolved c cl x ip :
      at_pc r c CResolve cl ->
      tr_GetNodeIP (r_resolver r) (EnvTenantId (c_env cl)) (EnvUid (c_env cl)) = Some (x, Ok ip) ->
      call_step r (goto c (CGet ip 0) (r <| r_resolver := x |>))
  | get_first c cl ip att :
      at_pc r c (CGet ip att) cl ->
      call_step r (goto c (match load_streamer r ip with
                           | Some (id, ns) => if ns_IsDead ns then CGetDel ip att else CStore ip att id
                           | None => CLock ip att
                           end) r)
  | get_evict c cl ip att :
      at_pc r c (CGetDel ip att) cl ->
      call_step r (goto c (CLock ip att) (r <| r_streamers ::= delete ip |>))
  | get_lock c cl ip att :
      at_pc r c (CLock ip att) cl -> r_mu r = None ->
      call_step r (goto c (CGet2 ip att) (r <| r_mu := Some c |>))
  | get_second_hit c cl ip att id ns :
      at_pc r c (CGet2 ip att) cl -> load_streamer r ip = Some (id, ns) -> ns_IsDead ns = false ->
      call_step r (goto c (CStore ip att id) (unlock r))
  | get_second_dead c cl ip att id ns :
      at_pc r c (CGet2 ip att) cl -> load_streamer r ip = Some (id, ns) -> ns_IsDead ns = true ->
      call_step r (goto c (CGetDel2 ip att) r)
  | get_second_none c cl ip att :
      at_pc r c (CGet2 ip att) cl -> load_streamer r ip = None ->
      call_step r (goto c (CCreate ip att) r)
  | get_second_evict c cl ip att :
      at_pc r c (CGetDel2 ip att) cl ->
      call_step r (goto c (CCreate ip att) (r <| r_streamers ::= delete ip |>))
  | create_failed c cl ip att :
      at_pc r c (CCreate ip att) cl ->
      call_step r (return_error c (c_env cl) ErrConnection ErrConnection (unlock r))
  | create_ok c cl ip att id :
      at_pc r c (CCreate ip att) cl -> r_objects r !! id = None ->
      call_step r (goto c (CPut ip att id) (set_ns id (NewNodeStreamer ip) r))
  | create_put c cl ip att id :
      at_pc r c (CPut ip att id) cl ->
      call_step r (goto c (CStore ip att id) (unlock (r <| r_streamers ::= <[ip := id]> |>)))
  | dispatch_store c cl ip att id ns :
      at_pc r c (CStore ip att id) cl -> r_objects r !! id = Some ns ->
      cb_free ns (EnvRequestId (c_env cl)) ->
      call_step r (goto c (CSelect ip att id)
        (set_ns id (ns <| ns_callbackMap ::= cm_Store (EnvRequestId (c_env cl)) (entry_of c cl) |>) r))
  | dispatch_enqueue c cl ip att id ns :
      at_pc r c (CSelect ip att id) cl -> r_objects r !! id = Some ns ->
      (length (ns_envelopeCh ns) < targetSize * 2)%nat ->
      call_step r (goto c (if c_wait cl then CWait else CReturned None)
        (set_ns id (ns <| ns_envelopeCh ::= fun l => l ++ [c_env cl] |>
                       <| ns_accepted ::= fun l => l ++ [c_env cl] |>) r))
  | dispatch_cancelled c cl ip att id ns :
      at_pc r c (CSelect ip att id) cl -> r_objects r !! id = Some ns -> ns_cancelled ns = true ->
      call_step r (goto c (CDelete ip att id) r)
  | dispatch_retry c cl ip att id ns :
      at_pc r c (CDelete ip att id) cl -> r_objects r !! id = Some ns ->
      cb_free ns (EnvRequestId (c_env cl)) -> (S att < 2)%nat ->
      call_step r (goto c (CGet ip (S att))
        (set_ns id (ns <| ns_callbackMap ::= cm_Delete (EnvRequestId (c_env cl)) |>) r))
  | dispatch_give_up c cl ip att id ns :
      at_pc r c (CDelete ip att id) cl -> r_objects r !! id = Some ns ->
      cb_free ns (EnvRequestId (c_env cl)) -> (2 <= S att)%nat ->
      call_step r (return_error c (c_env cl) ErrTransportClosed ErrTransportClosed
        (set_ns id (ns <| ns_callbackMap ::= cm_Delete (EnvRequestId (c_env cl)) |>) r))
  | wait_result c cl res rest :
      at_pc r c CWait cl -> c_ch cl = res :: rest ->
      call_step r (r <| r_calls ::= <[c := cl <| c_ch := rest |> <| c_pc := CReturned (Some res) |>]> |>)
  | wait_timeout c cl ids :
      (* Range visits the streamers of the map in any order *)
      at_pc r c CWait cl -> ids ≡ₚ (map_to_list (r_streamers r)).*2 ->
      call_step r (goto c (CTimeout ids) (count (note_error ErrDeadlineExceeded) r))
  | timeout_delete c cl id ids ns :
      at_pc r c (CTimeout (id :: ids)) cl -> r_objects r !! id = Some ns ->
      cb_free ns (EnvRequestId (c_env cl)) ->
      call_step r (goto c (CTimeout ids)
        (set_ns id (ns <| ns_callbackMap ::= cm_Delete (EnvRequestId (c_env cl)) |>) r))
  | timeout_return c cl :
      at_pc r c (CTimeout []) cl ->
      call_step r (goto c (CReturned (Some
        (syntheticResult (c_env cl) ErrDeadlineExceeded "gateway wait timeout"))) r).

(** [sendBatch] when [stream.Send] succeeds; an empty batch is not sent. *)
Definition sent_batch (b : list RemoteEnvelope) (ns : streamer) : streamer :=
  match b with
  | [] => ns <| ns_batch := [] |>
  | _ => ns <| ns_batch := [] |> <| ns_sent ::= fun l => l ++ [b] |>
  end.
Definition count_sent (b : list RemoteEnvelope) (m : metrics) : metrics :=
  m <| reqSent ::= fun z => u64 (z + Z.of_nat (length b)) |>.

(** The flusher returns: its local batch is gone. *)
Definition flusher_exit (ns : streamer) : streamer :=
  ns <| ns_flusher := FlExited |> <| ns_dropped := ns_batch ns |> <| ns_batch := [] |>.

(** [flusherLoop] of streamer [id].  Whatever is in [envelopeCh] when it returns stays
    there. *)
Inductive flusher_step r : router R -> Prop :=
  | fl_ctx id ns :
      r_objects r !! id = Some ns -> ns_flusher ns = FlLoop -> ns_cancelled ns = true ->
      flusher_step r (set_ns id (flusher_exit ns) r)
  | fl_stop id ns :
      r_objects r !! id = Some ns -> ns_flusher ns = FlLoop -> ns_stopClosed ns = true ->
      flusher_step r (count (count_sent (ns_batch ns))
        (set_ns id (flusher_exit (sent_batch (ns_batch ns) ns)) r))
  | fl_receive id ns env rest :
      r_objects r !! id = Some ns -> ns_flusher ns = FlLoop -> ns_envelopeCh ns = env :: rest ->
      (length (ns_batch ns ++ [env]) < targetSize)%nat ->
      flusher_step r (set_ns id (ns <| ns_envelopeCh := rest |> <| ns_batch ::= fun b => b ++ [env] |>) r)
  | fl_receive_send id ns env rest :
      r_objects r !! id = Some ns -> ns_flusher ns = FlLoop -> ns_envelopeCh ns = env :: rest ->
      (targetSize <= length (ns_batch ns ++ [env]))%nat ->
      flusher_step r (count (count_sent (ns_batch ns ++ [env]))
        (set_ns id (sent_batch (ns_batch ns ++ [env]) (ns <| ns_envelopeCh := rest |>)) r))
  | fl_receive_error id ns env rest :
      r_objects r !! id = Some ns -> ns_flusher ns = FlLoop -> ns_envelopeCh ns = env :: rest ->
      (targetSize <= length (ns_batch ns ++ [env]))%nat ->
      flusher_step r (set_ns id (ns <| ns_envelopeCh := rest |> <| ns_batch ::= fun b => b ++ [env] |>
                                    <| ns_flusher := FlFail |>) r)
  | fl_tick id ns :
      r_objects r !! id = Some ns -> ns_flusher ns = FlLoop ->
      flusher_step r (count (count_sent (ns_batch ns)) (set_ns id (sent_batch (ns_batch ns) ns) r))
  | fl_send_error id ns :
      (* on a tick or on stopCh *)
      r_objects r !! id = Some ns -> ns_flusher ns = FlLoop -> ns_batch ns <> [] ->
      flusher_step r (set_ns id (ns <| ns_flusher := FlFail |>) r)
  | fl_failed id ns :
      r_objects r !! id = Some ns -> ns_flusher ns = FlFail -> ns_fail ns = FailDone ->
      flusher_step r (set_ns id (flusher_exit ns) r).

(** [receiverLoop] of streamer [id]; [d] is what [time.Since] measures. *)
Inductive receiver_step r : router R -> Prop :=
  | rc_response id ns rs :
      r_objects r !! id = Some ns -> ns_receiver ns = RcRecv ->
      receiver_step r ((set_ns id (ns <| ns_receiver := RcResults rs |>) r)
                         <| r_received ::= fun l => l ++ rs |>)
  | rc_eof id ns :
      r_objects r !! id = Some ns -> ns_receiver ns = RcRecv -> ns_cancelled ns = false ->
      receiver_step r (set_ns id (ns <| ns_receiver := RcFail ErrTransportClosed |>) r)
  | rc_eof_cancelled id ns :
      r_objects r !! id = Some ns -> ns_receiver ns = RcRecv -> ns_cancelled ns = true ->
      receiver_step r (set_ns id (ns <| ns_receiver := RcExited |> <| ns_doneClosed := true |>) r)
  | rc_error id ns :
      r_objects r !! id = Some ns -> ns_receiver ns = RcRecv ->
      receiver_step r (set_ns id (ns <| ns_receiver := RcFail ErrStreamInterrupted |>) r)
  | rc_done id ns :
      r_objects r !! id = Some ns -> ns_receiver ns = RcResults [] ->
      receiver_step r (set_ns id (ns <| ns_receiver := RcRecv |>) r)
  | rc_unknown id ns res rs cm :
      r_objects r !! id = Some ns -> ns_receiver ns = RcResults (res :: rs) ->
      cb_free ns (ResRequestId res) ->
      cm_LoadAndDelete (ResRequestId res) (ns_callbackMap ns) = (cm, None) ->
      receiver_step r (count (note_result res)
        (set_ns id (ns <| ns_callbackMap := cm |> <| ns_receiver := RcResults rs |>) r))
  | rc_answer id ns res rs cm e d :
      r_objects r !! id = Some ns -> ns_receiver ns = RcResults (res :: rs) ->
      cb_free ns (ResRequestId res) ->
      cm_LoadAndDelete (ResRequestId res) (ns_callbackMap ns) = (cm, Some e) -> is_i64 d ->
      receiver_step r (count (RecordLatency d) (count (note_result res)
        (set_ns id (ns <| ns_callbackMap := cm |>
                       <| ns_receiver := match respCh e with
                                         | Some c => RcDeliver res c rs
                                         | None => RcResults rs
                                         end |>) r)))
  | rc_deliver id ns res c rs :
      r_objects r !! id = Some ns -> ns_receiver ns = RcDeliver res c rs -> ch_room r c ->
      receiver_step r (deliver c res (set_ns id (ns <| ns_receiver := RcResults rs |>) r))
  | rc_failed id ns code :
      r_objects r !! id = Some ns -> ns_receiver ns = RcFail code -> ns_fail ns = FailDone ->
      receiver_step r (set_ns id (ns <| ns_receiver := RcExited |> <| ns_doneClosed := true |>) r).

(** [fail] of streamer [id]: [evictStreamer], [FailAll], [closeTransport]. *)
Inductive fail_step r : router R -> Prop :=
  | fail_flusher id ns :
      r_objects r !! id = Some ns -> ns_flusher ns = FlFail -> ns_fail ns = FailNot ->
      fail_step r (set_ns id (ns <| ns_fail := FailStarted ErrTransportClosed |>) r)
  | fail_receiver id ns code :
      r_objects r !! id = Some ns -> ns_receiver ns = RcFail code -> ns_fail ns = FailNot ->
      fail_step r (set_ns id (ns <| ns_fail := FailStarted code |>) r)
  | fail_dead id ns code :
      r_objects r !! id = Some ns -> ns_fail ns = FailStarted code ->
      fail_step r (set_ns id (ns <| ns_dead := true |> <| ns_fail := FailEvict code |>) r)
  | fail_evict id ns code :
      r_objects r !! id = Some ns -> ns_fail ns = FailEvict code ->
      fail_step r (set_ns id (ns <| ns_fail :=
        if decide (r_streamers r !! ns_TargetIP ns = Some id) then FailEvictDel code
        else FailShard 0 code |>) r)
  | fail_evict_delete id ns code :
      r_objects r !! id = Some ns -> ns_fail ns = FailEvictDel code ->
      fail_step r ((set_ns id (ns <| ns_fail := FailShard 0 code |>) r)
                     <| r_streamers ::= delete (ns_TargetIP ns) |>)
  | fail_entry_silent id ns i code k cm e :
      r_objects r !! id = Some ns -> ns_fail ns = FailShard i code ->
      fail_entry i k (ns_callbackMap ns) = Some (cm, e) -> respCh e = None ->
      fail_step r (count (note_error code) (set_ns id (ns <| ns_callbackMap := cm |>) r))
  | fail_entry_notify id ns i code k cm e c :
      r_objects r !! id = Some ns -> ns_fail ns = FailShard i code ->
      fail_entry i k (ns_callbackMap ns) = Some (cm, e) -> respCh e = Some c -> ch_room r c ->
      fail_step r (deliver c (failed_result k code)
        (count (note_error code) (set_ns id (ns <| ns_callbackMap := cm |>) r)))
  | fail_shard_done id ns i code :
      r_objects r !! id = Some ns -> ns_fail ns = FailShard i code ->
      cm_shards (ns_callbackMap ns) !! i = Some ∅ ->
      fail_step r (set_ns id (ns <| ns_fail :=
        if decide (S i < 256)%nat then FailShard (S i) code else FailClose |>) r)
  | fail_close id ns :
      r_objects r !! id = Some ns -> ns_fail ns = FailClose ->
      fail_step r (set_ns id (ns <| ns_cancelled := true |> <| ns_fail := FailDone |>) r).

(** [StopAll], [StopAndWait]. *)
Inductive stopall_step r : router R -> Prop :=
  | sa_begin ids :
      r_stopall r = SaNone -> ids ≡ₚ (map_to_list (r_streamers r)).*2 ->
      stopall_step r (r <| r_stopall := SaNext ids |>)
  | sa_dead id ids ns :
      r_stopall r = SaNext (id :: ids) -> r_objects r !! id = Some ns -> ns_dead ns = true ->
      stopall_step r (r <| r_stopall := SaDead id ids |>)
  | sa_close id ids ns :
      r_stopall r = SaNext (id :: ids) -> r_objects r !! id = Some ns -> ns_dead ns = false ->
      stopall_step r (set_ns id (ns <| ns_stopClosed := true |>) (r <| r_stopall := SaWait id ids |>))
  | sa_dead_done id ids ns :
      r_stopall r = SaDead id ids -> r_objects r !! id = Some ns -> ns_doneClosed ns = true ->
      stopall_step r (r <| r_stopall := SaNext ids |>)
  | sa_done id ids ns :
      r_stopall r = SaWait id ids -> r_objects r !! id = Some ns -> ns_doneClosed ns = true ->
      stopall_step r (set_ns id (ns <| ns_cancelled := true |>) (r <| r_stopall := SaNext ids |>))
  | sa_end : r_stopall r = SaNext [] -> stopall_step r (r <| r_stopall := SaDone |>).

Inductive client_step r r' : Prop :=
  | cs_call : call_step r r' -> client_step r r'
  | cs_flusher : flusher_step r r' -> client_step r r'
  | cs_receiver : receiver_step r r' -> client_step r r'
  | cs_fail : fail_step r r' -> client_step r r'
  | cs_stopall : stopall_step r r' -> client_step r r'
  | cs_topology x : r' = r <| r_resolver := x |> -> client_step r r'.

Definition client_reachable r : Prop := exists resolver, rtc client_step (NewRouter resolver) r.
End Steps.
