(* ===== verification/ClientInv.v ===== *)
(** * The client: invariants and theorems

    What cmd/client/router.go and streamer.go guarantee under every interleaving of
    the steps of [Client]: the result a caller gets is the one for its request, and a
    success is one that a node sent; envelopes travel in order, in batches of the
    right size; the error counters agree. *)

From S2P Require Import Prelude Wire Discovery Mailbox Callbacks Client.

(** ** The error counters *)

(** The sum of the error breakdown. *)
Definition breakdown_sum (m : gmap string Z) : Z := zsum (map_to_list m).*2.

Lemma zsum_perm l l' : l ≡ₚ l' -> zsum l = zsum l'.
Proof. induction 1; simpl; lia. Qed.

Lemma breakdown_sum_new m k v : m !! k = None -> breakdown_sum (<[k := v]> m) = v + breakdown_sum m.
Proof. intros Hk. unfold breakdown_sum. by rewrite (zsum_perm _ _ (fmap_Permutation snd _ _ (map_to_list_insert m k v Hk))). Qed.

Lemma breakdown_sum_insert m k v :
  breakdown_sum (<[k := v]> m) = breakdown_sum m - default 0 (m !! k) + v.
Proof.
  destruct (m !! k) as [v0|] eqn:E; simpl; [|rewrite breakdown_sum_new by done; lia].
  rewrite <- (insert_delete_id m k v0) at 2 by done. rewrite <- insert_delete_eq.
  rewrite !breakdown_sum_new by apply lookup_delete_eq. lia.
Qed.

(** [errCount] is the sum of the breakdown, modulo [2^64]. *)
Definition metrics_ok (m : metrics) : Prop := errCount m = u64 (breakdown_sum (errBreakdown m)).

Lemma u64_incr_diff z a : u64 (z - a + incr a) = u64 (z + 1).
Proof.
  unfold incr. unfold wrapU. rewrite Z.add_mod_idemp_r by done. f_equal. lia.
Qed.

Lemma note_error_ok code m : metrics_ok m -> metrics_ok (note_error code m).
Proof.
  unfold metrics_ok, note_error, RecordError. simpl. intros ->.
  rewrite breakdown_sum_insert, u64_incr_diff. unfold incr. by rewrite u64_add_l.
Qed.

Lemma note_result_ok res m : metrics_ok m -> metrics_ok (note_result res m).
Proof. unfold note_result. intros Hm. case_match; [done|by apply note_error_ok]. Qed.

Lemma latency_ok d m : metrics_ok m -> metrics_ok (RecordLatency d m).
Proof. unfold RecordLatency. by case_decide. Qed.
#[export] Hint Resolve note_error_ok note_result_ok latency_ok : gohints.

(** ** The invariant *)

(** Errors that the client itself reports. *)
Definition client_codes : list string :=
  [ErrDiscovery; ErrConnection; ErrTransportClosed; ErrStreamInterrupted; ErrDeadlineExceeded].
Definition fail_code (code : string) : Prop := code = ErrTransportClosed \/ code = ErrStreamInterrupted.

Section Invariant.
Context {R Er : Type} `{TopologyResolver R Er} (error_string : Er -> string) (targetSize : nat).
Implicit Types r : router R.

(** A result a caller may get for request [k]. *)
Definition res_ok r (k : Z) (res : RemoteResult) : Prop :=
  ResRequestId res = k /\
  (res ∈ r_received r \/ ResSuccess res = false /\ ResErrorCode res ∈ client_codes).

(** Channel [c] belongs to a call that waits for request [k]. *)
Definition owned r (k : Z) (c : nat) : Prop :=
  exists cl, r_calls r !! c = Some cl /\ EnvRequestId (c_env cl) = k.

(** Some call passed the envelope. *)
Definition called r (env : RemoteEnvelope) : Prop := exists c cl, r_calls r !! c = Some cl /\ c_env cl = env.

Definition receiver_ok r (pc : receiver_pc) : Prop :=
  match pc with
  | RcRecv | RcExited => True
  | RcResults rs => rs ⊆ r_received r
  | RcDeliver res c rs => (res :: rs) ⊆ r_received r /\ owned r (ResRequestId res) c
  | RcFail code => fail_code code
  end.
Definition fail_ok (pc : fail_pc) : Prop :=
  match pc with
  | FailStarted code | FailEvict code | FailEvictDel code | FailShard _ code => fail_code code
  | _ => True
  end.

(** [max(targetSize, 1)], the size at which a batch is sent. *)
Definition batch_limit : nat := Nat.max 1 targetSize.

(** In [ns_ok], the flusher holds a batch while it runs and nothing once it has
    returned; it gives up a batch only when the context is cancelled, which a
    finished [fail] has done. *)
Record ns_ok r (ns : streamer) : Prop := {
  no_map : exists f, cm_rep (ns_callbackMap ns) f /\
    forall k e c, f !! k = Some e -> respCh e = Some c -> owned r k c;
  no_receiver : receiver_ok r (ns_receiver ns);
  no_fail : fail_ok (ns_fail ns);
  no_fifo : ns_accepted ns = concat (ns_sent ns) ++ ns_dropped ns ++ ns_batch ns ++ ns_envelopeCh ns;
  no_held : (length (ns_batch ns) <= batch_limit)%nat;
  no_dropped : (length (ns_dropped ns) <= batch_limit)%nat;
  no_running : ns_flusher ns <> FlExited -> ns_dropped ns = [];
  no_exited : ns_flusher ns = FlExited ->
    ns_batch ns = [] /\ (ns_cancelled ns = true \/ ns_stopClosed ns = true /\ ns_dropped ns = []);
  no_done : ns_fail ns = FailDone -> ns_cancelled ns = true;
  no_batch : ns_flusher ns = FlLoop -> (length (ns_batch ns) < batch_limit)%nat;
  no_sent : Forall (fun b => b <> [] /\ (length b <= batch_limit)%nat) (ns_sent ns);
  no_accepted env : env ∈ ns_accepted ns -> called r env;
}.

Definition pc_fine r (cl : call) (pc : call_pc) : Prop :=
  match pc with
  | CReturned (Some res) => res_ok r (EnvRequestId (c_env cl)) res
  | CReturned None => c_wait cl = false
  | _ => True
  end.
Definition call_ok r (cl : call) : Prop :=
  Forall (res_ok r (EnvRequestId (c_env cl))) (c_ch cl) /\ pc_fine r cl (c_pc cl).

Record cinv r : Prop := {
  ci_ns id ns : r_objects r !! id = Some ns -> ns_ok r ns;
  ci_call c cl : r_calls r !! c = Some cl -> call_ok r cl;
  ci_metrics : metrics_ok (r_metrics r);
}.

(** Steps only add results and calls, and never change the envelope of a call. *)
Definition cgrows r r' : Prop :=
  r_received r ⊆ r_received r' /\
  forall c cl, r_calls r !! c = Some cl ->
    exists cl', r_calls r' !! c = Some cl' /\ c_env cl' = c_env cl.

Lemma res_ok_mono r r' k res : cgrows r r' -> res_ok r k res -> res_ok r' k res.
Proof. intros [Hr _] [Hk [Hin|Hm]]; split; auto. Qed.
Lemma owned_mono r r' k c : cgrows r r' -> owned r k c -> owned r' k c.
Proof. intros [_ Hc] (cl & Hcl & <-). destruct (Hc _ _ Hcl) as (cl' & Hcl' & He). exists cl'. by rewrite He. Qed.
Lemma called_mono r r' env : cgrows r r' -> called r env -> called r' env.
Proof. intros [_ Hc] (c & cl & Hcl & <-). destruct (Hc _ _ Hcl) as (cl' & Hcl' & He). by exists c, cl'. Qed.
Lemma ns_ok_mono r r' ns : cgrows r r' -> ns_ok r ns -> ns_ok r' ns.
Proof.
  intros G [(f & Hf & Ho) Hrc Hfa Hq Hhe Hdr Hru Hex Hdo Hb Hs Ha]. constructor; eauto using called_mono.
  - exists f. split; [done|]. eauto using owned_mono.
  - pose proof G as [Hr _]. destruct (ns_receiver ns); simpl in *; try done.
    + by etrans.
    + destruct Hrc as [Hin Hown]. split; [by etrans|eauto using owned_mono].
Qed.
Lemma call_ok_mono r r' cl : cgrows r r' -> call_ok r cl -> call_ok r' cl.
Proof.
  intros G [Hch Hpc]. split.
  - eapply list.Forall_impl; [exact Hch|]. intros. by eapply res_ok_mono.
  - destruct (c_pc cl) as [| | | | | | | | | | | | |[res|]]; simpl in *; eauto using res_ok_mono.
Qed.

(** A step keeps the invariant when what is new is right. *)
Lemma cinv_step r r' :
  cinv r -> cgrows r r' ->
  (forall id ns, r_objects r' !! id = Some ns -> r_objects r !! id = Some ns \/ ns_ok r' ns) ->
  (forall c cl, r_calls r' !! c = Some cl -> r_calls r !! c = Some cl \/ call_ok r' cl) ->
  metrics_ok (r_metrics r') -> cinv r'.
Proof.
  intros [In Ic Im] G Hn Hc Hm. constructor; [| |done].
  - intros id ns Hid. destruct (Hn _ _ Hid); eauto using ns_ok_mono.
  - intros c cl Hcl. destruct (Hc _ _ Hcl); eauto using call_ok_mono.
Qed.

Lemma cgrows_same r r' : r_received r' = r_received r -> r_calls r' = r_calls r -> cgrows r r'.
Proof. intros Hr Hc. split; [by rewrite Hr|]. intros c cl. rewrite Hc. eauto. Qed.

(** Fields that the invariant does not mention. *)
Lemma cinv_frame r r' :
  cinv r -> r_objects r' = r_objects r -> r_calls r' = r_calls r -> r_metrics r' = r_metrics r ->
  r_received r' = r_received r -> cinv r'.
Proof.
  intros I Ho Hc Hm Hr. apply (cinv_step r r' I); rewrite ?Ho, ?Hc, ?Hm; auto; [|apply I].
  by apply cgrows_same.
Qed.

Lemma set_ns_inv r id ns : cinv r -> ns_ok r ns -> cinv (set_ns id ns r).
Proof.
  intros I Hns. assert (cgrows r (set_ns id ns r)) as G by by apply cgrows_same.
  apply (cinv_step r _ I G); [|by left|apply I].
  intros j ns'. simpl. rewrite lookup_insert. case_decide; [|by left].
  intros [= <-]. right. by eapply ns_ok_mono.
Qed.

Lemma count_inv r f : cinv r -> (metrics_ok (r_metrics r) -> metrics_ok (f (r_metrics r))) -> cinv (count f r).
Proof.
  intros I Hf. apply (cinv_step r _ I); [by apply cgrows_same|by left|by left|]. simpl. apply Hf, I.
Qed.

(** A change of one call that keeps its envelope. *)
Lemma alter_call_inv r c (f : call -> call) :
  cinv r -> (forall cl, c_env (f cl) = c_env cl) ->
  (forall cl, r_calls r !! c = Some cl -> call_ok r cl -> call_ok r (f cl)) ->
  cinv (r <| r_calls ::= alter f c |>).
Proof.
  intros I Hf Hok. assert (cgrows r (r <| r_calls ::= alter f c |>)) as G.
  { split; [done|]. intros d cl Hcl. simpl. rewrite lookup_alter. case_decide; [|by eauto].
    subst d. rewrite Hcl. simpl. eauto. }
  apply (cinv_step r _ I G); [by left| |apply I].
  intros d cl. simpl. rewrite lookup_alter. case_decide; [subst d|by left].
  destruct (r_calls r !! c) as [cl0|] eqn:E; [|done]. simpl. intros [= <-]. right.
  eapply call_ok_mono; [done|]. eapply Hok; [done|]. by apply (ci_call _ I c).
Qed.

Lemma goto_inv r c pc :
  cinv r -> (forall cl, r_calls r !! c = Some cl -> pc_fine r cl pc) -> cinv (goto c pc r).
Proof.
  intros I Hpc. apply alter_call_inv; [done|done|]. intros cl Hcl [Hch _]. split; [done|].
  specialize (Hpc cl Hcl). by destruct pc as [| | | | | | | | | | | | |[]].
Qed.

Lemma deliver_inv r c res :
  cinv r -> (forall cl, r_calls r !! c = Some cl -> res_ok r (EnvRequestId (c_env cl)) res) ->
  cinv (deliver c res r).
Proof.
  intros I Hres. apply alter_call_inv; [done|done|]. intros cl Hcl [Hch Hpc]. split.
  - simpl. apply Forall_app_2; [done|]. apply list.Forall_singleton. eauto.
  - simpl. by destruct (c_pc cl) as [| | | | | | | | | | | | |[]].
Qed.

Lemma owned_res_ok r k c res cl :
  owned r k c -> r_calls r !! c = Some cl -> res_ok r k res -> res_ok r (EnvRequestId (c_env cl)) res.
Proof. intros (cl' & Hcl' & <-) Hcl. by simplify_eq. Qed.

Lemma synthetic_ok r env code msg :
  code ∈ client_codes -> res_ok r (EnvRequestId env) (syntheticResult env code msg).
Proof. intros Hc. split; [done|]. by right. Qed.

(** An operation on the callback map that stores at most the entry of its call. *)
Lemma ns_ok_map r ns cm f :
  ns_ok r ns -> cm_rep cm f -> (forall k e c, f !! k = Some e -> respCh e = Some c -> owned r k c) ->
  ns_ok r (ns <| ns_callbackMap := cm |>).
Proof. intros [] Hf Ho. constructor; try done. by exists f. Qed.

Lemma ns_ok_delete r ns k : ns_ok r ns -> ns_ok r (ns <| ns_callbackMap ::= cm_Delete k |>).
Proof.
  intros Hns. destruct (no_map _ _ Hns) as (f & Hf & Ho).
  apply (ns_ok_map r ns (cm_Delete k (ns_callbackMap ns)) (delete k f) Hns); [by apply cm_rep_delete|].
  intros j e c [_ Hj]%lookup_delete_Some. eauto.
Qed.

Lemma ns_ok_store r ns c cl :
  ns_ok r ns -> r_calls r !! c = Some cl ->
  ns_ok r (ns <| ns_callbackMap ::= cm_Store (EnvRequestId (c_env cl)) (entry_of c cl) |>).
Proof.
  intros Hns Hcl. destruct (no_map _ _ Hns) as (f & Hf & Ho).
  eapply (ns_ok_map r ns (cm_Store _ _ (ns_callbackMap ns)) _ Hns); [by apply cm_rep_store|].
  intros j e c' [[<- <-]|[_ Hj]]%lookup_insert_Some; [|eauto].
  unfold entry_of. simpl. destruct (c_wait cl); [|done]. intros [= <-]. by exists cl.
Qed.

Lemma return_error_inv r c cl code msg :
  cinv r -> r_calls r !! c = Some cl -> code ∈ client_codes -> cinv (return_error c (c_env cl) code msg r).
Proof.
  intros I Hcl Hc. apply goto_inv; [apply count_inv; auto with gohints|].
  intros cl'. simpl. intros Hcl'. simplify_eq. by apply synthetic_ok.
Qed.

Lemma new_ns_ok r ip : ns_ok r (NewNodeStreamer ip).
Proof.
  constructor; try done; try (simpl; unfold batch_limit; lia); [|by intros env ?%not_elem_of_nil].
  exists ∅. split; [apply cm_rep_new|]. intros k e c. by rewrite lookup_empty.
Qed.

Ltac fresh_codes := unfold client_codes; set_solver.

Lemma call_step_inv r r' : cinv r -> call_step error_string targetSize r r' -> cinv r'.
Proof.
  intros I [c env wait now Hc|c cl x e [Hc Hp] E|c cl x ip [Hc Hp] E|c cl ip att [Hc Hp]|c cl ip att [Hc Hp]
    |c cl ip att [Hc Hp] Hmu|c cl ip att id ns [Hc Hp] Hl Hd|c cl ip att id ns [Hc Hp] Hl Hd|c cl ip att [Hc Hp] Hl
    |c cl ip att [Hc Hp]|c cl ip att [Hc Hp]|c cl ip att id [Hc Hp] Hid|c cl ip att id [Hc Hp]
    |c cl ip att id ns [Hc Hp] Hid Hfree|c cl ip att id ns [Hc Hp] Hid Hroom|c cl ip att id ns [Hc Hp] Hid Hx
    |c cl ip att id ns [Hc Hp] Hid Hfree Ha|c cl ip att id ns [Hc Hp] Hid Hfree Ha|c cl res rest [Hc Hp] Hch
    |c cl ids [Hc Hp] Hids|c cl id ids ns [Hc Hp] Hid Hfree|c cl [Hc Hp]].
  - set (cl := mkCall env wait now CResolve []). apply (cinv_step r _ I).
    + split; [done|]. intros d cl' Hd. simpl. rewrite lookup_insert_ne by congruence. eauto.
    + by left.
    + intros d cl'. simpl. rewrite lookup_insert. case_decide; [|by left].
      intros [= <-]. right. by split.
    + apply I.
  - by apply (return_error_inv (r <| r_resolver := x |>)); [apply (cinv_frame r)|..|fresh_codes].
  - apply goto_inv; [by apply (cinv_frame r)|done].
  - apply goto_inv; [done|]. intros. by repeat case_match.
  - apply goto_inv; [by apply (cinv_frame r)|done].
  - apply goto_inv; [by apply (cinv_frame r)|done].
  - apply goto_inv; [by apply (cinv_frame r)|done].
  - by apply goto_inv.
  - by apply goto_inv.
  - apply goto_inv; [by apply (cinv_frame r)|done].
  - by apply (return_error_inv (unlock r)); [apply (cinv_frame r)|..|fresh_codes].
  - apply goto_inv; [apply set_ns_inv; [done|apply new_ns_ok]|done].
  - apply goto_inv; [by apply (cinv_frame r)|done].
  - apply goto_inv; [|done]. apply set_ns_inv; [done|]. apply ns_ok_store; [by eapply ci_ns|done].
  - apply goto_inv.
    + apply set_ns_inv; [done|]. destruct (ci_ns _ I _ _ Hid). constructor; try done; simpl.
      * rewrite no_fifo0. by rewrite <- !app_assoc.
      * intros env [He|He]%elem_of_app; [by apply no_accepted0|].
        apply list_elem_of_singleton in He as ->. by exists c, cl.
    + simpl. intros cl' Hcl'. simplify_eq. by destruct (c_wait cl) eqn:E.
  - by apply goto_inv.
  - apply goto_inv; [|done]. apply set_ns_inv; [done|]. apply ns_ok_delete. by eapply ci_ns.
  - apply (return_error_inv (set_ns id _ r)); [|done|fresh_codes].
    apply set_ns_inv; [done|]. apply ns_ok_delete. by eapply ci_ns.
  - destruct (ci_call _ I _ _ Hc) as [Hf _]. rewrite Hch in Hf. apply list.Forall_cons in Hf as [Hres Hrest].
    assert (cgrows r (r <| r_calls ::= <[c := cl <| c_ch := rest |> <| c_pc := CReturned (Some res) |>]> |>)) as G.
    { split; [done|]. intros d cl' Hd. simpl. rewrite lookup_insert. case_decide; [|by eauto].
      simplify_eq. eexists. by split. }
    apply (cinv_step r _ I G); [by left| |apply I].
    intros d cl'. simpl. rewrite lookup_insert. case_decide; [|by left].
    intros [= <-]. right. eapply call_ok_mono; [done|]. by split.
  - apply goto_inv; [apply count_inv; auto with gohints|done].
  - apply goto_inv; [|done]. apply set_ns_inv; [done|]. apply ns_ok_delete. by eapply ci_ns.
  - apply goto_inv; [done|]. intros cl' Hcl'. simplify_eq. apply synthetic_ok. fresh_codes.
Qed.

(** Sending a batch of the right size. *)
Lemma sent_batch_ok r ns b ch :
  ns_ok r ns -> ns_flusher ns = FlLoop -> ns_batch ns ++ ns_envelopeCh ns = b ++ ch ->
  (length b <= batch_limit)%nat -> ns_ok r (sent_batch b (ns <| ns_envelopeCh := ch |>)).
Proof.
  intros [] Hf Hb Hlen. assert (0 < batch_limit)%nat as Hpos by (unfold batch_limit; lia).
  assert (ns_dropped ns = []) as Hd by (apply no_running0; congruence). rewrite Hd, Hb in no_fifo0.
  destruct b as [|e b]; constructor; try done; simpl; rewrite ?Hf, ?Hd; try done; try lia.
  rewrite no_fifo0, concat_app. simpl. rewrite app_nil_r, <- app_assoc. done.
  - apply Forall_app_2; [done|]. by apply list.Forall_singleton.
Qed.

(** The flusher returns with a cancelled context, or without a batch on [stopCh]. *)
Lemma flusher_exit_ok r ns :
  ns_ok r ns -> ns_flusher ns <> FlExited ->
  ns_cancelled ns = true \/ ns_stopClosed ns = true /\ ns_batch ns = [] ->
  ns_ok r (flusher_exit ns).
Proof.
  intros [] Hf Hx. constructor; try done; simpl; try lia.
  by rewrite no_fifo0, no_running0.
Qed.

Lemma flusher_step_inv r r' : cinv r -> flusher_step targetSize r r' -> cinv r'.
Proof.
  intros I [id ns Hid Hf Hx|id ns Hid Hf Hx|id ns env rest Hid Hf Hch Hlen|id ns env rest Hid Hf Hch Hlen
    |id ns env rest Hid Hf Hch Hlen|id ns Hid Hf|id ns Hid Hf Hb|id ns Hid Hf Hx];
    pose proof (ci_ns _ I _ _ Hid) as Hns; try (apply count_inv; [|done]); (apply set_ns_inv; [done|]);
    try (pose proof (no_batch _ _ Hns Hf) as Hl).
  - apply flusher_exit_ok; [done|congruence|by left].
  - pose proof (sent_batch_ok r ns (ns_batch ns) (ns_envelopeCh ns) Hns Hf eq_refl ltac:(lia)) as Hs.
    destruct ns. simpl in *. apply flusher_exit_ok; [by destruct ns_batch|..]; by destruct ns_batch; simplify_eq/=; auto.
  - destruct Hns. constructor; try done; simpl; try done; rewrite ?length_app in *; unfold batch_limit in *;
      try (simpl in *; lia); [|congruence].
    rewrite no_fifo0, Hch. by rewrite <- app_assoc.
  - apply (sent_batch_ok r ns); [done|done|by rewrite Hch, <- app_assoc|rewrite length_app; simpl; lia].
  - destruct Hns. constructor; try done; simpl; try done.
    + rewrite no_fifo0, Hch. by rewrite <- app_assoc.
    + rewrite length_app. simpl. lia.
    + intros _. apply no_running0. congruence.
  - pose proof (sent_batch_ok r ns (ns_batch ns) (ns_envelopeCh ns) Hns Hf eq_refl ltac:(lia)) as Hs.
    clear -Hs. destruct ns. simpl in *. by destruct ns_batch.
  - destruct Hns. constructor; try done. simpl. intros _. apply no_running0. congruence.
  - apply flusher_exit_ok; [done|congruence|]. left. by apply (no_done _ _ Hns).
Qed.

Lemma receiver_step_inv r r' : cinv r -> receiver_step r r' -> cinv r'.
Proof.
  intros I [id ns rs Hid Hp|id ns Hid Hp Hx|id ns Hid Hp Hx|id ns Hid Hp|id ns Hid Hp|id ns res rs cm Hid Hp Hfree E
    |id ns res rs cm e d Hid Hp Hfree E Hd|id ns res c rs Hid Hp Hroom|id ns code Hid Hp Hx];
    pose proof (ci_ns _ I _ _ Hid) as Hns; pose proof (no_receiver _ _ Hns) as Hrc; rewrite Hp in Hrc; simpl in Hrc.
  - assert (cinv (r <| r_received ::= fun l => l ++ rs |>)) as I'.
    { apply (cinv_step r _ I); [|by left|by left|apply I]. split; [simpl; set_solver|eauto]. }
    change (cinv (set_ns id (ns <| ns_receiver := RcResults rs |>) (r <| r_received ::= fun l => l ++ rs |>))).
    apply set_ns_inv; [done|]. destruct (ci_ns _ I' _ _ Hid). constructor; try done. simpl. set_solver.
  - apply set_ns_inv; [done|]. destruct Hns. constructor; try done. by left.
  - apply set_ns_inv; [done|]. destruct Hns. by constructor.
  - apply set_ns_inv; [done|]. destruct Hns. constructor; try done. by right.
  - apply set_ns_inv; [done|]. destruct Hns. by constructor.
  - apply count_inv; [|auto with gohints]. apply set_ns_inv; [done|].
    destruct (no_map _ _ Hns) as (f & Hf & Ho).
    destruct (cm_rep_load_delete _ _ (ResRequestId res) Hf) as [Hf' He]. rewrite E in Hf', He. simpl in *.
    destruct Hns. constructor; try done.
    + exists (delete (ResRequestId res) f). split; [done|]. intros j e c [_ Hj]%lookup_delete_Some. eauto.
    + simpl. set_solver.
  - apply (count_inv (count _ _)); [apply count_inv; [|auto with gohints]|auto with gohints].
    apply set_ns_inv; [done|]. destruct (no_map _ _ Hns) as (f & Hf & Ho).
    destruct (cm_rep_load_delete _ _ (ResRequestId res) Hf) as [Hf' He]. rewrite E in Hf', He. simpl in *.
    destruct Hns. constructor; try done.
    + exists (delete (ResRequestId res) f). split; [done|]. intros j e' c [_ Hj]%lookup_delete_Some. eauto.
    + simpl. destruct (respCh e) as [c|] eqn:Ec; simpl; [|set_solver]. split; [done|]. by eapply Ho.
  - destruct Hrc as [Hin Hown]. apply deliver_inv.
    + apply set_ns_inv; [done|]. destruct Hns. constructor; try done. simpl. set_solver.
    + simpl. intros cl Hcl. apply (owned_res_ok _ (ResRequestId res) c); [done|done|].
      split; [done|]. left. simpl. set_solver.
  - apply set_ns_inv; [done|]. destruct Hns. by constructor.
Qed.

Lemma fail_code_client code : fail_code code -> code ∈ client_codes.
Proof. intros [->| ->]; fresh_codes. Qed.

Lemma fail_step_inv r r' : cinv r -> fail_step r r' -> cinv r'.
Proof.
  intros I [id ns Hid Hf Hp|id ns code Hid Hf Hp|id ns code Hid Hp|id ns code Hid Hp|id ns code Hid Hp
    |id ns i code k cm e Hid Hp E Hc|id ns i code k cm e c Hid Hp E Hc Hroom|id ns i code Hid Hp Hsh|id ns Hid Hp];
    pose proof (ci_ns _ I _ _ Hid) as Hns; pose proof (no_fail _ _ Hns) as Hfl; rewrite Hp in Hfl; simpl in Hfl.
  - apply set_ns_inv; [done|]. destruct Hns. constructor; try done. by left.
  - apply set_ns_inv; [done|]. pose proof (no_receiver _ _ Hns) as Hrc. rewrite Hf in Hrc.
    destruct Hns. by constructor.
  - apply set_ns_inv; [done|]. destruct Hns. by constructor.
  - apply set_ns_inv; [done|]. destruct Hns. constructor; try done; simpl; by case_decide.
  - apply (cinv_frame (set_ns id (ns <| ns_fail := FailShard 0 code |>) r)); try done.
    apply set_ns_inv; [done|]. destruct Hns. by constructor.
  - apply count_inv; [|auto with gohints]. apply set_ns_inv; [done|]. destruct (no_map _ _ Hns) as (f & Hf & Ho).
    destruct (cm_rep_fail _ _ _ _ _ _ Hf E) as [_ Hf']. apply (ns_ok_map _ _ _ _ Hns Hf').
    intros j e' c [_ Hj]%lookup_delete_Some. eauto.
  - destruct (no_map _ _ Hns) as (f & Hf & Ho). destruct (cm_rep_fail _ _ _ _ _ _ Hf E) as [Hk Hf'].
    apply deliver_inv.
    + apply count_inv; [|auto with gohints]. apply set_ns_inv; [done|]. apply (ns_ok_map _ _ _ _ Hns Hf').
      intros j e' c' [_ Hj]%lookup_delete_Some. eauto.
    + intros cl Hcl. apply (owned_res_ok _ k c); [by eapply Ho|done|]. split; [done|]. right.
      split; [done|]. by apply fail_code_client.
  - apply set_ns_inv; [done|]. destruct Hns. constructor; try done; simpl; by case_decide.
  - apply set_ns_inv; [done|]. destruct Hns. constructor; try done. simpl. intros Hx. destruct (no_exited0 Hx). auto.
Qed.

Lemma client_step_inv r r' : cinv r -> client_step error_string targetSize r r' -> cinv r'.
Proof.
  intros I [Hs|Hs|Hs|Hs|Hs|x ->].
  - by eapply call_step_inv.
  - by eapply flusher_step_inv.
  - by eapply receiver_step_inv.
  - by eapply fail_step_inv.
  - destruct Hs as [ids Hp Hids|id ids ns Hp Hid Hd|id ids ns Hp Hid Hd|id ids ns Hp Hid Hd|id ids ns Hp Hid Hd|Hp];
      try by apply (cinv_frame r).
    + apply (set_ns_inv (r <| r_stopall := SaWait id ids |>)); [by apply (cinv_frame r)|].
      destruct (ci_ns _ I _ _ Hid). constructor; try done. simpl. naive_solver.
    + apply (set_ns_inv (r <| r_stopall := SaNext ids |>)); [by apply (cinv_frame r)|].
      destruct (ci_ns _ I _ _ Hid). constructor; try done. simpl. naive_solver.
  - by apply (cinv_frame r).
Qed.

Lemma client_reachable_inv r : client_reachable error_string targetSize r -> cinv r.
Proof.
  intros (x & Hs). eapply (rtc_invariant (client_step error_string targetSize) cinv); [apply client_step_inv| |exact Hs].
  constructor; [intros id ns|intros c cl|done]; simpl; by rewrite lookup_empty.
Qed.
End Invariant.

(** ** Theorems *)

Section Theorems.
Context {R Er : Type} `{TopologyResolver R Er} (error_string : Er -> string) (targetSize : nat).
Implicit Types r : router R.

(** A streamer whose flusher has returned sends nothing more. *)
Definition silent (ns ns' : streamer) : Prop := ns_flusher ns' = FlExited /\ ns_sent ns' = ns_sent ns.

Lemma exited_step r r' id ns :
  client_step error_string targetSize r r' -> r_objects r !! id = Some ns -> ns_flusher ns = FlExited ->
  exists ns', r_objects r' !! id = Some ns' /\ silent ns ns'.
Proof.
  intros [Hs|Hs|Hs|Hs|Hs|x ->] Hid Hf; [destruct Hs..|]; unfold silent; simpl; try (by exists ns);
    rewrite lookup_insert; (case_decide; [|by exists ns]); simplify_eq; eexists; (split; [done|]); try done; congruence.
Qed.

Lemma exited_stays r r' id ns :
  rtc (client_step error_string targetSize) r r' -> r_objects r !! id = Some ns -> ns_flusher ns = FlExited ->
  exists ns', r_objects r' !! id = Some ns' /\ silent ns ns'.
Proof.
  intros Hr. revert ns. induction Hr as [|r r1 r' Hs _ IH]; intros ns Hid Hf; [by exists ns|].
  destruct (exited_step _ _ _ _ Hs Hid Hf) as (ns1 & H1 & Hf1 & Hs1).
  destruct (IH _ H1 Hf1) as (ns' & H2 & Hf2 & Hs2). exists ns'. split; [done|]. split; [done|congruence].
Qed.

(** C10: demultiplexing.  Under every interleaving of callers, flushers, receivers,
    failing streamers and shutdown, what ExecuteAndWait returns is a result for its
    own request id, and either a node sent exactly that result or it is a failure
    with one of the five codes the client reports itself: a success is never made
    up.  A call that waits never returns without a result. *)
Theorem client_result_sound r c cl o :
  client_reachable error_string targetSize r -> r_calls r !! c = Some cl ->
  c_wait cl = true -> c_pc cl = CReturned o ->
  exists res, o = Some res /\ ResRequestId res = EnvRequestId (c_env cl) /\
    (res ∈ r_received r \/
     ResSuccess res = false /\
     ResErrorCode res ∈ [ErrDiscovery; ErrConnection; ErrTransportClosed; ErrStreamInterrupted;
                         ErrDeadlineExceeded]).
Proof.
  intros I%client_reachable_inv Hc Hw Hp. destruct (ci_call _ _ I _ _ Hc) as [_ Hpc]. rewrite Hp in Hpc.
  destruct o as [res|]; simpl in Hpc; [|congruence]. exists res. split; [done|]. exact Hpc.
Qed.

(** C28: streamers are FIFO, batch as configured, and say what they give up.  The
    envelopes a streamer has taken from its callers are, in order, those of the
    batches it sent, those of the batch its flusher gave up, those of the current
    batch and those in the queue: none is duplicated or reordered.  No batch is
    empty or larger than the target size (at least one).  While the flusher runs it
    has given up nothing.  Once it has returned it holds no batch, and either the
    context is cancelled (then at most one batch was given up) or it was told to stop
    and had sent its whole batch; from then on the streamer never sends again, so
    whatever is in its queue is abandoned. *)
Theorem streamer_fifo r id ns :
  client_reachable error_string targetSize r -> r_objects r !! id = Some ns ->
  ns_accepted ns = concat (ns_sent ns) ++ ns_dropped ns ++ ns_batch ns ++ ns_envelopeCh ns /\
  Forall (fun b => b <> [] /\ (length b <= Nat.max 1 targetSize)%nat) (ns_sent ns) /\
  (length (ns_dropped ns) <= Nat.max 1 targetSize)%nat /\
  (ns_flusher ns <> FlExited -> ns_dropped ns = []) /\
  (ns_flusher ns = FlExited ->
    ns_batch ns = [] /\ (ns_cancelled ns = true \/ ns_stopClosed ns = true /\ ns_dropped ns = []) /\
    forall r', rtc (client_step error_string targetSize) r r' ->
      exists ns', r_objects r' !! id = Some ns' /\ ns_sent ns' = ns_sent ns).
Proof.
  intros I%client_reachable_inv Hid. pose proof (ci_ns _ _ I _ _ Hid) as [].
  do 4 (split; [done|]). intros Hf. destruct (no_exited0 Hf) as [Hb Hx]. do 2 (split; [done|]).
  intros r' Hr'. destruct (exited_stays _ _ _ _ Hr' Hid Hf) as (ns' & ? & ? & ?). eauto.
Qed.

(** The metrics agree.  The error counter is the sum of the error breakdown
    (as a uint64), and the pending counter of every streamer is the number of
    callbacks it holds. *)
Theorem client_metrics_exact r :
  client_reachable error_string targetSize r ->
  errCount (r_metrics r) = u64 (breakdown_sum (ErrorBreakdownMap (r_metrics r))) /\
  forall id ns, r_objects r !! id = Some ns ->
    exists f : gmap Z callbackEntry, (forall k, cm_lookup (ns_callbackMap ns) k = f !! k) /\
      cm_Pending (ns_callbackMap ns) = u64 (Z.of_nat (size f)).
Proof.
  intros I%client_reachable_inv. split; [apply I|]. intros id ns Hid.
  destruct (no_map _ _ _ (ci_ns _ _ I _ _ Hid)) as (f & Hf & _). exists f. split; apply Hf.
Qed.
End Theorems.

(** ** Witnesses *)

Definition client_env (tx : string) (req : Z) : RemoteEnvelope :=
  mkEnvelope 1 7 tx req 1 (BigEndian_PutUint64 5) 0.
Definition client_resolver : MockResolver := SetRoute NewMockResolver 1 7 "10.0.0.1:9000".
Definition mock_error_string (e : MockError) : string :=
  match e with MockForced msg => msg | MockNoRoute _ _ => "no route" end.
Definition client_answer : RemoteResult := mkResult 1 7 "tx-1" 42 1 true "" "" (BigEndian_PutUint64 5).

Ltac client_run c := first [eapply rtc_step_eq|eapply nsteps_step_eq]; [c; [> (vm_compute; reflexivity)..]|evaluate_state|].
Tactic Notation "by_call" uconstr(c) :=
  client_run ltac:(apply cs_call; eapply c; [> first [split; vm_compute; reflexivity | idtac]..]).
Tactic Notation "by_flusher" uconstr(c) := client_run ltac:(apply cs_flusher; eapply c).
Tactic Notation "by_receiver" uconstr(c) := client_run ltac:(apply cs_receiver; eapply c).
Tactic Notation "by_stopall" uconstr(c) := client_run ltac:(apply cs_stopall; eapply c).
Tactic Notation "by_fail" uconstr(c) := client_run ltac:(apply cs_fail; eapply c).

(** One request, from [ExecuteAndWait] to its place in [envelopeCh]. *)
Ltac enqueue_run :=
  by_call (call_begin _ _ _ 0 (client_env "tx-1" 42) true 3);
  by_call (call_resolved _ _ _ 0);
  by_call (get_first _ _ _ 0);
  by_call (get_lock _ _ _ 0);
  by_call (get_second_none _ _ _ 0);
  by_call (create_ok _ _ _ 0 _ _ _ 0);
  by_call (create_put _ _ _ 0);
  eapply rtc_step_eq; [apply cs_call; eapply (dispatch_store _ _ _ 0); [split; reflexivity|reflexivity|exact I]|evaluate_state|];
  eapply rtc_step_eq; [apply cs_call; eapply (dispatch_enqueue _ _ _ 0); [split; reflexivity|reflexivity|simpl; lia]|evaluate_state|].

(** One request of ExecuteAndWait, up to its answer. *)
Lemma client_demo :
  exists r cl ns, client_reachable (R := MockResolver) mock_error_string 1 r /\
    r_calls r !! 0%nat = Some cl /\ c_wait cl = true /\ c_pc cl = CReturned (Some client_answer) /\
    r_received r = [client_answer] /\ r_objects r !! 0%nat = Some ns /\ ns_sent ns = [[client_env "tx-1" 42]].
Proof.
  eexists _, _, _. split.
  { exists client_resolver.
    enqueue_run.
    eapply rtc_step_eq; [apply cs_flusher; eapply (fl_receive_send _ _ 0); [reflexivity|reflexivity|reflexivity|simpl; lia]|evaluate_state|].
    by_receiver (rc_response _ 0 _ [client_answer]).
    eapply rtc_step_eq; [apply cs_receiver; eapply (rc_answer _ 0 _ _ _ _ _ 9);
      [reflexivity|reflexivity|exact I|vm_compute; reflexivity|go_decide]|evaluate_state|].
    eapply rtc_step_eq; [apply cs_receiver; eapply (rc_deliver _ 0); [reflexivity|reflexivity|eexists; split; reflexivity]|evaluate_state|].
    by_call (wait_result _ _ _ 0). apply rtc_refl. }
  by repeat (split; [vm_compute; reflexivity|]).
Qed.

Lemma client_result_sound_witness :
  exists r cl, client_reachable (R := MockResolver) mock_error_string 1 r /\ r_calls r !! 0%nat = Some cl /\
    exists res, c_pc cl = CReturned (Some res) /\ ResRequestId res = EnvRequestId (c_env cl).
Proof.
  destruct client_demo as (r & cl & ns & Hr & Hc & Hw & Hp & _). exists r, cl. split; [done|]. split; [done|].
  destruct (client_result_sound mock_error_string 1 r 0 cl _ Hr Hc Hw Hp) as (res & [= <-] & Hid & _).
  by exists client_answer.
Defined.

(** [StopAll] closes [stopCh] while an envelope is queued: the flusher returns without
    taking it. *)
Lemma abandoned_demo :
  exists r ns, client_reachable (R := MockResolver) mock_error_string 1 r /\ r_objects r !! 0%nat = Some ns /\
    ns_flusher ns = FlExited /\ ns_cancelled ns = false /\ ns_envelopeCh ns = [client_env "tx-1" 42].
Proof.
  eexists _, _. split.
  { exists client_resolver. enqueue_run. by_stopall (sa_begin _ [0%nat]). by_stopall (sa_close _ 0 []).
    by_flusher (fl_stop _ _ 0). apply rtc_refl. }
  by repeat (split; [vm_compute; reflexivity|]).
Qed.

Lemma streamer_fifo_witness :
  exists r ns, client_reachable (R := MockResolver) mock_error_string 1 r /\ r_objects r !! 0%nat = Some ns /\
    ns_accepted ns = concat (ns_sent ns) ++ [client_env "tx-1" 42] /\
    forall r', rtc (client_step mock_error_string 1) r r' ->
      exists ns', r_objects r' !! 0%nat = Some ns' /\ ns_sent ns' = ns_sent ns.
Proof.
  destruct abandoned_demo as (r & ns & Hr & Hid & Hf & Hx & Hq). exists r, ns.
  destruct (streamer_fifo mock_error_string 1 r 0 ns Hr Hid) as (Ha & _ & _ & _ & He).
  destruct (He Hf) as (Hb & [Hc|[_ Hd]] & Hs); [congruence|]. rewrite Hq, Hb, Hd in Ha. auto.
Defined.

