(* ===== verification/ClientRace.v ===== *)
(** * The client: a request that is never answered

    [FailAll] of cmd/client/router.go sends to the response channels, which hold one
    result, while it holds the lock of a shard and before it cancels the context of
    the streamer.  A request that is retried after its first streamer failed has
    that failure in its channel already: if the second streamer fails while its
    queue is full, [FailAll] and the caller wait for each other. *)

From S2P Require Import Prelude Wire Discovery Mailbox Callbacks Client ClientInv.

(** ** The deadlock is for ever *)

Section Stuck.
Context {R Er : Type} `{TopologyResolver R Er} (error_string : Er -> string) (targetSize : nat).
Implicit Types r : router R.

(** Streamer [id] is in [FailAll], on the shard of the request of call [c], with an
    entry for [c]; its queue is full; the channel of [c] is full. *)
Record blocked_ns (k : Z) (c : nat) (ns : streamer) : Prop := {
  bn_fail : exists code, ns_fail ns = FailShard (cm_ix k) code;
  bn_entry : exists sh e, cm_shards (ns_callbackMap ns) !! cm_ix k = Some sh /\ sh !! k = Some e /\
    respCh e = Some c;
  bn_full : (targetSize * 2 <= length (ns_envelopeCh ns))%nat;
  bn_flusher : ns_flusher ns = FlFail;
  bn_cancelled : ns_cancelled ns = false;
  bn_done : ns_doneClosed ns = false;
}.
Record blocked_call (id c : nat) (cl : call) : Prop := {
  bc_pc : exists ip att, c_pc cl = CSelect ip att id;
  bc_ch : c_ch cl <> [];
  bc_wait : c_wait cl = true;
}.
Definition stuck (id c : nat) (k : Z) r : Prop :=
  (exists ns, r_objects r !! id = Some ns /\ blocked_ns k c ns) /\
  (exists cl, r_calls r !! c = Some cl /\ blocked_call id c cl).

Lemma stuck_step r r' id c k :
  stuck id c k r ->
  (forall ns, r_objects r !! id = Some ns -> blocked_ns k c ns ->
     exists ns', r_objects r' !! id = Some ns' /\ blocked_ns k c ns') ->
  (forall cl, r_calls r !! c = Some cl -> blocked_call id c cl ->
     exists cl', r_calls r' !! c = Some cl' /\ blocked_call id c cl') ->
  stuck id c k r'.
Proof. intros [(ns & Hid & Hns) (cl & Hc & Hcl)] Hn Hcc. split; eauto. Qed.

(** Another call moves. *)
Lemma stuck_goto r id c k d pc :
  stuck id c k r -> (forall cl, r_calls r !! d = Some cl -> ~ blocked_call id d cl \/ d <> c) ->
  stuck id c k (goto d pc r).
Proof.
  intros Hst Hd. apply (stuck_step r _ _ _ _ Hst); [by eauto|]. intros cl Hc Hb. simpl.
  rewrite lookup_alter. case_decide; [subst d|by eauto]. destruct (Hd _ Hc); tauto.
Qed.

Lemma stuck_set_ns r id c k j ns0 ns' :
  stuck id c k r -> r_objects r !! j = Some ns0 -> (blocked_ns k c ns0 -> blocked_ns k c ns') ->
  stuck id c k (set_ns j ns' r).
Proof.
  intros Hst Hj Hb. apply (stuck_step r _ _ _ _ Hst); [|by eauto]. intros ns Hid Hns. simpl.
  rewrite lookup_insert. case_decide; [simplify_eq|]; eauto.
Qed.

Lemma stuck_frame r r' id c k :
  stuck id c k r -> r_objects r' = r_objects r -> r_calls r' = r_calls r -> stuck id c k r'.
Proof. unfold stuck. by intros Hst -> ->. Qed.

Lemma stuck_deliver r id c k d res : stuck id c k r -> stuck id c k (deliver d res r).
Proof.
  intros Hst. apply (stuck_step r _ _ _ _ Hst); [by eauto|]. intros cl Hc Hb. simpl.
  rewrite lookup_alter. case_decide; [subst d; rewrite Hc; simpl|by eauto].
  eexists. split; [done|]. destruct Hb as [Hpc Hch Hw]. split; [done| |done]. simpl. by destruct (c_ch cl).
Qed.

(** Operations on other keys' shards leave the blocked entry alone. *)
Lemma blocked_map k c ns j g p :
  blocked_ns k c ns -> cb_free ns j ->
  blocked_ns k c (ns <| ns_callbackMap := mkCallbackMap p (alter g (cm_ix j) (cm_shards (ns_callbackMap ns))) |>).
Proof.
  intros [[code Hf] (sh & e & Hsh & Hk & He) Hq Hfl Hx Hd] Hfree. unfold cb_free in Hfree. rewrite Hf in Hfree.
  constructor; eauto. exists sh, e. simpl. by rewrite list_lookup_alter_ne.
Qed.

Lemma blocked_delete k c ns j :
  blocked_ns k c ns -> cb_free ns j -> blocked_ns k c (ns <| ns_callbackMap ::= cm_Delete j |>).
Proof.
  intros Hb Hfree. destruct ns as [x1 x2 x3 x4 x5 cm x7 x8 x9 x10 x11 x12 x13 x14].
  change (blocked_ns k c (mkStreamer x1 x2 x3 x4 x5 (cm_Delete j cm) x7 x8 x9 x10 x11 x12 x13 x14)).
  unfold cm_Delete. destruct (cm_lookup cm j); [|exact Hb]. exact (blocked_map _ _ _ j (delete j) _ Hb Hfree).
Qed.

Lemma stuck_move r id c k d cl pc pc' :
  stuck id c k r -> at_pc r d pc cl -> (forall ip att, pc <> CSelect ip att id) -> stuck id c k (goto d pc' r).
Proof.
  intros Hst [Hd Hp] Hne. apply stuck_goto; [done|]. intros cl' Hcl'. left. intros [(ip & att & Hs) _ _].
  assert (cl' = cl) as -> by congruence. rewrite Hs in Hp. by eapply Hne.
Qed.

Lemma stuck_select r id c k d cl ip att j ns :
  stuck id c k r -> at_pc r d (CSelect ip att j) cl -> r_objects r !! j = Some ns ->
  ((length (ns_envelopeCh ns) < targetSize * 2)%nat \/ ns_cancelled ns = true) -> d <> c.
Proof.
  intros [(ns0 & Hid & Hns) (cl0 & Hc & Hcl)] [Hd Hp] Hj Hready ->. destruct Hcl as [(ip' & att' & Hs) _ _].
  assert (cl0 = cl) as -> by congruence. rewrite Hs in Hp. simplify_eq. destruct Hns.
  destruct Hready; [lia|congruence].
Qed.

Lemma stuck_call r r' id c k : stuck id c k r -> call_step error_string targetSize r r' -> stuck id c k r'.
Proof.
  intros Hst [d env wait now Hc|d cl x e Hp E|d cl x ip Hp E|d cl ip att Hp|d cl ip att Hp
    |d cl ip att Hp Hmu|d cl ip att j ns Hp Hl Hd|d cl ip att j ns Hp Hl Hd|d cl ip att Hp Hl
    |d cl ip att Hp|d cl ip att Hp|d cl ip att j Hp Hid|d cl ip att j Hp
    |d cl ip att j ns Hp Hid Hfree|d cl ip att j ns Hp Hid Hroom|d cl ip att j ns Hp Hid Hx
    |d cl ip att j ns Hp Hid Hfree Ha|d cl ip att j ns Hp Hid Hfree Ha|d cl res rest Hp Hch
    |d cl ids Hp Hids|d cl j ids ns Hp Hid Hfree|d cl Hp].
  - apply (stuck_step r _ _ _ _ Hst); [by eauto|]. intros cl Hcl Hb. simpl.
    rewrite lookup_insert_ne by congruence. eauto.
  - by apply (stuck_move _ _ _ _ _ cl CResolve); [apply (stuck_frame r)|..].
  - by apply (stuck_move _ _ _ _ _ cl CResolve); [apply (stuck_frame r)|..].
  - by apply (stuck_move _ _ _ _ _ _ _ _ Hst Hp).
  - by apply (stuck_move _ _ _ _ _ cl (CGetDel ip att)); [apply (stuck_frame r)|..].
  - by apply (stuck_move _ _ _ _ _ cl (CLock ip att)); [apply (stuck_frame r)|..].
  - by apply (stuck_move _ _ _ _ _ cl (CGet2 ip att)); [apply (stuck_frame r)|..].
  - by apply (stuck_move _ _ _ _ _ _ _ _ Hst Hp).
  - by apply (stuck_move _ _ _ _ _ _ _ _ Hst Hp).
  - by apply (stuck_move _ _ _ _ _ cl (CGetDel2 ip att)); [apply (stuck_frame r)|..].
  - by apply (stuck_move _ _ _ _ _ cl (CCreate ip att)); [apply (stuck_frame r)|..].
  - apply (stuck_move _ _ _ _ _ cl (CCreate ip att)); [|done|done].
    apply (stuck_step r _ _ _ _ Hst); [|by eauto]. intros ns Hns Hb. simpl.
    rewrite lookup_insert_ne by congruence. eauto.
  - by apply (stuck_move _ _ _ _ _ cl (CPut ip att j)); [apply (stuck_frame r)|..].
  - apply (stuck_move _ _ _ _ _ cl (CStore ip att j)); [|done|done].
    apply (stuck_set_ns r _ _ _ _ _ _ Hst Hid). intros Hb.
    exact (blocked_map k c ns _ _ _ Hb Hfree).
  - pose proof (stuck_select _ _ _ _ _ _ _ _ _ _ Hst Hp Hid (or_introl Hroom)) as Hne.
    apply stuck_goto; [|by right]. apply (stuck_set_ns r _ _ _ _ _ _ Hst Hid).
    intros [Hf He Hq Hfl Hcc Hdd]. lia.
  - pose proof (stuck_select _ _ _ _ _ _ _ _ _ _ Hst Hp Hid (or_intror Hx)) as Hne.
    apply stuck_goto; [done|by right].
  - apply (stuck_move _ _ _ _ _ cl (CDelete ip att j)); [|done|done].
    apply (stuck_set_ns r _ _ _ _ _ _ Hst Hid). intros Hb. by apply blocked_delete.
  - apply (stuck_move (count _ (set_ns j _ r)) _ _ _ _ cl (CDelete ip att j)); [|done|done].
    eapply stuck_frame; [|done|done]. apply (stuck_set_ns r _ _ _ _ _ _ Hst Hid).
    intros Hb. by apply blocked_delete.
  - apply (stuck_step r _ _ _ _ Hst); [by eauto|]. intros cl' Hcl' Hb. simpl. destruct Hp as [Hd Hpc].
    rewrite lookup_insert. case_decide; [|by eauto]. subst d. simplify_eq.
    destruct Hb as [(? & ? & ?) _ _]. congruence.
  - by apply (stuck_move _ _ _ _ _ cl CWait); [apply (stuck_frame r)|..].
  - apply (stuck_move _ _ _ _ _ cl (CTimeout (j :: ids))); [|done|done].
    apply (stuck_set_ns r _ _ _ _ _ _ Hst Hid). intros Hb. by apply blocked_delete.
  - by apply (stuck_move _ _ _ _ _ _ _ _ Hst Hp).
Qed.

Lemma stuck_flusher r r' id c k : stuck id c k r -> flusher_step targetSize r r' -> stuck id c k r'.
Proof.
  intros Hst Hs. destruct Hs as [j ns Hid Hf|j ns Hid Hf|j ns env rest Hid Hf|j ns env rest Hid Hf
    |j ns env rest Hid Hf|j ns Hid Hf|j ns Hid Hf|j ns Hid Hf Hx];
    try (eapply stuck_frame; [|done|done]);
    (eapply stuck_set_ns; [done|done|]); intros [[code Hfc] ? ? Hfl]; congruence.
Qed.

Lemma stuck_receiver r r' id c k : stuck id c k r -> receiver_step r r' -> stuck id c k r'.
Proof.
  intros Hst [j ns rs Hid Hp|j ns Hid Hp Hx|j ns Hid Hp Hx|j ns Hid Hp|j ns Hid Hp|j ns res rs cm Hid Hp Hfree E
    |j ns res rs cm e d Hid Hp Hfree E Hd|j ns res d rs Hid Hp Hroom|j ns code Hid Hp Hx].
  - apply (stuck_frame (set_ns j (ns <| ns_receiver := RcResults rs |>) r)); [|done|done].
    eapply stuck_set_ns; [done..|]. intros []. by constructor.
  - eapply stuck_set_ns; [done..|]. intros []. by constructor.
  - eapply stuck_set_ns; [done..|]. intros []. congruence.
  - eapply stuck_set_ns; [done..|]. intros []. by constructor.
  - eapply stuck_set_ns; [done..|]. intros []. by constructor.
  - eapply stuck_frame; [|done|done]. eapply stuck_set_ns; [done..|]. intros Hb.
    unfold cm_LoadAndDelete in E. destruct (cm_lookup (ns_callbackMap ns) (ResRequestId res)); simplify_eq.
    destruct Hb. by constructor.
  - eapply stuck_frame; [|done|done]. eapply stuck_set_ns; [done..|]. intros Hb.
    unfold cm_LoadAndDelete in E. destruct (cm_lookup (ns_callbackMap ns) (ResRequestId res)); simplify_eq.
    pose proof (blocked_map k c ns (ResRequestId res) (delete (ResRequestId res)) (decr (cm_pending (ns_callbackMap ns))) Hb Hfree) as [].
    by constructor.
  - apply stuck_deliver. eapply stuck_set_ns; [done..|]. intros []. by constructor.
  - eapply stuck_set_ns; [done..|]. intros [[? ?] _]. congruence.
Qed.

(** [FailAll] takes another entry of the same shard. *)
Lemma blocked_fail k c ns i code q cm e :
  blocked_ns k c ns -> ns_fail ns = FailShard i code -> fail_entry i q (ns_callbackMap ns) = Some (cm, e) ->
  q <> k \/ respCh e <> Some c -> blocked_ns k c (ns <| ns_callbackMap := cm |>).
Proof.
  intros [[code' Hf] (sh & e' & Hsh & Hk & He) Hq Hfl Hx Hd] Hi E Hne. rewrite Hf in Hi. simplify_eq.
  unfold fail_entry in E. rewrite Hsh in E. cbn in E. destruct (sh !! q) as [e0|] eqn:Eq; [|done].
  cbn in E. simplify_eq. assert (q <> k) as Hqk by (intros ->; destruct Hne; congruence).
  constructor; eauto. exists (delete q sh), e'. simpl.
  by rewrite list_lookup_alter_eq, Hsh, lookup_delete_ne by done.
Qed.

Lemma stuck_fail r r' id c k : stuck id c k r -> fail_step r r' -> stuck id c k r'.
Proof.
  intros Hst [j ns Hid Hf Hp|j ns code Hid Hf Hp|j ns code Hid Hp|j ns code Hid Hp|j ns code Hid Hp
    |j ns i code q cm e Hid Hp E Hc|j ns i code q cm e d Hid Hp E Hc Hroom|j ns i code Hid Hp Hsh|j ns Hid Hp].
  1-5, 9: try (eapply stuck_frame; [|done|done]);
    (eapply stuck_set_ns; [done..|]); intros [[? ?] _]; congruence.
  - eapply stuck_frame; [|done|done]. eapply stuck_set_ns; [done..|].
    intros Hb. eapply blocked_fail; [done..|]. right. congruence.
  - apply stuck_deliver. eapply stuck_frame; [|done|done]. eapply stuck_set_ns; [done..|].
    intros Hb. eapply blocked_fail; [done..|]. right. intros Hd. simplify_eq.
    destruct Hst as [_ (cl & Hcl & [_ Hch _])], Hroom as (cl' & Hcl' & Hch'). congruence.
  - eapply stuck_set_ns; [done..|]. intros [[? Hfl] (sh & e & Hs & Hk & _) _]. rewrite Hp in Hfl.
    simplify_eq.
Qed.

Lemma stuck_forever r r' id c k :
  stuck id c k r -> rtc (client_step error_string targetSize) r r' -> stuck id c k r'.
Proof.
  intros Hst. apply rtc_invariant; [|done]. clear r r' Hst. intros r r' Hst [Hs|Hs|Hs|Hs|Hs|x ->].
  - by eapply stuck_call.
  - by eapply stuck_flusher.
  - by eapply stuck_receiver.
  - by eapply stuck_fail.
  - destruct Hs as [ids Hp Hids|j ids ns Hp Hid Hd|j ids ns Hp Hid Hd|j ids ns Hp Hid Hd|j ids ns Hp Hid Hd|Hp];
      try by apply (stuck_frame r).
    + eapply stuck_set_ns; [by apply (stuck_frame r)|done|]. intros []. by constructor.
    + eapply stuck_set_ns; [by apply (stuck_frame r)|done|]. intros []. congruence.
  - by apply (stuck_frame r).
Qed.

Lemma set_ns_objects r id ns o :
  <[id := ns]> (r_objects r) = o ->
  set_ns id ns r = mkRouter (r_resolver r) (r_streamers r) o (r_mu r) (r_calls r) (r_stopall r) (r_metrics r) (r_received r).
Proof. by intros <-. Qed.

Lemma set_ns_same r id ns : r_objects r !! id = Some ns -> set_ns id ns r = r.
Proof. intros Hid. rewrite (set_ns_objects r id ns _ (insert_id _ _ _ Hid)). by destruct r. Qed.

Lemma set_ns_twice r id ns ns' : set_ns id ns (set_ns id ns' r) = set_ns id ns r.
Proof. by rewrite (set_ns_objects (set_ns id ns' r) id ns _ (insert_insert_eq _ _ _ _)). Qed.

(** [FailAll] passes over empty shards. *)
Lemma fail_skip r id ns i m code :
  r_objects r !! id = Some ns -> ns_fail ns = FailShard i code -> (i <= m)%nat -> (m < 256)%nat ->
  (forall j, (i <= j < m)%nat -> cm_shards (ns_callbackMap ns) !! j = Some ∅) ->
  rtc (client_step error_string targetSize) r (set_ns id (ns <| ns_fail := FailShard m code |>) r).
Proof.
  intros Hid Hf Him Hm Hsh. remember (m - i)%nat as d eqn:Ed. revert r ns i Hid Hf Him Ed Hsh.
  induction d as [|d IH]; intros r ns i Hid Hf Him Ed Hsh.
  - assert (i = m) as -> by lia.
    rewrite set_ns_same; [done|]. rewrite Hid. destruct ns. simpl in *. by subst.
  - eapply rtc_l; [apply cs_fail, (fail_shard_done _ id ns i code Hid Hf); apply Hsh; lia|].
    rewrite decide_True by lia.
    specialize (IH (set_ns id (ns <| ns_fail := FailShard (S i) code |>) r) (ns <| ns_fail := FailShard (S i) code |>)
      (S i) (lookup_insert_eq _ _ _) eq_refl ltac:(lia) ltac:(lia)).
    rewrite set_ns_twice in IH. apply IH. intros j Hj. apply Hsh. lia.
Qed.
End Stuck.

(** ** The run *)

Lemma rtc_part {A} (S : relation A) x y y' z : rtc S x y -> y = y' -> rtc S y' z -> rtc S x z.
Proof. intros Hs -> Hr. by etrans. Qed.

Lemma empty_shards (l : list (gmap Z callbackEntry)) n j :
  l = replicate n ∅ -> (j < n)%nat -> l !! j = Some ∅.
Proof. intros -> Hj. by apply lookup_replicate. Qed.

Ltac store_call c :=
  eapply rtc_step_eq; [apply cs_call; eapply (dispatch_store _ _ _ c); [split; reflexivity|reflexivity|exact I]|evaluate_state|].
Ltac enqueue_call c :=
  eapply rtc_step_eq; [apply cs_call; eapply (dispatch_enqueue _ _ _ c); [split; reflexivity|reflexivity|simpl; lia]|evaluate_state|].
(** Call [c] creates streamer [id]. *)
Ltac create_call c id :=
  by_call (get_first _ _ _ c); by_call (get_lock _ _ _ c); by_call (get_second_none _ _ _ c);
  by_call (create_ok _ _ _ c _ _ _ id); by_call (create_put _ _ _ c).
(** Call [c] begins and finds the streamer of the map. *)
Ltac fire_call c req :=
  by_call (call_begin _ _ _ c (client_env "tx" req) false 4); by_call (call_resolved _ _ _ c);
  by_call (get_first _ _ _ c); store_call c; enqueue_call c.

(** The run into the deadlock: streamer 0 fails and is replaced by streamer 1, whose
    queue fills up before it fails too. *)
Lemma hang_run :
  exists r, client_reachable (R := MockResolver) mock_error_string 1 r /\ stuck 1 1 0 256 r.
Proof.
  eexists. split; [exists client_resolver|].
  { by_call (call_begin _ _ _ 0 (client_env "tx-1" 256) true 3). by_call (call_resolved _ _ _ 0).
    create_call 0%nat 0%nat. store_call 0%nat.
    by_receiver (rc_error _ 0). by_fail (fail_receiver _ 0). by_fail (fail_dead _ 0). by_fail (fail_evict _ 0).
    by_fail (fail_evict_delete _ 0).
    eapply rtc_step_eq; [apply cs_fail; eapply (fail_entry_notify _ 0 _ _ _ 256);
      [vm_compute; reflexivity..|eexists; split; vm_compute; reflexivity]|evaluate_state|].
    eapply rtc_part; [eapply (fail_skip _ _ _ 0 _ 0 255); [reflexivity|reflexivity|lia|lia|
       intros j Hj; apply (empty_shards _ 256); [vm_compute; reflexivity|lia]]|evaluate_state|].
    by_fail (fail_shard_done _ 0). by_fail (fail_close _ 0).
    by_call (dispatch_cancelled _ _ _ 0).
    eapply rtc_step_eq; [apply cs_call; eapply (dispatch_retry _ _ _ 0); [split; reflexivity|reflexivity|exact I|lia]|evaluate_state|].
    create_call 0%nat 1%nat.
    fire_call 1%nat 257.
    eapply rtc_step_eq; [apply cs_flusher; eapply (fl_receive_error _ _ 1); [reflexivity|reflexivity|reflexivity|simpl; lia]|evaluate_state|].
    fire_call 2%nat 258. fire_call 3%nat 259. store_call 0%nat.
    by_fail (fail_flusher _ 1). by_fail (fail_dead _ 1). by_fail (fail_evict _ 1). by_fail (fail_evict_delete _ 1).
    apply rtc_refl. }
  split.
  - eexists. split; [vm_compute; reflexivity|]. constructor.
    + eexists. vm_compute. reflexivity.
    + eexists _, _. by repeat (split; [vm_compute; reflexivity|]).
    + vm_compute. lia.
    + vm_compute. reflexivity.
    + vm_compute. reflexivity.
    + vm_compute. reflexivity.
  - eexists. split; [vm_compute; reflexivity|]. split; [eexists _, _; vm_compute; reflexivity|by vm_compute|vm_compute; reflexivity].
Qed.

(** C39: ExecuteAndWait can hang for ever.  A request whose first streamer failed is
    retried on a second one; when that one fails with a full queue, FailAll waits for
    room in the channel that still holds the first failure, and the caller waits for
    the context that is only cancelled after FailAll.  There is a reachable state
    after which, whatever happens, the call stays in dispatchEnvelope: no result, no
    error and no timeout is ever delivered. *)
Theorem execute_and_wait_hangs :
  exists r, client_reachable (R := MockResolver) mock_error_string 1 r /\
    forall r', rtc (client_step mock_error_string 1) r r' ->
      exists cl ip att id, r_calls r' !! 0%nat = Some cl /\ c_wait cl = true /\ c_pc cl = CSelect ip att id.
Proof.
  destruct hang_run as (r & Hr & Hst). exists r. split; [done|]. intros r' Hs.
  destruct (stuck_forever mock_error_string 1 r r' 1 0 256 Hst Hs) as [_ (cl & Hc & [(ip & att & Hp) _ Hw])].
  by exists cl, ip, att, 1%nat.
Qed.
