(* ===== verification/ClientLife.v ===== *)
(** * Who can go on in the client

    Which goroutine of cmd/client holds which lock, which streamers a call refers to and
    what a streamer has closed, as an invariant of the steps of [Client]; and from it,
    what can stop a call of ExecuteAndWait or EmulateGatewayFlow: only a goroutine that
    sends a result to a call whose response channel is full, or the shutdown, which
    waits for the network. *)

From S2P Require Import Prelude Wire Discovery Mailbox Callbacks Client ClientInv.

(** ** The invariant *)

(** The states in which a call holds [mu]. *)
Definition locks (pc : call_pc) : bool :=
  match pc with CGet2 _ _ | CGetDel2 _ _ | CCreate _ _ | CPut _ _ _ => true | _ => false end.

(** What a streamer has closed, when its goroutines have ended. *)
Record ns_life (sa : stopall_pc) (id : nat) (ns : streamer) : Prop := {
  nl_done : ns_fail ns = FailDone -> ns_cancelled ns = true;
  nl_flusher : ns_flusher ns = FlExited -> ns_cancelled ns = true \/ ns_stopClosed ns = true;
  nl_stop : ns_stopClosed ns = true -> ns_cancelled ns = true \/ exists ids, sa = SaWait id ids;
  nl_receiver : ns_receiver ns = RcExited -> ns_doneClosed ns = true;
  nl_shard i code : ns_fail ns = FailShard i code -> (i < 256)%nat;
}.

Section Life.
Context {R Er : Type} `{TopologyResolver R Er} (error_string : Er -> string) (targetSize : nat).
Implicit Types r : router R.

Definition at_ns r (id : nat) (ip : string) : Prop :=
  exists ns, r_objects r !! id = Some ns /\ ns_TargetIP ns = ip.
Definition exists_ns r (id : nat) : Prop := is_Some (r_objects r !! id).

Definition pc_life r (pc : call_pc) : Prop :=
  match pc with
  | CGet _ att | CGetDel _ att | CLock _ att | CGet2 _ att | CGetDel2 _ att | CCreate _ att => (att <= 1)%nat
  | CPut ip att id | CStore ip att id | CSelect ip att id | CDelete ip att id => (att <= 1)%nat /\ at_ns r id ip
  | CTimeout ids => Forall (exists_ns r) ids
  | CResolve | CWait | CReturned _ => True
  end.

Definition stop_ids (sa : stopall_pc) : list nat :=
  match sa with SaNext ids => ids | SaDead id ids | SaWait id ids => id :: ids | SaNone | SaDone => [] end.

Record client_life r : Prop := {
  cf_ns id ns : r_objects r !! id = Some ns -> ns_life (r_stopall r) id ns;
  cf_map ip id : r_streamers r !! ip = Some id -> at_ns r id ip;
  cf_call c cl : r_calls r !! c = Some cl -> pc_life r (c_pc cl);
  cf_mu c : r_mu r = Some c <-> exists cl, r_calls r !! c = Some cl /\ locks (c_pc cl) = true;
  cf_stop : Forall (exists_ns r) (stop_ids (r_stopall r));
}.

(** Streamers are never removed and keep their node. *)
Definition ns_grow r r' : Prop :=
  forall id ns, r_objects r !! id = Some ns -> exists ns', r_objects r' !! id = Some ns' /\ ns_TargetIP ns' = ns_TargetIP ns.

Lemma at_ns_mono r r' id ip : ns_grow r r' -> at_ns r id ip -> at_ns r' id ip.
Proof. intros G (ns & Hid & <-). destruct (G _ _ Hid) as (ns' & Hid' & E). by exists ns'. Qed.
Lemma exists_ns_mono r r' id : ns_grow r r' -> exists_ns r id -> exists_ns r' id.
Proof. intros G [ns Hid]. destruct (G _ _ Hid) as (ns' & Hid' & _). by exists ns'. Qed.
Lemma exists_all_mono r r' ids : ns_grow r r' -> Forall (exists_ns r) ids -> Forall (exists_ns r') ids.
Proof. intros G Hf. eapply list.Forall_impl; [exact Hf|]. intros id. by apply exists_ns_mono. Qed.
Lemma pc_life_mono r r' pc : ns_grow r r' -> pc_life r pc -> pc_life r' pc.
Proof.
  intros G. destruct pc; simpl; try done; try (intros [? ?]; split; [done|by eapply at_ns_mono]).
  by apply exists_all_mono.
Qed.

Lemma ns_grow_same r r' : r_objects r' = r_objects r -> ns_grow r r'.
Proof. intros E id ns Hid. exists ns. by rewrite E. Qed.
Lemma ns_grow_set r r' id ns ns' :
  r_objects r !! id = Some ns -> r_objects r' = <[id := ns']> (r_objects r) -> ns_TargetIP ns' = ns_TargetIP ns -> ns_grow r r'.
Proof.
  intros Hid E Ht j nj Hj. rewrite E. destruct (decide (id = j)) as [->|Hne].
  - simplify_eq. exists ns'. by rewrite lookup_insert_eq.
  - exists nj. by rewrite lookup_insert_ne.
Qed.

(** A call moves on; it may change the map of streamers, [mu] and one streamer. *)
Lemma life_call r r' c cl cl' :
  client_life r -> r_calls r !! c = Some cl -> r_calls r' = <[c := cl']> (r_calls r) ->
  ns_grow r r' -> r_stopall r' = r_stopall r ->
  (forall id ns, r_objects r' !! id = Some ns -> r_objects r !! id = Some ns \/ ns_life (r_stopall r) id ns) ->
  (forall ip id, r_streamers r' !! ip = Some id -> r_streamers r !! ip = Some id \/ at_ns r' id ip) ->
  pc_life r' (c_pc cl') ->
  (locks (c_pc cl') = true -> r_mu r' = Some c /\ (locks (c_pc cl) = true \/ r_mu r = None)) ->
  (locks (c_pc cl') = false -> r_mu r' = if locks (c_pc cl) then None else r_mu r) ->
  client_life r'.
Proof.
  intros [In Im Ic Iu Is] Hc Hc' G Hsa Ho Hm Hpc Hl1 Hl0. constructor.
  - intros id ns Hid. rewrite Hsa. destruct (Ho _ _ Hid); auto.
  - intros ip id Hip. destruct (Hm _ _ Hip); [eapply at_ns_mono|]; eauto.
  - intros d cd. rewrite Hc', lookup_insert. case_decide; [by intros [= <-]|]. intros Hd. eapply pc_life_mono; eauto.
  - assert (forall d, r_mu r = Some d -> locks (c_pc cl) = true -> d = c) as Hone.
    { intros d Hd Hlk. assert (r_mu r = Some c) by (apply Iu; eauto). congruence. }
    assert (forall d cd, r_calls r !! d = Some cd -> locks (c_pc cd) = true -> r_mu r = Some d) as Hoth.
    { intros d cd Hd Hlk. apply Iu. eauto. }
    intros d. rewrite Hc'. destruct (locks (c_pc cl')) eqn:E'.
    + destruct (Hl1 eq_refl) as [-> Hor]. split.
      * intros [= <-]. exists cl'. by rewrite lookup_insert_eq.
      * intros (cd & Hd & Hlk). rewrite lookup_insert in Hd. case_decide; [by subst|].
        destruct Hor as [Hlc|Hn]; [|by rewrite (Hoth d cd) in Hn].
        by rewrite (Hone d (Hoth d cd Hd Hlk) Hlc).
    + rewrite (Hl0 eq_refl). destruct (locks (c_pc cl)) eqn:E; split; try done.
      * intros (cd & Hd & Hlk). rewrite lookup_insert in Hd. case_decide; [simplify_eq; congruence|].
        destruct H0. symmetry. exact (Hone d (Hoth d cd Hd Hlk) eq_refl).
      * intros Hd. destruct (proj1 (Iu d) Hd) as (cd & Hcd & Hlk). exists cd.
        rewrite lookup_insert_ne; [done|]. intros <-. congruence.
      * intros (cd & Hd & Hlk). rewrite lookup_insert in Hd. case_decide; [simplify_eq; congruence|]. by eapply Hoth.
  - rewrite Hsa. by eapply exists_all_mono.
Qed.

Lemma goto_calls r c cl pc : r_calls r !! c = Some cl -> r_calls (goto c pc r) = <[c := cl <| c_pc := pc |>]> (r_calls r).
Proof.
  intros Hc. apply map_eq. intros d. simpl. rewrite lookup_alter, lookup_insert.
  case_decide; [subst d; by rewrite Hc|done].
Qed.

(** A streamer moves on; it may remove itself from the map and send to a call. *)
Lemma life_ns r r' id ns ns' :
  client_life r -> r_objects r !! id = Some ns -> r_objects r' = <[id := ns']> (r_objects r) ->
  ns_TargetIP ns' = ns_TargetIP ns -> ns_life (r_stopall r) id ns' ->
  r_stopall r' = r_stopall r -> r_mu r' = r_mu r ->
  (forall ip i, r_streamers r' !! ip = Some i -> r_streamers r !! ip = Some i) ->
  (forall c, c_pc <$> r_calls r' !! c = c_pc <$> r_calls r !! c) -> client_life r'.
Proof.
  intros [In Im Ic Iu Is] Hid Ho Ht Hns Hsa Hmu Hm Hc. assert (ns_grow r r') as G by by eapply ns_grow_set.
  assert (forall c cl', r_calls r' !! c = Some cl' -> exists cl, r_calls r !! c = Some cl /\ c_pc cl' = c_pc cl) as Hback.
  { intros c cl' Hc'. specialize (Hc c). rewrite Hc' in Hc. destruct (r_calls r !! c) as [cl|]; [|done].
    injection Hc as E. by exists cl. }
  constructor.
  - intros i nsi. rewrite Ho, Hsa, lookup_insert. case_decide; [subst i; by intros [= <-]|apply In].
  - intros ip i Hip. eapply at_ns_mono; eauto.
  - intros c cl' Hc'. destruct (Hback _ _ Hc') as (cl & Hcl & ->). eapply pc_life_mono; eauto.
  - intros c. rewrite Hmu, Iu. split; intros (cl & Hcl & Hlk).
    + specialize (Hc c). rewrite Hcl in Hc. destruct (r_calls r' !! c) as [cl'|]; [|done].
      injection Hc as E. exists cl'. by rewrite E.
    + destruct (Hback _ _ Hcl) as (cl' & Hcl' & E). exists cl'. by rewrite <- E.
  - rewrite Hsa. by eapply exists_all_mono.
Qed.

Lemma deliver_pcs c res r d : c_pc <$> r_calls (deliver c res r) !! d = c_pc <$> r_calls r !! d.
Proof. simpl. rewrite lookup_alter. case_decide; [subst d|done]. by destruct (r_calls r !! c). Qed.

Lemma load_at r ip id ns : client_life r -> load_streamer r ip = Some (id, ns) -> at_ns r id ip.
Proof.
  unfold load_streamer. intros I. destruct (r_streamers r !! ip) as [i|] eqn:E; [|done]. simpl.
  destruct (r_objects r !! i); [|done]. intros [= <- _]. by apply (cf_map _ I).
Qed.

(** Only the callback map or the queue of a streamer changes. *)
Lemma ns_life_same sa id ns ns' :
  ns_life sa id ns -> ns_fail ns' = ns_fail ns -> ns_flusher ns' = ns_flusher ns -> ns_receiver ns' = ns_receiver ns ->
  ns_cancelled ns' = ns_cancelled ns -> ns_stopClosed ns' = ns_stopClosed ns -> ns_doneClosed ns' = ns_doneClosed ns ->
  ns_life sa id ns'.
Proof. intros [] E1 E2 E3 E4 E5 E6. constructor; rewrite ?E1, ?E2, ?E3, ?E4, ?E5, ?E6; eauto. Qed.

Lemma set_ns_life r r' id ns ns' j nj :
  client_life r -> r_objects r !! id = Some ns -> r_objects r' = <[id := ns']> (r_objects r) ->
  ns_life (r_stopall r) id ns' -> r_objects r' !! j = Some nj ->
  r_objects r !! j = Some nj \/ ns_life (r_stopall r) j nj.
Proof. intros I Hid E Hl. rewrite E, lookup_insert. case_decide; [subst j; intros [= <-]; by right|by left]. Qed.

Lemma streamers_perm_exist r ids :
  client_life r -> ids ≡ₚ (map_to_list (r_streamers r)).*2 -> Forall (exists_ns r) ids.
Proof.
  intros I Hp. rewrite Hp. apply list.Forall_forall. intros id ([ip id'] & -> & Hin)%list_elem_of_fmap.
  apply elem_of_map_to_list in Hin. destruct (cf_map _ I _ _ Hin) as (ns & Hid & _). by exists ns.
Qed.

(** A call that changes nothing but its own state, [mu] and what it removes from the map. *)
Lemma life_goto r r' c cl pc :
  client_life r -> r_calls r !! c = Some cl -> r_calls r' = <[c := cl <| c_pc := pc |>]> (r_calls r) ->
  r_objects r' = r_objects r -> r_stopall r' = r_stopall r ->
  (forall ip id, r_streamers r' !! ip = Some id -> r_streamers r !! ip = Some id) ->
  pc_life r pc ->
  (locks pc = true -> r_mu r' = Some c /\ (locks (c_pc cl) = true \/ r_mu r = None)) ->
  (locks pc = false -> r_mu r' = if locks (c_pc cl) then None else r_mu r) -> client_life r'.
Proof.
  intros I Hc Hc' Ho Hsa Hm Hpc Hl1 Hl0. assert (ns_grow r r') as G by by apply ns_grow_same.
  eapply (life_call r r' c cl _ I Hc Hc' G Hsa); [rewrite Ho; by left|by left; auto|by eapply pc_life_mono|done|done].
Qed.

Lemma delete_sub {A} (m : gmap string A) k k' x : delete k m !! k' = Some x -> m !! k' = Some x.
Proof. by intros [_ ?]%lookup_delete_Some. Qed.

(** ... or also the callback map or the queue of one streamer. *)
Lemma life_goto_ns r r' c cl pc id ns ns' :
  client_life r -> r_calls r !! c = Some cl -> r_calls r' = <[c := cl <| c_pc := pc |>]> (r_calls r) ->
  r_objects r !! id = Some ns -> r_objects r' = <[id := ns']> (r_objects r) -> ns_TargetIP ns' = ns_TargetIP ns ->
  ns_life (r_stopall r) id ns' -> r_stopall r' = r_stopall r -> r_streamers r' = r_streamers r -> r_mu r' = r_mu r ->
  pc_life r pc -> locks pc = false -> locks (c_pc cl) = false -> client_life r'.
Proof.
  intros I Hc Hc' Hid Ho Ht Hns Hsa Hm Hmu Hpc Hl Hl'. assert (ns_grow r r') as G by by eapply ns_grow_set.
  eapply (life_call r r' c cl _ I Hc Hc' G Hsa); [intros j nj; by eapply set_ns_life|rewrite Hm; by left|by eapply pc_life_mono|..];
    simpl; rewrite ?Hl, ?Hl'; done.
Qed.

(** A new call. *)
Lemma life_begin r c env wait now :
  client_life r -> r_calls r !! c = None ->
  client_life (r <| r_calls ::= <[c := mkCall env wait now CResolve []]> |>).
Proof.
  intros [In Im Ic Iu Is] Hc. constructor; simpl; try done.
  - intros d cd. rewrite lookup_insert. case_decide; [by intros [= <-]|apply Ic].
  - intros d. rewrite Iu. split; intros (cd & Hd & Hlk); exists cd.
    + rewrite lookup_insert_ne by congruence. done.
    + rewrite lookup_insert in Hd. case_decide; [by simplify_eq|done].
Qed.

(** A new streamer. *)
Lemma life_created r c cl ip att id :
  client_life r -> r_calls r !! c = Some cl -> c_pc cl = CCreate ip att -> r_objects r !! id = None ->
  client_life (goto c (CPut ip att id) (set_ns id (NewNodeStreamer ip) r)).
Proof.
  intros I Hc Hp Hid. pose proof (cf_call _ I _ _ Hc) as Hpc. rewrite Hp in Hpc. simpl in Hpc.
  eapply (life_call r _ c cl); [exact I|exact Hc|exact (goto_calls _ _ _ _ Hc)|..]; simpl; try done.
  - intros j nj Hj. exists nj. simpl. rewrite lookup_insert_ne; [done|congruence].
  - intros j nj. rewrite lookup_insert. case_decide; [|by left]. intros [= <-]. by right.
  - by left.
  - split; [done|]. exists (NewNodeStreamer ip). simpl. by rewrite lookup_insert_eq.
  - intros _. rewrite Hp. split; [|by left]. apply (cf_mu _ I). exists cl. by rewrite Hp.
Qed.

(** The call [c] only moves on, to a state given by the step. *)
Ltac call_goes r c cl I Hc Hp :=
  eapply (life_goto r _ c cl); [exact I|exact Hc|exact (goto_calls _ _ _ _ Hc)|reflexivity|reflexivity|..];
  simpl; rewrite ?Hp; simpl; eauto using delete_sub.
Ltac call_goes_ns r c cl id ns I Hc Hp Hid :=
  eapply (life_goto_ns r _ c cl _ id ns); [exact I|exact Hc|exact (goto_calls _ _ _ _ Hc)|exact Hid|reflexivity|reflexivity|
    apply (ns_life_same _ _ ns); [by apply (cf_ns _ I)|done..]|reflexivity|reflexivity|reflexivity|..]; simpl; rewrite ?Hp; simpl; eauto.

Lemma call_life r r' : client_life r -> call_step error_string targetSize r r' -> client_life r'.
Proof.
  intros I [c env wait now Hc|c cl x e [Hc Hp] E|c cl x ip [Hc Hp] E|c cl ip att [Hc Hp]|c cl ip att [Hc Hp]
    |c cl ip att [Hc Hp] Hmu|c cl ip att id ns [Hc Hp] Hl Hd|c cl ip att id ns [Hc Hp] Hl Hd|c cl ip att [Hc Hp] Hl
    |c cl ip att [Hc Hp]|c cl ip att [Hc Hp]|c cl ip att id [Hc Hp] Hid|c cl ip att id [Hc Hp]
    |c cl ip att id ns [Hc Hp] Hid Hfree|c cl ip att id ns [Hc Hp] Hid Hroom|c cl ip att id ns [Hc Hp] Hid Hx
    |c cl ip att id ns [Hc Hp] Hid Hfree Ha|c cl ip att id ns [Hc Hp] Hid Hfree Ha|c cl res rest [Hc Hp] Hch
    |c cl ids [Hc Hp] Hids|c cl id ids ns [Hc Hp] Hid Hfree|c cl [Hc Hp]].
  1:{ by apply life_begin. }
  all: pose proof (cf_call _ I _ _ Hc) as Hpc; rewrite Hp in Hpc; simpl in Hpc.
  all: assert (locks (c_pc cl) = true -> r_mu r = Some c) as Hown by (intros Hlk; apply (cf_mu _ I); by exists cl).
  all: rewrite Hp in Hown; simpl in Hown.
  all: try (call_goes r c cl I Hc Hp; done).
  all: try (call_goes_ns r c cl id ns I Hc Hp Hid; done).
  - call_goes r c cl I Hc Hp; destruct (load_streamer r ip) as [[id ns]|] eqn:El; try done;
      destruct (ns_IsDead ns); simpl; try done. split; [done|]. by eapply load_at.
  - call_goes r c cl I Hc Hp; [|done]. split; [done|]. by eapply load_at.
  - by eapply life_created.
  - eapply (life_call r _ c cl); [exact I|exact Hc|exact (goto_calls _ _ _ _ Hc)|by apply ns_grow_same|reflexivity|by left|..]; simpl.
    + intros ip' id'. rewrite lookup_insert. case_decide; [|by left]. intros [= <-]. right. subst ip'. by destruct Hpc.
    + done.
    + done.
    + by rewrite Hp.
  - call_goes_ns r c cl id ns I Hc Hp Hid; by destruct (c_wait cl).
  - call_goes_ns r c cl id ns I Hc Hp Hid. lia.
  - eapply (life_call r _ c cl); [exact I|exact Hc|reflexivity|by apply ns_grow_same|reflexivity|by left|by left|done|done|].
    by rewrite Hp.
  - call_goes r c cl I Hc Hp. by apply streamers_perm_exist.
  - call_goes_ns r c cl id ns I Hc Hp Hid. by apply list.Forall_cons in Hpc as [_ ?].
Qed.

(** A streamer moves on by itself. *)
Ltac streamer_goes r id ns I Hid :=
  pose proof (cf_ns _ I _ _ Hid) as Hns;
  eapply (life_ns r _ id ns); [exact I|exact Hid|reflexivity|try reflexivity| |reflexivity|reflexivity|try done..];
  try (destruct Hns; constructor; simpl; try done; eauto; fail).

Lemma sent_batch_target b ns : ns_TargetIP (sent_batch b ns) = ns_TargetIP ns.
Proof. by destruct b. Qed.

Lemma sent_batch_life sa id b ns : ns_life sa id ns -> ns_life sa id (sent_batch b ns).
Proof. intros Hl. by eapply ns_life_same; [exact Hl|destruct b..]. Qed.

Lemma flusher_life r r' : client_life r -> flusher_step targetSize r r' -> client_life r'.
Proof.
  intros I [id ns Hid Hf Hx|id ns Hid Hf Hx|id ns env rest Hid Hf Hch Hlen|id ns env rest Hid Hf Hch Hlen
    |id ns env rest Hid Hf Hch Hlen|id ns Hid Hf|id ns Hid Hf Hb|id ns Hid Hf Hx]; streamer_goes r id ns I Hid.
  - apply (sent_batch_target _ ns).
  - apply (sent_batch_life _ _ (ns_batch ns) ns) in Hns as Hs. destruct Hs. constructor; simpl; eauto.
    intros _. right. by destruct (ns_batch ns).
  - rewrite sent_batch_target. done.
  - apply sent_batch_life. by apply (ns_life_same _ _ ns).
  - apply sent_batch_target.
  - by apply sent_batch_life.
Qed.

Lemma receiver_life r r' : client_life r -> receiver_step r r' -> client_life r'.
Proof.
  intros I [id ns rs Hid Hp|id ns Hid Hp Hx|id ns Hid Hp Hx|id ns Hid Hp|id ns Hid Hp|id ns res rs cm Hid Hp Hfree E
    |id ns res rs cm e d Hid Hp Hfree E Hd|id ns res c rs Hid Hp Hroom|id ns code Hid Hp Hx]; streamer_goes r id ns I Hid.
  - destruct Hns. constructor; simpl; eauto. by destruct (respCh e).
  - intros d'. apply (deliver_pcs c _ r).
Qed.

Lemma fail_life r r' : client_life r -> fail_step r r' -> client_life r'.
Proof.
  intros I [id ns Hid Hf Hn|id ns code Hid Hp Hn|id ns code Hid Hn|id ns code Hid Hn|id ns code Hid Hn
    |id ns i code k cm e Hid Hn He Hr|id ns i code k cm e c Hid Hn He Hr Hroom|id ns i code Hid Hn Hs|id ns Hid Hn];
    streamer_goes r id ns I Hid.
  - destruct Hns. constructor; simpl; eauto; case_decide; try done. intros i c [= <- _]. lia.
  - destruct Hns. constructor; simpl; eauto; [done|]. intros i c [= <- _]. lia.
  - simpl. eauto using delete_sub.
  - intros d'. apply (deliver_pcs c _ r).
  - destruct Hns. constructor; simpl; eauto; case_decide; try done. intros i' c [= <- _]. lia.
Qed.

(** The streamers, when StopAll is not waiting for one of them. *)
Lemma ns_life_stop sa sa' id ns : (forall ids, sa <> SaWait id ids) -> ns_life sa id ns -> ns_life sa' id ns.
Proof. intros Hn []. constructor; try done. intros Hs. left. destruct (nl_stop0 Hs) as [|[ids E]]; [done|by destruct (Hn ids)]. Qed.

Lemma stopall_life r r' : client_life r -> stopall_step r r' -> client_life r'.
Proof.
  intros I Hst.
  assert (forall sa, (forall id ids, r_stopall r <> SaWait id ids) -> Forall (exists_ns r) (stop_ids sa) ->
    client_life (r <| r_stopall := sa |>)) as Hsa.
  { intros sa Hn Hf. destruct I as [In Im Ic Iu Is]. constructor; simpl; try done.
    intros id ns Hid. eapply ns_life_stop; [|by apply In]. by intros ids. }
  pose proof (cf_stop _ I) as Hf.
  destruct Hst as [ids Hp Hids|id ids ns Hp Hid Hd|id ids ns Hp Hid Hd|id ids ns Hp Hid Hd|id ids ns Hp Hid Hd|Hp];
    rewrite Hp in Hf; simpl in Hf.
  - apply Hsa; [congruence|]. by apply streamers_perm_exist.
  - apply Hsa; [congruence|done].
  - assert (client_life (r <| r_stopall := SaWait id ids |>)) as I' by (apply Hsa; [congruence|done]).
    eapply (life_ns (r <| r_stopall := SaWait id ids |>)); [exact I'|exact Hid|reflexivity|reflexivity| |reflexivity|reflexivity|done|done].
    destruct (cf_ns _ I' _ _ Hid). constructor; simpl; eauto.
  - apply Hsa; [congruence|]. by apply list.Forall_cons in Hf as [_ ?].
  - apply list.Forall_cons in Hf as [_ Hf].
    assert (ns_grow r (set_ns id (ns <| ns_cancelled := true |>) (r <| r_stopall := SaNext ids |>))) as G by by eapply ns_grow_set.
    destruct I as [In Im Ic Iu Is]. constructor; simpl; try done.
    + intros j nj. rewrite lookup_insert. case_decide as Hj.
      * subst j. intros [= <-]. destruct (In _ _ Hid). constructor; simpl; auto.
      * intros Hnj. eapply ns_life_stop; [|by apply In]. rewrite Hp. intros ids' [= E _]. congruence.
    + intros ip i Hip. eapply at_ns_mono; eauto.
    + intros c cl Hc. eapply pc_life_mono; eauto.
    + by eapply exists_all_mono.
  - apply Hsa; [congruence|constructor].
Qed.

Lemma client_step_life r r' : client_life r -> client_step error_string targetSize r r' -> client_life r'.
Proof.
  intros I [Hs|Hs|Hs|Hs|Hs|x ->]; [by eapply call_life|by eapply flusher_life|by eapply receiver_life|by eapply fail_life|by eapply stopall_life|].
  destruct I as [In Im Ic Iu Is]. by constructor.
Qed.

Lemma client_reachable_life r : client_reachable error_string targetSize r -> client_life r.
Proof.
  intros (x & Hs). eapply (rtc_invariant (client_step error_string targetSize) client_life); [apply client_step_life| |exact Hs].
  constructor; simpl; try done. intros c. split; [done|]. intros (cl & Hc & _). by rewrite lookup_empty in Hc.
Qed.
End Life.

(** ** Progress *)

Section Work.
Context {R Er : Type} `{TopologyResolver R Er} (error_string : Er -> string) (targetSize : nat).
Implicit Types r : router R.

(** The client's own work: no new call, nothing from the network, no tick of a flusher
    that has nothing to send, no call of StopAll. *)
Inductive client_work r r' : Prop :=
  | cw_call : call_step error_string targetSize r r' ->
      (forall c, r_calls r !! c = None -> r_calls r' !! c = None) -> client_work r r'
  | cw_flusher : flusher_step targetSize r r' -> r_objects r' <> r_objects r -> client_work r r'
  | cw_receiver : receiver_step r r' ->
      (forall id ns, r_objects r !! id = Some ns -> ns_receiver ns = RcRecv -> r_objects r' !! id = Some ns) ->
      client_work r r'
  | cw_fail : fail_step r r' -> client_work r r'
  | cw_stopall : stopall_step r r' -> r_stopall r <> SaNone -> client_work r r'.

Definition can_work r : Prop := exists r', client_work r r'.

(** A goroutine of the streamer is about to send to the response channel of call [c]. *)
Definition sends_to (ns : streamer) (c : nat) : Prop :=
  (exists res rs, ns_receiver ns = RcDeliver res c rs) \/
  (exists i code k cm e, ns_fail ns = FailShard i code /\ fail_entry i k (ns_callbackMap ns) = Some (cm, e) /\ respCh e = Some c).

(** It waits: the channel is full, and its call is not in the select that reads it. *)
Definition sender_blocked r : Prop :=
  exists id ns c cl, r_objects r !! id = Some ns /\ sends_to ns c /\ r_calls r !! c = Some cl /\
    c_ch cl <> [] /\ c_pc cl <> CWait.

(** StopAll waits for a stream that the node has not ended. *)
Definition awaits_network r : Prop :=
  exists id ids ns, r_stopall r = SaWait id ids /\ r_objects r !! id = Some ns /\ ns_receiver ns = RcRecv.

Definition goes_on r : Prop := can_work r \/ sender_blocked r.

Lemma by_call_step r c pc r0 :
  r_calls r0 = r_calls r -> call_step error_string targetSize r (goto c pc r0) -> can_work r.
Proof.
  intros E Hs. eexists. apply cw_call; [exact Hs|]. intros d Hd. simpl. rewrite E. by apply lookup_alter_None.
Qed.

(** A send to a response channel goes through, or its call reads the channel, or it waits. *)
Lemma send_goes_on r id ns c :
  r_objects r !! id = Some ns -> sends_to ns c -> is_Some (r_calls r !! c) ->
  (ch_room r c -> can_work r) -> goes_on r.
Proof.
  intros Hid Hs [cl Hc] Hroom. destruct (c_ch cl) as [|res rest] eqn:Ech; [left; apply Hroom; by exists cl|].
  assert (c_pc cl = CWait \/ c_pc cl <> CWait) as [Hw|Hw] by (destruct (c_pc cl); auto).
  - left. eexists. apply cw_call; [eapply (wait_result _ _ _ c cl res rest); [by split|done]|].
    intros d Hd. simpl. rewrite lookup_insert_ne; [done|congruence].
  - right. exists id, ns, c, cl. split_and!; try done. by rewrite Ech.
Qed.

Lemma fail_can_work r r' : fail_step r r' -> goes_on r.
Proof. intros Hs. left. exists r'. by apply cw_fail. Qed.

(** A streamer that is failing goes on. *)
Lemma failing_goes_on r id ns :
  cinv targetSize r -> client_life r -> r_objects r !! id = Some ns ->
  ns_fail ns <> FailNot -> ns_fail ns <> FailDone -> goes_on r.
Proof.
  intros I L Hid Hn Hd. destruct (ns_fail ns) as [|code|code|code|i code| |] eqn:E; try done;
    [by eapply fail_can_work, fail_dead|by eapply fail_can_work, fail_evict|by eapply fail_can_work, fail_evict_delete| |
     by eapply fail_can_work, fail_close].
  destruct (no_map _ _ _ (ci_ns _ _ I _ _ Hid)) as (f & Hrep & Hown).
  destruct (lookup_lt_is_Some_2 (cm_shards (ns_callbackMap ns)) i) as [sh Hsh].
  { rewrite (cr_length _ _ Hrep). by eapply (nl_shard _ _ _ (cf_ns _ L _ _ Hid)). }
  destruct (map_choose_or_empty sh) as [(k & e & Hk)| ->]; [|by eapply fail_can_work, fail_shard_done].
  assert (fail_entry i k (ns_callbackMap ns) = Some (cm_remove i k (ns_callbackMap ns), e)) as He
    by (unfold fail_entry; rewrite Hsh; simpl; by rewrite Hk).
  destruct (respCh e) as [c|] eqn:Ech; [|by eapply fail_can_work, fail_entry_silent].
  destruct (cm_rep_fail _ _ _ _ _ _ Hrep He) as [Hf _].
  apply (send_goes_on r id ns c Hid).
  - right. by exists i, code, k, (cm_remove i k (ns_callbackMap ns)), e.
  - destruct (Hown _ _ _ Hf Ech) as (cl & Hc & _). by exists cl.
  - intros Hroom. eexists. apply cw_fail. by eapply fail_entry_notify.
Qed.

(** Whoever waits for the lock of a shard, [FailAll] goes on. *)
Lemma shard_goes_on r id ns k :
  cinv targetSize r -> client_life r -> r_objects r !! id = Some ns -> (cb_free ns k -> goes_on r) -> goes_on r.
Proof.
  intros I L Hid Hfree. unfold cb_free in Hfree. destruct (ns_fail ns) as [|code|code|code|i code| |] eqn:E; auto.
  eapply failing_goes_on; eauto; congruence.
Qed.

(** The holder of [mu] goes on. *)
Lemma holder_goes_on r c cl : r_calls r !! c = Some cl -> locks (c_pc cl) = true -> can_work r.
Proof.
  intros Hc Hl. destruct (c_pc cl) as [| | | |ip att|ip att|ip att|ip att id| | | | | |] eqn:E; try done.
  - destruct (load_streamer r ip) as [[id ns]|] eqn:El; [destruct (ns_IsDead ns) eqn:Ed|].
    + eapply (by_call_step r c); [|eapply get_second_dead; [by split|done|done]]. done.
    + eapply (by_call_step r c); [|eapply get_second_hit; [by split|done|done]]. done.
    + eapply (by_call_step r c); [|eapply get_second_none; [by split|done]]. done.
  - eapply (by_call_step r c); [|eapply get_second_evict; by split]. done.
  - eapply (by_call_step r c); [|eapply create_failed; by split]. done.
  - eapply (by_call_step r c); [|eapply create_put; by split]. done.
Qed.

(** A receiver that is not in Recv goes on, or has closed [done]. *)
Lemma receiver_goes_on r id ns :
  cinv targetSize r -> client_life r -> r_objects r !! id = Some ns -> ns_receiver ns <> RcRecv ->
  ns_doneClosed ns = true \/ goes_on r.
Proof.
  intros I L Hid Hn.
  assert (forall r', receiver_step r r' -> (forall j, j <> id -> r_objects r' !! j = r_objects r !! j) -> goes_on r) as Hgo.
  { intros r' Hs Hj. left. exists r'. apply cw_receiver; [done|]. intros j nj Hnj Hrecv.
    destruct (decide (j = id)) as [->|Hne]; [congruence|by rewrite Hj]. }
  assert (forall ns' j, j <> id -> <[id := ns']> (r_objects r) !! j = r_objects r !! j) as Hins
    by (intros; by apply lookup_insert_ne).
  destruct (ns_receiver ns) as [|rs|res c rs|code|] eqn:E; [done|right..|].
  - destruct rs as [|res rs]; [eapply Hgo; [by eapply rc_done|exact (Hins _)]|].
    apply (shard_goes_on r id ns (ResRequestId res) I L Hid). intros Hfree.
    destruct (cm_LoadAndDelete (ResRequestId res) (ns_callbackMap ns)) as [cm [e|]] eqn:Ecm.
    + eapply Hgo; [by eapply (rc_answer _ _ _ _ _ _ _ 0)|exact (Hins _)].
    + eapply Hgo; [by eapply rc_unknown|exact (Hins _)].
  - pose proof (no_receiver _ _ _ (ci_ns _ _ I _ _ Hid)) as Hrc. rewrite E in Hrc. destruct Hrc as [_ (cl & Hc & _)].
    apply (send_goes_on r id ns c Hid); [left; by exists res, rs|by exists cl|]. intros Hroom.
    eexists. apply cw_receiver; [by eapply rc_deliver|]. intros j nj Hnj Hrecv. simpl. rewrite lookup_insert.
    case_decide; [congruence|done].
  - destruct (ns_fail ns) as [|code'|code'|code'|i code'| |] eqn:Ef;
      [by eapply fail_can_work, fail_receiver|by eapply failing_goes_on; eauto; congruence..|].
    eapply Hgo; [by eapply rc_failed|exact (Hins _)].
  - left. by apply (nl_receiver _ _ _ (cf_ns _ L _ _ Hid)).
Qed.

(** A full queue: the flusher takes from it, or the streamer is being closed. *)
Lemma queue_goes_on r id ns :
  cinv targetSize r -> client_life r -> (0 < targetSize)%nat -> r_objects r !! id = Some ns ->
  (targetSize * 2 <= length (ns_envelopeCh ns))%nat -> ns_cancelled ns = false -> goes_on r \/ awaits_network r.
Proof.
  intros I L Hsize Hid Hfull Hx. pose proof (cf_ns _ L _ _ Hid) as Hl.
  destruct (ns_envelopeCh ns) as [|env rest] eqn:Eq; [simpl in Hfull; lia|].
  assert (forall ns', ns_envelopeCh ns' = rest -> <[id := ns']> (r_objects r) <> r_objects r) as Hne.
  { intros ns' Ens E. assert (ns' = ns) as -> by (apply (inj Some); by rewrite <- Hid, <- E, lookup_insert_eq).
    rewrite Eq in Ens. apply (f_equal length) in Ens. simpl in Ens. lia. }
  destruct (ns_flusher ns) eqn:Ef.
  - left. left. destruct (decide (length (ns_batch ns ++ [env]) < targetSize)%nat) as [Hlt|Hge].
    + eexists. apply cw_flusher; [by eapply fl_receive|]. by apply Hne.
    + eexists. apply cw_flusher; [eapply fl_receive_send; [done|done|done|lia]|]. apply Hne. by destruct (ns_batch ns).
  - left. destruct (ns_fail ns) as [|code|code|code|i code| |] eqn:Efail;
      [by eapply fail_can_work, fail_flusher|by eapply failing_goes_on; eauto; congruence..|].
    rewrite (nl_done _ _ _ Hl Efail) in Hx. done.
  - destruct (nl_flusher _ _ _ Hl Ef) as [|Hs]; [congruence|].
    destruct (nl_stop _ _ _ Hl Hs) as [|[ids Hsa]]; [congruence|].
    assert (ns_receiver ns = RcRecv \/ ns_receiver ns <> RcRecv) as [Hr|Hr] by (destruct (ns_receiver ns); auto).
    + right. by exists id, ids, ns.
    + left. destruct (receiver_goes_on r id ns I L Hid Hr) as [Hd|]; [|done]. left. eexists.
      apply cw_stopall; [by eapply sa_done|congruence].
Qed.

Lemma call_goes_on r c cl :
  (forall t u, is_Some (tr_GetNodeIP (r_resolver r) t u)) -> (0 < targetSize)%nat ->
  cinv targetSize r -> client_life r -> r_calls r !! c = Some cl ->
  (exists o, c_pc cl = CReturned o) \/ (goes_on r \/ awaits_network r).
Proof.
  intros Htot Hsize I L Hc. pose proof (cf_call _ L _ _ Hc) as Hpc.
  assert (can_work r -> (exists o, c_pc cl = CReturned o) \/ (goes_on r \/ awaits_network r)) as Hgo
    by (intros; right; left; by left).
  assert (forall pc r0, r_calls r0 = r_calls r -> call_step error_string targetSize r (goto c pc r0) ->
    (exists o, c_pc cl = CReturned o) \/ (goes_on r \/ awaits_network r)) as Hstep.
  { intros pc r0 E Hs. apply Hgo. by eapply (by_call_step r c pc r0). }
  destruct (c_pc cl) as [|ip att|ip att|ip att|ip att|ip att|ip att|ip att id|ip att id|ip att id|ip att id| |ids|o] eqn:E; simpl in Hpc.
  - destruct (Htot (EnvTenantId (c_env cl)) (EnvUid (c_env cl))) as [[x [ip|e]] Er'].
    + eapply Hstep; [|eapply call_resolved; [by split|done]]. done.
    + eapply Hstep; [|eapply call_discovery_error; [by split|done]]. done.
  - eapply Hstep; [|eapply get_first; by split]. done.
  - eapply Hstep; [|eapply get_evict; by split]. done.
  - destruct (r_mu r) as [d|] eqn:Hmu.
    + destruct (proj1 (cf_mu _ L d) Hmu) as (cd & Hd & Hlk). apply Hgo. by eapply holder_goes_on.
    + eapply Hstep; [|eapply get_lock; [by split|done]]. done.
  - apply Hgo. eapply holder_goes_on; [done|by rewrite E].
  - apply Hgo. eapply holder_goes_on; [done|by rewrite E].
  - apply Hgo. eapply holder_goes_on; [done|by rewrite E].
  - apply Hgo. eapply holder_goes_on; [done|by rewrite E].
  - destruct Hpc as [_ (ns & Hid & _)]. right. left. apply (shard_goes_on r id ns (EnvRequestId (c_env cl)) I L Hid).
    intros Hfree. left. eapply by_call_step; [|eapply dispatch_store; [by split|done|done]]. done.
  - destruct Hpc as [_ (ns & Hid & _)]. destruct (decide (length (ns_envelopeCh ns) < targetSize * 2)%nat) as [Hroom|Hfull].
    + eapply Hstep; [|eapply dispatch_enqueue; [by split|done|done]]. done.
    + destruct (ns_cancelled ns) eqn:Hx.
      * eapply Hstep; [|eapply dispatch_cancelled; [by split|done|done]]. done.
      * right. eapply queue_goes_on; [done|done|done|done|lia|done].
  - destruct Hpc as [_ (ns & Hid & _)]. right. left. apply (shard_goes_on r id ns (EnvRequestId (c_env cl)) I L Hid).
    intros Hfree. left. destruct (decide (S att < 2)%nat) as [Ha|Ha].
    + eapply by_call_step; [|eapply dispatch_retry; [by split|done|done|done]]. done.
    + eapply by_call_step; [|eapply dispatch_give_up; [by split|done|done|lia]]. done.
  - eapply Hstep; [|eapply wait_timeout; [by split|reflexivity]]. done.
  - destruct ids as [|id ids]; [eapply Hstep; [|eapply timeout_return; by split]; done|].
    apply list.Forall_cons in Hpc as [[ns Hid] _]. right. left.
    apply (shard_goes_on r id ns (EnvRequestId (c_env cl)) I L Hid). intros Hfree. left.
    eapply by_call_step; [|eapply timeout_delete; [by split|done|done]]. done.
  - left. by exists o.
Qed.
End Work.
