(* ===== verification/ClientTerm.v ===== *)
(** * Calls of the client return

    Progress of cmd/client under any scheduler.  What the callers of ExecuteAndWait and
    EmulateGatewayFlow set going (attempts, queued envelopes, results to hand out,
    failing streamers, time-outs) ends by itself: the number of working steps is bounded
    by a weight of the state.  And where the client has no work left every call has
    returned, but for the two circumstances of [ClientLife]. *)

From S2P Require Import Prelude Wire Discovery Mailbox Callbacks Client ClientInv ClientLife.

(** ** Entries of a callback map *)

Definition cm_count (cm : ShardedCallbackMap) : nat := sum_list_with size (cm_shards cm).

Lemma sum_alter {A} (f : A -> nat) g i l x :
  l !! i = Some x -> (sum_list_with f (alter g i l) + f x = sum_list_with f l + f (g x))%nat.
Proof.
  revert i. induction l as [|y l IH]; intros [|i] Hi; try done.
  - injection Hi as ->. simpl. lia.
  - specialize (IH i Hi). change (alter g (S i) (y :: l)) with (y :: alter g i l). simpl. lia.
Qed.

Lemma count_store k e cm : (cm_count (cm_Store k e cm) <= cm_count cm + 1)%nat.
Proof.
  unfold cm_count, cm_Store. simpl. destruct (cm_shards cm !! cm_ix k) as [sh|] eqn:E.
  - pose proof (sum_alter size <[k := e]> _ _ _ E) as Hs. rewrite map_size_insert in Hs. destruct (sh !! k); simpl in Hs; lia.
  - assert (alter <[k := e]> (cm_ix k) (cm_shards cm) = cm_shards cm) as ->; [|lia].
    apply list_eq. intros j. rewrite list_lookup_alter. case_decide; [subst j; by rewrite E|done].
Qed.

Lemma count_remove i k cm sh e :
  cm_shards cm !! i = Some sh -> sh !! k = Some e -> (cm_count (cm_remove i k cm) + 1 = cm_count cm)%nat.
Proof.
  intros Hi Hk. unfold cm_count, cm_remove. simpl. pose proof (sum_alter size (delete k) _ _ _ Hi) as Hs.
  rewrite map_size_delete, Hk in Hs. assert (size sh <> 0)%nat; [|lia]. apply map_size_ne_0_lookup. eauto.
Qed.

Lemma count_lookup k cm e :
  cm_lookup cm k = Some e -> (cm_count (cm_remove (cm_ix k) k cm) + 1 = cm_count cm)%nat.
Proof.
  unfold cm_lookup. destruct (cm_shards cm !! cm_ix k) as [sh|] eqn:E; [|done]. simpl. by apply count_remove.
Qed.

Lemma count_delete k cm : (cm_count (cm_Delete k cm) <= cm_count cm)%nat.
Proof. unfold cm_Delete. destruct (cm_lookup cm k) as [e|] eqn:E; [|done]. apply count_lookup in E. lia. Qed.

Lemma count_load k cm cm' o : cm_LoadAndDelete k cm = (cm', o) -> (cm_count cm' <= cm_count cm)%nat.
Proof.
  unfold cm_LoadAndDelete. destruct (cm_lookup cm k) as [e|] eqn:E; intros [= <- _]; [|done].
  apply count_lookup in E. lia.
Qed.

Lemma count_fail i k cm cm' e : fail_entry i k cm = Some (cm', e) -> (cm_count cm' + 1 = cm_count cm)%nat.
Proof.
  unfold fail_entry. destruct (cm_shards cm !! i) as [sh|] eqn:E; [|done]. simpl.
  destruct (sh !! k) as [e'|] eqn:Ek; [|done]. simpl. intros [= <- _]. by eapply count_remove.
Qed.

(** ** The weight of a state *)

Definition fail_weight (pc : fail_pc) : nat :=
  match pc with
  | FailNot => 262 | FailStarted _ => 261 | FailEvict _ => 260 | FailEvictDel _ => 259
  | FailShard i _ => 258 - i | FailClose => 1 | FailDone => 0
  end.
Definition flusher_weight (pc : flusher_pc) : nat := match pc with FlLoop => 2 | FlFail => 1 | FlExited => 0 end.
Definition receiver_weight (pc : receiver_pc) : nat :=
  match pc with
  | RcRecv | RcExited => 0 | RcFail _ => 1
  | RcResults rs => 2 * length rs + 1 | RcDeliver _ _ rs => 2 * length rs + 2
  end.
Definition ns_weight (ns : streamer) : nat :=
  fail_weight (ns_fail ns) + cm_count (ns_callbackMap ns) + 2 * length (ns_envelopeCh ns) + length (ns_batch ns) +
  flusher_weight (ns_flusher ns) + receiver_weight (ns_receiver ns).
Definition stopall_weight (sa : stopall_pc) : nat :=
  match sa with
  | SaNone | SaDone => 0 | SaNext ids => 2 * length ids + 1 | SaDead _ ids | SaWait _ ids => 2 * length ids + 2
  end.

(** The streamers a call may still create. *)
Definition creations (pc : call_pc) : nat :=
  match pc with
  | CResolve => 2
  | CGet _ att | CGetDel _ att | CLock _ att | CGet2 _ att | CGetDel2 _ att | CCreate _ att => 2 - att
  | CPut _ att _ | CStore _ att _ | CSelect _ att _ | CDelete _ att _ => 1 - att
  | CWait | CTimeout _ | CReturned _ => 0
  end.

(** The steps of an attempt; a new streamer weighs 264. *)
Definition attempt_weight (pc : call_pc) : nat :=
  match pc with
  | CResolve => 616
  | CGet _ att => 305 + 310 * (1 - att) | CGetDel _ att => 304 + 310 * (1 - att) | CLock _ att => 303 + 310 * (1 - att)
  | CGet2 _ att => 302 + 310 * (1 - att) | CGetDel2 _ att => 301 + 310 * (1 - att) | CCreate _ att => 300 + 310 * (1 - att)
  | CPut _ att _ => 7 + 310 * (1 - att) | CStore _ att _ => 6 + 310 * (1 - att)
  | CSelect _ att _ => 4 + 310 * (1 - att) | CDelete _ att _ => 3 + 310 * (1 - att)
  | CWait | CTimeout _ | CReturned _ => 0
  end.

(** A call that times out visits every streamer, of which there are at most [bound]. *)
Definition call_weight (bound : nat) (pc : call_pc) : nat :=
  match pc with
  | CReturned _ => 0
  | CTimeout ids => 1 + length ids
  | _ => attempt_weight pc + (bound + 2)
  end.

Section Weight.
Context {R : Type}.
Implicit Types r : router R.

Definition streamer_bound r : nat := size (r_objects r) + msum (fun cl => creations (c_pc cl)) (r_calls r).
Definition calls_weight (bound : nat) r : nat := msum (fun cl => call_weight bound (c_pc cl)) (r_calls r).
Definition client_left r : nat :=
  calls_weight (streamer_bound r) r + msum ns_weight (r_objects r) + stopall_weight (r_stopall r).

Lemma call_weight_mono b b' pc : (b <= b')%nat -> (call_weight b pc <= call_weight b' pc)%nat.
Proof. intros. destruct pc; cbn -[Nat.add attempt_weight]; lia. Qed.

Lemma calls_weight_mono b b' r : (b <= b')%nat -> (calls_weight b r <= calls_weight b' r)%nat.
Proof. intros Hb. apply msum_le. intros. by apply call_weight_mono. Qed.

(** A call moves on. *)
Lemma call_lighter r r' c cl cl' :
  r_calls r !! c = Some cl -> r_calls r' = <[c := cl']> (r_calls r) -> r_stopall r' = r_stopall r ->
  (size (r_objects r') + creations (c_pc cl') <= size (r_objects r) + creations (c_pc cl))%nat ->
  (msum ns_weight (r_objects r') + call_weight (streamer_bound r) (c_pc cl') <
   msum ns_weight (r_objects r) + call_weight (streamer_bound r) (c_pc cl))%nat ->
  (client_left r' < client_left r)%nat.
Proof.
  intros Hc Hc' Hsa Hcr Hw. unfold client_left. rewrite Hsa.
  pose proof (msum_update (fun cl => creations (c_pc cl)) _ c cl' _ Hc) as Hu. simpl in Hu.
  assert (streamer_bound r' <= streamer_bound r)%nat as Hb by (unfold streamer_bound; rewrite Hc'; lia).
  pose proof (calls_weight_mono _ _ r' Hb) as Hm.
  pose proof (msum_update (fun cl => call_weight (streamer_bound r) (c_pc cl)) _ c cl' _ Hc) as Hv. simpl in Hv.
  unfold calls_weight in Hm at 2 |- * at 2. rewrite Hc' in Hm. lia.
Qed.

(** ... and changes a streamer. *)
Lemma call_ns_lighter r r' c cl cl' id ns ns' :
  r_calls r !! c = Some cl -> r_calls r' = <[c := cl']> (r_calls r) -> r_stopall r' = r_stopall r ->
  r_objects r !! id = Some ns -> r_objects r' = <[id := ns']> (r_objects r) ->
  (creations (c_pc cl') <= creations (c_pc cl))%nat ->
  (ns_weight ns' + call_weight (streamer_bound r) (c_pc cl') < ns_weight ns + call_weight (streamer_bound r) (c_pc cl))%nat ->
  (client_left r' < client_left r)%nat.
Proof.
  intros Hc Hc' Hsa Hid Ho Hcr Hw. apply (call_lighter r r' c cl cl' Hc Hc' Hsa); rewrite Ho.
  - rewrite map_size_insert_Some by eauto. lia.
  - pose proof (msum_update ns_weight _ id ns' _ Hid). lia.
Qed.

(** A streamer moves on. *)
Lemma msum_pcs (f : call_pc -> nat) (m m' : gmap nat call) :
  (forall c, c_pc <$> m' !! c = c_pc <$> m !! c) -> msum (fun cl => f (c_pc cl)) m' = msum (fun cl => f (c_pc cl)) m.
Proof.
  intros E. assert (c_pc <$> m' = c_pc <$> m) as Em by (apply map_eq; intros c; rewrite !lookup_fmap; apply E).
  assert (forall m : gmap nat call, msum (fun cl => f (c_pc cl)) m = msum f (c_pc <$> m)) as Hf.
  { intros m0. unfold msum. rewrite map_to_list_fmap. induction (map_to_list m0) as [|x l IH]; simpl; [done|]. by rewrite IH. }
  by rewrite !Hf, Em.
Qed.

Lemma ns_lighter r r' id ns ns' :
  r_objects r !! id = Some ns -> r_objects r' = <[id := ns']> (r_objects r) ->
  (forall c, c_pc <$> r_calls r' !! c = c_pc <$> r_calls r !! c) ->
  (ns_weight ns' + stopall_weight (r_stopall r') < ns_weight ns + stopall_weight (r_stopall r))%nat ->
  (client_left r' < client_left r)%nat.
Proof.
  intros Hid Ho Hc Hw. unfold client_left.
  assert (streamer_bound r' = streamer_bound r) as ->.
  { unfold streamer_bound. rewrite (msum_pcs creations _ _ Hc), Ho, map_size_insert_Some by eauto. done. }
  unfold calls_weight. rewrite (msum_pcs (call_weight (streamer_bound r)) _ _ Hc).
  pose proof (msum_update ns_weight _ id ns' _ Hid) as Hu. rewrite <- Ho in Hu. lia.
Qed.
End Weight.

(** ** Every working step lowers the weight *)

Section Steps.
Context {R Er : Type} `{TopologyResolver R Er} (error_string : Er -> string) (targetSize : nat).
Implicit Types r : router R.

(** There are at most as many streamers in the map as were created. *)
Lemma streamers_bound r ids :
  client_life r -> ids ≡ₚ (map_to_list (r_streamers r)).*2 -> (length ids <= size (r_objects r))%nat.
Proof.
  intros L ->. assert (forall ip id, (ip, id) ∈ map_to_list (r_streamers r) -> at_ns r id ip) as Hat
    by (intros ip id Hin%elem_of_map_to_list; by apply (cf_map _ L)).
  rewrite <- size_dom. unfold size, set_size. simpl.
  apply submseteq_length, NoDup_submseteq.
  - apply NoDup_fmap_2_strong; [|apply NoDup_map_to_list].
    intros [ip id] [ip' id'] Hin Hin' E. simpl in E. subst id'.
    destruct (Hat _ _ Hin) as (ns & Hns & <-), (Hat _ _ Hin') as (ns' & Hns' & <-). by simplify_eq.
  - intros id ([ip id'] & -> & Hin)%list_elem_of_fmap. apply elem_of_elements, elem_of_dom.
    destruct (Hat _ _ Hin) as (ns & Hns & _). by exists ns.
Qed.

(** The weights, with their constants as they are written. *)
Ltac weigh := cbn -[Nat.mul Nat.add Nat.sub cm_count ns_weight].
Ltac weigh_ns := unfold ns_weight; cbn -[Nat.mul Nat.add Nat.sub cm_count].

Ltac call_moves c cl Hc Hp :=
  eapply (call_lighter _ _ c cl); [exact Hc|exact (goto_calls _ _ _ _ Hc)|reflexivity|..];
  weigh; rewrite ?Hp; weigh.

Ltac call_ns_moves c cl Hc Hp id ns Hid :=
  eapply (call_ns_lighter _ _ c cl _ id ns); [exact Hc|exact (goto_calls _ _ _ _ Hc)|reflexivity|exact Hid|reflexivity|..];
  weigh_ns; rewrite ?Hp; weigh_ns.

Lemma call_work r r' :
  client_life r -> call_step error_string targetSize r r' ->
  (forall c, r_calls r !! c = None -> r_calls r' !! c = None) -> (client_left r' < client_left r)%nat.
Proof.
  intros L Hst Hnew. destruct Hst as
    [c env wait now Hc|c cl x e [Hc Hp] E|c cl x ip [Hc Hp] E|c cl ip att [Hc Hp]|c cl ip att [Hc Hp]
    |c cl ip att [Hc Hp] Hmu|c cl ip att id ns [Hc Hp] Hl Hd|c cl ip att id ns [Hc Hp] Hl Hd|c cl ip att [Hc Hp] Hl
    |c cl ip att [Hc Hp]|c cl ip att [Hc Hp]|c cl ip att id [Hc Hp] Hid|c cl ip att id [Hc Hp]
    |c cl ip att id ns [Hc Hp] Hid Hfree|c cl ip att id ns [Hc Hp] Hid Hroom|c cl ip att id ns [Hc Hp] Hid Hx
    |c cl ip att id ns [Hc Hp] Hid Hfree Ha|c cl ip att id ns [Hc Hp] Hid Hfree Ha|c cl res rest [Hc Hp] Hch
    |c cl ids [Hc Hp] Hids|c cl id ids ns [Hc Hp] Hid Hfree|c cl [Hc Hp]].
  1:{ specialize (Hnew c Hc). simpl in Hnew. by rewrite lookup_insert_eq in Hnew. }
  all: pose proof (cf_call _ L _ _ Hc) as Hpc; rewrite Hp in Hpc; simpl in Hpc.
  all: try (call_moves c cl Hc Hp; lia).
  - call_moves c cl Hc Hp; destruct (load_streamer r ip) as [[id ns]|]; [destruct (ns_IsDead ns)| |destruct (ns_IsDead ns)|]; weigh; lia.
  - call_moves c cl Hc Hp; [rewrite map_size_insert_None by done; lia|].
    rewrite (msum_new ns_weight) by done. change (ns_weight (NewNodeStreamer ip)) with 264%nat. lia.
  - call_ns_moves c cl Hc Hp id ns Hid; [lia|]. pose proof (count_store (EnvRequestId (c_env cl)) (entry_of c cl) (ns_callbackMap ns)).
    lia.
  - call_ns_moves c cl Hc Hp id ns Hid; [destruct (c_wait cl); weigh; lia|].
    rewrite length_app. destruct (c_wait cl); weigh; lia.
  - call_ns_moves c cl Hc Hp id ns Hid; [lia|]. pose proof (count_delete (EnvRequestId (c_env cl)) (ns_callbackMap ns)).
    destruct att as [|[|att]]; weigh; lia.
  - call_ns_moves c cl Hc Hp id ns Hid; [lia|]. pose proof (count_delete (EnvRequestId (c_env cl)) (ns_callbackMap ns)).
    lia.
  - eapply (call_lighter r _ c cl); [exact Hc|reflexivity|reflexivity|..]; weigh; rewrite Hp; weigh; lia.
  - pose proof (streamers_bound r ids L Hids). call_moves c cl Hc Hp; [lia|]. unfold streamer_bound. lia.
  - call_ns_moves c cl Hc Hp id ns Hid; [done|]. pose proof (count_delete (EnvRequestId (c_env cl)) (ns_callbackMap ns)).
    lia.
Qed.

Ltac ns_moves id ns Hid :=
  eapply (ns_lighter _ _ id ns); [exact Hid|reflexivity|try done|];
  weigh_ns.

Lemma sent_weight b ns :
  (ns_weight (sent_batch b ns) + length (ns_batch ns) = ns_weight ns)%nat.
Proof. unfold ns_weight. destruct b; simpl; lia. Qed.

Lemma flusher_work r r' :
  flusher_step targetSize r r' -> r_objects r' <> r_objects r -> (client_left r' < client_left r)%nat.
Proof.
  intros Hst Hne. destruct Hst as
    [id ns Hid Hf Hx|id ns Hid Hf Hx|id ns env rest Hid Hf Hch Hlen|id ns env rest Hid Hf Hch Hlen
    |id ns env rest Hid Hf Hch Hlen|id ns Hid Hf|id ns Hid Hf Hb|id ns Hid Hf Hx].
  all: try (ns_moves id ns Hid; rewrite ?Hf, ?Hch, ?length_app; weigh; lia).
  - eapply (ns_lighter _ _ id ns); [exact Hid|reflexivity|done|]. pose proof (sent_weight (ns_batch ns) ns) as Hw.
    revert Hw. destruct (ns_batch ns); weigh_ns; rewrite Hf; weigh; lia.
  - eapply (ns_lighter _ _ id ns); [exact Hid|reflexivity|done|].
    destruct (ns_batch ns ++ [env]); weigh_ns; rewrite Hch; weigh; lia.
  - eapply (ns_lighter _ _ id ns); [exact Hid|reflexivity|done|]. destruct (ns_batch ns) as [|env b] eqn:Eb.
    + destruct Hne. simpl. apply insert_id. rewrite Hid. f_equal. rewrite <- Eb. by destruct ns.
    + weigh_ns. rewrite Eb. weigh. lia.
Qed.

Lemma receiver_work r r' :
  receiver_step r r' ->
  (forall id ns, r_objects r !! id = Some ns -> ns_receiver ns = RcRecv -> r_objects r' !! id = Some ns) ->
  (client_left r' < client_left r)%nat.
Proof.
  intros Hst Hnet. destruct Hst as
    [id ns rs Hid Hp|id ns Hid Hp Hx|id ns Hid Hp Hx|id ns Hid Hp|id ns Hid Hp|id ns res rs cm Hid Hp Hfree E
    |id ns res rs cm e d Hid Hp Hfree E Hd|id ns res c rs Hid Hp Hroom|id ns code Hid Hp Hx].
  1-4: specialize (Hnet id ns Hid Hp); simpl in Hnet; rewrite lookup_insert_eq in Hnet;
    apply (inj Some), (f_equal ns_receiver) in Hnet; simpl in Hnet; congruence.
  all: try (ns_moves id ns Hid; rewrite ?Hp; weigh; lia).
  - apply count_load in E. ns_moves id ns Hid. rewrite Hp. weigh. lia.
  - apply count_load in E. ns_moves id ns Hid. rewrite Hp. destruct (respCh e); weigh; lia.
  - ns_moves id ns Hid; [intros d; apply (deliver_pcs c res r)|]. rewrite Hp. weigh. lia.
Qed.

Lemma fail_work r r' : client_life r -> fail_step r r' -> (client_left r' < client_left r)%nat.
Proof.
  intros L [id ns Hid Hf Hn|id ns code Hid Hp Hn|id ns code Hid Hn|id ns code Hid Hn|id ns code Hid Hn
    |id ns i code k cm e Hid Hn He Hr|id ns i code k cm e c Hid Hn He Hr Hroom|id ns i code Hid Hn Hs|id ns Hid Hn].
  all: try (ns_moves id ns Hid; rewrite ?Hn; weigh; lia).
  - ns_moves id ns Hid. rewrite Hn. case_decide; weigh; lia.
  - apply count_fail in He. ns_moves id ns Hid. lia.
  - apply count_fail in He. ns_moves id ns Hid; [intros d; apply (deliver_pcs c (failed_result k code) r)|]. lia.
  - pose proof (nl_shard _ _ _ (cf_ns _ L _ _ Hid) _ _ Hn). ns_moves id ns Hid. rewrite Hn. case_decide; weigh; lia.
Qed.

Lemma stopall_work r r' : stopall_step r r' -> r_stopall r <> SaNone -> (client_left r' < client_left r)%nat.
Proof.
  intros Hst Hn.
  assert (forall sa, (stopall_weight sa < stopall_weight (r_stopall r))%nat -> (client_left (r <| r_stopall := sa |>) < client_left r)%nat)
    as Hsa by (intros sa Hw; by apply Nat.add_lt_mono_l).
  destruct Hst as [ids Hp Hids|id ids ns Hp Hid Hd|id ids ns Hp Hid Hd|id ids ns Hp Hid Hd|id ids ns Hp Hid Hd|Hp];
    [done| | | | |];
    [apply Hsa; rewrite Hp; simpl; lia|ns_moves id ns Hid; rewrite Hp; simpl; lia
    |apply Hsa; rewrite Hp; simpl; lia|ns_moves id ns Hid; rewrite Hp; simpl; lia|apply Hsa; rewrite Hp; simpl; lia].
Qed.

Lemma client_work_lighter r r' :
  client_life r -> client_work error_string targetSize r r' -> (client_left r' < client_left r)%nat.
Proof.
  intros L [Hs Hn|Hs Hn|Hs Hn|Hs|Hs Hn];
    [by apply call_work|by apply flusher_work|by apply receiver_work|by apply fail_work|by apply stopall_work].
Qed.

Lemma client_work_step r r' : client_work error_string targetSize r r' -> client_step error_string targetSize r r'.
Proof. intros [Hs|Hs|Hs|Hs|Hs]; [by apply cs_call|by apply cs_flusher|by apply cs_receiver|by apply cs_fail|by apply cs_stopall]. Qed.

(** Steps between which no work is done: a tick with an empty batch, and changes of the
    topology. *)
Inductive client_pause r r' : Prop :=
  | cp_tick : flusher_step targetSize r r' -> r_objects r' = r_objects r -> client_pause r r'
  | cp_topology x : r' = r <| r_resolver := x |> -> client_pause r r'.

(** A run with [m] working steps and any number of pauses. *)
Inductive client_work_run : nat -> router R -> router R -> Prop :=
  | cwr_refl r : client_work_run 0 r r
  | cwr_work m r1 r2 r3 :
      client_work error_string targetSize r1 r2 -> client_work_run m r2 r3 -> client_work_run (S m) r1 r3
  | cwr_pause m r1 r2 r3 : client_pause r1 r2 -> client_work_run m r2 r3 -> client_work_run m r1 r3.

Lemma client_pause_step r r' : client_pause r r' -> client_step error_string targetSize r r'.
Proof. intros [Hs _|x E]; [by apply cs_flusher|by eapply cs_topology]. Qed.

Lemma flusher_frame r r' : flusher_step targetSize r r' -> r_calls r' = r_calls r /\ r_stopall r' = r_stopall r.
Proof. by intros []. Qed.

Lemma client_pause_left r r' : client_pause r r' -> client_left r' = client_left r.
Proof.
  intros [Hs E|x ->]; [|done]. apply flusher_frame in Hs as [Ec Es].
  unfold client_left, calls_weight, streamer_bound. by rewrite Ec, E, Es.
Qed.

Lemma client_reachable_next r r' :
  client_reachable error_string targetSize r -> client_step error_string targetSize r r' ->
  client_reachable error_string targetSize r'.
Proof. intros [x Hx] Hs. exists x. by eapply rtc_r. Qed.

Lemma client_work_run_reachable m r r' :
  client_work_run m r r' -> client_reachable error_string targetSize r -> client_reachable error_string targetSize r'.
Proof.
  induction 1; eauto using client_reachable_next, client_work_step, client_pause_step.
Qed.

Lemma client_work_run_bounded m r r' :
  client_work_run m r r' -> client_reachable error_string targetSize r -> (m + client_left r' <= client_left r)%nat.
Proof.
  induction 1 as [r|m r1 r2 r3 Hw Hr IH|m r1 r2 r3 Hp Hr IH]; intros Hreach; [lia|..].
  - pose proof (client_work_lighter _ _ (client_reachable_life _ _ _ Hreach) Hw).
    specialize (IH (client_reachable_next _ _ Hreach (client_work_step _ _ Hw))). lia.
  - rewrite <- (client_pause_left _ _ Hp). apply IH. eauto using client_reachable_next, client_pause_step.
Qed.

(** ** Theorem *)

(** C11: calls return.  From any reachable state of the client, whatever order its
    goroutines are scheduled in and however often flushers tick or the topology changes
    in between, at most [client_left] working steps are possible.  And wherever such a
    run stops, if the resolver answers and batches are not empty, the client can work on
    unless every call of ExecuteAndWait and EmulateGatewayFlow has returned, but for two
    circumstances: a goroutine blocks on the response channel of a call that no longer
    reads it, or StopAll waits for a stream that its node has not ended. *)
Theorem client_finishes r m r' :
  client_reachable error_string targetSize r -> client_work_run m r r' ->
  (m <= client_left r)%nat /\
  ((0 < targetSize)%nat -> (forall t u, is_Some (tr_GetNodeIP (r_resolver r') t u)) ->
   can_work error_string targetSize r' \/
   (forall c cl, r_calls r' !! c = Some cl -> exists o, c_pc cl = CReturned o) \/
   sender_blocked r' \/ awaits_network r').
Proof.
  intros Hr Hrun. pose proof (client_work_run_reachable _ _ _ Hrun Hr) as Hr'. split.
  - pose proof (client_work_run_bounded _ _ _ Hrun Hr). lia.
  - intros Hsize Htot.
    destruct (map_forall_or (fun cl => exists o, c_pc cl = CReturned o)
      (goes_on error_string targetSize r' \/ awaits_network r') (r_calls r')) as [Hall|[[|]|]]; auto.
    intros c cl Hc. eapply call_goes_on; eauto using client_reachable_inv, client_reachable_life.
Qed.
End Steps.

(** ** Witness *)

Lemma cwr_call {R Er} `{TopologyResolver R Er} error_string targetSize m (r1 r2 r2' r3 : router R) :
  call_step error_string targetSize r1 r2 -> r2 = r2' -> dom (r_calls r2') = dom (r_calls r1) ->
  client_work_run error_string targetSize m r2' r3 -> client_work_run error_string targetSize (S m) r1 r3.
Proof.
  intros Hs -> Hd. apply cwr_work, cw_call; [done|]. intros c. by rewrite <- !not_elem_of_dom, Hd.
Qed.

Tactic Notation "working" uconstr(c) := eapply cwr_call;
  [eapply c; [> first [split; vm_compute; reflexivity|vm_compute; reflexivity]..]|evaluate_state|vm_compute; reflexivity|].

(** A call whose node does not accept the connection. *)
Lemma client_finishes_witness :
  exists (r r' : router MockResolver), client_reachable mock_error_string 1 r /\
    client_work_run mock_error_string 1 5 r r' /\ (5 <= client_left r)%nat /\
    (can_work mock_error_string 1 r' \/
     (forall c cl, r_calls r' !! c = Some cl -> exists o, c_pc cl = CReturned o) \/ sender_blocked r' \/ awaits_network r').
Proof.
  eexists _, _.
  match goal with |- ?P /\ ?Q /\ _ => assert (P /\ Q) as [Hr Hrun] end.
  { split.
    - exists client_resolver. by_call (call_begin _ _ _ 0 (client_env "tx-1" 42) true 3). apply rtc_refl.
    - working (call_resolved mock_error_string 1 _ 0). working (get_first mock_error_string 1 _ 0).
      working (get_lock mock_error_string 1 _ 0). working (get_second_none mock_error_string 1 _ 0).
      working (create_failed mock_error_string 1 _ 0). apply cwr_refl. }
  destruct (client_finishes mock_error_string 1 _ _ _ Hr Hrun) as [Hle Hend]. split_and!; try done.
  apply Hend; [lia|]. intros t u. by eexists.
Defined.
