(* ===== verification/Stress.v ===== *)
(** * Request ids and the load generator: cmd/client/main.go, cmd/client/stress.go

    The request id generator, the configuration of a load test, the envelopes it
    sends, the accounting of what is in flight, the metrics relative to a baseline,
    and the engine that runs at most one test at a time.  What the clock, the
    random source and the router's counters give are arguments.  The conversion of
    durations to float64 for display is left out. *)

From stdpp Require Import pretty.
From S2P Require Import Prelude Wire Mailbox Callbacks Client.

(** ** Request ids *)

(** [init]: [uint64(rand.Intn(65536)) << 48]. *)
Definition machine_base (machineID : Z) : Z := u64 (Z.shiftl machineID 48).

(** [reqIDGenerator.Add(1)]: the generator after the call is the id. *)
Definition nextRequestID (generator : Z) : Z := u64 (generator + 1).

(** The [n]-th id of a process. *)
Fixpoint request_id (machineID : Z) (n : nat) : Z :=
  match n with
  | O => machine_base machineID
  | S n' => nextRequestID (request_id machineID n')
  end.

(** [strconv.FormatUint(reqID, 10)]. *)
Definition FormatUint (reqID : Z) : string := pretty (Z.to_N reqID).

(** ** Configuration *)

Record stressConfig := mkStressConfig {
  tpsTarget : Z; concurrency : Z;              (* int *)
  duration : Z; drainWindow : Z;               (* time.Duration, ns *)
  uidMin : Z; uidMax : Z;                      (* int64 *)
}.
#[export] Instance stressConfig_Eta : Eta stressConfig := fun c =>
  mkStressConfig (tpsTarget c) (concurrency c) (duration c) (drainWindow c) (uidMin c) (uidMax c).

Definition second : Z := 1000000000.

(** [normalize]: the configuration it leaves, and its error. *)
Definition normalize (cfg : stressConfig) : stressConfig * option string :=
  let cfg1 := if decide (drainWindow cfg <= 0) then cfg <| drainWindow := 60 * second |> else cfg in
  let cfg2 := if decide (uidMin cfg1 = 0 /\ uidMax cfg1 = 0)
              then cfg1 <| uidMin := 1 |> <| uidMax := 100 |> else cfg1 in
  if decide (uidMin cfg2 <= 0) then (cfg2, Some "uid-min must be > 0")
  else if decide (uidMax cfg2 < uidMin cfg2) then (cfg2, Some "uid-max must be >= uid-min")
  else (cfg2, None).

(** ** The generators *)

(** The pause between two requests of one generator. *)
Definition pacing (cfg : stressConfig) : Z :=
  let p := Z.quot (i64 (second * concurrency cfg)) (tpsTarget cfg) in
  if decide (p <= 0) then 1 else p.

(** [cfg.uidMin + rand.Int63n(uidSpan)]: [Int63n] panics on a span that is not
    positive; [rnd] is what the random source gives below the span. *)
Definition uidSpan (cfg : stressConfig) : Z := i64 (i64 (uidMax cfg - uidMin cfg) + 1).
Definition pick_uid (cfg : stressConfig) (rnd : Z) : option Z :=
  if decide (uidSpan cfg <= 0) then None else Some (i64 (uidMin cfg + rnd)).

(** The envelope of a deposit of [amount], as the generator (amount 1) and the
    gateway build it. *)
Definition transaction_env (reqID uid amount : Z) : RemoteEnvelope :=
  mkEnvelope 1 uid (FormatUint reqID) reqID 1 (BigEndian_PutUint64 (u64 amount)) 0.

(** ** Waiting for what is in flight *)

(** One look at the counters, and whether the deadline has passed. *)
Record drain_obs := mkDrainObs { do_sent : Z; do_recv : Z; do_err : Z; do_late : bool }.

(** [drainInFlight] over what it sees; [None] is that it has not returned yet. *)
Fixpoint drainInFlight (obs : list drain_obs) : option (bool * Z) :=
  match obs with
  | [] => None
  | o :: rest =>
      let handled := u64 (do_recv o + do_err o) in
      if decide (do_sent o <= handled) then Some (true, 0)
      else if do_late o then Some (false, u64 (do_sent o - handled))
      else drainInFlight rest
  end.

(** ** Metrics *)

Definition subtractWithFloor (curr base : Z) : Z := if decide (curr < base) then 0 else u64 (curr - base).

Record metricsBaseline := mkBaseline {
  b_sent : Z; b_success : Z; b_errors : Z; b_latencyNanos : Z; b_latencySamples : Z;
  b_errorBreakdown : gmap string Z;
}.
Definition no_baseline : metricsBaseline := mkBaseline 0 0 0 0 0 ∅.

(** [diffAvgLatency], in nanoseconds. *)
Definition diffAvgLatency (currNanos currSamples : Z) (baseline : metricsBaseline) : Z :=
  let nanos := subtractWithFloor currNanos (b_latencyNanos baseline) in
  let samples := subtractWithFloor currSamples (b_latencySamples baseline) in
  if decide (samples = 0) then 0 else i64 (nanos / samples).

Definition diffErrorBreakdown (curr base : gmap string Z) : gmap string Z :=
  map_imap (fun key value =>
    let baseValue := default 0 (base !! key) in
    if decide (value <= baseValue) then None else Some (u64 (value - baseValue))) curr.

(** One tick of [startMetricsReporter]: the rates, what is in flight, and the
    values kept for the next tick. *)
Definition metrics_tick (last curr : Z * Z * Z) : (Z * Z * Z * Z) * (Z * Z * Z) :=
  let '(lastSent, lastSuccess, lastErrors) := last in
  let '(currSent, currSuccess, currErrors) := curr in
  let handled := u64 (currSuccess + currErrors) in
  let inFlight := if decide (handled < currSent) then u64 (currSent - handled) else 0 in
  ((u64 (currSent - lastSent), u64 (currSuccess - lastSuccess), u64 (currErrors - lastErrors), inFlight), curr).

(** ** The engine *)

(** The goroutine of a run. *)
Inductive run_pc :=
  | RunGenerate | RunDrain | RunEnd     (* about to store running = false *)
  | RunClose                            (* about to close done *)
  | RunExited.

Record StressEngine := mkEngine {
  se_running : bool;
  se_currentTPS : Z;
  se_baseline : metricsBaseline;
  se_current : option nat;              (* the run that cancel and done belong to *)
  se_runs : gmap nat run_pc;
  se_cancelled : gset nat;              (* runs whose context is cancelled *)
}.
#[export] Instance StressEngine_Eta : Eta StressEngine := fun e =>
  mkEngine (se_running e) (se_currentTPS e) (se_baseline e) (se_current e) (se_runs e) (se_cancelled e).

Definition NewStressEngine : StressEngine := mkEngine false 0 no_baseline None ∅ ∅.

Definition errAlreadyRunning : string := "stress test is already running".

(** [Start] holds mu throughout; [id] names the goroutine it starts. *)
Definition engine_Start (id : nat) (cfg : stressConfig) (e : StressEngine) : StressEngine * option string :=
  if se_running e then (e, Some errAlreadyRunning)
  else match (normalize cfg).2 with
       | Some err => (e, Some err)
       | None =>
           (mkEngine true 0 no_baseline (Some id) (<[id := RunGenerate]> (se_runs e)) (se_cancelled e), None)
       end.

(** [Stop]: takes cancel and done, cancels; its caller then waits for [done]. *)
Definition engine_Stop (e : StressEngine) : StressEngine * option nat :=
  (e <| se_current := None |>
     <| se_cancelled := match se_current e with Some id => {[id]} ∪ se_cancelled e | None => se_cancelled e end |>,
   se_current e).

Definition engine_Reset (m : metrics) (e : StressEngine) : StressEngine :=
  e <| se_baseline := mkBaseline (reqSent m) (respRecv m) (errCount m) (latencyNanos m) (latencySamples m)
                        (ErrorBreakdownMap m) |>
    <| se_currentTPS := 0 |>.

Record stressStatus := mkStatus {
  IsRunning : bool; TotalSent : Z; TotalSuccess : Z; TotalErrors : Z; CurrentTPS : Z; AvgLatencyNs : Z;
  ErrorBreakdown : gmap string Z;
}.

Definition engine_Status (m : metrics) (e : StressEngine) : stressStatus :=
  let b := se_baseline e in
  mkStatus (se_running e) (subtractWithFloor (reqSent m) (b_sent b)) (subtractWithFloor (respRecv m) (b_success b))
    (subtractWithFloor (errCount m) (b_errors b)) (se_currentTPS e)
    (diffAvgLatency (latencyNanos m) (latencySamples m) b)
    (diffErrorBreakdown (ErrorBreakdownMap m) (b_errorBreakdown b)).

(** The engine under any interleaving of its callers and the runs. *)
Inductive engine_step (e : StressEngine) : StressEngine -> Prop :=
  | eng_start id cfg : se_runs e !! id = None -> engine_step e (engine_Start id cfg e).1
  | eng_stop : engine_step e (engine_Stop e).1
  | eng_reset m : engine_step e (engine_Reset m e)
  | eng_tick id pc tps :                 (* the metrics reporter of a run *)
      se_runs e !! id = Some pc -> engine_step e (e <| se_currentTPS := tps |>)
  | eng_generated id :                   (* the time is over or the run is cancelled *)
      se_runs e !! id = Some RunGenerate -> engine_step e (e <| se_runs ::= <[id := RunDrain]> |>)
  | eng_drained id :
      se_runs e !! id = Some RunDrain ->
      engine_step e (e <| se_runs ::= <[id := RunEnd]> |> <| se_currentTPS := 0 |>)
  | eng_end id :
      se_runs e !! id = Some RunEnd ->
      engine_step e (e <| se_runs ::= <[id := RunClose]> |> <| se_running := false |>)
  | eng_close id :
      se_runs e !! id = Some RunClose -> engine_step e (e <| se_runs ::= <[id := RunExited]> |>).

(** ** Theorems *)

Lemma request_id_value m n : 0 <= m < 65536 -> request_id m n = u64 (m * 2 ^ 48 + Z.of_nat n).
Proof.
  intros Hm. induction n as [|n IH]; simpl.
  - unfold machine_base. by rewrite Z.shiftl_mul_pow2, Z.add_0_r.
  - rewrite IH. unfold nextRequestID. rewrite u64_add_l. f_equal. lia.
Qed.

(** Request ids are unique.  Processes with different machine ids never
    generate the same request id, and a process never repeats one, for up to 2^48
    requests each; no id is zero, which the node would refuse. *)
Theorem request_ids_unique m1 m2 n1 n2 :
  0 <= m1 < 65536 -> 0 <= m2 < 65536 -> (0 < n1)%nat -> (0 < n2)%nat ->
  Z.of_nat n1 < 2 ^ 48 -> Z.of_nat n2 < 2 ^ 48 ->
  request_id m1 n1 <> 0 /\ (request_id m1 n1 = request_id m2 n2 -> m1 = m2 /\ n1 = n2).
Proof.
  intros Hm1 Hm2 Hn1 Hn2 Hb1 Hb2. rewrite !request_id_value by done.
  change (2 ^ 48) with 281474976710656 in *. rewrite !u64_id by go_arith. lia.
Qed.

Lemma FormatUint_inj x y : 0 <= x -> 0 <= y -> FormatUint x = FormatUint y -> x = y.
Proof. intros Hx Hy E%pretty_N_inj. lia. Qed.

Lemma request_id_range m n : 0 <= m < 65536 -> 0 <= request_id m n.
Proof. intros Hm. rewrite request_id_value by done. apply u64_range. Qed.

(** A load test only addresses accounts of its range.  When [normalize] accepts
    a configuration, [rand.Int63n] gets a positive span (no overflow, no panic),
    whatever the int64 bounds are, and the uid it gives lies between them and is
    positive, so the node accepts it. *)
Theorem stress_uids_in_range cfg cfg' rnd :
  is_i64 (uidMin cfg) -> is_i64 (uidMax cfg) -> normalize cfg = (cfg', None) ->
  0 <= rnd < uidSpan cfg' ->
  exists uid, pick_uid cfg' rnd = Some uid /\ uidMin cfg' <= uid <= uidMax cfg' /\ 0 < uid /\
    0 < drainWindow cfg'.
Proof.
  intros Hmin Hmax E Hr. unfold normalize in E.
  set (c1 := if decide (drainWindow cfg <= 0) then _ else cfg) in E.
  assert (uidMin c1 = uidMin cfg /\ uidMax c1 = uidMax cfg /\ 0 < drainWindow c1) as (E1 & E2 & Hd).
  { subst c1. clear E. unfold second. case_decide; simpl; split_and!; (done || lia). }
  set (c2 := if decide (uidMin c1 = 0 /\ uidMax c1 = 0) then _ else c1) in E.
  assert (is_i64 (uidMin c2) /\ is_i64 (uidMax c2) /\ drainWindow c2 = drainWindow c1) as (I1 & I2 & Hd2).
  { subst c2. clear E. case_decide; simpl; [done|]. by rewrite E1, E2. }
  case_decide as Hpos; [done|]. case_decide as Hle; [done|]. injection E as <-.
  assert (uidSpan c2 = uidMax c2 - uidMin c2 + 1) as Hs.
  { unfold uidSpan. rewrite (i64_id (_ - _)) by go_arith. apply i64_id. go_arith. }
  rewrite Hs in Hr. unfold pick_uid. rewrite Hs, decide_False by lia.
  eexists. split; [reflexivity|]. rewrite i64_id by go_arith. lia.
Qed.

(** A run that has not given up [running] yet. *)
Definition active_run (pc : run_pc) : Prop := pc = RunGenerate \/ pc = RunDrain \/ pc = RunEnd.

Definition engine_inv (e : StressEngine) : Prop :=
  (forall i pc, se_runs e !! i = Some pc -> active_run pc -> se_running e = true) /\
  (forall i j pi pj, se_runs e !! i = Some pi -> se_runs e !! j = Some pj ->
     active_run pi -> active_run pj -> i = j).

(** The run [id] moves from an active place to [pc]. *)
Lemma engine_inv_move e id pc0 pc b t :
  engine_inv e -> se_runs e !! id = Some pc0 -> active_run pc0 -> (active_run pc -> b = true) ->
  engine_inv (mkEngine b t (se_baseline e) (se_current e) (<[id := pc]> (se_runs e)) (se_cancelled e)).
Proof.
  intros [H1 H2] Hid Ha Hb. split; simpl.
  - intros i p [[<- <-]|[Hne Hi]]%lookup_insert_Some Hp; [auto|]. destruct Hne. by eapply H2.
  - intros i j p q [[<- <-]|[Hne Hi]]%lookup_insert_Some [[<- <-]|[Hne' Hj]]%lookup_insert_Some Hp Hq;
      [done|by eapply H2..].
Qed.

Lemma engine_step_inv e e' : engine_inv e -> engine_step e e' -> engine_inv e'.
Proof.
  intros I [id cfg Hid| |m|id pc tps Hid|id Hid|id Hid|id Hid|id Hid]; try exact I.
  - unfold engine_Start. destruct (se_running e) eqn:Er; [exact I|].
    destruct (normalize cfg).2; [exact I|]. destruct I as [H1 H2].
    assert (forall i p, se_runs e !! i = Some p -> ~ active_run p) as Hno.
    { intros i p Hi Hp. specialize (H1 i p Hi Hp). congruence. }
    split; simpl; [done|].
    intros i j p q [[<- <-]|[Hne Hi]]%lookup_insert_Some [[<- <-]|[Hne' Hj]]%lookup_insert_Some Hp Hq;
      [done|by destruct (Hno _ _ Hj)|by destruct (Hno _ _ Hi)|by eapply H2].
  - apply (engine_inv_move e id RunGenerate RunDrain _ _ I Hid); [by left|].
    intros _. apply (proj1 I id RunGenerate Hid). by left.
  - apply (engine_inv_move e id RunDrain RunEnd _ 0 I Hid); [by right; left|].
    intros _. apply (proj1 I id RunDrain Hid). by right; left.
  - apply (engine_inv_move e id RunEnd RunClose false (se_currentTPS e) I Hid); [by right; right|].
    by intros [|[|]].
  - destruct I as [H1 H2]. split; simpl.
    + intros i p [[<- <-]|[Hne Hi]]%lookup_insert_Some Hp; [by destruct Hp as [|[|]]|eauto].
    + intros i j p q [[<- <-]|[Hne Hi]]%lookup_insert_Some [[<- <-]|[Hne' Hj]]%lookup_insert_Some Hp Hq;
        [done|by destruct Hp as [|[|]]|by destruct Hq as [|[|]]|by eapply H2].
Qed.

(** At most one load test generates or drains at a time, and while one does, [Start]
    is refused. *)
Lemma one_run_at_a_time e i j pi pj :
  rtc engine_step NewStressEngine e -> se_runs e !! i = Some pi -> se_runs e !! j = Some pj ->
  active_run pi -> active_run pj ->
  i = j /\ forall id cfg, engine_Start id cfg e = (e, Some errAlreadyRunning).
Proof.
  intros Hs Hi Hj Hpi Hpj. assert (engine_inv e) as [H1 H2].
  { apply (rtc_invariant engine_step engine_inv NewStressEngine); [apply engine_step_inv| |done].
    split; simpl; intros *; by rewrite lookup_empty. }
  split; [eauto|]. intros id cfg. unfold engine_Start. by rewrite (H1 _ _ Hi Hpi).
Qed.

Lemma subtract_self x : subtractWithFloor x x = 0.
Proof. unfold subtractWithFloor. rewrite decide_False by lia. by rewrite Z.sub_diag. Qed.

(** Right after a reset the status shows no traffic and no errors. *)
Lemma reset_clears m e :
  engine_Status m (engine_Reset m e) = mkStatus (se_running e) 0 0 0 0 0 ∅.
Proof.
  unfold engine_Status, engine_Reset, diffAvgLatency. cbn -[subtractWithFloor]. rewrite !subtract_self. cbn. f_equal.
  apply map_eq. intros k. unfold diffErrorBreakdown. rewrite map_lookup_imap, lookup_empty.
  destruct (ErrorBreakdownMap m !! k) as [v|] eqn:E; [|done]. simpl. by rewrite decide_True.
Qed.

(** Draining succeeds exactly when, at some look before the deadline, nothing was in
    flight; otherwise it reports how many requests are. *)
Lemma drain_sound obs ok n :
  drainInFlight obs = Some (ok, n) ->
  exists o, o ∈ obs /\
    (if ok then do_sent o <= u64 (do_recv o + do_err o) /\ n = 0
     else do_late o = true /\ u64 (do_recv o + do_err o) < do_sent o /\
       n = u64 (do_sent o - u64 (do_recv o + do_err o))).
Proof.
  induction obs as [|o obs IH]; simpl; [done|]. case_decide as Hd.
  - intros [= <- <-]. exists o. split; [by left|done].
  - destruct (do_late o) eqn:El.
    + intros [= <- <-]. exists o. split; [by left|]. split_and!; [done|lia|done].
    + intros E. destruct (IH E) as (o' & Ho & H). exists o'. split; [by right|done].
Qed.

(** ** Witnesses *)

