(* ===== verification/System.v ===== *)
(** * Clients, nodes and store together

    Any number of clients of cmd/client and nodes of cmd/node over one store.  The
    network between them is only assumed not to make messages up: a node is given
    envelopes that some client sent, and a client receives results that some node
    sent, in any order, to anyone, more than once or never.  What a caller of
    ExecuteAndWait is told is then true of the store. *)

From S2P Require Import Prelude Wire Routing Discovery Mailbox Store Wallet WalletSpec WalletSystem Node NodeInv LedgerView NodeLedger ClusterLedger Origin Callbacks Client ClientInv Stress.

(** ** What is sent stays sent *)

Section Monotone.
Context {W R Er : Type} `{WalletDB W} `{TopologyResolver R Er} (cfgs : nat -> Config).

Lemma own_sent cfg (n n' : node W R) m : own_move cfg n n' -> m ∈ n_sent n -> m ∈ n_sent n'.
Proof.
  intros Hm Hin. assert (n_sent n' = n_sent n \/ exists l, n_sent n' = n_sent n ++ l) as [->|[l ->]]; [|done|].
  - destruct Hm as [Hs|Hs|Hs|Hs|Hs|Hs]; destruct Hs; try (by left); try (right; by eexists).
    cbv zeta. case_decide; by left.
  - apply elem_of_app. by left.
Qed.

Lemma replied_mono (c c' : cluster W R) x : cluster_step cfgs c c' -> replied c x -> replied c' x.
Proof.
  intros Hst [(j & n & s & resp & Hj & Hin & Hx)|(s & resp & Hin & Hx)].
  - assert (forall n', c_nodes c' !! j = Some n' -> (s, resp) ∈ n_sent n' -> replied c' x) as Hat.
    { intros n' Hn' Hin'. left. by exists j, n', s, resp. }
    destruct Hst as [i n0 n' Hi Hp Hm|i n0 r Hi|i n0 stmt Hi Hs|i r Hi|i n0 Hi|w Hu]; simpl in Hat; try (by eapply Hat).
    + destruct (decide (i = j)) as [->|Hne]; [|eapply Hat; [by rewrite lookup_insert_ne|done]].
      eapply Hat; [apply lookup_insert_eq|]. simplify_eq. by eapply own_sent.
    + destruct (decide (i = j)) as [->|Hne]; [|eapply Hat; [by rewrite lookup_insert_ne|done]].
      eapply Hat; [apply lookup_insert_eq|]. by simplify_eq.
    + eapply Hat; [|done]. rewrite lookup_insert_ne; [done|congruence].
    + destruct (decide (i = j)) as [->|Hne]; [|eapply Hat; [by rewrite lookup_delete_ne|done]].
      simplify_eq. right. exists s, resp. split; [|done]. apply elem_of_app. by right.
  - right. exists s, resp. split; [|done]. destruct Hst; simpl; try done. apply elem_of_app. by left.
Qed.
End Monotone.

Section Clients.
Context {Q Eq : Type} `{TopologyResolver Q Eq} (error_string : Eq -> string) (targetSize : nat).
Implicit Types r : router Q.

(** A streamer of the client has sent the envelope. *)
Definition client_sent r (env : RemoteEnvelope) : Prop :=
  exists id ns, r_objects r !! id = Some ns /\ env ∈ concat (ns_sent ns).

Lemma set_ns_sent r id ns ns' env :
  r_objects r !! id = Some ns -> concat (ns_sent ns) ⊆ concat (ns_sent ns') ->
  client_sent r env -> exists id' ns0, <[id := ns']> (r_objects r) !! id' = Some ns0 /\ env ∈ concat (ns_sent ns0).
Proof.
  intros Hid Hsub (id' & ns0 & Hid' & Hin). destruct (decide (id = id')) as [->|Hne].
  - simplify_eq. exists id', ns'. split; [apply lookup_insert_eq|auto].
  - exists id', ns0. by rewrite lookup_insert_ne.
Qed.

Lemma sent_batch_grows b ns : concat (ns_sent ns) ⊆ concat (ns_sent (sent_batch b ns)).
Proof. destruct b; simpl; [done|]. rewrite concat_app. intros x Hx. apply elem_of_app. by left. Qed.

Lemma client_sent_mono r r' env : client_step error_string targetSize r r' -> client_sent r env -> client_sent r' env.
Proof.
  intros Hst Hs. unfold client_sent.
  destruct Hst as [Hst|Hst|Hst|Hst|Hst|x ->]; [destruct Hst..|]; simpl; try done;
    try (by eapply set_ns_sent).
  - destruct Hs as (id' & ns & Hid' & Hin). exists id', ns. rewrite lookup_insert_ne; [done|congruence].
  - eapply set_ns_sent; [done| |done]. apply (sent_batch_grows (ns_batch ns) ns).
  - eapply set_ns_sent; [done| |done].
    etrans; [|apply sent_batch_grows]. done.
  - eapply set_ns_sent; [done| |done]. apply sent_batch_grows.
Qed.

(** What a client sends, its callers asked for. *)
Lemma sent_called r env : client_reachable error_string targetSize r -> client_sent r env -> called r env.
Proof.
  intros I%client_reachable_inv (id & ns & Hid & Hin). pose proof (ci_ns _ _ I _ _ Hid) as Hns.
  apply (no_accepted _ _ _ Hns). rewrite (no_fifo _ _ _ Hns). apply elem_of_app. by left.
Qed.

Lemma reachable_step r r' :
  client_reachable error_string targetSize r -> client_step error_string targetSize r r' ->
  client_reachable error_string targetSize r'.
Proof. intros (x & Hs) Hst. exists x. by eapply rtc_r. Qed.
End Clients.

(** ** The system *)

Record system (W R Q : Type) := mkSystem {
  sy_cluster : cluster W R;
  sy_clients : gmap nat (router Q);
}.
Arguments mkSystem {W R Q}.
Arguments sy_cluster {W R Q}.
Arguments sy_clients {W R Q}.

Section System.
Context {W R Er Q Eq : Type} `{WalletDB W} `{TopologyResolver R Er} `{TopologyResolver Q Eq}.
Context (cfgs : nat -> Config) (error_string : Eq -> string) (targetSize : nat -> nat).
Implicit Types s : system W R Q.

(** Some client has sent the envelope; some caller has asked for it. *)
Definition on_wire s (env : RemoteEnvelope) : Prop :=
  exists j r, sy_clients s !! j = Some r /\ client_sent r env.
Definition asked_for s (env : RemoteEnvelope) : Prop :=
  exists j r, sy_clients s !! j = Some r /\ called r env.

(** The nodes take steps of [nodes_step], which is [cluster_step] or restricts it. *)
Inductive system_step (nodes_step : relation (cluster W R)) s : system W R Q -> Prop :=
  | sy_nodes c' :
      nodes_step (sy_cluster s) c' ->
      (forall env, cluster_submitted c' env -> cluster_submitted (sy_cluster s) env \/ on_wire s env) ->
      system_step nodes_step s (mkSystem c' (sy_clients s))
  | sy_client j r r' :
      sy_clients s !! j = Some r -> client_step error_string (targetSize j) r r' ->
      (forall x, x ∈ r_received r' -> x ∈ r_received r \/ replied (sy_cluster s) x) ->
      system_step nodes_step s (mkSystem (sy_cluster s) (<[j := r']> (sy_clients s)))
  | sy_connect j resolver :
      sy_clients s !! j = None ->
      system_step nodes_step s (mkSystem (sy_cluster s) (<[j := NewRouter resolver]> (sy_clients s))).

Definition empty_system (w : W) : system W R Q := mkSystem (empty_cluster w) ∅.

Record system_inv (w : W) (m : nat) s : Prop := {
  yi_run : exists m', (m' <= m)%nat /\ nsteps (orderly_cluster_step cfgs) m' (empty_cluster w) (sy_cluster s);
  yi_traced : cluster_traced (on_wire s) (db w) (sy_cluster s);
  yi_client j r : sy_clients s !! j = Some r -> client_reachable error_string (targetSize j) r;
  yi_received j r x : sy_clients s !! j = Some r -> x ∈ r_received r -> replied (sy_cluster s) x;
}.

Lemma start_inv w : system_inv w 0 (empty_system w).
Proof.
  constructor; simpl.
  - exists 0%nat. split; [done|constructor].
  - split; [constructor|]; simpl.
    + intros k ver e Hin. by left.
    + intros [i a] na env. simpl. by rewrite lookup_empty.
    + intros r [(i & n & Hi & _)|(s & resp & Hin & _)]; simpl in *; [by rewrite lookup_empty in Hi|by apply not_elem_of_nil in Hin].
    + intros env (i & n & Hi & _). simpl in Hi. by rewrite lookup_empty in Hi.
  - intros j r. by rewrite lookup_empty.
  - intros j r x. by rewrite lookup_empty.
Qed.

Lemma on_wire_mono s s' env :
  (forall j r, sy_clients s !! j = Some r -> exists r', sy_clients s' !! j = Some r' /\
     forall e, client_sent r e -> client_sent r' e) -> on_wire s env -> on_wire s' env.
Proof. intros Hc (j & r & Hj & Hs). destruct (Hc _ _ Hj) as (r' & Hj' & He). exists j, r'. auto. Qed.

(** The clients change and the cluster does not. *)
Lemma client_inv w m s j r' :
  system_inv w m s -> client_reachable error_string (targetSize j) r' ->
  (forall r, sy_clients s !! j = Some r -> forall e, client_sent r e -> client_sent r' e) ->
  (forall x, x ∈ r_received r' -> replied (sy_cluster s) x) ->
  system_inv w (S m) (mkSystem (sy_cluster s) (<[j := r']> (sy_clients s))).
Proof.
  intros [(m' & Hle & Hrun) It Ic Ir] Hr' Hsent Hrec. constructor; simpl.
  - exists m'. split; [lia|done].
  - eapply cluster_traced_mono; [|exact It]. intros env. apply on_wire_mono. intros i r Hi. simpl.
    destruct (decide (j = i)) as [->|Hne]; [|rewrite lookup_insert_ne by done; by eauto].
    exists r'. split; [apply lookup_insert_eq|by apply Hsent].
  - intros i r. rewrite lookup_insert. case_decide; [intros [= <-]; by subst|apply Ic].
  - intros i r x. rewrite lookup_insert. case_decide; [intros [= <-]; apply Hrec|apply Ir].
Qed.

Lemma system_step_inv w m0 m log0 s s' :
  (forall k : ActorKey, ledger_of (db w) k.1 k.2 (log0 k) /\ (length (log0 k) <= m0)%nat) ->
  Z.of_nat (m0 + m) < 2 ^ 63 - 1 -> system_inv w m s -> system_step (orderly_cluster_step cfgs) s s' -> system_inv w (S m) s'.
Proof.
  intros Hl Hm I [c' Hst Hsub|j r r' Hj Hst Hrec|j x Hj].
  - destruct I as [(m' & Hle & Hrun) It Ic Ir].
    destruct (cluster_ledger_steps cfgs w m0 m' log0 _ Hl Hrun ltac:(lia)) as [L N]. constructor; simpl.
    + exists (S m'). split; [lia|]. by eapply nsteps_r.
    + destruct Hst as [Hst _]. eapply (cluster_traced_step cfgs); [done|done|apply L|done|].
      intros env [He|He]%Hsub; [|done]. by apply (ct_submitted _ _ _ It).
    + done.
    + intros j r x Hj Hx. destruct Hst as [Hst _]. eapply replied_mono; [done|]. by eapply Ir.
  - apply client_inv; [done|..].
    + eapply reachable_step; [|done]. by eapply yi_client.
    + intros r0 Hr0. simplify_eq. intros e. by eapply client_sent_mono.
    + intros x [Hx|]%Hrec; [|done]. by eapply yi_received.
  - apply client_inv; [done|..].
    + exists x. apply rtc_refl.
    + congruence.
    + by intros y ?%not_elem_of_nil.
Qed.

Lemma system_run_inv w m0 m log0 s :
  (forall k : ActorKey, ledger_of (db w) k.1 k.2 (log0 k) /\ (length (log0 k) <= m0)%nat) ->
  nsteps (system_step (orderly_cluster_step cfgs)) m (empty_system w) s -> Z.of_nat (m0 + m) < 2 ^ 63 - 1 -> system_inv w m s.
Proof.
  intros Hl. revert s. induction m as [|m IH]; intros s Hs Hm.
  - inversion Hs; subst. apply start_inv.
  - apply nsteps_inv_r in Hs as (s1 & Hs & Hst). eapply system_step_inv; [done| |apply IH; [done|lia]|done]. lia.
Qed.

(** Requests are distinguished by their request id and by their transaction id, as
    they are when both come from [nextRequestID] of clients with different machine ids. *)
Definition distinct_ids s : Prop :=
  forall env env', asked_for s env -> asked_for s env' ->
    EnvRequestId env = EnvRequestId env' \/ EnvTxId env = EnvTxId env' -> env = env'.

(** The requests of the load generator and of the gateway: [id_of] is the machine id of
    the client and which call of [nextRequestID] the request took. *)
Lemma generated_distinct s (id_of : RemoteEnvelope -> Z * nat) :
  (forall env, asked_for s env -> let '(m, n) := id_of env in
     0 <= m < 65536 /\ (0 < n)%nat /\ Z.of_nat n < 2 ^ 48 /\
     exists uid amount, env = transaction_env (request_id m n) uid amount) ->
  (forall env env', asked_for s env -> asked_for s env' -> id_of env = id_of env' -> env = env') -> distinct_ids s.
Proof.
  intros Hgen Huse env env' Ha Ha' Hids. apply Huse; [done|done|].
  specialize (Hgen env Ha) as Hg. specialize (Hgen env' Ha') as Hg'.
  destruct (id_of env) as [m n], (id_of env') as [m' n'].
  destruct Hg as (Hm & Hn & Hb & u & x & ->), Hg' as (Hm' & Hn' & Hb' & u' & x' & ->). simpl in Hids.
  assert (request_id m n = request_id m' n') as E.
  { destruct Hids as [|E]; [done|]. by apply FormatUint_inj in E; [|by apply request_id_range..]. }
  destruct (request_ids_unique m m' n n') as [_ Hu]; try done. by destruct (Hu E) as [-> ->].
Qed.

Lemma wire_asked w m s env : system_inv w m s -> on_wire s env -> asked_for s env.
Proof. intros I (j & r & Hj & Hs). exists j, r. split; [done|]. eapply sent_called; [by eapply yi_client|done]. Qed.
End System.

(** ** Theorems *)

Section Theorems.
Context {W R Er Q Eq : Type} `{WalletDB W} `{TopologyResolver R Er} `{TopologyResolver Q Eq}.
Context (cfgs : nat -> Config) (error_string : Eq -> string) (targetSize : nat -> nat).
Implicit Types s : system W R Q.

Lemma replied_carried (c : cluster W R) x : replied c x -> v_carries (cluster_view c) x.
Proof.
  intros [(i & n & s & resp & Hi & Hin & Hx)|(s & resp & Hin & Hx)].
  - left. exists i, n. split; [done|]. by eapply ca_sent.
  - right. by exists s, resp.
Qed.

(** A success that a caller gets was sent by a node, for the request of the caller. *)
Lemma success_carried (w : W) m0 m log0 s j r c cl res :
  (forall k : ActorKey, ledger_of (db w) k.1 k.2 (log0 k) /\ (length (log0 k) <= m0)%nat) ->
  nsteps (system_step error_string targetSize (orderly_cluster_step cfgs)) m (empty_system w) s -> Z.of_nat (m0 + m) < 2 ^ 63 - 1 ->
  distinct_ids s -> sy_clients s !! j = Some r -> r_calls r !! c = Some cl ->
  c_pc cl = CReturned (Some res) -> ResSuccess res = true ->
  system_inv cfgs error_string targetSize w m s /\ (exists m', ledger_inv log0 m' (cluster_view (sy_cluster s))) /\
  asked_for s (c_env cl) /\ v_carries (cluster_view (sy_cluster s)) res /\
  res_key res = env_key (c_env cl) /\ ResTxId res = EnvTxId (c_env cl).
Proof.
  intros Hl Hs Hm Hids Hj Hc Hpc Hok. set (env := c_env cl).
  pose proof (system_run_inv _ _ _ w m0 m log0 s Hl Hs Hm) as I.
  destruct (ci_call _ _ (client_reachable_inv _ _ _ (yi_client _ _ _ _ _ _ I _ _ Hj)) _ _ Hc) as [_ Hres].
  rewrite Hpc in Hres. destruct Hres as [Hrq [Hrec|[Hf _]]]; [|congruence].
  assert (asked_for s env) as Hask by (exists j, r; split; [done|by exists c, cl]).
  pose proof (replied_carried _ _ (yi_received _ _ _ _ _ _ I _ _ _ Hj Hrec)) as Hcar.
  destruct (tr_result _ _ _ (ct_view _ _ _ (yi_traced _ _ _ _ _ _ I)) res Hcar Hok) as (env' & Hw & Hkey & Htx).
  assert (env' = env) as ->.
  { apply Hids; [by eapply wire_asked|done|]. left. injection Hkey as _ _ Hk. by rewrite <- Hk. }
  split_and!; try done. destruct (yi_run _ _ _ _ _ _ I) as (m' & Hle & Hrun). exists (m0 + m')%nat.
  by destruct (cluster_ledger_steps cfgs w m0 m' log0 _ Hl Hrun ltac:(lia)).
Qed.

(** C4: a success is durable, from the caller to the store.  Clients and nodes come and
    go on one store, the network loses, repeats, reorders and misdelivers, an account
    has one writer at a time, no two calls use the same request id or the same
    transaction id, and the transaction id is not in the history the store started
    with.  When ExecuteAndWait returns a success, it is for the account and the request
    that was passed, and the account's history holds a transaction with the id and the
    amount of that request.  (A reused transaction id would be acknowledged as a
    repetition, with the amount of its first use.) *)
Theorem system_success_durable (w : W) m0 m log0 s j r c cl res :
  (forall k : ActorKey, ledger_of (db w) k.1 k.2 (log0 k) /\ (length (log0 k) <= m0)%nat) ->
  nsteps (system_step error_string targetSize (orderly_cluster_step cfgs)) m (empty_system w) s -> Z.of_nat (m0 + m) < 2 ^ 63 - 1 ->
  distinct_ids s -> sy_clients s !! j = Some r -> r_calls r !! c = Some cl ->
  c_pc cl = CReturned (Some res) -> ResSuccess res = true ->
  let env := c_env cl in let k := actor_key env in EnvTxId env ∉ tx_id <$> log0 k ->
  res_key res = env_key env /\ ResTxId res = EnvTxId env /\
  exists (log ph : list wallet_event) e,
    rows_of (db (c_world (sy_cluster s))) k.1 k.2 = numbered 0 (log ++ ph) /\ good_log (log ++ ph) /\
    log0 k `prefix_of` log /\ e ∈ log /\ tx_id e = EnvTxId env /\ delta_amount e = amount_of env.
Proof.
  intros Hl Hs Hm Hids Hj Hc Hpc Hok env k Hnew.
  destruct (success_carried w m0 m log0 s j r c cl res) as (I & (m' & L) & Hask & Hcar & Hkey & Htx); try done.
  fold env in Hask, Hkey, Htx. split_and!; [done|done|].
  destruct (ledger_facts _ _ _ k L) as (log & ph & Hpre & Hrows & _ & Hg & _ & Hin). simpl in Hrows.
  assert (EnvTxId env ∈ tx_id <$> log) as Hlog.
  { rewrite <- Htx. apply (Hin res Hcar Hok). by injection Hkey as -> -> _. }
  apply list_elem_of_fmap in Hlog as (e & Hte & He). exists log, ph, e. split_and!; try done.
  destruct (numbered_elem 0 (log ++ ph) e) as [ver Hver]; [apply elem_of_app; by left|].
  rewrite <- Hrows in Hver. destruct (tr_rows _ _ _ (ct_view _ _ _ (yi_traced _ _ _ _ _ _ I)) k ver e Hver) as [Hold|(env' & Hw' & _ & Hb)].
  - destruct Hnew. rewrite Hte. apply list_elem_of_fmap_2.
    destruct (Hl k) as [[Hr0 _ _ _] _]. rewrite Hr0 in Hold. by eapply numbered_elem_inv.
  - injection Hb as Ht Ha. rewrite Ha. f_equal. apply Hids; [by eapply wire_asked|done|]. right. congruence.
Qed.
End Theorems.

(** ** A run *)

Section Runs.
Context {W R Er Q Eq : Type} `{WalletDB W} `{TopologyResolver R Er} `{TopologyResolver Q Eq}.
Context (error_string : Eq -> string) (targetSize : nat -> nat).

Lemma received_mono k (r r' : router Q) x :
  client_step error_string k r r' -> x ∈ r_received r -> x ∈ r_received r'.
Proof.
  intros Hs Hx. destruct Hs as [Hs|Hs|Hs|Hs|Hs|y ->]; [destruct Hs..|]; simpl; try done.
  apply elem_of_app. by left.
Qed.

(** A client goes on while the cluster stands still. *)
Lemma client_runs nodes_step (c : cluster W R) (cs : gmap nat (router Q)) j k r r' :
  nsteps (client_step error_string (targetSize j)) k r r' -> (forall x, x ∈ r_received r' -> replied c x) ->
  nsteps (system_step error_string targetSize nodes_step) k (mkSystem c (<[j := r]> cs)) (mkSystem c (<[j := r']> cs)).
Proof.
  revert r'. induction k as [|k IH]; intros r' Hs Hx.
  - inversion Hs; subst. constructor.
  - apply nsteps_inv_r in Hs as (r1 & Hs & Hst).
    assert (forall x, x ∈ r_received r1 -> x ∈ r_received r') as Hm.
    { intros x. by apply (received_mono (targetSize j)). }
    eapply nsteps_r; [apply IH; [done|]; by auto|].
    pose proof (sy_client error_string targetSize nodes_step (mkSystem c (<[j := r1]> cs)) j r1 r') as Hy.
    simpl in Hy. rewrite insert_insert_eq in Hy. apply Hy; [apply lookup_insert_eq|done|]. auto.
Qed.

Lemma own_submitted cfg (n n' : node W R) env : own_move cfg n n' -> submitted n env -> submitted n' env.
Proof.
  intros Hm [s Hin]. exists s. destruct Hm as [Hs|Hs|Hs|Hs|Hs|Hs]; destruct Hs; simpl; try done.
  - apply elem_of_app. by left.
  - by case_decide.
Qed.

Lemma only_submitted (n : node W R) w env : cluster_submitted (mkCluster {[0%nat := n]} w [] []) env -> submitted n env.
Proof. intros (i & n' & Hi & Hs). simpl in Hi. by apply lookup_singleton_Some in Hi as [_ <-]. Qed.

(** One node boots and works while the clients stand still. *)
Lemma node_runs cfg (own : Z -> Z -> option string) (agreed : R -> Prop) (w : W) r (cs : gmap nat (router Q)) m (n : node W R) :
  agrees own agreed -> agreed r -> nsteps (own_steady cfg) m (NewNode w (Some r)) n ->
  (forall env, submitted n env -> exists j q, cs !! j = Some q /\ client_sent q env) ->
  nsteps (system_step error_string targetSize (orderly_cluster_step (fun _ => cfg))) (S m) (mkSystem (empty_cluster w) cs)
    (mkSystem (mkCluster {[0%nat := n]} (n_world n) [] []) cs).
Proof.
  intros Hag Hr. revert n. induction m as [|m IH]; intros n Hs Hw.
  - destruct (first_node (fun _ => cfg) own agreed w r 0 n Hag Hr Hs) as [Hrun _].
    destruct (stable_orderly _ _ _ _ _ _ Hag Hrun) as [Ho%nsteps_once_inv _]. apply nsteps_once.
    apply sy_nodes; [done|]. intros env He. right. apply Hw. by apply (only_submitted n _ _ He).
  - apply nsteps_inv_r in Hs as (n1 & Hs & Hst). pose proof Hst as (_ & _ & _ & _ & Hm).
    destruct (first_node (fun _ => cfg) own agreed w r m n1 Hag Hr Hs) as [Hrun Hok].
    destruct (stable_orderly _ _ _ _ _ _ Hag Hrun) as [_ I].
    destruct (node_works (fun _ => cfg) own agreed (empty_cluster w) 0 n1 n Hag (empty_room _ _ w 0) Hok Hst) as [Hc _].
    eapply nsteps_r; [apply IH; [done|]|].
    + intros env He. by eapply Hw, own_submitted.
    + apply sy_nodes; [split; [by destruct Hc|by eapply stable_sole]|].
      intros env He. right. apply Hw. by apply (only_submitted n _ _ He).
Qed.
End Runs.

(** ** Witness *)

(** A client sends the deposit of the demo run. *)
Lemma demo_send :
  exists r : router MockResolver, nsteps (client_step mock_error_string 1) 10 (NewRouter client_resolver) r /\
    client_sent r (demo_tx "tx-1" 100) /\ r_received r = [] /\
    forall res, ResRequestId res = 42 -> ResSuccess res = true -> exists r' cl, nsteps (client_step mock_error_string 1) 4 r r' /\
      r_calls r' = {[0%nat := cl]} /\ c_env cl = demo_tx "tx-1" 100 /\ c_pc cl = CReturned (Some res) /\
      r_received r' = [res] /\ (map_to_list (r_objects r') ≫= fun iv => concat (ns_sent iv.2)) = [demo_tx "tx-1" 100].
Proof.
  eexists. split.
  { by_call (call_begin _ _ _ 0 (demo_tx "tx-1" 100) true 3).
    by_call (call_resolved _ _ _ 0). by_call (get_first _ _ _ 0). by_call (get_lock _ _ _ 0).
    by_call (get_second_none _ _ _ 0). by_call (create_ok _ _ _ 0 _ _ _ 0). by_call (create_put _ _ _ 0).
    eapply nsteps_step_eq; [apply cs_call; eapply (dispatch_store _ _ _ 0); [split; reflexivity|reflexivity|exact I]|evaluate_state|].
    eapply nsteps_step_eq; [apply cs_call; eapply (dispatch_enqueue _ _ _ 0); [split; reflexivity|reflexivity|simpl; lia]|evaluate_state|].
    eapply nsteps_step_eq; [apply cs_flusher; eapply (fl_receive_send _ _ 0); [reflexivity|reflexivity|reflexivity|simpl; lia]|evaluate_state|].
    constructor. }
  split; [eexists 0%nat, _; split; [vm_compute; reflexivity|by left]|].
  split; [vm_compute; reflexivity|].
  intros [rt ru rx rq ro rs rc rm rp] [= ->] [= ->]. eexists _, _. split.
  { by_receiver (rc_response _ 0 _ [mkResult rt ru rx 42 ro true rc rm rp]).
    eapply nsteps_step_eq; [apply cs_receiver; eapply (rc_answer _ 0 _ _ _ _ _ 9);
      [reflexivity|reflexivity|exact I|vm_compute; reflexivity|go_decide]|evaluate_state|].
    eapply nsteps_step_eq; [apply cs_receiver; eapply (rc_deliver _ 0); [reflexivity|reflexivity|eexists; split; reflexivity]|evaluate_state|].
    by_call (wait_result _ _ _ 0). constructor. }
  by repeat (split; [vm_compute; reflexivity|]).
Qed.

(** The demo node carries it out and answers. *)
Lemma demo_system :
  exists (n : node (CassandraStore MemSession) MockResolver) (r : router MockResolver) cl res,
    nsteps (system_step mock_error_string (fun _ => 1%nat) (orderly_cluster_step (fun _ => demo_cfg))) 28
      (empty_system demo_store) (mkSystem (mkCluster {[0%nat := n]} (n_world n) [] []) {[0%nat := r]}) /\
    r_calls r = {[0%nat := cl]} /\ c_env cl = demo_tx "tx-1" 100 /\ c_pc cl = CReturned (Some res) /\ ResSuccess res = true /\
    n_submitted n = [(5%nat, demo_tx "tx-1" 100)] /\
    (map_to_list (r_objects r) ≫= fun iv => concat (ns_sent iv.2)) = [demo_tx "tx-1" 100].
Proof.
  destruct demo_send as (r & Hr & Hsent & Hrec & Hanswer).
  destruct demo_own as (n & res & Hn & Hsub & Hns & Hok & Hkey & _).
  destruct (Hanswer res) as (r' & cl & Hr' & Hcalls & Henv & Hpc & Hrec' & Hlist); [by injection Hkey|done|].
  exists n, r', cl, res. split_and!; try done. change 28%nat with (1 + (10 + (13 + 4)))%nat.
  eapply nsteps_trans; [apply nsteps_once, (sy_connect _ _ _ _ 0 client_resolver), lookup_empty|].
  eapply nsteps_trans; [apply client_runs; [exact Hr|rewrite Hrec; by intros x ?%not_elem_of_nil]|].
  eapply nsteps_trans.
  - eapply (node_runs _ _ demo_cfg demo_owner demo_agreed demo_store demo_resolver _ 12 n demo_agrees (conj eq_refl eq_refl) Hn).
    intros env [t Hin]. rewrite Hsub in Hin. apply list_elem_of_singleton in Hin as [= _ ->].
    exists 0%nat, r. split; [apply lookup_insert_eq|done].
  - apply (client_runs _ _ (orderly_cluster_step (fun _ => demo_cfg)) _ ∅ 0 4 r r'); [done|]. rewrite Hrec'. intros x ->%list_elem_of_singleton.
    left. exists 0%nat, n, 5%nat, (mkBatchResponse [res]). rewrite Hns. split_and!; [apply lookup_singleton_eq|by left|by left].
Qed.

Lemma one_request_distinct (c : cluster (CassandraStore MemSession) MockResolver) (r : router MockResolver) cl :
  r_calls r = {[0%nat := cl]} -> distinct_ids (mkSystem c {[0%nat := r]}).
Proof.
  intros Hcalls env env' (j & q & Hj & c1 & cl1 & Hc1 & <-) (j' & q' & Hj' & c2 & cl2 & Hc2 & <-) _.
  simpl in Hj, Hj'. apply lookup_singleton_Some in Hj as [_ <-], Hj' as [_ <-]. rewrite Hcalls in Hc1, Hc2.
  by apply lookup_singleton_Some in Hc1 as [_ <-], Hc2 as [_ <-].
Qed.

Lemma system_success_durable_witness :
  exists (s : system (CassandraStore MemSession) MockResolver MockResolver) e,
    nsteps (system_step mock_error_string (fun _ => 1%nat) (orderly_cluster_step (fun _ => demo_cfg))) 28 (empty_system demo_store) s /\
    e ∈ (rows_of (db (c_world (sy_cluster s))) 1 7).*2 /\ tx_id e = "tx-1" /\ delta_amount e = 100.
Proof.
  destruct demo_system as (n & r & cl & res & Hrun & Hcalls & Henv & Hpc & Hok & _ & _).
  set (s := mkSystem _ _) in Hrun.
  destruct (system_success_durable (fun _ => demo_cfg) mock_error_string (fun _ => 1%nat) demo_store 0 28 (fun _ => []) s 0 r 0 cl res)
    as (_ & _ & log & ph & e & Hrows & _ & _ & He & Htx & Hd).
  - intros k. split; [apply empty_ledger|apply Nat.le_refl].
  - exact Hrun.
  - reflexivity.
  - by apply (one_request_distinct _ r cl).
  - apply lookup_singleton_eq.
  - rewrite Hcalls. apply lookup_singleton_eq.
  - exact Hpc.
  - exact Hok.
  - apply not_elem_of_nil.
  - rewrite Henv in Hrows, Htx, Hd. exists s, e. split_and!; [exact Hrun| |exact Htx|exact Hd].
    change (actor_key (demo_tx "tx-1" 100)) with (1, 7) in Hrows. simpl in Hrows |- *. rewrite Hrows, numbered_snd.
    apply elem_of_app. by left.
Defined.
