(* ===== verification/Once.v ===== *)
(** * A request is executed at most once

    How often a transaction id is booked on an account.  An envelope that a node is
    given is carried out at most once, whatever is evicted, passivated, drained or sent
    back inside the node, however many actors of the account there are and whichever
    processes crash; and a client lets one streamer have the envelope of a call, however
    often it retries.  So, if the network delivers no envelope more often than it was
    sent, an account has no more rows with a transaction id than calls asked for it. *)

From S2P Require Import Prelude Wire Routing Discovery Mailbox Store Wallet WalletSpec WalletSystem Node NodeInv LedgerView NodeLedger ClusterLedger Origin Callbacks Client ClientInv ClientLife Stress System.

(** ** Counting *)

Section Count.
Context (k : ActorKey) (x : string).

(** The envelope asks for the transaction [x] on the account [k]. *)
Definition asks (env : RemoteEnvelope) : nat :=
  if decide (actor_key env = k /\ EnvTxId env = x) then 1 else 0.

Definition oasks (o : option RemoteEnvelope) : nat := match o with Some env => asks env | None => 0 end.

(** The rows of the account with that transaction id. *)
Definition executed (d : tables) : nat := length (filter (fun ve : Z * wallet_event => tx_id ve.2 = x) (rows_of d k.1 k.2)).

(** What a node has not carried out. *)
Definition hb_todo (h : hb) : nat :=
  sum_list_with oasks (hb_rest h) +
  match hb_at h with
  | HLookup env | HCreate env | HRoute env _ | HSend env _ | HEnq env _ | HUnroute env _ | HEvict env _ => asks env
  | HOver | HLoop | HDone | HPush _ _ | HKill _ _ => 0
  end.
Definition act_todo (na : node_actor) : nat := sum_list_with asks (na_mailbox na).
Definition todo {W R} (n : node W R) : nat := msum hb_todo (n_hbs n) + msum act_todo (n_actors n).

Definition asked_in (l : list (nat * RemoteEnvelope)) : nat := sum_list_with (fun se => asks se.2) l.

(** How often the processes of a cluster, those that crashed too, were given [x]. *)
Definition given {W R} (c : cluster W R) : nat :=
  msum (fun n => asked_in (n_submitted n)) (c_nodes c) + asked_in (c_given c).

Lemma asked_sum l : asked_in l = sum_list_with asks l.*2.
Proof. unfold asked_in. induction l as [|[s env] l IH]; simpl; [done|by rewrite IH]. Qed.

Lemma asked_submit s envs : asked_in (submit s envs) = sum_list_with oasks envs.
Proof. unfold asked_in, submit. induction envs as [|[e|] envs IH]; simpl; [done|by rewrite <- IH|exact IH]. Qed.

Lemma asked_app l l' : asked_in (l ++ l') = (asked_in l + asked_in l')%nat.
Proof. apply sum_list_with_app. Qed.

Lemma upsert_filter v e p :
  (length (filter (fun ve : Z * wallet_event => tx_id ve.2 = x) (upsert v e p)) <=
   length (filter (fun ve : Z * wallet_event => tx_id ve.2 = x) p) + if decide (tx_id e = x) then 1 else 0)%nat.
Proof.
  induction p as [|[v' e'] p IH]; simpl.
  - rewrite filter_cons, filter_nil. simpl. case_decide; simpl; lia.
  - destruct (decide (v < v')); [|destruct (decide (v = v'))]; rewrite !filter_cons; simpl;
      repeat case_decide; simpl in *; lia.
Qed.

Lemma executed_put t u v e d :
  (executed (put_event t u v e d) <= executed d + if decide ((t, u) = k /\ tx_id e = x) then 1 else 0)%nat.
Proof.
  unfold executed, rows_of at 1, put_event. simpl. rewrite lookup_insert. destruct (decide ((t, u) = (k.1, k.2))) as [E|Hne].
  - injection E as Et Eu. rewrite Et, Eu. simpl. pose proof (upsert_filter v e (rows_of d k.1 k.2)) as Hf.
    destruct (decide (tx_id e = x)) as [He|He].
    + rewrite decide_True; [exact Hf|]. split; [by destruct k|done].
    + rewrite decide_False by naive_solver. exact Hf.
  - unfold rows_of. lia.
Qed.

Lemma executed_rows d d' : undisturbed d d' -> executed d' = executed d.
Proof. intros Hu. unfold executed. by destruct (Hu k) as [-> _]. Qed.

Lemma executed_handle {W} `{WalletDB W} now (w : W) b env h :
  Handle now w b env = Some h -> actor_key env = (tenantID b, uid b) ->
  (executed (db (h_world h)) <= executed (db w) + asks env)%nat.
Proof.
  intros [[->|(ver & e & -> & Ht)] _]%Handle_writes Hk; [lia|]. injection Ht as Ht _.
  pose proof (executed_put (tenantID b) (uid b) ver e (db w)) as Hp. unfold asks. by rewrite Hk, <- Ht.
Qed.
End Count.

(** ** Nodes *)

Section Nodes.
Context {W R Er : Type} `{WalletDB W} `{TopologyResolver R Er} (cfg : Config) (k : ActorKey) (x : string).
Implicit Types n : node W R.

(** A step carries out what there was to do, or what it was given. *)
Definition at_most n n' : Prop :=
  (todo k x n' + executed k x (db (n_world n')) + asked_in k x (n_submitted n) <=
   todo k x n + executed k x (db (n_world n)) + asked_in k x (n_submitted n'))%nat.

Lemma todo_hb n t s s' rest rest' pc pc' :
  n_hbs n !! t = Some (mkHb s rest pc) ->
  (msum (hb_todo k x) (<[t := mkHb s' rest' pc']> (n_hbs n)) + hb_todo k x (mkHb s rest pc) =
   hb_todo k x (mkHb s' rest' pc') + msum (hb_todo k x) (n_hbs n))%nat.
Proof. intros Ht. exact (msum_update (hb_todo k x) _ t (mkHb s' rest' pc') _ Ht). Qed.

Lemma todo_stop n ids : msum (act_todo k x) (n_actors (stop_actors ids n)) = msum (act_todo k x) (n_actors n).
Proof. apply msum_imap. intros i na. case_decide; [|done]. unfold stop_actor. by case_match. Qed.

Ltac hb_moves Ht Hu :=
  match goal with |- context [msum (hb_todo k x) (<[?t := mkHb ?s' ?rest' ?pc']> (n_hbs ?n))] =>
    pose proof (todo_hb n t _ s' _ rest' _ pc' Ht) as Hu; unfold hb_todo at 2 3 in Hu; cbn -[Nat.add msum asked_in executed] in Hu end.

Lemma hb_at_most n n' : hb_step cfg n n' -> at_most n n'.
Proof.
  intros Hst. unfold at_most, todo. destruct Hst as
    [t s envs pending Ht Hp|t s rest Ht|t s env rest Ht|t s over Ht Ho|t s rest over q Ht Hroom
    |t s rest Ht|t s env rest Ht E|t s env rest r' Ht E|t s env rest r' kill r Ht E Hl
    |t s env rest r' r a Ht E Hl|t s rest a q g Ht Hg|t s env rest Ht|t s env rest a Ht Hl
    |t s env rest now w' b a Ht Hl E Ha|t s env rest now w' b e Ht Hl E|t s env rest now Ht E
    |t s env rest a Ht|t s env rest a na Ht Hna|t s env rest a na Ht Hna|t s env rest a Ht
    |t s env rest a Ht]; cbn -[Nat.add msum stop_actors asked_in executed]; try (hb_moves Ht Hu; lia).
  - rewrite msum_new by done. rewrite asked_app, asked_submit. unfold hb_todo at 1. cbn -[Nat.add msum asked_in executed]. case_decide; lia.
  - hb_moves Ht Hu. destruct over; lia.
  - rewrite todo_stop. cbn -[Nat.add msum asked_in executed]. hb_moves Ht Hu. lia.
  - hb_moves Ht Hu. destruct (lookup_actor n (actor_key env)); lia.
  - rewrite (msum_new (act_todo k x)) by done. change (act_todo k x (mkNodeActor b statusRunning [] AIdle)) with 0%nat.
    rewrite (rehydrate_db _ _ _ _ E). cbn -[Nat.add msum asked_in executed]. hb_moves Ht Hu. lia.
  - rewrite (rehydrate_db _ _ _ _ E). hb_moves Ht Hu. lia.
  - hb_moves Ht Hu. destruct (rejects (na_status na)); lia.
  - hb_moves Ht Hu.
    pose proof (msum_update (act_todo k x) _ a (mkNodeActor (na_biz na) (na_status na) (na_mailbox na ++ [env]) (na_pc na)) _ Hna) as Ha.
    unfold act_todo at 2 3 in Ha. cbn -[Nat.add msum asked_in executed] in Ha. rewrite sum_list_with_app in Ha. cbn -[Nat.add msum asked_in executed] in Ha. lia.
  - case_decide; cbn -[Nat.add msum asked_in executed]; hb_moves Ht Hu; lia.
Qed.

Lemma quiet_at_most n n' :
  n_hbs n' = n_hbs n -> (msum (act_todo k x) (n_actors n') <= msum (act_todo k x) (n_actors n))%nat ->
  n_world n' = n_world n -> n_submitted n' = n_submitted n -> at_most n n'.
Proof. intros Eh Ha Ew Es. unfold at_most, todo. rewrite Eh, Ew, Es. lia. Qed.

Lemma todo_actor n a na na' :
  n_actors n !! a = Some na -> (act_todo k x na' <= act_todo k x na)%nat ->
  (msum (act_todo k x) (<[a := na']> (n_actors n)) <= msum (act_todo k x) (n_actors n))%nat.
Proof. intros Ha Hle. pose proof (msum_update (act_todo k x) _ a na' _ Ha). lia. Qed.

Lemma actor_at_most n n' : node_inv n -> actor_step n n' -> at_most n n'.
Proof.
  intros N Hst. destruct Hst as
    [a na env rest now h Hna Hpc Hm E|a na env rest now Hna Hpc Hm E|a na Hna Hpc Hm|a na Hna Hpc Hs
    |a na Hna Hpc Hs|a na r Hna Hpc|a na q Hna Hpc Hroom];
    try (apply quiet_at_most; [done|by apply (todo_actor n a na _ Hna)|done|done]); [|by apply quiet_at_most|].
  - destruct (ni_actor _ N _ _ Hna) as [k0 [Hk0 Hkeys _]]. rewrite Hm in Hkeys.
    apply list.Forall_cons in Hkeys as [Henv _]. rewrite <- Hk0 in Henv.
    pose proof (executed_handle k x _ _ _ _ _ E Henv) as He. unfold at_most, todo. cbn -[Nat.add msum asked_in executed].
    pose proof (msum_update (act_todo k x) _ a (mkNodeActor (h_actor h) (na_status na) rest (AEmit (completeResult (h_result h) env))) _ Hna) as Hu.
    unfold act_todo at 2 3 in Hu. rewrite Hm in Hu. cbn -[Nat.add msum asked_in executed] in Hu. lia.
  - apply quiet_at_most; [done| |done|done]. apply (todo_actor n a na _ Hna). unfold act_todo. simpl. lia.
Qed.

Lemma own_at_most n n' : node_inv n -> own_move cfg n n' -> at_most n n'.
Proof.
  intros N [Hs|Hs|Hs|Hs|Hs|Hs]; [by apply hb_at_most|by apply actor_at_most|..].
  - destruct Hs as [g a na Hg Hna Hd|g env envs Hg|g q envs Hg Hroom]; [|by apply quiet_at_most..].
    apply quiet_at_most; [done| |done|done]. apply (todo_actor n a na _ Hna). unfold act_todo. simpl. lia.
  - destruct Hs; by apply quiet_at_most.
  - destruct Hs; try (by apply quiet_at_most). apply quiet_at_most; [done| |done|done].
    apply Nat.eq_le_incl, (todo_stop n).
  - destruct Hs; try (by apply quiet_at_most). apply quiet_at_most; [done| |done|done].
    apply Nat.eq_le_incl, (todo_stop n).
Qed.
End Nodes.

(** ** Clusters *)

Section Clusters.
Context {W R Er : Type} `{WalletDB W} `{TopologyResolver R Er} (cfgs : nat -> Config) (k : ActorKey) (x : string).
Implicit Types c : cluster W R.

(** Actors start no goroutine but snapshots. *)
Definition only_snapshots (l : list Statement) : Prop :=
  forall stmt, stmt ∈ l -> exists (k : ActorKey) b ver, stmt = snapshot_stmt k.1 k.2 b ver.

Lemma effect_snapshots {K} `{EqDecision K} (v v' : view W K) :
  only_snapshots (v_goroutines v) -> effect v v' -> only_snapshots (v_goroutines v').
Proof.
  intros Hs Hef stmt Hin. destruct Hef as [_ _ Hg _|k' now b a _ _ _ Hg _|a na na' env now h _ _ _ _ E _ _ _ Hg _
    |stmt' _ _ _ Hg _|_ _ Hg _]; apply Hg in Hin; try (by apply Hs).
  apply elem_of_app in Hin as [Hin|Hin]; [by apply Hs|]. by eapply Handle_writes.
Qed.

Record count_inv (d0 : tables) c : Prop := {
  co_nodes : nodes_inv c;
  co_snapshots : only_snapshots (v_goroutines (cluster_view c));
  co_count : (msum (todo k x) (c_nodes c) + executed k x (db (c_world c)) <= executed k x d0 + given k x c)%nat;
}.

Lemma counted_step d0 c c' : count_inv d0 c -> cluster_step cfgs c c' -> count_inv d0 c'.
Proof.
  intros [N S C] Hst.
  constructor; [by eapply nodes_inv_step|by eapply effect_snapshots, cluster_effect|]. revert C. unfold given.
  destruct Hst as [i n n' Hi Hp Hm|i n r Hi|i n stmt Hi Hin|i r Hi|i n Hi|w Hu]; cbn -[Nat.add msum asked_in executed todo].
  - pose proof (own_at_most (cfgs i) k x _ _ (node_inv_store _ _ (N _ _ Hi)) Hm) as Ha. unfold at_most in Ha.
    cbn -[Nat.add msum asked_in executed todo] in Ha.
    change (todo k x (on_store (c_world c) n)) with (todo k x n) in Ha.
    pose proof (msum_update (todo k x) _ i n' _ Hi). pose proof (msum_update (fun n => asked_in k x (n_submitted n)) _ i n' _ Hi). simpl in *. lia.
  - set (n' := on_store (c_world c) n <| n_resolver := r |>).
    pose proof (msum_update (todo k x) _ i n' _ Hi). pose proof (msum_update (fun n => asked_in k x (n_submitted n)) _ i n' _ Hi).
    change (todo k x n') with (todo k x n) in *. simpl in *. lia.
  - destruct (S stmt) as (k' & b & ver & ->); [apply in_goroutines; by exists i, n|].
    destruct (ExecuteBatch _ _ _) as [w' err] eqn:Ex. simpl.
    apply (db_insert _ _ _ _ _ _ (ins_snapshot _ _ _ _)) in Ex. by destruct Ex as [->|[-> _]].
  - rewrite !msum_new by done. cbn -[Nat.add msum asked_in executed todo].
    change (todo k x (NewNode (c_world c) r)) with 0%nat. change (asked_in k x []) with 0%nat. lia.
  - rewrite asked_app. pose proof (msum_delete (todo k x) _ i n Hi).
    pose proof (msum_delete (fun n => asked_in k x (n_submitted n)) _ i n Hi). simpl in *. lia.
  - by rewrite (executed_rows k x _ _ Hu).
Qed.
End Clusters.

(** ** Clients *)

Section Clients.
Context {Q Eq : Type} `{TopologyResolver Q Eq} (error_string : Eq -> string) (targetSize : nat) (k : ActorKey) (x : string).
Implicit Types r : router Q.

(** The call has handed its envelope over, or returned without. *)
Definition past (pc : call_pc) : bool :=
  match pc with CWait | CTimeout _ | CReturned _ => true | _ => false end.
Definition handed_over (cl : call) : nat := if past (c_pc cl) then asks k x (c_env cl) else 0.
Definition taken (ns : streamer) : nat := sum_list_with (asks k x) (ns_accepted ns).

(** A streamer has the envelope of a call at most once, and no two have it. *)
Definition hands_over_once r : Prop := (msum taken (r_objects r) <= msum handed_over (r_calls r))%nat.

Lemma taken_set r id ns ns' :
  r_objects r !! id = Some ns -> ns_accepted ns' = ns_accepted ns ->
  msum taken (<[id := ns']> (r_objects r)) = msum taken (r_objects r).
Proof.
  intros Hid E. pose proof (msum_update taken _ id ns' _ Hid) as Hu. unfold taken at 2 3 in Hu. rewrite E in Hu. lia.
Qed.

(** A call moves on, and may change a streamer. *)
Lemma once_call r r' c cl cl' :
  r_calls r !! c = Some cl -> r_calls r' = <[c := cl']> (r_calls r) -> c_env cl' = c_env cl ->
  (past (c_pc cl) = true -> past (c_pc cl') = true) ->
  msum taken (r_objects r') = msum taken (r_objects r) -> hands_over_once r -> hands_over_once r'.
Proof.
  intros Hc E Henv Hp Ho. unfold hands_over_once. rewrite E, Ho.
  pose proof (msum_update handed_over _ c cl' _ Hc) as Hu. unfold handed_over at 2 3 in Hu. rewrite Henv in Hu.
  destruct (past (c_pc cl)); [rewrite Hp in Hu by done|]; lia.
Qed.

Ltac goes c cl Hc Hp :=
  eapply (once_call _ _ c cl); [exact Hc|exact (goto_calls _ _ _ _ Hc)|reflexivity|rewrite Hp; simpl; try done|].

Lemma call_once r r' : call_step error_string targetSize r r' -> hands_over_once r -> hands_over_once r'.
Proof.
  intros Hst. destruct Hst as
    [c env wait now Hc|c cl y e [Hc Hp] E|c cl y ip [Hc Hp] E|c cl ip att [Hc Hp]|c cl ip att [Hc Hp]
    |c cl ip att [Hc Hp] Hmu|c cl ip att id ns [Hc Hp] Hl Hd|c cl ip att id ns [Hc Hp] Hl Hd|c cl ip att [Hc Hp] Hl
    |c cl ip att [Hc Hp]|c cl ip att [Hc Hp]|c cl ip att id [Hc Hp] Hid|c cl ip att id [Hc Hp]
    |c cl ip att id ns [Hc Hp] Hid Hfree|c cl ip att id ns [Hc Hp] Hid Hroom|c cl ip att id ns [Hc Hp] Hid Hx
    |c cl ip att id ns [Hc Hp] Hid Hfree Ha|c cl ip att id ns [Hc Hp] Hid Hfree Ha|c cl res rest [Hc Hp] Hch
    |c cl ids [Hc Hp] Hids|c cl id ids ns [Hc Hp] Hid Hfree|c cl [Hc Hp]];
    try (goes c cl Hc Hp; [done]); try (goes c cl Hc Hp; by eapply taken_set).
  - unfold hands_over_once. cbn -[msum]. rewrite msum_new by done. change (handed_over _) with 0%nat at 1. lia.
  - goes c cl Hc Hp. cbn -[msum]. by rewrite msum_new by done.
  - unfold hands_over_once.
    match goal with |- context [r_calls (goto c ?pc ?r0)] => rewrite (goto_calls r0 c cl pc Hc) end. cbn -[msum].
    set (ns' := ns <| ns_envelopeCh ::= _ |> <| ns_accepted ::= _ |>).
    pose proof (msum_update taken _ id ns' _ Hid) as Ht.
    assert (taken ns' = taken ns + asks k x (c_env cl))%nat as Ens by (unfold taken; simpl; rewrite sum_list_with_app; simpl; lia).
    set (cl' := cl <| c_pc := _ |>). pose proof (msum_update handed_over _ c cl' _ Hc) as Hu.
    assert (handed_over cl' = asks k x (c_env cl)) as Ecl by (unfold handed_over; simpl; by destruct (c_wait cl)).
    assert (handed_over cl = 0%nat) by (unfold handed_over; by rewrite Hp). lia.
  - eapply (once_call _ _ c cl _ Hc); [reflexivity|done|done|done].
Qed.

Lemma client_once r r' : client_step error_string targetSize r r' -> hands_over_once r -> hands_over_once r'.
Proof.
  intros Hst. assert (forall r0, r_objects r' = r_objects r0 -> r_calls r' = r_calls r0 ->
    hands_over_once r0 -> hands_over_once r') as Hsame by (intros r0 Eo Ec; unfold hands_over_once; by rewrite Eo, Ec).
  assert (forall id ns ns', r_objects r !! id = Some ns -> ns_accepted ns' = ns_accepted ns -> r_objects r' = <[id := ns']> (r_objects r) ->
    msum handed_over (r_calls r') = msum handed_over (r_calls r) -> hands_over_once r -> hands_over_once r') as Hset.
  { intros id ns ns' Hid E Eo Ec. unfold hands_over_once. by rewrite Eo, Ec, (taken_set r id ns ns' Hid E). }
  assert (forall b ns, ns_accepted (sent_batch b ns) = ns_accepted ns) as Hb by by intros [].
  assert (forall c res (m : gmap nat call), msum handed_over (alter (fun cl => cl <| c_ch ::= fun l => l ++ [res] |>) c m) = msum handed_over m) as Hd
    by (intros; by apply msum_alter).
  destruct Hst as [Hs|Hs|Hs|Hs|Hs|y ->]; [by eapply call_once| | | | |by apply (Hsame r)];
    destruct Hs; try (by apply (Hsame r));
    (eapply Hset; [eassumption| |reflexivity|]; cbn -[msum]; rewrite ?Hb, ?Hd; done).
Qed.
End Clients.

(** ** The system *)

(** Everything the processes were given, and everything the clients sent. *)
Definition given_envs {W R} (c : cluster W R) : list RemoteEnvelope :=
  (map_to_list (c_nodes c) ≫= fun iv => (n_submitted iv.2).*2) ++ (c_given c).*2.
Definition sent_envs {W R Q} (s : system W R Q) : list RemoteEnvelope :=
  map_to_list (sy_clients s) ≫= fun iv => map_to_list (r_objects iv.2) ≫= fun jv => concat (ns_sent jv.2).

(** How many calls asked for [x] on [k]. *)
Definition requested {W R Q} (k : ActorKey) (x : string) (s : system W R Q) : nat :=
  msum (fun r => msum (fun cl => asks k x (c_env cl)) (r_calls r)) (sy_clients s).

Lemma given_sum {W R} k x (c : cluster W R) : given k x c = sum_list_with (asks k x) (given_envs c).
Proof.
  unfold given, given_envs. rewrite sum_list_with_app, <- asked_sum.
  rewrite (msum_bind (asks k x) (fun n => (n_submitted n).*2)). f_equal.
  apply Nat.le_antisymm; apply msum_le; intros i n _; by rewrite asked_sum.
Qed.

Section System.
Context {W R Er Q Eq : Type} `{WalletDB W} `{TopologyResolver R Er} `{TopologyResolver Q Eq}.
Context (cfgs : nat -> Config) (error_string : Eq -> string) (targetSize : nat -> nat).
Implicit Types s : system W R Q.

Record system_counted (k : ActorKey) (x : string) (d0 : tables) s : Prop := {
  sc_cluster : count_inv k x d0 (sy_cluster s);
  sc_client j r : sy_clients s !! j = Some r -> client_reachable error_string (targetSize j) r /\ hands_over_once k x r;
}.

Lemma orderly_system_step s s' :
  system_step error_string targetSize (orderly_cluster_step cfgs) s s' -> system_step error_string targetSize (cluster_step cfgs) s s'.
Proof. intros [c' [Hst _] Hsub|j r r' Hj Hst Hrec|j y Hj]; [by apply sy_nodes|by eapply sy_client|by apply sy_connect]. Qed.

Lemma counted_run k x w s :
  rtc (system_step error_string targetSize (cluster_step cfgs)) (empty_system w) s -> system_counted k x (db w) s.
Proof.
  apply rtc_invariant.
  - intros s1 s2 [C I] [c' Hst _|j r r' Hj Hst _|j y Hj]; constructor; simpl; try done; [by eapply counted_step|..].
    + intros i r0. rewrite lookup_insert. case_decide; [|apply I]. intros [= <-]. subst i.
      destruct (I _ _ Hj) as [Hr Ho]. split; [by eapply reachable_step|by eapply client_once].
    + intros i r0. rewrite lookup_insert. case_decide; [|apply I]. intros [= <-]. subst i.
      split; [exists y; apply rtc_refl|]. unfold hands_over_once. simpl. unfold msum. by rewrite map_to_list_empty.
  - constructor; simpl; [|intros j r; by rewrite lookup_empty]. constructor; simpl.
    + intros i n Hi. simpl in Hi. by rewrite lookup_empty in Hi.
    + intros stmt. rewrite map_to_list_empty. by intros ?%not_elem_of_nil.
    + unfold msum. rewrite map_to_list_empty. simpl. lia.
Qed.

(** A client has sent no more than its callers asked for. *)
Lemma client_sends_once k x j r :
  client_reachable error_string (targetSize j) r -> hands_over_once k x r ->
  (msum (fun ns => sum_list_with (asks k x) (concat (ns_sent ns))) (r_objects r) <= msum (fun cl => asks k x (c_env cl)) (r_calls r))%nat.
Proof.
  intros I%client_reachable_inv Ho. unfold hands_over_once in Ho. etrans; [|etrans; [exact Ho|]].
  - apply msum_le. intros id ns Hid. unfold taken. rewrite (no_fifo _ _ _ (ci_ns _ _ I _ _ Hid)), sum_list_with_app. lia.
  - apply msum_le. intros c cl _. unfold handed_over. destruct (past (c_pc cl)); lia.
Qed.

Lemma sent_requested k x d0 s :
  system_counted k x d0 s -> (sum_list_with (asks k x) (sent_envs s) <= requested k x s)%nat.
Proof.
  intros [_ I]. unfold sent_envs, requested.
  rewrite (msum_bind (asks k x) (fun r => map_to_list (r_objects r) ≫= fun jv => concat (ns_sent jv.2))).
  apply msum_le. intros j r Hj. destruct (I _ _ Hj) as [Hr Ho].
  rewrite (msum_bind (asks k x) (fun ns => concat (ns_sent ns))). by eapply client_sends_once.
Qed.

Lemma executed_bounded k x w s :
  rtc (system_step error_string targetSize (cluster_step cfgs)) (empty_system w) s ->
  given_envs (sy_cluster s) ⊆+ sent_envs s ->
  (executed k x (db (c_world (sy_cluster s))) <= executed k x (db w) + requested k x s)%nat.
Proof.
  intros C%(counted_run k x) Hnet. pose proof (co_count _ _ _ _ (sc_cluster _ _ _ _ C)) as Hc.
  pose proof (sum_submseteq (asks k x) _ _ Hnet). pose proof (sent_requested _ _ _ _ C).
  rewrite given_sum in Hc. lia.
Qed.

(** ** Theorems *)

(** C5: a request is executed at most once.  Whatever clients retry, time out and give
    up, whatever nodes evict, passivate and drain, whichever crash, and even where two
    actors of an account run at once: the clients send no more envelopes for a
    transaction of an account than calls asked for it; and if the network delivers no
    envelope more often than it was sent, the account gets no more rows with that
    transaction id. *)
Theorem system_executes_once (w : W) s (k : ActorKey) (x : string) :
  rtc (system_step error_string targetSize (cluster_step cfgs)) (empty_system w) s ->
  (sum_list_with (asks k x) (sent_envs s) <= requested k x s)%nat /\
  (given_envs (sy_cluster s) ⊆+ sent_envs s ->
   (executed k x (db (c_world (sy_cluster s))) <= executed k x (db w) + requested k x s)%nat).
Proof. intros Hs. split; [by eapply sent_requested, counted_run|by apply executed_bounded]. Qed.

(** Exactly once, with one writer per account: a success that ExecuteAndWait returns is of
    a transaction that has exactly one row, if no other call asked for it. *)
Theorem success_executed_once (w : W) m0 m log0 s j r c cl res :
  (forall k : ActorKey, ledger_of (db w) k.1 k.2 (log0 k) /\ (length (log0 k) <= m0)%nat) ->
  nsteps (system_step error_string targetSize (orderly_cluster_step cfgs)) m (empty_system w) s -> Z.of_nat (m0 + m) < 2 ^ 63 - 1 ->
  distinct_ids s -> given_envs (sy_cluster s) ⊆+ sent_envs s ->
  sy_clients s !! j = Some r -> r_calls r !! c = Some cl -> c_pc cl = CReturned (Some res) -> ResSuccess res = true ->
  let k := actor_key (c_env cl) in let x := EnvTxId (c_env cl) in
  executed k x (db w) = 0%nat -> requested k x s = 1%nat -> executed k x (db (c_world (sy_cluster s))) = 1%nat.
Proof.
  intros Hl Hs Hm Hids Hnet Hj Hc Hpc Hok k x Hnew Hreq.
  destruct (success_carried cfgs error_string targetSize w m0 m log0 s j r c cl res) as (_ & (m' & L) & _ & Hcar & Hkey & Htx); try done.
  assert (executed k x (db (c_world (sy_cluster s))) <= 1)%nat as Hle.
  { rewrite <- Hreq, <- (Nat.add_0_l (requested k x s)), <- Hnew. apply executed_bounded; [|done].
    apply rtc_nsteps. exists m. eapply nsteps_mono; [|exact Hs]. apply orderly_system_step. }
  destruct (ledger_facts _ _ _ k L) as (log & ph & _ & Hrows & _ & _ & _ & Hin).
  assert (x ∈ tx_id <$> log) as (e & He & Helog)%list_elem_of_fmap.
  { unfold x. rewrite <- Htx. apply (Hin res Hcar Hok). by injection Hkey as -> -> _. }
  destruct (numbered_elem 0 (log ++ ph) e) as [ver Hver]; [apply elem_of_app; by left|].
  assert (0 < executed k x (db (c_world (sy_cluster s))))%nat; [|lia].
  simpl in Hrows. rewrite <- Hrows in Hver. unfold executed.
  assert ((ver, e) ∈ filter (fun ve : Z * wallet_event => tx_id ve.2 = x) (rows_of (db (c_world (sy_cluster s))) k.1 k.2)) as Hf
    by by apply list_elem_of_filter.
  destruct (filter _ _); [by apply not_elem_of_nil in Hf|simpl; lia].
Qed.
End System.

(** ** Witness *)

Lemma system_executes_once_witness :
  exists s : system (CassandraStore MemSession) MockResolver MockResolver,
    rtc (system_step mock_error_string (fun _ => 1%nat) (cluster_step (fun _ => demo_cfg))) (empty_system demo_store) s /\
    requested (1, 7) "tx-1" s = 1%nat /\ (executed (1, 7)%Z "tx-1" (db (c_world (sy_cluster s))) <= 1)%nat.
Proof.
  destruct demo_system as (n & r & cl & res & Hrun & Hcalls & Henv & _ & _ & Hsub & Hsent). set (s := mkSystem _ _) in Hrun.
  assert (requested (1, 7) "tx-1" s = 1%nat) as Hreq.
  { unfold requested, s, msum. simpl. rewrite map_to_list_singleton. simpl. rewrite Hcalls, map_to_list_singleton. simpl.
    by rewrite Henv. }
  assert (rtc (system_step mock_error_string (fun _ => 1%nat) (cluster_step (fun _ => demo_cfg))) (empty_system demo_store) s) as Hs.
  { apply rtc_nsteps. exists 28%nat. eapply nsteps_mono; [|exact Hrun]. apply orderly_system_step. }
  pose proof (system_executes_once (fun _ => demo_cfg) mock_error_string (fun _ => 1%nat) demo_store s (1, 7) "tx-1" Hs) as [_ Hle].
  exists s. split; [exact Hs|]. split; [exact Hreq|]. rewrite Hreq in Hle. apply Hle.
  unfold given_envs, sent_envs, s. simpl. rewrite !map_to_list_singleton. simpl. rewrite Hsub, Hsent. reflexivity.
Defined.
