(* ===== verification/ClientMain.v ===== *)
(** * The client process: cmd/client/main.go, the commands of stress.go and serve.go

    Dispatch of the subcommands, [newRouterFromConfig] with its cleanup, the stress and
    the serve command as sequences of calls with deferred calls (see [Boot]), the load
    generators as a fold over their ticks, the metrics reporter, and the shutdown of
    the gateway as three interleaved parties. *)

From stdpp Require Import pretty.
From S2P Require Import Prelude Boot Wire Routing Discovery Mailbox Callbacks Client Store Wallet Node Stress.

(** ** The load generators *)

(** [runStressGenerators]: the envelopes it hands to [EmulateGatewayFlow], one for
    each tick that some goroutine takes before the context is done, in the order in
    which they draw a request id; [rnds] is what the random source gives.  [None] is
    the panic of [rand.Int63n], or of [time.NewTicker] in one of the goroutines. *)
Fixpoint generate (cfg : stressConfig) (generator : Z) (rnds : list Z) : option (Z * list RemoteEnvelope) :=
  match rnds with
  | [] => Some (generator, [])
  | rnd :: rest =>
      let reqID := nextRequestID generator in
      uid ← pick_uid cfg rnd;
      '(g', envs) ← generate cfg reqID rest;
      Some (g', transaction_env reqID uid 1 :: envs)
  end.

(** [time.NewTicker]: the period of the ticker; a period that is not positive panics. *)
Definition NewTicker (d : Z) : option Z := if decide (d <= 0) then None else Some d.

Definition runStressGenerators (cfg : stressConfig) (generator : Z) (rnds : list Z) :
    option (Z * list RemoteEnvelope) :=
  if decide (concurrency cfg <= 0 \/ tpsTarget cfg <= 0) then Some (generator, [])
  else
    (* one goroutine after the other makes its ticker *)
    _ ← mapM (fun _ => NewTicker (pacing cfg)) (seq 0 (Z.to_nat (concurrency cfg)));
    generate cfg generator rnds.

Lemma NewTicker_pacing cfg : NewTicker (pacing cfg) = Some (pacing cfg).
Proof. unfold NewTicker. apply decide_False. unfold pacing. cbv zeta. case_decide; lia. Qed.

Lemma tickers_start cfg (l : list nat) : is_Some (mapM (fun _ => NewTicker (pacing cfg)) l).
Proof. apply mapM_is_Some_2, Forall_true. intros i. rewrite NewTicker_pacing. by eexists. Qed.

(** ** The metrics reporter *)

(** The counters as the router holds them at one tick. *)
Definition counters : Type := Z * Z * Z.

(** The loop of [startMetricsReporter], given what it sees at its ticks before it is
    stopped: what [onTick] gets, without the pending callbacks. *)
Fixpoint reporter (last : counters) (ticks : list counters) : list (Z * Z * Z * Z) :=
  match ticks with
  | [] => []
  | curr :: rest => let '(out, last') := metrics_tick last curr in out :: reporter last' rest
  end.

Definition startMetricsReporter (ticks : list counters) : list (Z * Z * Z * Z) := reporter (0, 0, 0) ticks.

(** ** Commands *)

Local Open Scope boot_scope.

Record clientConfig := mkClientConfig {
  cc_etcdEndpoints : string; cc_nodePrefix : string; cc_batchSize : Z; cc_flushDelay : Z;
}.

Definition defaultFlushDelay : Z := 5000000.

(** [registerSharedFlags]: what the flags are when they are not given. *)
Definition default_client : clientConfig :=
  mkClientConfig "127.0.0.1:2379" "/actor_cluster/nodes" 2000 defaultFlushDelay.

Inductive client_call :=
  | CNotify | CStopNotify
  | CDialEtcd (endpoints : list string) | CCloseEtcd
  | CWatch
  | CNewRouter (batchSize flushDelay : Z) | CStopAll
  | COpenStore (hosts : list string) (keyspace : string) | CCloseStore
  | CStartReporter | CStopReporter
  | CWithTimeout (d : Z) | CCancel
  | CGenerate | CDrain
  | CListen (addr : string).

(** A function that returns [(T, error)] and makes calls. *)
Definition newRouterFromConfig (cfg : clientConfig) (dial : option string) (get : result string (list KeyValue)) :
    boot client_call (result string (router EtcdResolver)) :=
  match dial with
  | Some e => bret (Err (wrap_error "etcd connection failed" e))
  | None =>
      bcall (CDialEtcd (SplitComma (cc_etcdEndpoints cfg))) ;;;
      bcall CWatch ;;;
      match Watch get (NewEtcdResolver (cc_nodePrefix cfg)) with
      | None => bpanic "index out of range"
      | Some (_, Some e, _) => bcall CCloseEtcd ;;; bret (Err (wrap_error "resolver watch failed" e))
      | Some (r, None, _) =>
          bcall (CNewRouter (cc_batchSize cfg) (cc_flushDelay cfg)) ;;; bret (Ok (NewRouter r))
      end
  end.

(** [defer cleanup()]: StopAll, then Close. *)
Definition defer_cleanup : boot client_call unit := bdefer CCloseEtcd ;;; bdefer CStopAll.

(** What the outside answers to a command. *)
Record client_answers := mkClientAnswers {
  ca_parse : option string;               (* flag.Parse *)
  ca_dial : option string;
  ca_get : result string (list KeyValue);
  ca_store : option string;
  ca_listen : option string;              (* ListenAndServe; None is ErrServerClosed *)
}.

(** [return err] of a command. *)
Abbreviation command := (boot client_call (option string)).

Definition runStressCommand (client : clientConfig) (cfg : stressConfig) (an : client_answers) : command :=
  match ca_parse an with
  | Some e => bret (Some e)
  | None =>
      match normalize cfg with
      | (_, Some e) => bret (Some e)
      | (cfg', None) =>
          bcall CNotify ;;; bdefer CStopNotify ;;;
          r <- newRouterFromConfig client (ca_dial an) (ca_get an) ;;
          match r with
          | Err e => bret (Some e)
          | Ok _ =>
              defer_cleanup ;;;
              bcall CStartReporter ;;; bdefer CStopReporter ;;;
              bcall (CWithTimeout (duration cfg')) ;;; bdefer CCancel ;;;
              bcall CGenerate ;;; bcall CDrain ;;; bret None
          end
      end
  end.

Definition runServeCommand (client : clientConfig) (httpAddr hosts keyspace : string) (an : client_answers) : command :=
  match ca_parse an with
  | Some e => bret (Some e)
  | None =>
      bcall CNotify ;;; bdefer CStopNotify ;;;
      r <- newRouterFromConfig client (ca_dial an) (ca_get an) ;;
      match r with
      | Err e => bret (Some e)
      | Ok _ =>
          defer_cleanup ;;;
          match ca_store an with
          | Some e =>
              bret (Some (wrap_error "cassandra connection failed"
                (session_error e)))
          | None =>
              bcall (COpenStore (SplitComma hosts) keyspace) ;;; bdefer CCloseStore ;;;
              bcall (CListen httpAddr) ;;; bret (ca_listen an)
          end
      end
  end.

(** [main]: what the process does with its arguments. *)
Inductive client_action := UsageExit2 | UsageReturn | RunStress (args : list string) | RunServe (args : list string)
  | FatalUnknown (cmd : string).

Definition client_main (args : list string) : client_action :=
  match args with
  | [] | [_] => UsageExit2
  | _ :: cmd :: rest =>
      if decide (cmd = "stress") then RunStress rest
      else if decide (cmd = "serve") then RunServe rest
      else if decide (cmd = "-h" \/ cmd = "--help" \/ cmd = "help") then UsageReturn
      else FatalUnknown cmd
  end.

(** [log.Fatal(err)] of what the command returned: the exit status. *)
Definition exit_status (err : option string) : Z := match err with None => 0 | Some _ => 1 end.

(** ** The text of the error counters *)

(** [GetErrorBreakdown], the map ranged in the order [entries]. *)
Definition GetErrorBreakdown (entries : list (string * Z)) : string :=
  let res := foldr (fun e acc => (e.1 +:+ ":" +:+ pretty e.2 +:+ " " +:+ acc)%string) "" entries in
  if decide (res = "") then "None" else res.

(** ** The gateway's routes *)

Inductive gateway_handler :=
  | HIndex | HStressStart | HStressStop | HStressStatus | HStressReset | HExecute | HBalance | HHealth
  | HRedirect.                (* ServeMux redirects a subtree's name without its slash *)
#[export] Instance gateway_handler_dec : EqDecision gateway_handler.
Proof. solve_decision. Defined.

(** The patterns of [mux] in [runServeCommand]; a pattern that ends in a slash stands
    for the subtree. *)
Definition gateway_patterns : list (string * gateway_handler) :=
  [("/", HIndex); ("/api/stress/start", HStressStart); ("/api/stress/stop", HStressStop);
   ("/api/stress/status", HStressStatus); ("/api/stress/reset", HStressReset);
   ("/api/wallet/execute", HExecute); ("/api/wallet/balance/", HBalance); ("/healthz", HHealth)].

(** [http.ServeMux] on a clean path: the longest pattern that matches. *)
Definition pattern_matches (path pat : string) : bool :=
  bool_decide (path = pat) ||
  (HasPrefix path pat && bool_decide (TrimRightSlash pat <> pat)).

Definition mux_handler (patterns : list (string * gateway_handler)) (path : string) : option gateway_handler :=
  if existsb (fun p => bool_decide (p.1 = (path +:+ "/")%string)) patterns &&
     negb (existsb (fun p => bool_decide (p.1 = path)) patterns)
  then Some HRedirect
  else snd <$> foldl (fun best p =>
         if pattern_matches path p.1 then
           match best with
           | Some q => if decide (String.length q.1 < String.length p.1)%nat then Some p else best
           | None => Some p
           end
         else best) None patterns.

(** ** The gateway's shutdown

    Three parties: the goroutine of [runServeCommand] (in ListenAndServe, then its
    deferred calls), the goroutine that waits for the signal, stops the engine and
    calls Shutdown, and the requests in progress.  Shutdown closes the listeners at
    once, upon which ListenAndServe returns ErrServerClosed, and then waits for the
    requests. *)

Inductive serve_pc := SvListen | SvCloseStore | SvStopAll | SvCloseEtcd | SvStopNotify | SvExited.
Inductive bg_pc := BgWait | BgStopEngine | BgShutdown | BgDrain | BgDone.

Record serve_state := mkServe {
  sv_main : serve_pc;
  sv_bg : bg_pc;
  sv_requests : nat;          (* requests in progress *)
  sv_signal : bool;
  sv_closed : bool;           (* the listeners are closed *)
  sv_store : bool;            (* the store is open *)
  sv_router : bool;           (* the router runs *)
  sv_etcd : bool;
}.
#[export] Instance serve_state_Eta : Eta serve_state := fun s =>
  mkServe (sv_main s) (sv_bg s) (sv_requests s) (sv_signal s) (sv_closed s) (sv_store s) (sv_router s) (sv_etcd s).

Definition serving : serve_state := mkServe SvListen BgWait 0 false false true true true.

Inductive serve_step (s : serve_state) : serve_state -> Prop :=
  | sv_accept : sv_main s = SvListen -> sv_closed s = false ->
      serve_step s (s <| sv_requests ::= S |>)
  | sv_finish k : sv_requests s = S k -> sv_main s <> SvExited ->
      serve_step s (s <| sv_requests := k |>)
  | sv_interrupt : serve_step s (s <| sv_signal := true |>)
  | sv_bg_signal : sv_bg s = BgWait -> sv_signal s = true -> sv_main s <> SvExited ->
      serve_step s (s <| sv_bg := BgStopEngine |>)
  | sv_bg_engine : sv_bg s = BgStopEngine -> sv_main s <> SvExited ->
      serve_step s (s <| sv_bg := BgShutdown |>)
  | sv_bg_shutdown : sv_bg s = BgShutdown -> sv_main s <> SvExited ->
      serve_step s (s <| sv_bg := BgDrain |> <| sv_closed := true |>)
  | sv_bg_drained : sv_bg s = BgDrain -> sv_requests s = 0%nat -> sv_main s <> SvExited ->
      serve_step s (s <| sv_bg := BgDone |>)
  | sv_bg_timeout : sv_bg s = BgDrain -> sv_main s <> SvExited ->   (* the 5 s of shutdownCtx *)
      serve_step s (s <| sv_bg := BgDone |>)
  | sv_listen_failed : sv_main s = SvListen -> serve_step s (s <| sv_main := SvCloseStore |>)
  | sv_listen_closed : sv_main s = SvListen -> sv_closed s = true ->
      serve_step s (s <| sv_main := SvCloseStore |>)
  | sv_close_store : sv_main s = SvCloseStore ->
      serve_step s (s <| sv_main := SvStopAll |> <| sv_store := false |>)
  | sv_stop_all : sv_main s = SvStopAll ->
      serve_step s (s <| sv_main := SvCloseEtcd |> <| sv_router := false |>)
  | sv_close_etcd : sv_main s = SvCloseEtcd ->
      serve_step s (s <| sv_main := SvStopNotify |> <| sv_etcd := false |>)
  | sv_stop_notify : sv_main s = SvStopNotify -> serve_step s (s <| sv_main := SvExited |>).

(** ** Theorems *)

Inductive client_resource := CrSignals | CrEtcd | CrRouter | CrStore | CrReporter | CrTimeout.
#[export] Instance client_resource_eq_decision : EqDecision client_resource.
Proof. solve_decision. Defined.

Definition client_effect (c : client_call) : bracket client_resource :=
  match c with
  | CNotify => Opens CrSignals | CStopNotify => Closes CrSignals
  | CDialEtcd _ => Opens CrEtcd | CCloseEtcd => Closes CrEtcd
  | CNewRouter _ _ => Opens CrRouter | CStopAll => Closes CrRouter
  | COpenStore _ _ => Opens CrStore | CCloseStore => Closes CrStore
  | CStartReporter => Opens CrReporter | CStopReporter => Closes CrReporter
  | CWithTimeout _ => Opens CrTimeout | CCancel => Closes CrTimeout
  | CWatch | CGenerate | CDrain | CListen _ => Neutral
  end.

Ltac by_command :=
  eexists _, _; split_and!; [reflexivity|reflexivity|naive_solver|];
  rewrite ?elem_of_cons, ?elem_of_nil; naive_solver.

(** Building a table never panics. *)
Lemma Watch_total prefix get :
  exists r err pc, Watch (E := string) get (NewEtcdResolver prefix) = Some (r, err, pc).
Proof.
  unfold Watch. destruct get as [kvs|e]; [|by eexists _, _, _].
  destruct (refreshSnapshot_serves (E := string) prefix kvs (NewEtcdResolver prefix)) as (r & -> & _); [done..|].
  by eexists _, _, _.
Qed.

(** The commands release what they acquire.  Whatever the flags, etcd, Cassandra and
    the listener answer, both commands return (they never panic), and by then the
    signal handler, the etcd client, the router, the store, the reporter and the timer
    they had acquired are released, each once and in reverse order; bad flags or a bad
    configuration are refused before anything is acquired; and a command succeeds only
    if it ran to its end. *)
Theorem client_commands_release (client : clientConfig) (cfg : stressConfig) (httpAddr hosts keyspace : string)
    (an : client_answers) :
  (exists tr err, run (runStressCommand client cfg an) = (tr, Returned err) /\
     brackets client_effect [] tr = Some [] /\
     (ca_parse an <> None \/ (normalize cfg).2 <> None -> tr = [] /\ err <> None) /\
     (err = None <-> CDrain ∈ tr)) /\
  (exists tr err, run (runServeCommand client httpAddr hosts keyspace an) = (tr, Returned err) /\
     brackets client_effect [] tr = Some [] /\
     (ca_parse an <> None -> tr = [] /\ err <> None) /\
     (err = None <-> CListen httpAddr ∈ tr /\ ca_listen an = None)).
Proof.
  destruct (Watch_total (cc_nodePrefix client) (ca_get an)) as (r & werr & pc & Ew).
  unfold run, runStressCommand, runServeCommand, newRouterFromConfig, defer_cleanup. rewrite Ew.
  destruct (normalize cfg) as [cfg' nerr]. split.
  - destruct (ca_parse an) as [e|]; boot_reduce; [by_command|].
    destruct nerr as [e|]; boot_reduce; [by_command|].
    destruct (ca_dial an) as [e|]; boot_reduce; [|destruct werr as [e|]; boot_reduce].
    all: by_command.
  - destruct (ca_parse an) as [e|]; boot_reduce; [by_command|].
    destruct (ca_dial an) as [e|]; boot_reduce; [|destruct werr as [e|]; boot_reduce; [|destruct (ca_store an); boot_reduce]].
    all: by_command.
Qed.

(** *** Generators *)

Lemma pretty_N_go_nonempty x s : s <> "" -> pretty_N_go x s <> "".
Proof.
  revert s. induction (N.lt_wf_0 x) as [x _ IH]; intros s Hs.
  destruct (decide (x = 0%N)) as [->|Hx]; [done|]. rewrite pretty_N_go_step by lia.
  apply IH; [apply N.div_lt; lia|done].
Qed.

Lemma FormatUint_nonempty z : FormatUint z <> "".
Proof.
  unfold FormatUint, pretty, pretty_N. case_decide; [done|]. rewrite pretty_N_go_step by lia.
  by apply pretty_N_go_nonempty.
Qed.

(** The request ids drawn from generator value [g] on. *)
Fixpoint ids_from (g : Z) (n : nat) : list Z :=
  match n with O => [] | S n' => nextRequestID g :: ids_from (nextRequestID g) n' end.

Lemma ids_from_request m n0 n : ids_from (request_id m n0) n = (fun i => request_id m i) <$> seq (S n0) n.
Proof.
  revert n0. induction n as [|n IH]; intros n0; [done|]. simpl. f_equal. apply (IH (S n0)).
Qed.

Lemma generate_run cfg cfg' rnds g :
  is_i64 (uidMin cfg) -> is_i64 (uidMax cfg) -> normalize cfg = (cfg', None) ->
  Forall (fun rnd => 0 <= rnd < uidSpan cfg') rnds ->
  exists g' envs, generate cfg' g rnds = Some (g', envs) /\
    EnvRequestId <$> envs = ids_from g (length rnds) /\
    EnvTxId <$> envs = FormatUint <$> ids_from g (length rnds) /\
    Forall (fun e => EnvTenantId e = 1 /\ uidMin cfg' <= EnvUid e <= uidMax cfg' /\ 0 < EnvUid e /\
      EnvPayload e = BigEndian_PutUint64 1) envs.
Proof.
  intros Hmin Hmax E Hr. revert g. induction Hr as [|rnd rnds Hrnd _ IH]; intros g; simpl.
  { by eexists _, _. }
  destruct (stress_uids_in_range cfg cfg' rnd Hmin Hmax E Hrnd) as (uid & -> & Hu & Hp & _).
  cbn [mbind option_bind]. destruct (IH (nextRequestID g)) as (g' & envs & -> & Hid & Htx & Hall).
  cbn [mbind option_bind]. eexists _, _. split; [reflexivity|]. cbn [fmap list_fmap EnvRequestId EnvTxId transaction_env].
  unfold fmap in *. rewrite Hid, Htx. split_and!; [done..|]. constructor; [|done]. simpl. split_and!; (done || lia).
Qed.

(** C31: what the load generator sends.  With a configuration that [normalize] accepts,
    no generator panics, neither in [time.NewTicker], whatever the rate and the
    concurrency, nor in [rand.Int63n], and the envelopes of a process (fewer than 2^48) are one per
    tick, have distinct request ids and distinct transaction ids, address accounts of
    the configured range with a deposit of 1, and are complete, so that no node
    refuses one as a bad request or takes one for a repetition of another. *)
Theorem generator_envelopes (m : Z) (n0 : nat) (cfg cfg' : stressConfig) (rnds : list Z) :
  0 <= m < 65536 -> Z.of_nat (n0 + length rnds) < 2 ^ 48 ->
  is_i64 (uidMin cfg) -> is_i64 (uidMax cfg) -> normalize cfg = (cfg', None) ->
  Forall (fun rnd => 0 <= rnd < uidSpan cfg') rnds ->
  exists g envs, runStressGenerators cfg' (request_id m n0) rnds = Some (g, envs) /\
    (0 < concurrency cfg' -> 0 < tpsTarget cfg' -> length envs = length rnds) /\
    NoDup (EnvRequestId <$> envs) /\ NoDup (EnvTxId <$> envs) /\
    Forall (fun e => missing_field e = false /\ uidMin cfg' <= EnvUid e <= uidMax cfg' /\
      EnvPayload e = BigEndian_PutUint64 1) envs.
Proof.
  intros Hm Hn Hmin Hmax E Hr. unfold runStressGenerators. case_decide as Hoff.
  { eexists _, _. split; [reflexivity|]. split_and!; [lia|constructor..]. }
  destruct (tickers_start cfg' (seq 0 (Z.to_nat (concurrency cfg')))) as [ts ->]. cbn [mbind option_bind].
  destruct (generate_run cfg cfg' rnds (request_id m n0) Hmin Hmax E Hr) as (g & envs & -> & Hid & Htx & Hall).
  exists g, envs. rewrite ids_from_request in Hid, Htx.
  assert (forall i, (n0 < i <= n0 + length rnds)%nat -> 0 < request_id m i < 2 ^ 64) as Hrange.
  { intros i Hi. rewrite request_id_value by done. change (2 ^ 48) with 281474976710656 in *.
    rewrite u64_id by go_arith. go_arith. }
  assert (forall i j, i ∈ seq (S n0) (length rnds) -> j ∈ seq (S n0) (length rnds) ->
    request_id m i = request_id m j -> i = j) as Hinj.
  { intros i j [? ?]%elem_of_seq [? ?]%elem_of_seq. rewrite !request_id_value by done.
    change (2 ^ 48) with 281474976710656 in *. rewrite !u64_id by go_arith. lia. }
  split_and!; [done| | | |].
  - intros _ _. apply (f_equal length) in Hid. by rewrite !length_fmap, length_seq in Hid.
  - rewrite Hid. apply NoDup_fmap_2_strong; [exact Hinj|apply NoDup_seq].
  - rewrite Htx, <- list_fmap_compose. apply NoDup_fmap_2_strong; [|apply NoDup_seq].
    intros i j Hi Hj Hp. apply Hinj; [done..|]. apply pretty_N_inj, Z2N.inj in Hp; [done| |];
      apply elem_of_seq in Hi, Hj; [pose proof (Hrange i)|pose proof (Hrange j)]; lia.
  - apply list.Forall_forall. intros e He. pose proof (proj1 (list.Forall_forall _ _) Hall e He) as (Ht & Hu & Hp & Hpay).
    split_and!; try lia; [|done]. unfold missing_field. apply bool_decide_eq_false_2.
    assert (EnvTxId e ∈ EnvTxId <$> envs) as Htxe by by apply list_elem_of_fmap_2.
    assert (EnvRequestId e ∈ EnvRequestId <$> envs) as Hide by by apply list_elem_of_fmap_2.
    rewrite Htx in Htxe. rewrite Hid in Hide. apply list_elem_of_fmap in Htxe as (x & Htxe & _).
    apply list_elem_of_fmap in Hide as (i & Hide & Hi). apply elem_of_seq in Hi.
    specialize (Hrange i ltac:(lia)). pose proof (FormatUint_nonempty x). intros [|[|[|]]]; congruence || lia.
Qed.

Lemma generator_envelopes_witness :
  exists g envs, runStressGenerators (mkStressConfig 1000 10 second (60 * second) 1 100) (request_id 3 0) [4; 99; 4] =
      Some (g, envs) /\ NoDup (EnvTxId <$> envs).
Proof.
  destruct (generator_envelopes 3 0 (mkStressConfig 1000 10 second 0 0 0)
    (mkStressConfig 1000 10 second (60 * second) 1 100) [4; 99; 4]) as (g & envs & E & _ & _ & Hnd & _).
  - lia.
  - simpl. lia.
  - go_decide.
  - go_decide.
  - reflexivity.
  - go_decide.
  - exists g, envs. split; [exact E|exact Hnd].
Defined.

(** *** The reporter *)

(** The rates of all ticks add up to the counters at the last tick, modulo 2^64: no
    request is reported twice or missed, and what is in flight is never negative. *)
Lemma reporter_totals last ticks curr :
  list.last (last :: ticks) = Some curr ->
  foldr (fun out acc => u64 (out.1.1.1 + acc)) 0 (reporter last ticks) = u64 (curr.1.1 - last.1.1) /\
  Forall (fun out => 0 <= out.2) (reporter last ticks).
Proof.
  revert last. induction ticks as [|c ticks IH]; intros [[ls lsu] le] Hl.
  - simpl in Hl. injection Hl as <-. simpl. by rewrite Z.sub_diag.
  - destruct c as [[cs csu] ce]. destruct (IH (cs, csu, ce) Hl) as [Hsum Hall]. cbn [reporter metrics_tick foldr fst snd].
    split.
    + rewrite Hsum. cbn [fst snd]. rewrite u64_add_l, Z.add_comm, u64_add_l. f_equal. lia.
    + constructor; [|done]. cbn [snd]. case_decide; [|done]. unfold u64. apply Z.mod_pos_bound. lia.
Qed.

(** *** Texts and routes *)

Lemma breakdown_none entries : GetErrorBreakdown entries = "None" <-> entries = [].
Proof.
  destruct entries as [|[k n] entries]; [done|]. split; [|done]. unfold GetErrorBreakdown. simpl foldr.
  set (tail := foldr _ _ _). case_decide as Hd.
  - destruct k; discriminate Hd.
  - intros E. exfalso. assert (forall a b : string, (a +:+ ":" +:+ b)%string <> "None") as Hno.
    { intros a b. do 5 (destruct a as [|? a]; [by intros [=]|]). by intros [=]. }
    by apply (Hno k (pretty n +:+ " " +:+ tail)%string).
Qed.

(** Every path of the API reaches its handler, a balance query whatever follows, and
    everything else the index page. *)
Lemma gateway_routes :
  Forall (fun p => mux_handler gateway_patterns p.1 = Some p.2) gateway_patterns /\
  mux_handler gateway_patterns "/api/wallet/balance/42" = Some HBalance /\
  mux_handler gateway_patterns "/api/wallet/balance" = Some HRedirect /\
  mux_handler gateway_patterns "/favicon.ico" = Some HIndex.
Proof. repeat split. repeat (constructor; [reflexivity|]). constructor. Qed.

(** *** The gateway's shutdown *)

(** Before the signal nothing is closed by the shutdown; and once the listeners are
    closed no request begins. *)
Lemma serve_closed_signal s : rtc serve_step serving s -> sv_closed s = true -> sv_signal s = true.
Proof.
  intros Hs. cut ((sv_bg s <> BgWait -> sv_signal s = true) /\ (sv_closed s = true -> sv_signal s = true)); [naive_solver|].
  revert s Hs. refine (rtc_ind_r _ _ _ _); [done|]. intros s s' _ Hst [I1 I2].
  destruct Hst; simpl in *; try naive_solver congruence.
Qed.

