(* ===== verification/Gateway.v ===== *)
(** * The HTTP gateway: cmd/client/serve.go

    The handlers of the test gateway.  A request is its method and what the JSON
    decoder makes of its body; a response is a status and a body.  The router's
    [ExecuteAndWait] is a function argument of [handleExecute] (its own behaviour is
    in [ClientInv]).  [ServeHTTP] is the whole server: the mux of [ClientMain] over the
    handlers.  The bytes of the JSON encoding and of the HTML page are left out. *)

From S2P Require Import Prelude Wire Discovery Mailbox Store Wallet WalletSpec WalletSystem Reconciliation Callbacks Client Stress ClientMain.

(** ** Responses *)

Inductive json := JBool (b : bool) | JInt (z : Z) | JText (s : string) | JStress (s : stressStatus).
Inductive http_body :=
  | TextBody (msg : string) | HTMLBody | JSONBody (fields : list (string * json)) | JSONValue (v : json).
Record http_response := mkResponse { http_status : Z; http_body_of : http_body }.

Definition StatusOK : Z := 200.
Definition StatusBadRequest : Z := 400.
Definition StatusNotFound : Z := 404.
Definition StatusMethodNotAllowed : Z := 405.
Definition StatusConflict : Z := 409.
Definition StatusInternalServerError : Z := 500.
Definition StatusServiceUnavailable : Z := 503.
Definition StatusGatewayTimeout : Z := 504.

(** [http.Error], [writeJSON] and [writeHTML]; the first write of a body sends 200. *)
Definition http_Error (msg : string) (code : Z) : http_response := mkResponse code (TextBody msg).
Definition writeJSON (code : Z) (fields : list (string * json)) : http_response :=
  mkResponse code (JSONBody fields).
Definition writeHTML : http_response := mkResponse StatusOK HTMLBody.
Definition method_not_allowed : http_response := http_Error "method not allowed" StatusMethodNotAllowed.

Definition mapErrorToHTTPStatus (errCode : string) : Z :=
  if decide (errCode = ErrDeadlineExceeded) then StatusGatewayTimeout
  else if decide (errCode ∈ [ErrInsufficientFunds; ErrInvalidPayload]) then StatusBadRequest
  else if decide (errCode ∈ [ErrWrongNode; ErrDiscovery; ErrConnection; ErrTransportClosed;
                             ErrStreamInterrupted; ErrNodeOverloaded]) then StatusServiceUnavailable
  else StatusInternalServerError.

(** ** Handlers without state *)

Definition handleIndex (method : string) : http_response :=
  if decide (method = "GET") then writeHTML else method_not_allowed.

Definition handleHealth (method : string) : http_response :=
  if decide (method = "GET") then writeJSON StatusOK [("status", JText "ok")] else method_not_allowed.

(** ** Stress control *)

Record stressRequest := mkStressRequest {
  TPSTarget : Z; Concurrency : Z; DurationSec : Z; DrainWindowSec : Z; UIDMin : Z; UIDMax : Z;
}.

(** The configuration a request asks for; the products are int64. *)
Definition stress_config_of (req : stressRequest) : stressConfig :=
  mkStressConfig (TPSTarget req) (Concurrency req) (i64 (DurationSec req * second))
    (i64 (DrainWindowSec req * second)) (UIDMin req) (UIDMax req).

(** [body] is [None] when the decoder fails. *)
Definition handleStressStart (id : nat) (m : metrics) (method : string) (body : option stressRequest)
    (e : StressEngine) : StressEngine * http_response :=
  if decide (method <> "POST") then (e, method_not_allowed)
  else match body with
       | None => (e, http_Error "invalid json body" StatusBadRequest)
       | Some req =>
           if decide (TPSTarget req <= 0 \/ Concurrency req <= 0 \/ DurationSec req <= 0)
           then (e, http_Error "tps_target, concurrency, duration_sec must be > 0" StatusBadRequest)
           else match engine_Start id (stress_config_of req) e with
                | (e', Some err) =>
                    (e', http_Error err (if decide (err = errAlreadyRunning) then StatusConflict
                                         else StatusInternalServerError))
                | (e', None) =>
                    (e', writeJSON StatusOK [("started", JBool true); ("status", JStress (engine_Status m e'))])
                end
       end.

(** [handleStressStop] up to the wait for [done]; [m] and [e'] are the counters and
    the engine once it is closed. *)
Definition handleStressStop (method : string) (e : StressEngine) : StressEngine * (metrics -> StressEngine -> http_response) :=
  if decide (method <> "POST") then (e, fun _ _ => method_not_allowed)
  else ((engine_Stop e).1,
        fun m e' => writeJSON StatusOK [("stopped", JBool true); ("status", JStress (engine_Status m e'))]).

Definition handleStressStatus (m : metrics) (method : string) (e : StressEngine) : http_response :=
  if decide (method <> "GET") then method_not_allowed
  else mkResponse StatusOK (JSONValue (JStress (engine_Status m e))).

Definition handleStressReset (m : metrics) (method : string) (e : StressEngine) : StressEngine * http_response :=
  if decide (method <> "POST") then (e, method_not_allowed)
  else let e' := engine_Reset m e in
       (e', writeJSON StatusOK [("reset", JBool true); ("status", JStress (engine_Status m e'))]).

(** ** Executing a transaction *)

Record executeRequest := mkExecuteRequest { UID : Z; Amount : Z }.    (* int64 *)

(** The envelope [handleExecute] sends. *)
Definition execute_env (reqID : Z) (req : executeRequest) : RemoteEnvelope :=
  transaction_env reqID (UID req) (Amount req).

(** The response to a result. *)
Definition execute_response (reqID : Z) (req : executeRequest) (res : RemoteResult) : option http_response :=
  let code := if ResSuccess res then StatusOK else mapErrorToHTTPStatus (ResErrorCode res) in
  let fields := [("success", JBool (ResSuccess res)); ("request_id", JText (FormatUint reqID));
                 ("uid", JInt (UID req)); ("amount", JInt (Amount req));
                 ("error_code", JText (ResErrorCode res)); ("error_msg", JText (ResErrorMsg res))] in
  if decide (8 <= length (ResPayload res))%nat
  then raw ← BigEndian_Uint64 (ResPayload res);
       Some (writeJSON code (fields ++ [("balance", JInt (i64 raw))]))
  else Some (writeJSON code fields).

(** [handleExecute]: [reqID] is what [nextRequestID] gives, if it is called. *)
Definition handleExecute (exec : RemoteEnvelope -> RemoteResult) (reqID : Z) (method : string)
    (body : option executeRequest) : option http_response :=
  if decide (method <> "POST") then Some method_not_allowed
  else match body with
       | None => Some (http_Error "invalid json body" StatusBadRequest)
       | Some req =>
           if decide (UID req <= 0) then Some (http_Error "uid must be > 0" StatusBadRequest)
           else execute_response reqID req (exec (execute_env reqID req))
       end.

(** ** Reading a balance *)

(** [strconv.ParseInt(s, 10, 64)]; [None] is an error. *)
Fixpoint parse_digits (s : string) (acc : Z) : option Z :=
  match s with
  | EmptyString => Some acc
  | String c s' =>
      let d := Z.of_N (Ascii.N_of_ascii c) - 48 in
      if decide (0 <= d < 10) then parse_digits s' (acc * 10 + d) else None
  end.
Definition ParseInt (s : string) : option Z :=
  let '(neg, digits) :=
    match s with
    | String c r =>
        if decide (c = Ascii.ascii_of_N 45 (* - *)) then (true, r) else if decide (c = Ascii.ascii_of_N 43 (* + *)) then (false, r) else (false, s)
    | EmptyString => (false, s)
    end in
  if decide (digits = "") then None
  else n ← parse_digits digits 0;
       let z := if neg then - n else n in
       if decide (is_i64 z) then Some z else None.

(** [for scanner.Scan(&version, &delta) { balance += delta; finalVersion = version }]. *)
Fixpoint scan_version_deltas (rows : list row) (st : Z * Z) : Z * Z :=
  match rows with
  | [VInt version; VInt delta] :: rest => scan_version_deltas rest (i64 (st.1 + delta), version)
  | _ => st
  end.

Section WithStore.
Context {W : Type} `{Store W}.

Definition computeBalance (w : W) (tenant u : Z) : W * result string (Z * Z) :=
  let '(w1, ((snapshotBalance, lastVersion), err)) :=
    Query w snapCQL [VInt tenant; VInt u] (fun rows st => (scan_snapshot rows st, None)) (0, 0) in
  match err with
  | Some e => (w1, Err (wrap_error "load snapshot failed" e))
  | None =>
      let '(w2, (st, err2)) :=
        Query w1 balanceCQL [VInt tenant; VInt u; VInt lastVersion]
          (fun rows st => (scan_version_deltas rows st, None)) (snapshotBalance, lastVersion) in
      match err2 with
      | Some e => (w2, Err (wrap_error "load events failed" e))
      | None => (w2, Ok st)
      end
  end.

Definition handleBalance (w : W) (method path : string) : W * http_response :=
  if decide (method <> "GET") then (w, method_not_allowed)
  else match ParseInt (TrimPrefix path "/api/wallet/balance/") with
       | Some u =>
           if decide (u <= 0) then (w, http_Error "invalid uid" StatusBadRequest)
           else match computeBalance w 1 u with
                | (w', Err e) => (w', http_Error e StatusInternalServerError)
                | (w', Ok (bal, ver)) =>
                    (w', writeJSON StatusOK [("uid", JInt u); ("exact_balance", JInt bal);
                                             ("last_version", JInt ver)])
                end
       | None => (w, http_Error "invalid uid" StatusBadRequest)
       end.
End WithStore.

(** ** The server *)

(** A request, with what the decoder makes of its body as either type. *)
Record http_request := mkRequest {
  rq_method : string; rq_path : string;
  rq_stress : option stressRequest; rq_execute : option executeRequest;
}.

(** What a handler comes to: a response, the wait of [handleStressStop] for the run it
    cancelled and the response after it, the mux's own redirect, or a panic. *)
Inductive handled :=
  | Replied (r : http_response)
  | Waits (run : option nat) (k : metrics -> StressEngine -> http_response)
  | Redirected
  | Panicked.

(** [gatewayServer], its router given by [ExecuteAndWait], with the process's generator
    of request ids. *)
Record gatewayServer (W : Type) := mkGateway { gs_generator : Z; gs_engine : StressEngine; gs_store : W }.
Arguments mkGateway {W}.
Arguments gs_generator {W} g : rename.
Arguments gs_engine {W} g : rename.
Arguments gs_store {W} g : rename.
#[export] Instance gatewayServer_Eta {W} : Eta (gatewayServer W) := fun g =>
  mkGateway (gs_generator g) (gs_engine g) (gs_store g).

(** [nextRequestID] is called once the request has passed its checks. *)
Definition sends (req : http_request) : option executeRequest :=
  if decide (rq_method req <> "POST") then None
  else match rq_execute req with
       | Some e => if decide (UID e <= 0) then None else Some e
       | None => None
       end.

Section Serve.
Context {W : Type} `{Store W}.
Variable exec : RemoteEnvelope -> RemoteResult.   (* router.ExecuteAndWait *)
Variable id : nat.                                (* the goroutine a Start would start *)
Variable m : metrics.                             (* the router's counters *)

Definition ServeHTTP (g : gatewayServer W) (req : http_request) : gatewayServer W * handled :=
  let method := rq_method req in
  match mux_handler gateway_patterns (rq_path req) with
  | Some HIndex => (g, Replied (handleIndex method))
  | Some HStressStart =>
      let '(e, r) := handleStressStart id m method (rq_stress req) (gs_engine g) in
      (g <| gs_engine := e |>, Replied r)
  | Some HStressStop =>
      let '(e, k) := handleStressStop method (gs_engine g) in
      (g <| gs_engine := e |>,
       if decide (method = "POST") then Waits (engine_Stop (gs_engine g)).2 k else Replied (k m e))
  | Some HStressStatus => (g, Replied (handleStressStatus m method (gs_engine g)))
  | Some HStressReset =>
      let '(e, r) := handleStressReset m method (gs_engine g) in
      (g <| gs_engine := e |>, Replied r)
  | Some HExecute =>
      let reqID := nextRequestID (gs_generator g) in
      (g <| gs_generator := if sends req is Some _ then reqID else gs_generator g |>,
       match handleExecute exec reqID method (rq_execute req) with
       | Some r => Replied r
       | None => Panicked
       end)
  | Some HBalance =>
      let '(w, r) := handleBalance (gs_store g) method (rq_path req) in
      (g <| gs_store := w |>, Replied r)
  | Some HHealth => (g, Replied (handleHealth method))
  | Some HRedirect => (g, Redirected)
  | None => (g, Replied (http_Error "404 page not found" StatusNotFound))
  end.
End Serve.

(** The method each handler asks for. *)
Definition handler_method (h : gateway_handler) : option string :=
  match h with
  | HIndex | HStressStatus | HBalance | HHealth => Some "GET"
  | HStressStart | HStressStop | HStressReset | HExecute => Some "POST"
  | HRedirect => None
  end.

(** ** Theorems *)

Lemma scan_version_deltas_run log bal k :
  is_i64 bal ->
  scan_version_deltas ((fun r => [VInt r.1; VInt (delta_amount r.2)]) <$> numbered k log) (bal, k) =
    (i64 (bal + total log), k + Z.of_nat (length log)).
Proof.
  revert bal k. induction log as [|e log IH]; intros bal k Hb.
  - cbn. change (total []) with 0. by rewrite !Z.add_0_r, i64_id.
  - cbn [numbered fmap list_fmap scan_version_deltas fst snd]. rewrite IH by apply i64_range.
    rewrite total_cons. autorewrite with gonorm. f_equal; [f_equal; lia|]. simpl. lia.
Qed.

Lemma addTxID_balance tx b b' : addTxID tx b = Some b' -> balance b' = balance b.
Proof.
  unfold addTxID. destruct (go_index _ _); [|done]. cbn. destruct (go_update _ _ _); [|done]. by intros [= <-].
Qed.

Section Theorems.
Context {W : Type} `{WalletDB W}.

(** What the two queries give when no error is reported. *)
Lemma computeBalance_run (w : W) t u :
  exists w' r, computeBalance w t u = (w', r) /\ db w' = db w /\ (reliable w -> is_ok r = true) /\
    (forall x, r = Ok x -> x =
       scan_version_deltas (select_version_deltas (db w) t u (snapshot_of (db w) t u).2) (snapshot_of (db w) t u)).
Proof.
  unfold computeBalance. destruct (Query w snapCQL _ _ _) as [w1 [[sb lv] err1]] eqn:Eq1.
  destruct (pure_query _ _ _ _ _ _ _ _ _ (sel_snapshot _ _) Eq1) as (Hw1 & Hst1 & Hrel1).
  destruct err1 as [e|].
  { eexists _, _. split; [reflexivity|]. split_and!; [done| |done]. intros Rel. by destruct (Hrel1 Rel). }
  rewrite scan_select_snapshot in Hst1. rewrite <- (Hst1 eq_refl) in *.
  destruct (Query w1 balanceCQL _ _ _) as [w2 [st err2]] eqn:Eq2.
  destruct (pure_query _ _ _ _ _ _ _ _ _ (sel_balance _ _ _) Eq2) as (Hw2 & Hst2 & Hrel2).
  rewrite Hw1 in *. destruct err2 as [e|].
  { eexists _, _. split; [reflexivity|]. split_and!; [done| |done]. intros Rel.
    destruct (Hrel1 Rel) as [-> _]. by destruct (Hrel2 Rel). }
  eexists _, _. split; [reflexivity|]. split_and!; [done|done|].
  intros x [= <-]. by rewrite (Hst2 eq_refl).
Qed.

(** C27: the balance page agrees with the actor.  When rehydration of an account
    succeeds, the balance and the version the gateway computes from the store are
    those the actor has, whenever its reads succeed (as they do on a working
    store); computing them changes nothing. *)
Theorem computeBalance_agrees (w w' : W) (t u now : Z) b' :
  let '(sb, lv) := snapshot_of (db w) t u in
  let p := after_version lv (rows_of (db w) t u) in
  is_i64 sb -> - 2 ^ 63 <= lv -> lv + Z.of_nat (length p) < 2 ^ 63 ->
  rehydrate w (newBusinessActor t u now) = Some (w', (b', None)) ->
  exists w2 r, computeBalance w t u = (w2, r) /\ db w2 = db w /\
    (reliable w -> r = Ok (balance b', version b')) /\ (forall x, r = Ok x -> x = (balance b', version b')).
Proof.
  pose proof (rehydrate_run w _ [] (newBusinessActor_ring t u now)) as Hrun. simpl in Hrun.
  destruct (computeBalance_run w t u) as (w2 & r & Ec & Hdb & Hrel & Hbal).
  destruct (snapshot_of (db w) t u) as [sb lv] eqn:Es. simpl in Hbal. intros p Hsb Hlv Hlen E.
  destruct (Hrun Hsb Hlv Hlen) as (w1 & b1 & err & hist & E1 & _ & _ & _ & _ & _ & Hok).
  rewrite E in E1. simplify_eq. destruct (Hok eq_refl) as (Hnum & Hv & Hb & _ & _). fold p in Hnum, Hv, Hb.
  assert (forall x, r = Ok x -> x = (balance b1, version b1)) as Hx.
  { intros x Hr. rewrite (Hbal x Hr). unfold select_version_deltas. fold p. rewrite Hnum.
    rewrite scan_version_deltas_run by done. rewrite Hb, Hv. f_equal. by rewrite length_fmap. }
  exists w2, r. split_and!; try done. intros Rel. specialize (Hrel Rel). destruct r as [x|]; [|done].
  f_equal. by apply Hx.
Qed.

(** C24: a transaction through the gateway.  For an execute request the handler asks the
    cluster for exactly one envelope, whatever the cluster answers: of the account of
    the request, with the request id as transaction id and with the amount of the
    request, unchanged, in its 8-byte payload.  When the actor of the account handles
    that envelope and its result comes back, the answer is: 200 and an untouched balance
    when the actor knows the transaction id; otherwise 200 with the new balance, which
    is the one the actor then has; 400 and an untouched balance when the sum would be
    negative (or wrap); 500 and an untouched balance when the write failed. *)
Theorem execute_end_to_end (reqID : Z) (req : executeRequest) :
  is_i64 (Amount req) -> 0 < UID req ->
  exists env,
    EnvTenantId env = 1 /\ EnvUid env = UID req /\ EnvTxId env = FormatUint reqID /\ EnvRequestId env = reqID /\
    amount_of env = Amount req /\
    (forall exec, handleExecute exec reqID "POST" (Some req) = execute_response reqID req (exec env)) /\
    forall (w : W) (now : Z) (b : BusinessActor) h, Handle now w b env = Some h ->
    exists resp, execute_response reqID req (completeResult (h_result h) env) = Some resp /\
      let sum := i64 (balance b + Amount req) in
      (FormatUint reqID ∈ txCache b /\ http_status resp = 200 /\ balance (h_actor h) = balance b \/
       FormatUint reqID ∉ txCache b /\ 0 <= sum /\ http_status resp = 200 /\ balance (h_actor h) = sum /\
         (exists fields, http_body_of resp = JSONBody fields /\ ("balance", JInt sum) ∈ fields) \/
       FormatUint reqID ∉ txCache b /\ sum < 0 /\ http_status resp = 400 /\ balance (h_actor h) = balance b \/
       FormatUint reqID ∉ txCache b /\ 0 <= sum /\ http_status resp = 500 /\ balance (h_actor h) = balance b).
Proof.
  intros Ha Hu. exists (execute_env reqID req). split_and!; [done..| | |].
  - unfold amount_of. cbn [EnvPayload execute_env transaction_env].
    rewrite <- (app_nil_r (BigEndian_PutUint64 _)), BigEndian_roundtrip. simpl. autorewrite with gonorm. by apply i64_id.
  - intros exec. unfold handleExecute. rewrite (decide_False (P := "POST" <> "POST")) by tauto.
    by rewrite (decide_False (P := UID req <= 0)) by lia.
  - intros w now b h. unfold Handle. cbn [EnvTxId EnvPayload execute_env transaction_env].
    case_decide as Htx; [intros [= <-]; eexists; split; [reflexivity|left; by split_and!]|].
    change (FormatUint reqID ∉ txCache b) in Htx. rewrite decide_False by (rewrite length_PutUint64; lia).
    rewrite <- (app_nil_r (BigEndian_PutUint64 _)), BigEndian_roundtrip. cbn [mbind option_bind].
    autorewrite with gonorm. rewrite (i64_id (Amount req)) by done. cbn [balance set_field].
    set (sum := i64 (balance b + Amount req)). case_decide as Hneg.
    { intros [= <-]. eexists. split; [reflexivity|]. right; right; left. by split_and!. }
    unfold commit_tx. cbv zeta. destruct (ExecuteBatch _ _ _) as [w' [err|]].
    { intros [= <-]. eexists. split; [reflexivity|]. right; right; right. split_and!; [done|lia|reflexivity|reflexivity]. }
    destruct (addTxID _ _) as [b1|] eqn:Eadd; [|done]. apply addTxID_balance in Eadd. cbn in Eadd.
    cbn [mbind option_bind]. intros [= <-]. unfold execute_response, encodeBalance.
    cbn [h_result h_actor completeResult ResPayload ResSuccess reply balance set_field].
    rewrite decide_True by (rewrite length_PutUint64; lia).
    rewrite <- (app_nil_r (BigEndian_PutUint64 _)), BigEndian_roundtrip. cbn [mbind option_bind].
    eexists. split; [reflexivity|]. right; left. split_and!; [done|lia|reflexivity|exact Eadd|].
    eexists. split; [reflexivity|]. autorewrite with gonorm.
    rewrite Eadd. unfold sum. rewrite i64_i64. apply elem_of_app. right. by left.
Qed.

(** *** The server *)

Lemma execute_response_total reqID req res : exists r, execute_response reqID req res = Some r.
Proof.
  unfold execute_response. case_decide as Hl; [|by eexists].
  destruct (BigEndian_Uint64_Some _ Hl) as [raw ->]. by eexists.
Qed.

Lemma handleBalance_db (w : W) method path : db (handleBalance w method path).1 = db w.
Proof.
  unfold handleBalance. repeat case_decide; try done. destruct (ParseInt _) as [u|]; [|done].
  case_decide; [done|]. destruct (computeBalance_run w 1 u) as (w' & r & -> & Hdb & _). by destruct r as [[]|].
Qed.

(** A request with the wrong method. *)
Lemma serve_wrong_method exec id m (g : gatewayServer W) req h method :
  mux_handler gateway_patterns (rq_path req) = Some h -> handler_method h = Some method ->
  rq_method req <> method -> ServeHTTP exec id m g req = (g, Replied method_not_allowed).
Proof.
  intros Er Hh Hm. unfold ServeHTTP. rewrite Er. destruct g as [gen eng st].
  destruct h; simplify_eq/=; unfold handleIndex, handleStressStart, handleStressStop, handleStressStatus,
    handleStressReset, handleExecute, sends, handleBalance, handleHealth; by repeat case_decide.
Qed.

(** A request that sends a transaction. *)
Lemma serve_transaction exec id m (g : gatewayServer W) req e :
  let reqID := nextRequestID (gs_generator g) in
  mux_handler gateway_patterns (rq_path req) = Some HExecute -> sends req = Some e ->
  exists r, execute_response reqID e (exec (execute_env reqID e)) = Some r /\
    ServeHTTP exec id m g req = (g <| gs_generator := reqID |>, Replied r).
Proof.
  intros reqID Er Hs. destruct (execute_response_total reqID e (exec (execute_env reqID e))) as [r Hr].
  exists r. split; [done|]. unfold ServeHTTP. rewrite Er, Hs. fold reqID.
  unfold sends in Hs. case_decide as Hm; [done|]. destruct (rq_execute req) as [e'|]; [|done].
  case_decide as Hu; [done|]. injection Hs as ->. unfold handleExecute.
  case_decide; [done|]. case_decide; [done|]. by rewrite Hr.
Qed.

(** Any other request. *)
Lemma serve_local exec exec' id m (g : gatewayServer W) req :
  mux_handler gateway_patterns (rq_path req) <> Some HExecute \/ sends req = None ->
  let '(g', out) := ServeHTTP exec id m g req in
  out <> Panicked /\ db (gs_store g') = db (gs_store g) /\ gs_generator g' = gs_generator g /\
  ServeHTTP exec' id m g req = (g', out).
Proof.
  intros Hor. unfold ServeHTTP. destruct g as [gen eng st]. simpl.
  destruct (mux_handler gateway_patterns (rq_path req)) as [[]|]; simpl; try done.
  - by destruct (handleStressStart _ _ _ _ _) as [e r].
  - destruct (handleStressStop _ _) as [e r]. by case_decide.
  - by destruct (handleStressReset _ _ _) as [e r].
  - destruct Hor as [Hr|Hs]; [done|]. rewrite Hs. unfold sends in Hs. unfold handleExecute.
    case_decide; [done|]. destruct (rq_execute req) as [e|]; [|done]. by case_decide.
  - assert (Hdb := handleBalance_db st (rq_method req) (rq_path req)).
    by destruct (handleBalance _ _ _) as [w r].
Qed.

(** What the server does with a request.  No handler panics and none writes to the
    store.  A request with a method its handler does not take is answered with 405 and
    changes nothing.  A transaction is only sent for a POST to the execute path with an
    account: under the next request id, once, and its result is the response; any other
    request takes no request id and does not depend on the cluster at all. *)
Theorem gateway_serves exec id m (g : gatewayServer W) req :
  let '(g', out) := ServeHTTP exec id m g req in
  let route := mux_handler gateway_patterns (rq_path req) in
  let reqID := nextRequestID (gs_generator g) in
  out <> Panicked /\ db (gs_store g') = db (gs_store g) /\
  (forall h method, route = Some h -> handler_method h = Some method -> rq_method req <> method ->
     g' = g /\ out = Replied method_not_allowed) /\
  ((exists e r, route = Some HExecute /\ sends req = Some e /\ (g' = g <| gs_generator := reqID |>) /\
      out = Replied r /\ execute_response reqID e (exec (execute_env reqID e)) = Some r) \/
   (gs_generator g' = gs_generator g /\ forall exec', ServeHTTP exec' id m g req = (g', out))).
Proof.
  assert (Hw := fun h me => serve_wrong_method exec id m g req h me).
  destruct (decide (mux_handler gateway_patterns (rq_path req) = Some HExecute /\ is_Some (sends req)))
    as [[Hr [e He]]|Hno].
  - destruct (serve_transaction exec id m g req e Hr He) as (r & Hx & Es). rewrite Es in *. cbv zeta.
    split_and!; [done|by destruct g| |left; by eexists e, r].
    intros h me Hh Hme Hne. by apply pair_equal_spec, Hw with h me.
  - assert (mux_handler gateway_patterns (rq_path req) <> Some HExecute \/ sends req = None) as Hor.
    { destruct (sends req) as [e|] eqn:Hs; [left|by right]. intros Hr. apply Hno. by eauto. }
    assert (Hl := fun exec' => serve_local exec exec' id m g req Hor).
    destruct (ServeHTTP exec id m g req) as [g' out] eqn:Es.
    destruct (Hl exec) as (Hp & Hdb & Hg & _). split_and!; [done|done| |right; split; [done|apply Hl]].
    intros h me Hh Hme Hne. by apply pair_equal_spec, Hw with h me.
Qed.
End Theorems.

(** ** Witnesses *)

Lemma computeBalance_agrees_witness :
  exists w2, computeBalance (mem_store (demo_tables 1)) 1 7 = (w2, Ok (70, 2)).
Proof.
  destruct (rehydrate (mem_store (demo_tables 1)) (newBusinessActor 1 7 0)) as [[w1 [b [err|]]]|] eqn:E;
    [by vm_compute in E| |by vm_compute in E].
  assert (balance b = 70 /\ version b = 2) as [Hb Hv].
  { vm_compute in E. injection E as <- <-. by split. }
  destruct (computeBalance_agrees (mem_store (demo_tables 1)) w1 1 7 0 b) as (w2 & r & Ec & _ & Hrel & _);
    [go_decide|by vm_compute|by vm_compute|exact E|].
  exists w2. rewrite Ec, (Hrel (mem_reliable _)). by rewrite Hb, Hv.
Defined.

Lemma execute_end_to_end_witness :
  exists env, EnvUid env = 7 /\ EnvTxId env = "42" /\ amount_of env = -100 /\
    forall exec, handleExecute exec 42 "POST" (Some (mkExecuteRequest 7 (-100))) =
      execute_response 42 (mkExecuteRequest 7 (-100)) (exec env).
Proof.
  destruct (execute_end_to_end (W := CassandraStore MemSession) 42 (mkExecuteRequest 7 (-100)))
    as (env & _ & HU & Htx & _ & Ham & Hex & _); [go_decide|done|].
  exists env. split_and!; [exact HU|exact Htx|exact Ham|exact Hex].
Defined.

(** A deposit that the actor carries out: 200 and the new balance. *)
Example execute_deposit :
  exists h resp, Handle 5 (mem_store (mkTables ∅ ∅)) (newBusinessActor 1 7 0) (execute_env 42 (mkExecuteRequest 7 100)) = Some h /\
    handleExecute (fun e => completeResult (h_result h) e) 42 "POST" (Some (mkExecuteRequest 7 100)) = Some resp /\
    http_status resp = 200 /\ balance (h_actor h) = 100.
Proof. eexists _, _. split_and!; [vm_compute; reflexivity..]. Qed.
